(* ===== verification/_CoqProject ===== *)
-Q . S2P
Prelude.v
StdMap.v
Arrays.v
Blake3Compress.v
Blake3.v
Blake3Chunk.v
Blake3Tree.v
Blake3Stack.v
Blake3Hasher.v
Blake3Spec.v
Digest.v
CasHash.v
CasHashSpec.v
TimeUtils.v
Merklize.v
MerklizeSpec.v
Grpc.v
Client.v
ClientSpec.v
ClientBlobs.v
ClientBlobsSpec.v
Merge.v
MergeSpec.v
Paths.v
PathsSpec.v
StringUtils.v
Cstring.v
Undefined.v
Posix.v
FileUtils.v
FileUtilsSpec.v
CopyFileSpec.v
Temporary.v
TemporarySpec.v
StagedDirectory.v
StagedDirectorySpec.v
FileDescentSpec.v
RelativePath.v
RelativePathSpec.v
Dirent.v
DirentSpec.v
DeleteSpec.v
StagedCapture.v
StagedCaptureSpec.v
SystemUtils.v
SystemUtilsSpec.v
TokenAuthenticator.v
TokenAuthenticatorSpec.v
ConnectionOptions.v
ConnectionOptionsSpec.v
CommandLine.v
CommandLineSpec.v
CommandLineAssign.v
ConnectionOptionsCommandLine.v
LogStream.v
LogStreamSpec.v
ClientUpload.v
ClientUploadSpec.v
CasServer.v
CasRoundTrip.v
Logging.v
RequestMetadata.v
SupportSpec.v
GrpcContext.v
Runner.v
RunnerExecute.v
RunnerExecuteSpec.v
RunnerMain.v
RunnerMainSpec.v
Metrics.v
MetricsSpec.v
MetricsPublish.v
MetricsPublishSpec.v
MetricsDaemon.v
MetricsDaemonSpec.v
MetricsTesting.v
FileMonitor.v
FileMonitorSpec.v
InotifyMonitor.v
OutputStreamer.v
