(* ===== verification/Prelude.v ===== *)
(** * Verification library of buildbox-common

    buildbox-common is the C++ library shared by the tools of BuildBox, which
    speak the Remote Execution API: it hashes blobs, turns directories into
    Merkle trees, merges them, moves blobs between a machine and a
    content-addressable store (CAS), and is the frame in which runners execute
    the actions of a build.  This library models its core in Rocq and proves
    what makes it correct.  All source paths below are under
    src/buildbox-common/buildboxcommon/, and file names lack the prefix
    buildboxcommon_ where they have one; the metrics are under
    src/buildbox-common/buildboxcommonmetrics/ (prefix buildboxcommonmetrics_).

    ** Parts, files and sources

    - Shared: [Prelude] (strings as lists of bytes, exceptions as a sum type
      [res], tactics), [StdMap] (string order, std::map as a sorted list),
      [Arrays] (buffers addressed by integers, with checked reads and writes),
      [Cstring] (strings that end in a zero byte), [Undefined] (the monad [UM]
      of stateful code that throws and may be undefined).

    - BLAKE3ZCC (blake3.cpp, blake3_impl.h, blake3_portable.cpp,
      blake3_dispatch.cpp): [Blake3Compress] is the compression function on
      32-bit words, [Blake3] the chunk state, the subtree compression, the
      incremental hasher with its stack of chaining values and the finalization.
      A value [None] of these is an access outside an array.  [Blake3Chunk],
      [Blake3Tree], [Blake3Stack] and [Blake3Hasher] hold the lemmas;
      [Blake3Spec] the reference (a hash defined on whole messages, by splitting
      at the largest power of two of chunks) and the theorems that the hasher
      computes it.

    - Digests (protos.h, cashash.cpp): [Digest] has the message, its comparison
      operators and two classes, the interface through which every other
      component hashes: [DigestFunction] is CASHash::hash, which follows the
      build, [ClientDigestFunction] the generator with which a client checks
      what it downloads, always SHA256; [SameDigestFunction] says that they
      agree, as in a default build.  [CasHash] the state machine of a digest
      context, the generator over strings and descriptors and CASHash;
      [CasHashSpec] shows that this implements the classes.

    - Merkle trees (merklize.cpp, timeutils.cpp): [TimeUtils]; [Merklize] has
      nested directories, the operations that add at a path, to_digest, to_tree,
      print and the walk over a directory on disk; [MerklizeSpec] their
      properties.

    - Merging (mergeutil.cpp): [Merge] and [MergeSpec].

    - The client (grpcretrier.cpp, grpcretry.cpp, client.cpp, client.h): [Grpc]
      has the monad [M] of stateful code that throws and both retry loops,
      [GrpcContext] the context of each attempt, the factory of retriers and the
      logged texts; [Client] the transfers of one blob, [ClientBlobs] batches,
      transfers of many blobs, trees, staging and downloadDirectory,
      [ClientUpload] uploadDirectory; [ClientSpec], [ClientBlobsSpec] and
      [ClientUploadSpec] their properties.

    - The client against a server (client.cpp): [CasServer] is the interface, a
      class that says what a content-addressable store promises for each call
      that the client makes (what is stored stays, what was sent complete is
      stored, what is asked for and stored is served), with what every transfer
      of the client then achieves; [CasRoundTrip] composes the walk over a disk,
      the upload and the download, and has a server that keeps the promises.

    - Log streams (logstreamwriter.cpp): [LogStream], [LogStreamSpec].

    - Output streaming (streamingstandardoutputfilemonitor.cpp and the stat and
      inotify monitors, standardoutputstreamer.cpp): [FileMonitor] is the thread
      that polls a growing file, [InotifyMonitor] the one the kernel tells of
      changes, [OutputStreamer] the streamer whose callback writes to a
      [LogStream], over an interface that both monitors implement (the build
      selects one of them). Each is an executable step function over interleavings
      of the monitoring thread, the owner and the writers; the labels carry what
      the system calls answer. [FileMonitorSpec] has the theorems of the first;
      the other two files end with theirs.

    - Metrics (countingmetric, gaugemetric, durationmetric and the other values,
      metriccollector.h, metricguard.h, statsdpublisher.h, metricsconfigurator.h
      and their utilities, scopedperiodicpublisherdaemon.h, testingutils.h):
      [Metrics] has values, collectors, timers and guards, [MetricsPublish] the
      options and the publisher, [MetricsDaemon] the periodic publisher as steps
      of two threads, [MetricsTesting] the predicates of the tests of a program;
      [MetricsSpec], [MetricsPublishSpec], [MetricsDaemonSpec].

    - Support (logging.cpp, requestmetadata.cpp, platformutils.cpp): [Logging],
      [RequestMetadata] and [SupportSpec].

    - Paths and strings (fileutils.cpp, stringutils.cpp): [Paths], [PathsSpec];
      [RelativePath] and [RelativePathSpec] for makePathRelative, with its
      indices into the strings; [StringUtils].

    - Files (fileutils.cpp and .h, temporaryfile.cpp, temporarydirectory.cpp,
      scopeguard.h, direntwrapper.cpp): [Posix] is the interface, a record of
      system calls that act on a world of any type; [FileUtils] the metadata of
      files, createDirectory and copyFile, with [FileUtilsSpec] and
      [CopyFileSpec]; [Temporary] temporary files and directories, scope guards
      and writeFileAtomically, with [TemporarySpec]; [Dirent] the wrapper of
      directory streams and the recursive traversal with deletion and clearing,
      with [DirentSpec] (the order of the traversal) and [DeleteSpec] (what a
      deletion does to the tree, on the calls that [DirentSpec] computes).

    - Staged directories (stageddirectory.cpp, stageddirectoryutils.cpp,
      fallbackstageddirectory.cpp, localcasstageddirectory.cpp):
      [StagedDirectory] has captureAllOutputs with its checks and the descent
      that opens one component at a time; [StagedCapture] both implementations;
      [StagedDirectorySpec], [FileDescentSpec] and [StagedCaptureSpec] the
      properties.

    - Options (connectionoptions.cpp, connectionoptions_commandline.cpp,
      commandline.cpp, commandlinetypes.cpp): [ConnectionOptions] and
      [ConnectionOptionsSpec] for the record and the creation of channels;
      [CommandLine] for specifications, arguments and the parser,
      [CommandLineSpec] for its general properties, [CommandLineAssign] for
      command lines made of assignments; [ConnectionOptionsCommandLine] for
      the bridge between both.

    - Credentials (reloadtokenauthenticator.cpp): [TokenAuthenticator], as
      sequential code and as a step relation of threads, and its [Spec].

    - Processes and the runner (systemutils.cpp, runner.cpp, protos.h):
      [SystemUtils], [SystemUtilsSpec]; [Runner] has arguments, statuses, output
      directories and staging, [RunnerExecute] the child, the wait and the
      upload of what it wrote, [RunnerMain] main with its exits;
      [RunnerExecuteSpec] and [RunnerMainSpec] the properties.

    The client hashes through [DigestFunction] and checks what it downloads through
    [ClientDigestFunction], retries through [Grpc], and
    downloads and uploads what [Merklize] produced; a merge flattens the
    messages of [Merklize] and rebuilds a tree with its operations.  Staged
    directories and the runner reach the client through records of its
    operations.  The runner forks and waits as [SystemUtils] does, makes its
    directories with [FileUtils], writes its files with [Temporary] and reads
    its options with [ConnectionOptions].

    ** What the theorems show

    - Hashing: one call and any division of a message into updates that stay in
      bounds give the reference hash; exactly when an update leaves the stack of
      chaining values; reading in blocks, as the library does, is always in
      bounds; a descriptor and a string with the same contents have the same
      digest (with BLAKE3ZCC, when reads return multiples of 2048 bytes); a
      finalized context is closed.
    - Trees: the result does not depend on the order of readdir; a digest map
      receives every directory; a Tree message is closed and canonical.
    - Merging: independent of the iteration order of unordered maps and, for
      compatible trees, of their order; a tree without modification times merged
      with itself is itself.
    - Retries: how many calls, with which final status, and that the two
      implementations agree; every attempt of the client is described by one
      header of metadata.
    - Transfers: whatever the server sends, fetchString, download and
      downloadBlobs return or pass on only data with the digest asked for, and a
      resumed download assembles the blob; uploads send the data in order and in
      bounded chunks; batches are a partition within a limit of at least 256
      bytes; which errors escape. Downloading the digest of a merklized tree
      writes out that tree. Uploading a directory sends only what the server said
      it lacks, each blob under its own digest.
    - Client and server together: after uploadDirectory has returned without a
      failed result the server holds every blob of the directory; downloading
      the digest then writes out the tree that was on the disk, and a message that
      was uploaded is fetched back, in a build whose digests are those that
      clients check downloads with.
    - Log streams: for every sequence of calls and every server the requests
      continue where the accepted bytes end; a caller who repeats a write
      succeeds once the server is available, without help from the retries of a
      call, which use its context again.
    - Output streaming: however the threads interleave, what is delivered is
      the beginning of the file in order, in chunks that fit the buffer; once
      asked to stop the thread takes at most four more steps (four more waits
      with inotify); everything that was read before stop is delivered, but for
      one race; with inotify the close of the file means that all of it was
      delivered, and the first two events are enough to see it; when stop of
      the streamer returns true the server has confirmed the chunks it took,
      and if no write failed it has the beginning of the output, or all of it
      when all was read before stop, outside that race.
    - Metrics: snapshots lose nothing; a server that receives the published
      gauges ends with the values of the calls; publishing writes every text
      once or fails as stated; the periodic publisher repeats nothing and loses
      nothing unless a publication throws, which ends the process; its
      destructor does not deadlock, and ends in every fair run.
    - Support: glog is initialised once and consistently; host names are
      canonical.
    - Paths: normalization is canonical and idempotent; an accepted join stays
      inside a base that does not lead upwards; a relative path made absolute
      again is the path.
    - Files: createDirectory, copyFile and the traversal end, createDirectory
      also while others make directories, with the directory there if it returns
      and EEXIST only when another was ahead; a copy is the source, or the
      destination was asked to be unlinked, or the source could not be examined
      and nothing was touched; an atomic write leaves all or nothing
      at the path and no temporary file; a deletion removes every entry once
      and after what is below it.
    - Staged directories: what is captured lies inside the input root and is
      reached without a symbolic link; results come in the order of the request.
    - Options: the parser ends and types what it returns; an unbound option of a
      scalar type has its first assignment or its default; the arguments that
      putArgs writes, without Google authentication, configure, through the
      command line, a channel with the same options; an
      insecure channel is made only for an insecure scheme.
    - Credentials: concurrent calls do not block each other, at most one reloads
      at a time, and a header holds what the token file had when it was read.
    - Runner: however often a wait is interrupted, executeAndStore collects the
      end of the one child it forks, and returns its outcome or has killed it
      after a signal; the directory of every requested
      output is there before; main leaves the result or the status of the
      error, never both, and neither only at the exits that are named.

    Deviations, each stated as a theorem or an example about the code as it is:
    - hashing and trees: an update of the hasher across a partly filled chunk
      leaves its stack; BLAKE3ZCC digests of one size compare equal; nanoseconds
      before the epoch; a directory name that ends in a slash.
    - client and merging: in a build for another function than SHA256 a client
      refuses what it uploaded; a retried upload of a file fails; a batch limit
      below 256 underflows; a merge with one empty tree throws; a file and a
      directory of one name may merge; a merge drops modification times.
    - paths and files: escaping joins from two kinds of base; createDirectory
      may throw for a directory that another process made; copyFile unlinks a
      destination that it was not allowed to open; a directory stream that
      fails in its constructor stays open.
    - staged directories: directoryInInputRoot leaves descriptors open, and
      a failed hash loses one.
    - options: googleapi-auth does not survive putArgs; an empty argument is
      read past its end; a repeated option has two values; a long interval
      overflows an int.
    - processes: redirecting a closed standard output; a search in PATH that
      one unreadable directory ends; --verbose has no effect; equal outputs
      that fail to upload together.
    - output streaming: data lost when stop comes early, between two loads of
      the flag, or with more than a buffer unread; a failed last write that is
      committed all the same; a failed write or read that ends the process; the
      thread started before the members it uses.
    - log streams: a context that is used for every retry.
    - metrics and logging: a port of one digit and one above 32 bits; values
      lost when the file does not open, and a publisher thread or destructor
      that ends the process then; distributions never published; a
      negative interval; a verbosity that is never lowered.

    ** Conventions

    Machine integers are [Z] with the wrap-around written out ([u32], [u64],
    [u8], [i64]).  A function of the monad [M] returns a value or an exception
    and the new world; in [UM] there is the further outcome [None], undefined
    behaviour (a read past the end, a signed overflow) or fuel that ran out, so
    that a theorem that gives a result shows the code free of both; [PM] of the
    runner adds the exit of the process.  A destructor that throws is kept as an
    exception, though C++ would terminate the program.

    Loops are structural where the code's are; otherwise they have fuel: the
    length of the path or of the data consumed, which the lemmas show to be
    enough, the limit of the retrier, the number of interruptions for loops
    around wait, the weight of a tree for the traversal, the blocks of a file
    for copyFile, the segments of a path for createDirectory.  Recursions that
    follow digests (downloadDirectory, buildFlattenedPath) have no bound in the
    code; there fuel is a parameter, running out is a result of its own, and the
    theorems show that the height of the tree is enough.  MAX_SIMD_DEGREE is
    16, its value on x86.  A delay of base * 1.6^n is kept as the pair of base
    and n.  std::sort is the class [StdSort], an unordered map's iteration the
    class [MapIteration]: any permutation will do.

    Code that is not the repository's is a parameter: the hash functions of
    OpenSSL (with their incremental contract), protobuf's serialization and
    parsing, the gRPC stubs and the server behind them, gRPC's factories of
    channels and credentials, std::stod, the system calls.  They act on a world
    of any type, so the theorems hold for every server and every disk; where a
    theorem needs what a call does (openat on a tree, mkdir, read, wait) it is
    a named law, and a concrete world that obeys it is the witness.  Messages
    keep the fields that the code reads or writes.

    ** Not modelled

    Not modelled: the text of each exception and log line where it is made (a
    model keeps the class of an exception and the code a handler inspects;
    [Logging] has the macros), the singletons, the addresses of buffers, clocks as
    more than values.  In the interleavings a
    step goes from one access of shared state or system call to the next, and the
    callback of a monitor is one step: only the monitoring thread touches what it
    acts on until it is joined.  Also left out: wrappers of single system calls,
    the deprecated aliases of the metrics, the conditional code for C++17 of the
    command line (which does not compile), the declarations of header files
    (modelled with their definitions), generated code, protocol definitions and
    vendored headers without logic.  writeFileAtomically is modelled for one
    process; what others do to the path between its calls is not. *)

From stdpp Require Export base list strings gmap pretty numbers.
From Stdlib Require Export ZArith Lia Ascii.

(** ** Notations *)

Declare Scope buildbox_scope.
Delimit Scope buildbox_scope with bb.
#[global] Open Scope buildbox_scope.

(** A C++ [std::string] is the list of its bytes. *)
Abbreviation str := (list ascii).

(** A string literal of the source. *)
Definition lit (s : string) : str := String.list_ascii_of_string s.
Abbreviation L s := (lit s%string) (only parsing).

(** A byte as the unsigned number it holds. *)
Definition byte_val (c : ascii) : N := N_of_ascii c.

(** [std::to_string] of an integer. *)
Definition to_string (z : Z) : str := lit (pretty z).

(** ** C++ exceptions

    A function that can throw returns a [res]; only the class of the
    exception (and the value a handler inspects) is kept, not its text. *)
Inductive exn :=
  | RuntimeError
  | LogicError
  | InvalidArgument
  | OutOfRange
  | RangeError
  | SystemError (errno : Z)
  | GrpcError (code : Z).

Inductive res (A : Type) :=
  | Ok (a : A)
  | Throw (e : exn).
Arguments Ok {A} a.
Arguments Throw {A} e.

#[global] Instance exn_eq_dec : EqDecision exn.
Proof. solve_decision. Defined.

#[global] Instance res_eq_dec `{EqDecision A} : EqDecision (res A).
Proof. solve_decision. Defined.

Definition res_bind {A B} (r : res A) (k : A -> res B) : res B :=
  match r with Ok a => k a | Throw e => Throw e end.

Notation "'let!' x ':=' r 'in' k" := (res_bind r (fun x => k))
  (at level 10, x pattern, r at level 100, k at level 200)
  : buildbox_scope.

Definition is_ok {A} (r : res A) : bool :=
  match r with Ok _ => true | Throw _ => false end.

(** ** Divisibility is decidable *)

Lemma Z_mod_0_divide a b : (b mod a = 0 <-> (a | b))%Z.
Proof.
  destruct (Z.eq_dec a 0) as [->|Ha]; [|by apply Z.mod_divide].
  rewrite Z.mod_0_r_ext by done. split; [by intros ->|].
  intros [q ->]. lia.
Qed.

#[global] Instance Z_divide_decision a b : Decision (a | b)%Z.
Proof.
  refine (cast_if (decide (b mod a = 0)%Z)); by rewrite <- Z_mod_0_divide.
Defined.

(** ** Tactics of the development *)

Create HintDb bb.

(** Case on the innermost condition or match of the goal. *)
Ltac bb_case :=
  match goal with
  | |- context [if ?b then _ else _] =>
      lazymatch b with context [if _ then _ else _] => fail | _ => idtac end;
      let E := fresh "E" in destruct b eqn:E
  | |- context [match ?x with _ => _ end] =>
      lazymatch x with context [match _ with _ => _ end] => fail | _ => idtac end;
      let E := fresh "E" in destruct x eqn:E
  end.

Ltac bb_case_in H :=
  match type of H with
  | context [if ?b then _ else _] =>
      lazymatch b with context [if _ then _ else _] => fail | _ => idtac end;
      let E := fresh "E" in destruct b eqn:E
  | context [match ?x with _ => _ end] =>
      lazymatch x with context [match _ with _ => _ end] => fail | _ => idtac end;
      let E := fresh "E" in destruct x eqn:E
  end.

(** Turn boolean comparisons into propositions. *)
Ltac b2p :=
  repeat match goal with
  | H : negb _ = true |- _ => apply negb_true_iff in H
  | H : negb _ = false |- _ => apply negb_false_iff in H
  | H : (_ && _)%bool = true |- _ => apply andb_true_iff in H as [? ?]
  | H : (_ || _)%bool = false |- _ => apply orb_false_iff in H as [? ?]
  | H : Z.eqb _ _ = true |- _ => apply Z.eqb_eq in H
  | H : Z.eqb _ _ = false |- _ => apply Z.eqb_neq in H
  | H : Z.ltb _ _ = true |- _ => apply Z.ltb_lt in H
  | H : Z.ltb _ _ = false |- _ => apply Z.ltb_ge in H
  | H : Z.leb _ _ = true |- _ => apply Z.leb_le in H
  | H : Z.leb _ _ = false |- _ => apply Z.leb_gt in H
  | H : Nat.eqb _ _ = true |- _ => apply Nat.eqb_eq in H
  | H : Nat.eqb _ _ = false |- _ => apply Nat.eqb_neq in H
  | H : Nat.ltb _ _ = true |- _ => apply Nat.ltb_lt in H
  | H : Nat.ltb _ _ = false |- _ => apply Nat.ltb_ge in H
  | H : Nat.leb _ _ = true |- _ => apply Nat.leb_le in H
  | H : Nat.leb _ _ = false |- _ => apply Nat.leb_gt in H
  | H : bool_decide _ = true |- _ => apply bool_decide_eq_true in H
  | H : bool_decide _ = false |- _ => apply bool_decide_eq_false in H
  end.

Tactic Notation "bb_solve" := repeat (bb_case || b2p || simplify_eq/=); eauto with bb.

(** A closed statement that is decidable, by evaluation. *)
Ltac by_evaluation := apply (bool_decide_unpack _); vm_compute; exact I.
