(* ===== verification/StdMap.v ===== *)
(** * The C++ standard containers and string order the program relies on

    [std::string]'s [operator<] (lexicographic on unsigned bytes) and
    [std::map<std::string, V>], as a list of bindings kept strictly sorted by
    key: [operator[]], [emplace], [find] and iteration in key order. *)

From S2P Require Import Prelude.

(** ** [std::string::compare] *)

Fixpoint str_compare (a b : str) : comparison :=
  match a, b with
  | [], [] => Eq
  | [], _ :: _ => Lt
  | _ :: _, [] => Gt
  | x :: a', y :: b' =>
      match N.compare (byte_val x) (byte_val y) with
      | Eq => str_compare a' b'
      | c => c
      end
  end.

Definition str_ltb (a b : str) : bool :=
  match str_compare a b with Lt => true | _ => false end.

Definition str_lt (a b : str) : Prop := str_compare a b = Lt.

(** ** [std::map<std::string, V>] *)

Section smap.
Context {V : Type}.

Definition smap : Type := list (str * V).

(** [find]. *)
Fixpoint sm_lookup (k : str) (m : smap) : option V :=
  match m with
  | [] => None
  | (k', v) :: m' =>
      match str_compare k k' with
      | Lt => None
      | Eq => Some v
      | Gt => sm_lookup k m'
      end
  end.

(** [m\[k\] = f(m\[k\])]: [f] gets [None] when the binding is created. *)
Fixpoint sm_update (k : str) (f : option V -> V) (m : smap) : smap :=
  match m with
  | [] => [(k, f None)]
  | (k', v) :: m' =>
      match str_compare k k' with
      | Lt => (k, f None) :: m
      | Eq => (k', f (Some v)) :: m'
      | Gt => (k', v) :: sm_update k f m'
      end
  end.

(** [m\[k\] = v]. *)
Definition sm_insert (k : str) (v : V) (m : smap) : smap :=
  sm_update k (fun _ => v) m.

(** [emplace(k, v)]: an existing binding stays. *)
Definition sm_emplace (k : str) (v : V) (m : smap) : smap :=
  sm_update k (fun o => default v o) m.

(** The representation invariant: keys strictly increase. *)
Inductive sm_sorted : smap -> Prop :=
  | sm_sorted_nil : sm_sorted []
  | sm_sorted_cons k v m :
      (forall k' v', In (k', v') m -> str_lt k k') ->
      sm_sorted m -> sm_sorted ((k, v) :: m).
End smap.
Arguments smap V : clear implicits.

#[export] Hint Constructors sm_sorted : bb.

(** ** Order lemmas *)

Lemma byte_val_inj a b : byte_val a = byte_val b -> a = b.
Proof.
  unfold byte_val; intros E.
  rewrite <- (ascii_N_embedding a), <- (ascii_N_embedding b); by f_equal.
Qed.

Lemma str_compare_refl a : str_compare a a = Eq.
Proof. induction a; simpl; [done|]. by rewrite N.compare_refl. Qed.

Lemma str_compare_eq a b : str_compare a b = Eq -> a = b.
Proof.
  revert b; induction a as [|x a IH]; intros [|y b]; simpl; try done.
  destruct (N.compare_spec (byte_val x) (byte_val y)); try done.
  intros ?; f_equal; [by apply byte_val_inj | by apply IH].
Qed.

Lemma str_compare_eq_iff a b : str_compare a b = Eq <-> a = b.
Proof. split; [apply str_compare_eq | intros ->; apply str_compare_refl]. Qed.

Lemma str_compare_antisym a b : str_compare b a = CompOpp (str_compare a b).
Proof.
  revert b; induction a as [|x a IH]; intros [|y b]; simpl; try done.
  rewrite N.compare_antisym.
  destruct (N.compare (byte_val x) (byte_val y)); simpl; auto.
Qed.

Lemma str_compare_gt a b : str_compare a b = Gt <-> str_lt b a.
Proof.
  unfold str_lt. rewrite str_compare_antisym.
  destruct (str_compare b a); simpl; split; congruence.
Qed.

Lemma str_lt_trans a b c : str_lt a b -> str_lt b c -> str_lt a c.
Proof.
  unfold str_lt. revert b c; induction a as [|x a IH];
    intros [|y b] [|z c]; simpl; try done.
  destruct (N.compare_spec (byte_val x) (byte_val y)) as [E|E|E];
  destruct (N.compare_spec (byte_val y) (byte_val z)) as [F|F|F];
  destruct (N.compare_spec (byte_val x) (byte_val z)) as [G|G|G];
    try done; try lia; eauto.
Qed.

Lemma str_lt_irrefl a : ~ str_lt a a.
Proof. unfold str_lt. by rewrite str_compare_refl. Qed.

#[global] Instance str_lt_strict : StrictOrder str_lt.
Proof.
  split; [intros a; apply str_lt_irrefl | intros a b c; apply str_lt_trans].
Qed.

Lemma str_ltb_spec a b : str_ltb a b = true <-> str_lt a b.
Proof. unfold str_ltb, str_lt. by destruct (str_compare a b). Qed.

#[global] Instance str_lt_dec a b : Decision (str_lt a b).
Proof.
  refine (cast_if (decide (str_ltb a b = true))); by rewrite <- str_ltb_spec.
Defined.

Lemma str_lt_trichotomy a b : str_lt a b \/ a = b \/ str_lt b a.
Proof.
  destruct (str_compare a b) eqn:E.
  - right; left. by apply str_compare_eq.
  - by left.
  - right; right. by apply str_compare_gt.
Qed.

(** Case on a key comparison, with the equation it gives. *)
Ltac str_cmp a b :=
  let E := fresh "E" in
  destruct (str_compare a b) eqn:E;
  [ apply str_compare_eq in E; subst
  | change (str_lt a b) in E
  | apply str_compare_gt in E ].

(** ** Map lemmas *)

Section smap_lemmas.
Context {V : Type}.
Implicit Types (m : smap V) (f g : option V -> V).

Lemma sm_update_In k f m k' v' :
  In (k', v') (sm_update k f m) -> k' = k \/ In (k', v') m.
Proof.
  induction m as [|[k0 v0] m IH]; simpl.
  - intros [[= <- <-]|[]]; auto.
  - str_cmp k k0; simpl.
    + intros [[= <- <-]|?]; auto.
    + intros [[= <- <-]|?]; auto.
    + intros [[= <- <-]|H]; [auto|]. apply IH in H as [?|?]; auto.
Qed.

Lemma sm_update_sorted k f m : sm_sorted m -> sm_sorted (sm_update k f m).
Proof.
  induction 1 as [|k0 v0 m Hlt Hs IH]; simpl; [by repeat constructor|].
  str_cmp k k0.
  - by constructor.
  - constructor; [|by constructor].
    intros k' v' [[= <- <-]|Hin]; [done|]. etrans; [done|eauto].
  - constructor; [|done]. intros k' v' Hin.
    apply sm_update_In in Hin as [->|Hin]; eauto.
Qed.

Lemma sm_lookup_lt k m :
  (forall k' v', In (k', v') m -> str_lt k k') -> sm_lookup k m = None.
Proof.
  destruct m as [|[k0 v0] m]; simpl; [done|]. intros H.
  assert (str_lt k k0) as E by eauto. unfold str_lt in E. by rewrite E.
Qed.

Lemma sm_lookup_update_eq k f m :
  sm_lookup k (sm_update k f m) = Some (f (sm_lookup k m)).
Proof.
  induction m as [|[k0 v0] m IH]; simpl; [by rewrite str_compare_refl|].
  destruct (str_compare k k0) eqn:E; simpl.
  - by rewrite E.
  - by rewrite str_compare_refl.
  - by rewrite E.
Qed.

Lemma sm_lookup_update_ne k k' f m :
  sm_sorted m -> k <> k' -> sm_lookup k' (sm_update k f m) = sm_lookup k' m.
Proof.
  intros Hs Hne. induction Hs as [|k0 v0 m Hlt Hs IH]; simpl.
  - str_cmp k' k; done.
  - str_cmp k k0; simpl.
    + str_cmp k' k0; [done| |]; done.
    + str_cmp k' k; [done| |]; [|done].
      assert (str_lt k' k0) as E1 by (by etrans).
      unfold str_lt in E1. by rewrite E1.
    + str_cmp k' k0; done.
Qed.

Lemma sm_lookup_In k v m : sm_sorted m -> sm_lookup k m = Some v <-> In (k, v) m.
Proof.
  induction 1 as [|k0 v0 m Hlt Hs IH]; simpl; [by split|].
  str_cmp k k0.
  - split; [intros [= ->]; auto|].
    intros [[= ->]|Hin]; [done|]. exfalso. eapply str_lt_irrefl; eauto.
  - split; [done|]. intros [[= -> ->]|Hin].
    + by apply str_lt_irrefl in E.
    + exfalso. eapply str_lt_irrefl. etrans; eauto.
  - rewrite IH. split; [auto|]. intros [[= -> ->]|Hin]; [|done].
    by apply str_lt_irrefl in E.
Qed.

(** Two maps with the same bindings are the same list. *)
Lemma sm_ext m1 m2 :
  sm_sorted m1 -> sm_sorted m2 ->
  (forall k, sm_lookup k m1 = sm_lookup k m2) -> m1 = m2.
Proof.
  intros Hs; revert m2; induction Hs as [|k v m Hlt Hs IH]; intros m2 H2 Hl.
  - destruct H2 as [|k v m Hlt Hs]; [done|]. specialize (Hl k); simpl in Hl.
    by rewrite str_compare_refl in Hl.
  - destruct H2 as [|k' v' m' Hlt' Hs'].
    { specialize (Hl k); simpl in Hl. by rewrite str_compare_refl in Hl. }
    pose proof (Hl k) as Hk; simpl in Hk. rewrite str_compare_refl in Hk.
    str_cmp k k'.
    + injection Hk as ->. f_equal. apply IH; [done|]. intros k.
      specialize (Hl k); simpl in Hl. str_cmp k k'; [|  |done].
      * rewrite !sm_lookup_lt; eauto.
      * rewrite !sm_lookup_lt; [done| |]; intros; etrans; eauto.
    + done.
    + specialize (Hl k'); simpl in Hl. rewrite str_compare_refl in Hl.
      unfold str_lt in E. by rewrite E in Hl.
Qed.

Lemma sm_update_comm k1 k2 f g m :
  sm_sorted m -> k1 <> k2 ->
  sm_update k1 f (sm_update k2 g m) = sm_update k2 g (sm_update k1 f m).
Proof.
  intros Hs Hne. apply sm_ext; [by repeat apply sm_update_sorted..|].
  intros k. destruct (decide (k = k1)) as [->|?];
    [|destruct (decide (k = k2)) as [->|?]].
  - rewrite sm_lookup_update_eq, (sm_lookup_update_ne k2),
      (sm_lookup_update_ne k2), sm_lookup_update_eq;
      auto using sm_update_sorted.
  - rewrite (sm_lookup_update_ne k1), !sm_lookup_update_eq,
      (sm_lookup_update_ne k1); auto using sm_update_sorted.
  - rewrite !sm_lookup_update_ne; auto using sm_update_sorted.
Qed.

Lemma sm_update_update k f g m :
  sm_update k f (sm_update k g m) = sm_update k (fun o => f (Some (g o))) m.
Proof.
  induction m as [|[k0 v0] m IH]; simpl; [by rewrite str_compare_refl|].
  destruct (str_compare k k0) eqn:E; simpl.
  - by rewrite E.
  - by rewrite str_compare_refl.
  - rewrite E. by f_equal.
Qed.

Lemma sm_update_ext k f g m :
  f (sm_lookup k m) = g (sm_lookup k m) -> sm_update k f m = sm_update k g m.
Proof.
  induction m as [|[k0 v0] m IH]; simpl; [by intros ->|].
  destruct (str_compare k k0); simpl.
  - by intros ->.
  - by intros ->.
  - intros H. f_equal. by apply IH.
Qed.
End smap_lemmas.

#[export] Hint Resolve sm_update_sorted : bb.
