(* ===== verification/Arrays.v ===== *)
(** * Arrays and buffers addressed by machine integers

    A buffer is a list; offsets and lengths are [Z].  [write_at] and [read_at]
    check the bounds a [memcpy] in C does not. *)

From S2P Require Import Prelude.
Open Scope Z_scope.

Definition zlen {A} (l : list A) : Z := Z.of_nat (length l).
Definition ztake {A} (n : Z) (l : list A) : list A := take (Z.to_nat n) l.
Definition zdrop {A} (n : Z) (l : list A) : list A := drop (Z.to_nat n) l.

(** [memcpy(dst + off, src, len(src))] inside an array. *)
Definition splice {A} (off : Z) (src dst : list A) : list A :=
  ztake off dst ++ src ++ zdrop (off + zlen src) dst.

(** The same with the bounds of the destination checked. *)
Definition write_at {A} (off : Z) (src dst : list A) : option (list A) :=
  if (0 <=? off) && (off + zlen src <=? zlen dst)
  then Some (splice off src dst) else None.

(** [memcpy(_, src + off, len)] with the bounds of the source checked. *)
Definition read_at {A} (off len : Z) (src : list A) : option (list A) :=
  if (0 <=? off) && (off + len <=? zlen src)
  then Some (ztake len (zdrop off src)) else None.

Definition zeros (n : Z) : list Z := replicate (Z.to_nat n) 0.

(** ** Lemmas *)

Section arrays.
Context {A : Type}.
Implicit Types (l k : list A) (n m : Z).

Lemma zlen_nonneg l : 0 <= zlen l.
Proof. unfold zlen; lia. Qed.

Lemma zlen_nil : zlen (@nil A) = 0.
Proof. done. Qed.

Lemma zlen_cons (x : A) l : zlen (x :: l) = 1 + zlen l.
Proof. unfold zlen; simpl; lia. Qed.

Lemma zlen_app l k : zlen (l ++ k) = zlen l + zlen k.
Proof. unfold zlen; rewrite length_app; lia. Qed.

Lemma zlen_zero l : zlen l = 0 -> l = [].
Proof. destruct l; unfold zlen; simpl; [done|lia]. Qed.

Lemma zlen_ztake n l : 0 <= n -> zlen (ztake n l) = Z.min n (zlen l).
Proof. unfold zlen, ztake; rewrite length_take; lia. Qed.

Lemma zlen_ztake_le n l : 0 <= n <= zlen l -> zlen (ztake n l) = n.
Proof. intros; rewrite zlen_ztake; lia. Qed.

Lemma zlen_zdrop n l : 0 <= n <= zlen l -> zlen (zdrop n l) = zlen l - n.
Proof. unfold zlen, zdrop; rewrite length_drop; lia. Qed.

Lemma ztake_zdrop n l : ztake n l ++ zdrop n l = l.
Proof. apply take_drop. Qed.

Lemma ztake_ge n l : zlen l <= n -> ztake n l = l.
Proof. unfold zlen, ztake; intros; apply take_ge; lia. Qed.

Lemma zdrop_ge n l : zlen l <= n -> zdrop n l = [].
Proof. unfold zlen, zdrop; intros; apply drop_ge; lia. Qed.

Lemma ztake_0 l : ztake 0 l = [].
Proof. done. Qed.

Lemma zdrop_0 l : zdrop 0 l = l.
Proof. done. Qed.

Lemma ztake_app_le n l k : n <= zlen l -> ztake n (l ++ k) = ztake n l.
Proof. unfold zlen, ztake; intros; apply take_app_le; lia. Qed.

Lemma ztake_app_ge n l k :
  zlen l <= n -> ztake n (l ++ k) = l ++ ztake (n - zlen l) k.
Proof.
  unfold zlen, ztake; intros; rewrite take_app_ge by lia; do 2 f_equal; lia.
Qed.

Lemma ztake_app_eq n l k : n = zlen l -> ztake n (l ++ k) = l.
Proof.
  intros ->; rewrite ztake_app_ge, Z.sub_diag, ztake_0, app_nil_r by lia; done.
Qed.

Lemma zdrop_app_le n l k : n <= zlen l -> zdrop n (l ++ k) = zdrop n l ++ k.
Proof. unfold zlen, zdrop; intros; apply drop_app_le; lia. Qed.

Lemma zdrop_app_ge n l k : zlen l <= n -> zdrop n (l ++ k) = zdrop (n - zlen l) k.
Proof.
  unfold zlen, zdrop; intros; rewrite drop_app_ge by lia; f_equal; lia.
Qed.

Lemma zdrop_app_eq n l k : n = zlen l -> zdrop n (l ++ k) = k.
Proof. intros ->; rewrite zdrop_app_ge, Z.sub_diag by lia; done. Qed.

Lemma zdrop_zdrop n m l : 0 <= n -> 0 <= m -> zdrop n (zdrop m l) = zdrop (m + n) l.
Proof. unfold zdrop; intros; rewrite drop_drop; f_equal; lia. Qed.

Lemma ztake_ztake n m l : n <= m -> ztake n (ztake m l) = ztake n l.
Proof. unfold ztake; intros; rewrite take_take; f_equal; lia. Qed.

(** Overwriting the middle of three adjacent pieces. *)
Lemma splice_app off (src a b c : list A) :
  off = zlen a -> zlen src = zlen b ->
  splice off src (a ++ b ++ c) = a ++ src ++ c.
Proof.
  intros -> E. unfold splice. rewrite ztake_app_eq by done.
  rewrite zdrop_app_ge by (pose proof (zlen_nonneg src); lia).
  rewrite zdrop_app_eq by lia. done.
Qed.

Lemma write_at_app off (src a b c : list A) :
  off = zlen a -> zlen src = zlen b ->
  write_at off src (a ++ b ++ c) = Some (a ++ src ++ c).
Proof.
  intros E1 E2. unfold write_at. rewrite splice_app by done.
  rewrite !zlen_app. pose proof (zlen_nonneg a). pose proof (zlen_nonneg c).
  replace ((0 <=? off) && (off + zlen src <=? zlen a + (zlen b + zlen c)))%bool
    with true; [done|]. symmetry. apply andb_true_iff; lia.
Qed.

Lemma read_at_app off len (a b c : list A) :
  off = zlen a -> len = zlen b -> read_at off len (a ++ b ++ c) = Some b.
Proof.
  intros -> ->. unfold read_at. rewrite !zlen_app.
  pose proof (zlen_nonneg a). pose proof (zlen_nonneg c).
  replace ((0 <=? zlen a) && (zlen a + zlen b <=? zlen a + (zlen b + zlen c)))%bool
    with true by (symmetry; apply andb_true_iff; lia).
  by rewrite zdrop_app_eq, ztake_app_eq by done.
Qed.

Lemma read_at_neg off len (l : list A) : off < 0 -> read_at off len l = None.
Proof.
  intros. unfold read_at. by replace (0 <=? off) with false by lia.
Qed.

(** Splitting a buffer at an offset. *)
Lemma split_at n l : 0 <= n <= zlen l -> exists a b, l = a ++ b /\ zlen a = n.
Proof.
  intros. exists (ztake n l), (zdrop n l).
  rewrite ztake_zdrop, zlen_ztake_le by done. done.
Qed.
End arrays.

Lemma zlen_zeros n : 0 <= n -> zlen (zeros n) = n.
Proof. unfold zlen, zeros; rewrite length_replicate; lia. Qed.

Lemma zeros_split n m : 0 <= n -> 0 <= m -> zeros (n + m) = zeros n ++ zeros m.
Proof.
  unfold zeros; intros. by rewrite Z2Nat.inj_add, replicate_add by done.
Qed.

#[export] Hint Resolve zlen_nonneg : bb.

(** Rewrite lengths of buffers. *)
Ltac zlens :=
  repeat first
    [ rewrite zlen_app | rewrite zlen_cons | rewrite zlen_nil
    | rewrite zlen_zeros by lia | rewrite zlen_ztake by lia
    | rewrite zlen_zdrop by lia ].
