(* ===== verification/Blake3Compress.v ===== *)
(** * The BLAKE3ZCC compression function

    [blake3_portable.cpp], the word helpers of [blake3_impl.h] and the
    dispatch of [blake3_dispatch.cpp] (which always takes the portable
    implementation and reports a SIMD degree of one).  Words are [Z] with the
    wrap-around of their C width written out; byte arrays are lists of [Z]. *)

From S2P Require Import Prelude.
Open Scope Z_scope.

(** ** Machine integers *)

Definition u8 (x : Z) : Z := x mod 2 ^ 8.
Definition u32 (x : Z) : Z := x mod 2 ^ 32.
Definition u64 (x : Z) : Z := x mod 2 ^ 64.

(** ** Constants of [blake3.h] and [blake3_impl.h] *)

Definition BLAKE3_KEY_LEN : Z := 32.
Definition BLAKE3_OUT_LEN : Z := 32.
Definition BLAKE3_BLOCK_LEN : Z := 64.
Definition BLAKE3_CHUNK_LEN : Z := 1024.
Definition BLAKE3_MAX_DEPTH : Z := 54.
Definition MAX_SIMD_DEGREE : Z := 16.
Definition MAX_SIMD_DEGREE_OR_2 : Z := Z.max MAX_SIMD_DEGREE 2.

Definition CHUNK_START : Z := Z.shiftl 1 0.
Definition CHUNK_END : Z := Z.shiftl 1 1.
Definition PARENT : Z := Z.shiftl 1 2.
Definition ROOT : Z := Z.shiftl 1 3.
Definition KEYED_HASH : Z := Z.shiftl 1 4.
Definition DERIVE_KEY_CONTEXT : Z := Z.shiftl 1 5.
Definition DERIVE_KEY_MATERIAL : Z := Z.shiftl 1 6.

Definition IV : list Z :=
  [0x6A09E667; 0xBB67AE85; 0x3C6EF372; 0xA54FF53A;
   0x510E527F; 0x9B05688C; 0x1F83D9AB; 0x5BE0CD19].

Definition MSG_SCHEDULE : list (list nat) :=
  [[0;  1;  2;  3;  4;  5;  6;  7;  8;  9; 10; 11; 12; 13; 14; 15];
   [2;  6;  3; 10;  7;  0;  4; 13;  1; 11; 12;  5;  9; 14; 15;  8];
   [3;  4; 10; 12; 13;  2;  7; 14;  6;  5;  9;  0; 11; 15;  8;  1];
   [10; 7; 12;  9; 14;  3; 13; 15;  4;  0; 11;  2;  5;  8;  1;  6];
   [12; 13; 9; 11; 15; 10; 14;  8;  7;  2;  5;  3;  0;  1;  6;  4];
   [9; 14; 11;  5;  8; 12; 15;  1; 13;  3;  0; 10;  2;  6;  4;  7];
   [11; 15; 5;  0;  1;  9;  8;  6; 14; 10;  2; 12;  3;  4;  7; 13]]%nat.

(** ** Word helpers of [blake3_impl.h] *)

(** Index of the highest set bit of a nonzero 64-bit [x]. *)
Definition highest_one (x : Z) : Z := Z.log2 x.

(** Number of one bits. *)
Fixpoint popcnt_pos (p : positive) : Z :=
  match p with
  | xH => 1
  | xO p => popcnt_pos p
  | xI p => 1 + popcnt_pos p
  end.

Definition popcnt (x : Z) : Z :=
  match x with Zpos p => popcnt_pos p | _ => 0 end.

Definition round_down_to_power_of_2 (x : Z) : Z :=
  u64 (Z.shiftl 1 (highest_one (Z.lor x 1))).

Definition counter_low (counter : Z) : Z := u32 counter.
Definition counter_high (counter : Z) : Z := u32 (Z.shiftr counter 32).

(** [load32(src + off)], little endian. *)
Definition load32 (src : list Z) (off : nat) : Z :=
  Z.lor (Z.lor (Z.lor (Z.shiftl (src !!! off) 0)
                      (Z.shiftl (src !!! (off + 1)%nat) 8))
               (Z.shiftl (src !!! (off + 2)%nat) 16))
        (Z.shiftl (src !!! (off + 3)%nat) 24).

Definition load_key_words (key : list Z) : list Z :=
  map (fun i => load32 key (4 * i)) (seq 0 8).

(** The four bytes [store32] writes. *)
Definition store32 (w : Z) : list Z :=
  [u8 (Z.shiftr w 0); u8 (Z.shiftr w 8);
   u8 (Z.shiftr w 16); u8 (Z.shiftr w 24)].

Definition store_cv_words (cv_words : list Z) : list Z :=
  cv_words ≫= store32.

(** ** [blake3_portable.cpp] *)

Definition rotr32 (w c : Z) : Z :=
  u32 (Z.lor (Z.shiftr w c) (u32 (Z.shiftl w (32 - c)))).

Definition g (state : list Z) (a b c d : nat) (x y : Z) : list Z :=
  let state := <[a := u32 (state !!! a + state !!! b + x)]> state in
  let state := <[d := rotr32 (Z.lxor (state !!! d) (state !!! a)) 16]> state in
  let state := <[c := u32 (state !!! c + state !!! d)]> state in
  let state := <[b := rotr32 (Z.lxor (state !!! b) (state !!! c)) 12]> state in
  let state := <[a := u32 (state !!! a + state !!! b + y)]> state in
  let state := <[d := rotr32 (Z.lxor (state !!! d) (state !!! a)) 8]> state in
  let state := <[c := u32 (state !!! c + state !!! d)]> state in
  <[b := rotr32 (Z.lxor (state !!! b) (state !!! c)) 7]> state.

Definition round_fn (state msg : list Z) (round : nat) : list Z :=
  let schedule := MSG_SCHEDULE !!! round in
  let m i := msg !!! (schedule !!! i) in
  (* Mix the columns. *)
  let state := g state 0 4 8 12 (m 0%nat) (m 1%nat) in
  let state := g state 1 5 9 13 (m 2%nat) (m 3%nat) in
  let state := g state 2 6 10 14 (m 4%nat) (m 5%nat) in
  let state := g state 3 7 11 15 (m 6%nat) (m 7%nat) in
  (* Mix the rows. *)
  let state := g state 0 5 10 15 (m 8%nat) (m 9%nat) in
  let state := g state 1 6 11 12 (m 10%nat) (m 11%nat) in
  let state := g state 2 7 8 13 (m 12%nat) (m 13%nat) in
  g state 3 4 9 14 (m 14%nat) (m 15%nat).

(** [counter] is not used: the modified function compresses with counter 0. *)
Definition compress_pre (cv block : list Z) (block_len counter flags : Z)
  : list Z :=
  let block_words := map (fun i => load32 block (4 * i)) (seq 0 16) in
  let state :=
    [cv !!! 0%nat; cv !!! 1%nat; cv !!! 2%nat; cv !!! 3%nat;
     cv !!! 4%nat; cv !!! 5%nat; cv !!! 6%nat; cv !!! 7%nat;
     IV !!! 0%nat; IV !!! 1%nat; IV !!! 2%nat; IV !!! 3%nat;
     counter_low 0; counter_high 0; u32 block_len; u32 flags] in
  let state := round_fn state block_words 0 in
  let state := round_fn state block_words 1 in
  let state := round_fn state block_words 2 in
  let state := round_fn state block_words 3 in
  let state := round_fn state block_words 4 in
  let state := round_fn state block_words 5 in
  round_fn state block_words 6.

Definition blake3_compress_in_place_portable
    (cv block : list Z) (block_len counter flags : Z) : list Z :=
  let state := compress_pre cv block block_len 0 flags in
  map (fun i => Z.lxor (state !!! i) (state !!! (i + 8)%nat)) (seq 0 8).

Definition blake3_compress_xof_portable
    (cv block : list Z) (block_len counter flags : Z) : list Z :=
  let state := compress_pre cv block block_len 0 flags in
  (map (fun i => Z.lxor (state !!! i) (state !!! (i + 8)%nat)) (seq 0 8)
   ++ map (fun i => Z.lxor (state !!! (i + 8)%nat) (cv !!! i)) (seq 0 8))
  ≫= store32.

(** ** [blake3_dispatch.cpp] *)

Definition blake3_compress_in_place := blake3_compress_in_place_portable.
Definition blake3_compress_xof := blake3_compress_xof_portable.
Definition blake3_simd_degree : Z := 1.

(** The block loop of [hash_one_portable]. *)
Fixpoint hash_one_blocks (blocks : nat) (cv input : list Z)
    (block_flags flags flags_end : Z) : list Z :=
  match blocks with
  | O => cv
  | S blocks' =>
      let block_flags :=
        if (blocks =? 1)%nat then Z.lor block_flags flags_end
        else block_flags in
      let cv := blake3_compress_in_place_portable cv
                  (take 64 input) BLAKE3_BLOCK_LEN 0 block_flags in
      hash_one_blocks blocks' cv (drop 64 input) flags flags flags_end
  end.

Definition hash_one_portable (input : list Z) (blocks : nat) (key : list Z)
    (counter flags flags_start flags_end : Z) : list Z :=
  store_cv_words
    (hash_one_blocks blocks key input (Z.lor flags flags_start)
       flags flags_end).

(** [counter] is incremented but every input is hashed with counter 0. *)
Definition blake3_hash_many_portable (inputs : list (list Z)) (blocks : nat)
    (key : list Z) (counter : Z) (increment_counter : bool)
    (flags flags_start flags_end : Z) : list Z :=
  inputs ≫= fun input =>
    hash_one_portable input blocks key 0 flags flags_start flags_end.

Definition blake3_hash_many := blake3_hash_many_portable.
