(* ===== verification/Blake3.v ===== *)
(** * The BLAKE3ZCC hasher

    [blake3.cpp]: the chunk state, the subtree compression and the incremental
    hasher with its stack of chaining values.  A pointer and its length are one
    list; [input += take; input_len -= take] is [zdrop take].  An access outside
    [cv_stack] or [cv_array] is undefined behaviour in C and [None] here. *)

From S2P Require Import Prelude Arrays Blake3Compress.
Open Scope Z_scope.

(** ** [blake3_chunk_state] *)

Record blake3_chunk_state := ChunkState {
  cv : list Z;
  chunk_counter : Z;
  buf : list Z;
  buf_len : Z;
  blocks_compressed : Z;
  flags : Z;
}.

Definition chunk_state_init (key : list Z) (flags : Z) : blake3_chunk_state :=
  ChunkState key 0 (zeros BLAKE3_BLOCK_LEN) 0 0 flags.

(** The argument [chunk_counter] is ignored: the counter restarts at 0. *)
Definition chunk_state_reset (self : blake3_chunk_state) (key : list Z)
    (chunk_counter : Z) : blake3_chunk_state :=
  ChunkState key 0 (zeros BLAKE3_BLOCK_LEN) 0 0 (flags self).

Definition chunk_state_len (self : blake3_chunk_state) : Z :=
  BLAKE3_BLOCK_LEN * blocks_compressed self + buf_len self.

(** The new state and [take]. *)
Definition chunk_state_fill_buf (self : blake3_chunk_state) (input : list Z)
  : blake3_chunk_state * Z :=
  let take := BLAKE3_BLOCK_LEN - buf_len self in
  let take := if zlen input <? take then zlen input else take in
  (ChunkState (cv self) (chunk_counter self)
     (splice (buf_len self) (ztake take input) (buf self))
     (u8 (buf_len self + u8 take)) (blocks_compressed self) (flags self),
   take).

Definition chunk_state_maybe_start_flag (self : blake3_chunk_state) : Z :=
  if blocks_compressed self =? 0 then CHUNK_START else 0.

(** Compress one block into the chaining value. *)
Definition chunk_state_compress (self : blake3_chunk_state) (block : list Z)
  : blake3_chunk_state :=
  ChunkState
    (blake3_compress_in_place (cv self) block BLAKE3_BLOCK_LEN 0
       (Z.lor (flags self) (chunk_state_maybe_start_flag self)))
    (chunk_counter self) (buf self) (buf_len self)
    (u8 (blocks_compressed self + 1)) (flags self).

(** The loop [while (input_len > BLAKE3_BLOCK_LEN)]. *)
Fixpoint chunk_update_loop (fuel : nat) (self : blake3_chunk_state)
    (input : list Z) : blake3_chunk_state * list Z :=
  match fuel with
  | O => (self, input)
  | S fuel =>
      if BLAKE3_BLOCK_LEN <? zlen input then
        chunk_update_loop fuel
          (chunk_state_compress self (ztake BLAKE3_BLOCK_LEN input))
          (zdrop BLAKE3_BLOCK_LEN input)
      else (self, input)
  end.

Definition chunk_state_update (self : blake3_chunk_state) (input : list Z)
  : blake3_chunk_state :=
  let '(self, input) :=
    if 0 <? buf_len self then
      let '(self, take) := chunk_state_fill_buf self input in
      let input := zdrop take input in
      if 0 <? zlen input then
        let self := chunk_state_compress self (buf self) in
        (ChunkState (cv self) (chunk_counter self) (zeros BLAKE3_BLOCK_LEN) 0
           (blocks_compressed self) (flags self), input)
      else (self, input)
    else (self, input) in
  let '(self, input) := chunk_update_loop (length input) self input in
  fst (chunk_state_fill_buf self input).

(** ** [output_t] *)

Record output_t := Output {
  o_input_cv : list Z;
  o_counter : Z;
  o_block : list Z;
  o_block_len : Z;
  o_flags : Z;
}.

Definition make_output (input_cv block : list Z) (block_len counter flags : Z)
  : output_t := Output input_cv counter block block_len flags.

Definition output_chaining_value (self : output_t) : list Z :=
  store_cv_words
    (blake3_compress_in_place (o_input_cv self) (o_block self)
       (o_block_len self) 0 (o_flags self)).

(** The loop of [output_root_bytes]; the block counter does not enter. *)
Fixpoint output_root_loop (fuel : nat) (self : output_t)
    (offset_within_block out_len : Z) : list Z :=
  match fuel with
  | O => []
  | S fuel =>
      if 0 <? out_len then
        let wide_buf :=
          blake3_compress_xof (o_input_cv self) (o_block self)
            (o_block_len self) 0 (Z.lor (o_flags self) ROOT) in
        let available_bytes := 64 - offset_within_block in
        let memcpy_len :=
          if available_bytes <? out_len then available_bytes else out_len in
        ztake memcpy_len (zdrop offset_within_block wide_buf)
          ++ output_root_loop fuel self 0 (out_len - memcpy_len)
      else []
  end.

Definition output_root_bytes (self : output_t) (seek out_len : Z) : list Z :=
  output_root_loop (Z.to_nat out_len) self (seek mod 64) out_len.

Definition chunk_state_output (self : blake3_chunk_state) : output_t :=
  let block_flags :=
    Z.lor (Z.lor (flags self) (chunk_state_maybe_start_flag self)) CHUNK_END in
  make_output (cv self) (buf self) (buf_len self) (chunk_counter self)
    block_flags.

Definition parent_output (block key : list Z) (flags : Z) : output_t :=
  make_output key block BLAKE3_BLOCK_LEN 0 (Z.lor flags PARENT).

(** ** Subtrees *)

Definition left_len (content_len : Z) : Z :=
  let full_chunks := (content_len - 1) / BLAKE3_CHUNK_LEN in
  round_down_to_power_of_2 full_chunks * BLAKE3_CHUNK_LEN.

(** The whole chunks at the front of [input], and the rest. *)
Fixpoint split_chunks (fuel : nat) (input : list Z)
  : list (list Z) * list Z :=
  match fuel with
  | O => ([], input)
  | S fuel =>
      if BLAKE3_CHUNK_LEN <=? zlen input then
        let '(chunks, rest) := split_chunks fuel (zdrop BLAKE3_CHUNK_LEN input) in
        (ztake BLAKE3_CHUNK_LEN input :: chunks, rest)
      else ([], input)
  end.

(** The bytes written to [out] and the number of chaining values in them. *)
Definition compress_chunks_parallel (input key : list Z)
    (chunk_counter flags : Z) : list Z * Z :=
  let '(chunks_array, rest) := split_chunks (length input) input in
  let chunks_array_len := zlen chunks_array in
  let out :=
    blake3_hash_many chunks_array
      (Z.to_nat (BLAKE3_CHUNK_LEN / BLAKE3_BLOCK_LEN)) key chunk_counter true
      flags CHUNK_START CHUNK_END in
  if 0 <? zlen rest then
    let chunk_state := chunk_state_update (chunk_state_init key flags) rest in
    let output := chunk_state_output chunk_state in
    (out ++ output_chaining_value output, chunks_array_len + 1)
  else (out, chunks_array_len).

(** The pairs of chaining values at the front, and what is left over. *)
Fixpoint split_parents (fuel : nat) (num : Z) (cvs : list Z)
  : list (list Z) * list Z * Z :=
  match fuel with
  | O => ([], cvs, num)
  | S fuel =>
      if 2 <=? num then
        let '(parents, rest, leftover) :=
          split_parents fuel (num - 2) (zdrop (2 * BLAKE3_OUT_LEN) cvs) in
        (ztake (2 * BLAKE3_OUT_LEN) cvs :: parents, rest, leftover)
      else ([], cvs, num)
  end.

Definition compress_parents_parallel (child_chaining_values : list Z)
    (num_chaining_values : Z) (key : list Z) (flags : Z) : list Z * Z :=
  let '(parents_array, rest, leftover) :=
    split_parents (Z.to_nat num_chaining_values) num_chaining_values
      child_chaining_values in
  let parents_array_len := zlen parents_array in
  let out :=
    blake3_hash_many parents_array 1 key 0 false (Z.lor flags PARENT) 0 0 in
  if 0 <? leftover then
    (out ++ ztake BLAKE3_OUT_LEN rest, parents_array_len + 1)
  else (out, parents_array_len).

Fixpoint blake3_compress_subtree_wide (fuel : nat) (input key : list Z)
    (chunk_counter flags : Z) : option (list Z * Z) :=
  match fuel with
  | O => None
  | S fuel =>
      if zlen input <=? blake3_simd_degree * BLAKE3_CHUNK_LEN then
        Some (compress_chunks_parallel input key 0 flags)
      else
        let left_input_len := left_len (zlen input) in
        let cv_array := zeros (2 * MAX_SIMD_DEGREE_OR_2 * BLAKE3_OUT_LEN) in
        let degree := blake3_simd_degree in
        let degree :=
          if (BLAKE3_CHUNK_LEN <? left_input_len) && (degree =? 1)
          then 2 else degree in
        '(left_cvs, left_n) ←
          blake3_compress_subtree_wide fuel (ztake left_input_len input) key 0
            flags;
        cv_array ← write_at 0 left_cvs cv_array;
        '(right_cvs, right_n) ←
          blake3_compress_subtree_wide fuel (zdrop left_input_len input) key 0
            flags;
        cv_array ← write_at (degree * BLAKE3_OUT_LEN) right_cvs cv_array;
        if left_n =? 1 then
          out ← read_at 0 (2 * BLAKE3_OUT_LEN) cv_array;
          Some (out, 2)
        else
          Some (compress_parents_parallel cv_array (left_n + right_n) key flags)
  end.

(** The loop [while (num_cvs > 2)]. *)
Fixpoint condense_loop (fuel : nat) (cv_array : list Z) (num_cvs : Z)
    (key : list Z) (flags : Z) : option (list Z) :=
  if 2 <? num_cvs then
    match fuel with
    | O => None
    | S fuel =>
        let '(out_array, num_cvs) :=
          compress_parents_parallel cv_array num_cvs key flags in
        cv_array ←
          write_at 0 (ztake (num_cvs * BLAKE3_OUT_LEN) out_array) cv_array;
        condense_loop fuel cv_array num_cvs key flags
    end
  else Some cv_array.

Definition compress_subtree_to_parent_node (input key : list Z)
    (chunk_counter flags : Z) : option (list Z) :=
  let cv_array := zeros (MAX_SIMD_DEGREE_OR_2 * BLAKE3_OUT_LEN) in
  '(cvs, num_cvs) ←
    blake3_compress_subtree_wide (length input) input key 0 flags;
  cv_array ← write_at 0 cvs cv_array;
  cv_array ← condense_loop (Z.to_nat num_cvs) cv_array num_cvs key flags;
  read_at 0 (2 * BLAKE3_OUT_LEN) cv_array.

(** ** [blake3_hasher] *)

Record blake3_hasher := Hasher {
  key : list Z;
  chunk : blake3_chunk_state;
  cv_stack_len : Z;
  cv_stack : list Z;
}.

(** [cv_stack] is left as it was ([stack]): only the length is reset. *)
Definition hasher_init_base (stack key : list Z) (flags : Z) : blake3_hasher :=
  Hasher key (chunk_state_init key flags) 0 stack.

Definition cv_stack_size : Z := (BLAKE3_MAX_DEPTH + 1) * BLAKE3_OUT_LEN.

Definition blake3_hasher_init (stack : list Z) : blake3_hasher :=
  hasher_init_base stack IV 0.

Definition blake3_hasher_init_keyed (stack key : list Z) : blake3_hasher :=
  hasher_init_base stack (load_key_words key) KEYED_HASH.

(** The loop [while (self->cv_stack_len > post_merge_stack_len)]. *)
Fixpoint merge_cv_stack_loop (fuel : nat) (self : blake3_hasher)
    (post_merge_stack_len : Z) : option blake3_hasher :=
  if post_merge_stack_len <? cv_stack_len self then
    match fuel with
    | O => None
    | S fuel =>
        let off := (cv_stack_len self - 2) * BLAKE3_OUT_LEN in
        parent_node ← read_at off BLAKE3_BLOCK_LEN (cv_stack self);
        let output := parent_output parent_node (key self) (flags (chunk self)) in
        stack ← write_at off (output_chaining_value output) (cv_stack self);
        merge_cv_stack_loop fuel
          (Hasher (key self) (chunk self) (u8 (cv_stack_len self - 1)) stack)
          post_merge_stack_len
    end
  else Some self.

Definition hasher_merge_cv_stack (self : blake3_hasher) (total_len : Z)
  : option blake3_hasher :=
  merge_cv_stack_loop (Z.to_nat (cv_stack_len self)) self (popcnt total_len).

Definition hasher_push_cv (self : blake3_hasher) (new_cv : list Z)
    (chunk_counter : Z) : option blake3_hasher :=
  self ← hasher_merge_cv_stack self chunk_counter;
  stack ← write_at (cv_stack_len self * BLAKE3_OUT_LEN) new_cv (cv_stack self);
  Some (Hasher (key self) (chunk self) (u8 (cv_stack_len self + 1)) stack).

(** [while ((((uint64_t)(subtree_len - 1)) & count_so_far) != 0)]. *)
Fixpoint shrink_subtree (fuel : nat) (subtree_len count_so_far : Z) : Z :=
  match fuel with
  | O => subtree_len
  | S fuel =>
      if Z.land (u64 (subtree_len - 1)) count_so_far =? 0 then subtree_len
      else shrink_subtree fuel (subtree_len / 2) count_so_far
  end.

Definition set_chunk (self : blake3_hasher) (c : blake3_chunk_state)
  : blake3_hasher :=
  Hasher (key self) c (cv_stack_len self) (cv_stack self).

Definition set_chunk_counter (c : blake3_chunk_state) (n : Z)
  : blake3_chunk_state :=
  ChunkState (cv c) n (buf c) (buf_len c) (blocks_compressed c) (flags c).

(** One iteration of [while (input_len > BLAKE3_CHUNK_LEN)]: the hasher and
    how many bytes it consumed. *)
Definition update_subtree (self : blake3_hasher) (input_bytes : list Z)
  : option (blake3_hasher * Z) :=
  let subtree_len := round_down_to_power_of_2 (zlen input_bytes) in
  let count_so_far := u64 (chunk_counter (chunk self) * BLAKE3_CHUNK_LEN) in
  let subtree_len := shrink_subtree 64 subtree_len count_so_far in
  let subtree_chunks := subtree_len / BLAKE3_CHUNK_LEN in
  let subtree := ztake subtree_len input_bytes in
  self ←
    (if subtree_len <=? BLAKE3_CHUNK_LEN then
       let chunk_state := chunk_state_init (key self) (flags (chunk self)) in
       let chunk_state :=
         set_chunk_counter chunk_state (chunk_counter (chunk self)) in
       let chunk_state := chunk_state_update chunk_state subtree in
       let cv := output_chaining_value (chunk_state_output chunk_state) in
       hasher_push_cv self cv (chunk_counter chunk_state)
     else
       cv_pair ←
         compress_subtree_to_parent_node subtree (key self) 0
           (flags (chunk self));
       self ←
         hasher_push_cv self (ztake BLAKE3_OUT_LEN cv_pair)
           (chunk_counter (chunk self));
       hasher_push_cv self (zdrop BLAKE3_OUT_LEN cv_pair)
         (u64 (chunk_counter (chunk self) + subtree_chunks / 2)));
  Some (set_chunk self
          (set_chunk_counter (chunk self)
             (u64 (chunk_counter (chunk self) + subtree_chunks))),
        subtree_len).

Fixpoint update_loop (fuel : nat) (self : blake3_hasher) (input_bytes : list Z)
  : option (blake3_hasher * list Z) :=
  if BLAKE3_CHUNK_LEN <? zlen input_bytes then
    match fuel with
    | O => None
    | S fuel =>
        '(self, subtree_len) ← update_subtree self input_bytes;
        update_loop fuel self (zdrop subtree_len input_bytes)
    end
  else Some (self, input_bytes).

(** The first part of [blake3_hasher_update]: finish a partial chunk.  The
    remaining input, or nothing when the function returns there. *)
Definition update_partial_chunk (self : blake3_hasher) (input_bytes : list Z)
  : option (blake3_hasher * option (list Z)) :=
  if 0 <? chunk_state_len (chunk self) then
    let take := BLAKE3_CHUNK_LEN - chunk_state_len (chunk self) in
    let take := if zlen input_bytes <? take then zlen input_bytes else take in
    let self :=
      set_chunk self (chunk_state_update (chunk self) (ztake take input_bytes)) in
    let input_bytes := zdrop take input_bytes in
    if 0 <? zlen input_bytes then
      let chunk_cv := output_chaining_value (chunk_state_output (chunk self)) in
      self ← hasher_push_cv self chunk_cv (chunk_counter (chunk self));
      Some (set_chunk self
              (chunk_state_reset (chunk self) (key self)
                 (chunk_counter (chunk self) + 1)),
            Some input_bytes)
    else Some (self, None)
  else Some (self, Some input_bytes).

Definition blake3_hasher_update (self : blake3_hasher) (input : list Z)
  : option blake3_hasher :=
  if zlen input =? 0 then Some self
  else
    '(self, rest) ← update_partial_chunk self input;
    match rest with
    | None => Some self
    | Some input_bytes =>
        '(self, input_bytes) ←
          update_loop (length input_bytes) self input_bytes;
        if 0 <? zlen input_bytes then
          let self :=
            set_chunk self (chunk_state_update (chunk self) input_bytes) in
          hasher_merge_cv_stack self (chunk_counter (chunk self))
        else Some self
    end.

(** The loop [while (cvs_remaining > 0)] of the finalization. *)
Fixpoint finalize_loop (cvs_remaining : nat) (self : blake3_hasher)
    (output : output_t) : option output_t :=
  match cvs_remaining with
  | O => Some output
  | S cvs_remaining =>
      left_cv ←
        read_at (Z.of_nat cvs_remaining * 32) 32 (cv_stack self);
      let parent_block := left_cv ++ output_chaining_value output in
      finalize_loop cvs_remaining self
        (parent_output parent_block (key self) (flags (chunk self)))
  end.

Definition blake3_hasher_finalize_seek (self : blake3_hasher)
    (seek out_len : Z) : option (list Z) :=
  if out_len =? 0 then Some []
  else if cv_stack_len self =? 0 then
    Some (output_root_bytes (chunk_state_output (chunk self)) seek out_len)
  else
    '(cvs_remaining, output) ←
      (if 0 <? chunk_state_len (chunk self) then
         Some (cv_stack_len self, chunk_state_output (chunk self))
       else
         let cvs_remaining := cv_stack_len self - 2 in
         block ← read_at (cvs_remaining * 32) BLAKE3_BLOCK_LEN (cv_stack self);
         Some (cvs_remaining,
               parent_output block (key self) (flags (chunk self))));
    output ← finalize_loop (Z.to_nat cvs_remaining) self output;
    Some (output_root_bytes output seek out_len).

Definition blake3_hasher_finalize (self : blake3_hasher) (out_len : Z)
  : option (list Z) :=
  blake3_hasher_finalize_seek self 0 out_len.

Definition blake3_hasher_init_derive_key_raw (stack context_stack context : list Z)
  : option blake3_hasher :=
  let context_hasher :=
    hasher_init_base context_stack IV DERIVE_KEY_CONTEXT in
  context_hasher ← blake3_hasher_update context_hasher context;
  context_key ← blake3_hasher_finalize context_hasher BLAKE3_KEY_LEN;
  Some (hasher_init_base stack (load_key_words context_key)
          DERIVE_KEY_MATERIAL).
