(* ===== verification/Blake3Chunk.v ===== *)
(** * Chunks: the reference chunk node and the chunk state that computes it *)

From S2P Require Import Prelude Arrays Blake3Compress Blake3.
Open Scope Z_scope.

(** ** Reference *)

(** The last node of a chunk: its blocks are compressed in turn, the first one
    with [start] (CHUNK_START), and the last one, padded with zeros, is left to
    the caller with CHUNK_END. *)
Fixpoint chunk_node (fuel : nat) (cvv : list Z) (fl start : Z) (c : list Z)
  : output_t :=
  let last :=
    Output cvv 0 (c ++ zeros (BLAKE3_BLOCK_LEN - zlen c)) (zlen c)
      (Z.lor (Z.lor fl start) CHUNK_END) in
  match fuel with
  | O => last
  | S fuel =>
      if zlen c <=? BLAKE3_BLOCK_LEN then last
      else
        chunk_node fuel
          (blake3_compress_in_place cvv (ztake BLAKE3_BLOCK_LEN c)
             BLAKE3_BLOCK_LEN 0 (Z.lor fl start))
          fl 0 (zdrop BLAKE3_BLOCK_LEN c)
  end.

Definition chunk_root (key : list Z) (fl : Z) (c : list Z) : output_t :=
  chunk_node (length c) key fl CHUNK_START c.

(** Two nodes that only differ in the (unused) chunk counter. *)
Definition output_equiv (o1 o2 : output_t) : Prop :=
  o_input_cv o1 = o_input_cv o2 /\ o_block o1 = o_block o2 /\
  o_block_len o1 = o_block_len o2 /\ o_flags o1 = o_flags o2.

(** The chaining value after the first [n] blocks of [input]. *)
Fixpoint absorb (n : nat) (cvv : list Z) (fl start : Z) (input : list Z)
  : list Z :=
  match n with
  | O => cvv
  | S n =>
      absorb n
        (blake3_compress_in_place cvv (ztake BLAKE3_BLOCK_LEN input)
           BLAKE3_BLOCK_LEN 0 (Z.lor fl start))
        fl 0 (zdrop BLAKE3_BLOCK_LEN input)
  end.

Definition start_flag (n : nat) : Z := if (n =? 0)%nat then CHUNK_START else 0.

(** The chunk state after absorbing [c]: [n] blocks are compressed, the rest of
    [c] is in the buffer. *)
Record chunk_at (key : list Z) (fl : Z) (n : nat) (self : blake3_chunk_state)
    (c : list Z) : Prop := ChunkAt {
  cr_len : zlen c <= BLAKE3_CHUNK_LEN;
  cr_flags : flags self = fl;
  cr_n : blocks_compressed self = Z.of_nat n;
  cr_buf_len : buf_len self = zlen c - BLAKE3_BLOCK_LEN * Z.of_nat n;
  cr_range : 0 <= buf_len self <= BLAKE3_BLOCK_LEN;
  cr_pos : n <> O -> 0 < buf_len self;
  cr_cv : cv self = absorb n key fl CHUNK_START c;
  cr_buf : buf self = zdrop (BLAKE3_BLOCK_LEN * Z.of_nat n) c
                      ++ zeros (BLAKE3_BLOCK_LEN - buf_len self);
}.

Definition chunk_repr (key : list Z) (fl : Z) (self : blake3_chunk_state)
    (c : list Z) : Prop := exists n, chunk_at key fl n self c.

Ltac b3_unfold :=
  unfold BLAKE3_BLOCK_LEN, BLAKE3_CHUNK_LEN, BLAKE3_OUT_LEN, BLAKE3_KEY_LEN in *.

Ltac b3_lia := b3_unfold; zlens; lia.

(** ** Equivalence of nodes *)

#[global] Instance output_equiv_equivalence : Equivalence output_equiv.
Proof.
  unfold output_equiv; split.
  - done.
  - intros o1 o2 (E1 & E2 & E3 & E4). by rewrite E1, E2, E3, E4.
  - intros o1 o2 o3 (E1 & E2 & E3 & E4) (F1 & F2 & F3 & F4).
    by rewrite E1, E2, E3, E4.
Qed.

#[global] Instance output_chaining_value_proper :
  Proper (output_equiv ==> eq) output_chaining_value.
Proof.
  intros o1 o2 (E1 & E2 & E3 & E4). unfold output_chaining_value.
  by rewrite E1, E2, E3, E4.
Qed.

#[global] Instance output_root_bytes_proper :
  Proper (output_equiv ==> eq ==> eq ==> eq) output_root_bytes.
Proof.
  intros o1 o2 (E1 & E2 & E3 & E4) seek ? <- out_len ? <-.
  unfold output_root_bytes. generalize (seek mod 64).
  generalize (Z.to_nat out_len) as fuel. intros fuel. revert out_len.
  induction fuel as [|fuel IH]; intros out_len off; simpl; [done|].
  by rewrite E1, E2, E3, E4, IH.
Qed.

(** ** Absorbing blocks *)

Lemma absorb_app n cvv fl start c i :
  BLAKE3_BLOCK_LEN * Z.of_nat n <= zlen c ->
  absorb n cvv fl start (c ++ i) = absorb n cvv fl start c.
Proof.
  revert cvv start c. induction n as [|n IH]; intros cvv start c; [done|].
  intros Hlen. simpl. b3_unfold.
  rewrite ztake_app_le, zdrop_app_le by lia. apply IH. b3_lia.
Qed.

Lemma absorb_snoc n cvv fl start c :
  BLAKE3_BLOCK_LEN * Z.of_nat n <= zlen c ->
  absorb (S n) cvv fl start c =
  blake3_compress_in_place (absorb n cvv fl start c)
    (ztake BLAKE3_BLOCK_LEN (zdrop (BLAKE3_BLOCK_LEN * Z.of_nat n) c))
    BLAKE3_BLOCK_LEN 0 (Z.lor fl (if (n =? 0)%nat then start else 0)).
Proof.
  revert cvv start c.
  induction n as [|n IH]; intros cvv start c Hlen; [done|].
  change (absorb (S (S n)) cvv fl start c) with
    (absorb (S n) (blake3_compress_in_place cvv (ztake BLAKE3_BLOCK_LEN c)
       BLAKE3_BLOCK_LEN 0 (Z.lor fl start)) fl 0 (zdrop BLAKE3_BLOCK_LEN c)).
  rewrite IH by b3_lia. rewrite zdrop_zdrop by b3_lia.
  replace (BLAKE3_BLOCK_LEN + BLAKE3_BLOCK_LEN * Z.of_nat n)
    with (BLAKE3_BLOCK_LEN * Z.of_nat (S n)) by b3_lia.
  by destruct n.
Qed.

Lemma chunk_node_fuel fuel cvv fl start c :
  (length c <= fuel)%nat ->
  chunk_node fuel cvv fl start c = chunk_node (length c) cvv fl start c.
Proof.
  remember (length c) as n eqn:E. revert fuel cvv start c E.
  induction n as [n IH] using lt_wf_ind. intros fuel cvv start c -> Hf.
  destruct fuel as [|fuel]; [by destruct c; simpl in *; [|lia]|].
  destruct (length c) as [|n] eqn:En.
  { apply nil_length_inv in En as ->. done. }
  simpl. case_match eqn:Hle; [done|].
  assert (length (zdrop BLAKE3_BLOCK_LEN c) <= n)%nat.
  { unfold zdrop; b3_unfold; rewrite length_drop; lia. }
  pose proof (IH (length (zdrop BLAKE3_BLOCK_LEN c)) ltac:(lia)) as IH'.
  by rewrite (IH' fuel _ _ _ eq_refl), (IH' n _ _ _ eq_refl) by lia.
Qed.

(** One step of the reference. *)
Lemma chunk_node_unfold cvv fl start c :
  chunk_node (length c) cvv fl start c =
  if zlen c <=? BLAKE3_BLOCK_LEN then
    Output cvv 0 (c ++ zeros (BLAKE3_BLOCK_LEN - zlen c)) (zlen c)
      (Z.lor (Z.lor fl start) CHUNK_END)
  else
    let c' := zdrop BLAKE3_BLOCK_LEN c in
    chunk_node (length c')
      (blake3_compress_in_place cvv (ztake BLAKE3_BLOCK_LEN c)
         BLAKE3_BLOCK_LEN 0 (Z.lor fl start))
      fl 0 c'.
Proof.
  destruct (length c) as [|n] eqn:En.
  { apply nil_length_inv in En as ->. done. }
  simpl. case_match; [done|]. apply chunk_node_fuel.
  unfold zdrop; b3_unfold; rewrite length_drop; lia.
Qed.

Lemma chunk_node_absorb n cvv fl start c :
  (n = O \/ BLAKE3_BLOCK_LEN * Z.of_nat n < zlen c) ->
  zlen c - BLAKE3_BLOCK_LEN * Z.of_nat n <= BLAKE3_BLOCK_LEN ->
  let r := zdrop (BLAKE3_BLOCK_LEN * Z.of_nat n) c in
  chunk_node (length c) cvv fl start c =
  Output (absorb n cvv fl start c) 0
    (r ++ zeros (BLAKE3_BLOCK_LEN - zlen r)) (zlen r)
    (Z.lor (Z.lor fl (if (n =? 0)%nat then start else 0)) CHUNK_END).
Proof.
  revert cvv start c.
  induction n as [|n IH]; intros cvv start c Hlo Hhi; cbn zeta;
    rewrite chunk_node_unfold.
  - rewrite Z.mul_0_r, zdrop_0.
    replace (zlen c <=? BLAKE3_BLOCK_LEN) with true by b3_lia. done.
  - replace (zlen c <=? BLAKE3_BLOCK_LEN) with false by b3_lia. cbn zeta.
    rewrite IH; [|right; b3_lia|b3_lia].
    cbn [Nat.eqb absorb]. rewrite zdrop_zdrop by b3_lia.
    replace (BLAKE3_BLOCK_LEN + BLAKE3_BLOCK_LEN * Z.of_nat n)
      with (BLAKE3_BLOCK_LEN * Z.of_nat (S n)) by b3_lia.
    by destruct (n =? 0)%nat.
Qed.

(** ** The chunk state computes the reference *)

Lemma chunk_repr_init key fl : chunk_repr key fl (chunk_state_init key fl) [].
Proof. by exists O. Qed.

Lemma chunk_repr_len key fl self c :
  chunk_repr key fl self c ->
  chunk_state_len self = zlen c /\ zlen c <= BLAKE3_CHUNK_LEN.
Proof.
  intros [n [? ? E1 E2 ? ? ? ?]]. unfold chunk_state_len. split; [|done]. lia.
Qed.

Lemma chunk_start_flag_eq self n :
  blocks_compressed self = Z.of_nat n ->
  chunk_state_maybe_start_flag self = start_flag n.
Proof.
  unfold chunk_state_maybe_start_flag, start_flag. intros ->. by destruct n.
Qed.

Lemma chunk_repr_output key fl self c :
  chunk_repr key fl self c ->
  output_equiv (chunk_state_output self) (chunk_root key fl c).
Proof.
  intros [n [Hlen Hfl Hn Hbl Hr Hpos Hcv Hbuf]].
  unfold chunk_root. rewrite (chunk_node_absorb n);
    [|destruct n; [by left|right; specialize (Hpos ltac:(done)); b3_lia]
     |b3_lia].
  assert (zlen (zdrop (BLAKE3_BLOCK_LEN * Z.of_nat n) c) = buf_len self) as E
    by b3_lia.
  rewrite E. unfold output_equiv, chunk_state_output, make_output; simpl.
  repeat split; [done|done|].
  by rewrite Hfl, (chunk_start_flag_eq _ n) by done.
Qed.

Lemma chunk_repr_set_counter key fl self c n :
  chunk_repr key fl self c -> chunk_repr key fl (set_chunk_counter self n) c.
Proof. intros [m []]; by exists m. Qed.

(** The state between blocks: [n] blocks absorbed, the buffer empty. *)
Record absorbed (key : list Z) (fl : Z) (self : blake3_chunk_state)
    (n : nat) (c : list Z) : Prop := Absorbed {
  ab_flags : flags self = fl;
  ab_n : blocks_compressed self = Z.of_nat n;
  ab_buf_len : buf_len self = 0;
  ab_buf : buf self = zeros BLAKE3_BLOCK_LEN;
  ab_cv : cv self = absorb n key fl CHUNK_START c;
  ab_len : zlen c <= BLAKE3_CHUNK_LEN;
  ab_lo : BLAKE3_BLOCK_LEN * Z.of_nat n <= zlen c;
  ab_pos : n <> O -> BLAKE3_BLOCK_LEN * Z.of_nat n < zlen c;
}.

Lemma chunk_loop_absorbed key fl fuel self n c :
  absorbed key fl self n c -> (length c - 64 * n <= fuel)%nat ->
  let '(self', r) :=
    chunk_update_loop fuel self (zdrop (BLAKE3_BLOCK_LEN * Z.of_nat n) c) in
  exists n', absorbed key fl self' n' c /\
    r = zdrop (BLAKE3_BLOCK_LEN * Z.of_nat n') c /\
    zlen c <= BLAKE3_BLOCK_LEN * Z.of_nat n' + BLAKE3_BLOCK_LEN /\
    chunk_counter self' = chunk_counter self.
Proof.
  revert self n. induction fuel as [|fuel IH]; intros self n Ha Hf.
  { simpl. exists n. destruct Ha. repeat split; try done. unfold zlen in *. b3_lia. }
  cbn [chunk_update_loop].
  pose proof (ab_lo _ _ _ _ _ Ha) as Hlo. pose proof (ab_len _ _ _ _ _ Ha) as Hlen.
  destruct (Z.ltb_spec BLAKE3_BLOCK_LEN
    (zlen (zdrop (BLAKE3_BLOCK_LEN * Z.of_nat n) c))) as [Hlt|Hge];
    rewrite zlen_zdrop in * by b3_lia.
  2:{ exists n. repeat split; try done; [by destruct Ha..|]. b3_lia. }
  rewrite zdrop_zdrop by b3_lia.
  replace (BLAKE3_BLOCK_LEN * Z.of_nat n + BLAKE3_BLOCK_LEN)
    with (BLAKE3_BLOCK_LEN * Z.of_nat (S n)) by b3_lia.
  set (self' := chunk_state_compress self _).
  assert (absorbed key fl self' (S n) c) as Ha'.
  { destruct Ha as [Hfl Hnn Hbl Hbuf Hcv]. constructor; try done; try b3_lia.
    - simpl. rewrite Hnn. unfold u8. rewrite Z.mod_small; b3_lia.
    - rewrite absorb_snoc by done. cbn [cv self' chunk_state_compress].
      by rewrite Hcv, Hfl, (chunk_start_flag_eq _ n). }
  specialize (IH self' (S n) Ha').
  destruct (chunk_update_loop fuel self' _) as [self'' r].
  apply IH. unfold zlen in *. b3_lia.
Qed.

Lemma chunk_fill_absorbed key fl self n c :
  absorbed key fl self n c ->
  zlen c <= BLAKE3_BLOCK_LEN * Z.of_nat n + BLAKE3_BLOCK_LEN ->
  chunk_repr key fl
    (fst (chunk_state_fill_buf self (zdrop (BLAKE3_BLOCK_LEN * Z.of_nat n) c))) c.
Proof.
  intros [Hfl Hn Hbl Hbuf Hcv Hlen Hlo Hpos] Hhi.
  unfold chunk_state_fill_buf. rewrite Hbl, Z.sub_0_r.
  set (r := zdrop (BLAKE3_BLOCK_LEN * Z.of_nat n) c).
  assert (zlen r = zlen c - BLAKE3_BLOCK_LEN * Z.of_nat n) as Er
    by (subst r; b3_lia).
  assert ((if zlen r <? BLAKE3_BLOCK_LEN then zlen r else BLAKE3_BLOCK_LEN)
          = zlen r) as ->
    by (destruct (Z.ltb_spec (zlen r) BLAKE3_BLOCK_LEN); lia).
  rewrite ztake_ge by lia. cbn [fst]. pose proof (zlen_nonneg r).
  assert (u8 (0 + u8 (zlen r)) = zlen r) as Eu.
  { unfold u8. b3_unfold. rewrite Z.add_0_l, Z.mod_mod, Z.mod_small; lia. }
  exists n; constructor; cbn [flags blocks_compressed buf_len cv buf];
    rewrite ?Eu; try done; try b3_lia.
  fold r. rewrite Hbuf.
  replace BLAKE3_BLOCK_LEN with (zlen r + (BLAKE3_BLOCK_LEN - zlen r)) at 1 by lia.
  rewrite zeros_split by b3_lia.
  apply (splice_app 0 r []); [done|]. b3_lia.
Qed.

Lemma chunk_update_absorbed key fl self n c :
  absorbed key fl self n c ->
  let r := zdrop (BLAKE3_BLOCK_LEN * Z.of_nat n) c in
  let self' :=
    let '(self, r) := chunk_update_loop (length r) self r in
    fst (chunk_state_fill_buf self r) in
  chunk_repr key fl self' c /\ chunk_counter self' = chunk_counter self.
Proof.
  intros Ha r self'. subst self' r.
  pose proof (chunk_loop_absorbed key fl
    (length (zdrop (BLAKE3_BLOCK_LEN * Z.of_nat n) c)) self n c Ha) as Hloop.
  destruct (chunk_update_loop _ self _) as [self' r'].
  destruct Hloop as (n' & Ha' & -> & Hr & Hc).
  { unfold zdrop; b3_unfold. rewrite length_drop. lia. }
  split; [by apply chunk_fill_absorbed|]. done.
Qed.

(** Filling the buffer of a state. *)
Lemma fill_buf_content key fl self c i :
  chunk_repr key fl self c -> zlen c + zlen i <= BLAKE3_CHUNK_LEN ->
  let '(self', take) := chunk_state_fill_buf self i in
  take = Z.min (BLAKE3_BLOCK_LEN - buf_len self) (zlen i) /\
  chunk_repr key fl self' (c ++ ztake take i) /\
  buf_len self' = buf_len self + take /\
  chunk_counter self' = chunk_counter self.
Proof.
  intros [n [Hlen Hfl Hn Hbl Hr Hpos Hcv Hbuf]] Hi.
  unfold chunk_state_fill_buf. pose proof (zlen_nonneg i).
  replace (if zlen i <? BLAKE3_BLOCK_LEN - buf_len self then zlen i
           else BLAKE3_BLOCK_LEN - buf_len self)
    with (Z.min (BLAKE3_BLOCK_LEN - buf_len self) (zlen i))
    by (destruct (Z.ltb_spec (zlen i) (BLAKE3_BLOCK_LEN - buf_len self)); lia).
  set (take := Z.min _ _).
  assert (zlen (ztake take i) = take) as Et by (rewrite zlen_ztake; lia).
  assert (u8 (buf_len self + u8 take) = buf_len self + take) as Eu.
  { unfold u8. b3_unfold. rewrite (Z.mod_small take), Z.mod_small; lia. }
  split; [done|]. split; [|by cbn [buf_len chunk_counter]; rewrite Eu].
  exists n; constructor; cbn [flags blocks_compressed buf_len cv buf];
    rewrite ?Eu, ?zlen_app, ?Et; try done; try lia.
  - by rewrite absorb_app by b3_lia.
  - rewrite Hbuf. rewrite zdrop_app_le by b3_lia.
    replace (BLAKE3_BLOCK_LEN - buf_len self)
      with (take + (BLAKE3_BLOCK_LEN - (buf_len self + take))) by lia.
    rewrite zeros_split by lia.
    rewrite splice_app; [by rewrite <- app_assoc|b3_lia|b3_lia].
Qed.

(** A full buffer compressed leaves the state between blocks. *)
Lemma compress_full_buffer key fl self c i :
  chunk_repr key fl self c -> buf_len self = BLAKE3_BLOCK_LEN ->
  0 < zlen i -> zlen c + zlen i <= BLAKE3_CHUNK_LEN ->
  let s := chunk_state_compress self (buf self) in
  exists n,
    absorbed key fl
      (ChunkState (cv s) (chunk_counter s) (zeros BLAKE3_BLOCK_LEN) 0
         (blocks_compressed s) (flags s)) n (c ++ i) /\
    zdrop (BLAKE3_BLOCK_LEN * Z.of_nat n) (c ++ i) = i.
Proof.
  intros [n [Hlen Hfl Hn Hbl Hr Hpos Hcv Hbuf]] Hfull Hi Hci s.
  exists (S n). split.
  - constructor; try done; try b3_lia.
    + simpl. rewrite Hn. unfold u8. rewrite Z.mod_small; b3_lia.
    + cbn [cv s chunk_state_compress].
      rewrite Hcv, Hfl, (chunk_start_flag_eq _ n) by done.
      rewrite absorb_snoc by b3_lia.
      rewrite absorb_app by b3_lia.
      rewrite Hbuf, Hfull, Z.sub_diag, zdrop_app_le by b3_lia.
      rewrite ztake_app_eq by b3_lia. unfold zeros at 1. simpl.
      by rewrite app_nil_r.
  - apply zdrop_app_eq. b3_lia.
Qed.

Lemma chunk_repr_empty_buf key fl self c :
  chunk_repr key fl self c -> buf_len self = 0 ->
  c = [] /\ absorbed key fl self 0 [].
Proof.
  intros [n [Hlen Hfl Hn Hbl Hr Hpos Hcv Hbuf]] H0.
  destruct n; [|specialize (Hpos ltac:(done)); lia].
  assert (c = []) as -> by (apply zlen_zero; lia).
  split; [done|]. constructor; try done. by rewrite Hbuf, H0.
Qed.

Lemma absorbed_start key fl self i :
  absorbed key fl self 0 [] -> zlen i <= BLAKE3_CHUNK_LEN ->
  absorbed key fl self 0 i.
Proof. intros [] ?. constructor; try done; apply zlen_nonneg. Qed.

(** [chunk_state_update] absorbs its input: the state represents [c ++ i]. *)
Lemma chunk_update_repr key fl self c i :
  chunk_repr key fl self c -> zlen c + zlen i <= BLAKE3_CHUNK_LEN ->
  chunk_repr key fl (chunk_state_update self i) (c ++ i) /\
  chunk_counter (chunk_state_update self i) = chunk_counter self.
Proof.
  intros Hr Hlen. unfold chunk_state_update.
  destruct (Z.ltb_spec 0 (buf_len self)) as [Hpos|Hzero].
  - pose proof (fill_buf_content key fl self c i Hr Hlen) as Hf.
    destruct (chunk_state_fill_buf self i) as [self1 take].
    destruct Hf as (Ht & Hr1 & Hb1 & Hc1). pose proof (zlen_nonneg i).
    assert (0 <= take <= zlen i) as Htr.
    { destruct Hr as [n []]. lia. }
    destruct (Z.ltb_spec 0 (zlen (zdrop take i))) as [Hrest|Hrest].
    + destruct (compress_full_buffer key fl self1 (c ++ ztake take i)
        (zdrop take i) Hr1) as (n & Ha & Hd); [|done|b3_lia|].
      { rewrite zlen_zdrop in Hrest by lia. lia. }
      rewrite <- app_assoc, ztake_zdrop in Ha, Hd.
      pose proof (chunk_update_absorbed _ _ _ _ _ Ha) as Hu. cbn zeta in Hu.
      rewrite Hd in Hu. destruct (chunk_update_loop _ _ _) as [self' r'].
      by rewrite <- Hc1.
    + assert (zdrop take i = []) as E by (apply zlen_zero; pose proof (zlen_nonneg (zdrop take i)); lia).
      assert (ztake take i = i) as Ei.
      { rewrite <- (ztake_zdrop take i) at 2. by rewrite E, app_nil_r. }
      rewrite Ei in Hr1. rewrite E. cbn [length chunk_update_loop].
      pose proof (fill_buf_content key fl self1 (c ++ i) [] Hr1) as Hf.
      destruct (chunk_state_fill_buf self1 []) as [self2 t].
      destruct Hf as (_ & Hr2 & _ & Hc2); [b3_lia|].
      unfold ztake in Hr2. rewrite take_nil, app_nil_r in Hr2.
      cbn [fst]. by rewrite <- Hc1.
  - assert (buf_len self = 0) as H0.
    { destruct Hr as [n [? ? ? ? Hrange ? ? ?]]. lia. }
    destruct (chunk_repr_empty_buf key fl self c Hr H0) as [-> Ha].
    rewrite zlen_nil in Hlen. apply (absorbed_start _ _ _ i) in Ha; [|lia].
    apply (chunk_update_absorbed _ _ _ _ _ Ha).
Qed.

(** ** A whole chunk hashed by [hash_one_portable] *)

Lemma hash_one_blocks_chunk n cvv fl start input :
  zlen input = BLAKE3_BLOCK_LEN * Z.of_nat (S n) ->
  store_cv_words
    (hash_one_blocks (S n) cvv input (Z.lor fl start) fl CHUNK_END) =
  output_chaining_value (chunk_node (length input) cvv fl start input).
Proof.
  revert cvv start input.
  induction n as [|n IH]; intros cvv start input Hlen; rewrite chunk_node_unfold.
  - rewrite Z.mul_1_r in Hlen. rewrite Hlen.
    change (BLAKE3_BLOCK_LEN <=? BLAKE3_BLOCK_LEN) with true. cbv iota.
    unfold output_chaining_value. cbn [hash_one_blocks Nat.eqb o_input_cv
      o_block o_block_len o_flags]. rewrite Z.sub_diag, app_nil_r.
    change (take 64 input) with (ztake BLAKE3_BLOCK_LEN input).
    by rewrite ztake_ge by lia.
  - replace (zlen input <=? BLAKE3_BLOCK_LEN) with false by b3_lia. cbn zeta.
    rewrite <- (IH _ 0) by b3_lia. by rewrite Z.lor_0_r.
Qed.

Lemma hash_one_chunk key fl c :
  zlen c = BLAKE3_CHUNK_LEN ->
  hash_one_portable c 16 key 0 fl CHUNK_START CHUNK_END =
  output_chaining_value (chunk_root key fl c).
Proof. intros. by apply (hash_one_blocks_chunk 15). Qed.
