(* ===== verification/Blake3Tree.v ===== *)
(** * The hash tree: reference definition and the subtree compression

    The reference splits the input at the largest power of two of chunks that
    leaves the right side nonempty and joins the two chaining values with a
    parent node.  [blake3_compress_subtree_wide] and
    [compress_subtree_to_parent_node] are shown to compute its nodes. *)

From S2P Require Import Prelude Arrays Blake3Compress Blake3 Blake3Chunk.
Open Scope Z_scope.

#[local] Opaque chunk_root.

(** ** Reference *)

Definition left_size (n : Z) : Z :=
  BLAKE3_CHUNK_LEN * 2 ^ Z.log2 ((n - 1) / BLAKE3_CHUNK_LEN).

Fixpoint tree_node (fuel : nat) (key : list Z) (fl : Z) (m : list Z)
  : output_t :=
  match fuel with
  | O => chunk_root key fl m
  | S fuel =>
      if zlen m <=? BLAKE3_CHUNK_LEN then chunk_root key fl m
      else
        let k := left_size (zlen m) in
        parent_output
          (output_chaining_value (tree_node fuel key fl (ztake k m))
           ++ output_chaining_value (tree_node fuel key fl (zdrop k m)))
          key fl
  end.

Definition blake3_tree (key : list Z) (fl : Z) (m : list Z) : output_t :=
  tree_node (length m) key fl m.

Definition tree_cv (key : list Z) (fl : Z) (m : list Z) : list Z :=
  output_chaining_value (blake3_tree key fl m).

(** ** Sizes *)

Lemma left_size_spec n :
  BLAKE3_CHUNK_LEN < n ->
  BLAKE3_CHUNK_LEN <= left_size n < n /\ n <= 2 * left_size n.
Proof.
  b3_unfold. intros Hn. unfold left_size. b3_unfold.
  pose proof (Z.div_mod (n - 1) 1024 ltac:(lia)) as Hdm.
  pose proof (Z.mod_pos_bound (n - 1) 1024 ltac:(lia)).
  set (q := (n - 1) / 1024) in *. assert (1 <= q) by lia.
  pose proof (Z.log2_spec q ltac:(lia)) as [? Hhi].
  rewrite Z.pow_succ_r in Hhi by apply Z.log2_nonneg.
  pose proof (Z.pow_pos_nonneg 2 (Z.log2 q) ltac:(lia) (Z.log2_nonneg _)). lia.
Qed.

Lemma round_down_pow2 x :
  0 < x < 2 ^ 64 -> round_down_to_power_of_2 x = 2 ^ Z.log2 x.
Proof.
  intros Hx. unfold round_down_to_power_of_2, highest_one.
  assert (Z.log2 (Z.lor x 1) = Z.log2 x) as ->.
  { rewrite Z.log2_lor by lia. change (Z.log2 1) with 0.
    pose proof (Z.log2_nonneg x). lia. }
  rewrite Z.shiftl_1_l. unfold u64. apply Z.mod_small.
  split; [apply Z.pow_nonneg; lia|]. apply Z.pow_lt_mono_r; [lia|lia|].
  apply Z.log2_lt_pow2; lia.
Qed.

Lemma left_len_size n :
  BLAKE3_CHUNK_LEN < n < 2 ^ 64 -> left_len n = left_size n.
Proof.
  intros Hn. unfold left_len, left_size. rewrite round_down_pow2; [lia|].
  b3_unfold. split.
  - apply Z.div_str_pos. lia.
  - apply Z.div_lt_upper_bound; lia.
Qed.

Lemma zlen_store_cv_words w : zlen (store_cv_words w) = 4 * zlen w.
Proof.
  unfold store_cv_words. induction w as [|x w IH]; [done|].
  cbn [mbind list_bind]. rewrite zlen_app, zlen_cons, IH.
  unfold zlen at 1. simpl. lia.
Qed.

Lemma zlen_output_cv o : zlen (output_chaining_value o) = BLAKE3_OUT_LEN.
Proof.
  unfold output_chaining_value. rewrite zlen_store_cv_words.
  unfold blake3_compress_in_place, blake3_compress_in_place_portable, zlen.
  by rewrite length_map, length_seq.
Qed.

#[local] Opaque blake3_compress_in_place blake3_compress_in_place_portable.

Lemma zlen_tree_cv key fl m : zlen (tree_cv key fl m) = BLAKE3_OUT_LEN.
Proof. apply zlen_output_cv. Qed.

(** ** Unfolding the reference *)

Lemma length_zlen {A} (l : list A) : length l = Z.to_nat (zlen l).
Proof. unfold zlen. lia. Qed.

Lemma tree_node_chunk fuel key fl m :
  zlen m <= BLAKE3_CHUNK_LEN -> tree_node fuel key fl m = chunk_root key fl m.
Proof.
  intros Hm. destruct fuel as [|fuel]; cbn [tree_node]; [done|].
  by rewrite (proj2 (Z.leb_le _ _) Hm).
Qed.

Lemma tree_node_fuel fuel key fl m :
  (length m <= fuel)%nat ->
  tree_node fuel key fl m = tree_node (length m) key fl m.
Proof.
  remember (length m) as n eqn:E. revert fuel m E.
  induction n as [n IH] using lt_wf_ind. intros fuel m -> Hf.
  destruct (Z.leb_spec (zlen m) BLAKE3_CHUNK_LEN) as [Hm|Hm];
    [by rewrite !tree_node_chunk|].
  pose proof (left_size_spec (zlen m) ltac:(lia)) as [Hl _].
  assert (length (ztake (left_size (zlen m)) m) < length m)%nat as H1
    by (rewrite length_zlen, zlen_ztake_le; unfold zlen in *; b3_lia).
  assert (length (zdrop (left_size (zlen m)) m) < length m)%nat as H2
    by (rewrite length_zlen, zlen_zdrop; unfold zlen in *; b3_lia).
  destruct (length m) as [|n] eqn:En; [lia|].
  destruct fuel as [|fuel]; [lia|]. cbn [tree_node].
  rewrite (proj2 (Z.leb_gt _ _) Hm). cbv zeta.
  pose proof (IH _ H1) as IH1. pose proof (IH _ H2) as IH2.
  by rewrite (IH1 fuel _ eq_refl), (IH1 n _ eq_refl), (IH2 fuel _ eq_refl),
    (IH2 n _ eq_refl) by lia.
Qed.

(** A message of at most one chunk. *)
Lemma blake3_tree_chunk key fl m :
  zlen m <= BLAKE3_CHUNK_LEN -> blake3_tree key fl m = chunk_root key fl m.
Proof. intros Hm. by apply tree_node_chunk. Qed.

(** A longer one: a parent node over its two sides. *)
Lemma blake3_tree_parent key fl m :
  BLAKE3_CHUNK_LEN < zlen m ->
  let k := left_size (zlen m) in
  blake3_tree key fl m =
  parent_output (tree_cv key fl (ztake k m) ++ tree_cv key fl (zdrop k m))
    key fl.
Proof.
  intros Hm k. unfold tree_cv, blake3_tree at 1.
  pose proof (left_size_spec (zlen m) Hm) as [Hl _]. fold k in Hl.
  destruct (length m) as [|n] eqn:En; [unfold zlen in Hm; b3_lia|].
  cbn [tree_node]. rewrite (proj2 (Z.leb_gt _ _) Hm). fold k. cbv zeta.
  unfold blake3_tree. rewrite !(tree_node_fuel n); [done|..].
  - rewrite length_zlen, zlen_zdrop by b3_lia. unfold zlen in *. b3_lia.
  - rewrite length_zlen, zlen_ztake_le by b3_lia. unfold zlen in *. b3_lia.
Qed.

(** ** [compress_chunks_parallel] on one chunk *)

Lemma chunk_state_cv key fl m :
  zlen m <= BLAKE3_CHUNK_LEN ->
  output_chaining_value
    (chunk_state_output (chunk_state_update (chunk_state_init key fl) m)) =
  tree_cv key fl m.
Proof.
  intros Hm. unfold tree_cv. rewrite blake3_tree_chunk by done.
  pose proof (chunk_update_repr key fl (chunk_state_init key fl) [] m
    (chunk_repr_init _ _)) as [Hr _]; [by rewrite zlen_nil|].
  apply chunk_repr_output in Hr. by rewrite Hr.
Qed.

Lemma split_chunks_one m :
  0 < zlen m <= BLAKE3_CHUNK_LEN ->
  split_chunks (length m) m =
  if zlen m =? BLAKE3_CHUNK_LEN then ([m], []) else ([], m).
Proof.
  intros Hm. rewrite length_zlen.
  destruct (Z.to_nat (zlen m)) as [|n] eqn:En; [lia|].
  cbn [split_chunks].
  destruct (Z.eqb_spec (zlen m) BLAKE3_CHUNK_LEN) as [E|E].
  - destruct (Z.leb_spec BLAKE3_CHUNK_LEN (zlen m)); [|lia].
    rewrite (zdrop_ge BLAKE3_CHUNK_LEN), ztake_ge by lia.
    by destruct n.
  - by destruct (Z.leb_spec BLAKE3_CHUNK_LEN (zlen m)); [lia|].
Qed.

Lemma compress_chunks_one m key ctr fl :
  0 < zlen m <= BLAKE3_CHUNK_LEN ->
  compress_chunks_parallel m key ctr fl = (tree_cv key fl m, 1).
Proof.
  intros Hm. unfold compress_chunks_parallel. rewrite split_chunks_one by done.
  destruct (Z.eqb_spec (zlen m) BLAKE3_CHUNK_LEN) as [E|E].
  - change (0 <? zlen (@nil Z)) with false. cbv beta iota zeta.
    change (Z.to_nat (BLAKE3_CHUNK_LEN / BLAKE3_BLOCK_LEN)) with 16%nat.
    unfold blake3_hash_many, blake3_hash_many_portable.
    cbn [mbind list_bind]. rewrite app_nil_r, hash_one_chunk by done.
    unfold tree_cv. by rewrite blake3_tree_chunk by lia.
  - destruct (Z.ltb_spec 0 (zlen m)); [|lia].
    cbn [blake3_hash_many blake3_hash_many_portable mbind list_bind].
    by rewrite chunk_state_cv by lia.
Qed.

(** ** Parents *)

Lemma hash_one_parent p key fl :
  zlen p = BLAKE3_BLOCK_LEN ->
  hash_one_portable p 1 key 0 (Z.lor fl PARENT) 0 0 =
  output_chaining_value (parent_output p key fl).
Proof.
  intros Hp. unfold hash_one_portable, output_chaining_value.
  cbn [hash_one_blocks Nat.eqb parent_output make_output o_input_cv o_block
    o_block_len o_flags]. rewrite !Z.lor_0_r.
  change (take 64 p) with (ztake BLAKE3_BLOCK_LEN p).
  by rewrite ztake_ge by lia.
Qed.

Lemma split_parents_cons fuel num (a b : list Z) :
  2 <= num -> zlen a = BLAKE3_BLOCK_LEN ->
  split_parents (S fuel) num (a ++ b) =
  let '(ps, rest, leftover) := split_parents fuel (num - 2) b in
  (a :: ps, rest, leftover).
Proof.
  intros Hn Ha. cbn [split_parents]. rewrite (proj2 (Z.leb_le _ _) Hn).
  by rewrite ztake_app_eq, zdrop_app_eq by b3_lia.
Qed.

Lemma split_parents_stop fuel num (cvs : list Z) :
  num < 2 -> split_parents fuel num cvs = ([], cvs, num).
Proof.
  intros Hn. destruct fuel; [done|]. cbn [split_parents].
  by rewrite (proj2 (Z.leb_gt _ _) Hn).
Qed.

Lemma compress_parents_3 l r junk key fl :
  zlen l = BLAKE3_BLOCK_LEN -> zlen r = BLAKE3_OUT_LEN ->
  compress_parents_parallel (l ++ r ++ junk) 3 key fl =
  (output_chaining_value (parent_output l key fl) ++ r, 2).
Proof.
  intros Hl Hr. unfold compress_parents_parallel.
  change (Z.to_nat 3) with 3%nat. rewrite split_parents_cons by done.
  rewrite split_parents_stop by done. cbv beta iota zeta.
  change (0 <? 3 - 2) with true. cbv iota. rewrite ztake_app_eq by done.
  unfold blake3_hash_many, blake3_hash_many_portable. cbn [mbind list_bind].
  by rewrite app_nil_r, hash_one_parent.
Qed.

Lemma compress_parents_4 l r junk key fl :
  zlen l = BLAKE3_BLOCK_LEN -> zlen r = BLAKE3_BLOCK_LEN ->
  compress_parents_parallel (l ++ r ++ junk) 4 key fl =
  (output_chaining_value (parent_output l key fl)
   ++ output_chaining_value (parent_output r key fl), 2).
Proof.
  intros Hl Hr. unfold compress_parents_parallel.
  change (Z.to_nat 4) with 4%nat. rewrite !split_parents_cons by done.
  rewrite split_parents_stop by done. cbv beta iota zeta.
  change (0 <? 4 - 2 - 2) with false. cbv iota.
  unfold blake3_hash_many, blake3_hash_many_portable. cbn [mbind list_bind].
  by rewrite app_nil_r, !hash_one_parent.
Qed.

(** ** [blake3_compress_subtree_wide] *)

(** The chaining values the subtree compression returns. *)
Definition subtree_cvs (key : list Z) (fl : Z) (m : list Z) : list Z * Z :=
  if zlen m <=? BLAKE3_CHUNK_LEN then (tree_cv key fl m, 1)
  else
    let k := left_size (zlen m) in
    (tree_cv key fl (ztake k m) ++ tree_cv key fl (zdrop k m), 2).

Lemma zlen_subtree_cvs key fl m :
  zlen (fst (subtree_cvs key fl m)) =
  BLAKE3_OUT_LEN * snd (subtree_cvs key fl m) /\
  1 <= snd (subtree_cvs key fl m) <= 2.
Proof.
  unfold subtree_cvs.
  case_match; cbn [fst snd]; rewrite ?zlen_app, !zlen_tree_cv; b3_lia.
Qed.

Lemma subtree_cvs_1 key fl m :
  snd (subtree_cvs key fl m) = 1 ->
  zlen m <= BLAKE3_CHUNK_LEN /\ fst (subtree_cvs key fl m) = tree_cv key fl m.
Proof.
  unfold subtree_cvs. case_match eqn:E; cbn [fst snd]; [|lia].
  split; [lia|done].
Qed.

Lemma subtree_cvs_2 key fl m :
  snd (subtree_cvs key fl m) <> 1 ->
  BLAKE3_CHUNK_LEN < zlen m /\ snd (subtree_cvs key fl m) = 2 /\
  output_chaining_value (parent_output (fst (subtree_cvs key fl m)) key fl)
  = tree_cv key fl m.
Proof.
  unfold subtree_cvs. case_match eqn:E; cbn [fst snd]; [done|].
  intros _.
  split; [lia|]. split; [done|]. unfold tree_cv at 3.
  by rewrite blake3_tree_parent by lia.
Qed.

(** Writing the two sides next to each other and reading them back. *)
Lemma wide_buffers (l r : list Z) (n : Z) :
  zlen l + zlen r <= n ->
  exists a1,
    write_at 0 l (zeros n) = Some a1 /\
    write_at (zlen l) r a1 = Some (l ++ r ++ zeros (n - zlen l - zlen r)).
Proof.
  intros Hn. pose proof (zlen_nonneg l). pose proof (zlen_nonneg r).
  exists (l ++ zeros (zlen r) ++ zeros (n - zlen l - zlen r)). split.
  - replace (zeros n) with
      ([] ++ zeros (zlen l) ++ zeros (zlen r) ++ zeros (n - zlen l - zlen r)).
    + rewrite write_at_app; [done|done|by rewrite zlen_zeros].
    + rewrite <- !zeros_split by lia. simpl. f_equal. lia.
  - rewrite write_at_app; [done|done|by rewrite zlen_zeros].
Qed.

(** One level of the recursion, given the results for the two sides. *)
Lemma wide_step fuel m key ctr fl :
  BLAKE3_CHUNK_LEN < zlen m < 2 ^ 64 ->
  let k := left_size (zlen m) in
  blake3_compress_subtree_wide fuel (ztake k m) key 0 fl =
    Some (subtree_cvs key fl (ztake k m)) ->
  blake3_compress_subtree_wide fuel (zdrop k m) key 0 fl =
    Some (subtree_cvs key fl (zdrop k m)) ->
  blake3_compress_subtree_wide (S fuel) m key ctr fl =
    Some (subtree_cvs key fl m).
Proof.
  intros Hm k HL HR. pose proof (left_size_spec (zlen m)) as [Hk Hk2]; [lia|].
  fold k in Hk, Hk2.
  cbn [blake3_compress_subtree_wide]. unfold blake3_simd_degree.
  destruct (Z.leb_spec (zlen m) (1 * BLAKE3_CHUNK_LEN)); [lia|].
  rewrite left_len_size by lia. fold k. rewrite HL. cbn [mbind option_bind].
  destruct (zlen_subtree_cvs key fl (ztake k m)) as [El Hl].
  destruct (zlen_subtree_cvs key fl (zdrop k m)) as [Er Hr].
  assert (subtree_cvs key fl m =
    (tree_cv key fl (ztake k m) ++ tree_cv key fl (zdrop k m), 2)) as ->.
  { unfold subtree_cvs. destruct (Z.leb_spec (zlen m) BLAKE3_CHUNK_LEN); [lia|].
    done. }
  pose proof (subtree_cvs_1 key fl (ztake k m)) as L1.
  pose proof (subtree_cvs_2 key fl (ztake k m)) as L2.
  pose proof (subtree_cvs_1 key fl (zdrop k m)) as R1.
  pose proof (subtree_cvs_2 key fl (zdrop k m)) as R2.
  destruct (subtree_cvs key fl (ztake k m)) as [l nl].
  destruct (subtree_cvs key fl (zdrop k m)) as [r nr]. cbn [fst snd] in *.
  destruct (wide_buffers l r (2 * MAX_SIMD_DEGREE_OR_2 * BLAKE3_OUT_LEN))
    as (a1 & W1 & W2).
  { unfold MAX_SIMD_DEGREE_OR_2, MAX_SIMD_DEGREE. b3_lia. }
  rewrite W1. cbn [mbind option_bind]. rewrite HR. cbn [mbind option_bind].
  rewrite zlen_ztake_le in L1, L2 by b3_lia.
  rewrite zlen_zdrop in R1, R2 by b3_lia.
  destruct (Z.eqb_spec nl 1) as [->|Hnl].
  - destruct (L1 eq_refl) as [Hk1 ->].
    destruct (Z.eq_dec nr 1) as [->|Hnr]; [|destruct (R2 Hnr); lia].
    destruct (R1 eq_refl) as [_ ->].
    replace (BLAKE3_CHUNK_LEN <? k) with false by lia. cbn [andb].
    rewrite El, Z.mul_comm in W2. rewrite W2. cbn [mbind option_bind].
    rewrite app_assoc, <- (app_nil_l ((_ ++ _) ++ _)), read_at_app;
      [done|done|]. rewrite zlen_app, !zlen_tree_cv. b3_lia.
  - destruct (L2 Hnl) as (Hk1 & -> & E2).
    replace (BLAKE3_CHUNK_LEN <? k) with true by lia. cbn [andb Z.eqb Pos.eqb].
    rewrite El, Z.mul_comm in W2. rewrite W2. cbn [mbind option_bind].
    destruct (Z.eq_dec nr 1) as [->|Hnr].
    + destruct (R1 eq_refl) as [_ ->]. change (2 + 1) with 3.
      rewrite compress_parents_3; [by rewrite E2|b3_lia|b3_lia].
    + destruct (R2 Hnr) as (_ & -> & E3). change (2 + 2) with 4.
      rewrite compress_parents_4; [by rewrite E2, E3|b3_lia|b3_lia].
Qed.

Lemma subtree_wide_spec fuel m key ctr fl :
  0 < zlen m < 2 ^ 64 -> zlen m <= Z.of_nat fuel ->
  blake3_compress_subtree_wide fuel m key ctr fl =
    Some (subtree_cvs key fl m).
Proof.
  revert m ctr. induction fuel as [|fuel IH]; intros m ctr Hm Hf; [lia|].
  destruct (Z.leb_spec (zlen m) BLAKE3_CHUNK_LEN) as [Hle|Hgt].
  - cbn [blake3_compress_subtree_wide]. unfold blake3_simd_degree, subtree_cvs.
    destruct (Z.leb_spec (zlen m) (1 * BLAKE3_CHUNK_LEN)); [|lia].
    destruct (Z.leb_spec (zlen m) BLAKE3_CHUNK_LEN); [|lia].
    by rewrite compress_chunks_one by lia.
  - pose proof (left_size_spec (zlen m) Hgt) as [Hk _].
    apply wide_step; [lia|..]; apply IH;
      rewrite ?zlen_ztake_le, ?zlen_zdrop by b3_lia; b3_lia.
Qed.

Lemma parent_node_spec m key ctr fl :
  BLAKE3_CHUNK_LEN < zlen m < 2 ^ 64 ->
  let k := left_size (zlen m) in
  compress_subtree_to_parent_node m key ctr fl =
  Some (tree_cv key fl (ztake k m) ++ tree_cv key fl (zdrop k m)).
Proof.
  intros Hm k. unfold compress_subtree_to_parent_node.
  rewrite subtree_wide_spec by (unfold zlen in *; b3_lia).
  unfold subtree_cvs. destruct (Z.leb_spec (zlen m) BLAKE3_CHUNK_LEN); [lia|].
  cbn [mbind option_bind]. fold k.
  set (cvs := tree_cv _ _ _ ++ _).
  assert (zlen cvs = 2 * BLAKE3_OUT_LEN) as E
    by (subst cvs; rewrite zlen_app, !zlen_tree_cv; b3_lia).
  destruct (wide_buffers cvs [] (MAX_SIMD_DEGREE_OR_2 * BLAKE3_OUT_LEN))
    as (a & W1 & W2).
  { rewrite E. unfold MAX_SIMD_DEGREE_OR_2, MAX_SIMD_DEGREE, zlen. b3_unfold. done. }
  rewrite W1. cbn [mbind option_bind condense_loop]. simpl (2 <? 2). cbv iota.
  change (Z.to_nat 2) with 2%nat. cbn [condense_loop]. simpl (2 <? 2).
  cbv iota. cbn [mbind option_bind].
  unfold write_at in W1. case_match; [|done]. injection W1 as <-.
  unfold splice. rewrite ztake_0.
  rewrite <- E. apply read_at_app; done.
Qed.
