(* ===== verification/Blake3Stack.v ===== *)
(** * The stack of chaining values of the hasher

    The stack holds the chaining values of complete subtrees, the newest on
    top.  A stack is described by the list of the segments of the message it
    covers, top first, each with the exponent [e] of its size in chunks. *)

From S2P Require Import Prelude Arrays Blake3Compress Blake3 Blake3Chunk Blake3Tree.
Open Scope Z_scope.

#[local] Opaque blake3_compress_in_place chunk_root.

(** ** Counting bits *)

Lemma popcnt_nonneg x : 0 <= popcnt x.
Proof.
  destruct x as [|p|p]; simpl; [lia| |lia]. induction p; simpl; lia.
Qed.

Lemma popcnt_double x : popcnt (2 * x) = popcnt x.
Proof. by destruct x. Qed.

Lemma popcnt_succ_double x : 0 <= x -> popcnt (2 * x + 1) = 1 + popcnt x.
Proof. by destruct x. Qed.

Lemma popcnt_split x b :
  0 <= x -> 0 <= b < 2 -> popcnt (2 * x + b) = b + popcnt x.
Proof.
  intros Hx Hb. assert (b = 0 \/ b = 1) as [-> | ->] by lia.
  - by rewrite Z.add_0_r, popcnt_double.
  - by rewrite popcnt_succ_double.
Qed.

Lemma halve x : 0 <= x -> exists y b, x = 2 * y + b /\ 0 <= y /\ 0 <= b < 2.
Proof.
  intros Hx. exists (x / 2), (x mod 2).
  pose proof (Z.div_mod x 2 ltac:(lia)). pose proof (Z.mod_pos_bound x 2 ltac:(lia)).
  lia.
Qed.

Lemma pow2_S n : 2 ^ Z.of_nat (S n) = 2 * 2 ^ Z.of_nat n.
Proof. rewrite Nat2Z.inj_succ, Z.pow_succ_r; lia. Qed.

Lemma pow2_pos n : 0 < 2 ^ Z.of_nat n.
Proof. apply Z.pow_pos_nonneg; lia. Qed.

(** Adding a power of two adds at most one bit. *)
Lemma popcnt_add_pow2 n x :
  0 <= x -> popcnt (2 ^ Z.of_nat n + x) <= 1 + popcnt x.
Proof.
  revert x. induction n as [|n IH].
  - change (2 ^ Z.of_nat 0) with 1. intros x Hx.
    revert Hx. induction x as [x IH] using (well_founded_induction (Z.lt_wf 0)).
    intros Hx. destruct (halve x Hx) as (y & b & -> & Hy & Hb).
    assert (b = 0 \/ b = 1) as [-> | ->] by lia.
    + replace (1 + (2 * y + 0)) with (2 * y + 1) by lia.
      rewrite !popcnt_split by lia. lia.
    + replace (1 + (2 * y + 1)) with (2 * (1 + y) + 0) by lia.
      rewrite !popcnt_split by lia. specialize (IH y ltac:(lia) Hy). lia.
  - intros x Hx. rewrite pow2_S.
    destruct (halve x Hx) as (y & b & -> & Hy & Hb).
    replace (2 * 2 ^ Z.of_nat n + (2 * y + b))
      with (2 * (2 ^ Z.of_nat n + y) + b) by lia.
    pose proof (pow2_pos n). rewrite !popcnt_split by lia.
    specialize (IH y Hy). lia.
Qed.

(** Below a multiple of a larger power it adds exactly one. *)
Lemma popcnt_low_bit n y :
  0 <= y -> popcnt (2 ^ Z.of_nat n + 2 ^ Z.of_nat (S n) * y) = 1 + popcnt y.
Proof.
  intros Hy. induction n as [|n IH].
  - change (2 ^ Z.of_nat 0) with 1. change (2 ^ Z.of_nat 1) with 2.
    rewrite Z.add_comm. by apply popcnt_split.
  - rewrite (pow2_S (S n)), (pow2_S n).
    replace (2 * 2 ^ Z.of_nat n + 2 * (2 * 2 ^ Z.of_nat n) * y)
      with (2 * (2 ^ Z.of_nat n + 2 * 2 ^ Z.of_nat n * y)) by lia.
    by rewrite popcnt_double, <- pow2_S.
Qed.

Lemma popcnt_shift n y : popcnt (2 ^ Z.of_nat n * y) = popcnt y.
Proof.
  induction n as [|n IH]; [by rewrite Z.mul_1_l|].
  by rewrite pow2_S, <- Z.mul_assoc, popcnt_double.
Qed.

Lemma popcnt_bound n x : 0 <= x < 2 ^ Z.of_nat n -> popcnt x <= Z.of_nat n.
Proof.
  revert x. induction n as [|n IH]; intros x Hx.
  - change (2 ^ Z.of_nat 0) with 1 in Hx. by assert (x = 0) as -> by lia.
  - rewrite pow2_S in Hx. destruct (halve x) as (y & b & -> & Hy & Hb); [lia|].
    rewrite popcnt_split by lia. specialize (IH y ltac:(lia)). lia.
Qed.

(** ** Segments *)

Definition segment : Type := nat * list Z.
Implicit Types (segs : list segment).

Definition seg_ok (p : segment) : Prop :=
  zlen p.2 = BLAKE3_CHUNK_LEN * 2 ^ Z.of_nat p.1.

Fixpoint stack_msg segs : list Z :=
  match segs with [] => [] | (_, s) :: segs => stack_msg segs ++ s end.

Fixpoint stack_cvs (key : list Z) (fl : Z) segs : list Z :=
  match segs with
  | [] => []
  | (_, s) :: segs => stack_cvs key fl segs ++ tree_cv key fl s
  end.

(** The number of chunks the stack covers. *)
Fixpoint chunks segs : Z :=
  match segs with [] => 0 | (e, _) :: segs => 2 ^ Z.of_nat e + chunks segs end.

(** Exponents strictly increase from [e] downwards. *)
Fixpoint above (e : nat) segs : Prop :=
  match segs with [] => True | (e', _) :: segs => (e < e')%nat /\ above e' segs end.

(** Every subtree that can be merged is. *)
Definition strict segs : Prop :=
  match segs with [] => True | (e, _) :: segs => above e segs end.

(** All but possibly the topmost one are merged. *)
Definition lazy segs : Prop :=
  match segs with
  | (e, _) :: (e', _) :: segs => (e <= e')%nat /\ above e' segs
  | _ => True
  end.

Lemma strict_lazy segs : strict segs -> lazy segs.
Proof.
  destruct segs as [|[e ?] [|[e' ?] ?]]; simpl; [done..|].
  intros [? ?]. split; [lia|done].
Qed.

Lemma above_divide e segs : above e segs -> (2 ^ Z.of_nat (S e) | chunks segs).
Proof.
  revert e. induction segs as [|[e' s] segs IH]; intros e; simpl.
  - intros _. apply Z.divide_0_r.
  - intros [He Ha]. apply Z.divide_add_r.
    + exists (2 ^ Z.of_nat (e' - S e)).
      rewrite <- Z.pow_add_r by lia. f_equal. lia.
    + apply IH in Ha. etrans; [|exact Ha]. exists (2 ^ Z.of_nat (e' - e)).
      rewrite <- Z.pow_add_r by lia. f_equal. lia.
Qed.

Lemma chunks_nonneg segs : 0 <= chunks segs.
Proof.
  induction segs as [|[e s] segs IH]; simpl; [lia|].
  pose proof (pow2_pos e). lia.
Qed.

Lemma popcnt_le_length segs : popcnt (chunks segs) <= zlen segs.
Proof.
  induction segs as [|[e s] segs IH]; [done|]. rewrite zlen_cons. simpl.
  pose proof (popcnt_add_pow2 e (chunks segs) (chunks_nonneg _)). lia.
Qed.

Lemma above_strict e segs : above e segs -> strict segs.
Proof. destruct segs as [|[e' ?] ?]; simpl; [done|]. by intros []. Qed.

(** A merged stack has one entry per bit of the number of chunks. *)
Lemma strict_popcnt segs : strict segs -> popcnt (chunks segs) = zlen segs.
Proof.
  induction segs as [|[e s] segs IH]; [done|]. cbn [strict]. intros Ha.
  rewrite zlen_cons. cbn [chunks].
  destruct (above_divide e segs Ha) as [y Hy].
  pose proof (chunks_nonneg segs). pose proof (pow2_pos (S e)).
  assert (0 <= y) by nia.
  rewrite Hy, Z.mul_comm, popcnt_low_bit by done.
  rewrite <- IH by (by eapply above_strict).
  by rewrite Hy, Z.mul_comm, popcnt_shift.
Qed.

Lemma strict_short segs :
  strict segs -> chunks segs < 2 ^ 54 -> zlen segs <= 54.
Proof.
  intros Hs Hc. rewrite <- strict_popcnt by done.
  apply (popcnt_bound 54). pose proof (chunks_nonneg segs). lia.
Qed.

(** A new subtree whose size divides the number of chunks goes on top. *)
Lemma push_lazy e s segs :
  strict segs -> (2 ^ Z.of_nat e | chunks segs) -> lazy ((e, s) :: segs).
Proof.
  destruct segs as [|[e' s'] segs]; [done|]. cbn [strict lazy chunks].
  intros Ha Hd. split; [|done].
  destruct (decide (e <= e')%nat) as [|Hgt]; [done|exfalso].
  assert ((2 ^ Z.of_nat (S e') | 2 ^ Z.of_nat e')) as Hbad.
  { apply (Z.divide_add_cancel_r _ (chunks segs)); [by apply above_divide|].
    rewrite Z.add_comm. etrans; [|exact Hd].
    exists (2 ^ Z.of_nat (e - S e')). rewrite <- Z.pow_add_r by lia.
    f_equal. lia. }
  apply Z.divide_pos_le in Hbad; [|apply pow2_pos].
  rewrite pow2_S in Hbad. pose proof (pow2_pos e'). lia.
Qed.

Lemma zlen_stack_msg segs :
  Forall seg_ok segs -> zlen (stack_msg segs) = BLAKE3_CHUNK_LEN * chunks segs.
Proof.
  induction 1 as [|[e s] segs Hs _ IH]; [done|]. cbn [stack_msg chunks].
  unfold seg_ok in Hs; simpl in Hs. rewrite zlen_app. lia.
Qed.

Lemma zlen_stack_cvs key fl segs :
  zlen (stack_cvs key fl segs) = BLAKE3_OUT_LEN * zlen segs.
Proof.
  induction segs as [|[e s] segs IH]; [done|]. cbn [stack_cvs].
  rewrite zlen_app, zlen_cons, zlen_tree_cv. lia.
Qed.

(** ** Joining two segments *)

(** A complete subtree followed by a nonempty message that is not longer. *)
Lemma tree_join key fl e s a :
  seg_ok (e, s) -> 0 < zlen a <= zlen s ->
  blake3_tree key fl (s ++ a) =
  parent_output (tree_cv key fl s ++ tree_cv key fl a) key fl.
Proof.
  unfold seg_ok. cbn [fst snd]. intros Hs Ha.
  pose proof (pow2_pos e) as Hp. b3_unfold.
  rewrite blake3_tree_parent by b3_lia.
  assert (left_size (zlen (s ++ a)) = zlen s) as ->.
  { unfold left_size. b3_unfold. rewrite zlen_app.
    set (q := (zlen s + zlen a - 1) / 1024).
    assert (2 ^ Z.of_nat e <= q < 2 ^ Z.succ (Z.of_nat e)) as Hq.
    { rewrite Z.pow_succ_r by lia. subst q. split.
      - apply Z.div_le_lower_bound; lia.
      - apply Z.div_lt_upper_bound; lia. }
    rewrite (Z.log2_unique q (Z.of_nat e)) by lia. lia. }
  by rewrite ztake_app_eq, zdrop_app_eq.
Qed.

Lemma tree_merge key fl e s0 s1 :
  seg_ok (e, s0) -> seg_ok (e, s1) ->
  seg_ok (S e, s0 ++ s1) /\
  output_chaining_value
    (parent_output (tree_cv key fl s0 ++ tree_cv key fl s1) key fl) =
  tree_cv key fl (s0 ++ s1).
Proof.
  intros H0 H1. split.
  - unfold seg_ok in *. cbn [fst snd] in *. rewrite pow2_S, zlen_app. lia.
  - unfold tree_cv at 3. rewrite (tree_join key fl e); [done|done|].
    unfold seg_ok in *. cbn [fst snd] in *. pose proof (pow2_pos e). b3_lia.
Qed.

Lemma zlen_tree_cv2 key fl s0 s1 :
  zlen (tree_cv key fl s0 ++ tree_cv key fl s1) = BLAKE3_BLOCK_LEN.
Proof. rewrite zlen_app, !zlen_tree_cv. reflexivity. Qed.

Lemma zlen_tree_cv_eq key fl s0 s1 :
  zlen (tree_cv key fl s0) = zlen (tree_cv key fl s1).
Proof. etransitivity; [|symmetry]; apply zlen_tree_cv. Qed.

#[local] Opaque tree_cv.

(** ** The stack in memory *)

Record stack_at (self : blake3_hasher) (fl : Z) segs : Prop := StackAt {
  st_flags : flags (chunk self) = fl;
  st_len : cv_stack_len self = zlen segs;
  st_size : zlen (cv_stack self) = cv_stack_size;
  st_cvs : exists g, cv_stack self = stack_cvs (key self) fl segs ++ g;
  st_segs : Forall seg_ok segs;
}.

Lemma stack_at_short self fl segs :
  stack_at self fl segs -> zlen segs <= BLAKE3_MAX_DEPTH + 1.
Proof.
  intros [_ _ Hsz [g Hg] _]. rewrite Hg, zlen_app, zlen_stack_cvs in Hsz.
  unfold cv_stack_size in Hsz. pose proof (zlen_nonneg g). b3_lia.
Qed.

(** One merge of the two topmost entries. *)
Lemma merge_step fuel self fl e s0 s1 segs post :
  stack_at self fl ((e, s1) :: (e, s0) :: segs) -> post < 2 + zlen segs ->
  exists self',
    merge_cv_stack_loop (S fuel) self post =
    merge_cv_stack_loop fuel self' post /\
    stack_at self' fl ((S e, s0 ++ s1) :: segs) /\
    key self' = key self /\ chunk self' = chunk self.
Proof.
  intros Hst Hpost. pose proof (stack_at_short _ _ _ Hst) as Hshort.
  destruct Hst as [Hfl Hlen Hsz [g0 Hg] Hok].
  inversion Hok as [|? ? H1 Hok']; subst. inversion Hok' as [|? ? H0 Hok'']; subst.
  destruct (tree_merge (key self) (flags (chunk self)) e s0 s1 H0 H1) as [H01 Ecv].
  cbn [merge_cv_stack_loop]. rewrite Hlen, !zlen_cons in *.
  pose proof (zlen_nonneg segs).
  destruct (Z.ltb_spec post (1 + (1 + zlen segs))) as [_|?]; [|lia].
  replace (1 + (1 + zlen segs) - 2) with (zlen segs) by lia.
  cbn [stack_cvs] in Hg. rewrite Hg, <- !app_assoc.
  assert (zlen segs * BLAKE3_OUT_LEN =
    zlen (stack_cvs (key self) (flags (chunk self)) segs)) as Eo
    by (rewrite zlen_stack_cvs; lia).
  rewrite (app_assoc (tree_cv _ _ s0)).
  rewrite read_at_app; [|done|by rewrite zlen_tree_cv2].
  cbn [mbind option_bind]. rewrite Ecv, <- (app_assoc (tree_cv _ _ s0)).
  rewrite write_at_app; [|done|apply zlen_tree_cv_eq].
  cbn [mbind option_bind]. eexists; split; [reflexivity|].
  split; [|split; reflexivity].
  unfold BLAKE3_MAX_DEPTH in Hshort.
  constructor; cbn [chunk key cv_stack_len cv_stack].
  - done.
  - rewrite zlen_cons. unfold u8. rewrite Z.mod_small; lia.
  - rewrite <- Hsz, Hg, !zlen_app, !zlen_tree_cv. lia.
  - eexists. cbn [stack_cvs]. by rewrite <- app_assoc.
  - by constructor.
Qed.

Lemma lazy_cases segs :
  lazy segs ->
  strict segs \/
  exists e s1 s0 rest,
    segs = (e, s1) :: (e, s0) :: rest /\ lazy ((S e, s0 ++ s1) :: rest).
Proof.
  destruct segs as [|[e s1] [|[e' s0] rest]]; [by left..|].
  intros [Hle Hs].
  destruct (decide (e = e')) as [->|Hne]; [right|left; cbn; split; [lia|done]].
  exists e', s1, s0, rest. split; [done|].
  destruct rest as [|[e'' ?] ?]; [done|]. cbn in *. split; [lia|tauto].
Qed.

(** The merge loop leaves the merged stack. *)
Lemma merge_loop_spec fuel self fl segs :
  stack_at self fl segs -> lazy segs -> (length segs <= fuel)%nat ->
  exists self' segs',
    merge_cv_stack_loop fuel self (popcnt (chunks segs)) = Some self' /\
    stack_at self' fl segs' /\ strict segs' /\
    chunks segs' = chunks segs /\ stack_msg segs' = stack_msg segs /\
    key self' = key self /\ chunk self' = chunk self.
Proof.
  revert self segs. induction fuel as [|fuel IH]; intros self segs Hst Hlz Hf;
    (destruct (lazy_cases segs Hlz) as [Hs|(e & s1 & s0 & rest & -> & Hlz')];
     [exists self, segs; rewrite strict_popcnt by done;
      cbn [merge_cv_stack_loop]; rewrite (st_len _ _ _ Hst), Z.ltb_irrefl; done|]).
  - simpl in Hf. lia.
  - assert (chunks ((S e, s0 ++ s1) :: rest) =
            chunks ((e, s1) :: (e, s0) :: rest)) as Ec.
    { cbn [chunks]. rewrite pow2_S. lia. }
    pose proof (popcnt_le_length ((S e, s0 ++ s1) :: rest)) as Hp.
    rewrite Ec, zlen_cons in Hp.
    destruct (merge_step fuel self fl e s0 s1 rest
      (popcnt (chunks ((e, s1) :: (e, s0) :: rest))) Hst)
      as (self1 & -> & Hst1 & Hk & Hc); [lia|].
    destruct (IH self1 _ Hst1 Hlz') as (self2 & segs2 & E & ? & ? & Hc2 & Hm2 & ? & ?);
      [simpl in *; lia|].
    exists self2, segs2. rewrite <- Ec. split; [done|].
    split; [done|]. split; [done|]. split; [congruence|].
    split; [|split; congruence]. rewrite Hm2. cbn [stack_msg].
    by rewrite app_assoc.
Qed.

Lemma merge_cv_stack_spec self fl segs :
  stack_at self fl segs -> lazy segs ->
  exists self' segs',
    hasher_merge_cv_stack self (chunks segs) = Some self' /\
    stack_at self' fl segs' /\ strict segs' /\
    chunks segs' = chunks segs /\ stack_msg segs' = stack_msg segs /\
    key self' = key self /\ chunk self' = chunk self.
Proof.
  intros Hst Hlz. unfold hasher_merge_cv_stack.
  apply merge_loop_spec; [done|done|].
  rewrite (st_len _ _ _ Hst). unfold zlen. lia.
Qed.

(** [hasher_push_cv] merges, then puts the new subtree on top. *)
Lemma push_cv_spec self fl segs e s :
  stack_at self fl segs -> lazy segs -> chunks segs < 2 ^ 54 ->
  seg_ok (e, s) -> (2 ^ Z.of_nat e | chunks segs) ->
  exists self' segs',
    hasher_push_cv self (tree_cv (key self) fl s) (chunks segs) = Some self' /\
    stack_at self' fl ((e, s) :: segs') /\ strict segs' /\
    lazy ((e, s) :: segs') /\
    chunks segs' = chunks segs /\ stack_msg segs' = stack_msg segs /\
    key self' = key self /\ chunk self' = chunk self.
Proof.
  intros Hst Hlz Hlt Hok Hd. unfold hasher_push_cv.
  destruct (merge_cv_stack_spec self fl segs Hst Hlz)
    as (self1 & segs1 & -> & Hst1 & Hs1 & Hc1 & Hm1 & Hk1 & Hch1).
  cbn [mbind option_bind]. rewrite <- Hc1 in Hlt, Hd.
  pose proof (strict_short segs1 Hs1 Hlt) as Hshort.
  destruct Hst1 as [Hfl Hlen Hsz [g0 Hg] Hoks].
  pose proof (zlen_stack_cvs (key self1) fl segs1) as Ez.
  pose proof Hsz as Hsz'. rewrite Hg, zlen_app in Hsz'.
  unfold cv_stack_size, BLAKE3_MAX_DEPTH in Hsz'.
  destruct (split_at BLAKE3_OUT_LEN g0) as (g1 & g2 & -> & Hg1).
  { b3_unfold. pose proof (zlen_nonneg g0). lia. }
  rewrite Hg, write_at_app;
    [|rewrite Hlen; lia|by rewrite zlen_tree_cv].
  cbn [mbind option_bind]. eexists _, segs1. split; [done|].
  split; [|split; [done|split; [by apply push_lazy|done]]].
  constructor; cbn [chunk key cv_stack_len cv_stack].
  - done.
  - rewrite Hlen, zlen_cons. unfold u8. pose proof (zlen_nonneg segs1).
    rewrite Z.mod_small; lia.
  - rewrite <- Hsz, Hg, !zlen_app, zlen_tree_cv. lia.
  - exists g2. cbn [stack_cvs]. by rewrite <- Hk1, <- app_assoc.
  - by constructor.
Qed.

(** Merging with a count of zero reads below the stack. *)
Lemma merge_zero_out_of_bounds n self :
  cv_stack_len self = Z.of_nat (S n) -> Z.of_nat (S n) < 256 ->
  merge_cv_stack_loop (S n) self 0 = None.
Proof.
  revert self. induction n as [|n IH]; intros self Hlen Hn;
    cbn [merge_cv_stack_loop]; rewrite Hlen;
    (match goal with |- context [0 <? ?x] =>
       destruct (Z.ltb_spec 0 x) as [_|?]; [|lia] end).
  - by rewrite read_at_neg by b3_lia.
  - destruct (read_at _ _ _) as [parent_node|]; [|done]. cbn [mbind option_bind].
    destruct (write_at _ _ _) as [stack|]; [|done]. cbn [mbind option_bind].
    apply IH; [|lia]. cbn [cv_stack_len]. unfold u8.
    rewrite Z.mod_small; lia.
Qed.
