(* ===== verification/Blake3Hasher.v ===== *)
(** * The incremental hasher computes the reference tree hash

    The invariant of a hasher between two calls of [blake3_hasher_update], and
    the theorems: one call hashes any message below 2^64 bytes within the
    bounds of its arrays; a sequence of calls that stays within bounds hashes
    the concatenation; and a call leaves the bounds exactly when it crosses the
    end of a partly filled chunk. *)

From S2P Require Import Prelude Arrays Blake3Compress Blake3 Blake3Chunk Blake3Tree Blake3Stack.
Open Scope Z_scope.

#[local] Opaque blake3_compress_in_place chunk_root.

(** ** Subtree sizes *)

Lemma land_ones_zero j x :
  0 <= j < 64 -> 0 <= x ->
  (Z.land (u64 (2 ^ j - 1)) x =? 0) = true <-> (2 ^ j | x).
Proof.
  intros Hj Hx. assert (0 < 2 ^ j) by (apply Z.pow_pos_nonneg; lia).
  assert (2 ^ j < 2 ^ 64) by (apply Z.pow_lt_mono_r; lia).
  unfold u64. rewrite Z.mod_small, Z.land_comm by lia.
  replace (2 ^ j - 1) with (Z.ones j) by (rewrite Z.ones_equiv; lia).
  rewrite Z.land_ones by lia. rewrite Z.eqb_eq. split.
  - intros. by apply Z.mod_divide; [lia|].
  - intros. by apply Z.mod_divide; [lia|].
Qed.

(** The shrunk size is a power of two that divides what came before, and is
    not below any such power that the size itself is not below. *)
Lemma shrink_spec fuel b j x :
  (b <= j)%nat -> (j - b <= fuel)%nat -> Z.of_nat j < 64 -> 0 <= x ->
  (2 ^ Z.of_nat b | x) ->
  exists k, (b <= k <= j)%nat /\
    shrink_subtree fuel (2 ^ Z.of_nat j) x = 2 ^ Z.of_nat k /\
    (2 ^ Z.of_nat k | x).
Proof.
  revert j. induction fuel as [|fuel IH]; intros j Hbj Hf Hj Hx Hb.
  - exists j. assert (j = b) as -> by lia. done.
  - cbn [shrink_subtree].
    destruct (Z.land _ _ =? 0) eqn:E.
    { exists j. split; [lia|]. split; [done|]. by apply land_ones_zero in E; [|lia|]. }
    destruct (decide (j = b)) as [->|Hne].
    { apply (land_ones_zero (Z.of_nat b) x) in Hb; [congruence|lia|done]. }
    destruct j as [|j]; [lia|]. rewrite pow2_S.
    rewrite Z.mul_comm, Z.div_mul by lia.
    destruct (IH j) as (k & ? & ? & ?); [lia..|done|done|]. exists k. split; [lia|]. done.
Qed.

(** The size of the next subtree: a power of two of chunks that fits in the
    input and keeps the stack aligned. *)
Lemma subtree_len_spec b n count :
  0 < n < 2 ^ 64 -> 0 <= count < 2 ^ 54 -> (2 ^ Z.of_nat b | count) ->
  BLAKE3_CHUNK_LEN * 2 ^ Z.of_nat b <= n ->
  exists e, (b <= e)%nat /\
    shrink_subtree 64 (round_down_to_power_of_2 n) (u64 (count * BLAKE3_CHUNK_LEN))
    = BLAKE3_CHUNK_LEN * 2 ^ Z.of_nat e /\
    BLAKE3_CHUNK_LEN * 2 ^ Z.of_nat e <= n /\ (2 ^ Z.of_nat e | count).
Proof.
  intros Hn Hc Hb Hbn. b3_unfold. rewrite round_down_pow2 by done.
  unfold u64. rewrite Z.mod_small by lia.
  assert (forall e, 1024 * 2 ^ Z.of_nat e = 2 ^ Z.of_nat (e + 10)) as E.
  { intros e. rewrite Nat2Z.inj_add, Z.pow_add_r by lia.
    change (2 ^ Z.of_nat 10) with 1024. lia. }
  pose proof (Z.log2_spec n ltac:(lia)) as [Hlo _].
  pose proof (Z.log2_nonneg n).
  assert (Z.log2 n < 64) by (apply Z.log2_lt_pow2; lia).
  rewrite <- (Z2Nat.id (Z.log2 n)) in * by done.
  set (j := Z.to_nat (Z.log2 n)) in *.
  assert (b + 10 <= j)%nat as Hbj.
  { rewrite E in Hbn. apply Z.log2_le_mono in Hbn.
    rewrite Z.log2_pow2 in Hbn by lia. lia. }
  destruct (shrink_spec 64 (b + 10) j (count * 1024)) as (k & Hk & -> & Hd);
    [lia..| |].
  { rewrite <- E, Z.mul_comm. by apply Z.mul_divide_mono_r. }
  exists (k - 10)%nat. rewrite E. replace (k - 10 + 10)%nat with k by lia.
  split; [lia|]. split; [done|]. split.
  - etrans; [|exact Hlo]. apply Z.pow_le_mono_r; lia.
  - replace k with ((k - 10) + 10)%nat in Hd by lia. rewrite <- E, Z.mul_comm in Hd.
    by apply Z.mul_divide_cancel_r in Hd.
Qed.

(** ** The state between chunks *)

(** All of [m] is on the stack and the current chunk is empty. *)
Record aligned (k : list Z) (fl : Z) (h : blake3_hasher)
    (segs : list segment) (m : list Z) : Prop := Aligned {
  al_key : key h = k;
  al_stack : stack_at h fl segs;
  al_lazy : lazy segs;
  al_chunk : chunk_repr k fl (chunk h) [];
  al_counter : chunk_counter (chunk h) = chunks segs;
  al_msg : m = stack_msg segs;
}.

Lemma aligned_len k fl h segs m :
  aligned k fl h segs m -> zlen m = BLAKE3_CHUNK_LEN * chunks segs.
Proof. intros [? [] ? ? ? ->]. by apply zlen_stack_msg. Qed.

Lemma aligned_set_chunk k fl h segs m :
  key h = k -> stack_at h fl segs -> lazy segs ->
  chunk_repr k fl (chunk h) [] -> m = stack_msg segs ->
  aligned k fl
    (set_chunk h (set_chunk_counter (chunk h) (chunks segs))) segs m.
Proof.
  intros Hk [] Hlz Hr Hm.
  constructor; cbn [chunk key cv_stack set_chunk]; try done.
  by apply chunk_repr_set_counter.
Qed.

Lemma ztake_div (n : Z) e (m : list Z) :
  BLAKE3_CHUNK_LEN * 2 ^ Z.of_nat e <= zlen m ->
  n = BLAKE3_CHUNK_LEN * 2 ^ Z.of_nat e -> seg_ok (e, ztake n m).
Proof.
  intros Hm ->. pose proof (pow2_pos e). unfold seg_ok. cbn [fst snd].
  rewrite zlen_ztake_le by b3_lia. done.
Qed.

(** A subtree of one chunk is pushed by itself. *)
Lemma push_one_chunk k fl h segs m s ctr :
  aligned k fl h segs m -> chunks segs < 2 ^ 54 -> ctr = chunks segs + 1 ->
  seg_ok (O, s) ->
  let cs := chunk_state_update
    (set_chunk_counter (chunk_state_init (key h) (flags (chunk h)))
       (chunk_counter (chunk h))) s in
  exists h1 segs',
    hasher_push_cv h (output_chaining_value (chunk_state_output cs))
      (chunk_counter cs) = Some h1 /\
    aligned k fl (set_chunk h1 (set_chunk_counter (chunk h1) ctr)) segs'
      (m ++ s) /\
    chunks segs' = ctr /\ chunk_counter (chunk h1) = chunks segs.
Proof.
  intros [Hk Hst Hlz Hch Hctr Hm] Hlt -> Hok cs. subst k.
  subst cs. rewrite (st_flags _ _ _ Hst).
  set (cs := chunk_state_update _ s).
  pose proof (chunk_update_repr (key h) fl _ [] s
    (chunk_repr_set_counter _ _ _ _ (chunk_counter (chunk h))
       (chunk_repr_init (key h) fl))) as [Hr Hc].
  { rewrite zlen_nil. unfold seg_ok in Hok. cbn [fst snd] in Hok. lia. }
  fold cs in Hr, Hc. cbn [chunk_counter set_chunk_counter] in Hc.
  rewrite Hc, Hctr. apply chunk_repr_output in Hr.
  assert (output_chaining_value (chunk_state_output cs) = tree_cv (key h) fl s)
    as ->.
  { rewrite Hr. unfold tree_cv. rewrite blake3_tree_chunk; [done|].
    unfold seg_ok in Hok; cbn [fst snd] in Hok. lia. }
  destruct (push_cv_spec h fl segs O s Hst Hlz Hlt Hok)
    as (h1 & segs1 & -> & Hst1 & _ & Hlz1 & Hc1 & Hm1 & Hk1 & Hch1);
    [by apply Z.divide_1_l|].
  exists h1, ((O, s) :: segs1). split; [reflexivity|].
  assert (chunks ((O, s) :: segs1) = chunks segs + 1) as Ec
    by (cbn [chunks]; rewrite Hc1; lia).
  split; [|split; [done|by rewrite Hch1]].
  rewrite <- Ec. apply aligned_set_chunk; try done.
  - by rewrite Hch1.
  - cbn [stack_msg]. by rewrite Hm1, Hm.
Qed.

Lemma seg_halves e s :
  seg_ok (S e, s) ->
  let k := left_size (zlen s) in
  BLAKE3_CHUNK_LEN < zlen s /\ k = BLAKE3_CHUNK_LEN * 2 ^ Z.of_nat e /\
  seg_ok (e, ztake k s) /\ seg_ok (e, zdrop k s).
Proof.
  unfold seg_ok. cbn [fst snd]. rewrite pow2_S. intros Hs.
  pose proof (pow2_pos e). b3_unfold.
  assert (left_size (zlen s) = 1024 * 2 ^ Z.of_nat e) as E.
  { unfold left_size. b3_unfold. f_equal. f_equal.
    apply Z.log2_unique; [lia|]. rewrite Z.pow_succ_r by lia. split.
    - apply Z.div_le_lower_bound; lia.
    - apply Z.div_lt_upper_bound; lia. }
  rewrite E, zlen_ztake_le, zlen_zdrop by lia. split; [|split; [done|]]; lia.
Qed.

(** A larger subtree pushes the chaining values of its two sides. *)
Lemma push_two_sides k fl h segs m s e ctr :
  aligned k fl h segs m -> zlen m + zlen s < 2 ^ 64 ->
  ctr = chunks segs + 2 ^ Z.of_nat (S e) ->
  seg_ok (S e, s) -> (2 ^ Z.of_nat (S e) | chunks segs) ->
  exists h1 segs',
    (cv_pair ← compress_subtree_to_parent_node s (key h) 0 (flags (chunk h));
     h' ← hasher_push_cv h (ztake BLAKE3_OUT_LEN cv_pair)
            (chunk_counter (chunk h));
     hasher_push_cv h' (zdrop BLAKE3_OUT_LEN cv_pair)
       (u64 (chunk_counter (chunk h') + 2 ^ Z.of_nat (S e) / 2))) = Some h1 /\
    aligned k fl (set_chunk h1 (set_chunk_counter (chunk h1) ctr)) segs'
      (m ++ s) /\
    2 <= zlen segs' /\ chunks segs' = ctr /\
    chunk_counter (chunk h1) = chunks segs.
Proof.
  intros Hal Hlen -> Hok Hd. pose proof (aligned_len _ _ _ _ _ Hal) as Hm.
  destruct Hal as [Hk Hst Hlz Hch Hctr Hmsg]. subst k.
  destruct (seg_halves e s Hok) as (Hgt & _ & Hl & Hr).
  pose proof (chunks_nonneg segs) as Hnn. rewrite (st_flags _ _ _ Hst).
  rewrite parent_node_spec by (b3_unfold; lia). cbn [mbind option_bind].
  rewrite ztake_app_eq, zdrop_app_eq by (by rewrite zlen_tree_cv).
  set (sl := ztake _ s) in *. set (sr := zdrop _ s) in *.
  assert (s = sl ++ sr) as Es by (symmetry; apply ztake_zdrop).
  assert (zlen s = BLAKE3_CHUNK_LEN * 2 ^ Z.of_nat (S e)) as Ezs by done.
  rewrite Hctr. rewrite pow2_S in *. pose proof (pow2_pos e) as Hp.
  assert ((2 ^ Z.of_nat e | chunks segs)) as Hde
    by (etrans; [|exact Hd]; by exists 2).
  destruct (push_cv_spec h fl segs e sl Hst Hlz)
    as (h1 & segs1 & -> & Hst1 & _ & Hlz1 & Hc1 & Hm1 & Hk1 & Hch1);
    [b3_unfold; lia|done|done|].
  cbn [mbind option_bind]. rewrite Hch1, Hctr, (Z.mul_comm 2), Z.div_mul by lia.
  assert (chunks ((e, sl) :: segs1) = chunks segs + 2 ^ Z.of_nat e) as Ec1
    by (cbn [chunks]; rewrite Hc1; lia).
  unfold u64. rewrite Z.mod_small, <- Ec1, <- Hk1 by (b3_unfold; lia).
  destruct (push_cv_spec h1 fl ((e, sl) :: segs1) e sr Hst1 Hlz1)
    as (h2 & segs2 & -> & Hst2 & Hs2 & Hlz2 & Hc2 & Hm2 & Hk2 & Hch2);
    [rewrite Ec1; b3_unfold; lia|done|
     rewrite Ec1; apply Z.divide_add_r; [done|reflexivity]|].
  exists h2, ((e, sr) :: segs2). split; [reflexivity|].
  assert (chunks ((e, sr) :: segs2) = chunks segs + 2 ^ Z.of_nat e * 2) as Ec2
    by (cbn [chunks]; rewrite Hc2, Ec1; lia).
  split; [|split; [|split; [done|by rewrite Hch2, Hch1]]].
  - rewrite <- Ec2. apply aligned_set_chunk; [congruence|done|done| |].
    + by rewrite Hch2, Hch1, Hk1.
    + cbn [stack_msg]. rewrite Hm2. cbn [stack_msg].
      by rewrite Hm1, Es, <- app_assoc, Hmsg.
  - rewrite zlen_cons. destruct segs2; [|rewrite zlen_cons; pose proof (zlen_nonneg segs2); lia].
    cbn [chunks] in Hc2. pose proof (chunks_nonneg segs1). lia.
Qed.

(** One iteration of the subtree loop. *)
Lemma update_subtree_spec k fl h segs m i b :
  aligned k fl h segs m -> zlen m + zlen i < 2 ^ 64 ->
  BLAKE3_CHUNK_LEN < zlen i -> (2 ^ Z.of_nat b | chunks segs) ->
  BLAKE3_CHUNK_LEN * 2 ^ Z.of_nat b <= zlen i ->
  exists h' segs' e,
    let n := BLAKE3_CHUNK_LEN * 2 ^ Z.of_nat e in
    (b <= e)%nat /\ n <= zlen i /\
    update_subtree h i = Some (h', n) /\
    aligned k fl h' segs' (m ++ ztake n i) /\
    (e = O \/ 2 <= zlen segs') /\
    chunks segs' = chunks segs + 2 ^ Z.of_nat e.
Proof.
  intros Hal Hlen Hi Hb Hbn. pose proof (aligned_len _ _ _ _ _ Hal) as Hm.
  pose proof (chunks_nonneg segs) as Hnn. b3_unfold.
  destruct (subtree_len_spec b (zlen i) (chunks segs)) as (e & Hbe & Hn & Hle & Hd);
    [lia..|done|b3_unfold; done|].
  unfold update_subtree. rewrite (al_counter _ _ _ _ _ Hal), Hn. b3_unfold.
  pose proof (pow2_pos e) as Hp. rewrite (Z.mul_comm 1024 (2 ^ _)), Z.div_mul by lia.
  set (n := 2 ^ Z.of_nat e * 1024) in *.
  assert (seg_ok (e, ztake n i)) as Hok by (apply ztake_div; subst n; b3_unfold; lia).
  assert (u64 (chunks segs + 2 ^ Z.of_nat e) = chunks segs + 2 ^ Z.of_nat e) as Eu
    by (unfold u64; apply Z.mod_small; subst n; lia).
  destruct (Z.leb_spec n 1024) as [Hsmall|Hbig].
  - assert (e = O) as ->.
    { subst n. destruct e; [done|]. rewrite pow2_S in Hsmall.
      pose proof (pow2_pos e). lia. }
    destruct (push_one_chunk k fl h segs m (ztake n i)
      (chunks segs + 1) Hal) as (h1 & segs' & Hpush & Hal1 & Hc1 & Hctr1);
      [lia|done|done|].
    rewrite (al_counter _ _ _ _ _ Hal) in Hpush. rewrite Hpush.
    cbn [mbind option_bind]. rewrite Hctr1, Eu.
    eexists _, segs', O. rewrite Z.mul_comm. fold n.
    split; [done|]. split; [lia|]. split; [reflexivity|]. split; [done|].
    split; [by left|done].
  - destruct e as [|e]; [subst n; change (2 ^ Z.of_nat 0) with 1 in *; lia|].
    destruct (push_two_sides k fl h segs m (ztake n i) e
      (chunks segs + 2 ^ Z.of_nat (S e)) Hal)
      as (h1 & segs' & Hpush & Hal1 & Hlen1 & Hc1 & Hctr1); try done.
    { rewrite zlen_ztake_le by lia. lia. }
    rewrite (al_counter _ _ _ _ _ Hal) in Hpush. b3_unfold. rewrite Hpush.
    cbn [mbind option_bind]. rewrite Hctr1, Eu.
    eexists _, segs', (S e). rewrite (Z.mul_comm 1024). fold n.
    split; [done|]. split; [lia|]. split; [reflexivity|]. split; [done|].
    split; [by right|done].
Qed.

(** ** The subtree loop *)

Lemma zdrop_nil_length (n : Z) (i : list Z) :
  0 <= n <= zlen i -> zdrop n i = [] -> n = zlen i.
Proof.
  intros Hn E. pose proof (zlen_zdrop n i Hn) as Hz.
  rewrite E, zlen_nil in Hz. lia.
Qed.

Lemma update_loop_spec fuel k fl h segs m i :
  aligned k fl h segs m -> zlen m + zlen i < 2 ^ 64 -> zlen i <= Z.of_nat fuel ->
  exists h' segs' m' rest,
    update_loop fuel h i = Some (h', rest) /\ zlen rest <= BLAKE3_CHUNK_LEN /\
    aligned k fl h' segs' m' /\ m' ++ rest = m ++ i /\
    (rest = [] -> (i = [] /\ segs' = segs) \/ 2 <= zlen segs') /\
    ((2 | chunks segs) -> (2 * BLAKE3_CHUNK_LEN | zlen i) ->
       rest = [] /\ (2 | chunks segs')).
Proof.
  revert h segs m i. induction fuel as [|fuel IH]; intros h segs m i Hal Hlen Hf;
    cbn [update_loop];
    (destruct (Z.ltb_spec BLAKE3_CHUNK_LEN (zlen i)) as [Hgt|Hle];
     [|exists h, segs, m, i; do 4 (split; [done|]); split; [by left|];
       intros H1 H2; split; [|done]; b3_unfold; pose proof (zlen_nonneg i);
       apply zlen_zero; destruct H2 as [q ?]; lia]); [b3_unfold; lia|].
  assert (exists b, (2 ^ Z.of_nat b | chunks segs) /\
    BLAKE3_CHUNK_LEN * 2 ^ Z.of_nat b <= zlen i /\
    ((2 | chunks segs) -> (2 * BLAKE3_CHUNK_LEN | zlen i) -> (1 <= b)%nat))
    as (b & Hb & Hbn & Hb1).
  { destruct (decide (2 | chunks segs)) as [H1|H1];
      [destruct (decide (2 * BLAKE3_CHUNK_LEN | zlen i)) as [H2|H2]|].
    1: { exists 1%nat. split; [done|]. split; [|done].
         change (2 ^ Z.of_nat 1) with 2. b3_unfold. destruct H2 as [q ?]. lia. }
    all: exists O; split; [apply Z.divide_1_l|]; split; [|done];
      change (2 ^ Z.of_nat 0) with 1; lia. }
  destruct (update_subtree_spec k fl h segs m i b Hal Hlen Hgt Hb Hbn)
    as (h1 & segs1 & e & Hbe & Hn & -> & Hal1 & Hor & Hc1).
  cbn [mbind option_bind]. pose proof (pow2_pos e) as Hp.
  set (n := BLAKE3_CHUNK_LEN * 2 ^ Z.of_nat e) in *.
  assert (1024 <= n) by (subst n; b3_unfold; lia).
  destruct (IH h1 segs1 (m ++ ztake n i) (zdrop n i) Hal1)
    as (h' & segs' & m' & rest & -> & Hr & Hal' & Hm' & Hnil & Hev);
    [b3_lia..|].
  exists h', segs', m', rest. split; [done|]. split; [done|]. split; [done|].
  split; [by rewrite Hm', <- app_assoc, ztake_zdrop|]. split.
  - intros E. right. destruct (Hnil E) as [[Hd ->]|?]; [|done].
    destruct Hor as [->|?]; [|done]. apply zdrop_nil_length in Hd; [|lia].
    subst n. change (2 ^ Z.of_nat 0) with 1 in *. lia.
  - intros H2 H2i. specialize (Hb1 H2 H2i). destruct e as [|e]; [lia|].
    rewrite pow2_S in *. apply Hev.
    + rewrite Hc1. apply Z.divide_add_r; [done|]. apply Z.divide_factor_l.
    + rewrite zlen_zdrop by lia. apply Z.divide_sub_r; [done|]. subst n.
      rewrite pow2_S. exists (2 ^ Z.of_nat e). lia.
Qed.

(** ** Between two updates *)

(** [segs] are the subtrees on the stack, [c] the current chunk and [m] the
    message hashed so far. *)
Record hasher_at (k : list Z) (fl : Z) (h : blake3_hasher)
    (segs : list segment) (c m : list Z) : Prop := HasherAt {
  ha_key : key h = k;
  ha_stack : stack_at h fl segs;
  ha_chunk : chunk_repr k fl (chunk h) c;
  ha_counter : chunk_counter (chunk h) = chunks segs;
  ha_msg : m = stack_msg segs ++ c;
  ha_partial : c <> [] -> strict segs;
  ha_boundary : c = [] -> segs = [] \/ (lazy segs /\ 2 <= zlen segs);
}.

(** A hasher with which [m] has been hashed. *)
Definition hasher_repr (k : list Z) (fl : Z) (h : blake3_hasher) (m : list Z)
  : Prop := exists segs c, hasher_at k fl h segs c m.

Lemma hasher_init_repr stack k fl :
  zlen stack = cv_stack_size -> hasher_repr k fl (hasher_init_base stack k fl) [].
Proof.
  intros Hs. exists [], [].
  constructor; try done; [|apply chunk_repr_init|by left].
  constructor; try done. by exists stack.
Qed.

Lemma hasher_at_lazy k fl h segs c m : hasher_at k fl h segs c m -> lazy segs.
Proof.
  intros [_ _ _ _ _ Hp Hb]. destruct c; [|by apply strict_lazy, Hp].
  by destruct (Hb eq_refl) as [->|[? _]].
Qed.

Lemma hasher_at_len k fl h segs c m :
  hasher_at k fl h segs c m ->
  zlen m = BLAKE3_CHUNK_LEN * chunks segs + zlen c /\
  chunk_state_len (chunk h) = zlen c /\ zlen c <= BLAKE3_CHUNK_LEN.
Proof.
  intros [_ [] Hr _ -> _ _]. rewrite zlen_app, zlen_stack_msg by done.
  split; [done|]. by eapply chunk_repr_len.
Qed.

Lemma zlen_pos_ne (c : list Z) : 0 < zlen c -> c <> [].
Proof. by intros ? ->. Qed.

(** An update that stays inside the current chunk. *)
Lemma update_inside k fl h segs c m i :
  hasher_at k fl h segs c m -> 0 < zlen c -> 0 < zlen i ->
  zlen c + zlen i <= BLAKE3_CHUNK_LEN ->
  exists h', blake3_hasher_update h i = Some h' /\
    hasher_at k fl h' segs (c ++ i) (m ++ i).
Proof.
  intros Ha Hc Hi Hci. destruct (hasher_at_len _ _ _ _ _ _ Ha) as (_ & El & _).
  destruct Ha as [Hk Hst Hr Hctr -> Hp Hb].
  unfold blake3_hasher_update, update_partial_chunk. rewrite El.
  destruct (Z.eqb_spec (zlen i) 0); [lia|].
  destruct (Z.ltb_spec 0 (zlen c)) as [_|]; [|lia].
  assert ((if zlen i <? BLAKE3_CHUNK_LEN - zlen c then zlen i
           else BLAKE3_CHUNK_LEN - zlen c) = zlen i) as ->
    by (destruct (Z.ltb_spec (zlen i) (BLAKE3_CHUNK_LEN - zlen c)); lia).
  rewrite ztake_ge, zdrop_ge by lia. change (0 <? zlen (@nil Z)) with false.
  cbn [mbind option_bind]. eexists. split; [reflexivity|].
  destruct (chunk_update_repr k fl (chunk h) c i Hr Hci) as [Hr' Hc'].
  constructor; cbn [key chunk set_chunk]; try done.
  - destruct Hst. constructor; try done. cbn [chunk set_chunk].
    by destruct Hr' as [? []].
  - by rewrite Hc'.
  - by rewrite app_assoc.
  - intros _. by apply Hp, zlen_pos_ne.
  - intros E. apply app_eq_nil in E as [E _]. by apply zlen_pos_ne in Hc.
Qed.

(** An update that starts on a chunk boundary. *)
Lemma update_boundary k fl h segs m i :
  hasher_at k fl h segs [] m -> 0 < zlen i -> zlen m + zlen i < 2 ^ 64 ->
  exists h' segs' c', blake3_hasher_update h i = Some h' /\
    hasher_at k fl h' segs' c' (m ++ i) /\
    ((2 | chunks segs) -> (2 * BLAKE3_CHUNK_LEN | zlen i) ->
       c' = [] /\ (2 | chunks segs')).
Proof.
  intros Ha Hi Hlen. pose proof (hasher_at_lazy _ _ _ _ _ _ Ha) as Hlz.
  destruct (hasher_at_len _ _ _ _ _ _ Ha) as (_ & El & _).
  destruct Ha as [Hk Hst Hr Hctr Hm Hp Hb]. rewrite app_nil_r in Hm.
  unfold blake3_hasher_update, update_partial_chunk. rewrite El.
  destruct (Z.eqb_spec (zlen i) 0); [lia|].
  change (0 <? zlen (@nil Z)) with false. cbn [mbind option_bind].
  destruct (update_loop_spec (length i) k fl h segs m i)
    as (h1 & segs1 & m1 & rest & -> & Hr1 & Hal1 & Hm1 & Hnil & Hev);
    [by constructor|done|done|]. cbn [mbind option_bind].
  destruct Hal1 as [Hk1 Hst1 Hlz1 Hch1 Hctr1 ->].
  destruct (Z.ltb_spec 0 (zlen rest)) as [Hrest|Hrest].
  - destruct (chunk_update_repr k fl (chunk h1) [] rest Hch1) as [Hch2 Hctr2];
      [by rewrite zlen_nil|]. simpl ([] ++ rest) in Hch2.
    set (h2 := set_chunk h1 (chunk_state_update (chunk h1) rest)).
    assert (stack_at h2 fl segs1) as Hst2.
    { destruct Hst1. constructor; try done. by destruct Hch2 as [? []]. }
    cbn [chunk set_chunk h2]. rewrite Hctr2, Hctr1.
    destruct (merge_cv_stack_spec h2 fl segs1 Hst2 Hlz1)
      as (h3 & segs3 & E3 & Hst3 & Hs3 & Hc3 & Hm3 & Hk3 & Hch3).
    exists h3, segs3, rest. split; [exact E3|]. split.
    + constructor; try done.
      * etransitivity; [exact Hk3|exact Hk1].
      * by rewrite Hch3.
      * rewrite Hch3, Hc3. cbn [chunk set_chunk h2]. by rewrite Hctr2.
      * by rewrite Hm3, Hm1.
      * intros E. by apply zlen_pos_ne in Hrest.
    + intros H1 H2. destruct (Hev H1 H2) as [E ?]. by apply zlen_pos_ne in Hrest.
  - assert (rest = []) as -> by (apply zlen_zero; pose proof (zlen_nonneg rest); lia).
    rewrite app_nil_r in Hm1. exists h1, segs1, []. split; [done|].
    split; [|by intros H1 H2; destruct (Hev H1 H2)].
    constructor; try done; [by rewrite app_nil_r|].
    intros _. destruct (Hnil eq_refl) as [[E _]|?]; [|by right].
    by apply zlen_pos_ne in Hi.
Qed.

(** ** The two outcomes of an update *)

Lemma update_fits k fl h m i :
  hasher_repr k fl h m -> zlen m + zlen i < 2 ^ 64 ->
  ~ (0 < chunk_state_len (chunk h) /\
     BLAKE3_CHUNK_LEN < chunk_state_len (chunk h) + zlen i) ->
  exists h', blake3_hasher_update h i = Some h' /\ hasher_repr k fl h' (m ++ i).
Proof.
  intros (segs & c & Ha) Hlen Hno.
  destruct (hasher_at_len _ _ _ _ _ _ Ha) as (_ & El & _). rewrite El in Hno.
  pose proof (zlen_nonneg i). pose proof (zlen_nonneg c).
  destruct (Z.eq_dec (zlen i) 0) as [Ei|Hi].
  - apply zlen_zero in Ei as ->. exists h. split; [done|].
    rewrite app_nil_r. by exists segs, c.
  - destruct (Z.eq_dec (zlen c) 0) as [Ec|Hc].
    + apply zlen_zero in Ec as ->.
      destruct (update_boundary _ _ _ _ _ i Ha) as (h' & segs' & c' & ? & ? & _);
        [lia|done|]. exists h'. split; [done|]. by exists segs', c'.
    + destruct (update_inside _ _ _ _ _ _ i Ha) as (h' & ? & ?); [lia..|].
      exists h'. split; [done|]. by exists segs, (c ++ i).
Qed.

(** After the chunk is completed, [chunk_state_reset] restarts the chunk
    counter at 0, so the next merge pops the whole stack. *)
Lemma merge_after_reset h n :
  0 < cv_stack_len h < 256 -> popcnt n = 0 -> hasher_merge_cv_stack h n = None.
Proof.
  intros Hlen Hn. unfold hasher_merge_cv_stack. rewrite Hn.
  destruct (Z.to_nat (cv_stack_len h)) as [|d] eqn:E; [lia|].
  apply merge_zero_out_of_bounds; lia.
Qed.

Lemma chunk_update_loop_counter fuel self i :
  chunk_counter (fst (chunk_update_loop fuel self i)) = chunk_counter self.
Proof.
  revert self i. induction fuel as [|fuel IH]; intros self i; [done|].
  cbn [chunk_update_loop]. case_match; [|done]. by rewrite IH.
Qed.

Lemma chunk_state_update_counter self i :
  chunk_counter (chunk_state_update self i) = chunk_counter self.
Proof.
  unfold chunk_state_update.
  set (p := if 0 <? buf_len self then _ else _).
  assert (chunk_counter (fst p) = chunk_counter self) as E.
  { subst p. case_match; [|done]. unfold chunk_state_fill_buf. by case_match. }
  destruct p as [self1 i1]. cbn [fst] in E.
  pose proof (chunk_update_loop_counter (length i1) self1 i1) as E2.
  destruct (chunk_update_loop _ self1 i1) as [self2 i2].
  cbn [fst] in E2. unfold chunk_state_fill_buf. cbn [fst chunk_counter]. congruence.
Qed.

Lemma update_loop_after_reset fuel h i :
  0 < cv_stack_len h < 256 -> chunk_counter (chunk h) = 0 ->
  BLAKE3_CHUNK_LEN < zlen i -> update_loop fuel h i = None.
Proof.
  intros Hlen Hc Hi. destruct fuel; cbn [update_loop];
    (destruct (Z.ltb_spec BLAKE3_CHUNK_LEN (zlen i)); [|lia]); [done|].
  unfold update_subtree. rewrite Hc.
  set (n := shrink_subtree _ _ _).
  destruct (n <=? BLAKE3_CHUNK_LEN) eqn:En.
  - unfold hasher_push_cv.
    rewrite merge_after_reset; [done|done|].
    by rewrite chunk_state_update_counter.
  - destruct (compress_subtree_to_parent_node _ _ _ _); [|done].
    cbn [mbind option_bind]. unfold hasher_push_cv.
    by rewrite (merge_after_reset h 0).
Qed.

Lemma update_crosses k fl h m i :
  hasher_repr k fl h m -> zlen m < 2 ^ 64 ->
  0 < chunk_state_len (chunk h) ->
  BLAKE3_CHUNK_LEN < chunk_state_len (chunk h) + zlen i ->
  blake3_hasher_update h i = None.
Proof.
  intros (segs & c & Ha) Hm H0 Hx.
  destruct (hasher_at_len _ _ _ _ _ _ Ha) as (Em & El & Hle).
  pose proof (hasher_at_lazy _ _ _ _ _ _ Ha) as Hlz.
  rewrite El in *. destruct Ha as [Hk Hst Hr Hctr -> Hp _].
  unfold blake3_hasher_update, update_partial_chunk. rewrite El.
  destruct (Z.eqb_spec (zlen i) 0); [lia|].
  destruct (Z.ltb_spec 0 (zlen c)) as [_|]; [|lia].
  assert ((if zlen i <? BLAKE3_CHUNK_LEN - zlen c then zlen i
           else BLAKE3_CHUNK_LEN - zlen c) = BLAKE3_CHUNK_LEN - zlen c) as ->
    by (destruct (Z.ltb_spec (zlen i) (BLAKE3_CHUNK_LEN - zlen c)); lia).
  set (take := BLAKE3_CHUNK_LEN - zlen c).
  rewrite zlen_zdrop by lia.
  destruct (Z.ltb_spec 0 (zlen i - take)) as [Hrest|]; [|lia].
  cbn [chunk set_chunk].
  destruct (chunk_update_repr k fl (chunk h) c (ztake take i) Hr) as [Hr1 Hc1];
    [rewrite zlen_ztake_le; lia|].
  rewrite Hc1, Hctr. set (h1 := set_chunk h _).
  assert (stack_at h1 fl segs) as Hst1.
  { destruct Hst. constructor; try done. by destruct Hr1 as [? []]. }
  assert (zlen (c ++ ztake take i) = BLAKE3_CHUNK_LEN) as Ec
    by (rewrite zlen_app, zlen_ztake_le; lia).
  assert (output_chaining_value
    (chunk_state_output (chunk_state_update (chunk h) (ztake take i))) =
    tree_cv (key h1) fl (c ++ ztake take i)) as ->.
  { apply chunk_repr_output in Hr1. rewrite Hr1. unfold tree_cv.
    rewrite blake3_tree_chunk by lia. cbn [key set_chunk h1]. by rewrite Hk. }
  destruct (push_cv_spec h1 fl segs O (c ++ ztake take i) Hst1 Hlz)
    as (h2 & segs2 & -> & Hst2 & _ & _ & _ & _ & _ & _);
    [b3_unfold; lia|by unfold seg_ok|apply Z.divide_1_l|].
  cbn [mbind option_bind].
  pose proof (stack_at_short _ _ _ Hst2) as Hshort. rewrite zlen_cons in Hshort.
  pose proof (zlen_nonneg segs2). pose proof (st_len _ _ _ Hst2) as Hlen2.
  rewrite zlen_cons in Hlen2. unfold BLAKE3_MAX_DEPTH in Hshort.
  set (h3 := set_chunk h2 (chunk_state_reset _ _ _)).
  assert (0 < cv_stack_len h3 < 256) as Hlen3 by (cbn [cv_stack_len h3 set_chunk]; lia).
  destruct (Z.ltb_spec BLAKE3_CHUNK_LEN (zlen (zdrop take i))) as [Hbig|Hsmall].
  - by rewrite update_loop_after_reset.
  - assert (forall fuel, update_loop fuel h3 (zdrop take i) = Some (h3, zdrop take i))
      as ->.
    { intros fuel. destruct fuel; cbn [update_loop];
        by rewrite (proj2 (Z.ltb_ge _ _) Hsmall). }
    cbn [mbind option_bind]. rewrite zlen_zdrop by lia.
    rewrite (proj2 (Z.ltb_lt _ _) Hrest).
    apply merge_after_reset; [done|]. cbn [chunk set_chunk].
    by rewrite chunk_state_update_counter.
Qed.
