(* ===== verification/Blake3Spec.v ===== *)
(** * What the BLAKE3ZCC hasher promises

    The finalization rolls the stack up into the root node; with the invariant
    of [Blake3Hasher] this gives the contract of the hasher against the
    reference tree of [Blake3Tree]. *)

From S2P Require Import Prelude Arrays Blake3Compress Blake3 Blake3Chunk Blake3Tree Blake3Stack Blake3Hasher.
Open Scope Z_scope.

#[local] Opaque blake3_compress_in_place chunk_root.

(** The hash of a message under a key and domain flags. *)
Definition blake3_hash (key : list Z) (fl : Z) (m : list Z) (out_len : Z)
  : list Z := output_root_bytes (blake3_tree key fl m) 0 out_len.

(** A sequence of calls of [blake3_hasher_update]. *)
Fixpoint updates (h : blake3_hasher) (pieces : list (list Z))
  : option blake3_hasher :=
  match pieces with
  | [] => Some h
  | i :: pieces => h' ← blake3_hasher_update h i; updates h' pieces
  end.

(** ** Finalization *)

(** [a] is not longer than the topmost segment, and the stack is merged. *)
Definition fits (a : list Z) (segs : list segment) : Prop :=
  match segs with
  | [] => True
  | (e, _) :: segs => zlen a <= BLAKE3_CHUNK_LEN * 2 ^ Z.of_nat e /\ above e segs
  end.

Lemma fits_join e s a segs :
  seg_ok (e, s) -> fits a ((e, s) :: segs) -> fits (s ++ a) segs.
Proof.
  unfold seg_ok. cbn [fst snd fits]. intros Hs [Ha Hab].
  destruct segs as [|[e' s'] segs]; [done|]. destruct Hab as [He Hab].
  split; [|done]. rewrite zlen_app. pose proof (pow2_pos e).
  assert (2 * 2 ^ Z.of_nat e <= 2 ^ Z.of_nat e').
  { rewrite <- pow2_S. apply Z.pow_le_mono_r; lia. }
  b3_unfold. lia.
Qed.

Lemma finalize_loop_spec h k fl segs g a o :
  key h = k -> flags (chunk h) = fl ->
  cv_stack h = stack_cvs k fl segs ++ g -> Forall seg_ok segs ->
  0 < zlen a -> fits a segs -> output_equiv o (blake3_tree k fl a) ->
  exists o', finalize_loop (length segs) h o = Some o' /\
    output_equiv o' (blake3_tree k fl (stack_msg segs ++ a)).
Proof.
  intros Hk Hfl. revert g a o.
  induction segs as [|[e s] segs IH]; intros g a o Hg Hok Ha Hfit Ho.
  - by exists o.
  - apply Forall_cons_1 in Hok as [Hs Hok]. cbn [length finalize_loop].
    cbn [stack_cvs] in Hg. rewrite <- app_assoc in Hg.
    rewrite Hg, read_at_app;
      [|rewrite zlen_stack_cvs; b3_unfold; unfold zlen; lia
       |by rewrite zlen_tree_cv].
    cbn [mbind option_bind].
    destruct (IH (tree_cv k fl s ++ g) (s ++ a)
      (parent_output (tree_cv k fl s ++ output_chaining_value o) (key h)
         (flags (chunk h)))) as (o' & -> & Ho'); [done|done|..].
    + pose proof (zlen_nonneg s). rewrite zlen_app. lia.
    + by eapply fits_join.
    + rewrite Ho, Hk, Hfl. rewrite (tree_join k fl e) by
        (done || (unfold seg_ok in Hs; cbn [fst snd fits] in *; lia)).
      reflexivity.
    + exists o'. split; [done|]. rewrite Ho'. cbn [stack_msg].
      by rewrite app_assoc.
Qed.

Lemma finalize_repr k fl h m seek out_len :
  hasher_repr k fl h m -> out_len <> 0 ->
  blake3_hasher_finalize_seek h seek out_len =
  Some (output_root_bytes (blake3_tree k fl m) seek out_len).
Proof.
  intros (segs & c & Ha) Hout.
  destruct (hasher_at_len _ _ _ _ _ _ Ha) as (_ & El & Hle).
  destruct Ha as [Hk [Hfl Hlen Hsz [g0 Hg] Hok] Hr _ Hm Hp Hb].
  unfold blake3_hasher_finalize_seek. rewrite El, Hlen.
  destruct (Z.eqb_spec out_len 0) as [|_]; [done|]. rewrite Hk in Hg.
  apply chunk_repr_output in Hr. rewrite <- blake3_tree_chunk in Hr by done.
  destruct (Z.eqb_spec (zlen segs) 0) as [E|Hne].
  { apply zlen_zero in E as ->. simpl in Hm. subst m. by rewrite Hr. }
  pose proof (zlen_nonneg segs). pose proof (zlen_nonneg c).
  destruct (Z.ltb_spec 0 (zlen c)) as [Hc|Hc].
  - cbn [mbind option_bind].
    destruct (finalize_loop_spec h k fl segs g0 c (chunk_state_output (chunk h)))
      as (o' & E & Ho'); try done.
    { specialize (Hp (zlen_pos_ne c Hc)). destruct segs as [|[e s] segs]; [done|].
      split; [|done]. pose proof (pow2_pos e). b3_unfold. lia. }
    replace (Z.to_nat (zlen segs)) with (length segs) by (unfold zlen; lia).
    rewrite E. cbn [mbind option_bind]. by rewrite Ho', Hm.
  - assert (c = []) as -> by (apply zlen_zero; lia).
    destruct (Hb eq_refl) as [->|[Hlz Hl2]]; [done|].
    destruct segs as [|[e1 s1] [|[e2 s2] segs]];
      [by rewrite zlen_nil in Hl2|rewrite zlen_cons, zlen_nil in Hl2; lia|].
    destruct Hlz as [Hle12 Hab].
    apply Forall_cons_1 in Hok as [Hs1 Hok]. apply Forall_cons_1 in Hok as [Hs2 Hok].
    rewrite !zlen_cons in *.
    replace (1 + (1 + zlen segs) - 2) with (zlen segs) by lia.
    cbn [stack_cvs] in Hg. rewrite <- !app_assoc in Hg.
    rewrite (app_assoc (tree_cv k fl s2)) in Hg. pose proof (zlen_nonneg segs).
    rewrite Hg, read_at_app;
      [|rewrite zlen_stack_cvs; b3_unfold; lia|by rewrite zlen_tree_cv2].
    cbn [mbind option_bind].
    assert (zlen s1 <= zlen s2) as H12.
    { unfold seg_ok in *. cbn [fst snd] in *. rewrite Hs1, Hs2.
      apply Z.mul_le_mono_nonneg_l; [done|]. apply Z.pow_le_mono_r; lia. }
    assert (0 < zlen s1) as Hs1p.
    { unfold seg_ok in Hs1. cbn [fst snd] in Hs1. pose proof (pow2_pos e1).
      b3_unfold. lia. }
    destruct (finalize_loop_spec h k fl segs
      ((tree_cv k fl s2 ++ tree_cv k fl s1) ++ g0) (s2 ++ s1)
      (parent_output (tree_cv k fl s2 ++ tree_cv k fl s1) (key h)
         (flags (chunk h)))) as (o' & E & Ho'); try done.
    + rewrite zlen_app. lia.
    + eapply (fits_join e2); [done|]. split; [|done].
      unfold seg_ok in Hs2. cbn [fst snd] in Hs2. lia.
    + rewrite Hk, Hfl, (tree_join k fl e2) by (done || lia). reflexivity.
    + replace (Z.to_nat (zlen segs)) with (length segs) by (unfold zlen; lia).
      rewrite E. cbn [mbind option_bind]. rewrite Ho', Hm. cbn [stack_msg].
      by rewrite app_nil_r, app_assoc.
Qed.

(** ** Sequences of updates *)

Lemma updates_repr k fl h m pieces h' :
  hasher_repr k fl h m -> zlen m + zlen (concat pieces) < 2 ^ 64 ->
  updates h pieces = Some h' -> hasher_repr k fl h' (m ++ concat pieces).
Proof.
  revert h m. induction pieces as [|i pieces IH]; intros h m Hr Hlen Hu.
  - cbn in *. rewrite app_nil_r. by injection Hu as <-.
  - cbn [updates concat] in *. rewrite zlen_app in Hlen.
    pose proof (zlen_nonneg (concat pieces)). pose proof (zlen_nonneg i).
    destruct (blake3_hasher_update h i) as [h1|] eqn:E1; [|done].
    cbn [mbind option_bind] in Hu. rewrite app_assoc.
    apply IH with h1; [|rewrite zlen_app; lia|done].
    destruct (decide (0 < chunk_state_len (chunk h) /\
      BLAKE3_CHUNK_LEN < chunk_state_len (chunk h) + zlen i)) as [[H1 H2]|Hno].
    + rewrite (update_crosses k fl h m i) in E1; [done|done|lia|done|done].
    + destruct (update_fits k fl h m i) as (h2 & E2 & Hr2); [done|lia|done|].
      congruence.
Qed.

(** Pieces of whole pairs of chunks leave the hasher on such a boundary. *)
Lemma updates_even k fl h segs m pieces :
  hasher_at k fl h segs [] m -> (2 | chunks segs) ->
  Forall (fun i => (2 * BLAKE3_CHUNK_LEN | zlen i)) pieces ->
  zlen m + zlen (concat pieces) < 2 ^ 64 ->
  exists h' segs', updates h pieces = Some h' /\
    hasher_at k fl h' segs' [] (m ++ concat pieces).
Proof.
  intros Ha He Hall. revert h segs m Ha He.
  induction Hall as [|i pieces Hi Hall IH]; intros h segs m Ha He Hlen.
  - exists h, segs. cbn. by rewrite app_nil_r.
  - cbn [updates concat] in *. rewrite zlen_app in Hlen.
    pose proof (zlen_nonneg (concat pieces)). pose proof (zlen_nonneg i).
    destruct (Z.eq_dec (zlen i) 0) as [E|Hne].
    + apply zlen_zero in E as ->. cbn. apply (IH h segs); [done|done|lia].
    + destruct (update_boundary k fl h segs m i Ha) as (h1 & segs1 & c1 & -> & Ha1 & Hc1);
        [lia|lia|]. destruct (Hc1 He Hi) as [-> He1]. cbn [mbind option_bind].
      rewrite app_assoc. apply (IH h1 segs1); [done|done|]. rewrite zlen_app. lia.
Qed.

Lemma updates_app h p1 p2 :
  updates h (p1 ++ p2) = h' ← updates h p1; updates h' p2.
Proof.
  revert h. induction p1 as [|i p1 IH]; intros h; [done|]. cbn [updates app].
  destruct (blake3_hasher_update h i); [|done]. cbn [mbind option_bind]. apply IH.
Qed.

(** ** The bytes of a digest *)

Definition is_byte (x : Z) : Prop := 0 <= x < 256.

Lemma store32_bytes w : length (store32 w) = 4%nat /\ Forall is_byte (store32 w).
Proof.
  split; [done|]. unfold store32, is_byte, u8.
  repeat constructor; try apply Z.mod_pos_bound; lia.
Qed.

Lemma store_words_bytes ws :
  zlen (ws ≫= store32) = 4 * zlen ws /\ Forall is_byte (ws ≫= store32).
Proof.
  induction ws as [|w ws [IHl IHb]]; [done|]. cbn [mbind list_bind] in *.
  destruct (store32_bytes w) as [Hl Hb].
  rewrite zlen_app, zlen_cons. split; [unfold zlen in *; lia|].
  by apply Forall_app.
Qed.

Lemma compress_xof_bytes cv block len ctr fl :
  zlen (blake3_compress_xof cv block len ctr fl) = 64 /\
  Forall is_byte (blake3_compress_xof cv block len ctr fl).
Proof.
  unfold blake3_compress_xof, blake3_compress_xof_portable.
  match goal with |- context [?ws ≫= store32] =>
    destruct (store_words_bytes ws) as [Hl Hb]; split; [rewrite Hl|done] end.
  unfold zlen. by rewrite length_app, !length_map, !length_seq.
Qed.

Lemma output_root_loop_bytes fuel o off n :
  0 <= off < 64 -> 0 <= n <= Z.of_nat fuel ->
  zlen (output_root_loop fuel o off n) = n /\
  Forall is_byte (output_root_loop fuel o off n).
Proof.
  revert off n. induction fuel as [|fuel IH]; intros off n Hoff Hn.
  - cbn [output_root_loop]. rewrite zlen_nil. split; [lia|constructor].
  - cbn [output_root_loop]. destruct (Z.ltb_spec 0 n) as [Hpos|]; 
      [|rewrite zlen_nil; split; [lia|constructor]].
    destruct (compress_xof_bytes (o_input_cv o) (o_block o) (o_block_len o) 0
      (Z.lor (o_flags o) ROOT)) as [Hl Hb].
    set (w := blake3_compress_xof _ _ _ _ _) in *.
    assert ((if 64 - off <? n then 64 - off else n) = Z.min (64 - off) n) as ->
      by (destruct (Z.ltb_spec (64 - off) n); lia).
    destruct (IH 0 (n - Z.min (64 - off) n)) as [IHl IHb]; [lia|lia|].
    rewrite zlen_app, zlen_ztake, zlen_zdrop, IHl by lia. split; [lia|].
    apply Forall_app. split; [|done]. by apply Forall_take, Forall_drop.
Qed.

(** ** The contract *)

(** Hashing any message below 2^64 bytes with one call of
    [blake3_hasher_update] stays inside the stack of chaining values and
    computes the reference tree hash, whatever the stack held before. *)
Theorem blake3_one_shot (stack key m : list Z) (fl out_len : Z)
    (Hstack : zlen stack = cv_stack_size) (Hm : zlen m < 2 ^ 64) :
  exists h, blake3_hasher_update (hasher_init_base stack key fl) m = Some h /\
    blake3_hasher_finalize h out_len = Some (blake3_hash key fl m out_len).
Proof.
  pose proof (hasher_init_repr stack key fl Hstack) as Hr.
  destruct (update_fits _ _ _ _ m Hr) as (h & E & Hr').
  { by rewrite zlen_nil. }
  { intros [Hlt _]. discriminate Hlt. }
  exists h. split; [done|]. unfold blake3_hasher_finalize, blake3_hash.
  destruct (Z.eq_dec out_len 0) as [->|Hne]; [done|].
  by apply (finalize_repr key fl h m).
Qed.

Lemma blake3_one_shot_witness :
  exists h,
    blake3_hasher_update (blake3_hasher_init (zeros cv_stack_size)) [97; 98; 99]
      = Some h /\
    blake3_hasher_finalize h 32 = Some (blake3_hash IV 0 [97; 98; 99] 32).
Proof.
  apply (blake3_one_shot (zeros cv_stack_size) IV [97; 98; 99] 0 32);
    vm_compute; reflexivity.
Defined.

(** C1. However the message is cut into pieces, if every call of
    [blake3_hasher_update] stays inside the stack then the digest is the
    reference hash of the whole message. *)
Theorem blake3_streaming (stack key : list Z) (fl out_len : Z)
    (pieces : list (list Z)) (h : blake3_hasher)
    (Hstack : zlen stack = cv_stack_size)
    (Hlen : zlen (concat pieces) < 2 ^ 64)
    (Hrun : updates (hasher_init_base stack key fl) pieces = Some h) :
  blake3_hasher_finalize h out_len =
  Some (blake3_hash key fl (concat pieces) out_len).
Proof.
  pose proof (hasher_init_repr stack key fl Hstack) as Hr.
  eapply updates_repr in Hr; [|by rewrite zlen_nil|exact Hrun].
  unfold blake3_hasher_finalize, blake3_hash.
  destruct (Z.eq_dec out_len 0) as [->|Hne]; [done|].
  by apply (finalize_repr key fl h (concat pieces)).
Qed.

Lemma blake3_streaming_witness :
  exists h,
    updates (blake3_hasher_init (zeros cv_stack_size)) [[97]; []; [98; 99]]
      = Some h /\
    blake3_hasher_finalize h 32 = Some (blake3_hash IV 0 [97; 98; 99] 32).
Proof.
  eexists. split; [vm_compute; reflexivity|].
  apply (blake3_streaming (zeros cv_stack_size) IV 0 32 [[97]; []; [98; 99]]);
    vm_compute; reflexivity.
Defined.

(** C39. Exactly when an update leaves the bounds of the stack: the hasher holds
    a partly filled chunk and the input runs past its end.
    ([chunk_state_reset] then restarts the chunk counter at 0 and the next
    merge pops below the stack.) *)
Theorem blake3_update_bounds (key m i : list Z) (fl : Z) (h : blake3_hasher)
    (Hr : hasher_repr key fl h m) (Hlen : zlen m + zlen i < 2 ^ 64) :
  blake3_hasher_update h i = None <->
  0 < chunk_state_len (chunk h) /\
  BLAKE3_CHUNK_LEN < chunk_state_len (chunk h) + zlen i.
Proof.
  split.
  - intros E.
    destruct (decide (0 < chunk_state_len (chunk h) /\
      BLAKE3_CHUNK_LEN < chunk_state_len (chunk h) + zlen i)) as [|Hno]; [done|].
    destruct (update_fits _ _ _ _ i Hr Hlen Hno) as (h' & ? & _). congruence.
  - intros [H1 H2]. pose proof (zlen_nonneg i).
    by apply (update_crosses key fl h m); [|lia|..].
Qed.

Lemma blake3_update_bounds_witness :
  hasher_repr IV 0 (blake3_hasher_init (zeros cv_stack_size)) [] /\
  blake3_hasher_update (blake3_hasher_init (zeros cv_stack_size)) [1; 2] <> None.
Proof.
  assert (hasher_repr IV 0 (blake3_hasher_init (zeros cv_stack_size)) []) as Hr
    by (apply hasher_init_repr; vm_compute; reflexivity).
  split; [exact Hr|]. intros E.
  apply (blake3_update_bounds IV [] [1; 2] 0 _ Hr) in E;
    [|vm_compute; reflexivity].
  destruct E as [E _]. vm_compute in E. discriminate E.
Defined.

Lemma even_blocks_hash (stack key last : list Z) (fl out_len : Z)
    (blocks : list (list Z))
    (Hstack : zlen stack = cv_stack_size)
    (Hblocks : Forall (fun b => (2 * BLAKE3_CHUNK_LEN | zlen b)) blocks)
    (Hlen : zlen (concat blocks ++ last) < 2 ^ 64) :
  exists h,
    updates (hasher_init_base stack key fl) (blocks ++ [last]) = Some h /\
    blake3_hasher_finalize h out_len =
    Some (blake3_hash key fl (concat blocks ++ last) out_len).
Proof.
  rewrite zlen_app in Hlen. pose proof (zlen_nonneg last).
  destruct (hasher_init_repr stack key fl Hstack) as (segs & c & Ha).
  pose proof (hasher_at_len _ _ _ _ _ _ Ha) as (E & El & _).
  rewrite zlen_nil in E.
  pose proof (chunks_nonneg segs) as Hnn. pose proof (zlen_nonneg c).
  assert (c = []) as -> by (apply zlen_zero; b3_unfold; lia).
  destruct (updates_even key fl _ segs [] blocks Ha) as (h1 & segs1 & E1 & Ha1);
    [|done|rewrite zlen_nil; lia|].
  { assert (chunks segs = 0) as -> by (b3_unfold; lia). apply Z.divide_0_r. }
  destruct (update_fits key fl h1 (concat blocks) last) as (h & E2 & Hr);
    [by exists segs1, []|done| |].
  { destruct (hasher_at_len _ _ _ _ _ _ Ha1) as (_ & -> & _). by intros []. }
  exists h. rewrite updates_app, E1. cbn [mbind option_bind updates].
  rewrite E2. split; [done|]. unfold blake3_hasher_finalize, blake3_hash.
  destruct (Z.eq_dec out_len 0) as [->|Hne]; [done|].
  by apply (finalize_repr key fl).
Qed.

(** A message read in blocks that are whole pairs of chunks, the last one
    of any size (as [DigestContext] reads a file in 64 KiB blocks), is hashed
    without leaving the bounds. *)
Theorem blake3_block_reads (stack key last : list Z) (fl out_len : Z)
    (blocks : list (list Z))
    (Hstack : zlen stack = cv_stack_size)
    (Hblocks : Forall (fun b => (2 * BLAKE3_CHUNK_LEN | zlen b)) blocks)
    (Hlen : zlen (concat blocks ++ last) < 2 ^ 64) :
  exists h,
    updates (hasher_init_base stack key fl) (blocks ++ [last]) = Some h /\
    blake3_hasher_finalize h out_len =
    Some (blake3_hash key fl (concat blocks ++ last) out_len).
Proof. by apply even_blocks_hash. Qed.

Lemma blake3_block_reads_witness :
  exists h,
    updates (blake3_hasher_init (zeros cv_stack_size)) [zeros 2048; [7]] = Some h
    /\ blake3_hasher_finalize h 32 = Some (blake3_hash IV 0 (zeros 2048 ++ [7]) 32).
Proof.
  apply (blake3_block_reads (zeros cv_stack_size) IV [7] 0 32 [zeros 2048]).
  - vm_compute; reflexivity.
  - constructor; [exists 1; vm_compute; reflexivity|constructor].
  - vm_compute; reflexivity.
Defined.

(** A digest of [n] bytes is a list of [n] values between 0 and 255. *)
Theorem blake3_digest_bytes (key m : list Z) (fl n : Z) (Hn : 0 <= n) :
  zlen (blake3_hash key fl m n) = n /\ Forall is_byte (blake3_hash key fl m n).
Proof.
  unfold blake3_hash, output_root_bytes. apply output_root_loop_bytes; [done|lia].
Qed.

Lemma blake3_digest_bytes_witness :
  0 <= BLAKE3_OUT_LEN /\ zlen (blake3_hash IV 0 [] BLAKE3_OUT_LEN) = BLAKE3_OUT_LEN.
Proof.
  split; [vm_compute; discriminate|]. apply blake3_digest_bytes.
  vm_compute; discriminate.
Defined.

(** The reference on known answers: the empty message and one of a chunk,
    whose standard BLAKE3 hashes do not involve a chunk counter. *)
Example blake3_empty :
  blake3_hash IV 0 [] 4 = [0xaf; 0x13; 0x49; 0xb9].
Proof. vm_compute. reflexivity. Qed.

Example blake3_one_chunk :
  blake3_hash IV 0 (map (fun i => Z.of_nat i mod 251) (seq 0 1024)) 4
  = [0x42; 0x21; 0x47; 0x39].
Proof. vm_compute. reflexivity. Qed.
