(* ===== verification/Digest.v ===== *)
(** * Digests

    [buildboxcommon_protos.h]: the message [Digest], its comparison operators,
    its hash and its textual form, and the interface through which the rest of
    the library hashes blobs. *)

From S2P Require Import Prelude StdMap Arrays.
Open Scope Z_scope.

(** The protobuf message: a hexadecimal hash, the size of the blob and, for
    BLAKE3ZCC, the raw bytes of the hash.  Fields left unset are empty. *)
Record Digest := MkDigest {
  hash_other : str;
  size_bytes : Z;
  hash_blake3zcc : list Z;
}.

#[global] Instance Digest_eq_dec : EqDecision Digest.
Proof. solve_decision. Defined.

Definition empty_digest : Digest := MkDigest [] 0 [].

(** [operator==]. *)
Definition digest_eqb (a b : Digest) : bool :=
  bool_decide (hash_other a = hash_other b) && (size_bytes a =? size_bytes b).

(** [operator!=]. *)
Definition digest_neqb (a b : Digest) : bool := negb (digest_eqb a b).

(** [operator<]. *)
Definition digest_ltb (a b : Digest) : bool :=
  if bool_decide (hash_other a <> hash_other b)
  then str_ltb (hash_other a) (hash_other b)
  else size_bytes a <? size_bytes b.

(** [std::hash<Digest>], over the standard library's hash of strings. *)
Definition digest_hash (std_hash : str -> Z) (d : Digest) : Z :=
  std_hash (hash_other d).

Definition digest_toString (d : Digest) : str :=
  hash_other d ++ L "/" ++ to_string (size_bytes d).

(** The contents of a string as bytes. *)
Definition str_bytes (s : str) : list Z := map (fun c => Z.of_N (byte_val c)) s.

Lemma zlen_str_bytes s : zlen (str_bytes s) = zlen s.
Proof. unfold zlen, str_bytes. by rewrite length_map. Qed.

Lemma str_bytes_app s t : str_bytes (s ++ t) = str_bytes s ++ str_bytes t.
Proof. apply map_app. Qed.

Lemma str_bytes_range s : Forall (fun b => 0 <= b < 256) (str_bytes s).
Proof.
  unfold str_bytes. apply Forall_map, Forall_true. intros c.
  pose proof (N_ascii_bounded c). unfold byte_val; simpl. lia.
Qed.

(** ** Equality of digests as the program sees it *)

Definition digest_equiv (a b : Digest) : Prop := digest_eqb a b = true.

Lemma digest_eqb_spec a b :
  digest_eqb a b = true <->
  hash_other a = hash_other b /\ size_bytes a = size_bytes b.
Proof.
  unfold digest_eqb. rewrite andb_true_iff, bool_decide_eq_true, Z.eqb_eq. done.
Qed.

#[global] Instance digest_equiv_equivalence : Equivalence digest_equiv.
Proof.
  unfold digest_equiv. split.
  - intros a. by apply digest_eqb_spec.
  - intros a b. rewrite !digest_eqb_spec. by intros [-> ->].
  - intros a b c. rewrite !digest_eqb_spec. by intros [-> ->] [-> ->].
Qed.

#[global] Instance digest_ltb_proper :
  Proper (digest_equiv ==> digest_equiv ==> eq) digest_ltb.
Proof.
  intros a a' [Ha Sa]%digest_eqb_spec b b' [Hb Sb]%digest_eqb_spec.
  unfold digest_ltb. by rewrite Ha, Hb, Sa, Sb.
Qed.

#[global] Instance digest_hash_proper f :
  Proper (digest_equiv ==> eq) (digest_hash f).
Proof.
  intros a a' [Ha _]%digest_eqb_spec. unfold digest_hash. by rewrite Ha.
Qed.

#[global] Instance digest_toString_proper :
  Proper (digest_equiv ==> eq) digest_toString.
Proof.
  intros a a' [Ha Sa]%digest_eqb_spec. unfold digest_toString. by rewrite Ha, Sa.
Qed.

Lemma str_lt_asym a b : str_lt a b -> ~ str_lt b a.
Proof. intros H1 H2. eapply str_lt_irrefl, str_lt_trans; eassumption. Qed.

Lemma digest_ltb_cases a b :
  digest_ltb a b = true <->
  str_lt (hash_other a) (hash_other b) \/
  (hash_other a = hash_other b /\ size_bytes a < size_bytes b).
Proof.
  unfold digest_ltb. case_bool_decide as E.
  - rewrite str_ltb_spec. split; [by left|by intros [?|[? _]]].
  - rewrite Z.ltb_lt, E. split; [by right|].
    intros [H|[_ H]]; [by apply str_lt_irrefl in H|done].
Qed.

Lemma digest_ltb_trans a b c :
  digest_ltb a b && digest_ltb b c = true -> digest_ltb a c = true.
Proof.
  rewrite andb_true_iff, !digest_ltb_cases.
  intros [[H1|[-> H1]] [H2|[<- H2]]]; auto; [|right; split; [done|lia]].
  left. by eapply str_lt_trans.
Qed.

(** ** What a container keyed by [Digest] keeps apart *)

(** The part of a digest that [operator==] and [std::hash] look at: the key
    of an [unordered_map<Digest, V>]. *)
Definition digest_key (d : Digest) : str * Z := (hash_other d, size_bytes d).

Lemma digest_key_spec a b : digest_key a = digest_key b <-> digest_equiv a b.
Proof.
  unfold digest_equiv, digest_key. rewrite digest_eqb_spec. split; [by intros [= -> ->]|by intros [-> ->]].
Qed.

(** ** The interface of the hash functions

    [CASHash::hash], with the function that the library was built with.  The
    implementation is [CasHash]. *)
Class DigestFunction := {
  digest_of : str -> Digest;
  digest_of_size : forall s, size_bytes (digest_of s) = zlen s;
}.

(** [d_digestGenerator] of a client, which checks what is downloaded.  It is made
    with its default argument, so its function is SHA256 in every build. *)
Class ClientDigestFunction := {
  client_digest_of : str -> Digest;
  client_digest_of_size : forall s, size_bytes (client_digest_of s) = zlen s;
}.

(** The library was built with the function that clients use. *)
Class SameDigestFunction `{DigestFunction} `{ClientDigestFunction} : Prop :=
  same_digests : forall s, digest_equiv (client_digest_of s) (digest_of s).

(** ** Properties *)

(** [operator<] is a strict total order on digests up to [operator==]:
    exactly one of [a < b], [a == b], [b < a] holds, and it is transitive, so
    ordered containers keyed by [Digest] are well defined. *)
Theorem digest_order (a b c : Digest) :
  ((digest_ltb a b = true /\ digest_eqb a b = false /\ digest_ltb b a = false) \/
   (digest_ltb a b = false /\ digest_eqb a b = true /\ digest_ltb b a = false) \/
   (digest_ltb a b = false /\ digest_eqb a b = false /\ digest_ltb b a = true)) /\
  (digest_ltb a b && digest_ltb b c = true -> digest_ltb a c = true).
Proof.
  split; [|apply digest_ltb_trans].
  rewrite <- !not_true_iff_false, !digest_ltb_cases, digest_eqb_spec.
  destruct (str_lt_trichotomy (hash_other a) (hash_other b)) as [H|[H|H]].
  - left. pose proof (str_lt_asym _ _ H).
    assert (hash_other a <> hash_other b)
      by (intros E; rewrite E in H; by apply str_lt_irrefl in H).
    intuition.
  - rewrite H. pose proof (str_lt_irrefl (hash_other b)).
    destruct (Z.lt_trichotomy (size_bytes a) (size_bytes b)) as [S|[S|S]];
      [left|right; left|right; right]; intuition (try done; try lia).
  - right; right. pose proof (str_lt_asym _ _ H).
    assert (hash_other a <> hash_other b)
      by (intros E; rewrite E in H; by apply str_lt_irrefl in H).
    intuition.
Qed.

(** The comparison operators, the hash and the textual form of a digest do
    not look at [hash_blake3zcc]: two digests that differ only there are equal
    to every container and every check of the library. *)
Theorem digest_ignores_blake3 (std_hash : str -> Z) (h : str) (n : Z)
    (b1 b2 : list Z) :
  let d1 := MkDigest h n b1 in
  let d2 := MkDigest h n b2 in
  digest_eqb d1 d2 = true /\ digest_neqb d1 d2 = false /\
  digest_ltb d1 d2 = false /\ digest_hash std_hash d1 = digest_hash std_hash d2 /\
  digest_toString d1 = digest_toString d2.
Proof.
  intros d1 d2. assert (digest_equiv d1 d2) as E by (by apply digest_eqb_spec).
  split; [done|]. unfold digest_neqb. rewrite E. split; [done|].
  split; [|by rewrite E]. rewrite E. unfold digest_ltb.
  case_bool_decide; [done|]. apply Z.ltb_irrefl.
Qed.

Lemma digest_order_witness :
  let a := MkDigest (L "aa") 1 [] in
  let b := MkDigest (L "aa") 2 [] in
  let c := MkDigest (L "b") 0 [] in
  digest_ltb a b && digest_ltb b c = true /\ digest_ltb a c = true.
Proof.
  intros a b c. split; [vm_compute; reflexivity|].
  apply (proj2 (digest_order a b c)). vm_compute. reflexivity.
Defined.

(** A toy digest function, for the examples: a blob is its own hash. *)
Definition toy_digests : DigestFunction :=
  {| digest_of s := MkDigest s (zlen s) []; digest_of_size s := eq_refl |}.

(** A client with the same function. *)
Definition toy_client_digests : ClientDigestFunction :=
  {| client_digest_of s := MkDigest s (zlen s) []; client_digest_of_size s := eq_refl |}.

Lemma toy_same_digests : @SameDigestFunction toy_digests toy_client_digests.
Proof. intros s. by apply digest_eqb_spec. Qed.
