(* ===== verification/CasHash.v ===== *)
(** * Hashing blobs and files

    [buildboxcommon_cashash.cpp]: [DigestContext], a small state machine over
    an OpenSSL context or a BLAKE3ZCC hasher, and [DigestGenerator], which
    feeds it a string or a file.  OpenSSL's [EVP] functions are parameters.

    An operation returns [None] when the hasher would leave the bounds of its
    arrays, [Some (Throw e)] when it throws. *)

From S2P Require Import Prelude StdMap Arrays Blake3Compress Blake3 Digest.
Open Scope Z_scope.

(** ** Undefined behaviour on top of exceptions *)

Definition ub (A : Type) : Type := option (res A).

Definition ub_bind {A B} (m : ub A) (k : A -> ub B) : ub B :=
  match m with
  | None => None
  | Some (Throw e) => Some (Throw e)
  | Some (Ok a) => k a
  end.

Notation "'do!' x ':=' r 'in' k" := (ub_bind r (fun x => k))
  (at level 10, x pattern, r at level 100, k at level 200) : buildbox_scope.

Definition ub_ret {A} (a : A) : ub A := Some (Ok a).
Definition ub_throw {A} (e : exn) : ub A := Some (Throw e).

(** ** [hashToHex] *)

(** [std::hex] of a nonnegative integer. *)
Definition hex_digit (n : Z) : ascii :=
  nth (Z.to_nat n) (L "0123456789abcdef") "?"%char.

Fixpoint std_hex (fuel : nat) (n : Z) : str :=
  match fuel with
  | O => [hex_digit (n mod 16)]
  | S fuel =>
      if n <? 16 then [hex_digit n]
      else std_hex fuel (n / 16) ++ [hex_digit (n mod 16)]
  end.

(** [std::setw(w) << std::setfill('0')]. *)
Definition pad_left (w : nat) (s : str) : str :=
  replicate (w - length s) "0"%char ++ s.

Definition hashToHex (hash_buffer : list Z) : str :=
  hash_buffer ≫= fun b => pad_left 2 (std_hex 8 b).

(** ** Digest functions *)

Inductive DigestFunction_Value :=
  | DigestFunction_UNKNOWN | SHA256 | SHA1 | MD5 | VSO | SHA384 | SHA512 | MURMUR3
  | BLAKE3ZCC.

#[global] Instance DigestFunction_Value_eq_dec : EqDecision DigestFunction_Value.
Proof. solve_decision. Defined.

Definition s_supportedDigestFunctions : list DigestFunction_Value :=
  [MD5; SHA1; SHA256; SHA384; SHA512; BLAKE3ZCC].

Inductive EVP_MD := EVP_md5 | EVP_sha1 | EVP_sha256 | EVP_sha384 | EVP_sha512.

(** [NULL] is [None]. *)
Definition getDigestFunctionStruct (digest_function_value : DigestFunction_Value)
  : res (option EVP_MD) :=
  match digest_function_value with
  | MD5 => Ok (Some EVP_md5)
  | SHA1 => Ok (Some EVP_sha1)
  | SHA256 => Ok (Some EVP_sha256)
  | SHA384 => Ok (Some EVP_sha384)
  | SHA512 => Ok (Some EVP_sha512)
  | BLAKE3ZCC => Ok None
  | _ => Throw RuntimeError
  end.

(** The outcome of one [read] into the file buffer; [ReadBytes \[\]] is 0,
    the end of the file. *)
Inductive read_result :=
  | ReadBytes (data : list Z)
  | ReadError (errno : Z).

(** [static_cast<int64>] of a [size_t]. *)
Definition i64 (x : Z) : Z := if x <? 2 ^ 63 then x else x - 2 ^ 64.

Definition HASH_BUFFER_SIZE_BYTES : Z := 1024 * 64.

Section cashash.
(** OpenSSL: a context, [EVP_MD_CTX_create], and the three functions that
    return 0 ([None]) on failure. *)
Context {EVP_MD_CTX : Type}.
Context (EVP_MD_CTX_create : option EVP_MD_CTX).
Context (EVP_DigestInit_ex : EVP_MD_CTX -> EVP_MD -> option EVP_MD_CTX).
Context (EVP_DigestUpdate : EVP_MD_CTX -> list Z -> option EVP_MD_CTX).
Context (EVP_DigestFinal_ex : EVP_MD_CTX -> option (list Z)).

Definition throwIfNotSuccessful {A} (status : option A) : res A :=
  match status with Some a => Ok a | None => Throw RuntimeError end.

(** ** [DigestContext] *)

Record DigestContext := MkDigestContext {
  d_context : option EVP_MD_CTX;
  d_data_size : Z;
  d_finalized : bool;
  b : blake3_hasher;
}.

(** [uninit] is the content of the uninitialised member [b]. *)
Definition DigestContext_new (uninit : blake3_hasher) : res DigestContext :=
  match EVP_MD_CTX_create with
  | Some ctx => Ok (MkDigestContext (Some ctx) 0 false uninit)
  | None => Throw RuntimeError
  end.

Definition DigestContext_init (self : DigestContext)
    (digestFunctionStruct : option EVP_MD) : res DigestContext :=
  match digestFunctionStruct with
  | Some md =>
      match d_context self with
      | Some ctx =>
          let! ctx := throwIfNotSuccessful (EVP_DigestInit_ex ctx md) in
          Ok (MkDigestContext (Some ctx) (d_data_size self) (d_finalized self)
                (b self))
      | None => Throw RuntimeError
      end
  | None =>
      Ok (MkDigestContext None (d_data_size self) (d_finalized self)
            (blake3_hasher_init (cv_stack (b self))))
  end.

Definition DigestContext_update (self : DigestContext) (data : list Z)
  : ub DigestContext :=
  if d_finalized self then ub_throw RuntimeError
  else
    do! self :=
      match d_context self with
      | Some ctx =>
          match throwIfNotSuccessful (EVP_DigestUpdate ctx data) with
          | Ok ctx =>
              ub_ret (MkDigestContext (Some ctx) (d_data_size self)
                        (d_finalized self) (b self))
          | Throw e => ub_throw e
          end
      | None =>
          match blake3_hasher_update (b self) data with
          | Some b =>
              ub_ret (MkDigestContext None (d_data_size self)
                        (d_finalized self) b)
          | None => None
          end
      end in
    ub_ret (MkDigestContext (d_context self) (u64 (d_data_size self + zlen data))
              (d_finalized self) (b self)).

(** The digest and the context, now finalized. *)
Definition DigestContext_finalizeDigest (self : DigestContext)
  : ub (Digest * DigestContext) :=
  if d_finalized self then ub_throw RuntimeError
  else
    do! digest :=
      match d_context self with
      | Some ctx =>
          match throwIfNotSuccessful (EVP_DigestFinal_ex ctx) with
          | Ok hash_buffer =>
              ub_ret (MkDigest (hashToHex hash_buffer) 0 [])
          | Throw e => ub_throw e
          end
      | None =>
          match blake3_hasher_finalize (b self) BLAKE3_OUT_LEN with
          | Some hash_buffer => ub_ret (MkDigest [] 0 hash_buffer)
          | None => None
          end
      end in
    ub_ret
      (MkDigest (hash_other digest) (i64 (d_data_size self))
         (hash_blake3zcc digest),
       MkDigestContext (d_context self) (d_data_size self) true (b self)).

(** ** [DigestGenerator] *)

Record DigestGenerator := MkDigestGenerator {
  d_digestFunction : DigestFunction_Value;
  d_digestFunctionStruct : option EVP_MD;
}.

Definition DigestGenerator_new (digest_function : DigestFunction_Value)
  : res DigestGenerator :=
  let! md := getDigestFunctionStruct digest_function in
  Ok (MkDigestGenerator digest_function md).

Definition createDigestContext (self : DigestGenerator) (uninit : blake3_hasher)
  : res DigestContext :=
  let! context := DigestContext_new uninit in
  DigestContext_init context (d_digestFunctionStruct self).

Definition lift_res {A} (r : res A) : ub A := Some r.

Definition hash_string (self : DigestGenerator) (uninit : blake3_hasher)
    (data : str) : ub Digest :=
  do! digest_context := lift_res (createDigestContext self uninit) in
  do! digest_context := DigestContext_update digest_context (str_bytes data) in
  do! (digest, _) := DigestContext_finalizeDigest digest_context in
  ub_ret digest.

(** The loop of [processFile] over the outcomes of [read], the total number of
    bytes read and the state of the captured context. *)
Fixpoint processFile_loop (update_function : DigestContext -> list Z -> ub DigestContext)
    (reads : list read_result) (total_bytes_read : Z) (captured : DigestContext)
  : ub (Z * DigestContext) :=
  match reads with
  | [] => ub_ret (total_bytes_read, captured)
  | ReadError errno :: _ => ub_throw (SystemError errno)
  | ReadBytes data :: reads =>
      if 0 <? zlen data then
        do! captured := update_function captured data in
        processFile_loop update_function reads (total_bytes_read + zlen data)
          captured
      else ub_ret (total_bytes_read, captured)
  end.

Definition processFile (reads : list read_result)
    (update_function : DigestContext -> list Z -> ub DigestContext)
    (captured : DigestContext) : ub (Z * DigestContext) :=
  processFile_loop update_function reads 0 captured.

Definition hash_fd (self : DigestGenerator) (uninit : blake3_hasher)
    (reads : list read_result) : ub Digest :=
  do! digest_context := lift_res (createDigestContext self uninit) in
  do! (_, digest_context) :=
    processFile reads DigestContext_update digest_context in
  do! (digest, _) := DigestContext_finalizeDigest digest_context in
  ub_ret digest.

(** [CASHash] is the generator for the configured function. *)
Definition CASHash_hash (s_digestFunctionValue : DigestFunction_Value)
    (uninit : blake3_hasher) (data : str) : ub Digest :=
  do! g := lift_res (DigestGenerator_new s_digestFunctionValue) in
  hash_string g uninit data.

Definition CASHash_hash_fd (s_digestFunctionValue : DigestFunction_Value)
    (uninit : blake3_hasher) (reads : list read_result) : ub Digest :=
  do! g := lift_res (DigestGenerator_new s_digestFunctionValue) in
  hash_fd g uninit reads.

(** [open] gives an error or the reads of the file; the descriptor is closed
    on both paths. *)
Definition CASHash_hashFile (s_digestFunctionValue : DigestFunction_Value)
    (uninit : blake3_hasher) (file : Z + list read_result) : ub Digest :=
  match file with
  | inl errno => ub_throw (SystemError errno)
  | inr reads => CASHash_hash_fd s_digestFunctionValue uninit reads
  end.

End cashash.
