(* ===== verification/CasHashSpec.v ===== *)
(** * What hashing promises

    The hexadecimal form is invertible, a digest context is a one-shot state
    machine, and hashing a file read in pieces gives the digest of the string
    it contains, for the OpenSSL functions and for BLAKE3ZCC. *)

From S2P Require Import Prelude StdMap Arrays Blake3Compress Blake3 Blake3Chunk Blake3Tree Blake3Stack Blake3Hasher Blake3Spec Digest CasHash.
Open Scope Z_scope.

#[local] Opaque output_root_bytes blake3_tree blake3_hasher_update.

(** ** Decoding hexadecimal text *)

Definition hex_value (c : ascii) : option Z :=
  match list_find (fun x => x = c) (L "0123456789abcdef") with
  | Some (i, _) => Some (Z.of_nat i)
  | None => None
  end.

Fixpoint hex_decode (s : str) : option (list Z) :=
  match s with
  | [] => Some []
  | [_] => None
  | c :: d :: s =>
      x ← hex_value c; y ← hex_value d; rest ← hex_decode s;
      Some (16 * x + y :: rest)
  end.

Lemma byte_hex x :
  is_byte x ->
  pad_left 2 (std_hex 8 x) = [hex_digit (x / 16); hex_digit (x mod 16)].
Proof.
  intros Hx. unfold is_byte in Hx. cbn [std_hex].
  destruct (Z.ltb_spec x 16).
  - by rewrite Z.div_small, Z.mod_small by lia.
  - assert (x / 16 < 16) by (apply Z.div_lt_upper_bound; lia).
    by destruct (Z.ltb_spec (x / 16) 16); [|lia].
Qed.

Lemma hex_value_digit n : 0 <= n < 16 -> hex_value (hex_digit n) = Some n.
Proof.
  intros Hn. assert (exists k, (k < 16)%nat /\ n = Z.of_nat k) as (k & Hk & ->).
  { exists (Z.to_nat n). lia. }
  do 16 (destruct k as [|k]; [reflexivity|]). lia.
Qed.

Lemma hex_round_trip_aux bytes :
  Forall is_byte bytes -> hex_decode (hashToHex bytes) = Some bytes.
Proof.
  induction 1 as [|x bytes Hx _ IH]; [done|].
  unfold hashToHex in *. cbn [mbind list_bind]. rewrite byte_hex by done.
  cbn [app hex_decode]. unfold is_byte in Hx.
  rewrite !hex_value_digit, IH; cbn [mbind option_bind].
  - do 2 f_equal. pose proof (Z.div_mod x 16). lia.
  - split; [apply Z.div_pos; lia|apply Z.div_lt_upper_bound; lia].
  - by apply Z.mod_pos_bound.
Qed.

(** The hexadecimal text of a hash determines its bytes: decoding it gives
    them back, so two different hashes never print alike. *)
Theorem hashToHex_round_trip (bytes : list Z) (Hb : Forall is_byte bytes) :
  hex_decode (hashToHex bytes) = Some bytes /\
  zlen (hashToHex bytes) = 2 * zlen bytes.
Proof.
  split; [by apply hex_round_trip_aux|].
  induction Hb as [|x bytes Hx _ IH]; [done|].
  unfold hashToHex in *. cbn [mbind list_bind].
  rewrite byte_hex by done. rewrite zlen_app, IH, !zlen_cons, zlen_nil. lia.
Qed.

Lemma hashToHex_round_trip_witness :
  Forall is_byte [0; 10; 255] /\ hex_decode (hashToHex [0; 10; 255]) = Some [0; 10; 255].
Proof.
  assert (Forall is_byte [0; 10; 255]) as H
    by (repeat constructor; vm_compute; discriminate).
  split; [exact H|]. apply (hashToHex_round_trip [0; 10; 255] H).
Defined.

(** ** OpenSSL's contract

    The incremental interface: a context that was initialised for [md] and fed
    the pieces of [m] finalizes to the digest of [m]. *)
Class EVP_law {CTX : Type} (create : option CTX) (init : CTX -> EVP_MD -> option CTX)
    (update : CTX -> list Z -> option CTX) (final : CTX -> option (list Z))
    (evp_digest : EVP_MD -> list Z -> list Z) := {
  evp_fed : CTX -> EVP_MD -> list Z -> Prop;
  evp_create_ok : is_Some create;
  evp_init_ok ctx md : exists ctx', init ctx md = Some ctx' /\ evp_fed ctx' md [];
  evp_update_ok ctx md m d :
    evp_fed ctx md m -> exists ctx', update ctx d = Some ctx' /\ evp_fed ctx' md (m ++ d);
  evp_final_ok ctx md m : evp_fed ctx md m -> final ctx = Some (evp_digest md m);
}.

Section spec.
Context {CTX : Type} (create : option CTX) (init : CTX -> EVP_MD -> option CTX)
  (update : CTX -> list Z -> option CTX) (final : CTX -> option (list Z))
  (evp_digest : EVP_MD -> list Z -> list Z)
  `{!EVP_law create init update final evp_digest}.

(** What a context has been fed. *)
Definition context_at (md : option EVP_MD) (self : DigestContext) (m : list Z)
  : Prop :=
  d_finalized self = false /\ d_data_size self = zlen m /\
  match md, d_context self with
  | Some md, Some ctx => evp_fed ctx md m
  | None, None => hasher_repr IV 0 (b self) m
  | _, _ => False
  end.

(** The digest of a blob under a digest function. *)
Definition digest_spec (md : option EVP_MD) (m : list Z) : Digest :=
  match md with
  | Some md => MkDigest (hashToHex (evp_digest md m)) (zlen m) []
  | None => MkDigest [] (zlen m) (blake3_hash IV 0 m BLAKE3_OUT_LEN)
  end.

Lemma create_context g uninit :
  zlen (cv_stack uninit) = cv_stack_size ->
  exists c, createDigestContext create init g uninit = Ok c /\
    context_at (d_digestFunctionStruct g) c [].
Proof.
  intros Hs. unfold createDigestContext, DigestContext_new.
  destruct (evp_create_ok (final:=final)) as [ctx Ec]. rewrite Ec. cbn [res_bind].
  unfold DigestContext_init. cbn.
  destruct (d_digestFunctionStruct g) as [md|].
  - destruct (evp_init_ok (final:=final) ctx md) as (ctx' & -> & Hfed). cbn.
    eexists. split; [reflexivity|]. done.
  - eexists. split; [reflexivity|]. split; [done|]. split; [done|].
    by apply hasher_init_repr.
Qed.

Lemma context_finalize md c m :
  context_at md c m -> zlen m < 2 ^ 63 ->
  exists c', DigestContext_finalizeDigest final c = ub_ret (digest_spec md m, c') /\
    d_finalized c' = true.
Proof.
  intros (Hf & Hs & Hc) Hm. unfold DigestContext_finalizeDigest. rewrite Hf, Hs.
  assert (i64 (zlen m) = zlen m) as Ei
    by (unfold i64; by rewrite (proj2 (Z.ltb_lt _ _) Hm)).
  destruct md as [md|], (d_context c) as [ctx|]; try done.
  - rewrite (evp_final_ok (final:=final) _ md m Hc). cbn. rewrite Ei.
    eexists. split; [reflexivity|done].
  - unfold blake3_hasher_finalize.
    rewrite (finalize_repr IV 0 (b c) m) by done. cbn [ub_bind ub_ret].
    cbn [hash_other size_bytes hash_blake3zcc]. rewrite Ei.
    eexists. split; [reflexivity|done].
Qed.

(** One update, when the hasher stays within its stack. *)
Lemma context_update md c m d h :
  context_at md c m -> zlen m + zlen d < 2 ^ 63 ->
  (md = None -> blake3_hasher_update (b c) d = Some h) ->
  exists c', DigestContext_update update c d = ub_ret c' /\
    context_at md c' (m ++ d) /\ (md = None -> b c' = h).
Proof.
  intros (Hf & Hs & Hc) Hm Hb. pose proof (zlen_nonneg m). pose proof (zlen_nonneg d).
  assert (u64 (zlen m + zlen d) = zlen m + zlen d) as Eu
    by (unfold u64; apply Z.mod_small; lia).
  unfold DigestContext_update, context_at. rewrite Hf, zlen_app.
  destruct md as [md|], (d_context c) as [ctx|]; try done.
  - destruct (evp_update_ok (final:=final) ctx md m d Hc) as (ctx' & -> & Hfed).
    cbn. rewrite Hs, Eu. eexists. split; [reflexivity|]. done.
  - rewrite (Hb eq_refl). cbn. rewrite Hs, Eu. eexists. split; [reflexivity|].
    split; [|done]. split; [done|]. split; [done|].
    destruct (decide (0 < chunk_state_len (chunk (b c)) /\
      BLAKE3_CHUNK_LEN < chunk_state_len (chunk (b c)) + zlen d)) as [[H1 H2]|Hno].
    + specialize (Hb eq_refl). rewrite (update_crosses IV 0 _ m d Hc) in Hb;
        [done|lia|done|done].
    + destruct (update_fits IV 0 _ m d Hc) as (h' & E & Hr); [lia|done|].
      specialize (Hb eq_refl). rewrite E in Hb. by injection Hb as <-.
Qed.

(** The whole file: [file_reads] is what successive reads of it return. *)
Definition file_reads (pieces : list (list Z)) : list read_result :=
  map ReadBytes pieces ++ [ReadBytes []].

Lemma process_pieces md c m pieces total h :
  context_at md c m -> zlen m + zlen (concat pieces) < 2 ^ 63 ->
  Forall (fun p => p <> []) pieces ->
  (md = None -> updates (b c) pieces = Some h) ->
  exists c', processFile_loop (DigestContext_update update) (file_reads pieces)
      total c = ub_ret (total + zlen (concat pieces), c') /\
    context_at md c' (m ++ concat pieces).
Proof.
  intros Hc Hlen Hne. revert c m total Hc Hlen.
  induction Hne as [|p pieces Hp Hne IH]; intros c m total Hc Hlen Hu.
  - exists c. cbn. by rewrite Z.add_0_r, app_nil_r.
  - cbn [file_reads map app processFile_loop concat] in *. rewrite zlen_app in *.
    pose proof (zlen_nonneg p). pose proof (zlen_nonneg (concat pieces)).
    destruct (Z.ltb_spec 0 (zlen p)) as [_|];
      [|contradict Hp; apply zlen_zero; lia].
    assert (exists h1, (md = None -> blake3_hasher_update (b c) p = Some h1) /\
      (md = None -> updates h1 pieces = Some h)) as (h1 & H1 & H2).
    { cbn [updates] in Hu. destruct md; [by exists h|].
      specialize (Hu eq_refl). destruct (blake3_hasher_update (b c) p) as [h1|]; [|done].
      by exists h1. }
    destruct (context_update md c m p h1 Hc) as (c1 & -> & Hc1 & Hb1); [lia|done|].
    cbn [ub_bind ub_ret].
    destruct (IH c1 (m ++ p) (total + zlen p) Hc1) as (c' & E & Hc').
    { rewrite zlen_app. lia. }
    { intros ->. by rewrite Hb1, H2. }
    exists c'. unfold file_reads in E. rewrite E, <- app_assoc in *.
    split; [|done]. by rewrite Z.add_assoc.
Qed.

Lemma hash_fd_pieces g uninit pieces h :
  zlen (cv_stack uninit) = cv_stack_size ->
  zlen (concat pieces) < 2 ^ 63 -> Forall (fun p => p <> []) pieces ->
  (d_digestFunctionStruct g = None ->
   updates (blake3_hasher_init (cv_stack uninit)) pieces = Some h) ->
  hash_fd create init update final g uninit (file_reads pieces) =
  ub_ret (digest_spec (d_digestFunctionStruct g) (concat pieces)).
Proof.
  intros Hs Hlen Hne Hu. unfold hash_fd.
  destruct (create_context g uninit Hs) as (c & E & Hc).
  assert (d_digestFunctionStruct g = None -> b c = blake3_hasher_init (cv_stack uninit))
    as Hb.
  { intros Hn. unfold createDigestContext, DigestContext_new in E.
    destruct (evp_create_ok (final:=final)) as [ctx Ec]. rewrite Ec in E.
    cbn in E. rewrite Hn in E. by injection E as <-. }
  rewrite E. unfold lift_res. cbn [ub_bind]. unfold processFile.
  destruct (process_pieces _ c [] pieces 0 h Hc) as (c' & -> & Hc'); [done|done|
    by intros Hn; rewrite Hb; auto|].
  cbn [ub_bind ub_ret].
  destruct (context_finalize _ c' _ Hc') as (c'' & -> & _); [done|]. done.
Qed.

Lemma hash_string_ok g uninit s :
  zlen (cv_stack uninit) = cv_stack_size -> zlen s < 2 ^ 63 ->
  hash_string create init update final g uninit s =
  ub_ret (digest_spec (d_digestFunctionStruct g) (str_bytes s)).
Proof.
  intros Hs Hlen. unfold hash_string.
  destruct (create_context g uninit Hs) as (c & E & Hc). rewrite E.
  unfold lift_res. cbn [ub_bind]. rewrite <- zlen_str_bytes in Hlen.
  assert (exists h, d_digestFunctionStruct g = None ->
    blake3_hasher_update (b c) (str_bytes s) = Some h) as [h Hh].
  { destruct (d_digestFunctionStruct g) as [md|] eqn:Eg; [by exists uninit|].
    destruct Hc as (_ & _ & Hc). destruct (d_context c); [done|].
    unfold createDigestContext, DigestContext_new in E.
    destruct (evp_create_ok (final:=final)) as [ctx Ec]. rewrite Ec in E.
    cbn in E. rewrite Eg in E. injection E as <-. cbn in *.
    destruct (update_fits IV 0 _ [] (str_bytes s) Hc) as (h' & E & _);
      [rewrite zlen_nil; lia|intros [Hx _]; discriminate Hx|].
    by exists h'. }
  destruct (context_update _ c [] (str_bytes s) h Hc) as (c' & -> & Hc' & _);
    [rewrite zlen_nil; lia|done|]. cbn [ub_bind ub_ret].
  destruct (context_finalize _ c' _ Hc') as (c'' & -> & _); [done|]. done.
Qed.
End spec.

(** ** The interface [DigestFunction] is implemented *)

Lemma digest_spec_size evp_digest md m :
  size_bytes (digest_spec evp_digest md m) = zlen m.
Proof. by destruct md. Qed.

(** The digests [CASHash::hash] computes for one digest function. *)
Definition CASHash_digests (evp_digest : EVP_MD -> list Z -> list Z)
    (md : option EVP_MD) : DigestFunction :=
  {| digest_of s := digest_spec evp_digest md (str_bytes s);
     digest_of_size s :=
       eq_trans (digest_spec_size evp_digest md (str_bytes s)) (zlen_str_bytes s) |}.

(** Those of the generator of a client, which is for SHA256. *)
Definition client_digests (evp_digest : EVP_MD -> list Z -> list Z) : ClientDigestFunction :=
  {| client_digest_of s := digest_spec evp_digest (Some EVP_sha256) (str_bytes s);
     client_digest_of_size s :=
       eq_trans (digest_spec_size evp_digest (Some EVP_sha256) (str_bytes s)) (zlen_str_bytes s) |}.

(** A library that is built for SHA256 has the function that its clients check with. *)
Lemma sha256_same_digests (evp_digest : EVP_MD -> list Z -> list Z) :
  @SameDigestFunction (CASHash_digests evp_digest (Some EVP_sha256)) (client_digests evp_digest).
Proof. intros s. by apply digest_eqb_spec. Qed.

(** A toy implementation of OpenSSL's contract, for the examples. *)
Module ToyEVP.
Definition ctx : Type := EVP_MD * list Z.
Definition create : option ctx := Some (EVP_md5, []).
Definition init (c : ctx) (md : EVP_MD) : option ctx := Some (md, []).
Definition update (c : ctx) (d : list Z) : option ctx := Some (c.1, c.2 ++ d).
Definition digest (md : EVP_MD) (m : list Z) : list Z :=
  [foldr Z.add 0 m mod 256; zlen m mod 256].
Definition final (c : ctx) : option (list Z) := Some (digest c.1 c.2).

#[global] Instance law : EVP_law create init update final digest.
Proof.
  refine {| evp_fed c md m := c = (md, m) |}.
  - by eexists.
  - intros c md. by eexists.
  - intros c md m d ->. by eexists.
  - by intros c md m ->.
Defined.
End ToyEVP.

(** ** Properties *)

(** C36. Hashing a file descriptor gives the digest of the contents, whatever pieces
    [read] returns until the end of the file (an empty file included): for the
    OpenSSL functions always; for BLAKE3ZCC if the pieces before the last one are
    multiples of two BLAKE3 chunks (2048 bytes), as they are when [read] fills the
    buffer of 64 KiB.  (Other pieces may run into the out-of-bounds accesses of the
    hasher.) *)
Theorem hash_fd_is_hash_string {CTX : Type} (create : option CTX)
    (init : CTX -> EVP_MD -> option CTX) (update : CTX -> list Z -> option CTX)
    (final : CTX -> option (list Z)) (evp_digest : EVP_MD -> list Z -> list Z)
    (Hlaw : EVP_law create init update final evp_digest)
    (g : DigestGenerator) (uninit : blake3_hasher) (pieces : list (list Z)) (s : str)
    (Hstack : zlen (cv_stack uninit) = cv_stack_size)
    (Hs : str_bytes s = concat pieces) (Hlen : zlen s < 2 ^ 63)
    (Hread : Forall (fun p => p <> []) pieces)
    (Hblocks : d_digestFunctionStruct g = None ->
               Forall (fun p => (2 * BLAKE3_CHUNK_LEN | zlen p)) (removelast pieces)) :
  hash_fd create init update final g uninit (file_reads pieces) =
  hash_string create init update final g uninit s /\
  hash_string create init update final g uninit s =
  ub_ret (digest_spec evp_digest (d_digestFunctionStruct g) (str_bytes s)).
Proof.
  rewrite (hash_string_ok create init update final evp_digest) by done.
  split; [|done]. rewrite <- zlen_str_bytes in Hlen. rewrite Hs in *.
  destruct pieces as [|last blocks _] using rev_ind.
  { by apply (hash_fd_pieces create init update final evp_digest) with
      (h := blake3_hasher_init (cv_stack uninit)). }
  rewrite removelast_last in Hblocks.
  destruct (d_digestFunctionStruct g) as [md|] eqn:Eg.
  - rewrite <- Eg. apply (hash_fd_pieces create init update final evp_digest) with
      (h := blake3_hasher_init (cv_stack uninit)); [done..|by rewrite Eg].
  - destruct (even_blocks_hash (cv_stack uninit) IV last 0 32 blocks) as (h & Hu & _);
      [done|by apply Hblocks|rewrite concat_app in Hlen; cbn in Hlen; rewrite app_nil_r in Hlen; lia|].
    rewrite <- Eg.
    by apply (hash_fd_pieces create init update final evp_digest) with (h := h).
Qed.

(** A file read in three pieces, and for BLAKE3ZCC one of 2049 bytes in two. *)
Lemma hash_fd_is_hash_string_witness :
  let hash_fd_ := hash_fd ToyEVP.create ToyEVP.init ToyEVP.update ToyEVP.final in
  let hash_string_ := hash_string ToyEVP.create ToyEVP.init ToyEVP.update ToyEVP.final in
  let sha256 := MkDigestGenerator SHA256 (Some EVP_sha256) in
  let blake3zcc := MkDigestGenerator BLAKE3ZCC None in
  let u := blake3_hasher_init (zeros cv_stack_size) in
  hash_fd_ sha256 u (file_reads [[97]; [98; 99]; [100]]) = hash_string_ sha256 u (L "abcd") /\
  hash_fd_ blake3zcc u (file_reads [repeat 97 2048; [98]]) =
  hash_string_ blake3zcc u (repeat "a"%char 2048 ++ L "b").
Proof.
  intros hash_fd_ hash_string_ sha256 blake3zcc u. split.
  - refine (proj1 (hash_fd_is_hash_string _ _ _ _ ToyEVP.digest ToyEVP.law sha256 u
      [[97]; [98; 99]; [100]] (L "abcd") _ _ _ _ _)).
    + vm_compute; reflexivity.
    + vm_compute; reflexivity.
    + vm_compute; reflexivity.
    + repeat constructor; discriminate.
    + discriminate.
  - refine (proj1 (hash_fd_is_hash_string _ _ _ _ ToyEVP.digest ToyEVP.law blake3zcc u
      [repeat 97 2048; [98]] (repeat "a"%char 2048 ++ L "b") _ _ _ _ _)).
    + vm_compute; reflexivity.
    + vm_compute; reflexivity.
    + vm_compute; reflexivity.
    + constructor; [discriminate|]. constructor; [discriminate|constructor].
    + intros _. cbn [removelast]. constructor; [|constructor]. exists 1. vm_compute. reflexivity.
Defined.

(** A digest context yields one digest: once finalized, updating it and
    finalizing it again both throw [std::runtime_error]. *)
Theorem finalized_context_is_closed {CTX : Type}
    (update : CTX -> list Z -> option CTX) (final : CTX -> option (list Z))
    (c c' : DigestContext) (d : Digest)
    (Hfin : DigestContext_finalizeDigest final c = ub_ret (d, c')) :
  d_finalized c = false /\
  (forall data, DigestContext_update update c' data = ub_throw RuntimeError) /\
  DigestContext_finalizeDigest final c' = ub_throw RuntimeError /\
  size_bytes d = i64 (d_data_size c).
Proof.
  unfold DigestContext_finalizeDigest in Hfin.
  destruct (d_finalized c); [done|]. split; [done|].
  assert (d_finalized c' = true /\ size_bytes d = i64 (d_data_size c)) as [Hf Hd].
  { destruct (d_context c).
    - destruct (throwIfNotSuccessful _); [|done]. by injection Hfin as <- <-.
    - destruct (blake3_hasher_finalize _ _); [|done]. by injection Hfin as <- <-. }
  unfold DigestContext_update, DigestContext_finalizeDigest. by rewrite Hf.
Qed.

Lemma finalized_context_is_closed_witness :
  exists c d c',
    DigestContext_finalizeDigest ToyEVP.final c = ub_ret (d, c') /\
    DigestContext_finalizeDigest ToyEVP.final c' = ub_throw RuntimeError.
Proof.
  set (c := MkDigestContext (Some (EVP_md5, [1])) 1 false
              (Hasher [] (chunk_state_init [] 0) 0 [])).
  eexists c, _, _. split; [reflexivity|].
  apply (finalized_context_is_closed ToyEVP.update ToyEVP.final c _ _ eq_refl).
Defined.

(** A generator can be constructed exactly for the supported digest
    functions; any other throws [std::runtime_error]. *)
Theorem supported_functions (f : DigestFunction_Value) :
  (f ∈ s_supportedDigestFunctions ->
   exists g, DigestGenerator_new f = Ok g /\ d_digestFunction g = f) /\
  (f ∉ s_supportedDigestFunctions -> DigestGenerator_new f = Throw RuntimeError).
Proof.
  unfold s_supportedDigestFunctions. split.
  - intros H. destruct f; try (by eexists); exfalso; set_solver.
  - destruct f; intros H; try reflexivity; exfalso; apply H; set_solver.
Qed.

Lemma supported_functions_witness :
  exists g, DigestGenerator_new BLAKE3ZCC = Ok g /\ d_digestFunction g = BLAKE3ZCC.
Proof.
  apply (supported_functions BLAKE3ZCC). unfold s_supportedDigestFunctions.
  do 5 apply list_elem_of_further. apply list_elem_of_here.
Defined.

(** With BLAKE3ZCC configured, [CASHash::hash] gives digests that compare
    equal to any two blobs of the same size, because only [hash_blake3zcc] is
    set and the comparison does not look at it. *)
Theorem blake3_digests_collide {CTX : Type} (create : option CTX)
    (init : CTX -> EVP_MD -> option CTX) (update : CTX -> list Z -> option CTX)
    (final : CTX -> option (list Z)) (evp_digest : EVP_MD -> list Z -> list Z)
    (Hlaw : EVP_law create init update final evp_digest)
    (uninit : blake3_hasher) (s t : str)
    (Hstack : zlen (cv_stack uninit) = cv_stack_size)
    (Hst : zlen s = zlen t) (Hlen : zlen s < 2 ^ 63) :
  exists d1 d2,
    CASHash_hash create init update final BLAKE3ZCC uninit s = ub_ret d1 /\
    CASHash_hash create init update final BLAKE3ZCC uninit t = ub_ret d2 /\
    digest_eqb d1 d2 = true /\
    (blake3_hash IV 0 (str_bytes s) BLAKE3_OUT_LEN <>
     blake3_hash IV 0 (str_bytes t) BLAKE3_OUT_LEN -> d1 <> d2).
Proof.
  unfold CASHash_hash. cbn [DigestGenerator_new getDigestFunctionStruct res_bind
    lift_res ub_bind].
  rewrite !(hash_string_ok create init update final evp_digest) by (done || lia).
  eexists _, _. split; [reflexivity|]. split; [reflexivity|]. cbn [digest_spec
    d_digestFunctionStruct]. split.
  - apply digest_eqb_spec. cbn [hash_other size_bytes].
    by rewrite !zlen_str_bytes.
  - intros Hne E. apply Hne. exact (f_equal hash_blake3zcc E).
Qed.

Lemma blake3_digests_collide_witness :
  let u := blake3_hasher_init (zeros cv_stack_size) in
  exists d1 d2,
    CASHash_hash ToyEVP.create ToyEVP.init ToyEVP.update ToyEVP.final
      BLAKE3ZCC u (L "a") = ub_ret d1 /\
    CASHash_hash ToyEVP.create ToyEVP.init ToyEVP.update ToyEVP.final
      BLAKE3ZCC u (L "b") = ub_ret d2 /\
    digest_eqb d1 d2 = true /\ d1 <> d2.
Proof.
  destruct (blake3_digests_collide _ _ _ _ ToyEVP.digest ToyEVP.law
    (blake3_hasher_init (zeros cv_stack_size)) (L "a") (L "b"))
    as (d1 & d2 & E1 & E2 & Eq & Hne).
  - vm_compute; reflexivity.
  - vm_compute; reflexivity.
  - vm_compute; reflexivity.
  - exists d1, d2. split; [exact E1|]. split; [exact E2|]. split; [exact Eq|].
    apply Hne. vm_compute. discriminate.
Defined.
