(* ===== verification/TimeUtils.v ===== *)
(** * Time stamps

    [buildboxcommon_timeutils.cpp].  A [system_clock::time_point] is the
    number of nanoseconds since the epoch; [duration_cast] and the integer
    division of C++ truncate towards zero. *)

From S2P Require Import Prelude.
Open Scope Z_scope.

(** [google::protobuf::Timestamp]. *)
Record Timestamp := MkTimestamp { seconds : Z; nanos : Z }.

#[global] Instance Timestamp_eq_dec : EqDecision Timestamp.
Proof. solve_decision. Defined.

(** [struct timespec]. *)
Record timespec := MkTimespec { tv_sec : Z; tv_nsec : Z }.

Definition duration_cast_us (t : Z) : Z := Z.quot t 1000.

(** [MicrosecondsToTimestamp] is protobuf's. *)
Definition make_timestamp (MicrosecondsToTimestamp : Z -> Timestamp) (mtime : Z)
  : Timestamp :=
  let usec := duration_cast_us mtime in
  MicrosecondsToTimestamp usec.

Definition parse_timestamp (timestamp : Timestamp) : Z :=
  seconds timestamp * 1000000000 + Z.quot (nanos timestamp) 1000 * 1000.

Definition make_timespec (timepoint : Z) : timespec :=
  let micro := 1000000 in
  let usec := duration_cast_us timepoint in
  MkTimespec (Z.quot usec micro) (Z.rem usec micro * 1000).

(** [gettimeofday] gives seconds and microseconds, or fails with an errno. *)
Definition now (gettimeofday : Z + Z * Z) : res Timestamp :=
  match gettimeofday with
  | inl errno => Throw (SystemError errno)
  | inr (tv_sec, tv_usec) => Ok (MkTimestamp tv_sec (tv_usec * 1000))
  end.

(** Protobuf's documented contract: the same instant, normalised. *)
Class MicrosecondsToTimestamp_law (f : Z -> Timestamp) := {
  us_same us : seconds (f us) * 1000000 * 1000 + nanos (f us) = us * 1000;
  us_normal us : 0 <= nanos (f us) < 1000000000;
}.

Definition toy_us (us : Z) : Timestamp :=
  MkTimestamp (us / 1000000) (us mod 1000000 * 1000).

#[global] Instance toy_us_law : MicrosecondsToTimestamp_law toy_us.
Proof.
  split; intros us; unfold toy_us; cbn [seconds nanos];
    pose proof (Z.div_mod us 1000000); pose proof (Z.mod_pos_bound us 1000000); lia.
Qed.

(** A time stamp keeps the microseconds: parsing the message made from a
    time point gives the time point truncated to microseconds. *)
Theorem timestamp_round_trip (f : Z -> Timestamp)
    (Hf : MicrosecondsToTimestamp_law f) (t : Z) :
  parse_timestamp (make_timestamp f t) = duration_cast_us t * 1000.
Proof.
  unfold parse_timestamp, make_timestamp. set (us := duration_cast_us t).
  pose proof (us_same us) as Hs. pose proof (us_normal us) as Hn.
  set (s := seconds (f us)) in *. set (n := nanos (f us)) in *.
  assert (n = (us - s * 1000000) * 1000) as En by lia.
  rewrite En, Z.quot_mul by lia. lia.
Qed.

Lemma timestamp_round_trip_witness :
  parse_timestamp (make_timestamp toy_us 1234567890123) = 1234567890000.
Proof.
  rewrite (timestamp_round_trip toy_us toy_us_law). vm_compute. reflexivity.
Defined.

(** [make_timespec] keeps the instant to the microsecond, and its
    nanoseconds are in the range the system calls accept exactly when the time
    point is not a fraction of a second before the epoch. *)
Theorem timespec_valid (t : Z) :
  let ts := make_timespec t in
  tv_sec ts * 1000000000 + tv_nsec ts = duration_cast_us t * 1000 /\
  (0 <= tv_nsec ts < 1000000000 <->
   0 <= duration_cast_us t \/ Z.rem (duration_cast_us t) 1000000 = 0).
Proof.
  cbn. set (us := duration_cast_us t).
  pose proof (Z.quot_rem us 1000000 ltac:(lia)) as E. split; [lia|].
  destruct (Z.le_gt_cases 0 us) as [Hp|Hn].
  - pose proof (Z.rem_bound_pos us 1000000 Hp ltac:(lia)). lia.
  - pose proof (Z.rem_bound_pos (- us) 1000000 ltac:(lia) ltac:(lia)) as Hb.
    rewrite Z.rem_opp_l in Hb by lia. lia.
Qed.
