(* ===== verification/Merklize.v ===== *)
(** * Directory trees and their Merkle digests

    [buildboxcommon_merklize.cpp]: [NestedDirectory], the operations that add
    a file, a symlink or a directory at a relative path, the conversion to
    [Directory] messages with their digests and to a [Tree], and the walk over
    a directory on disk. *)

From S2P Require Import Prelude StdMap Arrays Digest TimeUtils.

(** ** Messages *)

Record FileNode := MkFileNode {
  fn_name : str;
  fn_digest : Digest;
  fn_is_executable : bool;
  fn_mtime : option Timestamp;
}.

Record SymlinkNode := MkSymlinkNode { sn_name : str; sn_target : str }.
Record DirectoryNode := MkDirectoryNode { dn_name : str; dn_digest : Digest }.

Record Directory := MkDirectory {
  files : list FileNode;
  directories : list DirectoryNode;
  symlinks : list SymlinkNode;
}.

Definition empty_Directory : Directory := MkDirectory [] [] [].

Record Tree := MkTree { root : Directory; children : list Directory }.

(** ** [File] *)

Record File := MkFile {
  d_digest : Digest;
  d_executable : bool;
  d_mtime_set : bool;
  d_mtime : Z;
}.

(** What [openat] finds, with the digest and the metadata of the open file;
    [None] as a digest is an exception of [fileDigestFunc]. *)
Record file_on_disk := MkFileOnDisk {
  disk_open : option Z;
  disk_executable : bool;
  disk_digest : res Digest;
  disk_mtime : Z;
}.

(** The loop over the captured properties. *)
Definition capture (f : file_on_disk) (file : File) (property : str) : File :=
  if decide (property = L "mtime")
  then MkFile (d_digest file) (d_executable file) true (disk_mtime f)
  else file.

Definition File_new (f : file_on_disk) (capture_properties : list str)
  : res File :=
  match disk_open f with
  | Some errno => Throw (SystemError errno)
  | None =>
      let! digest := disk_digest f in
      Ok (foldl (capture f) (MkFile digest (disk_executable f) false 0)
            capture_properties)
  end.

Definition to_filenode (MicrosecondsToTimestamp : Z -> Timestamp)
    (self : File) (name : str) : FileNode :=
  MkFileNode name (d_digest self) (d_executable self)
    (if d_mtime_set self
     then Some (make_timestamp MicrosecondsToTimestamp (d_mtime self))
     else None).

(** ** [NestedDirectory] *)

Inductive NestedDirectory := MkNestedDirectory {
  d_subdirs : smap NestedDirectory;
  d_files : smap File;
  d_symlinks : smap str;
}.

Definition NestedDirectory_new : NestedDirectory := MkNestedDirectory [] [] [].

(** [strchr(path, '/')]: the text before the first slash and after it. *)
Fixpoint split_slash (path : str) : option (str * str) :=
  match path with
  | [] => None
  | c :: path =>
      if ascii_dec c "/"%char then Some ([], path)
      else
        match split_slash path with
        | Some (before, after) => Some (c :: before, after)
        | None => None
        end
  end.

(** A call on [d_subdirs\[subdirKey\]]: the subdirectory is created if absent. *)
Definition at_subdir (self : NestedDirectory) (subdirKey : str)
    (f : NestedDirectory -> NestedDirectory) : NestedDirectory :=
  MkNestedDirectory
    (sm_update subdirKey (fun o => f (default NestedDirectory_new o))
       (d_subdirs self))
    (d_files self) (d_symlinks self).

(** The recursion on the path is bounded by its length. *)
Fixpoint add_rec (fuel : nat) (file : File) (relativePath : str)
    (self : NestedDirectory) : NestedDirectory :=
  match split_slash relativePath with
  | Some (subdirKey, rest) =>
      match fuel with
      | O => self
      | S fuel =>
          if decide (subdirKey = []) then add_rec fuel file rest self
          else at_subdir self subdirKey (add_rec fuel file rest)
      end
  | None =>
      MkNestedDirectory (d_subdirs self)
        (sm_insert relativePath file (d_files self)) (d_symlinks self)
  end.

Definition add (self : NestedDirectory) (file : File) (relativePath : str)
  : NestedDirectory := add_rec (length relativePath) file relativePath self.

Fixpoint addSymlink_rec (fuel : nat) (target : str) (relativePath : str)
    (self : NestedDirectory) : NestedDirectory :=
  match split_slash relativePath with
  | Some (subdirKey, rest) =>
      match fuel with
      | O => self
      | S fuel =>
          if decide (subdirKey = []) then addSymlink_rec fuel target rest self
          else at_subdir self subdirKey (addSymlink_rec fuel target rest)
      end
  | None =>
      MkNestedDirectory (d_subdirs self) (d_files self)
        (sm_insert relativePath target (d_symlinks self))
  end.

Definition addSymlink (self : NestedDirectory) (target relativePath : str)
  : NestedDirectory :=
  addSymlink_rec (length relativePath) target relativePath self.

Fixpoint addDirectory_rec (fuel : nat) (directory : str)
    (self : NestedDirectory) : NestedDirectory :=
  if decide (directory = L "/") then self
  else
    match split_slash directory with
    | Some (subdirKey, rest) =>
        match fuel with
        | O => self
        | S fuel =>
            if decide (subdirKey = []) then addDirectory_rec fuel rest self
            else at_subdir self subdirKey (addDirectory_rec fuel rest)
        end
    | None =>
        match sm_lookup directory (d_subdirs self) with
        | None =>
            MkNestedDirectory
              (sm_insert directory NestedDirectory_new (d_subdirs self))
              (d_files self) (d_symlinks self)
        | Some _ => self
        end
    end.

Definition addDirectory (self : NestedDirectory) (directory : str)
  : NestedDirectory := addDirectory_rec (length directory) directory self.

(** ** Messages of a nested directory *)

(** [digest_string_map], keyed by what [operator==] on digests looks at. *)
Definition digest_string_map : Type := gmap (str * Z) str.

(** What the functions below need of such a map is [map\[digest\] = blob].
    A caller who goes on to visit the entries represents it differently. *)
Class DigestMap (M : Type) := dm_set : Digest -> str -> M -> M.

#[global] Instance digest_string_map_set : DigestMap digest_string_map :=
  fun digest blob m => <[digest_key digest := blob]> m.

Section merkle.
Context (MicrosecondsToTimestamp : Z -> Timestamp).
(** [Directory::SerializeAsString], which is protobuf's. *)
Context (SerializeAsString : Directory -> str).
Context `{DigestFunction}.

Definition make_digest (message : Directory) : Digest :=
  digest_of (SerializeAsString message).

Definition file_nodes (m : smap File) : list FileNode :=
  map (fun p => to_filenode MicrosecondsToTimestamp p.2 p.1) m.

Definition symlink_nodes (m : smap str) : list SymlinkNode :=
  map (fun p => MkSymlinkNode p.1 p.2) m.

(** [digestMap\[digest\] = blob], when a map is given. *)
Definition digest_map_set `{DigestMap M} (digestMap : option M)
    (digest : Digest) (blob : str) : option M :=
  match digestMap with
  | Some m => Some (dm_set digest blob m)
  | None => None
  end.

Fixpoint to_digest `{DigestMap M} (self : NestedDirectory)
    (digestMap : option M) : Digest * option M :=
  let fix add_subdirs (subdirs : list (str * NestedDirectory)) digestMap :=
    match subdirs with
    | [] => ([], digestMap)
    | (name, subdir) :: subdirs =>
        let '(subdirDigest, digestMap) := to_digest subdir digestMap in
        let '(nodes, digestMap) := add_subdirs subdirs digestMap in
        (MkDirectoryNode name subdirDigest :: nodes, digestMap)
    end in
  match self with
  | MkNestedDirectory subdirs files symlinks =>
      let '(nodes, digestMap) := add_subdirs subdirs digestMap in
      let directoryMessage :=
        MkDirectory (file_nodes files) nodes (symlink_nodes symlinks) in
      let blob := SerializeAsString directoryMessage in
      let digest := digest_of blob in
      (digest, digest_map_set digestMap digest blob)
  end.

Fixpoint to_tree (self : NestedDirectory) : Tree :=
  let fix add_subdirs (subdirs : list (str * NestedDirectory)) :=
    match subdirs with
    | [] => ([], [])
    | (name, subdir) :: subdirs =>
        let subtree := to_tree subdir in
        let '(nodes, rest) := add_subdirs subdirs in
        (MkDirectoryNode name (make_digest (root subtree)) :: nodes,
         children subtree ++ [root subtree] ++ rest)
    end in
  match self with
  | MkNestedDirectory subdirs files symlinks =>
      let '(nodes, children) := add_subdirs subdirs in
      MkTree (MkDirectory (file_nodes files) nodes (symlink_nodes symlinks))
        children
  end.
End merkle.

(** ** [print] *)

Definition endl : str := [ascii_of_nat 10].
Definition quoted (s : str) : str := [ascii_of_nat 34] ++ s ++ [ascii_of_nat 34].

Fixpoint print (self : NestedDirectory) (dirName : str) : str :=
  let prefix := if decide (dirName = []) then [] else dirName ++ L "/" in
  match self with
  | MkNestedDirectory subdirs files symlinks =>
      L "directory: " ++ quoted dirName ++ endl ++
      to_string (zlen files) ++ L " files" ++ endl ++
      (files ≫= fun it => L "    " ++ quoted (prefix ++ it.1) ++ endl) ++
      to_string (zlen symlinks) ++ L " symlinks" ++ endl ++
      (symlinks ≫= fun it =>
         L "    " ++ quoted (prefix ++ it.1) ++ L ", " ++ quoted it.2 ++ endl) ++
      to_string (zlen subdirs) ++ L " sub-directories" ++ endl ++ endl ++
      (fix print_subdirs (l : list (str * NestedDirectory)) :=
         match l with
         | [] => []
         | (name, subdir) :: l => print subdir (prefix ++ name) ++ print_subdirs l
         end) subdirs
  end.

(** ** [make_nesteddirectory] *)

(** A directory entry as the kernel presents it.  A symlink carries what
    [stat] finds behind it; [Unstatable] is an entry [fstatat] fails on. *)
Inductive fs_entry :=
  | FsDir (opens : option Z) (entries : list (str * fs_entry))
  | FsReg (f : file_on_disk)
  | FsLnk (readlink : Z + str) (behind : fs_entry)
  | FsOther
  | Unstatable.

Section walk.
Context (capture_properties : list str) (followSymlinks : bool).

(** The loop over [readdir], given how one entry is added to the result. *)
Fixpoint readdir_loop {A : Type}
    (visit : fs_entry -> str -> NestedDirectory -> A -> res (NestedDirectory * A))
    (entries : list (str * fs_entry)) (result : NestedDirectory) (fileMap : A)
  : res (NestedDirectory * A) :=
  match entries with
  | [] => Ok (result, fileMap)
  | (entityName, entry) :: entries =>
      if decide (entityName = L "." \/ entityName = L "..")
      then readdir_loop visit entries result fileMap
      else
        let! (result, fileMap) := visit entry entityName result fileMap in
        readdir_loop visit entries result fileMap
  end.

(** The body of the loop: [entry] is stat'ed, through a symlink when
    [followSymlinks], and added to [result] under [entityName].  [fileMap],
    when given, maps the digest of every file to its path. *)
Fixpoint visit_entry `{DigestMap M} (prefix : str) (entry : fs_entry)
    (entityName : str) (result : NestedDirectory) (fileMap : option M)
  : res (NestedDirectory * option M) :=
  match entry with
  | FsDir (Some errno) _ => Throw (SystemError errno)
  | FsDir None entries =>
      let! (subdir, fileMap) :=
        readdir_loop (visit_entry (prefix ++ entityName ++ L "/")) entries
          NestedDirectory_new fileMap in
      Ok (MkNestedDirectory (sm_insert entityName subdir (d_subdirs result))
            (d_files result) (d_symlinks result),
          fileMap)
  | FsReg f =>
      let! file := File_new f capture_properties in
      Ok (MkNestedDirectory (d_subdirs result)
            (sm_insert entityName file (d_files result)) (d_symlinks result),
          digest_map_set fileMap (d_digest file) (prefix ++ entityName))
  | FsLnk readlink behind =>
      if followSymlinks then visit_entry prefix behind entityName result fileMap
      else
        match readlink with
        | inl errno => Throw (SystemError errno)
        | inr target =>
            Ok (MkNestedDirectory (d_subdirs result) (d_files result)
                  (sm_insert entityName target (d_symlinks result)),
                fileMap)
        end
  | FsOther | Unstatable => Ok (result, fileMap)
  end.

(** [openat] on [path] failed ([Some errno]), or gives these entries. *)
Definition make_nesteddirectory `{DigestMap M} (prefix path : str) (opens : option Z)
    (entries : list (str * fs_entry)) (fileMap : option M)
  : res (NestedDirectory * option M) :=
  match opens with
  | Some errno => Throw (SystemError errno)
  | None =>
      readdir_loop (visit_entry (prefix ++ path ++ L "/")) entries
        NestedDirectory_new fileMap
  end.
End walk.

(** The overloads: from the working directory, and without properties. *)
Definition make_nesteddirectory_at `{DigestMap M} (capture_properties : list str)
    (followSymlinks : bool) (path : str) (opens : option Z) (entries : list (str * fs_entry))
    (fileMap : option M) : res (NestedDirectory * option M) :=
  make_nesteddirectory capture_properties followSymlinks [] path opens entries fileMap.

Definition make_nesteddirectory_plain `{DigestMap M} (followSymlinks : bool) (path : str)
    (opens : option Z) (entries : list (str * fs_entry)) (fileMap : option M)
  : res (NestedDirectory * option M) :=
  make_nesteddirectory_at [] followSymlinks path opens entries fileMap.
