(* ===== verification/MerklizeSpec.v ===== *)
(** * What directory trees promise

    Adding at a path is an update at its components, so files can be added in
    any order; the digest of a tree is that of its root message, and both the
    digest map and the [Tree] message contain every directory the root refers
    to. *)

From Stdlib Require Import Sorted.
From S2P Require Import Prelude StdMap Arrays Digest TimeUtils Merklize.

(** ** Induction and well-formedness *)

Section nd_induction.
Context (P : NestedDirectory -> Prop).
Context (Hstep : forall subdirs files symlinks,
  Forall (fun p => P p.2) subdirs -> P (MkNestedDirectory subdirs files symlinks)).

Fixpoint nd_ind (d : NestedDirectory) : P d :=
  match d with
  | MkNestedDirectory subdirs files symlinks =>
      Hstep subdirs files symlinks
        ((fix all (l : list (str * NestedDirectory)) : Forall (fun p => P p.2) l :=
            match l with
            | [] => Forall_nil_2 _
            | p :: l => Forall_cons_2 _ p l (nd_ind p.2) (all l)
            end) subdirs)
  end.
End nd_induction.

(** The number of directories on the longest path down. *)
Fixpoint height (d : NestedDirectory) : nat :=
  match d with
  | MkNestedDirectory subdirs _ _ =>
      Datatypes.S (foldr (fun p n => Nat.max (height p.2) n) O subdirs)
  end.

(** The three maps are sorted, all the way down. *)
Inductive nd_wf : NestedDirectory -> Prop :=
  | nd_wf_intro subdirs files symlinks :
      sm_sorted subdirs -> sm_sorted files -> sm_sorted symlinks ->
      (forall k d, In (k, d) subdirs -> nd_wf d) ->
      nd_wf (MkNestedDirectory subdirs files symlinks).

Lemma nd_wf_new : nd_wf NestedDirectory_new.
Proof. by constructor; [constructor..|]. Qed.

#[export] Hint Resolve nd_wf_new : bb.

Lemma nd_wf_subdir d k s :
  nd_wf d -> sm_lookup k (d_subdirs d) = Some s -> nd_wf s.
Proof. intros [] Hl. apply sm_lookup_In in Hl; eauto. Qed.

Lemma nd_wf_default d k :
  nd_wf d -> nd_wf (default NestedDirectory_new (sm_lookup k (d_subdirs d))).
Proof.
  intros Hwf. destruct (sm_lookup k (d_subdirs d)) eqn:E; cbn; [|apply nd_wf_new].
  by eapply nd_wf_subdir.
Qed.

Lemma at_subdir_wf d k f :
  nd_wf d -> (forall s, nd_wf s -> nd_wf (f s)) -> nd_wf (at_subdir d k f).
Proof.
  intros Hwf Hf. pose proof (nd_wf_default d k Hwf) as Hd.
  destruct Hwf as [subs fs ls Hs Hfs Hls Hsub]. cbn in *.
  constructor; auto with bb. intros k' d' Hin.
  apply sm_lookup_In in Hin; [|auto with bb].
  destruct (decide (k = k')) as [<-|Hne].
  - rewrite sm_lookup_update_eq in Hin. injection Hin as <-. auto.
  - rewrite sm_lookup_update_ne in Hin by done. apply sm_lookup_In in Hin; eauto.
Qed.

(** ** Paths *)

(** The names between slashes. *)
Fixpoint split_path (path : str) : list str :=
  match path with
  | [] => [[]]
  | c :: path =>
      if ascii_dec c "/"%char then [] :: split_path path
      else
        match split_path path with
        | [] => [[c]]
        | n :: ns => (c :: n) :: ns
        end
  end.

Fixpoint drop_empty (ns : list str) : list str :=
  match ns with
  | [] => []
  | n :: ns => if decide (n = []) then drop_empty ns else n :: drop_empty ns
  end.

(** The directories a path goes through and its last name. *)
Definition path_dirs (path : str) : list str :=
  drop_empty (removelast (split_path path)).
Definition path_name (path : str) : str := List.last (split_path path) [].

Lemma split_path_nonempty p : split_path p <> [].
Proof. destruct p; simpl; [done|]. repeat case_match; done. Qed.

Lemma split_slash_some p before after :
  split_slash p = Some (before, after) ->
  split_path p = before :: split_path after /\ (length after < length p)%nat.
Proof.
  revert before. induction p as [|c p IH]; intros before; simpl; [done|].
  case_match; [intros [= <- <-]; split; [done|lia]|].
  destruct (split_slash p) as [[b a]|]; [|done]. intros [= <- <-].
  destruct (IH b eq_refl) as [-> ?]. split; [done|lia].
Qed.

Lemma split_slash_none p : split_slash p = None -> split_path p = [p].
Proof.
  induction p as [|c p IH]; simpl; [done|]. case_match; [done|].
  destruct (split_slash p) as [[? ?]|]; [done|]. intros _. by rewrite IH.
Qed.

Lemma path_some p before after :
  split_slash p = Some (before, after) ->
  path_dirs p = (if decide (before = []) then path_dirs after
                 else before :: path_dirs after) /\
  path_name p = path_name after.
Proof.
  intros E. apply split_slash_some in E as [E _]. unfold path_dirs, path_name.
  rewrite E. pose proof (split_path_nonempty after).
  destruct (split_path after) as [|n ns] eqn:Ea; [done|].
  split; [|done]. cbn [removelast drop_empty]. by case_decide.
Qed.

Lemma path_none p :
  split_slash p = None -> path_dirs p = [] /\ path_name p = p.
Proof.
  intros E. unfold path_dirs, path_name. by rewrite (split_slash_none p E).
Qed.

(** ** Adding at a path is an update at its components *)

Fixpoint update_at (dirs : list str) (g : NestedDirectory -> NestedDirectory)
    (d : NestedDirectory) : NestedDirectory :=
  match dirs with
  | [] => g d
  | k :: dirs => at_subdir d k (update_at dirs g)
  end.

Definition put_file (name : str) (file : File) (d : NestedDirectory)
  : NestedDirectory :=
  MkNestedDirectory (d_subdirs d) (sm_insert name file (d_files d)) (d_symlinks d).

Definition put_symlink (name target : str) (d : NestedDirectory)
  : NestedDirectory :=
  MkNestedDirectory (d_subdirs d) (d_files d) (sm_insert name target (d_symlinks d)).

Lemma at_subdir_ext d k f g :
  (forall s, f s = g s) -> at_subdir d k f = at_subdir d k g.
Proof.
  intros Hfg. unfold at_subdir. f_equal. apply sm_update_ext. apply Hfg.
Qed.

Lemma add_spec d file p :
  add d file p = update_at (path_dirs p) (put_file (path_name p) file) d.
Proof.
  unfold add. assert (length p <= length p)%nat as Hf by lia. revert Hf.
  generalize (length p) at 2 3 as fuel.
  intros fuel. revert p d. induction fuel as [|fuel IH]; intros p d Hf;
    cbn [add_rec]; destruct (split_slash p) as [[before after]|] eqn:E.
  - apply split_slash_some in E as [_ ?]. lia.
  - by destruct (path_none p E) as [-> ->].
  - destruct (path_some p before after E) as [-> ->].
    apply split_slash_some in E as [_ ?].
    case_decide; [apply IH; lia|]. cbn [update_at].
    apply at_subdir_ext. intros s. apply IH. lia.
  - by destruct (path_none p E) as [-> ->].
Qed.

Lemma addSymlink_spec d target p :
  addSymlink d target p =
  update_at (path_dirs p) (put_symlink (path_name p) target) d.
Proof.
  unfold addSymlink. assert (length p <= length p)%nat as Hf by lia. revert Hf.
  generalize (length p) at 2 3 as fuel.
  intros fuel. revert p d. induction fuel as [|fuel IH]; intros p d Hf;
    cbn [addSymlink_rec]; destruct (split_slash p) as [[before after]|] eqn:E.
  - apply split_slash_some in E as [_ ?]. lia.
  - by destruct (path_none p E) as [-> ->].
  - destruct (path_some p before after E) as [-> ->].
    apply split_slash_some in E as [_ ?].
    case_decide; [apply IH; lia|]. cbn [update_at].
    apply at_subdir_ext. intros s. apply IH. lia.
  - by destruct (path_none p E) as [-> ->].
Qed.

(** ** Looking a file up *)

Fixpoint lookup_dir (dirs : list str) (d : NestedDirectory)
  : option NestedDirectory :=
  match dirs with
  | [] => Some d
  | k :: dirs => s ← sm_lookup k (d_subdirs d); lookup_dir dirs s
  end.

Definition lookup_file (dirs : list str) (name : str) (d : NestedDirectory)
  : option File := s ← lookup_dir dirs d; sm_lookup name (d_files s).

Definition lookup_symlink (dirs : list str) (name : str) (d : NestedDirectory)
  : option str := s ← lookup_dir dirs d; sm_lookup name (d_symlinks s).

Lemma lookup_file_cons k dirs name d :
  lookup_file (k :: dirs) name d =
  s ← sm_lookup k (d_subdirs d); lookup_file dirs name s.
Proof. unfold lookup_file. cbn. by destruct (sm_lookup k (d_subdirs d)). Qed.

Lemma lookup_file_new dirs name : lookup_file dirs name NestedDirectory_new = None.
Proof. by destruct dirs. Qed.

Lemma lookup_put_file dirs name file d :
  lookup_file dirs name (update_at dirs (put_file name file) d) = Some file.
Proof.
  revert d. induction dirs as [|k dirs IH]; intros d.
  - unfold lookup_file. cbn. unfold sm_insert. by rewrite sm_lookup_update_eq.
  - rewrite lookup_file_cons. cbn [update_at at_subdir d_subdirs].
    rewrite sm_lookup_update_eq. apply IH.
Qed.

Lemma lookup_put_file_ne dirs name dirs' name' file d :
  nd_wf d -> (dirs, name) <> (dirs', name') ->
  lookup_file dirs' name' (update_at dirs (put_file name file) d) =
  lookup_file dirs' name' d.
Proof.
  revert dirs' d. induction dirs as [|k dirs IH]; intros dirs' d Hwf Hne.
  - destruct dirs' as [|k' dirs']; [|done]. unfold lookup_file. cbn.
    unfold sm_insert. apply sm_lookup_update_ne; [by destruct Hwf|congruence].
  - destruct dirs' as [|k' dirs']; [done|].
    rewrite !lookup_file_cons. cbn [update_at at_subdir d_subdirs].
    destruct (decide (k = k')) as [<-|Hk].
    + rewrite sm_lookup_update_eq. cbn [mbind option_bind].
      rewrite IH; [|by apply nd_wf_default|congruence].
      destruct (sm_lookup k (d_subdirs d)); [done|apply lookup_file_new].
    + rewrite sm_lookup_update_ne; [done|by destruct Hwf|done].
Qed.

Lemma update_at_wf dirs g d :
  nd_wf d -> (forall s, nd_wf s -> nd_wf (g s)) -> nd_wf (update_at dirs g d).
Proof.
  revert d. induction dirs as [|k dirs IH]; intros d Hwf Hg; [by apply Hg|].
  cbn [update_at]. apply at_subdir_wf; auto.
Qed.

Lemma put_file_wf name file d : nd_wf d -> nd_wf (put_file name file d).
Proof.
  intros []. constructor; auto. unfold sm_insert. cbn. auto with bb.
Qed.

Lemma put_symlink_wf name target d : nd_wf d -> nd_wf (put_symlink name target d).
Proof.
  intros []. constructor; auto. unfold sm_insert. cbn. auto with bb.
Qed.

(** ** Files at different places can be added in any order *)

Lemma put_file_at_subdir name file k f d :
  put_file name file (at_subdir d k f) = at_subdir (put_file name file d) k f.
Proof. done. Qed.

Lemma put_file_comm dirs1 name1 f1 dirs2 name2 f2 d :
  nd_wf d -> (dirs1, name1) <> (dirs2, name2) ->
  update_at dirs1 (put_file name1 f1) (update_at dirs2 (put_file name2 f2) d) =
  update_at dirs2 (put_file name2 f2) (update_at dirs1 (put_file name1 f1) d).
Proof.
  revert dirs2 d. induction dirs1 as [|k1 dirs1 IH]; intros [|k2 dirs2] d Hwf Hne.
  - cbn. unfold put_file. cbn. f_equal. unfold sm_insert.
    apply sm_update_comm; [by destruct Hwf|congruence].
  - done.
  - done.
  - cbn [update_at]. unfold at_subdir. cbn. f_equal.
    destruct (decide (k1 = k2)) as [<-|Hk].
    + rewrite !sm_update_update. apply sm_update_ext. cbn.
      apply IH; [by apply nd_wf_default|congruence].
    + apply sm_update_comm; [by destruct Hwf|done].
Qed.

(** ** The messages of a tree *)

Section messages.
Context (us : Z -> Timestamp) (ser : Directory -> str) `{DigestFunction}.

Abbreviation digest_msg m := (make_digest ser m).

(** The [Directory] message of a nested directory. *)
Fixpoint dir_message (d : NestedDirectory) : Directory :=
  match d with
  | MkNestedDirectory subdirs files symlinks =>
      MkDirectory (file_nodes us files)
        (map (fun p => MkDirectoryNode p.1 (digest_msg (dir_message p.2))) subdirs)
        (symlink_nodes symlinks)
  end.

(** The proper subdirectories, children before parents. *)
Fixpoint descendants (d : NestedDirectory) : list NestedDirectory :=
  match d with
  | MkNestedDirectory subdirs _ _ =>
      subdirs ≫= fun p => descendants p.2 ++ [p.2]
  end.

Definition set_entry `{DigestMap M} (m : option M) (d : NestedDirectory)
  : option M :=
  digest_map_set m (digest_msg (dir_message d)) (ser (dir_message d)).

Lemma to_digest_spec `{DigestMap M} d (m : option M) :
  to_digest us ser d m =
  (digest_msg (dir_message d), foldl set_entry m (descendants d ++ [d])).
Proof.
  revert m. induction d as [subs fs ls IH] using nd_ind. intros m.
  cbn [to_digest].
  match goal with |- context [(?F subs m)] => set (go := F) end.
  assert (forall m, go subs m =
    (map (fun p => MkDirectoryNode p.1 (digest_msg (dir_message p.2))) subs,
     foldl set_entry m (descendants (MkNestedDirectory subs fs ls)))) as Hgo.
  { cbn [descendants]. clear m. induction IH as [|[n s] subs Hs IH IH']; intros m.
    - done.
    - cbn [go map mbind list_bind]. fold go. cbn in Hs. rewrite Hs, IH'.
      by rewrite !foldl_app. }
  rewrite Hgo, foldl_app. done.
Qed.

Lemma to_tree_spec d :
  to_tree us ser d = MkTree (dir_message d) (map dir_message (descendants d)).
Proof.
  induction d as [subs fs ls IH] using nd_ind. cbn [to_tree].
  match goal with |- context [(?F subs)] => set (go := F) end.
  assert (go subs =
    (map (fun p => MkDirectoryNode p.1 (digest_msg (dir_message p.2))) subs,
     map dir_message (descendants (MkNestedDirectory subs fs ls)))) as Hgo.
  { cbn [descendants]. induction IH as [|[n s] subs Hs IH IH']; [done|].
    cbn [go map mbind list_bind]. fold go. cbn in Hs. rewrite Hs, IH'.
    cbn [root children fst snd]. by rewrite !map_app, <- app_assoc. }
  by rewrite Hgo.
Qed.

(** Every directory a message refers to is the message of a descendant. *)
Lemma dir_message_closed d d' node :
  d' ∈ descendants d ++ [d] -> node ∈ directories (dir_message d') ->
  exists c, c ∈ descendants d /\ dn_digest node = digest_msg (dir_message c).
Proof.
  revert d'. induction d as [subs fs ls IH] using nd_ind. intros d' Hd Hn.
  rewrite elem_of_app, list_elem_of_singleton in Hd. destruct Hd as [Hd| ->].
  - cbn [descendants] in *. apply list_elem_of_bind in Hd as ([k s] & Hd & Hin).
    rewrite Forall_forall in IH. apply list_elem_of_In in Hin as Hin'.
    destruct (IH (k, s) Hin' d' Hd Hn) as (c & Hc & E).
    exists c. split; [|done]. apply list_elem_of_bind. exists (k, s).
    split; [|done]. by apply elem_of_app; left.
  - cbn [dir_message directories] in Hn. apply list_elem_of_fmap in Hn as ([k s] & E0 & Hin). subst node.
    exists s. split; [|done]. cbn [descendants]. apply list_elem_of_bind.
    exists (k, s). split; [|done]. apply elem_of_app; right.
    by apply list_elem_of_singleton.
Qed.

(** A map in which every blob is stored under its own digest. *)
Definition map_ok (m : digest_string_map) : Prop :=
  forall k blob, m !! k = Some blob -> digest_key (digest_of blob) = k.

Lemma foldl_set_entry_ok ds m :
  map_ok m ->
  exists m', foldl set_entry (Some m) ds = Some m' /\ map_ok m' /\
    (forall k, is_Some (m !! k) -> is_Some (m' !! k)) /\
    (forall d, d ∈ ds -> is_Some (m' !! digest_key (digest_msg (dir_message d)))).
Proof.
  revert m. induction ds as [|d ds IH]; intros m Hm.
  - exists m. split; [done|]. split; [done|]. split; [done|]. intros d Hd.
    by apply elem_of_nil in Hd.
  - cbn [foldl]. unfold set_entry at 2, digest_map_set, dm_set, digest_string_map_set.
    set (k0 := digest_key _).
    destruct (IH (<[k0 := ser (dir_message d)]> m)) as (m' & E & Hok & Hold & Hnew).
    { intros k blob Hk. apply lookup_insert_Some in Hk as [Hk|[_ Hk]].
      - by destruct Hk as [<- <-].
      - by apply Hm. }
    exists m'. split; [done|]. split; [done|]. split.
    + intros k Hk. apply Hold. apply lookup_insert_is_Some'. by right.
    + intros d' Hd. apply elem_of_cons in Hd as [->|Hd]; [|by apply Hnew].
      apply Hold. apply lookup_insert_is_Some'. by left.
Qed.
End messages.

(** ** The walk over a directory on disk *)

Section fs_induction.
Context (P : fs_entry -> Prop).
Context (Hdir : forall o es, Forall (fun p => P p.2) es -> P (FsDir o es)).
Context (Hreg : forall f, P (FsReg f)).
Context (Hlnk : forall r e, P e -> P (FsLnk r e)).
Context (Hother : P FsOther).
Context (Hun : P Unstatable).

Fixpoint fs_ind (e : fs_entry) : P e :=
  match e with
  | FsDir o es =>
      Hdir o es
        ((fix all (l : list (str * fs_entry)) : Forall (fun p => P p.2) l :=
            match l with
            | [] => Forall_nil_2 _
            | p :: l => Forall_cons_2 _ p l (fs_ind p.2) (all l)
            end) es)
  | FsReg f => Hreg f
  | FsLnk r e => Hlnk r e (fs_ind e)
  | FsOther => Hother
  | Unstatable => Hun
  end.
End fs_induction.

(** What one entry puts under its name. *)
Inductive put := PutDir (s : NestedDirectory) | PutFile (f : File) | PutLink (t : str).

Definition put_dir (name : str) (s d : NestedDirectory) : NestedDirectory :=
  MkNestedDirectory (sm_insert name s (d_subdirs d)) (d_files d) (d_symlinks d).

Definition apply_put (name : str) (o : option put) (d : NestedDirectory)
  : NestedDirectory :=
  match o with
  | None => d
  | Some (PutDir s) => put_dir name s d
  | Some (PutFile f) => put_file name f d
  | Some (PutLink t) => put_symlink name t d
  end.

Definition put_ok (o : option put) : Prop :=
  match o with Some (PutDir s) => nd_wf s | _ => True end.

Lemma apply_put_wf name o d : put_ok o -> nd_wf d -> nd_wf (apply_put name o d).
Proof.
  destruct o as [[s|f|t]|]; cbn; intros Ho Hd; [|by apply put_file_wf|
    by apply put_symlink_wf|done].
  destruct Hd as [subs fs ls Hs Hf Hl Hsub]. unfold put_dir, sm_insert; cbn.
  constructor; auto with bb. intros k d Hin.
  apply sm_lookup_In in Hin; [|auto with bb].
  destruct (decide (name = k)) as [<-|Hne].
  - rewrite sm_lookup_update_eq in Hin. by injection Hin as <-.
  - rewrite sm_lookup_update_ne in Hin by done. apply sm_lookup_In in Hin; eauto.
Qed.

Lemma apply_put_comm n1 o1 n2 o2 d :
  nd_wf d -> n1 <> n2 ->
  apply_put n1 o1 (apply_put n2 o2 d) = apply_put n2 o2 (apply_put n1 o1 d).
Proof.
  intros [subs fs ls Hs Hf Hl _] Hne.
  destruct o1 as [[]|], o2 as [[]|]; try done; cbn;
    unfold put_dir, put_file, put_symlink, sm_insert; cbn; f_equal;
    by apply sm_update_comm.
Qed.

Section walk_spec.
Context (props : list str) (follow : bool).

Abbreviation visit := (visit_entry props follow).

(** The effect of an entry does not depend on the file map, nor on what is
    already in the result. *)
Definition has_effect (e : fs_entry) (v : res (option put)) : Prop :=
  forall prefix name result fm,
  match v with
  | Throw x => visit prefix e name result fm = Throw x
  | Ok o => put_ok o /\
      exists fm', visit prefix e name result fm = Ok (apply_put name o result, fm')
  end.

Definition is_dot (name : str) : Prop := name = L "." \/ name = L "..".

(** One round of the loop. *)
Definition step (prefix name : str) (e : fs_entry) (result : NestedDirectory)
    (fm : option digest_string_map) : res (NestedDirectory * option digest_string_map) :=
  if decide (is_dot name) then Ok (result, fm)
  else visit prefix e name result fm.

Definition step_effect (name : str) (e : fs_entry) (v : res (option put)) : Prop :=
  forall prefix result fm,
  match v with
  | Throw x => step prefix name e result fm = Throw x
  | Ok o => put_ok o /\
      exists fm', step prefix name e result fm = Ok (apply_put name o result, fm')
  end.

Lemma readdir_loop_step name e es prefix result fm :
  readdir_loop (visit prefix) ((name, e) :: es) result fm =
  let! (result, fm) := step prefix name e result fm in
  readdir_loop (visit prefix) es result fm.
Proof. cbn [readdir_loop]. unfold step, is_dot. by case_decide. Qed.

Lemma step_has_effect name e v :
  has_effect e v -> exists v', step_effect name e v'.
Proof.
  intros Hv. destruct (decide (is_dot name)) as [Hd|Hd].
  - exists (Ok None). intros prefix result fm. unfold step.
    rewrite decide_True by done. split; [done|]. by exists fm.
  - exists v. intros prefix result fm. unfold step. rewrite decide_False by done.
    apply Hv.
Qed.

(** The loop gives one result, whatever the file map and the prefix. *)
Lemma readdir_loop_effect es result :
  Forall (fun p => exists v, has_effect p.2 v) es -> nd_wf result ->
  exists r, (match r with Ok d => nd_wf d | _ => True end) /\
    forall prefix fm,
    match r with
    | Throw x => readdir_loop (visit prefix) es result fm = Throw x
    | Ok d => exists fm', readdir_loop (visit prefix) es result fm = Ok (d, fm')
    end.
Proof.
  intros Hes. revert result. induction Hes as [|[name e] es [v0 Hv0] _ IH];
    intros result Hwf.
  { exists (Ok result). split; [done|]. intros prefix fm. by exists fm. }
  destruct (step_has_effect name e v0 Hv0) as [[o|x] Hv].
  - assert (put_ok o) as Ho by apply (Hv [] result None).
    destruct (IH (apply_put name o result)) as (r & Hr & H);
      [by apply apply_put_wf|].
    exists r. split; [done|]. intros prefix fm. rewrite readdir_loop_step.
    destruct (Hv prefix result fm) as [_ [fm' E]]. rewrite E. apply H.
  - exists (Throw x). split; [done|]. intros prefix fm.
    rewrite readdir_loop_step. specialize (Hv prefix result fm).
    cbn in Hv. by rewrite Hv.
Qed.

Lemma visit_effect e : exists v, has_effect e v.
Proof.
  induction e as [o es IH|f|r e [v IH]| |] using fs_ind.
  - destruct o as [errno|].
    { by exists (Throw (SystemError errno)). }
    destruct (readdir_loop_effect es NestedDirectory_new IH nd_wf_new)
      as ([d|x] & Hr & H).
    + exists (Ok (Some (PutDir d))). intros prefix name result fm. split; [done|].
      destruct (H (prefix ++ name ++ L "/") fm) as [fm' E].
      exists fm'. cbn [visit_entry]. by rewrite E.
    + exists (Throw x). intros prefix name result fm. cbn [visit_entry].
      by rewrite H.
  - destruct (File_new f props) as [file|x] eqn:E.
    + exists (Ok (Some (PutFile file))). intros prefix name result fm.
      split; [done|]. cbn [visit_entry]. rewrite E. by eexists.
    + exists (Throw x). intros prefix name result fm. cbn [visit_entry].
      by rewrite E.
  - destruct follow eqn:Ef.
    + exists v. intros prefix name result fm. specialize (IH prefix name result fm).
      cbn [visit_entry]. rewrite Ef in IH |- *. exact IH.
    + destruct r as [errno|t].
      * exists (Throw (SystemError errno)). intros prefix name result fm.
        cbn [visit_entry]. by rewrite Ef.
      * exists (Ok (Some (PutLink t))). intros prefix name result fm.
        split; [done|]. exists fm. cbn [visit_entry]. by rewrite Ef.
  - exists (Ok None). intros prefix name result fm. split; [done|]. by exists fm.
  - exists (Ok None). intros prefix name result fm. split; [done|]. by exists fm.
Qed.

Lemma step_always_effect name e : exists v, step_effect name e v.
Proof. destruct (visit_effect e) as [v Hv]. by eapply step_has_effect. Qed.

Lemma readdir_loop_same es prefix result fm fm2 d fm1 :
  nd_wf result ->
  readdir_loop (visit prefix) es result fm = Ok (d, fm1) ->
  exists fm3, readdir_loop (visit prefix) es result fm2 = Ok (d, fm3).
Proof.
  intros Hwf E. destruct (readdir_loop_effect es result) as ([d'|x] & _ & H);
    [apply Forall_forall; intros p _; apply visit_effect|done|..].
  - destruct (H prefix fm) as [? E1]. rewrite E in E1. injection E1 as <- _.
    apply H.
  - specialize (H prefix fm). cbn in H. by rewrite E in H.
Qed.

(** Two runs over the same directory listed in different orders. *)
Lemma readdir_loop_perm es es' :
  es ≡ₚ es' -> NoDup es.*1 -> forall prefix result fm fm2 d fm1,
  nd_wf result ->
  readdir_loop (visit prefix) es result fm = Ok (d, fm1) ->
  exists fm3, readdir_loop (visit prefix) es' result fm2 = Ok (d, fm3).
Proof.
  induction 1 as [|[n e] es es' Hp IH|[n2 e2] [n1 e1] es|es1 es2 es3 H1 IH1 H2 IH2];
    intros Hnd prefix result fm fm2 d fm1 Hwf E.
  - by eapply readdir_loop_same.
  - cbn in Hnd. apply NoDup_cons_1_2 in Hnd.
    rewrite readdir_loop_step in E |- *.
    destruct (step_always_effect n e) as [[o|x] Hv].
    + destruct (Hv prefix result fm) as [Ho [fa Ea]].
      destruct (Hv prefix result fm2) as [_ [fb Eb]].
      rewrite Ea in E. rewrite Eb. cbn [res_bind] in *. eapply IH; [done| |exact E].
      by apply apply_put_wf.
    + specialize (Hv prefix result fm). cbn in Hv. by rewrite Hv in E.
  - cbn in Hnd. pose proof (NoDup_cons_1_1 _ _ Hnd) as Hn.
    assert (n1 <> n2) as Hne by (intros ->; apply Hn; by left).
    rewrite readdir_loop_step in E |- *.
    destruct (step_always_effect n1 e1) as [[o1|x] Hv1];
      [|specialize (Hv1 prefix result fm); cbn in Hv1; by rewrite Hv1 in E].
    destruct (Hv1 prefix result fm) as [Ho1 [fa Ea]]. rewrite Ea in E. cbn [res_bind] in E.
    rewrite readdir_loop_step in E.
    destruct (step_always_effect n2 e2) as [[o2|x] Hv2];
      [|specialize (Hv2 prefix (apply_put n1 o1 result) fa); cbn in Hv2;
        by rewrite Hv2 in E].
    destruct (Hv2 prefix (apply_put n1 o1 result) fa) as [Ho2 [fb Eb]].
    rewrite Eb in E. cbn [res_bind] in E.
    destruct (Hv2 prefix result fm2) as [_ [fc Ec]]. rewrite Ec. cbn [res_bind].
    rewrite readdir_loop_step.
    destruct (Hv1 prefix (apply_put n2 o2 result) fc) as [_ [fd Ed]].
    rewrite Ed. cbn [res_bind]. rewrite apply_put_comm in E by (auto || done).
    eapply readdir_loop_same; [|exact E]. by repeat apply apply_put_wf.
  - assert (NoDup es2.*1) as Hnd2 by (by rewrite <- H1).
    destruct (IH1 Hnd prefix result fm fm2 d fm1 Hwf E) as [fx Ex].
    by apply (IH2 Hnd2 prefix result fm2 fm2 d fx).
Qed.
End walk_spec.

(** ** Canonical messages *)

Lemma sm_sorted_names {V} (m : smap V) :
  sm_sorted m -> StronglySorted str_lt m.*1.
Proof.
  induction 1 as [|k v m Hlt _ IH]; [constructor|]. cbn. constructor; [done|].
  apply Forall_forall. intros k' Hin. apply list_elem_of_In in Hin.
  apply list_elem_of_fmap in Hin as ([k1 v1] & -> & Hin). cbn.
  apply list_elem_of_In in Hin. eauto.
Qed.

(** The names of each kind of node strictly increase. *)
Definition canonical (m : Directory) : Prop :=
  StronglySorted str_lt (fn_name <$> files m) /\
  StronglySorted str_lt (sn_name <$> symlinks m) /\
  StronglySorted str_lt (dn_name <$> directories m).

Lemma dir_message_canonical us ser `{DigestFunction} d :
  nd_wf d -> canonical (dir_message us ser d).
Proof.
  intros [subs fs ls Hs Hf Hl _]. unfold canonical. cbn.
  unfold file_nodes, symlink_nodes. rewrite <- !list_fmap_compose.
  split; [|split]; by apply sm_sorted_names.
Qed.

Lemma descendants_wf d : nd_wf d -> Forall nd_wf (descendants d).
Proof.
  induction d as [subs fs ls IH] using nd_ind. intros Hwf. inversion_clear Hwf as
    [? ? ? _ _ _ Hsub]. cbn [descendants].
  induction IH as [|[k s] subs Hs IH IH']; [constructor|].
  cbn [mbind list_bind]. apply Forall_app; split.
  - apply Forall_app; split; [apply Hs|constructor; [|constructor]];
      eapply Hsub; by left.
  - apply IH'. intros k' d' Hin. eapply Hsub. right. exact Hin.
Qed.

(** ** Properties *)

Definition toy_ser (m : Directory) : str :=
  (files m ≫= fun f => fn_name f ++ L ";") ++ L "/" ++
  (directories m ≫= fun d => dn_name d ++ hash_other (dn_digest d) ++ L ";").

Definition toy_file : File := MkFile empty_digest false false 0.

(** The digest of a directory is the digest of the root message of its
    [Tree], whether or not a digest map is filled. *)
Theorem to_digest_is_root_digest (us : Z -> Timestamp) (ser : Directory -> str)
    (H : DigestFunction) (d : NestedDirectory) (m : option digest_string_map) :
  (to_digest us ser d m).1 = make_digest ser (root (to_tree us ser d)) /\
  (to_digest us ser d m).1 = (to_digest us ser d None).1.
Proof. by rewrite !to_digest_spec, to_tree_spec. Qed.

(** A [Tree] is closed: every directory node of its root and of its
    children names the digest of one of the children. *)
Theorem tree_closed (us : Z -> Timestamp) (ser : Directory -> str)
    (H : DigestFunction) (d : NestedDirectory) (m : Directory) (n : DirectoryNode)
    (Hm : m ∈ children (to_tree us ser d) ++ [root (to_tree us ser d)])
    (Hn : n ∈ directories m) :
  exists c, c ∈ children (to_tree us ser d) /\ dn_digest n = make_digest ser c.
Proof.
  rewrite to_tree_spec in *. cbn [root children] in *.
  change [dir_message us ser d] with (map (dir_message us ser) [d]) in Hm.
  rewrite <- map_app in Hm. apply list_elem_of_fmap in Hm as (d' & E & Hd'). subst m.
  destruct (dir_message_closed us ser d d' n Hd' Hn) as (c & Hc & E).
  exists (dir_message us ser c). split; [|done]. by apply list_elem_of_fmap_2.
Qed.

Lemma tree_closed_witness :
  let t := to_tree (H := toy_digests) toy_us toy_ser
             (add NestedDirectory_new toy_file (L "a/f")) in
  exists n c, n ∈ directories (root t) /\ c ∈ children t /\
    dn_digest n = make_digest (H := toy_digests) toy_ser c.
Proof.
  set (d := add NestedDirectory_new toy_file (L "a/f")). intros t.
  set (n := hd (MkDirectoryNode [] empty_digest) (directories (root t))).
  assert (n ∈ directories (root t)) as Hn by (vm_compute; left).
  destruct (tree_closed toy_us toy_ser toy_digests d (root t) n) as (c & Hc & E).
  - apply elem_of_app. right. left.
  - exact Hn.
  - exists n, c. split; [exact Hn|]. split; [exact Hc|exact E].
Defined.

(** A digest map in which every blob is under its own digest stays so, keeps
    its keys, and gets the message of the directory and of every directory
    below it. *)
Theorem digest_map_complete (us : Z -> Timestamp) (ser : Directory -> str)
    (H : DigestFunction) (d : NestedDirectory) (m : digest_string_map)
    (Hm : map_ok m) :
  exists m', (to_digest us ser d (Some m)).2 = Some m' /\ map_ok m' /\
    (forall k, is_Some (m !! k) -> is_Some (m' !! k)) /\
    (forall msg, msg ∈ children (to_tree us ser d) ++ [root (to_tree us ser d)] ->
       is_Some (m' !! digest_key (make_digest ser msg))).
Proof.
  rewrite to_digest_spec, to_tree_spec. cbn [root children snd].
  destruct (foldl_set_entry_ok us ser (descendants d ++ [d]) m Hm)
    as (m' & E & Hok & Hold & Hnew).
  exists m'. split; [done|]. split; [done|]. split; [done|]. intros msg Hmsg.
  change [dir_message us ser d] with (map (dir_message us ser) [d]) in Hmsg.
  rewrite <- map_app in Hmsg.
  apply list_elem_of_fmap in Hmsg as (d' & E' & Hd'). subst msg. by apply Hnew.
Qed.

Lemma digest_map_complete_witness :
  exists m', (to_digest (H := toy_digests) toy_us toy_ser
      (add NestedDirectory_new toy_file (L "a/f")) (Some ∅)).2 = Some m' /\
    map_ok (H := toy_digests) m'.
Proof.
  destruct (digest_map_complete toy_us toy_ser toy_digests
    (add NestedDirectory_new toy_file (L "a/f")) ∅) as (m' & E & Hok & _).
  - intros k blob Hk. discriminate Hk.
  - exists m'. split; [exact E|exact Hok].
Defined.

Lemma add_wf (d : NestedDirectory) (file : File) (p : str) :
  nd_wf d -> nd_wf (add d file p).
Proof.
  intros Hwf. rewrite add_spec. apply update_at_wf; [done|]. intros s. apply put_file_wf.
Qed.

(** Adding a file makes it the one found at its path, leaves every other
    path as it was, and keeps the maps sorted. *)
Theorem add_then_lookup (d : NestedDirectory) (file : File) (p : str)
    (dirs : list str) (name : str) (Hwf : nd_wf d) :
  nd_wf (add d file p) /\
  lookup_file dirs name (add d file p) =
  (if decide ((path_dirs p, path_name p) = (dirs, name)) then Some file
   else lookup_file dirs name d).
Proof.
  split; [by apply add_wf|]. rewrite add_spec.
  case_decide as E; [injection E as <- <-; apply lookup_put_file|].
  by apply lookup_put_file_ne.
Qed.

Lemma add_then_lookup_witness :
  lookup_file [L "a"] (L "f") (add NestedDirectory_new toy_file (L "/a//f"))
  = Some toy_file.
Proof.
  rewrite (proj2 (add_then_lookup NestedDirectory_new toy_file (L "/a//f")
    [L "a"] (L "f") nd_wf_new)). vm_compute. reflexivity.
Defined.

(** Files added at different paths can be added in either order: the tree,
    hence its digest, is the same. *)
Theorem add_order_irrelevant (d : NestedDirectory) (f1 f2 : File) (p1 p2 : str)
    (Hwf : nd_wf d)
    (Hne : (path_dirs p1, path_name p1) <> (path_dirs p2, path_name p2)) :
  add (add d f1 p1) f2 p2 = add (add d f2 p2) f1 p1.
Proof. rewrite !add_spec. symmetry. by apply put_file_comm. Qed.

Lemma add_order_irrelevant_witness :
  add (add NestedDirectory_new toy_file (L "b/x")) toy_file (L "a/x") =
  add (add NestedDirectory_new toy_file (L "a/x")) toy_file (L "b/x").
Proof.
  apply (add_order_irrelevant NestedDirectory_new toy_file toy_file (L "b/x")
    (L "a/x") nd_wf_new). vm_compute. discriminate.
Defined.

(** The messages of a tree are canonical: in the root and in every child
    the names of the files, of the symlinks and of the directories strictly
    increase. *)
Theorem tree_canonical (us : Z -> Timestamp) (ser : Directory -> str)
    (H : DigestFunction) (d : NestedDirectory) (Hwf : nd_wf d) :
  canonical (root (to_tree us ser d)) /\
  Forall canonical (children (to_tree us ser d)).
Proof.
  rewrite to_tree_spec. cbn. split; [by apply dir_message_canonical|].
  apply Forall_map. pose proof (descendants_wf d Hwf) as Hds.
  induction Hds; constructor; [by apply dir_message_canonical|done].
Qed.

Lemma tree_canonical_witness :
  canonical (root (to_tree (H := toy_digests) toy_us toy_ser
    (add NestedDirectory_new toy_file (L "f")))).
Proof.
  apply (tree_canonical toy_us toy_ser toy_digests).
  apply (add_wf NestedDirectory_new toy_file (L "f") nd_wf_new).
Defined.

(** The order in which [readdir] lists a directory does not matter: if the
    walk succeeds, it succeeds with the same tree on any other order, with or
    without a file map. *)
Theorem walk_order_irrelevant (props : list str) (follow : bool)
    (prefix path : str) (es es' : list (str * fs_entry))
    (fm fm2 fm1 : option digest_string_map) (d : NestedDirectory)
    (Hperm : es ≡ₚ es') (Hnd : NoDup es.*1)
    (Hrun : make_nesteddirectory props follow prefix path None es fm = Ok (d, fm1)) :
  exists fm3,
    make_nesteddirectory props follow prefix path None es' fm2 = Ok (d, fm3).
Proof.
  unfold make_nesteddirectory in *.
  eapply (readdir_loop_perm props follow es es' Hperm Hnd); [|exact Hrun].
  apply nd_wf_new.
Qed.

Lemma walk_order_irrelevant_witness :
  let f := FsReg (MkFileOnDisk None false (Ok empty_digest) 0) in
  let es := [(L "b", f); (L ".", FsOther); (L "a", FsDir None [(L "f", f)])] in
  exists d fm3,
    make_nesteddirectory [] false [] (L "dir") None es None = Ok (d, None) /\
    make_nesteddirectory [] false [] (L "dir") None (rev es) (Some ∅)
    = Ok (d, fm3).
Proof.
  intros f es.
  set (d := match make_nesteddirectory [] false [] (L "dir") None es None with
            | Ok (d, _) => d | Throw _ => NestedDirectory_new end).
  assert (make_nesteddirectory [] false [] (L "dir") None es None = Ok (d, None))
    as E1 by (vm_compute; reflexivity).
  destruct (walk_order_irrelevant [] false [] (L "dir") es (rev es) None (Some ∅)
    None d (Permutation_rev es)) as (fm3 & E).
  - apply (bool_decide_unpack _). vm_compute. exact I.
  - exact E1.
  - exists d, fm3. split; [exact E1|exact E].
Defined.
