(* ===== verification/Grpc.v ===== *)
(** * Retrying gRPC calls

    [buildboxcommon_grpcretrier.cpp] ([GrpcRetrier::issueRequest]) and the
    older [buildboxcommon_grpcretry.cpp] ([GrpcRetry::retry]).  An invocation
    is a callback over a state [S] (the server, and what the lambda captured);
    it gives a status or throws. *)

From S2P Require Import Prelude Arrays.
Open Scope Z_scope.

(** ** Stateful code that can throw *)

Definition M (S A : Type) : Type := S -> res A * S.

Definition mret {S A} (a : A) : M S A := fun s => (Ok a, s).
Definition mthrow {S A} (e : exn) : M S A := fun s => (Throw e, s).
Definition mlift {S A} (r : res A) : M S A := fun s => (r, s).

Definition mbind_M {S A B} (m : M S A) (k : A -> M S B) : M S B :=
  fun s => match m s with
           | (Ok a, s) => k a s
           | (Throw e, s) => (Throw e, s)
           end.

Notation "'let*' x ':=' m 'in' k" := (mbind_M m (fun x => k))
  (at level 10, x pattern, m at level 100, k at level 200) : buildbox_scope.

Definition mget {S} : M S S := fun s => (Ok s, s).
Definition mput {S} (s : S) : M S unit := fun _ => (Ok tt, s).

(** [try { m } catch (...) { h }]. *)
Definition mcatch {S A} (m : M S A) (h : exn -> M S A) : M S A :=
  fun s => match m s with
           | (Throw e, s) => h e s
           | r => r
           end.

(** ** [grpc::Status] *)

Definition OK : Z := 0.
Definition NOT_FOUND : Z := 5.
Definition UNIMPLEMENTED : Z := 12.
Definition INTERNAL : Z := 13.
Definition UNAVAILABLE : Z := 14.

Record Status := MkStatus { error_code : Z; error_details : str }.

#[global] Instance Status_eq_dec : EqDecision Status.
Proof. solve_decision. Defined.

Definition ok (s : Status) : bool := error_code s =? OK.

Definition status_of (code : Z) : Status := MkStatus code [].

(** ** [GrpcRetrier] *)

Section retry.
Context {S : Type}.
(** [RetryInfo::ParseFromString] of the error details, in milliseconds
    ([None] when they do not parse); protobuf's. *)
Context (retry_delay_ms : str -> option Z).

Record GrpcRetrier := MkGrpcRetrier {
  d_grpcInvocation : M S Status;
  d_retryLimit : Z;
  d_retryDelayBase : Z;
  d_retryableStatusCodes : gset Z;
  d_status : Status;
  d_retryAttempts : Z;
}.

(** The constructor: UNAVAILABLE is always retried. *)
Definition GrpcRetrier_new (retryLimit retryDelayBase : Z)
    (grpcInvocation : M S Status) (retryableStatusCodes : gset Z) : GrpcRetrier :=
  MkGrpcRetrier grpcInvocation retryLimit retryDelayBase
    ({[UNAVAILABLE]} ∪ retryableStatusCodes) (status_of OK) 0.

Definition statusIsRetryable (self : GrpcRetrier) (status : Status) : bool :=
  bool_decide (error_code status ∈ d_retryableStatusCodes self).

(** The base delay after a first failure, which the server may override. *)
Definition server_delay_base (self : GrpcRetrier) (status : Status) : Z :=
  if (d_retryAttempts self =? 0) && negb (bool_decide (error_details status = []))
  then
    match retry_delay_ms (error_details status) with
    | Some serverDelay =>
        if 0 <? serverDelay then serverDelay else d_retryDelayBase self
    | None => d_retryDelayBase self
    end
  else d_retryDelayBase self.

(** A delay of [base * 1.6^attempt] milliseconds. *)
Definition delay : Type := Z * Z.

Definition set_result (self : GrpcRetrier) (status : Status) (base attempts : Z)
  : GrpcRetrier :=
  MkGrpcRetrier (d_grpcInvocation self) (d_retryLimit self) base
    (d_retryableStatusCodes self) status attempts.

(** The loop of [issueRequest]: the returned flag, the retrier with its status
    and number of retries, and the delays slept. *)
Fixpoint issueRequest_loop (fuel : nat) (self : GrpcRetrier)
  : M S (bool * GrpcRetrier * list delay) :=
  let* status := d_grpcInvocation self in
  let self := set_result self status (d_retryDelayBase self) (d_retryAttempts self) in
  if ok status || negb (statusIsRetryable self status) then
    mret (true, self, [])
  else
    let self := set_result self status (server_delay_base self status)
                  (d_retryAttempts self) in
    if d_retryLimit self <=? d_retryAttempts self then mret (false, self, [])
    else
      match fuel with
      | O => mret (false, self, [])
      | Datatypes.S fuel =>
          let slept := (d_retryDelayBase self, d_retryAttempts self) in
          let* (r, self, sleeps) :=
            issueRequest_loop fuel
              (set_result self status (d_retryDelayBase self)
                 (d_retryAttempts self + 1)) in
          mret (r, self, slept :: sleeps)
      end.

Definition issueRequest (self : GrpcRetrier)
  : M S (bool * GrpcRetrier * list delay) :=
  issueRequest_loop (Z.to_nat (d_retryLimit self))
    (set_result self (d_status self) (d_retryDelayBase self) 0).

(** ** [GrpcRetry::retry] *)

(** The do-while loop: the delays slept, or the exception. *)
Fixpoint retry_loop (fuel : nat) (grpcInvocation : M S Status)
    (grpcRetryLimit grpcRetryDelay : Z) (errorsToRetryOn : gset Z) (nAttempts : Z)
  : M S (list delay) :=
  let* status := grpcInvocation in
  if ok status then mret []
  else if bool_decide (error_code status ∈ errorsToRetryOn) then
    let sleeps :=
      if nAttempts <? grpcRetryLimit then [(grpcRetryDelay, nAttempts)] else [] in
    let nAttempts := nAttempts + 1 in
    if nAttempts <? grpcRetryLimit + 1 then
      match fuel with
      | O => mthrow (GrpcError (error_code status))
      | Datatypes.S fuel =>
          let* rest :=
            retry_loop fuel grpcInvocation grpcRetryLimit grpcRetryDelay
              errorsToRetryOn nAttempts in
          mret (sleeps ++ rest)
      end
    else mthrow (GrpcError (error_code status))
  else mthrow (GrpcError (error_code status)).

Definition retry (grpcInvocation : M S Status)
    (grpcRetryLimit grpcRetryDelay : Z) (errorsToRetryOn : gset Z)
  : M S (list delay) :=
  retry_loop (Z.to_nat grpcRetryLimit) grpcInvocation grpcRetryLimit
    grpcRetryDelay ({[UNAVAILABLE]} ∪ errorsToRetryOn) 0.
End retry.
Arguments GrpcRetrier : clear implicits.

(** ** The calls made *)

Section calls.
Context {S : Type} (delay_ms : str -> option Z) (inv : M S Status).

(** The invocation run [n] times from [s], ending with status [st] and state
    [s'] after at least one; every earlier status is retryable. *)
Inductive attempts (retryable : gset Z) : nat -> S -> Status -> S -> Prop :=
  | attempts_one s st s' : inv s = (Ok st, s') -> attempts retryable 1 s st s'
  | attempts_more n s st s1 st' s' :
      inv s = (Ok st, s1) -> error_code st ∈ retryable -> ok st = false ->
      attempts retryable n s1 st' s' ->
      attempts retryable (Datatypes.S n) s st' s'.

(** A status that ends the retries. *)
Definition final (retryable : gset Z) (st : Status) : bool :=
  ok st || negb (bool_decide (error_code st ∈ retryable)).

(** What a run of at most [budget + 1] attempts comes to: it stops at the
    first final status, with [true], or after the last attempt, with [false],
    or an attempt throws. *)
Inductive outcome (retryable : gset Z) : nat -> S -> res (bool * Status) -> nat -> S -> Prop :=
  | outcome_final budget s st s' :
      inv s = (Ok st, s') -> final retryable st = true ->
      outcome retryable budget s (Ok (true, st)) 1 s'
  | outcome_exhausted s st s' :
      inv s = (Ok st, s') -> final retryable st = false ->
      outcome retryable 0 s (Ok (false, st)) 1 s'
  | outcome_throw budget s e s' :
      inv s = (Throw e, s') -> outcome retryable budget s (Throw e) 1 s'
  | outcome_retry budget s st s1 r n s' :
      inv s = (Ok st, s1) -> final retryable st = false ->
      outcome retryable budget s1 r n s' ->
      outcome retryable (Datatypes.S budget) s r (Datatypes.S n) s'.

Lemma outcome_total retryable budget s :
  exists r n s', outcome retryable budget s r n s'.
Proof.
  revert s. induction budget as [|budget IH]; intros s;
    destruct (inv s) as [[st|e] s1] eqn:E;
    [destruct (final retryable st) eqn:F|..].
  - eexists _, _, _. by eapply outcome_final.
  - eexists _, _, _. by eapply outcome_exhausted.
  - eexists _, _, _. by eapply outcome_throw.
  - destruct (final retryable st) eqn:F.
    + eexists _, _, _. by eapply outcome_final.
    + destruct (IH s1) as (r & n & s' & Ho). eexists _, _, _.
      by eapply outcome_retry.
  - eexists _, _, _. by eapply outcome_throw.
Qed.

Lemma outcome_count retryable budget s r n s' :
  outcome retryable budget s r n s' -> (1 <= n <= budget + 1)%nat.
Proof. induction 1; lia. Qed.

(** The states reached by calls that did not succeed. *)
Inductive failed_calls : S -> S -> Prop :=
  | failed_none s : failed_calls s s
  | failed_more s st s1 s' :
      inv s = (Ok st, s1) -> ok st = false -> failed_calls s1 s' ->
      failed_calls s s'.

Lemma failed_calls_inv (P : S -> Prop) s s' :
  failed_calls s s' -> P s ->
  (forall s st s', P s -> inv s = (Ok st, s') -> P s') -> P s'.
Proof. induction 1; eauto. Qed.

(** The last call of a run. *)
Lemma outcome_last codes budget s r n s' :
  outcome codes budget s r n s' ->
  exists s0, failed_calls s s0 /\
    match r with
    | Ok (b, st) => inv s0 = (Ok st, s') /\ (ok st = true -> b = true) /\
        (b = true -> final codes st = true)
    | Throw e => inv s0 = (Throw e, s')
    end.
Proof.
  induction 1 as [fuel s st s' E Hf|s st s' E Hf|fuel s e s' E|fuel s st s1 r n s' E Hf Ho IH].
  - exists s. split; [constructor|]. done.
  - exists s. split; [constructor|]. split; [done|]. split; [|done].
    unfold final in Hf. intros Hok. by rewrite Hok in Hf.
  - exists s. split; [constructor|done].
  - destruct IH as (s0 & Hc & Hr). exists s0. split; [|done].
    econstructor; [exact E| |exact Hc]. unfold final in Hf.
    by apply orb_false_iff in Hf as [? _].
Qed.

Lemma issueRequest_outcome codes fuel s r n s' :
  outcome codes fuel s r n s' -> forall self : GrpcRetrier S,
  d_grpcInvocation self = inv -> d_retryableStatusCodes self = codes ->
  0 <= d_retryAttempts self ->
  Z.of_nat fuel = Z.max 0 (d_retryLimit self - d_retryAttempts self) ->
  match r with
  | Ok (b, st) =>
      exists self' sleeps,
        issueRequest_loop delay_ms fuel self s = (Ok (b, self', sleeps), s') /\
        d_status self' = st /\
        d_retryAttempts self' = d_retryAttempts self + Z.of_nat n - 1 /\
        length sleeps = (n - 1)%nat
  | Throw e => issueRequest_loop delay_ms fuel self s = (Throw e, s')
  end.
Proof.
  induction 1 as [fuel s st s' E Hf|s st s' E Hf|fuel s e s' E|fuel s st s1 r n s' E Hf Ho IH];
    intros self Hinv Hcodes Ha Hfuel.
  - exists (set_result self st (d_retryDelayBase self) (d_retryAttempts self)), [].
    split; [|cbn; repeat split; lia].
    destruct fuel; cbn [issueRequest_loop]; unfold mbind_M; rewrite Hinv, E;
      unfold statusIsRetryable; cbn; rewrite Hcodes;
      unfold final in Hf; by rewrite Hf.
  - exists (set_result self st (server_delay_base delay_ms
      (set_result self st (d_retryDelayBase self) (d_retryAttempts self)) st)
      (d_retryAttempts self)), [].
    split; [|cbn; repeat split; lia].
    cbn [issueRequest_loop]; unfold mbind_M; rewrite Hinv, E.
    unfold statusIsRetryable; cbn; rewrite Hcodes. unfold final in Hf. rewrite Hf.
    by destruct (Z.leb_spec (d_retryLimit self) (d_retryAttempts self)); [|lia].
  - destruct fuel; cbn [issueRequest_loop]; unfold mbind_M; by rewrite Hinv, E.
  - set (base := server_delay_base delay_ms
      (set_result self st (d_retryDelayBase self) (d_retryAttempts self)) st).
    set (self1 := set_result self st base (d_retryAttempts self + 1)).
    specialize (IH self1 Hinv Hcodes).
    cbn [self1 set_result d_retryAttempts d_retryLimit] in IH.
    specialize (IH ltac:(lia) ltac:(lia)).
    pose proof (outcome_count _ _ _ _ _ _ Ho) as Hn.
    assert (issueRequest_loop delay_ms (Datatypes.S fuel) self s =
      (let* (b, self', sleeps) := issueRequest_loop delay_ms fuel self1 in
       mret (b, self', (base, d_retryAttempts self) :: sleeps)) s1) as Estep.
    { cbn [issueRequest_loop]. unfold mbind_M at 1. rewrite Hinv, E.
      unfold statusIsRetryable; cbn; rewrite Hcodes. unfold final in Hf. rewrite Hf.
      by destruct (Z.leb_spec (d_retryLimit self) (d_retryAttempts self)); [lia|]. }
    rewrite Estep. unfold mbind_M. destruct r as [[b st']|e].
    + destruct IH as (self' & sleeps & -> & Hst & Hatt & Hlen).
      eexists self', _. split; [reflexivity|]. split; [done|]. cbn [length].
      split; lia.
    + by rewrite IH.
Qed.

Lemma retry_outcome codes fuel s r n s' :
  outcome codes fuel s r n s' -> forall limit base nAttempts,
  0 <= nAttempts -> Z.of_nat fuel = Z.max 0 (limit - nAttempts) ->
  match r with
  | Ok (true, st) =>
      if ok st
      then exists sleeps,
        retry_loop fuel inv limit base codes nAttempts s = (Ok sleeps, s') /\
        length sleeps = (n - 1)%nat
      else retry_loop fuel inv limit base codes nAttempts s =
           (Throw (GrpcError (error_code st)), s')
  | Ok (false, st) =>
      retry_loop fuel inv limit base codes nAttempts s =
      (Throw (GrpcError (error_code st)), s')
  | Throw e => retry_loop fuel inv limit base codes nAttempts s = (Throw e, s')
  end.
Proof.
  induction 1 as [fuel s st s' E Hf|s st s' E Hf|fuel s e s' E|fuel s st s1 r n s' E Hf Ho IH];
    intros limit base nAttempts Ha Hfuel.
  - unfold final in Hf.
    destruct fuel; cbn [retry_loop]; unfold mbind_M; rewrite E;
      destruct (ok st) eqn:Eok; try (by eexists);
      cbn in Hf; apply negb_true_iff in Hf; by rewrite Hf.
  - unfold final in Hf. apply orb_false_iff in Hf as [Hok Hf].
    apply negb_false_iff in Hf. cbn [retry_loop]; unfold mbind_M.
    rewrite E, Hok, Hf.
    by destruct (Z.ltb_spec (nAttempts + 1) (limit + 1)); [lia|].
  - destruct fuel; cbn [retry_loop]; unfold mbind_M; by rewrite E.
  - unfold final in Hf. apply orb_false_iff in Hf as [Hok Hf].
    apply negb_false_iff in Hf. pose proof (outcome_count _ _ _ _ _ _ Ho) as Hn.
    assert (retry_loop (Datatypes.S fuel) inv limit base codes nAttempts s =
      (let* rest := retry_loop fuel inv limit base codes (nAttempts + 1) in
       mret ([(base, nAttempts)] ++ rest)) s1) as Estep.
    { cbn [retry_loop]. unfold mbind_M at 1. rewrite E, Hok, Hf.
      destruct (Z.ltb_spec (nAttempts + 1) (limit + 1)); [|lia].
      by destruct (Z.ltb_spec nAttempts limit); [|lia]. }
    rewrite Estep. unfold mbind_M.
    specialize (IH limit base (nAttempts + 1) ltac:(lia) ltac:(lia)).
    destruct r as [[[] st']|e].
    + destruct (ok st').
      * destruct IH as (sleeps & -> & Hlen). eexists. split; [reflexivity|].
        cbn [app length]. lia.
      * by rewrite IH.
    + by rewrite IH.
    + by rewrite IH.
Qed.
End calls.

(** ** Properties *)

(** A request as a run of its invocation. *)
Lemma issueRequest_run {S : Type} (delay_ms : str -> option Z)
    (inv : M S Status) (limit base : Z) (codes : gset Z) (s : S)
    (Hlimit : 0 <= limit) :
  exists r n s',
    outcome inv ({[UNAVAILABLE]} ∪ codes) (Z.to_nat limit) s r n s' /\
    (n <= Z.to_nat limit + 1)%nat /\
    match r with
    | Ok (b, st) =>
        exists self' sleeps,
          issueRequest delay_ms (GrpcRetrier_new limit base inv codes) s =
          (Ok (b, self', sleeps), s') /\
          d_status self' = st /\ d_retryAttempts self' = Z.of_nat n - 1 /\
          length sleeps = (n - 1)%nat
    | Throw e =>
        issueRequest delay_ms (GrpcRetrier_new limit base inv codes) s =
        (Throw e, s')
    end.
Proof.
  destruct (outcome_total inv ({[UNAVAILABLE]} ∪ codes) (Z.to_nat limit) s)
    as (r & n & s' & Ho).
  exists r, n, s'. split; [done|].
  pose proof (outcome_count _ _ _ _ _ _ _ Ho). split; [lia|].
  unfold issueRequest.
  apply (issueRequest_outcome delay_ms inv _ _ _ _ _ _ Ho
    (set_result (GrpcRetrier_new limit base inv codes) (status_of OK) base 0));
    [done|done|done|cbn; lia].
Qed.

(** C12. [issueRequest] always comes to an end after at most [limit + 1]
    invocations, sleeping once between two of them: it stops at the first
    status that is OK or not retryable and returns [true] with it, or returns
    [false] with the status of the last attempt; an exception of the invocation
    passes through. *)
Theorem issueRequest_outcomes {S : Type} (delay_ms : str -> option Z)
    (inv : M S Status) (limit base : Z) (codes : gset Z) (s : S)
    (Hlimit : 0 <= limit) :
  exists r n s',
    outcome inv ({[UNAVAILABLE]} ∪ codes) (Z.to_nat limit) s r n s' /\
    (n <= Z.to_nat limit + 1)%nat /\
    match r with
    | Ok (b, st) =>
        exists self' sleeps,
          issueRequest delay_ms (GrpcRetrier_new limit base inv codes) s =
          (Ok (b, self', sleeps), s') /\
          d_status self' = st /\ d_retryAttempts self' = Z.of_nat n - 1 /\
          length sleeps = (n - 1)%nat
    | Throw e =>
        issueRequest delay_ms (GrpcRetrier_new limit base inv codes) s =
        (Throw e, s')
    end.
Proof. by apply issueRequest_run. Qed.

(** A server that fails a number of times, then answers. *)
Definition flaky (code : Z) : M nat Status :=
  fun n => match n with
           | O => (Ok (status_of OK), O)
           | Datatypes.S n => (Ok (status_of code), n)
           end.

Lemma issueRequest_outcomes_witness :
  exists r n s', outcome (flaky UNAVAILABLE) ({[UNAVAILABLE]} ∪ ∅) 3 2%nat r n s' /\
    (n <= 4)%nat.
Proof.
  destruct (issueRequest_outcomes (fun _ => None) (flaky UNAVAILABLE) 3 100 ∅ 2%nat)
    as (r & n & s' & Ho & Hn & _).
  - lia.
  - exists r, n, s'. split; [exact Ho|exact Hn].
Defined.

(** The two retry loops agree: [GrpcRetry::retry] makes the same calls as
    [GrpcRetrier::issueRequest]; it returns exactly when the latter returns
    [true] with an OK status, and otherwise throws a [GrpcError] with the status
    the latter holds. *)
Theorem retry_is_issueRequest {S : Type} (delay_ms : str -> option Z)
    (inv : M S Status) (limit base : Z) (codes : gset Z) (s : S)
    (Hlimit : 0 <= limit) :
  match issueRequest delay_ms (GrpcRetrier_new limit base inv codes) s with
  | (Ok (b, self', sleeps), s') =>
      if b && ok (d_status self')
      then exists sleeps', retry inv limit base codes s = (Ok sleeps', s') /\
             length sleeps' = length sleeps
      else retry inv limit base codes s =
           (Throw (GrpcError (error_code (d_status self'))), s')
  | (Throw e, s') => retry inv limit base codes s = (Throw e, s')
  end.
Proof.
  destruct (issueRequest_run delay_ms inv limit base codes s Hlimit)
    as (r & n & s' & Ho & _ & Hr).
  pose proof (retry_outcome inv _ _ _ _ _ _ Ho limit base 0) as Hretry.
  specialize (Hretry ltac:(lia) ltac:(lia)).
  destruct r as [[b st]|e].
  - destruct Hr as (self' & sleeps & -> & <- & _ & Hlen). destruct b; [|done].
    cbn [andb]. destruct (ok (d_status self')); [|done].
    destruct Hretry as (sleeps' & E & Hl). exists sleeps'. split; [done|lia].
  - by rewrite Hr.
Qed.

Lemma retry_is_issueRequest_witness :
  retry (flaky UNAVAILABLE) 1 100 ∅ 5%nat = (Throw (GrpcError UNAVAILABLE), 3%nat).
Proof.
  pose proof (retry_is_issueRequest (fun _ => None) (flaky UNAVAILABLE) 1 100 ∅ 5%nat
    ltac:(lia)) as H.
  vm_compute in H. vm_compute. exact H.
Defined.
