(* ===== verification/Client.v ===== *)
(** * The CAS client: transfers of single blobs

    [buildboxcommon_client.cpp], first part: the connection, resource names,
    requests with retries, and the ByteStream transfers of one blob
    ([fetchString], [download], [upload] of a string and of a file).

    The gRPC stubs, the server behind them and the system calls act on a world
    [W]; they are the fields of [Env].  A lambda given to the retrier runs over
    the world and the variables it captures by reference. *)

From S2P Require Import Prelude StdMap Arrays Blake3Compress Digest Grpc.
Open Scope Z_scope.

(** ** The environment *)

(** [google.bytestream.WriteRequest]. *)
Record WriteRequest := MkWriteRequest {
  wr_resource_name : str;
  wr_write_offset : Z;
  wr_data : str;
  wr_finish_write : bool;
}.

(** An open regular file and its position. *)
Record file := MkFd { fd_data : str; fd_pos : Z }.

Record Env (W : Type) := MkEnv {
  (** [Read]: the data of the responses and the status of [Finish]. *)
  stub_Read : str -> Z -> W -> list str * Status * W;
  (** [Write]: the stream is opened, written to (is the request accepted?) and
      finished (the status and the committed size). *)
  stub_Write : W -> W;
  writer_Write : WriteRequest -> W -> bool * W;
  writer_Finish : W -> Status * Z * W;
  stub_GetCapabilities : str -> W -> Status * Z * W;
  (** [write] of so many bytes: how many were written, or -1. *)
  sys_write : Z -> W -> Z * W;
  (** [read]: an error, or success. *)
  sys_read_error : W -> option Z * W;
  sys_errno : W -> Z;
  (** [RetryInfo] in the error details of a status. *)
  retry_delay : str -> option Z;
}.
Arguments stub_Read {W}. Arguments stub_Write {W}. Arguments writer_Write {W}.
Arguments writer_Finish {W}. Arguments stub_GetCapabilities {W}.
Arguments sys_write {W}. Arguments sys_read_error {W}. Arguments sys_errno {W}.
Arguments retry_delay {W}.

(** ** [Client] *)

Record Client := MkClient {
  d_instanceName : str;
  d_uuid : str;
  d_grpcRetryLimit : Z;
  d_grpcRetryDelay : Z;
  d_maxBatchTotalSizeBytes : Z;
}.

Definition s_bytestreamChunkSizeBytes : Z := 1024 * 1024.
Definition bytestreamChunkSizeBytes : Z := s_bytestreamChunkSizeBytes.

(** gRPC's default limit on the size of a received message. *)
Definition GRPC_DEFAULT_MAX_RECV_MESSAGE_LENGTH : Z := 4 * 1024 * 1024.
Definition MAX_ROOM_FOR_METADATA : Z := Z.shiftl 1 16.

Definition setInstanceName (self : Client) (instance_name : str) : Client :=
  MkClient instance_name (d_uuid self) (d_grpcRetryLimit self)
    (d_grpcRetryDelay self) (d_maxBatchTotalSizeBytes self).

Definition set_maxBatch (self : Client) (n : Z) : Client :=
  MkClient (d_instanceName self) (d_uuid self) (d_grpcRetryLimit self)
    (d_grpcRetryDelay self) n.

Definition makeResourceName (self : Client) (digest : Digest) (isUpload : bool)
  : str :=
  (if decide (d_instanceName self = []) then []
   else d_instanceName self ++ L "/")
  ++ (if isUpload then L "uploads/" ++ d_uuid self ++ L "/" else [])
  ++ L "blobs/" ++ hash_other digest ++ L "/" ++ to_string (size_bytes digest).

Section client.
Context {W : Type} (env : Env W) `{DigestFunction} `{CD : ClientDigestFunction}.

(** The [int] limit is converted to [unsigned]. *)
Definition makeRetrier {S} (self : Client) (invocation : M S Status)
  : GrpcRetrier S :=
  GrpcRetrier_new (u32 (d_grpcRetryLimit self)) (d_grpcRetryDelay self)
    invocation ∅.

Definition issueRequestAndThrowOnErrors {S} (self : Client)
    (invocation : M S Status) : M S unit :=
  let* (issued, retrier, _) :=
    issueRequest (retry_delay env) (makeRetrier self invocation) in
  if negb issued || negb (ok (d_status retrier))
  then mthrow (GrpcError (error_code (d_status retrier)))
  else mret tt.

(** Run over the world and fresh captured variables; keep them. *)
Definition with_captured {C A} (c : C) (m : M (W * C) A) : M W (A * C) :=
  fun w => match m (w, c) with
           | (Ok a, (w, c)) => (Ok (a, c), w)
           | (Throw e, (w, _)) => (Throw e, w)
           end.

(** ** [init] *)

(** The lambda captures [this]: it may lower the batch size. *)
Definition getCapabilitiesLambda : M (W * Client) Status :=
  fun '(w, self) =>
    let '(status, max_batch, w) :=
      stub_GetCapabilities env (d_instanceName self) w in
    let serverMaxBatchTotalSizeBytes := u64 max_batch in
    let self :=
      if ok status && (0 <? serverMaxBatchTotalSizeBytes)
         && (serverMaxBatchTotalSizeBytes <? d_maxBatchTotalSizeBytes self)
      then set_maxBatch self serverMaxBatchTotalSizeBytes else self in
    (Ok status, (w, self)).

(** [uuid] is the generated identifier. *)
Definition init (self : Client) (uuid : str) : M W Client :=
  let self :=
    set_maxBatch self
      (GRPC_DEFAULT_MAX_RECV_MESSAGE_LENGTH - MAX_ROOM_FOR_METADATA) in
  let* ((issued, retrier, _), self) :=
    with_captured self
      (issueRequest (retry_delay env) (makeRetrier self getCapabilitiesLambda)) in
  if negb issued
     || (negb (ok (d_status retrier))
         && negb (error_code (d_status retrier) =? UNIMPLEMENTED))
  then mthrow (GrpcError (error_code (d_status retrier)))
  else
    mret (MkClient (d_instanceName self) uuid (d_grpcRetryLimit self)
            (d_grpcRetryDelay self) (d_maxBatchTotalSizeBytes self)).

(** ** [fetchString] *)

(** Captures [result]. *)
Definition fetchLambda (resourceName : str) (digest : Digest)
  : M (W * str) Status :=
  fun '(w, result) =>
    let '(responses, read_status, w) := stub_Read env resourceName 0 w in
    let downloaded_data := concat responses in
    if ok read_status then
      if negb (zlen downloaded_data =? size_bytes digest)
      then (Throw RuntimeError, (w, result))
      else if digest_neqb (client_digest_of downloaded_data) digest
      then (Throw RuntimeError, (w, result))
      else (Ok read_status, (w, downloaded_data))
    else (Ok read_status, (w, result)).

Definition fetchString (self : Client) (digest : Digest) : M W str :=
  let resourceName := makeResourceName self digest false in
  let* (_, result) :=
    with_captured []
      (issueRequestAndThrowOnErrors self (fetchLambda resourceName digest)) in
  mret result.

(** ** [download] to a file descriptor *)

(** [write(fd, data, n)] when [n] bytes were written. *)
Definition fd_write (f : file) (data : str) (n : Z) : file :=
  let written := ztake n data in
  MkFd (ztake (fd_pos f) (fd_data f) ++ written
        ++ zdrop (fd_pos f + zlen written) (fd_data f))
    (fd_pos f + zlen written).

(** What the lambda captures: the file behind [fd], [bytesDownloaded] and what
    [digestContext] has been fed. *)
Record download_state := MkDownload {
  dl_file : file;
  bytesDownloaded : Z;
  digestContext : str;
}.

(** The loop over the responses: write each to the file, feed it to the
    digest context. *)
Fixpoint download_responses (responses : list str) : M (W * download_state) unit :=
  match responses with
  | [] => mret tt
  | data :: responses =>
      fun '(w, d) =>
        let '(n, w) := sys_write env (zlen data) w in
        let f := fd_write (dl_file d) data n in
        if negb (n =? zlen data)
        then (Throw (SystemError (sys_errno env w)),
              (w, MkDownload f (bytesDownloaded d) (digestContext d)))
        else
          download_responses responses
            (w, MkDownload f (bytesDownloaded d + zlen data)
                  (digestContext d ++ data))
  end.

Definition downloadLambda (resourceName : str) (digest : Digest)
  : M (W * download_state) Status :=
  fun '(w, d) =>
    let '(responses, read_status, w) :=
      stub_Read env resourceName (bytesDownloaded d) w in
    match download_responses responses (w, d) with
    | (Throw e, s) => (Throw e, s)
    | (Ok _, (w, d)) =>
        if ok read_status then
          if negb (zlen (fd_data (dl_file d)) =? size_bytes digest)
          then (Throw RuntimeError, (w, d))
          else if digest_neqb (client_digest_of (digestContext d)) digest
          then (Throw RuntimeError, (w, d))
          else (Ok read_status, (w, d))
        else (Ok read_status, (w, d))
    end.

(** The file is returned as the download leaves it. *)
Definition download (self : Client) (fd : file) (digest : Digest) : M W file :=
  let resourceName := makeResourceName self digest false in
  let* (_, d) :=
    with_captured (MkDownload fd 0 [])
      (issueRequestAndThrowOnErrors self (downloadLambda resourceName digest)) in
  mret (dl_file d).

(** ** [upload] of a string *)

(** The request for the chunk at [offset]. *)
Definition string_request (resourceName data : str) (offset : Z) : WriteRequest :=
  let uploadLength := Z.min bytestreamChunkSizeBytes (zlen data - offset) in
  MkWriteRequest resourceName offset (ztake uploadLength (zdrop offset data))
    (offset + uploadLength =? zlen data).

(** The loop [while (!lastChunk)]. *)
Fixpoint upload_string_loop (fuel : nat) (resourceName data : str) (offset : Z)
    (w : W) : W :=
  match fuel with
  | O => w
  | Datatypes.S fuel =>
      let request := string_request resourceName data offset in
      let offset := offset + zlen (wr_data request) in
      let '(accepted, w) := writer_Write env request w in
      if negb accepted then w
      else if wr_finish_write request then w
      else upload_string_loop fuel resourceName data offset w
  end.

(** Closing the stream and checking the committed size. *)
Definition finish_upload (digest : Digest) : M W Status :=
  fun w =>
    let '(status, committed_size, w) := writer_Finish env w in
    if ok status && negb (committed_size =? size_bytes digest)
    then (Throw RuntimeError, w) else (Ok status, w).

Definition uploadLambda (resourceName data : str) (digest : Digest)
  : M W Status :=
  fun w =>
    let w := stub_Write env w in
    let w := upload_string_loop (Datatypes.S (length data)) resourceName data 0 w in
    finish_upload digest w.

Definition upload (self : Client) (data : str) (digest : Digest) : M W unit :=
  if negb (zlen data =? size_bytes digest) then mthrow LogicError
  else
    let resourceName := makeResourceName self digest true in
    issueRequestAndThrowOnErrors self (uploadLambda resourceName data digest).

(** ** [upload] of a file *)

(** [read(fd, buffer, n)] on a regular file. *)
Definition fd_read (f : file) (n : Z) : str * file :=
  let bytes := ztake n (zdrop (fd_pos f) (fd_data f)) in
  (bytes, MkFd (fd_data f) (fd_pos f + zlen bytes)).

(** The loop; it captures the descriptor.  Every round but the last reads a
    byte, which bounds their number. *)
Fixpoint upload_fd_loop (fuel : nat) (resourceName : str) (digest : Digest)
    (offset : Z) : M (W * file) unit :=
  match fuel with
  | O => mret tt
  | Datatypes.S fuel =>
      fun '(w, fd) =>
        match sys_read_error env w with
        | (Some errno, w) => (Throw (SystemError errno), (w, fd))
        | (None, w) =>
            let '(buffer, fd) := fd_read fd bytestreamChunkSizeBytes in
            let bytesRead := zlen buffer in
            let lastChunk := negb (offset + bytesRead <? size_bytes digest) in
            if negb lastChunk && (bytesRead =? 0)
            then (Throw RuntimeError, (w, fd))
            else
              let request := MkWriteRequest resourceName offset buffer lastChunk in
              let '(accepted, w) := writer_Write env request w in
              if negb accepted then (Ok tt, (w, fd))
              else if lastChunk then (Ok tt, (w, fd))
              else
                upload_fd_loop fuel resourceName digest (offset + bytesRead) (w, fd)
        end
  end.

Definition upload_fd_lambda (resourceName : str) (digest : Digest)
  : M (W * file) Status :=
  fun '(w, fd) =>
    let w := stub_Write env w in
    match upload_fd_loop (Datatypes.S (length (fd_data fd))) resourceName digest 0
            (w, fd) with
    | (Throw e, s) => (Throw e, s)
    | (Ok _, (w, fd)) =>
        let '(r, w) := finish_upload digest w in (r, (w, fd))
    end.

(** The descriptor is rewound once, before the first attempt. *)
Definition upload_fd (self : Client) (fd : file) (digest : Digest) : M W file :=
  let resourceName := makeResourceName self digest true in
  let fd := MkFd (fd_data fd) 0 in
  let* (_, fd) :=
    with_captured fd
      (issueRequestAndThrowOnErrors self (upload_fd_lambda resourceName digest)) in
  mret fd.
(** [uploadMessage]; the serialization is protobuf's. *)
Definition uploadMessage {Msg} (SerializeAsString : Msg -> str) (self : Client) (msg : Msg)
  : M W Digest :=
  let str := SerializeAsString msg in
  let digest := digest_of str in
  let* _ := upload self str digest in
  mret digest.
End client.
