(* ===== verification/ClientSpec.v ===== *)
(** * What the transfers of single blobs promise

    Nothing is returned that does not have the requested digest; a download
    that is resumed assembles the blob without loss or duplication; an upload
    of a string sends the blob in order, in bounded chunks. *)

From S2P Require Import Prelude StdMap Arrays Blake3Compress Digest Grpc Client.
Open Scope Z_scope.

(** ** One request with retries *)

Section issue.
Context {W S : Type} (env : Env W).

Lemma issue_cases (self : Client) (inv : M S Status) s :
  match issueRequestAndThrowOnErrors env self inv s with
  | (Ok _, s') => exists s0 st, failed_calls inv s s0 /\
      inv s0 = (Ok st, s') /\ ok st = true
  | (Throw e, s') => exists s0, failed_calls inv s s0 /\
      (inv s0 = (Throw e, s') \/
       exists st, inv s0 = (Ok st, s') /\ ok st = false /\
         e = GrpcError (error_code st))
  end.
Proof.
  unfold issueRequestAndThrowOnErrors, makeRetrier, mbind_M.
  destruct (issueRequest_run (retry_delay env) inv (u32 (d_grpcRetryLimit self))
    (d_grpcRetryDelay self) ∅ s) as (r & n & s' & Ho & _ & Hr).
  { unfold u32. by apply Z.mod_pos_bound. }
  apply outcome_last in Ho as (s0 & Hc & Hlast).
  destruct r as [[b st]|e].
  - destruct Hr as (self' & sleeps & -> & -> & _). destruct Hlast as (E & Hb & _).
    destruct (ok st) eqn:Eok.
    + rewrite Hb by done. cbn. by exists s0, st.
    + rewrite orb_true_r. cbn. exists s0. split; [done|]. right. by exists st.
  - rewrite Hr. exists s0. split; [done|]. by left.
Qed.

(** A first attempt that succeeds. *)
Lemma issue_first_ok (self : Client) (inv : M S Status) s st s' :
  inv s = (Ok st, s') -> ok st = true ->
  issueRequestAndThrowOnErrors env self inv s = (Ok tt, s').
Proof.
  intros E Hok. unfold issueRequestAndThrowOnErrors, makeRetrier, issueRequest, mbind_M.
  destruct (Z.to_nat _); cbn [issueRequest_loop]; unfold mbind_M; cbn;
    rewrite E; cbn; rewrite Hok; cbn; by rewrite Hok.
Qed.

(** A first attempt that throws. *)
Lemma issue_first_throw (self : Client) (inv : M S Status) s e s' :
  inv s = (Throw e, s') ->
  issueRequestAndThrowOnErrors env self inv s = (Throw e, s').
Proof.
  intros E. unfold issueRequestAndThrowOnErrors, makeRetrier, issueRequest, mbind_M.
  destruct (Z.to_nat _); cbn [issueRequest_loop]; unfold mbind_M; cbn; by rewrite E.
Qed.

(** UNAVAILABLE, then an exception. *)
Lemma issue_retry_throw (self : Client) (inv : M S Status) s st s1 e s' :
  1 <= u32 (d_grpcRetryLimit self) ->
  inv s = (Ok st, s1) -> error_code st = UNAVAILABLE ->
  inv s1 = (Throw e, s') ->
  issueRequestAndThrowOnErrors env self inv s = (Throw e, s').
Proof.
  intros Hl E Hst E1. unfold issueRequestAndThrowOnErrors, makeRetrier, issueRequest, mbind_M.
  destruct (Z.to_nat _) as [|n] eqn:En; [cbn in En; lia|].
  cbn [issueRequest_loop]; unfold mbind_M at 1; cbn. rewrite E. cbn.
  assert (ok st = false) as Hok by (unfold ok; rewrite Hst; done).
  unfold statusIsRetryable. cbn. rewrite Hok, Hst.
  rewrite bool_decide_eq_true_2 by set_solver. cbn.
  destruct (Z.leb_spec (u32 (d_grpcRetryLimit self)) 0); [lia|].
  destruct n; cbn [issueRequest_loop]; unfold mbind_M; cbn; by rewrite E1.
Qed.
End issue.

(** ** Reading a blob *)

Section reading.
Context {W : Type} (env : Env W) `{CD : ClientDigestFunction}.

(** What [fetchString] requires of the data it returns. *)
Definition verified (digest : Digest) (data : str) : Prop :=
  zlen data = size_bytes digest /\ digest_equiv (client_digest_of data) digest.

Lemma digest_neqb_equiv a b : digest_neqb a b = false <-> digest_equiv a b.
Proof. unfold digest_neqb, digest_equiv. by rewrite negb_false_iff. Qed.

Lemma fetchLambda_ok resource digest w result st w' result' :
  fetchLambda env resource digest (w, result) = (Ok st, (w', result')) ->
  ok st = true -> verified digest result'.
Proof.
  unfold fetchLambda. destruct (stub_Read env resource 0 w) as [[responses s] w1].
  destruct (ok s) eqn:Es; [|intros [= <- <- <-]; congruence].
  destruct (negb _) eqn:Ez; [done|]. destruct (digest_neqb _ _) eqn:Ed; [done|].
  intros [= <- <- <-] _. split; [|by apply digest_neqb_equiv].
  apply negb_false_iff in Ez. by apply Z.eqb_eq.
Qed.

Lemma fetchString_inv self digest w r w' :
  fetchString env self digest w = (r, w') ->
  match r with
  | Ok data => verified digest data
  | Throw e => e <> LogicError
  end.
Proof.
  unfold fetchString, mbind_M, with_captured.
  set (resource := makeResourceName self digest false).
  pose proof (issue_cases env self (fetchLambda env resource digest) (w, [])) as Hi.
  destruct (issueRequestAndThrowOnErrors _ _ _ _) as [[u|e] [w1 res]]; cbn in *.
  - intros [= <- <-]. destruct Hi as ([w0 r0] & st & _ & E & Hok).
    by eapply fetchLambda_ok.
  - intros [= <- <-]. destruct Hi as ([w0 r0] & _ & [E|(st & _ & _ & ->)]); [|done].
    unfold fetchLambda in E. destruct (stub_Read env resource 0 w0) as [[rs s] w2].
    destruct (ok s); [|done]. destruct (negb _); [by injection E as <- _|].
    destruct (digest_neqb _ _); [by injection E as <- _|done].
Qed.

(** ** Downloading into a file *)

(** Everything downloaded is in the file, which has been written to its end. *)
Definition download_inv (d : download_state) : Prop :=
  fd_data (dl_file d) = digestContext d /\
  fd_pos (dl_file d) = zlen (digestContext d) /\
  bytesDownloaded d = zlen (digestContext d).

Lemma fd_write_end f data :
  fd_pos f = zlen (fd_data f) ->
  fd_write f data (zlen data) =
  MkFd (fd_data f ++ data) (zlen (fd_data f) + zlen data).
Proof.
  intros Hp. unfold fd_write. rewrite ztake_ge by lia. rewrite Hp.
  pose proof (zlen_nonneg data).
  by rewrite ztake_ge, zdrop_ge, app_nil_r by lia.
Qed.

Lemma download_responses_ok responses w d w' d' :
  download_inv d ->
  download_responses env responses (w, d) = (Ok tt, (w', d')) ->
  download_inv d' /\ digestContext d' = digestContext d ++ concat responses.
Proof.
  revert w d. induction responses as [|data responses IH]; intros w d Hd E.
  - cbn in E. unfold mret in E. injection E as <- <-. cbn. by rewrite app_nil_r.
  - cbn [download_responses] in E. destruct (sys_write env (zlen data) w) as [n w1].
    destruct (Z.eqb_spec n (zlen data)) as [->|]; [|done]. cbn [negb] in E.
    destruct Hd as (H1 & H2 & H3).
    rewrite fd_write_end in E by congruence.
    apply IH in E as [Hd' E].
    + split; [done|]. rewrite E. cbn. by rewrite <- app_assoc.
    + unfold download_inv. cbn. rewrite !zlen_app. split; [by rewrite H1|].
      split; [by rewrite H1|lia].
Qed.

Lemma downloadLambda_step resource digest w d st w' d' :
  download_inv d ->
  downloadLambda env resource digest (w, d) = (Ok st, (w', d')) ->
  exists responses w1 w2,
    stub_Read env resource (bytesDownloaded d) w = (responses, st, w1) /\
    download_responses env responses (w1, d) = (Ok tt, (w2, d')) /\
    download_inv d' /\ digestContext d' = digestContext d ++ concat responses /\
    (ok st = true -> verified digest (fd_data (dl_file d'))).
Proof.
  intros Hd. unfold downloadLambda.
  destruct (stub_Read env resource (bytesDownloaded d) w) as [[responses s] w1].
  destruct (download_responses env responses (w1, d)) as [[[]|e] [w2 d2]] eqn:E; [|done].
  pose proof (download_responses_ok _ _ _ _ _ Hd E) as [Hd2 Ec].
  destruct (ok s) eqn:Es.
  - destruct (Z.eqb_spec (zlen (fd_data (dl_file d2))) (size_bytes digest)); [|done].
    cbn [negb]. destruct (digest_neqb _ _) eqn:En; [done|]. intros [= <- <- <-].
    exists responses, w1, w2. do 4 (split; [done|]). intros _. split; [done|].
    destruct Hd2 as (-> & _). by apply digest_neqb_equiv.
  - intros [= <- <- <-]. exists responses, w1, w2. do 4 (split; [done|]). congruence.
Qed.

Lemma download_inv_start : download_inv (MkDownload (MkFd [] 0) 0 []).
Proof. done. Qed.

Lemma download_last self digest w f w' :
  download env self (MkFd [] 0) digest w = (Ok f, w') ->
  exists w0 d0 st d',
    failed_calls (downloadLambda env (makeResourceName self digest false) digest)
      (w, MkDownload (MkFd [] 0) 0 []) (w0, d0) /\
    downloadLambda env (makeResourceName self digest false) digest (w0, d0)
      = (Ok st, (w', d')) /\ ok st = true /\ f = dl_file d'.
Proof.
  unfold download, mbind_M, with_captured.
  set (resource := makeResourceName self digest false).
  set (d := MkDownload _ _ _).
  pose proof (issue_cases env self (downloadLambda env resource digest) (w, d)) as Hi.
  destruct (issueRequestAndThrowOnErrors _ _ _ _) as [[u|e] [w1 d1]]; cbn in *; [|done].
  intros [= <- <-]. destruct Hi as ([w0 d0] & st & Hc & E & Hok).
  by exists w0, d0, st, d1.
Qed.
End reading.

(** ** Writing a string *)

Section writing.
Context {W : Type} (env : Env W).

(** Write requests until one is refused. *)
Fixpoint write_all (requests : list WriteRequest) (w : W) : W :=
  match requests with
  | [] => w
  | r :: requests =>
      let '(accepted, w) := writer_Write env r w in
      if accepted then write_all requests w else w
  end.

(** The requests for the data from [offset] on. *)
Fixpoint string_requests (fuel : nat) (resource data : str) (offset : Z)
  : list WriteRequest :=
  match fuel with
  | O => []
  | S fuel =>
      let r := string_request resource data offset in
      r :: (if wr_finish_write r then []
            else string_requests fuel resource data (offset + zlen (wr_data r)))
  end.

Lemma upload_string_write_all fuel resource data offset w :
  upload_string_loop env fuel resource data offset w =
  write_all (string_requests fuel resource data offset) w.
Proof.
  revert offset w. induction fuel as [|fuel IH]; intros offset w; [done|].
  cbn [upload_string_loop string_requests write_all].
  destruct (writer_Write env _ w) as [[] w1]; cbn [negb]; [|done].
  case_match; [done|apply IH].
Qed.
End writing.

(** A well-formed upload of [data] from [offset] on: in order, contiguous, in
    chunks of at most [limit] bytes, finished by the last request alone. *)
Inductive upload_ok (resource : str) (limit : Z) : Z -> str -> list WriteRequest -> Prop :=
  | upload_ok_last offset data :
      zlen data <= limit ->
      upload_ok resource limit offset data [MkWriteRequest resource offset data true]
  | upload_ok_more offset chunk data rs :
      0 < zlen chunk <= limit -> 0 < zlen data ->
      upload_ok resource limit (offset + zlen chunk) data rs ->
      upload_ok resource limit offset (chunk ++ data)
        (MkWriteRequest resource offset chunk false :: rs).

Lemma string_requests_ok fuel resource data offset :
  0 <= offset <= zlen data -> zlen data - offset < Z.of_nat fuel ->
  upload_ok resource bytestreamChunkSizeBytes offset (zdrop offset data)
    (string_requests fuel resource data offset).
Proof.
  revert offset. induction fuel as [|fuel IH]; intros offset Ho Hf; [lia|].
  cbn [string_requests]. unfold string_request.
  set (n := Z.min bytestreamChunkSizeBytes (zlen data - offset)).
  assert (0 <= n <= zlen data - offset) as Hn
    by (subst n; unfold bytestreamChunkSizeBytes, s_bytestreamChunkSizeBytes; lia).
  assert (zlen (ztake n (zdrop offset data)) = n) as En
    by (rewrite zlen_ztake_le; [done|rewrite zlen_zdrop; lia]).
  cbn [wr_finish_write wr_data]. rewrite En.
  destruct (Z.eqb_spec (offset + n) (zlen data)) as [E|E].
  - rewrite ztake_ge by (rewrite zlen_zdrop by lia; lia).
    apply upload_ok_last. rewrite zlen_zdrop by lia. lia.
  - assert (n = bytestreamChunkSizeBytes) as Hnn by lia.
    pose proof (ztake_zdrop n (zdrop offset data)) as Esplit.
    rewrite zdrop_zdrop in Esplit by lia.
    set (chunk := ztake n (zdrop offset data)) in *. rewrite <- Esplit.
    apply upload_ok_more; rewrite ?En.
    + rewrite Hnn. unfold bytestreamChunkSizeBytes, s_bytestreamChunkSizeBytes. lia.
    + rewrite zlen_zdrop; lia.
    + apply IH; [lia|].
      unfold bytestreamChunkSizeBytes, s_bytestreamChunkSizeBytes in Hnn. lia.
Qed.

(** What such requests carry. *)
Lemma upload_ok_data resource limit offset data rs :
  upload_ok resource limit offset data rs ->
  rs <> [] /\ concat (wr_data <$> rs) = data /\
  Forall (fun r => wr_resource_name r = resource /\ zlen (wr_data r) <= limit) rs.
Proof.
  induction 1 as [offset data Hl|offset chunk data rs Hc Hd _ (Hne & IH & Hall)].
  - split; [done|]. cbn. rewrite app_nil_r. split; [done|]. by repeat constructor.
  - split; [done|]. cbn. rewrite IH. split; [done|].
    constructor; [|done].
    cbn. split; [done|lia].
Qed.

(** ** Writing a file *)

Section fd.
Context {W : Type} (env : Env W).
Context (Hread : forall w, sys_read_error env w = (None, w)).

Lemma upload_fd_loop_write_all fuel resource digest data offset w :
  0 <= offset <= zlen data -> size_bytes digest = zlen data ->
  exists fd,
    upload_fd_loop env fuel resource digest offset (w, MkFd data offset) =
    (Ok tt, (write_all env (string_requests fuel resource data offset) w, fd)) /\
    fd_data fd = data.
Proof.
  revert offset w. induction fuel as [|fuel IH]; intros offset w Ho Hsz.
  - by eexists.
  - cbn [upload_fd_loop string_requests]. rewrite Hread.
    unfold fd_read, string_request. cbn [fd_data fd_pos].
    set (n := Z.min bytestreamChunkSizeBytes (zlen data - offset)).
    assert (0 <= n <= zlen data - offset /\ (n = 0 -> offset = zlen data)) as [Hn Hn0]
      by (subst n; unfold bytestreamChunkSizeBytes, s_bytestreamChunkSizeBytes; lia).
    assert (zlen (ztake n (zdrop offset data)) = n) as En
      by (rewrite zlen_ztake_le; [done|rewrite zlen_zdrop; lia]).
    assert (ztake bytestreamChunkSizeBytes (zdrop offset data) =
            ztake n (zdrop offset data)) as ->.
    { subst n. destruct (Z.le_ge_cases bytestreamChunkSizeBytes (zlen data - offset)).
      - by rewrite Z.min_l.
      - rewrite Z.min_r by done. by rewrite !ztake_ge by (rewrite zlen_zdrop; lia). }
    rewrite En, Hsz.
    assert (negb (offset + n <? zlen data) = (offset + n =? zlen data)) as ->
      by (destruct (Z.ltb_spec (offset + n) (zlen data)),
            (Z.eqb_spec (offset + n) (zlen data)); done || lia).
    assert (negb (offset + n =? zlen data) && (n =? 0) = false) as ->
      by (destruct (Z.eqb_spec (offset + n) (zlen data)), (Z.eqb_spec n 0); done || lia).
    cbn [write_all wr_finish_write wr_data].
    destruct (writer_Write env _ w) as [[] w1]; cbn [negb]; [|by eexists].
    destruct (offset + n =? zlen data) eqn:E; [by eexists|].
    rewrite En. apply IH; [lia|done].
Qed.

(** A first attempt sends what the upload of the contents sends. *)
Lemma upload_fd_lambda_string resource digest data w :
  size_bytes digest = zlen data ->
  exists fd,
    upload_fd_lambda env resource digest (w, MkFd data 0) =
    (let '(r, w') := uploadLambda env resource data digest w in (r, (w', fd))) /\
    fd_data fd = data.
Proof.
  intros Hsz. unfold upload_fd_lambda, uploadLambda. cbn [fd_data].
  pose proof (zlen_nonneg data).
  destruct (upload_fd_loop_write_all (S (length data)) resource digest data 0
    (stub_Write env w)) as (fd & -> & Hfd); [lia|done|].
  exists fd. rewrite upload_string_write_all.
  by destruct (finish_upload env digest _) as [r w'].
Qed.

(** At the end of the file a nonempty upload throws. *)
Lemma upload_fd_at_end resource digest data w :
  0 < size_bytes digest ->
  exists s, upload_fd_lambda env resource digest (w, MkFd data (zlen data))
    = (Throw RuntimeError, s).
Proof.
  intros Hsz. unfold upload_fd_lambda. cbn [fd_data upload_fd_loop].
  rewrite Hread. unfold fd_read. cbn [fd_data fd_pos].
  rewrite (zdrop_ge (zlen data)) by lia.
  assert (ztake bytestreamChunkSizeBytes (@nil ascii) = []) as -> by apply take_nil.
  change (zlen (@nil ascii)) with 0. rewrite Z.add_0_l.
  rewrite (proj2 (Z.ltb_lt _ _) Hsz). cbn. by eexists.
Qed.

(** When every request is accepted the file has been read to its end. *)
Lemma upload_fd_accepted fuel resource digest data offset w :
  (forall r w, exists w', writer_Write env r w = (true, w')) ->
  0 <= offset <= zlen data -> size_bytes digest = zlen data ->
  zlen data - offset < Z.of_nat fuel ->
  exists w', upload_fd_loop env fuel resource digest offset (w, MkFd data offset) =
    (Ok tt, (w', MkFd data (zlen data))).
Proof.
  intros Hacc. revert offset w. induction fuel as [|fuel IH]; intros offset w Ho Hsz Hf; [lia|].
  cbn [upload_fd_loop]. rewrite Hread. unfold fd_read. cbn [fd_data fd_pos].
  set (bytes := ztake bytestreamChunkSizeBytes (zdrop offset data)).
  assert (zlen bytes = Z.min bytestreamChunkSizeBytes (zlen data - offset)) as Eb.
  { subst bytes. rewrite zlen_ztake by done. by rewrite zlen_zdrop. }
  unfold bytestreamChunkSizeBytes, s_bytestreamChunkSizeBytes in Eb.
  destruct (Hacc (MkWriteRequest resource offset bytes
    (negb (offset + zlen bytes <? size_bytes digest))) w) as [w1 E].
  destruct (Z.ltb_spec (offset + zlen bytes) (size_bytes digest)) as [Hlt|Hge];
    cbn [negb andb] in *.
  - destruct (Z.eqb_spec (zlen bytes) 0); [lia|]. rewrite E. cbn [negb].
    apply IH; lia.
  - rewrite E. cbn [negb]. eexists. do 3 f_equal. lia.
Qed.
End fd.

(** ** Resource names *)

Lemma no_slash_split (h1 h2 s1 s2 : str) :
  "/"%char ∉ h1 -> "/"%char ∉ h2 ->
  h1 ++ "/"%char :: s1 = h2 ++ "/"%char :: s2 -> h1 = h2 /\ s1 = s2.
Proof.
  revert h2. induction h1 as [|c h1 IH]; intros [|c2 h2] H1 H2 E; cbn in E.
  - by injection E as ->.
  - injection E as <- _. exfalso. apply H2. left.
  - injection E as -> _. exfalso. apply H1. left.
  - injection E as -> E. rewrite not_elem_of_cons in H1, H2.
    destruct (IH h2) as [-> ->]; naive_solver.
Qed.

Lemma lit_inj s t : lit s = lit t -> s = t.
Proof.
  unfold lit. revert t. induction s as [|c s IH]; intros [|c' t] E; cbn in E; try done.
  injection E as -> E. by rewrite (IH t).
Qed.

Lemma to_string_inj a b : to_string a = to_string b -> a = b.
Proof. intros E. by apply lit_inj, (inj pretty) in E. Qed.

(** ** Properties *)

(** A small server for the examples: it holds one blob; the first calls fail
    with UNAVAILABLE, a failing read after two bytes. *)
Definition toy_env (blob : str) : Env (nat * Z) :=
  {| stub_Read := fun _ off '(n, c) =>
       match n with
       | O => ([zdrop off blob], status_of OK, (O, c))
       | S n => ([ztake 2 (zdrop off blob)], status_of UNAVAILABLE, (n, c))
       end;
     stub_Write := fun '(n, _) => (n, 0);
     writer_Write := fun r '(n, c) => (true, (n, c + zlen (wr_data r)));
     writer_Finish := fun '(n, c) =>
       match n with
       | O => (status_of OK, c, (O, c))
       | S n => (status_of UNAVAILABLE, 0, (n, c))
       end;
     stub_GetCapabilities := fun _ w => (status_of OK, 1000, w);
     sys_write := fun n w => (n, w);
     sys_read_error := fun w => (None, w);
     sys_errno := fun _ => 5;
     retry_delay := fun _ => None |}.

Definition toy_client : Client := MkClient (L "inst") (L "uuid") 3 100 0.
Definition toy_digest_of (s : str) : Digest := digest_of (DigestFunction := toy_digests) s.

(** C2. [fetchString] returns only data of the requested size whose digest is
    the requested one, and returns it when the first read delivers it. *)
Theorem fetchString_verified {W : Type} (env : Env W) (CD : ClientDigestFunction)
    (self : Client) (digest : Digest) (w : W) :
  (forall data w', fetchString env self digest w = (Ok data, w') ->
     zlen data = size_bytes digest /\ digest_equiv (client_digest_of data) digest) /\
  (forall responses st w',
     stub_Read env (makeResourceName self digest false) 0 w = (responses, st, w') ->
     ok st = true -> digest_equiv (client_digest_of (concat responses)) digest ->
     zlen (concat responses) = size_bytes digest ->
     fetchString env self digest w = (Ok (concat responses), w')).
Proof.
  split.
  - intros data w' E. apply (fetchString_inv env self digest w (Ok data) w' E).
  - intros responses st w' E Hok Hd Hs. unfold fetchString, with_captured, mbind_M.
    assert (fetchLambda env (makeResourceName self digest false) digest (w, []) =
      (Ok st, (w', concat responses))) as El.
    { unfold fetchLambda. rewrite E, Hok, Hs, Z.eqb_refl. cbn [negb].
      by rewrite (proj2 (digest_neqb_equiv _ _) Hd). }
    by rewrite (issue_first_ok env self _ _ st _ El Hok).
Qed.

(** Data with the digest that was asked for, but not by the function of the client,
    is refused: in a build with another function than SHA256 every blob of which a
    digest was made by [CASHash::hash] is. *)
Theorem fetchString_other_function {W : Type} (env : Env W) (CD : ClientDigestFunction)
    (self : Client) (digest : Digest) (w w' : W) (responses : list str) (st : Status)
    (Hread : stub_Read env (makeResourceName self digest false) 0 w = (responses, st, w'))
    (Hok : ok st = true)
    (Hother : ~ digest_equiv (client_digest_of (concat responses)) digest) :
  fetchString env self digest w = (Throw RuntimeError, w').
Proof.
  unfold fetchString, with_captured, mbind_M.
  assert (exists data, fetchLambda env (makeResourceName self digest false) digest (w, []) =
    (Throw RuntimeError, (w', data))) as [data El].
  { unfold fetchLambda. rewrite Hread, Hok. destruct (negb _); [by eexists|].
    destruct (digest_neqb _ _) eqn:En; [by eexists|]. by apply digest_neqb_equiv in En. }
  by rewrite (issue_first_throw env self _ _ _ _ El).
Qed.

Lemma fetchString_other_function_witness :
  fetchString (toy_env (L "hello")) (CD := toy_client_digests) toy_client
    (MkDigest (L "by another function") 5 []) (O, 0) = (Throw RuntimeError, (O, 0)).
Proof.
  apply (fetchString_other_function (toy_env (L "hello")) toy_client_digests toy_client _ (O, 0)
           (O, 0) [L "hello"] (status_of OK)); [reflexivity|reflexivity|].
  vm_compute. discriminate.
Defined.

Lemma fetchString_verified_witness :
  let d := toy_digest_of (L "hello") in
  fetchString (toy_env (L "hello")) (CD := toy_client_digests) toy_client d (O, 0)
    = (Ok (L "hello"), (O, 0)) /\
  zlen (L "hello") = size_bytes d.
Proof.
  intros d.
  assert (fetchString (toy_env (L "hello")) (CD := toy_client_digests) toy_client d (O, 0)
    = (Ok (L "hello"), (O, 0))) as E.
  { apply (proj2 (fetchString_verified (toy_env (L "hello")) toy_client_digests toy_client d
      (O, 0)) [L "hello"] (status_of OK)); vm_compute; reflexivity. }
  split; [exact E|].
  exact (proj1 (proj1 (fetchString_verified _ toy_client_digests _ _ _) _ _ E)).
Defined.

(** What [download] returns was verified. *)
Lemma download_checked {W : Type} (env : Env W) (CD : ClientDigestFunction)
    (self : Client) (digest : Digest) (w w' : W) (f : file) :
  download env self (MkFd [] 0) digest w = (Ok f, w') ->
  zlen (fd_data f) = size_bytes digest /\
  digest_equiv (client_digest_of (fd_data f)) digest.
Proof.
  intros Hrun.
  destruct (download_last env self digest w f w' Hrun)
    as (w0 & d0 & st & d' & Hc & E & Hok & ->).
  assert (download_inv d0) as Hd0.
  { apply (failed_calls_inv _ (fun s => download_inv s.2) _ _ Hc download_inv_start).
    intros [wa da] st' [wb db] Ha Eb.
    by destruct (downloadLambda_step _ _ _ _ _ _ _ _ Ha Eb) as (? & ? & ? & _ & _ & ? & _). }
  destruct (downloadLambda_step _ _ _ _ _ _ _ _ Hd0 E)
    as (responses & w1 & w2 & _ & _ & _ & _ & Hv).
  by apply Hv.
Qed.

(** C3. [download] leaves in the (new) file exactly the data it verified:
    it returns only if the file has the requested size and digest, whatever
    attempts were resumed on the way. *)
Theorem download_verified {W : Type} (env : Env W) (CD : ClientDigestFunction)
    (self : Client) (digest : Digest) (w w' : W) (f : file)
    (Hrun : download env self (MkFd [] 0) digest w = (Ok f, w')) :
  zlen (fd_data f) = size_bytes digest /\
  digest_equiv (client_digest_of (fd_data f)) digest.
Proof. exact (download_checked env CD self digest w w' f Hrun). Qed.

Lemma download_verified_witness :
  exists f, download (toy_env (L "hello")) (CD := toy_client_digests) toy_client (MkFd [] 0)
      (toy_digest_of (L "hello")) (2%nat, 0) = (Ok f, (O, 0)) /\
    zlen (fd_data f) = 5.
Proof.
  set (f := MkFd (L "hello") 5).
  assert (download (toy_env (L "hello")) (CD := toy_client_digests) toy_client (MkFd [] 0)
      (toy_digest_of (L "hello")) (2%nat, 0) = (Ok f, (O, 0))) as E
    by (vm_compute; reflexivity).
  exists f. split; [exact E|].
  exact (proj1 (download_verified _ toy_client_digests _ _ _ _ _ E)).
Defined.

(** Resumed downloads lose and repeat nothing: against a server that
    serves the blob from the requested offset, possibly breaking off anywhere,
    the file is a prefix of the blob (hence the blob itself when it has its
    size), independently of the digest check. *)
Theorem download_resumes {W : Type} (env : Env W) (CD : ClientDigestFunction)
    (self : Client) (digest : Digest) (blob : str) (w w' : W) (f : file)
    (Hserver : forall resource off w responses st w1,
       0 <= off -> stub_Read env resource off w = (responses, st, w1) ->
       concat responses `prefix_of` zdrop off blob)
    (Hrun : download env self (MkFd [] 0) digest w = (Ok f, w')) :
  fd_data f `prefix_of` blob /\
  (zlen blob = size_bytes digest -> fd_data f = blob).
Proof.
  destruct (download_last env self digest w f w' Hrun)
    as (w0 & d0 & st & d' & Hc & E & Hok & ->).
  set (P := fun d => download_inv d /\ digestContext d `prefix_of` blob).
  assert (forall wa da st wb db, P da ->
    downloadLambda env (makeResourceName self digest false) digest (wa, da)
      = (Ok st, (wb, db)) -> P db) as Hstep.
  { intros wa da st' wb db [Ha Hp] Eb.
    destruct (downloadLambda_step _ _ _ _ _ _ _ _ Ha Eb)
      as (responses & w1 & w2 & Er & _ & Hd & Ec & _).
    split; [done|]. rewrite Ec. destruct Hp as [rest Hp].
    destruct Ha as (_ & _ & Hb). rewrite Hb in Er.
    apply Hserver in Er; [|apply zlen_nonneg].
    rewrite Hp, zdrop_app_eq in Er by done. rewrite Hp. by apply prefix_app. }
  assert (P d0) as Hd0.
  { apply (failed_calls_inv _ (fun s => P s.2) _ _ Hc).
    - split; [done|apply prefix_nil].
    - intros [wa da] st' [wb db] Ha Eb. by eapply Hstep. }
  pose proof (Hstep _ _ _ _ _ Hd0 E) as [(Hf & _) Hp].
  destruct (downloadLambda_step _ _ _ _ _ _ _ _ (proj1 Hd0) E)
    as (? & ? & ? & _ & _ & _ & _ & Hv). destruct (Hv Hok) as [Hsz _].
  rewrite Hf in *. split; [done|]. intros Hb. destruct Hp as [rest Hp].
  assert (rest = []) as ->; [|by rewrite app_nil_r in Hp].
  apply zlen_zero. rewrite <- Hb, Hp, zlen_app in Hsz. lia.
Qed.

Lemma download_resumes_witness :
  exists f, download (toy_env (L "hello")) (CD := toy_client_digests) toy_client (MkFd [] 0)
      (toy_digest_of (L "hello")) (2%nat, 0) = (Ok f, (O, 0)) /\
    fd_data f = L "hello".
Proof.
  set (f := MkFd (L "hello") 5).
  assert (download (toy_env (L "hello")) (CD := toy_client_digests) toy_client (MkFd [] 0)
      (toy_digest_of (L "hello")) (2%nat, 0) = (Ok f, (O, 0))) as E
    by (vm_compute; reflexivity).
  exists f. split; [exact E|].
  refine (proj2 (download_resumes _ toy_client_digests _ _ (L "hello") _ _ _ _ E) _).
  - intros resource off [n c] responses st w1 Hoff.
    destruct n as [|n]; cbn; intros [= <- <- <-]; cbn; rewrite app_nil_r.
    + apply reflexivity.
    + exists (zdrop 2 (zdrop off (L "hello"))). symmetry. apply ztake_zdrop.
  - vm_compute. reflexivity.
Defined.

(** Uploading a string whose size is not the digest's throws
    [std::logic_error]; otherwise every attempt writes, until the server
    refuses, the same requests: they carry the data in order and contiguously,
    at most 1 MiB each, and exactly the last one finishes the write. *)
Theorem upload_chunks {W : Type} (env : Env W) (self : Client) (data : str)
    (digest : Digest) (w : W) :
  (zlen data <> size_bytes digest ->
   upload env self data digest w = (Throw LogicError, w)) /\
  (zlen data = size_bytes digest ->
   exists rs attempt,
     upload env self data digest w =
     issueRequestAndThrowOnErrors env self attempt w /\
     (forall w, attempt w =
        finish_upload env digest (write_all env rs (stub_Write env w))) /\
     upload_ok (makeResourceName self digest true) (1024 * 1024) 0 data rs /\
     concat (wr_data <$> rs) = data).
Proof.
  unfold upload. split; intros E.
  - by rewrite (proj2 (Z.eqb_neq _ _) E).
  - rewrite (proj2 (Z.eqb_eq _ _) E). cbn [negb].
    set (resource := makeResourceName self digest true).
    exists (string_requests (S (length data)) resource data 0).
    exists (uploadLambda env resource data digest). split; [done|]. split.
    { intros w0. unfold uploadLambda. by rewrite upload_string_write_all. }
    pose proof (zlen_nonneg data).
    pose proof (string_requests_ok (S (length data)) resource data 0) as Hok.
    specialize (Hok ltac:(lia) ltac:(unfold zlen; lia)).
    split; [exact Hok|by apply upload_ok_data in Hok as (_ & ? & _)].
Qed.

Lemma upload_chunks_witness :
  upload (toy_env []) toy_client (L "hello") (toy_digest_of (L "hell")) (O, 0)
  = (Throw LogicError, (O, 0)).
Proof. apply upload_chunks. vm_compute. discriminate. Defined.

(** The first attempt to upload a file does what uploading its contents as a
    string does (when reading does not fail). *)
Theorem upload_fd_first_attempt {W : Type} (env : Env W) (resource : str)
    (digest : Digest) (data : str) (w : W)
    (Hread : forall w, sys_read_error env w = (None, w))
    (Hsize : size_bytes digest = zlen data) :
  exists fd,
    upload_fd_lambda env resource digest (w, MkFd data 0) =
    (let '(r, w') := uploadLambda env resource data digest w in (r, (w', fd))).
Proof.
  destruct (upload_fd_lambda_string env Hread resource digest data w Hsize)
    as (fd & E & _). by exists fd.
Qed.

Lemma upload_fd_first_attempt_witness :
  exists fd,
    upload_fd_lambda (toy_env []) (L "r") (toy_digest_of (L "hello"))
      ((O, 0), MkFd (L "hello") 0) = (Ok (status_of OK), ((O, 5), fd)).
Proof.
  destruct (upload_fd_first_attempt (toy_env []) (L "r") (toy_digest_of (L "hello"))
    (L "hello") (O, 0)) as (fd & E).
  - reflexivity.
  - vm_compute; reflexivity.
  - exists fd. rewrite E. vm_compute. reflexivity.
Defined.

(** A retried upload of a file fails: the descriptor is rewound before the
    first attempt only, so when the server takes all of a nonempty file and
    then answers UNAVAILABLE, the next attempt finds the end of the file and
    throws [std::runtime_error] instead of sending the blob again. *)
Theorem upload_fd_retry_throws {W : Type} (env : Env W) (self : Client)
    (digest : Digest) (data : str) (pos : Z) (w w1 : W) (committed : Z) (st : Status)
    (Hread : forall w, sys_read_error env w = (None, w))
    (Haccept : forall r w, exists w', writer_Write env r w = (true, w'))
    (Hfinish : forall w, exists w1, writer_Finish env w = (st, committed, w1))
    (Hst : error_code st = UNAVAILABLE)
    (Hlimit : 1 <= u32 (d_grpcRetryLimit self))
    (Hsize : size_bytes digest = zlen data) (Hpos : 0 < zlen data) :
  exists w', upload_fd env self (MkFd data pos) digest w = (Throw RuntimeError, w').
Proof.
  unfold upload_fd, with_captured, mbind_M. cbn [fd_data].
  set (resource := makeResourceName self digest true).
  destruct (upload_fd_accepted env Hread (S (length data)) resource digest data 0
    (stub_Write env w) Haccept) as (wa & E); [lia|done|unfold zlen; lia|].
  destruct (Hfinish wa) as [wb Eb].
  assert (upload_fd_lambda env resource digest (w, MkFd data 0) =
    (Ok st, (wb, MkFd data (zlen data)))) as E1.
  { unfold upload_fd_lambda. cbn [fd_data]. rewrite E. unfold finish_upload.
    rewrite Eb. unfold ok. by rewrite Hst. }
  destruct (upload_fd_at_end env Hread resource digest data wb) as [[wc fc] E2]; [lia|].
  rewrite (issue_retry_throw env self _ _ st _ _ _ Hlimit E1 Hst E2). by eexists.
Qed.

Lemma upload_fd_retry_throws_witness :
  let env := toy_env [] in
  let env' := MkEnv _ (stub_Read env) (stub_Write env) (writer_Write env)
    (fun w => (status_of UNAVAILABLE, 0, w)) (stub_GetCapabilities env)
    (sys_write env) (sys_read_error env) (sys_errno env) (retry_delay env) in
  exists w', upload_fd env' toy_client (MkFd (L "hello") 0)
    (toy_digest_of (L "hello")) (O, 0) = (Throw RuntimeError, w').
Proof.
  intros env env'.
  apply (upload_fd_retry_throws env' toy_client (toy_digest_of (L "hello"))
    (L "hello") 0 (O, 0) (O, 0) 0 (status_of UNAVAILABLE)).
  - reflexivity.
  - intros r [n c]. eexists. reflexivity.
  - intros w. eexists. reflexivity.
  - reflexivity.
  - vm_compute. discriminate.
  - vm_compute. reflexivity.
  - vm_compute. reflexivity.
Defined.

(** Download resource names tell digests apart: for hashes without a slash,
    equal names mean equal digests (up to [operator==]). *)
Theorem resource_name_injective (self : Client) (d1 d2 : Digest) (isUpload : bool)
    (H1 : "/"%char ∉ hash_other d1) (H2 : "/"%char ∉ hash_other d2)
    (E : makeResourceName self d1 isUpload = makeResourceName self d2 isUpload) :
  digest_equiv d1 d2.
Proof.
  unfold makeResourceName in E. do 3 apply app_inv_head in E.
  apply no_slash_split in E as [Eh Es]; [|done|done].
  apply digest_eqb_spec. split; [done|]. by apply to_string_inj.
Qed.

Lemma resource_name_injective_witness :
  digest_equiv (MkDigest (L "aa") 3 []) (MkDigest (L "aa") 3 [1]).
Proof.
  apply (resource_name_injective toy_client (MkDigest (L "aa") 3 [])
    (MkDigest (L "aa") 3 [1]) true).
  - apply (bool_decide_unpack _). vm_compute. exact I.
  - apply (bool_decide_unpack _). vm_compute. exact I.
  - reflexivity.
Defined.

(** After a successful [init] the batch size is positive and at most the
    gRPC limit less the room for metadata, and nothing else of the
    configuration changed. *)
Theorem init_batch_size {W : Type} (env : Env W) (self c : Client) (uuid : str)
    (w w' : W) (Hrun : init env self uuid w = (Ok c, w')) :
  0 < d_maxBatchTotalSizeBytes c <=
    GRPC_DEFAULT_MAX_RECV_MESSAGE_LENGTH - MAX_ROOM_FOR_METADATA /\
  d_instanceName c = d_instanceName self /\ d_uuid c = uuid /\
  d_grpcRetryLimit c = d_grpcRetryLimit self /\
  d_grpcRetryDelay c = d_grpcRetryDelay self.
Proof.
  unfold init, with_captured, mbind_M in Hrun.
  set (max := _ - _) in *. set (self0 := set_maxBatch self max) in *.
  destruct (issueRequest_run (retry_delay env) (getCapabilitiesLambda env)
    (u32 (d_grpcRetryLimit self0)) (d_grpcRetryDelay self0) ∅ (w, self0))
    as (r & n & [w1 c1] & Ho & _ & Hr).
  { unfold u32. by apply Z.mod_pos_bound. }
  unfold makeRetrier in Hrun.
  apply outcome_last in Ho as ([w0 c0] & Hc & Hlast).
  destruct r as [[b st]|e]; [|by rewrite Hr in Hrun].
  destruct Hr as (self' & sleeps & Er & _). rewrite Er in Hrun.
  set (P := fun c => 0 < d_maxBatchTotalSizeBytes c <= max /\ d_instanceName c = d_instanceName self /\ d_grpcRetryLimit c = d_grpcRetryLimit self /\ d_grpcRetryDelay c = d_grpcRetryDelay self).
  assert (forall wa ca st wb cb, P ca ->
    getCapabilitiesLambda env (wa, ca) = (Ok st, (wb, cb)) -> P cb) as Hstep.
  { intros wa ca st' wb cb (Hb & Hi & Hl & Hd) E. unfold getCapabilitiesLambda in E.
    destruct (stub_GetCapabilities env _ wa) as [[s m] w2]. injection E as <- <- <-.
    destruct (ok s && _ && _) eqn:Eb; [|done]. b2p. unfold P. cbn. split; [lia|done]. }
  assert (P c1) as (Hb & Hi & Hl & Hd).
  { apply (Hstep w0 c0 st w1 c1); [|by destruct Hlast].
    apply (failed_calls_inv _ (fun s => P s.2) _ _ Hc).
    - unfold P. cbn. split; [vm_compute; split; congruence|done].
    - intros [wa ca] st' [wb cb]. apply Hstep. }
  cbn in Hrun. destruct (negb b || _); [done|]. by injection Hrun as <- <-.
Qed.

Lemma init_batch_size_witness :
  exists c w', init (toy_env []) toy_client (L "id") (O, 0) = (Ok c, w') /\ 0 < d_maxBatchTotalSizeBytes c.
Proof.
  set (c := MkClient (L "inst") (L "id") 3 100 1000).
  assert (init (toy_env []) toy_client (L "id") (O, 0) = (Ok c, (O, 0))) as E
    by (vm_compute; reflexivity).
  exists c, (O, 0). split; [exact E|].
  apply (init_batch_size _ _ _ _ _ _ E).
Defined.
