(* ===== verification/ClientBlobs.v ===== *)
(** * The CAS client: transfers of many blobs

    [buildboxcommon_client.cpp], second part: batches, [findMissingBlobs],
    [uploadBlobs], [downloadBlobs], and the directory operations. *)

From S2P Require Import Prelude StdMap Arrays Blake3Compress Digest TimeUtils Grpc Merklize Client.
Open Scope Z_scope.

(** ** Requests and the environment *)

Record UploadRequest := MkUploadRequest {
  ur_digest : Digest;
  ur_data : str;
  ur_path : str;
}.

(** A digest and the code of its status. *)
Definition UploadResult : Type := Digest * Z.
Definition DownloadResult : Type := Digest * Z.

Record CaptureRequest := MkCaptureRequest {
  cq_instance_name : str;
  cq_bypass_local_cache : bool;
  cq_path : list str;
  cq_node_properties : list str;
}.

Record NodeProperties := MkNodeProperties {
  np_properties : list (str * str);
  np_mtime : option Timestamp;
  np_unix_mode : option Z;
}.

(** The responses to a capture, one per path; a status is its code. *)
Record CapturedTree := MkCapturedTree {
  ct_path : str;
  ct_tree_digest : Digest;
  ct_status : Z;
}.

Record CapturedFile := MkCapturedFile {
  cf_path : str;
  cf_digest : Digest;
  cf_status : Z;
  cf_is_executable : bool;
  cf_node_properties : NodeProperties;
}.

Record CasEnv (W : Type) := MkCasEnv {
  cas_env :> Env W;
  (** [BatchUpdateBlobs]: per blob, the digest and the code. *)
  stub_BatchUpdateBlobs : str -> list (Digest * str) -> W -> Status * list UploadResult * W;
  (** [BatchReadBlobs]: per blob, the digest, the data and the code. *)
  stub_BatchReadBlobs : str -> list Digest -> W -> Status * list (Digest * str * Z) * W;
  stub_FindMissingBlobs : str -> list Digest -> W -> Status * list Digest * W;
  (** [GetTree]: the directories of each response, and the final status. *)
  stub_GetTree : str -> Digest -> W -> list (list Directory) * Status * W;
  (** [FetchTree] of the local CAS; its response is empty. *)
  stub_FetchTree : str -> bool -> Digest -> W -> Status * W;
  (** [CaptureTree] and [CaptureFiles] of the local CAS. *)
  stub_CaptureTree : CaptureRequest -> W -> Status * list CapturedTree * W;
  stub_CaptureFiles : CaptureRequest -> W -> Status * list CapturedFile * W;
  (** The stream of [StageTree]: opening it, [Write] of a request ([None] is
      the empty one), [Read] of a path, [WritesDone], [Finish]. *)
  stub_StageTree : W -> W;
  stage_Write : option (str * Digest * str) -> W -> bool * W;
  stage_Read : W -> option str * W;
  stage_WritesDone : W -> W;
  stage_Finish : W -> Status * W;
  (** [open] for reading: an errno, or the contents. *)
  sys_open : str -> W -> (Z + str) * W;
  (** Reading a whole file ([std::ifstream]); it may not open or not read. *)
  sys_load : str -> W -> option str * W;
  (** [open] for writing a new file: an errno, or nothing. *)
  sys_create : str -> W -> option Z * W;
  (** The file at a path now holds this. *)
  fs_put : str -> str -> W -> W;
  (** Writing a whole file ([std::ofstream]): did it succeed? *)
  sys_store : str -> str -> W -> bool * W;
  sys_mkdir : str -> W -> option Z * W;
  sys_symlink : str -> str -> W -> option Z * W;
  (** [Digest::ByteSizeLong] of protobuf. *)
  ByteSizeLong : Digest -> Z;
  (** [Directory::ParseFromString] of protobuf. *)
  ParseDirectory : str -> option Directory;
}.
Arguments cas_env {W}. Arguments stub_BatchUpdateBlobs {W}.
Arguments stub_BatchReadBlobs {W}. Arguments stub_FindMissingBlobs {W}.
Arguments stub_GetTree {W}. Arguments stub_CaptureTree {W}.
Arguments stub_CaptureFiles {W}. Arguments stub_FetchTree {W}.
Arguments stub_StageTree {W}. Arguments stage_Write {W}. Arguments stage_Read {W}.
Arguments stage_WritesDone {W}. Arguments stage_Finish {W}. Arguments sys_open {W}.
Arguments sys_load {W}. Arguments sys_create {W}. Arguments fs_put {W}. Arguments sys_store {W}.
Arguments sys_mkdir {W}. Arguments sys_symlink {W}.
Arguments ByteSizeLong {W}. Arguments ParseDirectory {W}.

(** ** [makeBatches] *)

Definition SIZEOF_ESTIMATED_TOP_LEVEL_GRPC_CONTAINER : Z := 256.
Definition PER_BLOB_METADATA_SIZE : Z := 256.

(** The inner loop: how many digests of [digests] fit on top of
    [bytes_in_batch]. *)
Fixpoint fill_batch (max_batch_size bytes_in_batch : Z) (digests : list Digest)
  : nat :=
  match digests with
  | [] => O
  | d :: digests =>
      if u64 (u64 (bytes_in_batch + size_bytes d) + PER_BLOB_METADATA_SIZE)
         <=? max_batch_size
      then
        S (fill_batch max_batch_size
             (u64 (bytes_in_batch + u64 (size_bytes d + PER_BLOB_METADATA_SIZE)))
             digests)
      else O
  end.

(** The outer loop; [batch_start = batch_end] at its head. *)
Fixpoint makeBatches_loop (fuel : nat) (max_batch_size : Z) (batch_end : nat)
    (digests : list Digest) : list (nat * nat) :=
  match fuel with
  | O => []
  | S fuel =>
      match drop batch_end digests with
      | [] => []
      | d :: _ =>
          if max_batch_size <? u64 (size_bytes d + PER_BLOB_METADATA_SIZE) then []
          else
            let batch_start := batch_end in
            let batch_end :=
              (batch_start + fill_batch max_batch_size 0 (drop batch_start digests))%nat in
            (batch_start, batch_end)
              :: makeBatches_loop fuel max_batch_size batch_end digests
      end
  end.

Definition makeBatches (self : Client) (digests : list Digest) : list (nat * nat) :=
  let max_batch_size :=
    u64 (d_maxBatchTotalSizeBytes self - SIZEOF_ESTIMATED_TOP_LEVEL_GRPC_CONTAINER) in
  makeBatches_loop (length digests) max_batch_size 0 digests.

(** [batches.rbegin()->second], or 0. *)
Definition batches_end (batches : list (nat * nat)) : nat :=
  match reverse batches with (_, batch_end) :: _ => batch_end | [] => O end.

(** ** [std::sort] *)

(** The standard's contract: some permutation in nondecreasing order. *)
Class StdSort := {
  std_sort : forall {A}, (A -> Z) -> list A -> list A;
  std_sort_perm : forall {A} (key : A -> Z) l, std_sort key l ≡ₚ l;
  std_sort_sorted : forall {A} (key : A -> Z) l i j x y,
    (i <= j)%nat -> std_sort key l !! i = Some x -> std_sort key l !! j = Some y ->
    key x <= key y;
}.

(** [std::runtime_error] and the classes derived from it. *)
Definition is_runtime_error (e : exn) : bool :=
  match e with
  | RuntimeError | RangeError | SystemError _ | GrpcError _ => true
  | LogicError | InvalidArgument | OutOfRange => false
  end.

(** [catch (const std::runtime_error &e)]. *)
Definition catch_runtime {S A} (m : M S A) (h : exn -> M S A) : M S A :=
  mcatch m (fun e => if is_runtime_error e then h e else mthrow e).

(** [throw e;] of a reference to [std::runtime_error] throws a copy of that
    class: what it was derived from is lost. *)
Definition rethrow_sliced {S A} : M S A := mthrow RuntimeError.

Section blobs.
Context {W : Type} (env : CasEnv W) `{CD : ClientDigestFunction} `{StdSort}.

(** ** Uploading *)

(** [FileUtils::getFileContents]. *)
Definition getFileContents (path : str) : M W str :=
  fun w => match sys_load env path w with
           | (None, w) => (Throw RuntimeError, w)
           | (Some contents, w) => (Ok contents, w)
           end.

Fixpoint batch_entries (requests : list UploadRequest) : M W (list (Digest * str)) :=
  match requests with
  | [] => mret []
  | r :: requests =>
      let* data := (if decide (ur_path r = []) then mret (ur_data r)
                    else getFileContents (ur_path r)) in
      let* entries := batch_entries requests in
      mret ((ur_digest r, data) :: entries)
  end.

(** [requests\[start_index, end_index)]. *)
Definition subrange {A} (start_index end_index : nat) (l : list A) : list A :=
  take (end_index - start_index) (drop start_index l).

Definition batchUpload (self : Client) (requests : list UploadRequest)
    (start_index end_index : nat) : M W (list UploadResult) :=
  let* entries := batch_entries (subrange start_index end_index requests) in
  let* (_, response) :=
    with_captured []
      (issueRequestAndThrowOnErrors env self
         (fun '(w, _) =>
            let '(status, response, w) :=
              stub_BatchUpdateBlobs env (d_instanceName self) entries w in
            (Ok status, (w, response)))) in
  mret (filter (fun r => r.2 <> OK) response).

Definition uploadRequest (self : Client) (request : UploadRequest) : M W unit :=
  if decide (ur_path request = []) then
    upload env self (ur_data request) (ur_digest request)
  else
    let* contents := (fun w =>
      match sys_open env (ur_path request) w with
      | (inl errno, w) => (Throw (SystemError errno), w)
      | (inr contents, w) => (Ok contents, w)
      end) in
    let* _ := upload_fd env self (MkFd contents 0) (ur_digest request) in
    mret tt.

Fixpoint upload_batches (self : Client) (request_list : list UploadRequest)
    (throw_on_error : bool) (batches : list (nat * nat)) : M W (list UploadResult) :=
  match batches with
  | [] => mret []
  | (batch_start, batch_end) :: batches =>
      let* digests_not_uploaded :=
        catch_runtime (batchUpload self request_list batch_start batch_end)
          (fun _ =>
             if throw_on_error then rethrow_sliced
             else
               mret (map (fun r => (ur_digest r, INTERNAL))
                       (subrange batch_start batch_end request_list))) in
      let* results := upload_batches self request_list throw_on_error batches in
      mret (digests_not_uploaded ++ results)
  end.

(** The blobs left for the ByteStream API. *)
Fixpoint upload_streams (self : Client) (throw_on_error : bool)
    (requests : list UploadRequest) : M W (list UploadResult) :=
  match requests with
  | [] => mret []
  | r :: requests =>
      let* failed :=
        catch_runtime (let* _ := uploadRequest self r in mret [])
          (fun e =>
             if throw_on_error then rethrow_sliced
             else
               mret [(ur_digest r,
                      match e with GrpcError code => code | _ => INTERNAL end)]) in
      let* results := upload_streams self throw_on_error requests in
      mret (failed ++ results)
  end.

Definition uploadBlobs (self : Client) (requests : list UploadRequest)
    (throw_on_error : bool) : M W (list UploadResult) :=
  let request_list := std_sort (fun r => size_bytes (ur_digest r)) requests in
  let digests := map ur_digest request_list in
  let batches := makeBatches self digests in
  let* batch_results := upload_batches self request_list throw_on_error batches in
  let* stream_results :=
    upload_streams self throw_on_error (drop (batches_end batches) request_list) in
  mret (batch_results ++ stream_results).

(** The overload without [throw_on_error]. *)
Definition uploadBlobs_results (self : Client) (requests : list UploadRequest)
  : M W (list UploadResult) := uploadBlobs self requests false.

(** ** Downloading *)

(** A lambda over [W] run where more is captured. *)
Definition on_world {C A} (m : M W A) : M (W * C) A :=
  fun '(w, c) => let '(r, w) := m w in (r, (w, c)).

Section downloading.
Context {C : Type}.
(** The callback, which may change what it captures. *)
Context (write_blob : str -> str -> M (W * C) unit).
Context (temp_directory : option str).

Definition store_file (path data : str) : M W unit :=
  fun w => let '(good, w) := sys_store env path data w in
           if good then (Ok tt, w) else (Throw (SystemError (sys_errno env w)), w).

(** The loop over the responses of a batch. *)
Fixpoint batch_responses (responses : list (Digest * str * Z))
  : M (W * C) (list DownloadResult) :=
  match responses with
  | [] => mret []
  | (digest, data, code) :: responses =>
      if code =? OK then
        if digest_neqb (client_digest_of data) digest then
          let* results := batch_responses responses in
          mret ((digest, INTERNAL) :: results)
        else
          let* _ :=
            match temp_directory with
            | None => write_blob (hash_other digest) data
            | Some temp_directory =>
                let path := temp_directory ++ L "/" ++ hash_other digest in
                let* _ := on_world (store_file path data) in
                write_blob (hash_other digest) path
            end in
          let* results := batch_responses responses in
          mret ((digest, code) :: results)
      else
        let* results := batch_responses responses in
        mret ((digest, code) :: results)
  end.

Definition batchDownload (self : Client) (digests : list Digest)
    (start_index end_index : nat) : M (W * C) (list DownloadResult) :=
  let* (_, response) :=
    on_world (with_captured []
      (issueRequestAndThrowOnErrors env self
         (fun '(w, _) =>
            let '(status, response, w) :=
              stub_BatchReadBlobs env (d_instanceName self)
                (subrange start_index end_index digests) w in
            (Ok status, (w, response))))) in
  batch_responses response.

Fixpoint download_batches (self : Client) (request_list : list Digest)
    (throw_on_error : bool) (batches : list (nat * nat))
  : M (W * C) (list DownloadResult) :=
  match batches with
  | [] => mret []
  | (batch_start, batch_end) :: batches =>
      let* batch_results :=
        catch_runtime (batchDownload self request_list batch_start batch_end)
          (fun _ =>
             if throw_on_error then rethrow_sliced
             else
               mret (map (fun d => (d, INTERNAL))
                       (subrange batch_start batch_end request_list))) in
      let* results := download_batches self request_list throw_on_error batches in
      mret (batch_results ++ results)
  end.

(** One blob over the ByteStream API, into memory or into a file.  What a
    failed download leaves in the file is not recorded. *)
Definition download_stream (self : Client) (digest : Digest) : M (W * C) unit :=
  match temp_directory with
  | None =>
      let* data := on_world (fetchString env self digest) in
      write_blob (hash_other digest) data
  | Some temp_directory =>
      let path := temp_directory ++ L "/" ++ hash_other digest in
      let* _ := on_world (fun w =>
        match sys_create env path w with
        | (Some errno, w) => (Throw (SystemError errno), w)
        | (None, w) => (Ok tt, w)
        end) in
      let* f := on_world (download env self (MkFd [] 0) digest) in
      let* _ := on_world (fun w => (Ok tt, fs_put env path (fd_data f) w)) in
      write_blob (hash_other digest) path
  end.

Fixpoint download_streams (self : Client) (throw_on_error : bool)
    (digests : list Digest) : M (W * C) (list DownloadResult) :=
  match digests with
  | [] => mret []
  | digest :: digests =>
      let* code :=
        catch_runtime (let* _ := download_stream self digest in mret OK)
          (fun e =>
             if throw_on_error then rethrow_sliced
             else mret (match e with GrpcError code => code | _ => INTERNAL end)) in
      let* results := download_streams self throw_on_error digests in
      mret ((digest, code) :: results)
  end.

(** The general [downloadBlobs]. *)
Definition downloadBlobs_with (self : Client) (digests : list Digest)
    (throw_on_error : bool) : M (W * C) (list DownloadResult) :=
  let request_list := std_sort size_bytes digests in
  let batches := makeBatches self request_list in
  let* batch_results := download_batches self request_list throw_on_error batches in
  let* stream_results :=
    download_streams self throw_on_error (drop (batches_end batches) request_list) in
  mret (batch_results ++ stream_results).
End downloading.

(** [unordered_map::emplace]: the first binding of a key stays. *)
Definition um_emplace {V} (k : str) (v : V) (m : gmap str V) : gmap str V :=
  match m !! k with Some _ => m | None => <[k := v]> m end.

(** Codes and data by hash. *)
Definition DownloadBlobsResult : Type := gmap str (Z * str).

Definition write_blob_result (hash data : str) : M (W * DownloadBlobsResult) unit :=
  fun '(w, downloaded_data) =>
    (Ok tt, (w, um_emplace hash (OK, data) downloaded_data)).

Definition downloadBlobs (self : Client) (digests : list Digest)
    (temp_directory : option str) : M W DownloadBlobsResult :=
  let* (download_results, downloaded_data) :=
    with_captured ∅
      (downloadBlobs_with write_blob_result temp_directory self digests false) in
  mret (foldl
    (fun m '(digest, code) =>
       if negb (code =? OK) then um_emplace (hash_other digest) (code, []) m else m)
    downloaded_data download_results).

(** Every output registered for a hash: its path and whether it is executable. *)
Definition OutputMap : Type := list (str * (str * bool)).

(** [FileUtils::writeFileAtomically] with mode 0644 (420) or 0755 (493) is a parameter. *)
Fixpoint write_outputs (writeFileAtomically : str -> str -> Z -> M W unit)
    (outputs : OutputMap) (hash data : str) : M W unit :=
  match outputs with
  | [] => mret tt
  | (h, (path, is_executable)) :: outputs =>
      let* _ :=
        (if decide (h = hash)
         then writeFileAtomically path data (if is_executable then 493 else 420)
         else mret tt) in
      write_outputs writeFileAtomically outputs hash data
  end.

Definition downloadBlobs_to_outputs
    (writeFileAtomically : str -> str -> Z -> M W unit) (self : Client)
    (digests : list Digest) (outputs : OutputMap) : M W unit :=
  let* _ :=
    with_captured tt
      (downloadBlobs_with
         (fun hash data => on_world (write_outputs writeFileAtomically outputs hash data))
         None self digests true) in
  mret tt.

(** ** Finding what is missing *)

(** The loop that splits the digests: the requests made so far, the digests of
    the current one and [batch_size]. *)
Definition split_digest (limit : Z) (st : list (list Digest) * list Digest * Z)
    (digest : Digest) : list (list Digest) * list Digest * Z :=
  let '(requests_to_issue, request, batch_size) := st in
  let digest_size := ByteSizeLong env digest in
  if limit <? u64 (batch_size + digest_size)
  then (requests_to_issue ++ [request], [digest], 0)
  else (requests_to_issue, request ++ [digest], u64 (batch_size + digest_size)).

Definition requests_to_issue (digests : list Digest) : list (list Digest) :=
  let '(requests, request, _) :=
    foldl (split_digest bytestreamChunkSizeBytes) ([], [], 0) digests in
  requests ++ [request].

Fixpoint issue_requests (self : Client) (requests : list (list Digest))
  : M W (list Digest) :=
  match requests with
  | [] => mret []
  | request_to_issue :: requests =>
      let* (_, response) :=
        with_captured []
          (issueRequestAndThrowOnErrors env self
             (fun '(w, _) =>
                let '(status, response, w) :=
                  stub_FindMissingBlobs env (d_instanceName self)
                    request_to_issue w in
                (Ok status, (w, response)))) in
      let* missing_blobs := issue_requests self requests in
      mret (response ++ missing_blobs)
  end.

Definition findMissingBlobs (self : Client) (digests : list Digest)
  : M W (list Digest) := issue_requests self (requests_to_issue digests).

(** A [digest_string_map] in the order a loop visits its entries; keys are
    compared by [operator==].  Where a new key lands is up to the container:
    here, last. *)
Definition entries : Type := list (Digest * str).

(** [at]. *)
Fixpoint um_at (m : entries) (digest : Digest) : res str :=
  match m with
  | [] => Throw OutOfRange
  | (d, v) :: m => if digest_eqb d digest then Ok v else um_at m digest
  end.

(** [m\[digest\] = v]. *)
Fixpoint um_set (m : entries) (digest : Digest) (v : str) : entries :=
  match m with
  | [] => [(digest, v)]
  | (d, v0) :: m =>
      if digest_eqb d digest then (d, v) :: m else (d, v0) :: um_set m digest v
  end.

(** The loop over the missing digests. *)
Fixpoint collect_missing (directory_map : entries) (missing_blobs : list Digest)
    (missing_files : entries) : res entries :=
  match missing_blobs with
  | [] => Ok missing_files
  | digest :: missing_blobs =>
      let! v := um_at directory_map digest in
      collect_missing directory_map missing_blobs (um_set missing_files digest v)
  end.

Definition missingDigests (self : Client) (directory_map : entries)
  : M W entries :=
  let* missing_blobs := findMissingBlobs self (map fst directory_map) in
  mlift (collect_missing directory_map missing_blobs []).

(** ** Trees *)

Definition getTree (self : Client) (root_digest : Digest)
  : M W (list Directory) :=
  fun w =>
    let '(responses, status, w) :=
      stub_GetTree env (d_instanceName self) root_digest w in
    if negb (ok status) then (Throw RuntimeError, w)
    else (Ok (concat responses), w).

Definition fetchTree (self : Client) (digest : Digest) (fetch_file_blobs : bool)
  : M W unit :=
  issueRequestAndThrowOnErrors env self
    (fun w =>
       let '(status, w) :=
         stub_FetchTree env (d_instanceName self) fetch_file_blobs digest w in
       (Ok status, w)).

Definition capture_request (self : Client) (paths properties : list str)
    (bypass_local_cache : bool) : CaptureRequest :=
  MkCaptureRequest (d_instanceName self) bypass_local_cache paths properties.

(** Both captures issue one request and keep its response. *)
Definition issue_capture {R} (stub : W -> Status * list R * W)
    (self : Client) : M W (list R) :=
  let* (_, response) :=
    with_captured []
      (issueRequestAndThrowOnErrors env self
         (fun '(w, _) =>
            let '(status, response, w) := stub w in (Ok status, (w, response)))) in
  mret response.

Definition captureTree (self : Client) (paths properties : list str)
    (bypass_local_cache : bool) : M W (list CapturedTree) :=
  issue_capture
    (stub_CaptureTree env (capture_request self paths properties bypass_local_cache))
    self.

Definition captureFiles (self : Client) (paths properties : list str)
    (bypass_local_cache : bool) : M W (list CapturedFile) :=
  issue_capture
    (stub_CaptureFiles env (capture_request self paths properties bypass_local_cache))
    self.

(** [stage]: the path of the [StagedDirectory]. *)
Definition stage (self : Client) (root_digest : Digest) (path : str) : M W str :=
  fun w =>
    let w := stub_StageTree env w in
    let '(succesful_write, w) :=
      stage_Write env (Some (d_instanceName self, root_digest, path)) w in
    if negb succesful_write then
      let '(_, w) := stage_Finish env w in (Throw RuntimeError, w)
    else
      let '(response, w) := stage_Read env w in
      match response with
      | None =>
          let w := stage_WritesDone env w in
          let '(_, w) := stage_Finish env w in (Throw RuntimeError, w)
      | Some d_path => (Ok d_path, w)
      end.

(** The destructor of [StagedDirectory]. *)
Definition StagedDirectory_delete (w : W) : W :=
  let '(_, w) := stage_Write env None w in stage_WritesDone env w.

(** [fetchMessage<Directory>]. *)
Definition fetchMessage (self : Client) (digest : Digest) : M W Directory :=
  let* data := fetchString env self digest in
  match ParseDirectory env data with
  | None => mthrow RuntimeError
  | Some result => mret result
  end.

(** ** [downloadDirectory] *)

Section directory.
Context (download_callback : list Digest -> OutputMap -> M W unit).
Context (return_directory_callback : Digest -> M W Directory).

Fixpoint make_symlinks (path : str) (symlinks : list SymlinkNode) : M W unit :=
  match symlinks with
  | [] => mret tt
  | symlink_node :: symlinks =>
      if bool_decide (sn_target symlink_node = [])
         || bool_decide (sn_name symlink_node = [])
      then make_symlinks path symlinks
      else
        let* failed := (fun w =>
          let '(r, w) :=
            sys_symlink env (sn_target symlink_node)
              (path ++ L "/" ++ sn_name symlink_node) w in
          (Ok r, w)) in
        match failed with
        | Some errno => mthrow (SystemError errno)
        | None => make_symlinks path symlinks
        end
  end.

(** The loop over the subdirectories, given the recursive call; [false] when
    that ran out of fuel. *)
Fixpoint make_directories (download : Digest -> str -> M W bool) (path : str)
    (directories : list DirectoryNode) : M W bool :=
  match directories with
  | [] => mret true
  | directory_node :: directories =>
      let directory_path := path ++ L "/" ++ dn_name directory_node in
      let* failed := (fun w =>
        let '(r, w) := sys_mkdir env directory_path w in (Ok r, w)) in
      match failed with
      | Some errno => mthrow (SystemError errno)
      | None =>
          let* finished := download (dn_digest directory_node) directory_path in
          if finished then make_directories download path directories
          else mret false
      end
  end.

Definition file_outputs (path : str) (files : list FileNode) : OutputMap :=
  map (fun file => (hash_other (fn_digest file),
                    (path ++ L "/" ++ fn_name file, fn_is_executable file)))
    files.

(** A directory may name itself, or a chain of others without end: the code
    recurses as long as the callback answers.  [fuel] bounds the depth; the
    result is [false] when it is reached. *)
Fixpoint downloadDirectory_rec (fuel : nat) (digest : Digest) (path : str)
  : M W bool :=
  match fuel with
  | O => mret false
  | Datatypes.S fuel =>
      let* directory := return_directory_callback digest in
      let* _ :=
        download_callback (map fn_digest (files directory))
          (file_outputs path (files directory)) in
      let* finished :=
        make_directories (downloadDirectory_rec fuel) path
          (directories directory) in
      if finished then
        let* _ := make_symlinks path (symlinks directory) in mret true
      else mret false
  end.
End directory.

Definition downloadDirectory
    (writeFileAtomically : str -> str -> Z -> M W unit) (fuel : nat)
    (self : Client) (digest : Digest) (path : str) : M W bool :=
  downloadDirectory_rec (downloadBlobs_to_outputs writeFileAtomically self)
    (fetchMessage self) fuel digest path.
End blobs.
