(* ===== verification/ClientBlobsSpec.v ===== *)
(** * What the transfers of many blobs promise

    Batches are a partition of the sorted blobs within the limit of the server;
    the requests of [findMissingBlobs] are a split of the digests; without
    [throw_on_error] nothing that derives from [std::runtime_error] escapes; a
    blob reported OK has the digest it is filed under; a directory of finite
    depth is downloaded in finitely many steps. *)

From stdpp Require Import sorting.
From S2P Require Import Prelude StdMap Arrays Blake3Compress Digest TimeUtils Grpc Merklize MerklizeSpec Client ClientSpec ClientBlobs.
Open Scope Z_scope.

(** ** Batches *)

(** What a blob takes in a batch. *)
Definition cost (d : Digest) : Z := size_bytes d + PER_BLOB_METADATA_SIZE.

Definition total (digests : list Digest) : Z :=
  foldr (fun d n => cost d + n) 0 digests.

(** [size_bytes] is an [int64] and a blob has no negative size. *)
Definition sized (d : Digest) : Prop := 0 <= size_bytes d < 2 ^ 63.

(** Consecutive nonempty ranges from [start]. *)
Fixpoint contiguous (start : nat) (batches : list (nat * nat)) : Prop :=
  match batches with
  | [] => True
  | (b, e) :: batches => b = start /\ (b < e)%nat /\ contiguous e batches
  end.

Lemma total_cons d l : total (d :: l) = cost d + total l.
Proof. done. Qed.

Lemma total_app l k : total (l ++ k) = total l + total k.
Proof.
  induction l as [|d l IH]; [done|]. cbn [app]. rewrite !total_cons. lia.
Qed.

Lemma sized_cost d : sized d -> 0 <= cost d < 2 ^ 63 + 256.
Proof. unfold sized, cost, PER_BLOB_METADATA_SIZE. lia. Qed.

Lemma total_nonneg l : Forall sized l -> 0 <= total l.
Proof.
  induction 1 as [|d l Hd%sized_cost _ IH]; [done|]. rewrite total_cons. lia.
Qed.

Lemma subrange_drop {A} (b e : nat) (l : list A) :
  (b <= e)%nat -> subrange b e l ++ drop e l = drop b l.
Proof.
  intros. unfold subrange. replace (drop e l) with (drop (e - b) (drop b l)).
  - apply take_drop.
  - rewrite drop_drop. f_equal. lia.
Qed.

Lemma batches_end_cons b e batches :
  batches_end ((b, e) :: batches) =
  match batches with [] => e | _ => batches_end batches end.
Proof.
  unfold batches_end. rewrite reverse_cons. destruct batches as [|p batches]; [done|].
  destruct (reverse (p :: batches)) as [|[b' e'] q] eqn:E; [|done].
  apply (f_equal length) in E. rewrite length_reverse in E. done.
Qed.

(** The ranges and what is left are the whole list. *)
Lemma contiguous_concat {A} (l : list A) start batches :
  contiguous start batches -> batches <> [] ->
  concat (map (fun '(b, e) => subrange b e l) batches)
  ++ drop (batches_end batches) l = drop start l.
Proof.
  revert start. induction batches as [|[b e] batches IH]; intros start Hc Hne; [done|].
  destruct Hc as (-> & Hlt & Hc). rewrite batches_end_cons. cbn [map concat].
  rewrite <- app_assoc. destruct batches as [|p batches].
  - cbn [map concat app]. by apply subrange_drop; lia.
  - rewrite (IH e Hc) by done. apply subrange_drop. lia.
Qed.

(** The wrap-around of the sums of the code, below 2^64. *)
Lemma batch_sums bytes d :
  0 <= bytes -> sized d -> bytes + cost d < 2 ^ 64 ->
  u64 (u64 (bytes + size_bytes d) + PER_BLOB_METADATA_SIZE) = bytes + cost d /\
  u64 (bytes + u64 (size_bytes d + PER_BLOB_METADATA_SIZE)) = bytes + cost d.
Proof.
  unfold sized, cost, u64, PER_BLOB_METADATA_SIZE. intros Hb Hd Hs.
  rewrite (Z.mod_small (bytes + size_bytes d)), Z.mod_small by lia.
  rewrite (Z.mod_small (size_bytes d + 256)), Z.mod_small by lia. lia.
Qed.

Lemma fill_batch_spec max bytes digests :
  0 <= bytes <= max -> max < 2 ^ 63 - 256 -> Forall sized digests ->
  let n := fill_batch max bytes digests in
  (n <= length digests)%nat /\ bytes + total (take n digests) <= max /\
  (forall d, digests !! n = Some d -> max < bytes + total (take n digests) + cost d).
Proof.
  intros Hb Hm Hs. revert bytes Hb.
  induction Hs as [|d digests Hd Hs IH]; intros bytes Hb; cbn [fill_batch].
  - cbn. split; [lia|]. split; [lia|done].
  - pose proof (sized_cost d Hd) as Hc.
    destruct (batch_sums bytes d) as [-> ->]; [lia|done|lia|].
    destruct (Z.leb_spec (bytes + cost d) max) as [Hle|Hgt]; cbn zeta.
    + destruct (IH (bytes + cost d) ltac:(lia)) as (IH1 & IH2 & IH3).
      cbn [take length lookup list_lookup]. rewrite total_cons.
      split; [lia|]. split; [lia|]. intros d' Hd'. specialize (IH3 d' Hd'). lia.
    + split; [lia|]. split; [cbn; lia|]. intros d' [= <-]. cbn. lia.
Qed.

(** What [makeBatches] promises of its result, from [start] on. *)
Definition batches_ok (max : Z) (digests : list Digest) (start : nat)
    (batches : list (nat * nat)) : Prop :=
  contiguous start batches /\
  Forall (fun '(b, e) =>
    (e <= length digests)%nat /\ total (subrange b e digests) <= max /\
    (forall d, digests !! e = Some d ->
       max < total (subrange b e digests) + cost d)) batches.

Lemma makeBatches_loop_spec fuel max start digests :
  0 <= max < 2 ^ 63 - 256 -> Forall sized digests ->
  (length digests <= start + fuel)%nat ->
  let batches := makeBatches_loop fuel max start digests in
  batches_ok max digests start batches /\
  (forall d, digests !! (match batches with [] => start | _ => batches_end batches end)
     = Some d -> max < cost d).
Proof.
  intros Hm Hs. revert start.
  induction fuel as [|fuel IH]; intros start Hf; cbn [makeBatches_loop].
  { split; [by split|]. intros d Hd. apply lookup_lt_Some in Hd. lia. }
  destruct (drop start digests) as [|d0 rest] eqn:E.
  { split; [by split|]. intros d Hd.
    apply lookup_lt_Some in Hd. apply (f_equal length) in E.
    rewrite length_drop in E. cbn in E. lia. }
  assert (digests !! start = Some d0) as E0.
  { pose proof (lookup_drop digests start 0) as Hl. rewrite E, Nat.add_0_r in Hl. done. }
  assert (Forall sized (d0 :: rest)) as Hs'.
  { rewrite <- E. by apply Forall_drop. }
  assert (sized d0) as Hd0 by (by inversion Hs').
  pose proof (sized_cost d0 Hd0) as Hc0.
  assert (u64 (size_bytes d0 + PER_BLOB_METADATA_SIZE) = cost d0) as ->.
  { unfold u64. apply Z.mod_small. fold (cost d0). lia. }
  destruct (Z.ltb_spec max (cost d0)) as [Hbig|Hfit].
  { split; [by split|]. intros d. rewrite E0. by intros [= <-]. }
  destruct (fill_batch_spec max 0 (d0 :: rest) ltac:(lia) ltac:(lia) Hs')
    as (Hn & Htot & Hnext).
  set (n := fill_batch max 0 (d0 :: rest)) in *.
  assert (1 <= n)%nat as Hn1.
  { destruct n; [|lia]. specialize (Hnext d0 eq_refl). cbn in Hnext. lia. }
  assert (length digests = start + length (d0 :: rest))%nat as Hlen.
  { rewrite <- E, length_drop. apply lookup_lt_Some in E0. lia. }
  assert (subrange start (start + n) digests = take n (d0 :: rest)) as Esub.
  { unfold subrange. rewrite E. f_equal. lia. }
  destruct (IH (start + n)%nat ltac:(lia)) as ([Hc Hall] & Hend).
  cbn zeta in *. split; [split|].
  - split; [done|]. split; [lia|done].
  - constructor; [|done]. rewrite Esub. split; [lia|]. split; [lia|].
    intros d Hd. apply (Hnext d). by rewrite <- E, lookup_drop.
  - intros d. rewrite batches_end_cons.
    destruct (makeBatches_loop fuel max (start + n) digests); apply Hend.
Qed.

(** The limit of a batch, which leaves room for the message around it. *)
Definition batch_limit (self : Client) : Z := d_maxBatchTotalSizeBytes self - 256.

Lemma makeBatches_spec self digests :
  256 <= d_maxBatchTotalSizeBytes self < 2 ^ 63 -> Forall sized digests ->
  let batches := makeBatches self digests in
  batches_ok (batch_limit self) digests 0 batches /\
  (forall d, digests !! batches_end batches = Some d -> batch_limit self < cost d).
Proof.
  intros Hlimit Hs batches.
  assert (u64 (d_maxBatchTotalSizeBytes self
    - SIZEOF_ESTIMATED_TOP_LEVEL_GRPC_CONTAINER) = batch_limit self) as Emax.
  { unfold u64, SIZEOF_ESTIMATED_TOP_LEVEL_GRPC_CONTAINER, batch_limit.
    apply Z.mod_small. lia. }
  destruct (makeBatches_loop_spec (length digests) (batch_limit self) 0 digests) as [Hok Hend];
    [unfold batch_limit; lia|done|lia|].
  assert (makeBatches_loop (length digests) (batch_limit self) 0 digests = batches) as Eb
    by (unfold batches, makeBatches; by rewrite Emax).
  rewrite Eb in Hok, Hend. split; [done|]. intros d. specialize (Hend d). by destruct batches.
Qed.

(** A limit that everything fits in. *)
Lemma fill_batch_all max bytes digests :
  0 <= bytes -> max < 2 ^ 64 -> Forall sized digests ->
  bytes + total digests <= max -> fill_batch max bytes digests = length digests.
Proof.
  intros Hb Hm Hs. revert bytes Hb.
  induction Hs as [|d digests Hd Hs IH]; intros bytes Hb Ht; [done|].
  rewrite total_cons in Ht. pose proof (sized_cost d Hd). pose proof (total_nonneg _ Hs).
  cbn [fill_batch length]. destruct (batch_sums bytes d) as [-> ->]; [lia|done|lia|].
  destruct (Z.leb_spec (bytes + cost d) max); [|lia]. f_equal. apply IH; lia.
Qed.

(** ** Splitting the digests of [findMissingBlobs] *)

Section split.
Context {W : Type} (env : CasEnv W) (Hsize : forall d, 0 <= ByteSizeLong env d < 2 ^ 62).

Definition bytes (request : list Digest) : Z :=
  foldr (fun d n => ByteSizeLong env d + n) 0 request.

Lemma bytes_cons d l : bytes (d :: l) = ByteSizeLong env d + bytes l.
Proof. done. Qed.

Lemma bytes_app l k : bytes (l ++ k) = bytes l + bytes k.
Proof. induction l as [|d l IH]; [done|]. cbn [app]. rewrite !bytes_cons. lia. Qed.

(** A request within the limit, not counting its first digest. *)
Definition bounded (limit : Z) (request : list Digest) : Prop :=
  bytes (tail request) <= limit.

Lemma bytes_nonneg l : 0 <= bytes l.
Proof.
  induction l as [|d l IH]; [done|]. rewrite bytes_cons. specialize (Hsize d). lia.
Qed.

(** Between two digests: the requests made hold all the digests seen, and
    [batch_size] counts the current request but perhaps for its first digest. *)
Definition split_inv (limit : Z) (seen : list Digest)
    (st : list (list Digest) * list Digest * Z) : Prop :=
  let '(requests, request, batch_size) := st in
  concat requests ++ request = seen /\ Forall (bounded limit) requests /\
  0 <= batch_size <= limit /\ bytes (tail request) <= batch_size /\
  bytes request <= batch_size + (match request with [] => 0 | d :: _ => ByteSizeLong env d end).

Lemma split_digest_inv limit seen st d :
  0 <= limit < 2 ^ 62 -> split_inv limit seen st ->
  split_inv limit (seen ++ [d]) (split_digest env limit st d).
Proof.
  intros Hl. destruct st as [[requests request] n]. intros (Hc & Hf & Hn & Ht & Hb).
  pose proof (Hsize d) as Hd. unfold split_digest.
  unfold u64. rewrite Z.mod_small by lia.
  destruct (Z.ltb_spec limit (n + ByteSizeLong env d)); cbn [split_inv].
  - rewrite concat_app. cbn [concat]. rewrite app_nil_r, Hc. split; [done|].
    split; [apply Forall_app; split; [done|]; constructor; [unfold bounded; lia|done]|].
    cbn. lia.
  - rewrite app_assoc, Hc. split; [done|]. split; [done|]. split; [lia|].
    destruct request as [|d0 request]; cbn [app tail].
    + cbn. lia.
    + cbn [tail] in Ht. rewrite !bytes_cons, !bytes_app, bytes_cons. cbn. lia.
Qed.

Lemma split_all limit digests seen st :
  0 <= limit < 2 ^ 62 -> split_inv limit seen st ->
  split_inv limit (seen ++ digests) (foldl (split_digest env limit) st digests).
Proof.
  intros Hl. revert seen st. induction digests as [|d digests IH]; intros seen st Hi.
  - by rewrite app_nil_r.
  - cbn [foldl]. rewrite (cons_middle d seen digests), app_assoc.
    by apply IH, split_digest_inv.
Qed.

Lemma requests_to_issue_ok digests :
  concat (requests_to_issue env digests) = digests /\
  Forall (bounded bytestreamChunkSizeBytes) (requests_to_issue env digests).
Proof.
  pose proof (split_all bytestreamChunkSizeBytes digests [] ([], [], 0)) as Hi.
  unfold requests_to_issue. destruct (foldl _ _ _) as [[requests request] n].
  destruct Hi as (Hc & Hf & Hn & Ht & _).
  { done. }
  { cbn. repeat split; try done. }
  cbn [app] in Hc. split.
  - rewrite concat_app. cbn [concat]. by rewrite app_nil_r.
  - apply Forall_app. split; [done|]. constructor; [|done]. unfold bounded. lia.
Qed.

(** All the requests answered at once. *)
Lemma issue_requests_answers self answer requests w :
  (forall request w, exists st, stub_FindMissingBlobs env (d_instanceName self) request w
     = (st, answer request, w) /\ ok st = true) ->
  issue_requests env self requests w = (Ok (concat (map answer requests)), w).
Proof.
  intros Hst. induction requests as [|request requests IH]; [done|].
  cbn [issue_requests map concat]. unfold mbind_M at 1. unfold with_captured at 1.
  destruct (Hst request w) as (st & Es & Hok).
  erewrite (issue_first_ok env self _ (w, []) st (w, answer request));
    [|by rewrite Es|done].
  unfold mbind_M. by rewrite IH.
Qed.
End split.

(** ** What can be thrown *)

Section throws.
Context {S : Type}.

Definition only_runtime {A} (m : M S A) : Prop :=
  forall s e s', m s = (Throw e, s') -> is_runtime_error e = true.

Definition never_throws {A} (m : M S A) : Prop :=
  forall s, exists a s', m s = (Ok a, s').

Lemma never_ret {A} (a : A) : never_throws (mret a).
Proof. intros s. by exists a, s. Qed.

Lemma never_bind {A B} (m : M S A) (k : A -> M S B) :
  never_throws m -> (forall a, never_throws (k a)) -> never_throws (mbind_M m k).
Proof.
  intros Hm Hk s. destruct (Hm s) as (a & s1 & E). destruct (Hk a s1) as (b & s2 & F).
  exists b, s2. unfold mbind_M. by rewrite E.
Qed.

Lemma runtime_never {A} (m : M S A) : never_throws m -> only_runtime m.
Proof. intros Hm s e s' E. destruct (Hm s) as (a & s1 & F). congruence. Qed.

Lemma runtime_throw {A} e : is_runtime_error e = true -> only_runtime (@mthrow S A e).
Proof. intros He s e' s' [= <- <-]. done. Qed.

Lemma runtime_bind {A B} (m : M S A) (k : A -> M S B) :
  only_runtime m -> (forall a, only_runtime (k a)) -> only_runtime (mbind_M m k).
Proof.
  intros Hm Hk s e s' E. unfold mbind_M in E.
  destruct (m s) as [[a|e1] s1] eqn:Em; [by eapply Hk|].
  injection E as <- <-. by eapply Hm.
Qed.

Lemma never_catch {A} (m : M S A) h :
  only_runtime m -> (forall e, never_throws (h e)) -> never_throws (catch_runtime m h).
Proof.
  intros Hm Hh s. unfold catch_runtime, mcatch.
  destruct (m s) as [[a|e] s1] eqn:Em; [by exists a, s1|].
  rewrite (Hm _ _ _ Em). apply Hh.
Qed.

Lemma runtime_issue {W} (env : Env W) (self : Client) (inv : M S Status) :
  only_runtime inv -> only_runtime (issueRequestAndThrowOnErrors env self inv).
Proof.
  intros Hinv s e s' E. pose proof (issue_cases env self inv s) as Hc.
  rewrite E in Hc. destruct Hc as (s0 & _ & [Hi|(st & _ & _ & ->)]); [|done].
  by eapply Hinv.
Qed.
End throws.

Lemma runtime_captured {W C A} (c : C) (m : M (W * C) A) :
  only_runtime m -> only_runtime (with_captured c m).
Proof.
  intros Hm s e s' E. unfold with_captured in E.
  destruct (m (s, c)) as [[a|e1] [w1 c1]] eqn:Em; [done|].
  injection E as <- <-. by eapply Hm.
Qed.

Lemma runtime_world {W C A} (m : M W A) :
  only_runtime m -> only_runtime (@on_world W C A m).
Proof.
  intros Hm [w c] e s' E. unfold on_world in E.
  destruct (m w) as [r w1] eqn:Em. injection E as -> <-. by eapply Hm.
Qed.

#[export] Hint Resolve never_ret never_bind runtime_never runtime_bind never_catch
  runtime_issue runtime_captured runtime_world : bb.

Section transfers.
Context {W : Type} (env : CasEnv W) `{DigestFunction} `{StdSort}.

Lemma finish_upload_runtime digest : only_runtime (finish_upload env digest).
Proof.
  intros w e w' E. unfold finish_upload in E. destruct (writer_Finish env w) as [[st n] w1].
  destruct (_ && _); [by injection E as <- _|done].
Qed.

Lemma upload_fd_loop_runtime fuel resource digest offset :
  only_runtime (upload_fd_loop env fuel resource digest offset).
Proof.
  revert offset. induction fuel as [|fuel IH]; intros offset [w fd] e s' E; [done|].
  cbn [upload_fd_loop] in E. destruct (sys_read_error env w) as [[errno|] w1].
  { by injection E as <- _. }
  destruct (fd_read fd bytestreamChunkSizeBytes) as [buffer fd1].
  destruct (_ && _); [by injection E as <- _|].
  destruct (writer_Write env _ w1) as [[] w2]; [|done]. cbn [negb] in E.
  destruct (negb _); [done|]. by eapply IH.
Qed.

Lemma upload_runtime self data digest :
  zlen data = size_bytes digest -> only_runtime (upload env self data digest).
Proof.
  intros Hs. unfold upload. rewrite Hs, Z.eqb_refl. cbn [negb].
  apply runtime_issue. intros w e w' E. by eapply finish_upload_runtime.
Qed.

Lemma upload_fd_runtime self fd digest : only_runtime (upload_fd env self fd digest).
Proof.
  unfold upload_fd. apply runtime_bind; [|intros []; auto with bb].
  apply runtime_captured, runtime_issue. intros [w f] e s' E.
  unfold upload_fd_lambda in E.
  destruct (upload_fd_loop env _ _ _ _ _) as [[u|e1] [w1 f1]] eqn:El.
  - destruct (finish_upload env digest w1) as [r w2] eqn:Ef.
    injection E as -> <-. by eapply finish_upload_runtime.
  - injection E as <- <-. by eapply upload_fd_loop_runtime.
Qed.

Lemma getFileContents_runtime path : only_runtime (getFileContents env path).
Proof.
  intros w e w' E. unfold getFileContents in E.
  destruct (sys_load env path w) as [[data|] w1]; [done|]. by injection E as <- _.
Qed.
Hint Resolve getFileContents_runtime upload_fd_runtime : core.

(** Data given in memory has the size of its digest. *)
Definition consistent (r : UploadRequest) : Prop :=
  ur_path r = [] -> zlen (ur_data r) = size_bytes (ur_digest r).

Lemma uploadRequest_runtime self r :
  consistent r -> only_runtime (uploadRequest env self r).
Proof.
  intros Hr. unfold uploadRequest. destruct (decide _) as [Ep|].
  - by apply upload_runtime, Hr.
  - apply runtime_bind.
    { intros w e w' E. destruct (sys_open env _ w) as [[errno|data] w1]; [|done].
      by injection E as <- _. }
    intros contents. apply runtime_bind; [done|auto with bb].
Qed.

Lemma batch_entries_runtime requests : only_runtime (batch_entries env requests).
Proof.
  induction requests as [|r requests IH]; cbn [batch_entries]; [auto with bb|].
  apply runtime_bind; [destruct (decide _); auto with bb|]. auto with bb.
Qed.

Lemma stub_runtime {S C} (f : S * C -> Status * C * S) :
  only_runtime (fun '(w, c) => let '(st, r, w) := f (w, c) in (Ok st, (w, r))).
Proof. intros [w c] e s' E. by destruct (f (w, c)) as [[st r] w1]. Qed.

Lemma batchUpload_runtime self requests b e :
  only_runtime (batchUpload env self requests b e).
Proof.
  unfold batchUpload. apply runtime_bind; [apply batch_entries_runtime|]. intros entries.
  apply runtime_bind; [|intros []; auto with bb].
  apply runtime_captured, runtime_issue. intros [w c] x s' E.
  by destruct (stub_BatchUpdateBlobs env _ _ w) as [[st r] w1].
Qed.

Lemma upload_batches_never self requests batches :
  never_throws (upload_batches env self requests false batches).
Proof.
  induction batches as [|[b e] batches IH]; cbn [upload_batches]; [auto with bb|].
  apply never_bind; [|auto with bb].
  apply never_catch; [apply batchUpload_runtime|auto with bb].
Qed.

Lemma upload_streams_never self requests :
  Forall consistent requests -> never_throws (upload_streams env self false requests).
Proof.
  induction 1 as [|r requests Hr Hs IH]; cbn [upload_streams]; [auto with bb|].
  apply never_bind; [|auto with bb].
  apply never_catch; [|auto with bb].
  apply runtime_bind; [by apply uploadRequest_runtime|auto with bb].
Qed.

Lemma uploadBlobs_never self requests :
  Forall consistent requests -> never_throws (uploadBlobs env self requests false).
Proof.
  intros Hr. unfold uploadBlobs. apply never_bind; [apply upload_batches_never|].
  intros results. apply never_bind; [|auto with bb].
  apply upload_streams_never, Forall_drop. by rewrite std_sort_perm.
Qed.
End transfers.

(** ** Downloads *)

(** What is in a file once it was written with success. *)
Class LocalFiles {W : Type} (env : CasEnv W) (file_at : W -> str -> option str) := {
  store_law : forall path data w w',
    sys_store env path data w = (true, w') -> file_at w' path = Some data;
  put_law : forall path data w, file_at (fs_put env path data w) path = Some data;
}.
Arguments store_law {W env file_at}.
Arguments put_law {W env file_at}.

Section downloads.
Context {W : Type} (env : CasEnv W) `{CD : ClientDigestFunction} `{StdSort}.

Lemma fetchString_runtime self digest : only_runtime (fetchString env self digest).
Proof.
  unfold fetchString. apply runtime_bind; [|intros []; auto with bb].
  apply runtime_captured, runtime_issue. intros [w r] e s' E. unfold fetchLambda in E.
  destruct (stub_Read env _ 0 w) as [[rs st] w1].
  destruct (ok st); [|done]. destruct (negb _); [by injection E as <- _|].
  destruct (digest_neqb _ _); [by injection E as <- _|done].
Qed.

Lemma download_responses_runtime responses :
  only_runtime (download_responses env responses).
Proof.
  induction responses as [|data responses IH]; [apply runtime_never, never_ret|].
  intros [w d] e s' E. cbn [download_responses] in E.
  destruct (sys_write env (zlen data) w) as [n w1].
  destruct (negb _); [by injection E as <- _|by eapply IH].
Qed.

Lemma download_runtime self fd digest : only_runtime (download env self fd digest).
Proof.
  unfold download. apply runtime_bind; [|intros []; auto with bb].
  apply runtime_captured, runtime_issue. intros [w d] e s' E. unfold downloadLambda in E.
  destruct (stub_Read env _ _ w) as [[rs st] w1].
  destruct (download_responses env rs (w1, d)) as [[u|e1] [w2 d2]] eqn:Er.
  - destruct (ok st); [|done]. destruct (negb _); [by injection E as <- _|].
    destruct (digest_neqb _ _); [by injection E as <- _|done].
  - injection E as <- _. by eapply download_responses_runtime.
Qed.
Hint Resolve fetchString_runtime download_runtime : core.

Section callback.
Context {C : Type} (write_blob : str -> str -> M (W * C) unit).
Context (temp_directory : option str).

(** *** What a callback is given *)

(** The local files, for blobs that are downloaded into a directory: what a file
    holds once it was written. *)
Context (file_at : W -> str -> option str).
Definition files_known : Prop := temp_directory <> None -> LocalFiles env file_at.
Context (Hfiles : files_known).

(** The callback keeps [I] of what it captures when what it is given has been
    verified: data that has the hash, or the path in the temporary directory of a
    file that holds data with the hash. *)
Context (I : C -> Prop).

Definition given (w : W) (hash data : str) : Prop :=
  match temp_directory with
  | None => hash_other (client_digest_of data) = hash
  | Some dir => data = dir ++ L "/" ++ hash /\
      exists contents, file_at w data = Some contents /\
        hash_other (client_digest_of contents) = hash
  end.

Definition keeps_from {A} (w : W) (m : M (W * C) A) : Prop :=
  forall c r w' c', m (w, c) = (r, (w', c')) -> I c -> I c'.
Definition keeps {A} (m : M (W * C) A) : Prop := forall w, keeps_from w m.

Context (Hcallback : forall hash data w, given w hash data -> keeps_from w (write_blob hash data)).

Lemma keeps_ret {A} (a : A) : keeps (mret a).
Proof. by intros w c r w' c' [= <- <- <-]. Qed.

Lemma keeps_throw {A} e : keeps (@mthrow (W * C) A e).
Proof. by intros w c r w' c' [= <- <- <-]. Qed.

Lemma keeps_bind {A B} (m : M (W * C) A) (k : A -> M (W * C) B) :
  keeps m -> (forall a, keeps (k a)) -> keeps (mbind_M m k).
Proof.
  intros Hm Hk w c r w' c' E Hi. unfold mbind_M in E.
  destruct (m (w, c)) as [[a|e] [w1 c1]] eqn:Em.
  - eapply Hk; [exact E|]. by eapply Hm.
  - injection E as <- <- <-. by eapply Hm.
Qed.

Lemma keeps_world {A} (m : M W A) : keeps (on_world m).
Proof.
  intros w c r w' c' E Hi. unfold on_world in E. destruct (m w). by injection E as _ _ <-.
Qed.

(** What is known once the world's computation has returned. *)
Lemma keeps_bind_world {A B} (m : M W A) (P : A -> W -> Prop) (k : A -> M (W * C) B) :
  (forall w a w', m w = (Ok a, w') -> P a w') -> (forall a w, P a w -> keeps_from w (k a)) ->
  keeps (mbind_M (on_world m) k).
Proof.
  intros Hm Hk w c r w' c' E Hi. unfold mbind_M, on_world in E.
  destruct (m w) as [[a|e] w1] eqn:Em.
  - eapply (Hk a w1); [by eapply Hm|exact E|done].
  - by injection E as _ _ <-.
Qed.

Lemma keeps_catch {A} (m : M (W * C) A) h :
  keeps m -> (forall e, keeps (h e)) -> keeps (catch_runtime m h).
Proof.
  intros Hm Hh w c r w' c' E Hi. unfold catch_runtime, mcatch in E.
  destruct (m (w, c)) as [[a|e] [w1 c1]] eqn:Em.
  - injection E as _ _ <-. by eapply Hm.
  - destruct (is_runtime_error e).
    + eapply Hh; [exact E|]. by eapply Hm.
    + injection E as _ _ <-. by eapply Hm.
Qed.
Hint Resolve keeps_ret keeps_throw keeps_bind keeps_world keeps_catch : core.

Lemma batch_responses_keeps responses :
  keeps (batch_responses env write_blob temp_directory responses).
Proof.
  induction responses as [|[[digest data] code] responses IH];
    cbn [batch_responses]; [done|].
  destruct (code =? OK); [|apply keeps_bind; auto].
  destruct (digest_neqb _ _) eqn:Ed; [apply keeps_bind; auto|].
  apply digest_neqb_equiv, digest_eqb_spec in Ed as [Eh _].
  apply keeps_bind; [|auto].
  unfold given in Hcallback. unfold files_known in Hfiles. destruct temp_directory as [dir|].
  - apply (keeps_bind_world _ (fun _ w => file_at w (dir ++ L "/" ++ hash_other digest) = Some data)).
    + intros w [] w' E. unfold store_file in E.
      destruct (sys_store env _ data w) as [[] w1] eqn:Es; [|done]. injection E as <-.
      by apply (store_law (Hfiles ltac:(done)) _ _ w).
    + intros _ w Hf. apply Hcallback. split; [done|]. by exists data.
  - intros w. by apply Hcallback.
Qed.

Lemma download_stream_keeps self digest :
  keeps (download_stream env write_blob temp_directory self digest).
Proof.
  unfold download_stream. unfold given in Hcallback. unfold files_known in Hfiles. destruct temp_directory as [dir|].
  - apply keeps_bind; [done|intros _].
    apply (keeps_bind_world _ (fun f _ => hash_other (client_digest_of (fd_data f)) = hash_other digest)).
    { intros w f w' [_ [Hd _]%digest_eqb_spec]%download_checked. exact Hd. }
    intros f w0 Hd. apply (keeps_bind_world _ (fun _ w => file_at w (dir ++ L "/" ++ hash_other digest)
                                                = Some (fd_data f))).
    + intros w [] w' [= <-]. by apply (put_law (Hfiles ltac:(done))).
    + intros _ w Hf. apply Hcallback. split; [done|]. by exists (fd_data f).
  - apply (keeps_bind_world _ (fun data _ => hash_other (client_digest_of data) = hash_other digest)).
    + intros w data w' [_ [Hd _]%digest_eqb_spec]%fetchString_inv. done.
    + intros data w Hd. by apply Hcallback.
Qed.

Lemma downloadBlobs_with_keeps self digests throw_on_error :
  keeps (downloadBlobs_with env write_blob temp_directory self digests throw_on_error).
Proof.
  unfold downloadBlobs_with. apply keeps_bind.
  - generalize (makeBatches self (std_sort size_bytes digests)) as batches.
    induction batches as [|[b e] batches IH]; cbn [download_batches]; [done|].
    apply keeps_bind; [|auto]. apply keeps_catch.
    + unfold batchDownload. apply keeps_bind; [done|]. intros [].
      apply batch_responses_keeps.
    + intros err. destruct throw_on_error; unfold rethrow_sliced; auto.
  - intros results. apply keeps_bind; [|auto].
    generalize (drop (batches_end (makeBatches self (std_sort size_bytes digests)))
      (std_sort size_bytes digests)) as rest.
    induction rest as [|d rest IH]; cbn [download_streams]; [done|].
    apply keeps_bind; [|auto]. apply keeps_catch.
    + apply keeps_bind; [apply download_stream_keeps|auto].
    + intros err. destruct throw_on_error; unfold rethrow_sliced; auto.
Qed.

(** *** Errors *)

Context (Hruntime : forall hash data, only_runtime (write_blob hash data)).

Lemma store_file_runtime path data : only_runtime (store_file env path data).
Proof.
  intros w e w' E. unfold store_file in E.
  destruct (sys_store env path data w) as [[] w1]; [done|by injection E as <- _].
Qed.

Lemma batch_responses_runtime responses :
  only_runtime (batch_responses env write_blob temp_directory responses).
Proof.
  induction responses as [|[[digest data] code] responses IH];
    cbn [batch_responses]; [auto with bb|].
  destruct (code =? OK); [|auto with bb]. destruct (digest_neqb _ _); [auto with bb|].
  apply runtime_bind; [|auto with bb]. destruct temp_directory; [|done].
  apply runtime_bind; [apply runtime_world, store_file_runtime|done].
Qed.

Lemma batchDownload_runtime self digests b e :
  only_runtime (batchDownload env write_blob temp_directory self digests b e).
Proof.
  unfold batchDownload. apply runtime_bind.
  - apply runtime_world, runtime_captured, runtime_issue. intros [w c] x s' E.
    by destruct (stub_BatchReadBlobs env _ _ w) as [[st r] w1].
  - intros []. apply batch_responses_runtime.
Qed.

Lemma download_stream_runtime self digest :
  only_runtime (download_stream env write_blob temp_directory self digest).
Proof.
  unfold download_stream. destruct temp_directory as [dir|].
  - apply runtime_bind.
    { apply runtime_world. intros w e w' E.
      destruct (sys_create env _ w) as [[errno|] w1]; [by injection E as <- _|done]. }
    intros _. apply runtime_bind; [auto with bb|]. intros f.
    apply runtime_bind; [by apply runtime_world|done].
  - apply runtime_bind; [auto with bb|done].
Qed.

Lemma downloadBlobs_with_never self digests :
  never_throws (downloadBlobs_with env write_blob temp_directory self digests false).
Proof.
  unfold downloadBlobs_with. apply never_bind.
  - generalize (makeBatches self (std_sort size_bytes digests)) as batches.
    induction batches as [|[b e] batches IH]; cbn [download_batches]; [auto with bb|].
    apply never_bind; [|auto with bb].
    apply never_catch; [apply batchDownload_runtime|auto with bb].
  - intros results. apply never_bind; [|auto with bb].
    generalize (drop (batches_end (makeBatches self (std_sort size_bytes digests)))
      (std_sort size_bytes digests)) as rest.
    induction rest as [|d rest IH]; cbn [download_streams]; [auto with bb|].
    apply never_bind; [|auto with bb]. apply never_catch; [|auto with bb].
    apply runtime_bind; [apply download_stream_runtime|auto with bb].
Qed.
End callback.
End downloads.

Lemma um_emplace_lookup {V} (k h : str) (v : V) (m : gmap str V) :
  um_emplace k v m !! h =
  match m !! h with Some x => Some x | None => if decide (h = k) then Some v else None end.
Proof.
  unfold um_emplace. destruct (decide (h = k)) as [->|Hne].
  - destruct (m !! k) eqn:E; [by rewrite E|by rewrite lookup_insert_eq].
  - destruct (m !! k); [by destruct (m !! h)|].
    rewrite lookup_insert_ne by done. by destruct (m !! h).
Qed.

(** The failed digests never change what was downloaded. *)
Lemma emplace_failures (results : list DownloadResult) (m : DownloadBlobsResult) (h data : str) :
  foldl (fun m '(digest, code) =>
    if negb (code =? OK) then um_emplace (hash_other digest) (code, []) m else m)
    m results !! h = Some (OK, data) ->
  m !! h = Some (OK, data).
Proof.
  revert m. induction results as [|[d code] results IH]; intros m; [done|].
  cbn [foldl]. intros E%IH. destruct (Z.eqb_spec code OK) as [|Hc]; [done|].
  cbn [negb] in E. unfold DownloadBlobsResult in *. rewrite um_emplace_lookup in E. destruct (m !! h); [done|].
  destruct (decide _); [|done]. injection E as -> _. done.
Qed.

(** ** The map of the missing digests *)

Lemma digest_eqb_r d a b : digest_equiv a b -> digest_eqb d a = digest_eqb d b.
Proof.
  intros [Eh Es]%digest_eqb_spec. unfold digest_eqb. by rewrite Eh, Es.
Qed.

Lemma um_at_equiv m a b : digest_equiv a b -> um_at m a = um_at m b.
Proof.
  intros Hab. induction m as [|[d v] m IH]; cbn [um_at]; [done|].
  by rewrite (digest_eqb_r d a b Hab), IH.
Qed.

Lemma um_at_set m d v d' :
  um_at (um_set m d v) d' = if digest_eqb d d' then Ok v else um_at m d'.
Proof.
  induction m as [|[d0 v0] m IH]; cbn [um_set um_at]; [done|].
  destruct (digest_eqb d0 d) eqn:E; cbn [um_at].
  - assert (digest_eqb d d' = digest_eqb d0 d') as ->; [|by destruct (digest_eqb d0 d')].
    apply digest_eqb_spec in E as [Eh Es]. unfold digest_eqb. by rewrite Eh, Es.
  - rewrite IH. destruct (digest_eqb d0 d') eqn:E0; [|done].
    destruct (digest_eqb d d') eqn:E1; [|done].
    exfalso. apply digest_eqb_spec in E0 as [? ?], E1 as [? ?].
    apply not_true_iff_false in E. apply E. apply digest_eqb_spec. split; congruence.
Qed.

(** A digest among these, as the containers compare them. *)
Definition among (digests : list Digest) (d : Digest) : bool :=
  existsb (fun d' => digest_eqb d' d) digests.

Lemma collect_missing_spec directory_map missing files :
  if forallb (fun d => is_ok (um_at directory_map d)) missing
  then exists files', collect_missing directory_map missing files = Ok files' /\
    (forall d, um_at files' d = if among missing d then um_at directory_map d
                                else um_at files d)
  else collect_missing directory_map missing files = Throw OutOfRange.
Proof.
  assert (forall m d e, um_at m d = Throw e -> e = OutOfRange) as Hat.
  { intros m d e. induction m as [|[d0 v0] m IH]; cbn [um_at]; [by intros [= <-]|].
    by destruct (digest_eqb d0 d). }
  revert files. induction missing as [|d missing IH]; intros files.
  - by exists files.
  - cbn [forallb collect_missing]. destruct (um_at directory_map d) as [v|e] eqn:Ev.
    + cbn [is_ok andb res_bind]. specialize (IH (um_set files d v)).
      destruct (forallb _ missing); [|done].
      destruct IH as (files' & -> & Hf). exists files'. split; [done|]. intros d'.
      rewrite Hf, um_at_set. cbn [among existsb].
      fold (among missing d'). destruct (digest_eqb d d') eqn:E; cbn [orb]; [|done].
      rewrite <- (um_at_equiv directory_map d d' E), Ev. by destruct (among _ _).
    + cbn [is_ok andb res_bind]. by rewrite (Hat _ _ _ Ev).
Qed.

(** ** Downloading a tree *)

(** What a download does to the file system. *)
Inductive op :=
  | OpFiles (digests : list Digest) (outputs : OutputMap)
  | OpWrite (path data : str) (mode : Z)
  | OpMkdir (path : str)
  | OpSymlink (target path : str).

Definition symlink_ops (path : str) (symlinks : smap str) : list op :=
  symlinks ≫= fun p =>
    if decide (p.2 = [] \/ p.1 = []) then [] else [OpSymlink p.2 (path ++ L "/" ++ p.1)].

(** A nested directory written out under [path]: the files of a directory
    before its subdirectories, each made before it is filled, then its
    symlinks. *)
Fixpoint written_out (us : Z -> Timestamp) (d : NestedDirectory) (path : str)
  : list op :=
  match d with
  | MkNestedDirectory subdirs files symlinks =>
      OpFiles (map fn_digest (file_nodes us files))
        (file_outputs path (file_nodes us files))
      :: (subdirs ≫= fun p =>
            OpMkdir (path ++ L "/" ++ p.1)
            :: written_out us p.2 (path ++ L "/" ++ p.1))
      ++ symlink_ops path symlinks
  end.

(** The same, given what counts as writing the files of a directory. *)
Section tree_written.
Context (us : Z -> Timestamp) (files_written : list FileNode -> str -> list op -> Prop).

Inductive tree_written : NestedDirectory -> str -> list op -> Prop :=
  | tree_written_intro subdirs files symlinks path file_ops subdir_ops :
      files_written (file_nodes us files) path file_ops ->
      subdirs_written subdirs path subdir_ops ->
      tree_written (MkNestedDirectory subdirs files symlinks) path
        (file_ops ++ subdir_ops ++ symlink_ops path symlinks)
with subdirs_written : list (str * NestedDirectory) -> str -> list op -> Prop :=
  | subdirs_written_nil path : subdirs_written [] path []
  | subdirs_written_cons name d subdirs path ops subdir_ops :
      tree_written d (path ++ L "/" ++ name) ops ->
      subdirs_written subdirs path subdir_ops ->
      subdirs_written ((name, d) :: subdirs) path
        (OpMkdir (path ++ L "/" ++ name) :: ops ++ subdir_ops).
End tree_written.

Section download_tree.
Context (us : Z -> Timestamp) (ser : Directory -> str) `{DigestFunction}.
Context {W : Type} (env : CasEnv W).
Context (files_callback : list Digest -> OutputMap -> M W unit).
Context (fetch : Digest -> M W Directory).
(** An invariant of the world, and the operations on the file system so far. *)
Context (I : W -> Prop) (log : W -> list op).

(** The computation returns [a], having done operations that satisfy [P]. *)
Definition does {A} (m : M W A) (a : A) (P : list op -> Prop) : Prop :=
  forall w, I w -> exists w' ops, m w = (Ok a, w') /\ I w' /\ log w' = log w ++ ops /\ P ops.

Lemma does_ret {A} (a : A) : does (mret a) a (eq []).
Proof. intros w Hw. exists w, []. by rewrite app_nil_r. Qed.

(** Operations in sequence. *)
Definition in_turn (P Q : list op -> Prop) (ops : list op) : Prop :=
  exists o1 o2, ops = o1 ++ o2 /\ P o1 /\ Q o2.

Lemma does_mono {A} (m : M W A) a (P Q : list op -> Prop) :
  does m a P -> (forall ops, P ops -> Q ops) -> does m a Q.
Proof. intros Hm HQ w Hw. destruct (Hm w Hw) as (w' & ops & ? & ? & ? & ?). eauto 10. Qed.

Lemma does_bind {A B} (m : M W A) (k : A -> M W B) a b P Q :
  does m a P -> does (k a) b Q -> does (mbind_M m k) b (in_turn P Q).
Proof.
  intros Hm Hk w Hw. destruct (Hm w Hw) as (w1 & o1 & E1 & H1 & L1 & HP).
  destruct (Hk w1 H1) as (w2 & o2 & E2 & H2 & L2 & HQ).
  exists w2, (o1 ++ o2). unfold mbind_M. rewrite E1, E2.
  split; [done|]. split; [done|]. split; [by rewrite L2, L1, app_assoc|by exists o1, o2].
Qed.

(** Directories and symlinks can be made. *)
Record recorder : Prop := {
  rec_mkdir path : does (fun w => let '(r, w) := sys_mkdir env path w in (Ok r, w)) None
    (eq [OpMkdir path]);
  rec_symlink target path :
    does (fun w => let '(r, w) := sys_symlink env target path w in (Ok r, w)) None
      (eq [OpSymlink target path]);
}.
Context (Hrec : recorder).
Context (files_written : list FileNode -> str -> list op -> Prop).

(** The message of a directory is served under its digest, and its files are
    written on request. *)
Definition served (d : NestedDirectory) : Prop :=
  does (fetch (make_digest ser (dir_message us ser d))) (dir_message us ser d) (eq []) /\
  forall path, let nodes := file_nodes us (d_files d) in
    does (files_callback (map fn_digest nodes) (file_outputs path nodes)) tt
      (files_written nodes path).

Lemma make_symlinks_does path symlinks :
  does (make_symlinks env path (symlink_nodes symlinks)) tt (eq (symlink_ops path symlinks)).
Proof.
  induction symlinks as [|[name target] symlinks IH]; [apply does_ret|].
  cbn [symlink_nodes map make_symlinks sn_target sn_name fst snd symlink_ops mbind list_bind].
  fold (symlink_nodes symlinks). fold (symlink_ops path symlinks).
  destruct (decide (target = [] \/ name = [])) as [Hor|Hnor].
  - replace (_ || _) with true; [apply IH|].
    symmetry. apply orb_true_iff. rewrite !bool_decide_eq_true. tauto.
  - replace (_ || _) with false.
    + eapply does_mono; [eapply does_bind; [apply (rec_symlink Hrec)|exact IH]|].
      by intros ? (? & ? & -> & <- & <-).
    + symmetry. apply orb_false_iff. rewrite !bool_decide_eq_false. tauto.
Qed.

Lemma downloadDirectory_does d path fuel :
  (height d <= fuel)%nat -> Forall served (descendants d ++ [d]) ->
  does (downloadDirectory_rec env files_callback fetch fuel
          (make_digest ser (dir_message us ser d)) path) true
    (tree_written us files_written d path).
Proof.
  revert path fuel. induction d as [subs fs ls IH] using nd_ind.
  intros path [|fuel] Hf Hs; cbn [height] in Hf; [lia|].
  apply Forall_app in Hs as [Hsub Hd]. rewrite Forall_singleton in Hd.
  destruct Hd as [Hfetch Hfiles].
  assert (does (make_directories env (downloadDirectory_rec env files_callback fetch fuel)
    path (map (fun p => MkDirectoryNode p.1 (make_digest ser (dir_message us ser p.2))) subs))
    true (subdirs_written us files_written subs path)) as Hsubs.
  { clear Hfetch Hfiles. cbn [descendants] in Hsub.
    induction IH as [|[name s] subs Hone IH IH'].
    - eapply does_mono; [apply does_ret|]. intros ops <-. constructor.
    - cbn [mbind list_bind foldr] in Hsub, Hf. rewrite !Forall_app in Hsub.
      destruct Hsub as [[Hds Hs] Hsub]. cbn [snd] in *.
      cbn [map make_directories dn_name dn_digest fst snd].
      eapply does_mono.
      + eapply does_bind; [apply (rec_mkdir Hrec)|]. cbn beta iota.
        eapply does_bind; [apply Hone; [lia|]|apply IH'; [lia|done]].
        by apply Forall_app.
      + intros ops (? & ? & -> & <- & o1 & o2 & -> & H1 & H2). cbn [app]. by constructor. }
  cbn [downloadDirectory_rec]. cbn [d_files] in Hfiles.
  eapply does_mono.
  - eapply does_bind; [exact Hfetch|]. cbn [dir_message files directories symlinks].
    eapply does_bind; [apply Hfiles|]. eapply does_bind; [exact Hsubs|]. cbn beta iota.
    eapply does_bind; [apply make_symlinks_does|apply does_ret].
  - intros ops (? & ? & -> & <- & o1 & ? & -> & H1 & o2 & ? & -> & H2 & ? & ? & -> & <- & <-).
    rewrite app_nil_r. by constructor.
Qed.
End download_tree.

(** A disk that records every operation, without fail. *)
Record recording (env : CasEnv (list op))
    (files_callback : list Digest -> OutputMap -> M (list op) unit) : Prop := {
  records_mkdir path log : sys_mkdir env path log = (None, log ++ [OpMkdir path]);
  records_symlink target path log :
    sys_symlink env target path log = (None, log ++ [OpSymlink target path]);
  records_files digests outputs log :
    files_callback digests outputs log = (Ok tt, log ++ [OpFiles digests outputs]);
}.

Lemma recording_recorder env files_callback :
  recording env files_callback -> recorder env (fun _ => True) (fun log => log).
Proof.
  intros [Hm Hl _]. split; intros; intros log _; eexists _, _; rewrite ?Hm, ?Hl;
    (split; [reflexivity|]); repeat split; reflexivity.
Qed.

Definition files_recorded (nodes : list FileNode) (path : str) (ops : list op) : Prop :=
  ops = [OpFiles (map fn_digest nodes) (file_outputs path nodes)].

Lemma tree_written_recorded us d path ops :
  tree_written us files_recorded d path ops -> ops = written_out us d path.
Proof.
  revert path ops. induction d as [subs fs ls IH] using nd_ind. intros path ops Ht.
  inversion Ht as [? ? ? ? file_ops subdir_ops Hf Hs]; subst. unfold files_recorded in Hf.
  subst file_ops. cbn [written_out app]. f_equal. f_equal. clear Ht.
  revert subdir_ops Hs. induction IH as [|[name s] subs Hone _ IH]; intros subdir_ops Hs;
    inversion Hs; subst; [done|].
  cbn [mbind list_bind fst snd app]. f_equal. f_equal; [by apply Hone|by apply IH].
Qed.

(** ** Properties *)

(** A sort, for the examples. *)
Definition key_le {A} (key : A -> Z) (x y : A) : Prop := key x <= key y.

#[global] Instance key_le_dec {A} (key : A -> Z) : RelDecision (key_le key).
Proof. intros x y. unfold key_le. apply _. Defined.

Lemma key_le_total {A} (key : A -> Z) : Total (key_le key).
Proof. intros x y. unfold key_le. lia. Qed.

Lemma key_le_trans {A} (key : A -> Z) : Transitive (key_le key).
Proof. intros x y z. unfold key_le. lia. Qed.

Lemma sorted_lookup {A} (key : A -> Z) l i j x y :
  StronglySorted (key_le key) l -> (i <= j)%nat ->
  l !! i = Some x -> l !! j = Some y -> key x <= key y.
Proof.
  intros Hs. revert i j. induction Hs as [|a l Hs IH Ha]; intros [|i] [|j] Hij Hi Hj;
    try done; try lia; cbn in Hi, Hj.
  - injection Hi as <-. injection Hj as <-. lia.
  - injection Hi as <-. rewrite Forall_forall in Ha.
    apply Ha. by eapply list_elem_of_In, list_elem_of_lookup_2.
  - eapply IH; [|done..]. lia.
Qed.

#[refine] Instance toy_sort : StdSort := {| std_sort A key := merge_sort (key_le key) |}.
Proof.
  - intros A key l. apply merge_sort_Permutation.
  - intros A key l i j x y. apply sorted_lookup.
    apply StronglySorted_merge_sort; [apply key_le_trans|apply key_le_total].
Defined.

(** C6. For a limit of at least the 256 bytes that are set aside for the message
    itself, and digests whose sizes are not negative, the digests, sorted by size,
    are cut into consecutive nonempty batches, each within what is left of the
    limit together with the metadata of its blobs and such that the next blob
    would not fit; what follows the last batch is exactly the blobs that are too
    large for any batch, and nothing is lost or repeated.  (Below 256 the
    subtraction wraps and there is no limit left: [makeBatches_small_limit].) *)
Theorem makeBatches_partition `{StdSort} (self : Client) (digests : list Digest)
    (Hlimit : 256 <= d_maxBatchTotalSizeBytes self < 2 ^ 63)
    (Hsized : Forall sized digests) :
  let max := d_maxBatchTotalSizeBytes self - 256 in
  let l := std_sort size_bytes digests in
  let batches := makeBatches self l in
  batches_ok max l 0 batches /\
  concat (map (fun '(b, e) => subrange b e l) batches) ++ drop (batches_end batches) l
    = l /\
  Forall (fun d => max < cost d) (drop (batches_end batches) l).
Proof.
  intros max l batches.
  assert (Forall sized l) as Hl by (unfold l; by rewrite std_sort_perm).
  destruct (makeBatches_spec self l Hlimit Hl) as [Hok Hfirst].
  fold batches in Hok, Hfirst. change (batch_limit self) with max in Hok, Hfirst.
  split; [done|]. split.
  - destruct batches as [|p rest] eqn:Eb; [done|].
    rewrite <- Eb in *. rewrite (contiguous_concat l 0); [done|apply Hok|].
    rewrite Eb. done.
  - apply Forall_lookup. intros i d Hd. rewrite lookup_drop in Hd.
    destruct (lookup_lt_is_Some_2 l (batches_end batches)) as [d0 Hd0].
    { apply lookup_lt_Some in Hd. lia. }
    specialize (Hfirst d0 Hd0). unfold cost in *.
    assert (size_bytes d0 <= size_bytes d); [|lia].
    eapply (std_sort_sorted size_bytes digests (batches_end batches)
      (batches_end batches + i)); [lia|exact Hd0|exact Hd].
Qed.

Lemma makeBatches_partition_witness :
  let self := set_maxBatch toy_client 1500 in
  let d n := MkDigest (to_string n) n [] in
  makeBatches self (std_sort size_bytes [d 700; d 5000; d 1; d 300; d 40]) =
    [(0, 3); (3, 4)]%nat /\
  Forall (fun d => 1244 < cost d)
    (drop 4 (std_sort size_bytes [d 700; d 5000; d 1; d 300; d 40])).
Proof.
  intros self d.
  destruct (makeBatches_partition self [d 700; d 5000; d 1; d 300; d 40]) as (_ & _ & Hr).
  - vm_compute. split; congruence.
  - repeat constructor; cbn; lia.
  - split; [vm_compute; reflexivity|exact Hr].
Defined.

(** A server that allows less than 256 bytes per batch gets no protection:
    the limit underflows, and all the blobs are put in one batch. *)
Theorem makeBatches_small_limit (self : Client) (digests : list Digest)
    (Hlimit : 0 <= d_maxBatchTotalSizeBytes self < 256)
    (Hsized : Forall sized digests) (Hne : digests <> [])
    (Htotal : total digests < 2 ^ 64 - 256) :
  makeBatches self digests = [(O, length digests)].
Proof.
  unfold makeBatches.
  set (max := u64 _).
  assert (2 ^ 64 - 256 <= max < 2 ^ 64) as Hmax.
  { unfold max, u64, SIZEOF_ESTIMATED_TOP_LEVEL_GRPC_CONTAINER.
    rewrite <- (Z.mod_add _ 1), Z.mod_small by lia. lia. }
  destruct digests as [|d0 rest]; [done|].
  pose proof (sized_cost d0 (Forall_inv Hsized)) as Hc0.
  rewrite total_cons in Htotal.
  pose proof (total_nonneg rest (Forall_inv_tail Hsized)) as Hrest.
  cbn [length makeBatches_loop drop].
  assert (u64 (size_bytes d0 + PER_BLOB_METADATA_SIZE) = cost d0) as ->.
  { unfold u64. fold (cost d0). apply Z.mod_small. lia. }
  destruct (Z.ltb_spec max (cost d0)); [lia|].
  rewrite fill_batch_all by (rewrite ?total_cons; first [lia|done]).
  cbn [length Nat.add]. f_equal. destruct (length rest) eqn:El; cbn [makeBatches_loop].
  - done.
  - by rewrite drop_ge by (cbn [length]; lia).
Qed.

Lemma makeBatches_small_limit_witness :
  let self := set_maxBatch toy_client 100 in
  let digests := [MkDigest (L "a") (2 ^ 40) []; MkDigest (L "b") (2 ^ 41) []] in
  makeBatches self digests = [(0, 2)]%nat.
Proof.
  intros self digests. apply (makeBatches_small_limit self digests).
  - cbn. lia.
  - repeat (apply Forall_cons_2; [vm_compute; split; congruence|]). apply Forall_nil_2.
  - discriminate.
  - vm_compute. reflexivity.
Defined.

(** A server for the examples: it stores nothing and returns each blob it is
    asked for, as the toy digests allow. *)
Definition toy_cas_env (parse : str -> option Directory) : CasEnv (list op) :=
  {| cas_env := {|
       stub_Read := fun _ _ w => ([], status_of NOT_FOUND, w);
       stub_Write := fun w => w;
       writer_Write := fun _ w => (true, w);
       writer_Finish := fun w => (status_of NOT_FOUND, 0, w);
       stub_GetCapabilities := fun _ w => (status_of OK, 1000, w);
       sys_write := fun n w => (n, w);
       sys_read_error := fun w => (None, w);
       sys_errno := fun _ => 5;
       retry_delay := fun _ => None |};
     stub_BatchUpdateBlobs := fun _ l w =>
       (status_of OK, map (fun p => (p.1, OK)) l, w);
     stub_BatchReadBlobs := fun _ l w =>
       (status_of OK, map (fun d => (d, hash_other d, OK)) l, w);
     stub_FindMissingBlobs := fun _ l w => (status_of OK, take 1 l, w);
     stub_GetTree := fun _ _ w => ([], status_of OK, w);
     stub_FetchTree := fun _ _ _ w => (status_of OK, w);
     stub_CaptureTree := fun _ w => (status_of OK, [], w);
     stub_CaptureFiles := fun _ w => (status_of OK, [], w);
     stub_StageTree := fun w => w;
     stage_Write := fun _ w => (true, w);
     stage_Read := fun w => (None, w);
     stage_WritesDone := fun w => w;
     stage_Finish := fun w => (status_of OK, w);
     sys_open := fun _ w => (inl 2, w);
     sys_load := fun _ w => (None, w);
     sys_create := fun _ w => (Some 13, w);
     fs_put := fun _ _ w => w;
     sys_store := fun _ _ w => (true, w);
     sys_mkdir := fun path w => (None, w ++ [OpMkdir path]);
     sys_symlink := fun target path w => (None, w ++ [OpSymlink target path]);
     ByteSizeLong := fun _ => 70;
     ParseDirectory := parse |}.

Definition toy_limits : Client := set_maxBatch toy_client 1500.


(** Local files, as the last things written. *)
Definition toy_file_at (w : list op) (path : str) : option str :=
  foldr (fun o rest => match o with
                       | OpWrite p data _ => if decide (p = path) then Some data else rest
                       | _ => rest
                       end) None (rev w).

Definition toy_local_env : CasEnv (list op) :=
  let env := toy_cas_env (fun _ => None) in
  {| cas_env := cas_env env;
     stub_BatchUpdateBlobs := stub_BatchUpdateBlobs env;
     stub_BatchReadBlobs := fun _ l w =>
       (status_of OK, map (fun d => (d, if decide (size_bytes d = 3) then hash_other d else L "?", OK)) l, w);
     stub_FindMissingBlobs := stub_FindMissingBlobs env;
     stub_GetTree := stub_GetTree env;
     stub_FetchTree := stub_FetchTree env;
     stub_CaptureTree := stub_CaptureTree env;
     stub_CaptureFiles := stub_CaptureFiles env;
     stub_StageTree := stub_StageTree env;
     stage_Write := stage_Write env;
     stage_Read := stage_Read env;
     stage_WritesDone := stage_WritesDone env;
     stage_Finish := stage_Finish env;
     sys_open := sys_open env;
     sys_load := sys_load env;
     sys_create := sys_create env;
     fs_put := fun path data w => w ++ [OpWrite path data 0];
     sys_store := fun path data w => (true, w ++ [OpWrite path data 0]);
     sys_mkdir := sys_mkdir env;
     sys_symlink := sys_symlink env;
     ByteSizeLong := ByteSizeLong env;
     ParseDirectory := ParseDirectory env |}.

Lemma toy_file_at_last w path data mode :
  toy_file_at (w ++ [OpWrite path data mode]) path = Some data.
Proof. unfold toy_file_at. rewrite rev_app_distr. cbn. by rewrite decide_True. Qed.

#[global] Instance toy_local_files : LocalFiles toy_local_env toy_file_at.
Proof.
  split; [intros path data w w' E; cbn in E; injection E as <-|intros path data w];
    apply toy_file_at_last.
Defined.

(** A callback that reads the file it is given and tells whether each had its hash;
    one blob of two is served wrongly. *)
Definition toy_callback (hash path : str) : M (list op * bool) unit :=
  fun '(w, good) => (Ok tt, (w, good && bool_decide (toy_file_at w path = Some hash))).


(** The in-memory [downloadBlobs] never throws, and data it reports with
    status OK under a hash is data with that hash. *)
Theorem downloadBlobs_result {W : Type} (env : CasEnv W) (CD : ClientDigestFunction)
    (S : StdSort) (self : Client) (digests : list Digest) (w : W) :
  exists (m : DownloadBlobsResult) w',
    downloadBlobs env self digests None w = (Ok m, w') /\
    forall h data, m !! h = Some (OK, data) -> hash_other (client_digest_of data) = h.
Proof.
  set (I := fun m : DownloadBlobsResult =>
    forall h data, m !! h = Some (OK, data) -> hash_other (client_digest_of data) = h).
  assert (forall hash data, only_runtime (@write_blob_result W hash data)) as Hrt
    by (intros hash data [w0 c0] e s' E; discriminate E).
  destruct (downloadBlobs_with_never env write_blob_result None Hrt self digests (w, ∅))
    as (results & [w' m] & E).
  set (no_file := fun (_ : W) (_ : str) => @None str).
  assert (forall hash data w, given None no_file w hash data ->
            keeps_from I w (@write_blob_result W hash data)) as Hk.
  { intros hash data w0 Hg c0 r0 w1 c1. unfold write_blob_result.
    intros [= _ _ <-] Hi h d. unfold DownloadBlobsResult in *.
    rewrite um_emplace_lookup. destruct (c0 !! h) eqn:Ec; [|destruct (decide _)].
    - rewrite <- Ec. apply Hi.
    - intros [= <-]. by subst h.
    - done. }
  assert (I m) as Hm.
  { apply (downloadBlobs_with_keeps env write_blob_result None no_file ltac:(done) I Hk
             _ _ _ _ _ _ _ _ E).
    intros h d Hh. unfold DownloadBlobsResult in Hh. by rewrite lookup_empty in Hh. }
  eexists _, w'. split.
  - unfold downloadBlobs, mbind_M, with_captured. by rewrite E.
  - intros h data Hh. apply emplace_failures in Hh. by apply Hm.
Qed.

(** Without [throw_on_error], [uploadBlobs] returns whatever the server and
    the file system do, provided the data given in memory has the size of its
    digest. *)
Theorem uploadBlobs_returns {W : Type} (env : CasEnv W) (S : StdSort)
    (self : Client) (requests : list UploadRequest) (w : W)
    (Hrequests : Forall consistent requests) :
  exists results w', uploadBlobs env self requests false w = (Ok results, w').
Proof. by apply uploadBlobs_never. Qed.

Lemma uploadBlobs_returns_witness :
  exists results w', uploadBlobs (toy_cas_env (fun _ => None)) toy_limits
    [MkUploadRequest (toy_digest_of (L "abc")) (L "abc") []] false [] = (Ok results, w').
Proof.
  apply (uploadBlobs_returns (toy_cas_env (fun _ => None)) toy_sort).
  apply Forall_cons_2; [intros _; vm_compute; reflexivity|apply Forall_nil_2].
Defined.

(** [findMissingBlobs] asks about every digest once and in order; each of
    its requests holds at most 1 MiB of digests besides its first one; and when
    the server answers, the answers to the requests are all returned. *)
Theorem findMissingBlobs_split {W : Type} (env : CasEnv W) (self : Client)
    (digests : list Digest)
    (Hsize : forall d, 0 <= ByteSizeLong env d < 2 ^ 62) :
  concat (requests_to_issue env digests) = digests /\
  (forall request, request ∈ requests_to_issue env digests ->
     bytes env (tail request) <= bytestreamChunkSizeBytes) /\
  (forall answer w,
     (forall request w, exists st,
        stub_FindMissingBlobs env (d_instanceName self) request w
        = (st, answer request, w) /\ ok st = true) ->
     findMissingBlobs env self digests w =
     (Ok (concat (map answer (requests_to_issue env digests))), w)).
Proof.
  destruct (requests_to_issue_ok env Hsize digests) as [Hc Hb].
  split; [done|]. split.
  - intros request Hr. rewrite Forall_forall in Hb. by apply Hb, list_elem_of_In.
  - intros answer w Ha. by apply issue_requests_answers.
Qed.

Lemma findMissingBlobs_split_witness :
  let digests := [toy_digest_of (L "a"); toy_digest_of (L "b")] in
  findMissingBlobs (toy_cas_env (fun _ => None)) toy_limits digests [] =
    (Ok [toy_digest_of (L "a")], []).
Proof.
  intros digests.
  refine (eq_trans (proj2 (proj2 (findMissingBlobs_split (toy_cas_env (fun _ => None))
    toy_limits digests _)) (take 1) [] _) _).
  - intros d. cbn. lia.
  - intros request w. exists (status_of OK). split; reflexivity.
  - vm_compute. reflexivity.
Defined.

(** [missingDigests] keeps of the map exactly the entries of the digests the
    server misses; if the server names a digest that is not in the map, it
    throws [std::out_of_range]. *)
Theorem missingDigests_subset {W : Type} (env : CasEnv W) (self : Client)
    (directory_map : entries) (missing : list Digest) (w w' : W)
    (Hfind : findMissingBlobs env self (map fst directory_map) w = (Ok missing, w')) :
  if forallb (fun d => is_ok (um_at directory_map d)) missing
  then exists files, missingDigests env self directory_map w = (Ok files, w') /\
    (forall d, um_at files d = if among missing d then um_at directory_map d
                               else Throw OutOfRange)
  else missingDigests env self directory_map w = (Throw OutOfRange, w').
Proof.
  unfold missingDigests, mbind_M, mlift. rewrite Hfind.
  pose proof (collect_missing_spec directory_map missing []) as Hc.
  destruct (forallb _ missing); [|by rewrite Hc].
  destruct Hc as (files & -> & Hf). exists files. split; [done|].
  intros d. by rewrite Hf.
Qed.

Lemma missingDigests_subset_witness :
  let a := toy_digest_of (L "a") in
  let m := [(a, L "path/a"); (toy_digest_of (L "b"), L "path/b")] in
  exists files, missingDigests (toy_cas_env (fun _ => None)) toy_limits m [] =
    (Ok files, []) /\ um_at files a = Ok (L "path/a").
Proof.
  intros a m.
  destruct (missingDigests_subset (toy_cas_env (fun _ => None)) toy_limits m [a] [] [])
    as (files & E & Hf).
  - vm_compute. reflexivity.
  - exists files. split; [exact E|]. rewrite Hf. vm_compute. reflexivity.
Defined.

(** C5. Downloading undoes merklizing: when the message of every directory of a
    tree is served under its digest, [downloadDirectory] of the digest that
    [to_digest] gives finishes, and writes out the tree: in every directory its
    files, then its subdirectories, each created before anything is put into
    it, then its symlinks with a name and a target. *)
Theorem download_undoes_merklize (us : Z -> Timestamp) (ser : Directory -> str)
    (H : DigestFunction) (env : CasEnv (list op))
    (files_callback : list Digest -> OutputMap -> M (list op) unit)
    (fetch : Digest -> M (list op) Directory)
    (d : NestedDirectory) (path : str) (log : list op) (fuel : nat)
    (Hrec : recording env files_callback)
    (Hserved : forall msg log,
       msg ∈ children (to_tree us ser d) ++ [root (to_tree us ser d)] ->
       fetch (make_digest ser msg) log = (Ok msg, log))
    (Hfuel : (height d <= fuel)%nat) :
  downloadDirectory_rec env files_callback fetch fuel
    (to_digest us ser d None).1 path log =
  (Ok true, log ++ written_out us d path).
Proof.
  rewrite to_digest_spec. cbn [fst].
  destruct (downloadDirectory_does us ser env files_callback fetch (fun _ => True)
    (fun log => log) (recording_recorder _ _ Hrec) files_recorded d path fuel Hfuel)
    with (w := log) as (w & ops & E & _ & -> & Hops); [|done|].
  - apply Forall_forall. intros d' Hd'%list_elem_of_In. split.
    + intros log' _. exists log', []. rewrite app_nil_r. repeat split. apply Hserved.
      rewrite to_tree_spec. cbn [root children].
      change [dir_message us ser d] with (map (dir_message us ser) [d]).
      rewrite <- map_app. by apply list_elem_of_fmap_2.
    + intros path' nodes log' _. eexists _, _. rewrite (records_files _ _ Hrec).
      by repeat split.
  - by rewrite E, (tree_written_recorded _ _ _ _ Hops).
Qed.

Definition toy_tree : NestedDirectory :=
  add (add NestedDirectory_new toy_file (L "a/f")) toy_file (L "g").

(** The messages of the toy tree, by digest. *)
Definition toy_fetch (digest : Digest) : M (list op) Directory :=
  let t := to_tree (H := toy_digests) toy_us toy_ser toy_tree in
  match list_find (fun m => make_digest (H := toy_digests) toy_ser m = digest)
          (children t ++ [root t]) with
  | Some (_, m) => mret m
  | None => mthrow RuntimeError
  end.

Definition toy_files (digests : list Digest) (outputs : OutputMap) : M (list op) unit :=
  fun log => (Ok tt, log ++ [OpFiles digests outputs]).

Lemma download_undoes_merklize_witness :
  downloadDirectory_rec (toy_cas_env (fun _ => None)) toy_files toy_fetch 2
    (to_digest (H := toy_digests) toy_us toy_ser toy_tree None).1 (L "out") [] =
  (Ok true, written_out toy_us toy_tree (L "out")).
Proof.
  apply (download_undoes_merklize toy_us toy_ser toy_digests (toy_cas_env (fun _ => None))
    toy_files toy_fetch toy_tree (L "out") [] 2).
  - split; intros; reflexivity.
  - intros msg log Hm. apply elem_of_app in Hm as [Hm|Hm].
    + vm_compute in Hm. inversion Hm as [|? ? ? Hm']; [subst; vm_compute; reflexivity|].
      inversion Hm'.
    + apply list_elem_of_singleton in Hm. subst msg. vm_compute. reflexivity.
  - vm_compute. lia.
Defined.
