(* ===== verification/Merge.v ===== *)
(** * Merging two directory trees

    [buildboxcommon_mergeutil.cpp]: the paths of two trees are collected in an
    [unordered_map], collisions are detected on the way, and a
    [NestedDirectory] is rebuilt from the map. *)

From S2P Require Import Prelude StdMap Arrays Digest TimeUtils Merklize.

(** ** [NodeMetaData] *)

Inductive NodeMetaData :=
  | FileNodeMetaData (path : str) (digest : Digest) (is_executable : bool)
  | SymlinkNodeMetaData (path target : str)
  | DirNodeMetaData (path : str) (digest : Digest).

Definition md_path (self : NodeMetaData) : str :=
  match self with
  | FileNodeMetaData path _ _ | SymlinkNodeMetaData path _ | DirNodeMetaData path _ =>
      path
  end.

(** Symlinks have no digest: an empty one is returned. *)
Definition md_digest (self : NodeMetaData) : Digest :=
  match self with
  | FileNodeMetaData _ digest _ | DirNodeMetaData _ digest => digest
  | SymlinkNodeMetaData _ _ => empty_digest
  end.

Definition isExecutable (self : NodeMetaData) : bool :=
  match self with
  | FileNodeMetaData _ _ is_executable => is_executable
  | _ => false
  end.

(** [operator==] of a [NodeMetaData] and a [FileNode]. *)
Definition node_eqb (obj : NodeMetaData) (fileNode : FileNode) : bool :=
  digest_eqb (md_digest obj) (fn_digest fileNode)
  && Bool.eqb (isExecutable obj) (fn_is_executable fileNode).

(** [File(digest, is_executable)]. *)
Definition plain_file (digest : Digest) (is_executable : bool) : File :=
  MkFile digest is_executable false 0.

Definition addToNestedDirectory (self : NodeMetaData) (nd : NestedDirectory)
  : NestedDirectory :=
  match self with
  | FileNodeMetaData path digest is_executable =>
      add nd (plain_file digest is_executable) path
  | SymlinkNodeMetaData path target => addSymlink nd target path
  | DirNodeMetaData path _ => addDirectory nd path
  end.

Definition boolalpha (b : bool) : str := if b then L "true" else L "false".

Definition md_print (self : NodeMetaData) : str :=
  match self with
  | FileNodeMetaData path digest is_executable =>
      L "file:    " ++ path ++ L " [" ++ digest_toString digest
      ++ L ", executable = " ++ boolalpha is_executable ++ L "]" ++ endl
  | SymlinkNodeMetaData path target =>
      L "symlink: " ++ path ++ L ", " ++ target ++ endl
  | DirNodeMetaData path digest =>
      L "dir:     " ++ path ++ L " [" ++ digest_toString digest ++ L "]" ++ endl
  end.

(** ** The containers *)

Abbreviation PathNodeMetaDataMap := (gmap str NodeMetaData).

(** The order in which a loop visits an unordered map: any order. *)
Class MapIteration := {
  um_iter : forall {K} {E : EqDecision K} {C : Countable K} {V},
    gmap K V -> list (K * V);
  um_iter_perm : forall {K} {E : EqDecision K} {C : Countable K} {V} (m : gmap K V),
    um_iter m ≡ₚ map_to_list m;
}.

(** [emplace]: a key that is present keeps its value. *)
Definition emplace {K} {E : EqDecision K} {C : Countable K} {V} (k : K) (v : V)
    (m : gmap K V) : gmap K V :=
  match m !! k with Some _ => m | None => <[k := v]> m end.

(** ** Flattening *)

Definition genNewPath (dirName nodeName : str) : str :=
  if decide (dirName = []) then nodeName else dirName ++ L "/" ++ nodeName.

Fixpoint flatten_files (dirName : str) (files : list FileNode)
    (map : PathNodeMetaDataMap) : res PathNodeMetaDataMap :=
  match files with
  | [] => Ok map
  | node :: files =>
      let newFile := genNewPath dirName (fn_name node) in
      if match map !! newFile with
         | Some it => negb (node_eqb it node)
         | None => false
         end
      then Throw RuntimeError
      else
        flatten_files dirName files
          (emplace newFile
             (FileNodeMetaData newFile (fn_digest node) (fn_is_executable node)) map)
  end.

Fixpoint flatten_symlinks (dirName : str) (symlinks : list SymlinkNode)
    (map : PathNodeMetaDataMap) : res PathNodeMetaDataMap :=
  match symlinks with
  | [] => Ok map
  | node :: symlinks =>
      let newSymlinkName := genNewPath dirName (sn_name node) in
      if match map !! newSymlinkName with
         | Some (SymlinkNodeMetaData _ target) =>
             negb (bool_decide (target = sn_target node))
         | _ => false
         end
      then Throw RuntimeError
      else
        flatten_symlinks dirName symlinks
          (emplace newSymlinkName
             (SymlinkNodeMetaData newSymlinkName (sn_target node)) map)
  end.

Section merge.
Context (MicrosecondsToTimestamp : Z -> Timestamp).
(** [SerializeAsString] of protobuf, and what a message holds after
    [ParseFromString]. *)
Context (SerializeAsString : Directory -> str) (ParseFromString : str -> Directory).
Context `{DigestFunction} `{MapIteration}.

(** The loop over the subdirectories, given the recursive call. *)
Fixpoint flatten_directories
    (build : PathNodeMetaDataMap -> Directory -> str -> option (res PathNodeMetaDataMap))
    (dsMap : digest_string_map) (dirName : str) (directories : list DirectoryNode)
    (map : PathNodeMetaDataMap) : option (res PathNodeMetaDataMap) :=
  match directories with
  | [] => Some (Ok map)
  | node :: directories =>
      let newDirectoryPath := genNewPath dirName (dn_name node) in
      let map :=
        emplace newDirectoryPath (DirNodeMetaData newDirectoryPath (dn_digest node))
          map in
      match dsMap !! digest_key (dn_digest node) with
      | None => flatten_directories build dsMap dirName directories map
      | Some blob =>
          match build map (ParseFromString blob) newDirectoryPath with
          | Some (Ok map) => flatten_directories build dsMap dirName directories map
          | r => r
          end
      end
  end.

(** The recursion follows digests; [fuel] bounds its depth and [None] is its
    end. *)
Fixpoint buildFlattenedPath (fuel : nat) (dsMap : digest_string_map)
    (map : PathNodeMetaDataMap) (directory : Directory) (dirName : str)
  : option (res PathNodeMetaDataMap) :=
  match fuel with
  | O => None
  | S fuel =>
      match
        (let! map := flatten_files dirName (files directory) map in
         flatten_symlinks dirName (symlinks directory) map)
      with
      | Throw e => Some (Throw e)
      | Ok map =>
          flatten_directories (buildFlattenedPath fuel dsMap) dsMap dirName
            (directories directory) map
      end
  end.

Definition DirectoryTree : Type := list Directory.

Definition buildDigestDirectoryMap (tree : DirectoryTree) (dsMap : digest_string_map)
  : digest_string_map :=
  foldl (fun dsMap directory =>
    let serialized := SerializeAsString directory in
    emplace (digest_key (digest_of serialized)) serialized dsMap) dsMap tree.

(** [tree.at(0)]. *)
Definition at_0 (tree : DirectoryTree) : res Directory :=
  match tree with [] => Throw OutOfRange | directory :: _ => Ok directory end.

(** ** [createMergedDigest] *)

(** The result and the out parameters; digests in the list are those a
    container tells apart. *)
Record MergeResult := MkMergeResult {
  merged : bool;
  rootDigest : option Digest;
  newDirectoryBlobs : digest_string_map;
  mergedDirectoryList : list (str * Z);
}.

(** Both trees flattened into one map, the [try] block. *)
Definition flatten_both (fuel : nat) (inputTree templateTree : DirectoryTree)
    (dsMap : digest_string_map) : option (res PathNodeMetaDataMap) :=
  match at_0 inputTree with
  | Throw e => Some (Throw e)
  | Ok input =>
      match buildFlattenedPath fuel dsMap ∅ input [] with
      | Some (Ok map) =>
          match at_0 templateTree with
          | Throw e => Some (Throw e)
          | Ok template => buildFlattenedPath fuel dsMap map template []
          end
      | r => r
      end
  end.

Definition add_all (map : PathNodeMetaDataMap) : NestedDirectory :=
  foldl (fun result it => addToNestedDirectory it.2 result) NestedDirectory_new
    (um_iter map).

Definition createMergedDigest (fuel : nat) (inputTree templateTree : DirectoryTree)
    (blobs : digest_string_map) : option (res MergeResult) :=
  if bool_decide (inputTree = []) && bool_decide (templateTree = [])
  then Some (Ok (MkMergeResult false None blobs []))
  else
    let dsMap := buildDigestDirectoryMap inputTree ∅ in
    let dsMap := buildDigestDirectoryMap templateTree dsMap in
    match flatten_both fuel inputTree templateTree dsMap with
    | None => None
    | Some (Throw RuntimeError) => Some (Ok (MkMergeResult false None blobs []))
    | Some (Throw e) => Some (Throw e)
    | Some (Ok map) =>
        let result := add_all map in
        let '(digest, blobs') :=
          to_digest MicrosecondsToTimestamp SerializeAsString result (Some blobs) in
        let blobs' := default ∅ blobs' in
        let list :=
          filter (fun k => dsMap !! k = None) (fmap fst (um_iter blobs')) in
        Some (Ok (MkMergeResult true (Some digest) blobs' list))
    end.

(** [operator<<] of a [DirectoryTree]. *)
Definition print_tree (fuel : nat) (tree : DirectoryTree) : option (res str) :=
  match tree with
  | [] => Some (Ok [])
  | directory :: _ =>
      match buildFlattenedPath fuel (buildDigestDirectoryMap tree ∅) ∅ directory [] with
      | None => None
      | Some (Throw e) => Some (Throw e)
      | Some (Ok map) => Some (Ok (um_iter map ≫= fun p => md_print p.2))
      end
  end.

(** [operator<<] of a repeated field: one line per node. *)
Definition print_node (i j : nat) (digest kind name rest : str) : str :=
  L "Directory[" ++ to_string (Z.of_nat i) ++ L "](" ++ digest ++ L ") --> " ++ kind
  ++ L "[" ++ to_string (Z.of_nat j) ++ L "]: name = " ++ quoted name ++ rest ++ endl.

Definition print_directory (i : nat) (directory : Directory) : str :=
  let digest := digest_toString (digest_of (SerializeAsString directory)) in
  concat (imap (fun j node =>
    print_node i j digest (L "FileNode") (fn_name node)
      (L ", digest = " ++ quoted (digest_toString (fn_digest node))
       ++ L ", executable = " ++ boolalpha (fn_is_executable node)))
    (files directory))
  ++ concat (imap (fun j node =>
    print_node i j digest (L "SymlinkNode") (sn_name node)
      (L ", target = " ++ quoted (sn_target node)))
    (symlinks directory))
  ++ concat (imap (fun j node =>
    print_node i j digest (L "DirectoryNode") (dn_name node)
      (L ", digest = " ++ quoted (digest_toString (dn_digest node))))
    (directories directory)).

Definition print_directories (tree : list Directory) : str :=
  concat (imap print_directory tree).
End merge.
