(* ===== verification/MergeSpec.v ===== *)
(** * What a merge promises

    Rebuilding a tree from its flattened paths gives the tree back; the result
    of a merge does not depend on the order in which the map is visited nor, for
    compatible trees, on which of the two comes first. *)

From S2P Require Import Prelude StdMap Arrays Digest TimeUtils Merklize MerklizeSpec Merge.

(** ** Paths and their names *)

Lemma split_path_app a b :
  split_path (a ++ L "/" ++ b) = split_path a ++ split_path b.
Proof.
  induction a as [|c a IH]; [done|]. cbn [app split_path]. rewrite IH.
  destruct (ascii_dec c "/"%char); [done|].
  pose proof (split_path_nonempty a). by destruct (split_path a).
Qed.

Fixpoint join_path (names : list str) : str :=
  match names with
  | [] => []
  | [n] => n
  | n :: names => n ++ L "/" ++ join_path names
  end.

Lemma join_split p : join_path (split_path p) = p.
Proof.
  induction p as [|c p IH]; [done|]. cbn [split_path].
  pose proof (split_path_nonempty p) as Hne.
  destruct (ascii_dec c "/"%char) as [->|].
  - destruct (split_path p) as [|n ns]; [done|].
    change (join_path ([] :: n :: ns)) with (L "/" ++ join_path (n :: ns)). by rewrite IH.
  - destruct (split_path p) as [|n1 ns]; [done|]. destruct ns; cbn in *; congruence.
Qed.

Lemma split_path_inj p q : split_path p = split_path q -> p = q.
Proof. intros E. by rewrite <- (join_split p), <- (join_split q), E. Qed.

(** A name of a directory entry. *)
Definition valid_name (n : str) : Prop := n <> [] /\ split_path n = [n].

Lemma drop_empty_id ns : Forall (fun n => n <> []) ns -> drop_empty ns = ns.
Proof.
  induction 1 as [|n ns Hn _ IH]; cbn; [done|]. rewrite decide_False by done. by rewrite IH.
Qed.

(** A path is made of these names. *)
Definition names_of (p : str) (names : list str) : Prop :=
  p = join_path names /\ (names <> [] -> split_path p = names) /\
  Forall (fun n => n <> []) names.

Lemma names_of_nil : names_of [] [].
Proof. by split; [|split]. Qed.

Lemma genNewPath_names dirName dirs n :
  names_of dirName dirs -> valid_name n -> names_of (genNewPath dirName n) (dirs ++ [n]).
Proof.
  intros (Hj & Hs & Hne) [Hn Hsn]. unfold genNewPath.
  assert (split_path (if decide (dirName = []) then n else dirName ++ L "/" ++ n)
    = dirs ++ [n]) as E.
  { destruct (decide (dirName = [])) as [->|Hd].
    - destruct dirs as [|d dirs]; [done|].
      specialize (Hs ltac:(done)). cbn in Hs. injection Hs as <- <-.
      by apply Forall_inv in Hne.
    - rewrite split_path_app, Hsn, Hs; [done|]. by intros ->. }
  split; [by rewrite <- E, join_split|]. split; [done|].
  apply Forall_app. split; [done|]. by constructor.
Qed.

Lemma names_of_inj p names q : names <> [] ->
  names_of p names -> names_of q names -> p = q.
Proof. intros _ [-> _] [-> _]. done. Qed.

Lemma names_path p dirs n :
  names_of p (dirs ++ [n]) -> path_dirs p = dirs /\ path_name p = n.
Proof.
  intros (_ & Hs & Hne). unfold path_dirs, path_name.
  rewrite Hs by (by destruct dirs). rewrite removelast_last, List.last_last.
  split; [|done]. apply drop_empty_id. by apply Forall_app in Hne as [? _].
Qed.

(** ** Updates at a path *)

Abbreviation ND := NestedDirectory.

Lemma update_at_ext dirs (f g : ND -> ND) d :
  (forall s, f s = g s) -> update_at dirs f d = update_at dirs g d.
Proof.
  intros Hfg. revert d. induction dirs as [|k dirs IH]; intros d; cbn; [done|].
  by apply at_subdir_ext.
Qed.

Lemma at_subdir_compose d k f g :
  at_subdir (at_subdir d k g) k f = at_subdir d k (fun s => f (g s)).
Proof. unfold at_subdir. cbn. by rewrite sm_update_update. Qed.

Lemma update_at_compose dirs f g d :
  update_at dirs f (update_at dirs g d) = update_at dirs (fun s => f (g s)) d.
Proof.
  revert d. induction dirs as [|k dirs IH]; intros d; cbn [update_at]; [done|].
  rewrite at_subdir_compose. apply at_subdir_ext. intros s. apply IH.
Qed.

Lemma update_at_snoc dirs k f d :
  update_at (dirs ++ [k]) f d = update_at dirs (fun s => at_subdir s k f) d.
Proof.
  revert d. induction dirs as [|k' dirs IH]; intros d; cbn [app update_at]; [done|].
  apply at_subdir_ext, IH.
Qed.

Lemma foldl_update_at {A} dirs (h : A -> ND -> ND) (l : list A) g d :
  foldl (fun d x => update_at dirs (h x) d) (update_at dirs g d) l =
  update_at dirs (fun s => foldl (fun s x => h x s) (g s) l) d.
Proof.
  revert g. induction l as [|x l IH]; intros g; cbn [foldl]; [done|].
  by rewrite update_at_compose, IH.
Qed.

(** Two updates that commute where they meet commute. *)
Lemma update_at_comm dirs1 g1 dirs2 g2 d :
  (forall d k f, g1 (at_subdir d k f) = at_subdir (g1 d) k f) ->
  (forall d k f, g2 (at_subdir d k f) = at_subdir (g2 d) k f) ->
  (dirs1 = dirs2 -> forall d, nd_wf d -> g1 (g2 d) = g2 (g1 d)) ->
  nd_wf d ->
  update_at dirs1 g1 (update_at dirs2 g2 d) = update_at dirs2 g2 (update_at dirs1 g1 d).
Proof.
  intros H1 H2. revert dirs2 d.
  induction dirs1 as [|k1 dirs1 IH]; intros [|k2 dirs2] d Heq Hwf; cbn [update_at].
  - by apply Heq.
  - by rewrite H1.
  - by rewrite H2.
  - unfold at_subdir. cbn. f_equal. destruct (decide (k1 = k2)) as [<-|Hk].
    + rewrite !sm_update_update. apply sm_update_ext. cbn.
      apply IH; [|by apply nd_wf_default]. intros ->. by apply Heq.
    + apply sm_update_comm; [by destruct Hwf|done].
Qed.

(** [addDirectory] of a path whose last name is not empty touches it. *)
Lemma at_subdir_touch d k :
  MkNestedDirectory
    (match sm_lookup k (d_subdirs d) with
     | None => sm_insert k NestedDirectory_new (d_subdirs d)
     | Some _ => d_subdirs d
     end) (d_files d) (d_symlinks d) = at_subdir d k id.
Proof.
  unfold at_subdir, sm_insert, id. f_equal.
  generalize (d_subdirs d) as m. clear d. intros m.
  induction m as [|[k' v] m IH]; cbn; [done|].
  destruct (str_compare k k') eqn:E; cbn; [done|done|].
  rewrite <- IH. by destruct (sm_lookup k m).
Qed.

Lemma addDirectory_spec d p :
  path_name p <> [] ->
  addDirectory d p = update_at (path_dirs p ++ [path_name p]) id d.
Proof.
  intros Hn. unfold addDirectory. assert (length p <= length p)%nat as Hf by lia. revert Hf.
  generalize (length p) at 2 3 as fuel. intros fuel. revert p d Hn.
  induction fuel as [|fuel IH]; intros p d Hn Hf; cbn [addDirectory_rec];
    (rewrite decide_False by (intros ->; done));
    destruct (split_slash p) as [[before after]|] eqn:E.
  - apply split_slash_some in E as [_ ?]. lia.
  - destruct (path_none p E) as [-> ->]. cbn [app update_at].
    rewrite <- at_subdir_touch. destruct d. cbn. by destruct (sm_lookup _ _).
  - destruct (path_some p before after E) as [-> Ep]. rewrite Ep in *.
    apply split_slash_some in E as [_ ?].
    case_decide; [apply IH; [done|lia]|]. cbn [app update_at].
    apply at_subdir_ext. intros s. apply IH; [done|lia].
  - destruct (path_none p E) as [-> ->]. cbn [app update_at].
    rewrite <- at_subdir_touch. destruct d. cbn. by destruct (sm_lookup _ _).
Qed.

(** ** The entries of a tree *)

(** What adding a node does to the directory it is put in. *)
Definition node_action (v : NodeMetaData) (name : str) : ND -> ND :=
  match v with
  | FileNodeMetaData _ digest x => put_file name (plain_file digest x)
  | SymlinkNodeMetaData _ target => put_symlink name target
  | DirNodeMetaData _ _ => fun d => at_subdir d name id
  end.

Lemma add_node_spec v d p dirs n :
  md_path v = p -> names_of p (dirs ++ [n]) -> n <> [] ->
  addToNestedDirectory v d = update_at dirs (node_action v n) d.
Proof.
  intros Hp Hn Hne. destruct (names_path p dirs n Hn) as [Ed En].
  destruct v as [path digest x|path target|path digest]; cbn in Hp; subst path;
    cbn [addToNestedDirectory node_action].
  - by rewrite add_spec, Ed, En.
  - by rewrite addSymlink_spec, Ed, En.
  - rewrite addDirectory_spec by congruence. by rewrite Ed, En, update_at_snoc.
Qed.

Lemma node_action_wf v n d : nd_wf d -> nd_wf (node_action v n d).
Proof.
  intros. destruct v; cbn; [by apply put_file_wf|by apply put_symlink_wf|].
  by apply at_subdir_wf.
Qed.

(** Nodes of distinct names in the same directory, or of the same content. *)
Lemma node_action_comm v1 n1 v2 n2 d :
  nd_wf d -> n1 <> n2 ->
  node_action v1 n1 (node_action v2 n2 d) = node_action v2 n2 (node_action v1 n1 d).
Proof.
  intros Hwf Hne. destruct Hwf as [subs fs ls Hs Hf Hl _].
  destruct v1, v2; cbn; unfold put_file, put_symlink, at_subdir, sm_insert; cbn;
    f_equal; by apply sm_update_comm.
Qed.

Lemma node_action_at_subdir v n d k f :
  (match v with DirNodeMetaData _ _ => False | _ => True end) ->
  node_action v n (at_subdir d k f) = at_subdir (node_action v n d) k f.
Proof. by destruct v. Qed.

(** An entry as an update that commutes with the subdirectories: a directory is
    touched from inside. *)
Definition action_dirs (v : NodeMetaData) (dirs : list str) (n : str) : list str :=
  match v with DirNodeMetaData _ _ => dirs ++ [n] | _ => dirs end.

Definition action (v : NodeMetaData) (n : str) : ND -> ND :=
  match v with DirNodeMetaData _ _ => id | _ => node_action v n end.

Lemma action_eq v dirs n d :
  update_at (action_dirs v dirs n) (action v n) d = update_at dirs (node_action v n) d.
Proof. destruct v; cbn; [done|done|]. by rewrite update_at_snoc. Qed.

Lemma action_at_subdir v n d k f :
  action v n (at_subdir d k f) = at_subdir (action v n d) k f.
Proof. by destruct v. Qed.

Lemma actions_comm v1 dirs1 n1 v2 dirs2 n2 d :
  nd_wf d -> (dirs1, n1) <> (dirs2, n2) ->
  update_at dirs1 (node_action v1 n1) (update_at dirs2 (node_action v2 n2) d) =
  update_at dirs2 (node_action v2 n2) (update_at dirs1 (node_action v1 n1) d).
Proof.
  intros Hwf Hne. rewrite <- !(action_eq v1), <- !(action_eq v2).
  apply update_at_comm; [apply action_at_subdir..| |done].
  intros Heq s Hs. destruct v1, v2; cbn in *; try done;
    simplify_eq; [..|]; (destruct Hs as [subs fs ls ? ? ? _]);
    unfold put_file, put_symlink, sm_insert; cbn; f_equal;
    apply sm_update_comm; try done; congruence.
Qed.

(** ** Flattened directories *)

Section flat.
Context (us : Z -> Timestamp) (ser : Directory -> str) `{DigestFunction}.

(** The paths of a nested directory in the order the code meets them. *)
Fixpoint flat (dirName : str) (d : ND) : list (str * NodeMetaData) :=
  match d with
  | MkNestedDirectory subdirs files symlinks =>
      map (fun p => (genNewPath dirName p.1,
        FileNodeMetaData (genNewPath dirName p.1) (d_digest p.2) (d_executable p.2)))
        files
      ++ map (fun p => (genNewPath dirName p.1,
           SymlinkNodeMetaData (genNewPath dirName p.1) p.2)) symlinks
      ++ (subdirs ≫= fun p =>
            (genNewPath dirName p.1,
             DirNodeMetaData (genNewPath dirName p.1)
               (make_digest ser (dir_message us ser p.2)))
            :: flat (genNewPath dirName p.1) p.2)
  end.

(** Every name is that of a directory entry. *)
Inductive valid_names : ND -> Prop :=
  | valid_names_intro subdirs files symlinks :
      Forall (fun p => valid_name p.1) files ->
      Forall (fun p => valid_name p.1) symlinks ->
      Forall (fun p => valid_name p.1) subdirs ->
      (forall k d, In (k, d) subdirs -> valid_names d) ->
      valid_names (MkNestedDirectory subdirs files symlinks).

(** What adding the entries of [d] to a directory does. *)
Fixpoint overlay (d : ND) (r : ND) : ND :=
  match d with
  | MkNestedDirectory subdirs files symlinks =>
      foldl (fun r p => at_subdir r p.1 (overlay p.2))
        (foldl (fun r p => put_symlink p.1 p.2 r)
           (foldl (fun r p =>
              put_file p.1 (plain_file (d_digest p.2) (d_executable p.2)) r) r files)
           symlinks) subdirs
  end.

Definition add_entry (r : ND) (it : str * NodeMetaData) : ND :=
  addToNestedDirectory it.2 r.

Lemma add_names_update {A} (name : A -> str) (node : str -> A -> NodeMetaData)
    (l : list A) dirName dirs g d :
  (forall p x, md_path (node p x) = p) ->
  names_of dirName dirs -> Forall (fun x => valid_name (name x)) l ->
  foldl add_entry (update_at dirs g d)
    (map (fun x => (genNewPath dirName (name x), node (genNewPath dirName (name x)) x)) l)
  = update_at dirs (fun s =>
      foldl (fun s x => node_action (node (genNewPath dirName (name x)) x) (name x) s)
        (g s) l) d.
Proof.
  intros Hp Hn Hl. revert g. induction Hl as [|x l Hx Hl IH]; intros g; [done|].
  cbn [map foldl]. unfold add_entry at 2. cbn [snd].
  erewrite add_node_spec; [|apply Hp|by apply genNewPath_names|apply Hx].
  by rewrite update_at_compose, IH.
Qed.

Lemma flat_overlay nd : valid_names nd -> forall dirName dirs g d,
  names_of dirName dirs ->
  foldl add_entry (update_at dirs g d) (flat dirName nd) =
  update_at dirs (fun s => overlay nd (g s)) d.
Proof.
  induction nd as [subs fs ls IH] using nd_ind. intros Hv dirName dirs g d Hn.
  inversion Hv as [? ? ? Hf Hl Hs Hsv E]; subst. cbn [flat overlay].
  rewrite !foldl_app.
  rewrite (add_names_update (fun p : str * File => p.1)
    (fun q p => FileNodeMetaData q (d_digest p.2) (d_executable p.2))) by done.
  rewrite (add_names_update (fun p : str * str => p.1)
    (fun q p => SymlinkNodeMetaData q p.2)) by done.
  cbn [node_action].
  match goal with |- _ = update_at dirs (fun s => foldl _ (@?h s) subs) d =>
    set (G := h) end.
  change (foldl add_entry (update_at dirs G d)
    (subs ≫= fun p => (genNewPath dirName p.1,
       DirNodeMetaData (genNewPath dirName p.1)
         (make_digest ser (dir_message us ser p.2)))
      :: flat (genNewPath dirName p.1) p.2)
    = update_at dirs (fun s => foldl (fun r p => at_subdir r p.1 (overlay p.2)) (G s) subs) d).
  clearbody G. clear Hv Hf Hl g. revert G.
  induction IH as [|[k s] subs Hone IH IH']; intros G; [done|].
  apply Forall_cons_1 in Hs as [Hk Hs].
  pose proof (Hsv k s ltac:(by left)) as Hsv0.
  assert (forall k d, In (k, d) subs -> valid_names d) as Hsv' by (intros k1 d1 ?; apply (Hsv k1); by right).
  cbn [fst snd] in *.
  cbn [mbind list_bind fst snd foldl]. cbn [app foldl]. rewrite foldl_app.
  pose proof (genNewPath_names dirName dirs k Hn Hk) as Hn'.
  unfold add_entry at 3. cbn [snd].
  erewrite add_node_spec; [|done|done|apply Hk]. cbn [node_action].
  rewrite update_at_compose.
  assert (forall d, update_at dirs (fun s0 => at_subdir (G s0) k id) d =
    update_at (dirs ++ [k]) id (update_at dirs G d)) as ->.
  { intros d0. by rewrite update_at_snoc, update_at_compose. }
  rewrite (Hone Hsv0 _ _ _ _ Hn').
  rewrite update_at_snoc, update_at_compose. by rewrite (IH' Hs Hsv').
Qed.

(** *** Overlaying on nothing *)

(** Every file is as a merge can make it: no modification time. *)
Inductive plain : ND -> Prop :=
  | plain_intro subdirs files symlinks :
      (forall k f, In (k, f) files -> f = plain_file (d_digest f) (d_executable f)) ->
      (forall k d, In (k, d) subdirs -> plain d) ->
      plain (MkNestedDirectory subdirs files symlinks).

Lemma sm_update_append {V} k (f : option V -> V) (m : smap V) :
  (forall k' v', In (k', v') m -> str_lt k' k) -> sm_update k f m = m ++ [(k, f None)].
Proof.
  induction m as [|[k0 v0] m IH]; intros Hlt; cbn; [done|].
  assert (str_lt k0 k) as Hk by (by eapply Hlt; left).
  apply str_compare_gt in Hk. rewrite Hk. f_equal. apply IH. intros k' v' ?.
  eapply Hlt. by right.
Qed.

Lemma foldl_update_sorted {V A} (F : str * A -> option V -> V) (l : smap A) (acc : smap V) :
  sm_sorted l ->
  (forall k v k' v', In (k, v) acc -> In (k', v') l -> str_lt k k') ->
  foldl (fun m p => sm_update p.1 (F p) m) acc l = acc ++ map (fun p => (p.1, F p None)) l.
Proof.
  intros Hs. revert acc. induction Hs as [|k v l Hlt Hs IH]; intros acc Hacc.
  - by rewrite app_nil_r.
  - cbn [foldl map fst]. rewrite sm_update_append by (intros; by eapply Hacc; [|left]).
    rewrite IH.
    + by rewrite <- app_assoc.
    + intros k1 v1 k2 v2 [H1|[[= <- <-]|[]]]%in_app_or H2; [|by eapply Hlt].
      eapply Hacc; [exact H1|by right].
Qed.

Lemma overlay_fields (nd r : ND) :
  overlay nd r =
  MkNestedDirectory
    (foldl (fun m p => sm_update p.1 (fun o => overlay p.2 (default NestedDirectory_new o)) m)
       (d_subdirs r) (d_subdirs nd))
    (foldl (fun m p => sm_insert p.1 (plain_file (d_digest p.2) (d_executable p.2)) m)
       (d_files r) (d_files nd))
    (foldl (fun m p => sm_insert p.1 p.2 m) (d_symlinks r) (d_symlinks nd)).
Proof.
  destruct nd as [subs fs ls]. cbn [overlay d_subdirs d_files d_symlinks].
  assert (forall r, foldl (fun r p => put_file p.1
      (plain_file (d_digest p.2) (d_executable p.2)) r) r fs =
    MkNestedDirectory (d_subdirs r)
      (foldl (fun m p => sm_insert p.1 (plain_file (d_digest p.2) (d_executable p.2)) m)
        (d_files r) fs) (d_symlinks r)) as ->.
  { clear r. induction fs as [|p fs IH]; intros r; [by destruct r|]. cbn [foldl]. by rewrite IH. }
  generalize (foldl (fun m (p : str * File) => sm_insert p.1
    (plain_file (d_digest p.2) (d_executable p.2)) m) (d_files r) fs) as fs'.
  intros fs'.
  assert (forall subs' ls', foldl (fun r p => put_symlink p.1 p.2 r)
      (MkNestedDirectory subs' fs' ls') ls =
    MkNestedDirectory subs' fs' (foldl (fun m p => sm_insert p.1 p.2 m) ls' ls)) as ->.
  { clear r. induction ls as [|p ls IH]; intros subs' ls'; [done|]. cbn [foldl].
    unfold put_symlink at 2. cbn [d_subdirs d_files d_symlinks]. by rewrite IH. }
  generalize (foldl (fun m (p : str * str) => sm_insert p.1 p.2 m) (d_symlinks r) ls) as ls'.
  intros ls'. generalize (d_subdirs r) as subs'. clear.
  induction subs as [|p subs IH]; intros subs'; [done|]. cbn [foldl].
  unfold at_subdir at 2. cbn [d_subdirs d_files d_symlinks]. by rewrite IH.
Qed.

Lemma map_pair_id {A} (F : str * A -> A) (l : smap A) :
  (forall k v, In (k, v) l -> F (k, v) = v) -> map (fun p => (p.1, F p)) l = l.
Proof.
  induction l as [|[k v] l IH]; intros Hf; cbn; [done|].
  rewrite (Hf k v) by (by left). rewrite IH; [done|]. intros; apply Hf. by right.
Qed.

Lemma overlay_new nd : nd_wf nd -> plain nd -> overlay nd NestedDirectory_new = nd.
Proof.
  induction nd as [subs fs ls IH] using nd_ind. intros Hwf Hp.
  inversion Hwf as [? ? ? Hs Hf Hl Hsub]; subst. inversion Hp as [? ? ? Hpf Hps]; subst.
  rewrite overlay_fields. cbn [d_subdirs d_files d_symlinks NestedDirectory_new].
  unfold sm_insert. f_equal.
  - rewrite (foldl_update_sorted
      (fun p o => overlay p.2 (default NestedDirectory_new o))) by done.
    cbn [app]. apply (map_pair_id (fun p => overlay p.2 NestedDirectory_new)).
    intros k v Hin. cbn. rewrite Forall_forall in IH. specialize (IH (k, v)).
    apply IH; [done|by eapply Hsub|by eapply Hps].
  - rewrite (foldl_update_sorted
      (fun p _ => plain_file (d_digest p.2) (d_executable p.2))) by done.
    cbn [app]. apply (map_pair_id (fun p : str * File =>
      plain_file (d_digest p.2) (d_executable p.2))).
    intros k v Hin. symmetry. by eapply Hpf.
  - rewrite (foldl_update_sorted (fun p _ => p.2)) by done.
    cbn [app]. by apply (map_pair_id (fun p : str * str => p.2)).
Qed.

(** Adding the entries of a tree to nothing gives the tree. *)
Lemma flat_rebuild nd :
  nd_wf nd -> plain nd -> valid_names nd ->
  foldl add_entry NestedDirectory_new (flat [] nd) = nd.
Proof.
  intros Hwf Hp Hv.
  pose proof (flat_overlay nd Hv [] [] id NestedDirectory_new names_of_nil) as Hf.
  cbn [update_at id] in Hf. unfold id in Hf. rewrite Hf. by apply overlay_new.
Qed.

(** *** Every entry has a path that can be taken apart *)

Definition good_entry (it : str * NodeMetaData) : Prop :=
  md_path it.2 = it.1 /\ exists dirs n, names_of it.1 (dirs ++ [n]) /\ n <> [].

Lemma flat_good nd : valid_names nd -> forall dirName dirs,
  names_of dirName dirs -> Forall good_entry (flat dirName nd).
Proof.
  induction nd as [subs fs ls IH] using nd_ind. intros Hv dirName dirs Hn.
  inversion Hv as [? ? ? Hf Hl Hs Hsv]; subst. cbn [flat].
  assert (forall n, valid_name n -> exists dirs' n',
    names_of (genNewPath dirName n) (dirs' ++ [n']) /\ n' <> []) as Hgood.
  { intros n Hvn. exists dirs, n. split; [by apply genNewPath_names|apply Hvn]. }
  apply Forall_app. split; [|apply Forall_app; split].
  - apply Forall_map. eapply Forall_impl; [|exact Hf]. intros p Hp. split; [done|by apply Hgood].
  - apply Forall_map. eapply Forall_impl; [|exact Hl]. intros p Hp. split; [done|by apply Hgood].
  - rewrite Forall_forall in *. intros it Hit.
    apply list_elem_of_In, list_elem_of_bind in Hit as ([k s] & Hit & Hin).
    apply list_elem_of_In in Hin. cbn [fst snd] in Hit.
    apply elem_of_cons in Hit as [->|Hit].
    + split; [done|]. apply Hgood. by apply (Hs (k, s)).
    + specialize (IH (k, s) Hin (Hsv k s Hin) (genNewPath dirName k) (dirs ++ [k])
        (genNewPath_names _ _ _ Hn (Hs (k, s) Hin))).
      rewrite Forall_forall in IH. by apply IH, list_elem_of_In.
Qed.
End flat.

(** ** Permutations of the entries *)

Lemma add_entry_wf it d : good_entry it -> nd_wf d -> nd_wf (add_entry d it).
Proof.
  intros [Hp (dirs & n & Hn & Hne)] Hwf. unfold add_entry.
  rewrite (add_node_spec it.2 d it.1 dirs n) by done.
  apply update_at_wf; [done|]. intros. by apply node_action_wf.
Qed.

Lemma add_entry_comm it1 it2 d :
  good_entry it1 -> good_entry it2 -> it1.1 <> it2.1 -> nd_wf d ->
  add_entry (add_entry d it1) it2 = add_entry (add_entry d it2) it1.
Proof.
  intros [Hp1 (dirs1 & n1 & Hn1 & Hne1)] [Hp2 (dirs2 & n2 & Hn2 & Hne2)] Hne Hwf.
  unfold add_entry.
  rewrite (add_node_spec it2.2 _ it2.1 dirs2 n2), (add_node_spec it1.2 _ it1.1 dirs1 n1),
    (add_node_spec it1.2 _ it1.1 dirs1 n1), (add_node_spec it2.2 _ it2.1 dirs2 n2) by done.
  apply actions_comm; [done|]. intros [= -> ->]. apply Hne.
  destruct Hn1 as [-> _], Hn2 as [-> _]. done.
Qed.

Lemma add_entries_perm l l' :
  l ≡ₚ l' -> NoDup l.*1 -> Forall good_entry l ->
  forall d, nd_wf d -> foldl add_entry d l = foldl add_entry d l'.
Proof.
  induction 1 as [|it l l' Hp IH|it1 it2 l|l1 l2 l3 H1 IH1 H2 IH2];
    intros Hnd Hg d Hwf; cbn [foldl] in *.
  - done.
  - apply Forall_cons_1 in Hg as [Hit Hg]. apply IH; [by eapply NoDup_cons_1_2|done|].
    by apply add_entry_wf.
  - apply Forall_cons_1 in Hg as [Hg1 Hg]. apply Forall_cons_1 in Hg as [Hg2 Hg].
    rewrite (add_entry_comm it1 it2); [done|done|done| |done].
    intros E. cbn [fmap list_fmap] in Hnd. rewrite E in Hnd.
    apply NoDup_cons_1_1 in Hnd. apply Hnd. left.
  - rewrite IH1 by done. apply IH2; [by rewrite <- H1|by rewrite <- H1|done].
Qed.

(** What adding an entry depends on: not the digest of a directory. *)
Definition erase (v : NodeMetaData) : NodeMetaData :=
  match v with DirNodeMetaData p _ => DirNodeMetaData p empty_digest | _ => v end.

Lemma add_entries_erase l d :
  foldl add_entry d (map (fun it => (it.1, erase it.2)) l) = foldl add_entry d l.
Proof.
  revert d. induction l as [|[k v] l IH]; intros d; [done|]. cbn [map foldl fst snd].
  rewrite IH. f_equal. by destruct v.
Qed.

Lemma um_iter_erase `{MapIteration} (m : PathNodeMetaDataMap) :
  map (fun it => (it.1, erase it.2)) (um_iter m) ≡ₚ map_to_list (erase <$> m).
Proof.
  rewrite map_to_list_fmap. rewrite um_iter_perm. apply reflexive_eq.
  apply list_fmap_ext. intros i [k v] _. done.
Qed.

(** Two maps that agree but for the digests of directories, visited in any two
    orders, give the same tree. *)
Lemma add_all_ext (I1 I2 : MapIteration) (m1 m2 : PathNodeMetaDataMap) :
  erase <$> m1 = erase <$> m2 ->
  (forall k v, m1 !! k = Some v -> good_entry (k, v)) ->
  add_all (H0 := I1) m1 = add_all (H0 := I2) m2.
Proof.
  intros Heq Hg. unfold add_all.
  change (foldl add_entry NestedDirectory_new (um_iter (MapIteration := I1) m1) =
          foldl add_entry NestedDirectory_new (um_iter (MapIteration := I2) m2)).
  rewrite <- add_entries_erase, <- (add_entries_erase (um_iter m2)).
  apply add_entries_perm; [|..|apply nd_wf_new].
  - by rewrite !um_iter_erase, Heq.
  - rewrite um_iter_erase. apply NoDup_fst_map_to_list.
  - rewrite um_iter_erase. apply Forall_forall. intros [k v] Hin%list_elem_of_In.
    apply elem_of_map_to_list in Hin. rewrite lookup_fmap in Hin.
    apply fmap_Some in Hin as (v1 & E & ->).
    destruct (Hg k v1 E) as [Hp Hk]. split; [by destruct v1|exact Hk].
Qed.

(** ** Flattening two trees *)

(** The checks of the code, on one entry. *)
Definition collides (existing : option NodeMetaData) (v : NodeMetaData) : bool :=
  match v with
  | FileNodeMetaData _ digest x =>
      match existing with
      | Some it => negb (digest_eqb (md_digest it) digest && Bool.eqb (isExecutable it) x)
      | None => false
      end
  | SymlinkNodeMetaData _ target =>
      match existing with
      | Some (SymlinkNodeMetaData _ target') => negb (bool_decide (target' = target))
      | _ => false
      end
  | DirNodeMetaData _ _ => false
  end.

Fixpoint insert_all (l : list (str * NodeMetaData)) (m : PathNodeMetaDataMap)
  : res PathNodeMetaDataMap :=
  match l with
  | [] => Ok m
  | (k, v) :: l => if collides (m !! k) v then Throw RuntimeError else insert_all l (emplace k v m)
  end.

Lemma insert_all_app l1 l2 m :
  insert_all (l1 ++ l2) m = let! m := insert_all l1 m in insert_all l2 m.
Proof.
  revert m. induction l1 as [|[k v] l1 IH]; intros m; cbn; [done|].
  by destruct (collides _ _).
Qed.

Lemma collides_same it v : erase it = erase v -> collides (Some it) v = false.
Proof.
  destruct it as [p d x|p t|p d], v as [p' d' x'|p' t'|p' d']; cbn [erase]; intros E;
    try discriminate E; [injection E as <- <- <-|injection E as <- <-|done].
  - unfold collides. cbn [md_digest isExecutable].
    by rewrite (proj2 (digest_eqb_spec d d)), eqb_reflx by done.
  - unfold collides. by rewrite bool_decide_eq_true_2.
Qed.

(** Entries that agree with what is there are merged in. *)
Lemma insert_all_union l m :
  NoDup l.*1 ->
  (forall k v it, In (k, v) l -> m !! k = Some it -> erase it = erase v) ->
  insert_all l m = Ok (m ∪ list_to_map l).
Proof.
  revert m. induction l as [|[k v] l IH]; intros m Hnd Hag; cbn [insert_all].
  - cbn. by rewrite (right_id_L ∅ (∪)).
  - assert (collides (m !! k) v = false) as ->.
    { destruct (m !! k) as [it|] eqn:E; [|by destruct v].
      apply collides_same. eapply Hag; [by left|done]. }
    cbn [fmap list_fmap fst] in Hnd. pose proof (NoDup_cons_1_1 _ _ Hnd) as Hk.
    rewrite IH; [|by eapply NoDup_cons_1_2|].
    + f_equal. cbn [list_to_map foldr fst snd]. apply map_eq. intros k'.
      rewrite !lookup_union. unfold emplace.
      destruct (m !! k) as [it|] eqn:E; destruct (decide (k = k')) as [<-|Hne];
        rewrite ?E, ?lookup_insert_eq, ?lookup_insert_ne by done; try done.
      all: by destruct (list_to_map (M := gmap str NodeMetaData) l !! k).
    + intros k' v' it Hin. unfold emplace.
      assert (k <> k') as Hne.
      { intros <-. apply Hk. apply list_elem_of_fmap. exists (k, v').
        split; [done|by apply list_elem_of_In]. }
      destruct (m !! k); [|rewrite lookup_insert_ne by done]; eapply Hag; by right.
Qed.

Section flatten.
Context (us : Z -> Timestamp) (ser : Directory -> str) (parse : str -> Directory).
Context `{DigestFunction}.

Lemma flatten_files_spec dirName fs m :
  flatten_files dirName (file_nodes us fs) m =
  insert_all (map (fun p => (genNewPath dirName p.1,
    FileNodeMetaData (genNewPath dirName p.1) (d_digest p.2) (d_executable p.2))) fs) m.
Proof.
  revert m. induction fs as [|[n f] fs IH]; intros m; [done|].
  cbn [file_nodes map flatten_files insert_all fst snd to_filenode fn_name].
  fold (file_nodes us fs). unfold collides, node_eqb.
  destruct (m !! genNewPath dirName n) as [it|]; cbn [fn_digest fn_is_executable to_filenode];
    [destruct (negb _); [done|]|]; apply IH.
Qed.

Lemma flatten_symlinks_spec dirName ls m :
  flatten_symlinks dirName (symlink_nodes ls) m =
  insert_all (map (fun p => (genNewPath dirName p.1,
    SymlinkNodeMetaData (genNewPath dirName p.1) p.2)) ls) m.
Proof.
  revert m. induction ls as [|[n t] ls IH]; intros m; [done|].
  cbn [symlink_nodes map flatten_symlinks insert_all fst snd sn_name sn_target].
  fold (symlink_nodes ls). unfold collides.
  destruct (m !! genNewPath dirName n) as [[]|]; try apply IH.
  destruct (negb _); [done|apply IH].
Qed.

(** The map of directories holds the message of a directory, which parses. *)
Definition in_map (dsMap : digest_string_map) (d : ND) : Prop :=
  dsMap !! digest_key (make_digest ser (dir_message us ser d)) =
    Some (ser (dir_message us ser d)) /\
  parse (ser (dir_message us ser d)) = dir_message us ser d.

Lemma buildFlattenedPath_spec dsMap d : forall dirName fuel m,
  (height d <= fuel)%nat -> Forall (in_map dsMap) (descendants d) ->
  buildFlattenedPath parse fuel dsMap m (dir_message us ser d) dirName =
  Some (insert_all (flat us ser dirName d) m).
Proof.
  induction d as [subs fs ls IH] using nd_ind. intros dirName [|fuel] m Hh Hs;
    cbn [height] in Hh; [lia|].
  cbn [buildFlattenedPath dir_message files symlinks directories flat].
  rewrite flatten_files_spec, !insert_all_app.
  destruct (insert_all _ m) as [m1|e]; cbn [res_bind]; [|done].
  rewrite flatten_symlinks_spec, insert_all_app.
  destruct (insert_all _ m1) as [m2|e]; cbn [res_bind]; [|done].
  clear m m1. revert m2. cbn [descendants] in Hs.
  induction IH as [|[k s] subs Hone IH IH']; intros m; [done|].
  cbn [mbind list_bind foldr] in Hs, Hh. rewrite !Forall_app in Hs.
  destruct Hs as [[Hds Hsv] Hs]. rewrite Forall_singleton in Hsv. cbn [snd fst] in *.
  destruct Hsv as [Hsv Hparse].
  cbn [map flatten_directories mbind list_bind dn_name dn_digest fst snd app insert_all].
  replace (collides (m !! genNewPath dirName k)
    (DirNodeMetaData (genNewPath dirName k) (make_digest ser (dir_message us ser s))))
    with false by (by destruct (m !! _) as [[]|]).
  rewrite Hsv, Hparse, Hone by (done || lia). rewrite insert_all_app.
  destruct (insert_all (flat us ser (genNewPath dirName k) s) _) as [m1|e];
    cbn [res_bind]; [|done].
  apply IH'; [lia|done].
Qed.

(** *** The map of directories *)

(** The messages of a tree, as [getTree] lists them. *)
Definition tree_list (d : ND) : DirectoryTree :=
  root (to_tree us ser d) :: children (to_tree us ser d).

(** No two different messages of these have digests that compare equal. *)
Definition collision_free (tree : list Directory) : Prop :=
  forall m1 m2, m1 ∈ tree -> m2 ∈ tree ->
    digest_key (make_digest ser m1) = digest_key (make_digest ser m2) ->
    ser m1 = ser m2.

Lemma emplace_lookup {K} `{Countable K} {V} (k k' : K) (v : V) (m : gmap K V) :
  emplace k v m !! k' =
  match m !! k' with Some x => Some x | None => if decide (k' = k) then Some v else None end.
Proof.
  unfold emplace. destruct (decide (k' = k)) as [->|Hne].
  - destruct (m !! k) eqn:E; [by rewrite E|by rewrite lookup_insert_eq].
  - destruct (m !! k); [by destruct (m !! k')|].
    rewrite lookup_insert_ne by done. by destruct (m !! k').
Qed.

Lemma buildDigestDirectoryMap_spec tree seen dsMap :
  collision_free (seen ++ tree) ->
  (forall m, m ∈ seen -> dsMap !! digest_key (make_digest ser m) = Some (ser m)) ->
  (forall k b, dsMap !! k = Some b ->
     exists m, m ∈ seen /\ k = digest_key (make_digest ser m)) ->
  let dsMap' := buildDigestDirectoryMap ser tree dsMap in
  (forall m, m ∈ seen ++ tree -> dsMap' !! digest_key (make_digest ser m) = Some (ser m)) /\
  (forall k b, dsMap' !! k = Some b ->
     exists m, m ∈ seen ++ tree /\ k = digest_key (make_digest ser m)).
Proof.
  unfold buildDigestDirectoryMap, digest_string_map in *. revert seen dsMap.
  induction tree as [|d tree IH]; intros seen dsMap Hcf Hin Hold; cbn [foldl].
  - by rewrite app_nil_r.
  - rewrite (cons_middle d seen tree), app_assoc in *. apply IH; [done|..].
    + intros m Hm. rewrite emplace_lookup.
      destruct (dsMap !! digest_key (make_digest ser m)) as [b|] eqn:E.
      * apply Hold in E as E'. destruct E' as (m' & Hm' & Ek).
        rewrite Ek, (Hin m' Hm') in E. rewrite <- E. f_equal.
        apply Hcf; [|by apply elem_of_app; left|done].
        apply elem_of_app; left. by apply elem_of_app; left.
      * apply elem_of_app in Hm as [Hm|Hm]; [by rewrite Hin in E|].
        apply list_elem_of_singleton in Hm. subst m. by rewrite decide_True.
    + intros k b. rewrite emplace_lookup. destruct (dsMap !! k) as [b'|] eqn:E.
      * intros _. destruct (Hold k b' E) as (m & Hm & ->). exists m.
        split; [by apply elem_of_app; left|done].
      * destruct (decide _) as [->|]; [|done]. intros _. exists d.
        split; [apply elem_of_app; right; left|done].
Qed.
End flatten.

(** ** Merging *)

Section merging.
Context (us : Z -> Timestamp) (ser : Directory -> str) (parse : str -> Directory).
Context `{DigestFunction}.

(** A tree no two entries of which have the same path. *)
Definition distinct (d : ND) : Prop := NoDup (flat us ser [] d).*1.

(** Entries of both trees at the same path are the same but for the digests of
    directories. *)
Definition compatible (d1 d2 : ND) : Prop :=
  forall k v1 v2, In (k, v1) (flat us ser [] d1) -> In (k, v2) (flat us ser [] d2) ->
    erase v1 = erase v2.

(** What a merge takes for granted of its trees. *)
Record mergeable (fuel : nat) (d1 d2 : ND) : Prop := {
  mg_names1 : valid_names d1;
  mg_names2 : valid_names d2;
  mg_distinct1 : distinct d1;
  mg_distinct2 : distinct d2;
  mg_compatible : compatible d1 d2;
  mg_collision_free : collision_free ser (tree_list us ser d1 ++ tree_list us ser d2);
  mg_parse m :
    m ∈ tree_list us ser d1 ++ tree_list us ser d2 -> parse (ser m) = m;
  mg_fuel1 : (height d1 <= fuel)%nat;
  mg_fuel2 : (height d2 <= fuel)%nat;
}.

Lemma mergeable_sym fuel d1 d2 : mergeable fuel d1 d2 -> mergeable fuel d2 d1.
Proof.
  intros []. split; try done.
  - intros k v1 v2 H1 H2. symmetry. by eapply mg_compatible0.
  - intros m1 m2 H1 H2. apply mg_collision_free0; rewrite elem_of_app in *; tauto.
  - intros m Hm. apply mg_parse0. rewrite elem_of_app in *; tauto.
Qed.

(** The map both trees are flattened into. *)
Definition entries_map (d : ND) : PathNodeMetaDataMap := list_to_map (flat us ser [] d).
Definition merged_map (d1 d2 : ND) : PathNodeMetaDataMap := entries_map d1 ∪ entries_map d2.

Lemma entries_map_In d k v :
  distinct d -> entries_map d !! k = Some v <-> In (k, v) (flat us ser [] d).
Proof.
  intros Hd. unfold entries_map. rewrite <- elem_of_list_to_map by done.
  apply list_elem_of_In.
Qed.

Lemma tree_list_dirs d m :
  m ∈ tree_list us ser d <-> exists d', d' ∈ d :: descendants d /\ m = dir_message us ser d'.
Proof.
  unfold tree_list. rewrite to_tree_spec. cbn [root children].
  change (dir_message us ser d :: map (dir_message us ser) (descendants d))
    with ((dir_message us ser) <$> (d :: descendants d)).
  rewrite list_elem_of_fmap. split; intros (d' & ? & ?); exists d'; done.
Qed.

(** The map of directories of the two trees. *)
Definition both_directories (d1 d2 : ND) : digest_string_map :=
  buildDigestDirectoryMap ser (tree_list us ser d2)
    (buildDigestDirectoryMap ser (tree_list us ser d1) ∅).

Lemma both_directories_in d1 d2 d :
  collision_free ser (tree_list us ser d1 ++ tree_list us ser d2) ->
  d ∈ (d1 :: descendants d1) ++ (d2 :: descendants d2) ->
  both_directories d1 d2 !! digest_key (make_digest ser (dir_message us ser d)) =
  Some (ser (dir_message us ser d)).
Proof.
  intros Hcf Hd.
  assert (collision_free ser ([] ++ tree_list us ser d1)) as Hcf1.
  { intros m1 m2 H1 H2. apply Hcf; by apply elem_of_app; left. }
  destruct (buildDigestDirectoryMap_spec ser (tree_list us ser d1) [] ∅ Hcf1) as [Hin1 Hold1].
  { intros m Hm. by apply elem_of_nil in Hm. }
  { intros k b Hk. unfold digest_string_map in Hk. by rewrite lookup_empty in Hk. }
  destruct (buildDigestDirectoryMap_spec ser (tree_list us ser d2) (tree_list us ser d1) _
    Hcf Hin1 Hold1) as [Hin2 _].
  apply Hin2. apply elem_of_app. rewrite !tree_list_dirs.
  apply elem_of_app in Hd as [Hd|Hd]; [left|right]; by exists d.
Qed.

Lemma flatten_both_ok fuel d1 d2 :
  mergeable fuel d1 d2 ->
  flatten_both parse fuel (tree_list us ser d1) (tree_list us ser d2)
    (both_directories d1 d2) = Some (Ok (merged_map d1 d2)).
Proof.
  intros []. unfold flatten_both, tree_list. rewrite !to_tree_spec. cbn [at_0 root children].
  assert (forall d, d ∈ descendants d1 ++ descendants d2 ->
    in_map us ser parse (both_directories d1 d2) d) as Hin.
  { intros d Hd. split.
    - apply both_directories_in; [done|].
      apply elem_of_app in Hd as [Hd|Hd]; apply elem_of_app; [left|right]; by right.
    - apply mg_parse0. apply elem_of_app. rewrite !tree_list_dirs.
      apply elem_of_app in Hd as [Hd|Hd]; [left|right]; exists d; split; done || by right. }
  rewrite (buildFlattenedPath_spec us ser parse); [|done|].
  2: { apply Forall_forall. intros d Hd%list_elem_of_In. apply Hin, elem_of_app. by left. }
  rewrite insert_all_union; [|done|intros k v it _; by rewrite lookup_empty].
  rewrite (left_id_L ∅ (∪)).
  rewrite (buildFlattenedPath_spec us ser parse); [|done|].
  2: { apply Forall_forall. intros d Hd%list_elem_of_In. apply Hin, elem_of_app. by right. }
  rewrite insert_all_union; [done|done|].
  intros k v it Hv Hit. apply (entries_map_In d1) in Hit; [|done]. by eapply mg_compatible0.
Qed.

Lemma merged_map_good fuel d1 d2 k v :
  mergeable fuel d1 d2 -> merged_map d1 d2 !! k = Some v -> good_entry (k, v).
Proof.
  intros [] Hv. unfold merged_map in Hv. apply lookup_union_Some_raw in Hv.
  pose proof (flat_good us ser d1 mg_names3 [] [] names_of_nil) as H1.
  pose proof (flat_good us ser d2 mg_names4 [] [] names_of_nil) as H2.
  rewrite Forall_forall in H1, H2.
  destruct Hv as [Hv|[_ Hv]]; apply entries_map_In in Hv; auto.
Qed.

Lemma merged_map_comm fuel d1 d2 :
  mergeable fuel d1 d2 -> erase <$> merged_map d1 d2 = erase <$> merged_map d2 d1.
Proof.
  intros []. apply map_eq. intros k. rewrite !lookup_fmap. unfold merged_map.
  rewrite !lookup_union.
  destruct (entries_map d1 !! k) as [v1|] eqn:E1, (entries_map d2 !! k) as [v2|] eqn:E2;
    try done. cbn. f_equal.
  apply entries_map_In in E1, E2; [|done..]. by eapply mg_compatible0.
Qed.

(** The result of merging two trees. *)
Lemma createMergedDigest_ok (I : MapIteration) fuel d1 d2 blobs :
  mergeable fuel d1 d2 ->
  let r := to_digest us ser (add_all (merged_map d1 d2)) (Some blobs) in
  createMergedDigest us ser parse fuel (tree_list us ser d1) (tree_list us ser d2) blobs =
  Some (Ok (MkMergeResult true (Some r.1) (default ∅ r.2)
    (filter (fun k => both_directories d1 d2 !! k = None)
       (fmap fst (um_iter (default ∅ r.2)))))).
Proof.
  intros Hm. unfold createMergedDigest. rewrite bool_decide_eq_false_2 by done.
  cbn [andb].
  fold (both_directories d1 d2). rewrite (flatten_both_ok fuel d1 d2 Hm).
  by destruct (to_digest us ser (add_all (merged_map d1 d2)) (Some blobs)).
Qed.

Lemma merged_self d :
  distinct d -> merged_map d d = entries_map d.
Proof.
  intros Hd. unfold merged_map. apply map_eq. intros k. rewrite lookup_union.
  by destruct (entries_map d !! k).
Qed.

Lemma add_all_self (I : MapIteration) d :
  nd_wf d -> plain d -> valid_names d -> distinct d -> add_all (entries_map d) = d.
Proof.
  intros Hwf Hp Hv Hd. unfold add_all.
  change (foldl add_entry NestedDirectory_new (um_iter (entries_map d)) = d).
  assert (um_iter (entries_map d) ≡ₚ flat us ser [] d) as Hperm.
  { rewrite um_iter_perm. by apply map_to_list_to_map. }
  rewrite (add_entries_perm _ _ Hperm).
  - by apply flat_rebuild.
  - by rewrite Hperm.
  - rewrite Hperm. by apply (flat_good us ser d Hv [] [] names_of_nil).
  - apply nd_wf_new.
Qed.

(** The keys a digest map gets are those of the messages put into it. *)
Lemma foldl_set_entry_keys ds m m' k :
  foldl (set_entry us ser) (Some m) ds = Some m' -> is_Some (m' !! k) ->
  is_Some (m !! k) \/ exists d, d ∈ ds /\ k = digest_key (make_digest ser (dir_message us ser d)).
Proof.
  unfold digest_string_map in *. revert m.
  induction ds as [|d ds IH]; intros m; cbn [foldl]; [intros [= ->]; by left|].
  unfold set_entry at 2, digest_map_set, dm_set, digest_string_map_set. intros E Hk.
  destruct (IH _ E Hk) as [Hm|(d' & Hd & ->)].
  - apply lookup_insert_is_Some' in Hm as [<-|Hm]; [|by left].
    right. exists d. split; [left|done].
  - right. exists d'. split; [by right|done].
Qed.
End merging.

(** ** Examples *)

#[global] Instance NodeMetaData_eq_dec : EqDecision NodeMetaData.
Proof. solve_decision. Defined.

Lemma collision_free_check (ser : Directory -> str) `{DigestFunction} (l : list Directory) :
  bool_decide (Forall (fun m1 => Forall (fun m2 =>
    digest_key (make_digest ser m1) = digest_key (make_digest ser m2) ->
    ser m1 = ser m2) l) l) = true -> collision_free ser l.
Proof.
  intros Hc%bool_decide_eq_true m1 m2 H1 H2. rewrite Forall_forall in Hc.
  apply list_elem_of_In in H1, H2. specialize (Hc m1 H1). rewrite Forall_forall in Hc. auto.
Qed.

Lemma compatible_check us ser `{DigestFunction} d1 d2 :
  bool_decide (Forall (fun p1 => Forall (fun p2 =>
    p1.1 = p2.1 -> erase p1.2 = erase p2.2) (flat us ser [] d2)) (flat us ser [] d1)) = true ->
  compatible us ser d1 d2.
Proof.
  intros Hc%bool_decide_eq_true k v1 v2 H1 H2. rewrite Forall_forall in Hc.
  specialize (Hc _ H1). rewrite Forall_forall in Hc. by apply (Hc _ H2).
Qed.

(** A parser for the messages of a list. *)
Definition toy_parse (l : list Directory) (s : str) : Directory :=
  match list_find (fun m => toy_ser m = s) l with
  | Some (_, m) => m
  | None => empty_Directory
  end.

#[refine] Instance toy_iteration : MapIteration :=
  {| um_iter K E C V m := map_to_list m |}.
Proof. done. Defined.

#[refine] Instance toy_reverse_iteration : MapIteration | 100 :=
  {| um_iter K E C V m := reverse (map_to_list m) |}.
Proof. intros. by rewrite reverse_Permutation. Defined.

Definition toy_left : ND := add (add NestedDirectory_new toy_file (L "a/f")) toy_file (L "g").
Definition toy_right : ND := add (addDirectory NestedDirectory_new (L "b")) toy_file (L "a/h").
Definition toy_parse_both : str -> Directory :=
  toy_parse (tree_list (H := toy_digests) toy_us toy_ser toy_left ++
             tree_list (H := toy_digests) toy_us toy_ser toy_right).

Lemma valid_name_char (c : ascii) : c <> "/"%char -> valid_name [c].
Proof. intros Hc. split; [done|]. cbn. by destruct (ascii_dec c "/"%char). Qed.

Ltac toy_names :=
  repeat first
    [ apply valid_names_intro | apply Forall_nil_2 | apply Forall_cons_2
    | (apply valid_name_char; discriminate)
    | (intros ? ? [[= <- <-]|?]) | (intros ? ? ?)
    | match goal with
      | H : In _ [] |- _ => destruct H
      | H : In _ (_ :: _) |- _ => destruct H as [[= <- <-]|H]
      end ].

Lemma toy_mergeable :
  mergeable (H := toy_digests) toy_us toy_ser toy_parse_both 2 toy_left toy_right.
Proof.
  assert (forall m, m ∈ tree_list (H := toy_digests) toy_us toy_ser toy_left ++
      tree_list (H := toy_digests) toy_us toy_ser toy_right ->
      toy_parse_both (toy_ser m) = m) as Hparse.
  { intros m Hm%list_elem_of_In. revert m Hm. apply Forall_forall.
    vm_compute. repeat constructor. }
  split.
  - unfold toy_left. vm_compute. toy_names.
  - unfold toy_right. vm_compute. toy_names.
  - apply (bool_decide_eq_true_1 _). vm_compute. reflexivity.
  - apply (bool_decide_eq_true_1 _). vm_compute. reflexivity.
  - apply compatible_check. vm_compute. reflexivity.
  - apply collision_free_check. vm_compute. reflexivity.
  - exact Hparse.
  - vm_compute. lia.
  - vm_compute. lia.
Qed.

(** ** Properties *)

(** C8. Two compatible trees merge to the same tree whichever comes first and
    whatever order the unordered maps are visited in: both merges succeed, with
    the same root digest and the same new blobs. *)
Theorem merge_commutes (us : Z -> Timestamp) (ser : Directory -> str)
    (parse : str -> Directory) (H : DigestFunction) (I1 I2 : MapIteration)
    (fuel : nat) (d1 d2 : NestedDirectory) (blobs : digest_string_map)
    (Hm : mergeable us ser parse fuel d1 d2) :
  exists r1 r2,
    createMergedDigest (H0 := I1) us ser parse fuel
      (tree_list us ser d1) (tree_list us ser d2) blobs = Some (Ok r1) /\
    createMergedDigest (H0 := I2) us ser parse fuel
      (tree_list us ser d2) (tree_list us ser d1) blobs = Some (Ok r2) /\
    merged r1 = true /\ merged r2 = true /\ rootDigest r1 = rootDigest r2 /\
    newDirectoryBlobs r1 = newDirectoryBlobs r2.
Proof.
  pose proof (add_all_ext I1 I2 _ _ (merged_map_comm us ser parse fuel d1 d2 Hm)
    (fun k v => merged_map_good us ser parse fuel d1 d2 k v Hm)) as Hadd.
  rewrite !(createMergedDigest_ok us ser parse) by (done || by apply mergeable_sym).
  eexists _, _. split; [done|]. split; [done|].
  cbn [merged rootDigest newDirectoryBlobs]. by rewrite Hadd.
Qed.

Lemma merge_commutes_witness :
  exists r1 r2,
    createMergedDigest (H := toy_digests) (H0 := toy_iteration) toy_us toy_ser toy_parse_both 2
      (tree_list (H := toy_digests) toy_us toy_ser toy_left)
      (tree_list (H := toy_digests) toy_us toy_ser toy_right) ∅ = Some (Ok r1) /\
    createMergedDigest (H := toy_digests) (H0 := toy_reverse_iteration) toy_us toy_ser
      toy_parse_both 2 (tree_list (H := toy_digests) toy_us toy_ser toy_right)
      (tree_list (H := toy_digests) toy_us toy_ser toy_left) ∅ = Some (Ok r2) /\
    rootDigest r1 = rootDigest r2.
Proof.
  destruct (merge_commutes toy_us toy_ser toy_parse_both toy_digests toy_iteration
    toy_reverse_iteration 2 toy_left toy_right ∅ toy_mergeable)
    as (r1 & r2 & E1 & E2 & _ & _ & E & _).
  exists r1, r2. split; [exact E1|]. split; [exact E2|exact E].
Defined.

(** C7. Merging a tree without modification times with itself gives the tree: its
    digest, no new directory, and as blobs only the messages of the tree.  The tree
    is one that merklization can make ([nd_wf]: its maps are sorted), whose files
    carry no node properties ([plain]: merging keeps only the digest and the
    executable bit of a file, so that a tree with modification times gets another
    digest, [merge_drops_times]), whose names are valid and distinct and whose
    messages parse back and do not collide ([mergeable]). *)
Theorem merge_with_itself (us : Z -> Timestamp) (ser : Directory -> str)
    (parse : str -> Directory) (H : DigestFunction) (I : MapIteration)
    (fuel : nat) (d : NestedDirectory)
    (Hm : mergeable us ser parse fuel d d) (Hwf : nd_wf d) (Hplain : plain d) :
  exists blobs,
    createMergedDigest us ser parse fuel
      (tree_list us ser d) (tree_list us ser d) ∅ =
    Some (Ok (MkMergeResult true
      (Some (make_digest ser (root (to_tree us ser d)))) blobs [])) /\
    (to_digest us ser d (Some ∅)).2 = Some blobs.
Proof.
  rewrite (createMergedDigest_ok us ser parse) by done. destruct Hm.
  rewrite merged_self, add_all_self by done.
  rewrite to_digest_spec, to_tree_spec. cbn [fst snd root].
  destruct (foldl (set_entry us ser) (Some ∅) (descendants d ++ [d])) as [blobs|] eqn:E.
  2: { destruct (foldl_set_entry_ok us ser (descendants d ++ [d]) ∅) as (m' & E' & _);
       [intros k b Hk; unfold digest_string_map in Hk; by rewrite lookup_empty in Hk|congruence]. }
  exists blobs. split; [|done]. cbn [default]. do 3 f_equal.
  assert (forall l : list (str * Z), (forall k, k ∈ l -> is_Some (blobs !! k)) ->
    filter (fun k => both_directories us ser d d !! k = None) l = []) as Hnil.
  { induction l as [|k l IH]; intros Hl; [done|]. rewrite filter_cons_False.
    - apply IH. intros k' Hk'. apply Hl. by right.
    - assert (is_Some (blobs !! k)) as Hk by (apply Hl; left).
      destruct (foldl_set_entry_keys us ser _ _ _ k E Hk) as [[b Hb]|(d' & Hd & ->)].
      + unfold digest_string_map in Hb. by rewrite lookup_empty in Hb.
      + rewrite both_directories_in; [done|done|].
        apply elem_of_app. left. apply elem_of_app in Hd as [Hd|Hd]; [by right|].
        apply list_elem_of_singleton in Hd. subst d'. left. }
  apply Hnil. intros k Hk. apply list_elem_of_fmap in Hk as ([k' b] & -> & Hk).
  rewrite um_iter_perm in Hk. apply elem_of_map_to_list in Hk. by exists b.
Qed.

Lemma merge_with_itself_witness :
  exists blobs,
    createMergedDigest (H := toy_digests) (H0 := toy_iteration) toy_us toy_ser
      (toy_parse (tree_list (H := toy_digests) toy_us toy_ser toy_left)) 2
      (tree_list (H := toy_digests) toy_us toy_ser toy_left)
      (tree_list (H := toy_digests) toy_us toy_ser toy_left) ∅ =
    Some (Ok (MkMergeResult true
      (Some (make_digest (H := toy_digests) toy_ser
         (root (to_tree (H := toy_digests) toy_us toy_ser toy_left)))) blobs [])).
Proof.
  destruct (merge_with_itself toy_us toy_ser
    (toy_parse (tree_list (H := toy_digests) toy_us toy_ser toy_left)) toy_digests
    toy_iteration 2 toy_left) as (blobs & E & _).
  - split.
    + vm_compute. toy_names.
    + vm_compute. toy_names.
    + apply (bool_decide_eq_true_1 _). vm_compute. reflexivity.
    + apply (bool_decide_eq_true_1 _). vm_compute. reflexivity.
    + apply compatible_check. vm_compute. reflexivity.
    + apply collision_free_check. vm_compute. reflexivity.
    + intros m Hm%list_elem_of_In. revert m Hm. apply Forall_forall.
      vm_compute. repeat constructor.
    + vm_compute. lia.
    + vm_compute. lia.
  - unfold toy_left. rewrite !add_spec. repeat apply update_at_wf;
      try (intros; apply put_file_wf; assumption); apply nd_wf_new.
  - vm_compute. constructor; intros k x Hx; repeat destruct Hx as [[= <- <-]|Hx];
      try reflexivity; try destruct Hx.
    constructor; intros k x Hx; repeat destruct Hx as [[= <- <-]|Hx];
      try reflexivity; destruct Hx.
  - exists blobs. exact E.
Defined.

(** Merging keeps of a file its digest and its executable bit: a tree with a
    modification time, merged with itself, gets the digest of the tree without it. *)
Example merge_drops_times :
  let toy_ser_times m := toy_ser m ++
    (files m ≫= fun f => match fn_mtime f with Some _ => L "t" | None => L "-" end) in
  let at_time t := add NestedDirectory_new
    (MkFile (Merklize.d_digest toy_file) (Merklize.d_executable toy_file) t 5) (L "f") in
  let tree t := tree_list (H := toy_digests) toy_us toy_ser_times (at_time t) in
  let own t := make_digest (H := toy_digests) toy_ser_times
    (root (to_tree (H := toy_digests) toy_us toy_ser_times (at_time t))) in
  let parse text :=
    default empty_Directory (head (filter (fun m => toy_ser_times m = text) (tree true))) in
  (exists r, createMergedDigest (H := toy_digests) (H0 := toy_iteration) toy_us toy_ser_times
     parse 2 (tree true) (tree true) ∅ = Some (Ok r) /\
     rootDigest r = Some (own false)) /\
  own true <> own false.
Proof. split; [eexists; split; vm_compute; reflexivity|]. by vm_compute. Qed.

(** When exactly one of the two trees is empty the merge does not report
    failure: an empty first tree makes it throw [std::out_of_range], and so
    does an empty second one once the first is flattened. *)
Theorem merge_with_empty_throws (us : Z -> Timestamp) (ser : Directory -> str)
    (parse : str -> Directory) (H : DigestFunction) (I : MapIteration)
    (fuel : nat) (directory : Directory) (tree : DirectoryTree)
    (blobs : digest_string_map) (m : PathNodeMetaDataMap)
    (Hflat : buildFlattenedPath parse fuel
      (buildDigestDirectoryMap ser (directory :: tree) ∅) ∅ directory [] = Some (Ok m)) :
  createMergedDigest us ser parse fuel [] (directory :: tree) blobs =
    Some (Throw OutOfRange) /\
  createMergedDigest us ser parse fuel (directory :: tree) [] blobs =
    Some (Throw OutOfRange).
Proof.
  split; [done|]. unfold createMergedDigest. rewrite bool_decide_eq_false_2 by done.
  cbn [andb]. unfold flatten_both. cbn [at_0].
  change (buildDigestDirectoryMap ser [] ?m) with m. by rewrite Hflat.
Qed.

Lemma merge_with_empty_throws_witness :
  createMergedDigest (H := toy_digests) (H0 := toy_iteration) toy_us toy_ser
    (fun _ => empty_Directory) 1 [] [empty_Directory] ∅ = Some (Throw OutOfRange).
Proof.
  apply (merge_with_empty_throws toy_us toy_ser (fun _ => empty_Directory) toy_digests
    toy_iteration 1 empty_Directory [] ∅ ∅).
  vm_compute. reflexivity.
Defined.

(** The messages of a directory with a file [a], and of one with a directory
    [a] that holds a file [b]. *)
Definition toy_a_file : ND := add NestedDirectory_new toy_file (L "a").
Definition toy_a_directory : ND := add NestedDirectory_new toy_file (L "a/b").

(** Whether a file and a directory of the same name collide depends on the
    order of the trees: the directory before the file is a collision, the file
    before the directory is not, and the merged root then has two children of
    that name. *)
Theorem merge_file_and_directory (I : MapIteration) :
  let us := toy_us in
  let ser := toy_ser in
  let t1 := tree_list (H := toy_digests) us ser toy_a_file in
  let t2 := tree_list (H := toy_digests) us ser toy_a_directory in
  let merge :=
    createMergedDigest (H := toy_digests) us ser (toy_parse (t1 ++ t2)) 2 in
  merge t2 t1 ∅ = Some (Ok (MkMergeResult false None ∅ [])) /\
  exists r, merge t1 t2 ∅ = Some (Ok r) /\ merged r = true /\
    rootDigest r = Some (to_digest (H := toy_digests) us ser
      (add toy_a_directory toy_file (L "a")) None).1.
Proof.
  intros us ser t1 t2 merge.
  set (ds1 := buildDigestDirectoryMap (H := toy_digests) ser t1
    (buildDigestDirectoryMap (H := toy_digests) ser t2 ∅)).
  set (ds2 := buildDigestDirectoryMap (H := toy_digests) ser t2
    (buildDigestDirectoryMap (H := toy_digests) ser t1 ∅)).
  assert (flatten_both (toy_parse (t1 ++ t2)) 2 t2 t1 ds1 = Some (Throw RuntimeError)) as E1
    by (vm_compute; reflexivity).
  set (m := list_to_map [(L "a", FileNodeMetaData (L "a") empty_digest false);
    (L "a/b", FileNodeMetaData (L "a/b") empty_digest false)] : PathNodeMetaDataMap).
  assert (flatten_both (toy_parse (t1 ++ t2)) 2 t1 t2 ds2 = Some (Ok m)) as E2
    by (vm_compute; reflexivity).
  assert (add_all m = add toy_a_directory toy_file (L "a")) as E3.
  { rewrite (add_all_ext I toy_iteration m m eq_refl).
    - vm_compute. reflexivity.
    - intros k v Hv. apply elem_of_list_to_map_2, list_elem_of_In in Hv.
      destruct Hv as [[= <- <-]|[[= <- <-]|[]]]; (split; [done|]).
      + exists [], (L "a"). split; [|done]. by repeat constructor.
      + exists [L "a"], (L "b"). split; [|done]. by repeat constructor. }
  split.
  - unfold merge, createMergedDigest. rewrite bool_decide_eq_false_2 by done. cbn [andb].
    fold ds1. by rewrite E1.
  - unfold merge, createMergedDigest. rewrite bool_decide_eq_false_2 by done. cbn [andb].
    fold ds2. rewrite E2, E3.
    destruct (to_digest us ser _ (Some ∅)) as [digest blobs] eqn:E4.
    eexists. split; [reflexivity|]. split; [done|]. cbn [rootDigest]. f_equal.
    apply (f_equal fst) in E4. cbn [fst] in E4. rewrite <- E4. by rewrite !to_digest_spec.
Qed.
