(* ===== verification/Paths.v ===== *)
(** * Paths

    [buildboxcommon_fileutils.cpp]: the functions on path names, which look at
    no file system: [normalizePath], [makePathAbsolute], [joinPathSegments],
    [joinPathSegmentsNoEscape], [pathBasename]. *)

From S2P Require Import Prelude StdMap Arrays Digest Merklize.

(** [c_str()] seen through a [const char *]: what precedes the first NUL. *)
Fixpoint c_str (s : str) : str :=
  match s with
  | [] => []
  | c :: s => if ascii_dec c zero then [] else c :: c_str s
  end.

(** [front()] and [back()]; of an empty string, the terminating NUL. *)
Definition front (s : str) : ascii := hd zero s.
Definition back (s : str) : ascii := List.last s zero.

Definition slash : ascii := "/"%char.
Definition is_slash (c : ascii) : bool := bool_decide (c = slash).

(** [std::string::find(prefix) == 0]. *)
Fixpoint starts_with (prefix s : str) : bool :=
  match prefix, s with
  | [], _ => true
  | _ :: _, [] => false
  | c :: prefix, d :: s => bool_decide (c = d) && starts_with prefix s
  end.

(** ** [normalizePath] *)

(** What the loop does with one segment; [segments] has its back first. *)
Definition add_segment (global : bool) (segments : list str) (segment : str)
  : list str :=
  match segments with
  | last :: rest =>
      if bool_decide (segment = L "..") && negb (bool_decide (last = L ".."))
      then rest
      else if negb (bool_decide (segment = L ".")) && negb (bool_decide (segment = []))
      then segment :: segments
      else segments
  | [] =>
      if global && bool_decide (segment = L "..") then segments
      else if negb (bool_decide (segment = L ".")) && negb (bool_decide (segment = []))
      then [segment]
      else segments
  end.

(** The loop consumes the path up to each slash; its length bounds the rounds. *)
Fixpoint normalize_loop (fuel : nat) (global : bool) (path : str)
    (segments : list str) : list str :=
  match path with
  | [] => segments
  | _ =>
      match split_slash path with
      | None => add_segment global segments path
      | Some (segment, rest) =>
          match fuel with
          | O => segments
          | S fuel => normalize_loop fuel global rest (add_segment global segments segment)
          end
      end
  end.

(** The end of [normalizePath]. *)
Definition render (global : bool) (segments : list str) : str :=
  match segments with
  | [] => if global then L "/" else L "."
  | _ =>
      (if global then L "/" else [])
      ++ removelast (concat (map (fun segment => segment ++ L "/") (rev segments)))
  end.

Definition normalizePath (path : str) : str :=
  let path := c_str path in
  let global := is_slash (front path) in
  render global (normalize_loop (length path) global path []).

(** ** The functions built on it *)

Definition makePathAbsolute (path cwd : str) : res str :=
  if bool_decide (cwd = []) || negb (is_slash (front cwd)) then Throw RuntimeError
  else
    let full_path := if negb (is_slash (front path)) then cwd ++ L "/" ++ path else path in
    let normalized_path := normalizePath full_path in
    Ok (if is_slash (back path) && negb (is_slash (back normalized_path))
        then normalized_path ++ L "/" else normalized_path).

Definition joinPathSegments (firstSegment secondSegment : str)
    (forceSecondSegmentRelative : bool) : res str :=
  if bool_decide (firstSegment = []) || bool_decide (secondSegment = [])
  then Throw RuntimeError
  else
    let firstSegmentNormalized := normalizePath firstSegment in
    let secondSegmentNormalized := normalizePath secondSegment in
    if negb forceSecondSegmentRelative && is_slash (front secondSegmentNormalized)
    then Ok secondSegmentNormalized
    else Ok (normalizePath (firstSegmentNormalized ++ L "/" ++ secondSegmentNormalized)).

(** [joinedPath.at(n)]. *)
Definition str_at (s : str) (n : nat) : res ascii :=
  match s !! n with Some c => Ok c | None => Throw OutOfRange end.

(** The checks of [joinPathSegmentsNoEscape]. *)
Definition escapes (normalizedBaseDir normalizedPathWithinBaseDir joinedPath : str)
  : res bool :=
  if bool_decide (joinedPath = normalizedBaseDir) then Ok false
  else if bool_decide (normalizedBaseDir = L "/") || bool_decide (normalizedBaseDir = [])
          || bool_decide (normalizedBaseDir = L ".")
  then
    Ok (negb (negb (bool_decide (normalizedPathWithinBaseDir = L ".."))
              && negb (bool_decide (take 3 normalizedPathWithinBaseDir = L "../"))))
  else if starts_with normalizedBaseDir joinedPath then
    if (length normalizedBaseDir <=? length joinedPath)%nat then
      let! c := str_at joinedPath (length normalizedBaseDir) in
      Ok (negb (is_slash c))
    else Ok true
  else Ok true.

Definition joinPathSegmentsNoEscape (basedir pathWithinBasedir : str)
    (forceRelativePathWithinBaseDir : bool) : res str :=
  let normalizedBaseDir := normalizePath basedir in
  let normalizedPathWithinBaseDir := normalizePath pathWithinBasedir in
  let! joinedPath :=
    joinPathSegments basedir normalizedPathWithinBaseDir
      forceRelativePathWithinBaseDir in
  let! escaping := escapes normalizedBaseDir normalizedPathWithinBaseDir joinedPath in
  if (escaping : bool) then Throw RuntimeError else Ok joinedPath.

(** [s.rfind('/')]: the text before the last slash and after it. *)
Fixpoint rsplit_slash (s : str) : option (str * str) :=
  match s with
  | [] => None
  | c :: s =>
      match rsplit_slash s with
      | Some (before, after) => Some (c :: before, after)
      | None => if ascii_dec c slash then Some ([], s) else None
      end
  end.

Definition pathBasename (path : str) : str :=
  let basename := c_str path in
  if (length basename <=? 1)%nat then []
  else
    let basename :=
      if is_slash (back basename)
      then match rsplit_slash basename with Some (before, _) => before | None => basename end
      else basename in
    match rsplit_slash basename with
    | None => []
    | Some (_, after) => after
    end.
