(* ===== verification/PathsSpec.v ===== *)
(** * What the functions on paths promise

    A normalized path has a canonical list of segments, so normalizing again
    changes nothing; a join that passes the escape check stays inside its base
    directory, but for two kinds of base. *)

From S2P Require Import Prelude StdMap Arrays Digest TimeUtils Merklize MerklizeSpec Merge MergeSpec Paths.

(** ** Segments *)

Definition dotdot : str := L "..".

(** A segment that is kept: a name, perhaps [..]. *)
Definition segment_ok (s : str) : Prop := valid_name s /\ s <> L ".".

(** The segments of a canonical path, the back first: names over the [..]s that
    could not be resolved, which an absolute path has none of. *)
Definition canonical (global : bool) (segments : list str) : Prop :=
  exists names n, segments = names ++ replicate n dotdot /\
    Forall (fun s => segment_ok s /\ s <> dotdot) names /\
    (global = true -> n = O).

Lemma valid_dotdot : segment_ok dotdot.
Proof. split; [split; [vm_compute; discriminate|reflexivity]|vm_compute; discriminate]. Qed.

(** Pieces between slashes. *)
Definition piece (s : str) : Prop := split_path s = [s].

Lemma split_path_pieces p : Forall piece (split_path p).
Proof.
  induction p as [|c p IH]; [by repeat constructor|]. cbn [split_path].
  destruct (ascii_dec c "/"%char) as [|Hc]; [by constructor|].
  pose proof (split_path_nonempty p). destruct (split_path p) as [|n ns]; [done|].
  apply Forall_cons_1 in IH as [Hn Hns]. constructor; [|done].
  unfold piece in *. cbn [split_path]. destruct (ascii_dec c "/"%char); [done|].
  by rewrite Hn.
Qed.

Lemma normalize_loop_spec fuel global path segments :
  (length path <= fuel)%nat ->
  normalize_loop fuel global path segments =
  foldl (add_segment global) segments (split_path path).
Proof.
  assert (forall l, add_segment global l [] = l) as Hnil.
  { intros [|x l]; cbn; [|done]. by destruct global. }
  revert path segments. induction fuel as [|fuel IH]; intros [|c path] segments Hf;
    try (cbn; by rewrite Hnil); [cbn in Hf; lia|].
  cbn [normalize_loop]. destruct (split_slash (c :: path)) as [[s rest]|] eqn:E.
  - apply split_slash_some in E as [-> Hl]. cbn [length] in *. apply IH. lia.
  - by rewrite (split_slash_none _ E).
Qed.

Lemma add_segment_canonical global segments s :
  canonical global segments -> piece s -> canonical global (add_segment global segments s).
Proof.
  intros (names & n & -> & Hn & Hg) Hp.
  destruct (decide (s = [])) as [->|Hne].
  { exists names, n. split; [|done]. destruct names as [|x names]; cbn; [|done].
    destruct n; cbn; [|done]. by destruct global. }
  destruct (decide (s = L ".")) as [->|Hdot].
  { exists names, n. split; [|done]. destruct names as [|x names]; cbn; [|done].
    destruct n; cbn; [|done]. by destruct global. }
  assert (segment_ok s) as Hs by done.
  unfold add_segment. rewrite (bool_decide_eq_false_2 _ Hne), (bool_decide_eq_false_2 _ Hdot).
  cbn [negb andb]. fold dotdot. destruct names as [|x names]; cbn [app].
  - destruct n as [|n]; cbn [replicate].
    + destruct (decide (s = dotdot)) as [->|Hd].
      * rewrite bool_decide_eq_true_2, andb_true_r by done. destruct global.
        -- by exists [], O.
        -- by exists [], 1%nat.
      * rewrite bool_decide_eq_false_2, andb_false_r by done.
        exists [s], O. split; [done|]. split; [by constructor|done].
    + rewrite (bool_decide_eq_true_2 (dotdot = dotdot)), andb_false_r by done.
      destruct (decide (s = dotdot)) as [->|Hd].
      * exists [], (S (S n)). split; [done|]. split; [done|]. intros Hgt. by apply Hg in Hgt.
      * exists [s], (S n). split; [done|]. split; [by constructor|done].
  - apply Forall_cons_1 in Hn as [[Hx Hxd] Hn].
    rewrite (bool_decide_eq_false_2 (x = dotdot)), andb_true_r by done.
    destruct (decide (s = dotdot)) as [->|Hd].
    + rewrite bool_decide_eq_true_2 by done. by exists names, n.
    + rewrite bool_decide_eq_false_2 by done. exists (s :: x :: names), n.
      split; [done|]. split; [apply Forall_cons_2; [done|by apply Forall_cons_2]|done].
Qed.

Lemma foldl_canonical global l segments :
  Forall piece l -> canonical global segments ->
  canonical global (foldl (add_segment global) segments l).
Proof.
  intros Hl. revert segments. induction Hl as [|s l Hs Hl IH]; intros segments Hc; [done|].
  cbn [foldl]. by apply IH, add_segment_canonical.
Qed.

(** ** Canonical segments are kept *)

Lemma push_names global names segments :
  Forall (fun s => segment_ok s /\ s <> dotdot) names ->
  foldl (add_segment global) segments names = rev names ++ segments.
Proof.
  intros Hn. revert segments. induction Hn as [|s names [[[Hne _] Hdot] Hd] Hn IH];
    intros segments; [done|].
  cbn [foldl rev]. rewrite IH, <- app_assoc. cbn [app]. do 2 f_equal.
  unfold add_segment. fold dotdot.
  rewrite (bool_decide_eq_false_2 _ Hne), (bool_decide_eq_false_2 _ Hdot),
    (bool_decide_eq_false_2 _ Hd).
  destruct segments; cbn; [|done]. by rewrite andb_false_r.
Qed.

Lemma push_dotdots n m :
  foldl (add_segment false) (replicate m dotdot) (replicate n dotdot) =
  replicate (n + m) dotdot.
Proof.
  revert m. induction n as [|n IH]; intros m; [done|].
  cbn [replicate foldl Nat.add].
  replace (add_segment false (replicate m dotdot) dotdot) with (replicate (S m) dotdot)
    by (by destruct m).
  rewrite IH. rewrite Nat.add_succ_r. done.
Qed.

Lemma replicate_rev {A} n (x : A) : rev (replicate n x) = replicate n x.
Proof.
  induction n as [|n IH]; [done|]. cbn [replicate rev]. rewrite IH.
  by rewrite <- replicate_cons_app.
Qed.

Lemma canonical_again global segments :
  canonical global segments ->
  foldl (add_segment global) [] (rev segments) = segments.
Proof.
  intros (names & n & -> & Hn & Hg). rewrite rev_app_distr, replicate_rev, foldl_app.
  assert (foldl (add_segment global) [] (replicate n dotdot) = replicate n dotdot) as ->.
  { destruct global; [by rewrite Hg|]. rewrite <- (Nat.add_0_r n) at 2.
    apply (push_dotdots n 0). }
  rewrite push_names; [by rewrite rev_involutive|]. by apply Forall_rev.
Qed.

Lemma canonical_ok global segments : canonical global segments -> Forall segment_ok segments.
Proof.
  intros (names & n & -> & Hn & _). apply Forall_app. split.
  - eapply Forall_impl; [|exact Hn]. by intros s [].
  - apply Forall_replicate, valid_dotdot.
Qed.

(** ** The text of a list of segments *)

Lemma removelast_join l : l <> [] ->
  removelast (concat (map (fun s => s ++ L "/") l)) = join_path l.
Proof.
  induction l as [|s l IH]; [done|]. intros _. destruct l as [|s' l].
  - cbn [map concat join_path]. rewrite app_nil_r. change (L "/") with [slash].
    apply removelast_last.
  - change (join_path (s :: s' :: l)) with (s ++ L "/" ++ join_path (s' :: l)).
    cbn [map concat]. rewrite removelast_app.
    + rewrite <- IH by done. by rewrite app_assoc.
    + intros E. apply app_eq_nil in E as [E _]. by destruct s'.
Qed.

Lemma split_join l : l <> [] -> Forall piece l -> split_path (join_path l) = l.
Proof.
  induction l as [|s l IH]; [done|]. intros _ Hl.
  apply Forall_cons_1 in Hl as [Hs Hl]. destruct l as [|s' l]; [exact Hs|].
  change (join_path (s :: s' :: l)) with (s ++ L "/" ++ join_path (s' :: l)).
  rewrite split_path_app, IH by done. by rewrite Hs.
Qed.

Lemma segment_ok_piece s : segment_ok s -> piece s.
Proof. by intros [[_ ?] _]. Qed.

Lemma segment_no_zero_front s : segment_ok s -> is_slash (front s) = false.
Proof.
  intros [[Hne Hs] _]. destruct s as [|c s]; [done|]. cbn in *.
  unfold is_slash. apply bool_decide_eq_false. intros ->. cbn in Hs. injection Hs as H.
  pose proof (split_path_nonempty s). by rewrite H in *.
Qed.

(** No NUL in a path. *)
Definition no_nul (p : str) : Prop := zero ∉ p.

Lemma c_str_no_nul p : no_nul (c_str p).
Proof.
  unfold no_nul. induction p as [|c p IH]; cbn; [apply not_elem_of_nil|].
  destruct (ascii_dec c zero); [apply not_elem_of_nil|]. apply not_elem_of_cons. done.
Qed.

Lemma c_str_id p : no_nul p -> c_str p = p.
Proof.
  unfold no_nul. induction p as [|c p IH]; intros Hp; [done|].
  apply not_elem_of_cons in Hp as [Hc Hp]. cbn.
  destruct (ascii_dec c zero); [congruence|]. by rewrite IH.
Qed.

Lemma no_nul_split p : no_nul p <-> Forall no_nul (split_path p).
Proof.
  unfold no_nul. induction p as [|c p IH].
  - split; [|intros; apply not_elem_of_nil]. intros _. constructor; [apply not_elem_of_nil|done].
  - cbn [split_path]. rewrite not_elem_of_cons, IH.
    destruct (ascii_dec c "/"%char) as [->|Hc].
    + rewrite Forall_cons_iff. split; [intros [_ ?]; split; [apply not_elem_of_nil|done]|].
      by intros [_ ?].
    + pose proof (split_path_nonempty p). destruct (split_path p) as [|n ns]; [done|].
      rewrite !Forall_cons_iff, not_elem_of_cons. tauto.
Qed.

Lemma add_segment_forall (P : str -> Prop) global segments s :
  Forall P segments -> P s -> Forall P (add_segment global segments s).
Proof.
  intros Hs Hp. destruct segments as [|x l]; cbn; repeat case_match; auto.
  by apply Forall_cons_1 in Hs as [_ ?].
Qed.

Lemma foldl_forall (P : str -> Prop) global l segments :
  Forall P segments -> Forall P l -> Forall P (foldl (add_segment global) segments l).
Proof.
  intros Hs Hl. revert segments Hs. induction Hl as [|s l Hp Hl IH]; intros segments Hs; [done|].
  cbn [foldl]. by apply IH, add_segment_forall.
Qed.

(** ** The segments of a path *)

(** The pieces that mean something. *)
Definition segments_of (p : str) : list str :=
  filter (fun s => s <> [] /\ s <> L ".") (split_path p).

Definition is_absolute (p : str) : bool := is_slash (front p).

Lemma segments_of_slash a b : segments_of (a ++ L "/" ++ b) = segments_of a ++ segments_of b.
Proof. unfold segments_of. by rewrite split_path_app, list.filter_app. Qed.

Lemma foldl_segments global p segments :
  foldl (add_segment global) segments (split_path p) =
  foldl (add_segment global) segments (segments_of p).
Proof.
  unfold segments_of. revert segments. induction (split_path p) as [|s l IH]; intros segments;
    [done|]. destruct (decide (s <> [] /\ s <> L ".")) as [Hk|Hk].
  - rewrite filter_cons_True by done. cbn [foldl]. apply IH.
  - rewrite filter_cons_False by done. cbn [foldl]. rewrite IH. f_equal.
    assert (s = [] \/ s = L ".") as Hs.
    { destruct (decide (s = [])); [by left|]. destruct (decide (s = L ".")); [by right|].
      by destruct Hk. }
    destruct Hs as [->| ->]; destruct segments; cbn; try done; by destruct global.
Qed.

Lemma segments_of_keep l : Forall segment_ok l ->
  filter (fun s : str => s <> [] /\ s <> L ".") l = l.
Proof.
  induction 1 as [|s l [[Hne _] Hd] _ IH]; [done|]. rewrite filter_cons_True by done.
  by rewrite IH.
Qed.

(** What a rendered canonical path is. *)
Lemma render_text global segments : canonical global segments ->
  render global segments =
  match segments with
  | [] => if global then L "/" else L "."
  | _ => (if global then L "/" else []) ++ join_path (rev segments)
  end.
Proof.
  intros _. destruct segments as [|s l]; [done|]. unfold render.
  rewrite removelast_join; [done|]. intros E. apply (f_equal length) in E.
  rewrite length_rev in E. done.
Qed.

Lemma render_segments global segments : canonical global segments ->
  segments_of (render global segments) = rev segments.
Proof.
  intros Hc. rewrite render_text by done. destruct segments as [|s l]; [by destruct global|].
  pose proof (canonical_ok _ _ Hc) as Hok. apply Forall_rev in Hok.
  assert (segments_of (join_path (rev (s :: l))) = rev (s :: l)) as Hj.
  { unfold segments_of. rewrite split_join.
    - by apply segments_of_keep.
    - intros E. apply (f_equal length) in E. rewrite length_rev in E. done.
    - eapply Forall_impl; [|exact Hok]. apply segment_ok_piece. }
  destruct global; [|exact Hj].
  change (L "/" ++ join_path (rev (s :: l))) with ([] ++ L "/" ++ join_path (rev (s :: l))).
  by rewrite segments_of_slash, Hj.
Qed.

Lemma join_front s l : s <> [] -> front (join_path (s :: l)) = front s.
Proof. destruct s as [|c s]; [done|]. by destruct l. Qed.

Lemma render_absolute global segments : canonical global segments ->
  is_absolute (render global segments) = global.
Proof.
  intros Hc. rewrite render_text by done. unfold is_absolute.
  destruct segments as [|s l]; [by destruct global|]. destruct global; [done|].
  cbn [app]. pose proof (canonical_ok _ _ Hc) as Hok. apply Forall_rev in Hok.
  destruct (rev (s :: l)) as [|s' l'] eqn:E.
  { apply (f_equal length) in E. rewrite length_rev in E. done. }
  apply Forall_cons_1 in Hok as [Hs _]. rewrite join_front by apply Hs.
  by apply segment_no_zero_front.
Qed.

Lemma render_no_nul global segments : canonical global segments ->
  Forall no_nul segments -> no_nul (render global segments).
Proof.
  intros Hc Hn. rewrite render_text by done.
  destruct segments as [|s l].
  { unfold no_nul. destruct global; vm_compute; intros Hin; inversion Hin as [|? ? ? Hin'];
      inversion Hin'. }
  pose proof (canonical_ok _ _ Hc) as Hok. apply Forall_rev in Hok, Hn.
  assert (no_nul (join_path (rev (s :: l)))) as Hj.
  { apply no_nul_split. rewrite split_join; [done| |].
    - intros E. apply (f_equal length) in E. rewrite length_rev in E. done.
    - eapply Forall_impl; [|exact Hok]. apply segment_ok_piece. }
  destruct global; [|exact Hj]. unfold no_nul in *. cbn [app].
  apply not_elem_of_cons. split; [discriminate|exact Hj].
Qed.

(** What normalizing comes to. *)
Lemma normalizePath_spec p :
  exists segments, canonical (is_absolute (c_str p)) segments /\ Forall no_nul segments /\
    normalizePath p = render (is_absolute (c_str p)) segments /\
    segments = foldl (add_segment (is_absolute (c_str p))) [] (segments_of (c_str p)).
Proof.
  unfold normalizePath. cbn zeta. fold (is_absolute (c_str p)).
  rewrite normalize_loop_spec by done.
  eexists. split; [|split; [|split; [reflexivity|apply foldl_segments]]].
  - apply foldl_canonical; [apply split_path_pieces|]. by exists [], O.
  - apply foldl_forall; [done|]. apply no_nul_split, c_str_no_nul.
Qed.

Lemma normalizePath_no_nul p : no_nul (normalizePath p).
Proof.
  destruct (normalizePath_spec p) as (s & Hc & Hn & -> & _). by apply render_no_nul.
Qed.

Lemma render_again global segments : canonical global segments ->
  Forall no_nul segments -> normalizePath (render global segments) = render global segments.
Proof.
  intros Hc Hn.
  destruct (normalizePath_spec (render global segments)) as (s & _ & _ & -> & ->).
  rewrite c_str_id by (by apply render_no_nul).
  rewrite render_absolute, render_segments by done. by rewrite canonical_again.
Qed.

Lemma normalizePath_idem p : normalizePath (normalizePath p) = normalizePath p.
Proof.
  destruct (normalizePath_spec p) as (s & Hc & Hn & -> & _). by apply render_again.
Qed.

(** ** Joins *)

Lemma starts_with_app a b : starts_with a b = true -> exists t, b = a ++ t.
Proof.
  revert b. induction a as [|c a IH]; intros b Hs; [by exists b|].
  destruct b as [|d b]; [done|]. cbn in Hs. apply andb_true_iff in Hs as [Hc Hs].
  apply bool_decide_eq_true in Hc as ->. destruct (IH b Hs) as [t ->]. by exists t.
Qed.

Lemma no_dotdot_names segments :
  canonical false segments -> dotdot ∉ segments ->
  Forall (fun s => segment_ok s /\ s <> dotdot) segments.
Proof.
  intros (names & n & -> & Hn & _) Hd. destruct n as [|n]; [by rewrite app_nil_r|].
  exfalso. apply Hd. apply elem_of_app. right. left.
Qed.

Lemma canonical_absolute segments :
  canonical true segments -> Forall (fun s => segment_ok s /\ s <> dotdot) segments.
Proof.
  intros (names & n & -> & Hn & Hg). rewrite Hg by done. by rewrite app_nil_r.
Qed.

Lemma names_no_dotdot segments :
  Forall (fun s => segment_ok s /\ s <> dotdot) segments -> dotdot ∉ segments.
Proof.
  intros Hn Hd. rewrite Forall_forall in Hn. apply list_elem_of_In in Hd.
  by destruct (Hn _ Hd) as [_ ?].
Qed.

(** A relative canonical path that does not start with [..] has none. *)
Lemma front_dotdot segments :
  canonical false segments ->
  render false segments <> L ".." -> take 3 (render false segments) <> L "../" ->
  dotdot ∉ segments.
Proof.
  intros Hc H1 H2. rewrite render_text in H1, H2 by done.
  destruct Hc as (names & n & -> & Hn & _). destruct n as [|n].
  { rewrite app_nil_r. by apply names_no_dotdot. }
  exfalso.
  assert (rev (names ++ replicate (S n) dotdot) = dotdot :: replicate n dotdot ++ rev names)
    as Er by (by rewrite rev_app_distr, replicate_rev).
  destruct (names ++ replicate (S n) dotdot) as [|s l] eqn:E.
  { by destruct names. }
  rewrite Er in H1, H2. cbn [app] in H1, H2.
  destruct (replicate n dotdot ++ rev names) as [|s' l']; [by apply H1|].
  by apply H2.
Qed.

(** The base directory [b] contains [p]. *)
Definition inside (b p : str) : Prop :=
  is_absolute p = is_absolute b /\
  exists rest, segments_of p = segments_of b ++ rest /\ dotdot ∉ rest.

Lemma inside_extends b t :
  b <> [] -> segments_of b <> [] -> dotdot ∉ segments_of b ->
  canonical (is_absolute (b ++ L "/" ++ t)) (rev (segments_of (b ++ L "/" ++ t))) ->
  inside b (b ++ L "/" ++ t).
Proof.
  intros Hb Hs Hd (names & n & E & Hn & _). split; [by destruct b|].
  exists (segments_of t). rewrite segments_of_slash in *. split; [done|].
  apply (f_equal (@rev str)) in E.
  rewrite rev_involutive, rev_app_distr, replicate_rev in E.
  destruct n as [|n].
  - intros Ht. assert (dotdot ∈ rev names) as Hr.
    { cbn [replicate app] in E. rewrite <- E. apply elem_of_app. by right. }
    apply list_elem_of_In, in_rev, list_elem_of_In in Hr. by apply names_no_dotdot in Hr.
  - exfalso. destruct (segments_of b) as [|s l]; [done|]. injection E as -> _.
    apply Hd. left.
Qed.

Lemma joinPathSegments_cases base pn force r :
  joinPathSegments base pn force = Ok r ->
  r = normalizePath pn /\ force = false /\ is_absolute (normalizePath pn) = true \/
  r = normalizePath (normalizePath base ++ L "/" ++ normalizePath pn).
Proof.
  unfold joinPathSegments. destruct (_ || _); [done|].
  destruct (_ && _) eqn:E; intros [= <-]; [|by right]. left.
  apply andb_true_iff in E as [Hf Ha]. split; [done|]. by destruct force.
Qed.

Lemma joinPathSegments_throws base pn force e :
  joinPathSegments base pn force = Throw e -> e = RuntimeError.
Proof.
  unfold joinPathSegments. destruct (_ || _); [by intros [= <-]|]. by destruct (_ && _).
Qed.

(** The join of two normalized paths. *)
Lemma join_normalized b p :
  no_nul b -> no_nul p -> b <> [] ->
  c_str (b ++ L "/" ++ p) = b ++ L "/" ++ p /\
  is_absolute (b ++ L "/" ++ p) = is_absolute b.
Proof.
  intros Hb Hp Hne. split; [|by destruct b]. apply c_str_id. unfold no_nul in *.
  rewrite elem_of_app. intros [Hin|Hin]; [done|].
  apply elem_of_cons in Hin as [?|Hin]; done.
Qed.

Lemma normalizePath_nonempty p : normalizePath p <> [].
Proof.
  destruct (normalizePath_spec p) as (s & Hc & _ & -> & _).
  rewrite render_text by done. destruct s as [|s l]; [by destruct (is_absolute _)|].
  destruct (is_absolute _); [done|]. cbn [app].
  pose proof (canonical_ok _ _ Hc) as Hok. apply Forall_rev in Hok.
  destruct (rev (s :: l)) as [|s' l'] eqn:E.
  { apply (f_equal length) in E. rewrite length_rev in E. done. }
  apply Forall_cons_1 in Hok as [[[Hs _] _] _]. destruct l' as [|s'' l']; [done|].
  cbn. intros E'. by apply app_eq_nil in E' as [? _].
Qed.

(** A normalized path is canonical. *)
Lemma normalizePath_canonical_segments p :
  canonical (is_absolute (normalizePath p)) (rev (segments_of (normalizePath p))).
Proof.
  destruct (normalizePath_spec p) as (s & Hc & _ & -> & _).
  rewrite render_absolute, render_segments by done. by rewrite rev_involutive.
Qed.

(** The join of a base without [..] and a canonical path. *)
Lemma inside_join base pn force r :
  dotdot ∉ segments_of (normalizePath base) ->
  (normalizePath base = L "." -> force = true \/ is_absolute (normalizePath pn) = false) ->
  joinPathSegments base (normalizePath pn) force = Ok r ->
  escapes (normalizePath base) (normalizePath pn) r = Ok false ->
  inside (normalizePath base) r.
Proof.
  intros Hd Hrel Hjoin Hesc.
  pose proof (normalizePath_nonempty base) as Hbne.
  assert (canonical (is_absolute r) (rev (segments_of r))) as Hcr.
  { apply joinPathSegments_cases in Hjoin as [(-> & _)| ->];
      apply normalizePath_canonical_segments. }
  unfold escapes in Hesc.
  destruct (bool_decide (r = normalizePath base)) eqn:Er; b2p.
  { subst r. split; [done|]. exists []. rewrite app_nil_r. split; [done|apply not_elem_of_nil]. }
  destruct (bool_decide (normalizePath base = L "/")) eqn:Eroot; b2p; cbn [orb] in Hesc.
  { (* the root contains every absolute path *)
    rewrite Eroot in *. assert (is_absolute r = true) as Ha.
    { apply joinPathSegments_cases in Hjoin as [(-> & _ & Ha)| ->].
      - rewrite normalizePath_idem in *. done.
      - rewrite Eroot.
        destruct (normalizePath_spec (L "/" ++ L "/" ++ normalizePath (normalizePath pn)))
          as (s & Hc & _ & -> & _). by rewrite render_absolute. }
    split; [done|]. exists (segments_of r). split; [done|].
    rewrite Ha in Hcr. intros Hin. apply canonical_absolute in Hcr.
    apply names_no_dotdot in Hcr. apply Hcr.
    apply list_elem_of_In. apply -> in_rev. by apply list_elem_of_In. }
  rewrite (bool_decide_eq_false_2 _ Hbne) in Hesc. cbn [orb] in Hesc.
  destruct (bool_decide (normalizePath base = L ".")) eqn:Edot; b2p.
  { (* the working directory contains what does not start with dot-dot *)
    rewrite Edot in *. injection Hesc as Hesc. b2p.
    destruct (normalizePath_spec pn) as (s & Hc & Hnn & Epn & _). rewrite Epn in *.
    apply joinPathSegments_cases in Hjoin as [(-> & -> & Ha)| ->].
    { rewrite render_again in Ha by done. rewrite Ha in Hrel. by destruct Hrel. }
    rewrite Edot, render_again in * by done.
    destruct (join_normalized (L ".") (render (is_absolute (c_str pn)) s)) as [Ecs Eabs];
      [by rewrite <- Edot; apply normalizePath_no_nul|by apply render_no_nul|done|].
    destruct (normalizePath_spec (L "." ++ L "/" ++ render (is_absolute (c_str pn)) s))
      as (s' & Hc' & _ & -> & Es'). rewrite Ecs, Eabs in *.
    change (is_absolute (L ".")) with false in *.
    assert (Forall (fun s => segment_ok s /\ s <> dotdot) s) as Hnames.
    { destruct (is_absolute (c_str pn)); [by apply canonical_absolute|].
      apply no_dotdot_names; [done|]. by apply front_dotdot. }
    rewrite segments_of_slash, render_segments in Es' by done.
    change (segments_of (L ".")) with (@nil str) in Es'. cbn [app] in Es'.
    rewrite push_names, rev_involutive, app_nil_r in Es' by (by apply Forall_rev). subst s'.
    split; [by rewrite render_absolute|]. exists (rev s).
    rewrite render_segments by done. split; [done|].
    apply names_no_dotdot. by apply Forall_rev. }
  destruct (starts_with (normalizePath base) r) eqn:Est; [|done].
  apply starts_with_app in Est as [t ->].
  destruct (_ <=? _)%nat; [|done]. unfold str_at in Hesc.
  rewrite lookup_app_r, Nat.sub_diag in Hesc by done.
  destruct t as [|c t]; [done|]. cbn in Hesc. injection Hesc as Hc. b2p.
  unfold is_slash in Hc. b2p. subst c.
  apply (inside_extends (normalizePath base) t); [done| |done|exact Hcr].
  destruct (normalizePath_spec base) as (s & Hc & _ & E & _). rewrite E in *.
  rewrite render_segments by done. intros Es. destruct s as [|s l].
  - destruct (is_absolute (c_str base)); [by apply Eroot|by apply Edot].
  - apply (f_equal length) in Es. rewrite length_rev in Es. done.
Qed.

Lemma escapes_total base r pn :
  exists b, escapes base pn r = Ok b.
Proof.
  unfold escapes. destruct (bool_decide (r = base)) eqn:Er; [by eexists|].
  destruct (_ || _); [by eexists|].
  destruct (starts_with base r) eqn:Est; [|by eexists].
  apply starts_with_app in Est as [t ->]. destruct (_ <=? _)%nat; [|by eexists].
  unfold str_at. rewrite lookup_app_r, Nat.sub_diag by done.
  destruct t as [|c t]; [|by eexists]. b2p. rewrite app_nil_r in Er. done.
Qed.

(** ** Separators *)

Lemma split_slash_name a : ("/"%char ∉ a) -> split_slash a = None.
Proof.
  induction a as [|c a IH]; intros Ha; [done|]. apply not_elem_of_cons in Ha as [Hc Ha].
  cbn. destruct (ascii_dec c "/"%char) as [->|]; [done|]. by rewrite IH.
Qed.

Lemma split_slash_cut a b : ("/"%char ∉ a) -> split_slash (a ++ L "/" ++ b) = Some (a, b).
Proof.
  induction a as [|c a IH]; intros Ha; [done|]. apply not_elem_of_cons in Ha as [Hc Ha].
  cbn. destruct (ascii_dec c "/"%char) as [->|]; [done|]. cbn in IH. by rewrite IH.
Qed.

Lemma rsplit_slash_name a : ("/"%char ∉ a) -> rsplit_slash a = None.
Proof.
  induction a as [|c a IH]; intros Ha; [done|]. apply not_elem_of_cons in Ha as [Hc Ha].
  cbn. rewrite IH by done. unfold slash. by destruct (ascii_dec c "/"%char) as [->|].
Qed.

Lemma rsplit_slash_cut a b : ("/"%char ∉ b) -> rsplit_slash (a ++ L "/" ++ b) = Some (a, b).
Proof.
  intros Hb. induction a as [|c a IH]; cbn.
  - by rewrite rsplit_slash_name.
  - cbn in IH. by rewrite IH.
Qed.

Lemma join_path_nonempty n names : n <> [] -> join_path (n :: names) <> [].
Proof. destruct n; [done|]. by destruct names. Qed.

Lemma join_path_snoc dirs name :
  dirs <> [] -> join_path (dirs ++ [name]) = join_path dirs ++ L "/" ++ name.
Proof.
  induction dirs as [|d [|e dirs] IH]; intros H; [done|done|].
  change (join_path ((d :: e :: dirs) ++ [name])) with (d ++ L "/" ++ join_path ((e :: dirs) ++ [name])).
  rewrite IH by done. change (join_path (d :: e :: dirs)) with (d ++ L "/" ++ join_path (e :: dirs)).
  by rewrite <- !app_assoc.
Qed.

(** ** Properties *)

(** C40. A normalized path has no empty and no [.] segment; its [..] segments are
    all at its start, and an absolute one has none; it is absolute exactly when
    the path is; and normalizing it again changes nothing. *)
Theorem normalizePath_canonical (p : str) :
  let q := normalizePath p in
  is_absolute q = is_absolute (c_str p) /\
  (exists n names, segments_of q = replicate n (L "..") ++ names /\ ((L "..") ∉ names) /\
     (is_absolute q = true -> n = O)) /\
  q = match segments_of q with
      | [] => if is_absolute q then L "/" else L "."
      | l => (if is_absolute q then L "/" else []) ++ join_path l
      end /\
  normalizePath q = q.
Proof.
  intros q. unfold q.
  destruct (normalizePath_spec p) as (s & Hc & Hn & E & _).
  rewrite E. rewrite render_absolute, render_segments by done.
  split; [done|]. split; [|split; [|by apply render_again]].
  - destruct Hc as (names & n & -> & Hnames & Hg).
    exists n, (rev names). rewrite rev_app_distr, replicate_rev. split; [done|].
    split; [|done]. apply names_no_dotdot. by apply Forall_rev.
  - rewrite render_text by done. destruct s as [|x l]; [done|].
    destruct (rev (x :: l)) eqn:Er; [|done].
    apply (f_equal length) in Er. rewrite length_rev in Er. done.
Qed.

(** C13. A join that is not rejected is inside its base directory, for a base that
    does not itself lead upwards and, when the base is the working directory, a
    path that is relative or forced to be: the result has the segments of the
    base, then segments without [..].  A rejection is always a
    [std::runtime_error]. *)
Theorem noescape_contained (base path : str) (force : bool)
    (Hbase : (L "..") ∉ segments_of (normalizePath base))
    (Hcwd : normalizePath base = L "." ->
      force = true \/ is_absolute (normalizePath path) = false) :
  match joinPathSegmentsNoEscape base path force with
  | Ok p => inside (normalizePath base) p
  | Throw e => e = RuntimeError
  end.
Proof.
  unfold joinPathSegmentsNoEscape.
  destruct (joinPathSegments base (normalizePath path) force) as [r|e] eqn:Ej;
    cbn [res_bind]; [|by eapply joinPathSegments_throws].
  destruct (escapes_total (normalizePath base) r (normalizePath path)) as [b Eb].
  rewrite Eb. cbn [res_bind]. destruct b; [done|]. by eapply inside_join.
Qed.

Lemma noescape_contained_witness :
  joinPathSegmentsNoEscape (L "/a/./b/") (L "../b/c") false = Ok (L "/a/b/c") /\
  inside (L "/a/b") (L "/a/b/c").
Proof.
  assert (joinPathSegmentsNoEscape (L "/a/./b/") (L "../b/c") false = Ok (L "/a/b/c")) as E
    by (vm_compute; reflexivity).
  split; [exact E|].
  pose proof (noescape_contained (L "/a/./b/") (L "../b/c") false) as H.
  rewrite E in H. apply H.
  - apply (bool_decide_eq_true_1 _). vm_compute. reflexivity.
  - intros Hd. exfalso. vm_compute in Hd. discriminate Hd.
Defined.

(** The two kinds of base left out above do escape: from a base that leads
    upwards one can climb further, and an absolute path is accepted from the
    working directory. *)
Theorem noescape_gaps :
  joinPathSegmentsNoEscape (L "..") (L "..") false = Ok (L "../..") /\
  ~ inside (normalizePath (L "..")) (L "../..") /\
  joinPathSegmentsNoEscape (L ".") (L "/etc") false = Ok (L "/etc") /\
  ~ inside (normalizePath (L ".")) (L "/etc").
Proof.
  split; [vm_compute; reflexivity|]. split; [|split; [vm_compute; reflexivity|]].
  - intros [_ (rest & E & Hr)]. change (normalizePath (L "..")) with (L "..") in E.
    vm_compute in E. injection E as <-. apply Hr. left.
  - intros [E _]. vm_compute in E. discriminate E.
Qed.

(** [makePathAbsolute] gives an absolute path for every absolute working
    directory, throws for any other, and keeps a trailing slash. *)
Theorem makePathAbsolute_absolute (path cwd : str) :
  match makePathAbsolute path cwd with
  | Ok p =>
      is_absolute cwd = true /\ is_absolute p = true /\
      (is_slash (back path) = true -> is_slash (back p) = true)
  | Throw e => is_absolute cwd = false /\ e = RuntimeError
  end.
Proof.
  unfold makePathAbsolute. destruct (bool_decide (cwd = [])) eqn:Ee; b2p; cbn [orb].
  { by subst cwd. }
  fold (is_absolute cwd). destruct (is_absolute cwd) eqn:Ea; cbn [negb]; [|done].
  set (full := if negb (is_slash (front path)) then cwd ++ L "/" ++ path else path).
  assert (is_absolute (c_str full) = true) as Hf.
  { assert (is_slash (front full) = true) as Hs.
    { unfold full. destruct (is_slash (front path)) eqn:Ep; cbn [negb]; [done|].
      by destruct cwd. }
    destruct full as [|c full]; [done|]. unfold is_absolute. cbn in *.
    unfold is_slash in Hs. b2p. subst c. done. }
  assert (is_absolute (normalizePath full) = true) as Hn.
  { destruct (normalizePath_spec full) as (s & Hc & _ & -> & _). by rewrite render_absolute. }
  split; [done|]. destruct (is_slash (back path)); cbn [andb]; [|done].
  destruct (is_slash (back (normalizePath full))) eqn:Eb; cbn [negb]; [done|].
  split; [|intros _; unfold back; change (L "/") with [slash]; by rewrite List.last_last].
  unfold is_absolute in *. by destruct (normalizePath full).
Qed.
