(* ===== verification/StringUtils.v ===== *)
(** * Trimming strings

    [buildboxcommon_stringutils.cpp]: [ltrim], [rtrim] and [trim], over white
    space or over a filter.  The overloads that return a copy and those that
    change their argument are the same functions here. *)

From S2P Require Import Prelude.

(** [std::isspace] in the C locale. *)
Definition isspace (c : ascii) : bool :=
  let n := nat_of_ascii c in (9 <=? n)%nat && (n <=? 13)%nat || (n =? 32)%nat.

Section trim.
Context (filter : ascii -> bool).

(** Erase up to the first character [std::find_if] finds. *)
Fixpoint ltrim_filter (s : str) : str :=
  match s with
  | [] => []
  | ch :: s' => if negb (filter ch) then s else ltrim_filter s'
  end.

(** The same from the back, through reverse iterators. *)
Definition rtrim_filter (s : str) : str := reverse (ltrim_filter (reverse s)).

Definition trim_filter (s : str) : str := rtrim_filter (ltrim_filter s).
End trim.

Definition ltrim : str -> str := ltrim_filter isspace.
Definition rtrim : str -> str := rtrim_filter isspace.
Definition trim : str -> str := trim_filter isspace.

Section trim_lemmas.
Context (filter : ascii -> bool).
Let P (c : ascii) : Prop := filter c = true.

Lemma ltrim_spec s :
  exists a, s = a ++ ltrim_filter filter s /\ Forall P a /\
    forall c, list.head (ltrim_filter filter s) = Some c -> filter c = false.
Proof.
  induction s as [|c s (a & E & Ha & Hh)]; cbn [ltrim_filter].
  - exists []. done.
  - destruct (filter c) eqn:Ec; cbn [negb].
    + exists (c :: a). split; [cbn; by rewrite <- E|]. split; [by constructor|done].
    + exists []. split; [done|]. split; [done|]. intros d [= <-]. done.
Qed.

Lemma rtrim_spec s :
  exists b, s = rtrim_filter filter s ++ b /\ Forall P b /\
    forall c, list.last (rtrim_filter filter s) = Some c -> filter c = false.
Proof.
  unfold rtrim_filter. destruct (ltrim_spec (reverse s)) as (a & E & Ha & Hh).
  exists (reverse a). split; [|split].
  - by rewrite <- reverse_app, <- E, reverse_involutive.
  - by apply Forall_reverse.
  - intros c. rewrite list.last_reverse. apply Hh.
Qed.
End trim_lemmas.

(** [trim] takes off filtered characters at both ends, and all of them: neither
    the first nor the last character left is one; so trimming again changes
    nothing. *)
Theorem trim_spec (filter : ascii -> bool) (s : str) :
  exists a b, s = a ++ trim_filter filter s ++ b /\
    Forall (fun c => filter c = true) (a ++ b) /\
    (forall c, list.head (trim_filter filter s) = Some c -> filter c = false) /\
    (forall c, list.last (trim_filter filter s) = Some c -> filter c = false) /\
    trim_filter filter (trim_filter filter s) = trim_filter filter s.
Proof.
  unfold trim_filter. destruct (ltrim_spec filter s) as (a & Ea & Ha & Hh).
  destruct (rtrim_spec filter (ltrim_filter filter s)) as (b & Eb & Hb & Hl).
  set (t := rtrim_filter filter (ltrim_filter filter s)) in *.
  assert (forall c, list.head t = Some c -> filter c = false) as Ht.
  { intros c Hc. apply Hh. rewrite Eb. destruct t as [|d t']; [done|exact Hc]. }
  assert (ltrim_filter filter t = t) as Et.
  { destruct t as [|d t']; [done|]. cbn [ltrim_filter]. by rewrite (Ht d eq_refl). }
  exists a, b. split; [by rewrite <- Eb|].
  split; [by apply Forall_app|]. split; [exact Ht|]. split; [exact Hl|].
  rewrite Et. unfold rtrim_filter. destruct (reverse t) as [|d r] eqn:Er.
  { apply (f_equal reverse) in Er. rewrite reverse_involutive in Er. by rewrite Er. }
  assert (list.last t = Some d) as Hd.
  { rewrite <- (reverse_involutive t), Er, list.last_reverse. done. }
  cbn [ltrim_filter]. rewrite (Hl d Hd). cbn [negb]. by rewrite <- Er, reverse_involutive.
Qed.
