(* ===== verification/Cstring.v ===== *)
(** * Text of the C and C++ standard libraries

    What the option parsers use of the standard library: searching a string for
    a character ([strchr], [std::string::find]), [std::stoi], [toupper], and
    padding on an output stream. *)

From S2P Require Import Prelude Paths PathsSpec StringUtils.
Open Scope Z_scope.

(** ** Searching *)

(** [s.find(c)]: what precedes the first [c] and what follows it. *)
Fixpoint split_at (c : ascii) (s : str) : option (str * str) :=
  match s with
  | [] => None
  | d :: s =>
      if ascii_dec d c then Some ([], s)
      else
        match split_at c s with
        | Some (before, after) => Some (d :: before, after)
        | None => None
        end
  end.

Lemma split_at_app c a b : c ∉ a -> split_at c (a ++ c :: b) = Some (a, b).
Proof.
  induction a as [|d a IH]; intros Ha; cbn [split_at app].
  - by destruct (ascii_dec c c).
  - apply not_elem_of_cons in Ha as [Hd Ha].
    destruct (ascii_dec d c); [congruence|]. by rewrite IH.
Qed.

Lemma split_at_None c s : split_at c s = None <-> c ∉ s.
Proof.
  induction s as [|d s IH]; cbn [split_at].
  - split; [intros _; apply not_elem_of_nil|done].
  - rewrite not_elem_of_cons. destruct (ascii_dec d c) as [->|Hd].
    + split; [done|]. by intros [? _].
    + destruct (split_at c s) as [[??]|].
      * split; [done|]. intros [_ H]. apply IH in H. done.
      * split; [|done]. intros _. split; [congruence|by apply IH].
Qed.

Lemma split_at_Some c s a b :
  split_at c s = Some (a, b) -> s = a ++ c :: b /\ c ∉ a.
Proof.
  revert a b. induction s as [|d s IH]; intros a b; cbn [split_at]; [done|].
  destruct (ascii_dec d c) as [->|Hd].
  - intros [= <- <-]. split; [done|apply not_elem_of_nil].
  - destruct (split_at c s) as [[a' b']|]; [|done]. intros [= <- <-].
    destruct (IH _ _ eq_refl) as [-> Ha]. split; [done|].
    apply not_elem_of_cons. split; [congruence|done].
Qed.

Lemma starts_with_prefix (p t : str) : starts_with p (p ++ t) = true.
Proof. induction p as [|c p IH]; [done|]. cbn. by rewrite bool_decide_true. Qed.

(** ** [std::stoi] *)

Definition INT_MIN : Z := - 2 ^ 31.
Definition INT_MAX : Z := 2 ^ 31 - 1.

Definition digit_val (c : ascii) : option Z :=
  let n := Z.of_N (byte_val c) in
  if (48 <=? n) && (n <=? 57) then Some (n - 48) else None.

(** The digits at the start of [s]: their value after [acc], and how many. *)
Fixpoint read_digits (acc : Z) (s : str) : Z * nat :=
  match s with
  | [] => (acc, O)
  | c :: s =>
      match digit_val c with
      | None => (acc, O)
      | Some d => let '(v, n) := read_digits (acc * 10 + d) s in (v, S n)
      end
  end.

Definition minus : ascii := "-"%char.
Definition plus : ascii := "+"%char.

(** [strtol] in base 10: the value and the number of characters used, unless
    there are no digits. *)
Definition strtol (s : str) : option (Z * nat) :=
  let digits := ltrim s in
  let skipped := (length s - length digits)%nat in
  let '(sign, signed, digits) :=
    match digits with
    | c :: rest =>
        if ascii_dec c minus then (-1, 1%nat, rest)
        else if ascii_dec c plus then (1, 1%nat, rest)
        else (1, 0%nat, digits)
    | [] => (1, 0%nat, digits)
    end in
  let '(v, n) := read_digits 0 digits in
  match n with
  | O => None
  | _ => Some (sign * v, (skipped + signed + n)%nat)
  end.

(** [std::stoi(s, &pos)] (a [long] has 64 bits: what overflows it is out of the
    range of an [int] as well). *)
Definition stoi (s : str) : res (Z * nat) :=
  match strtol (c_str s) with
  | None => Throw InvalidArgument
  | Some (v, pos) =>
      if (v <? INT_MIN) || (INT_MAX <? v) then Throw OutOfRange else Ok (v, pos)
  end.

Example stoi_samples :
  stoi (L " -42x") = Ok (-42, 4%nat) /\ stoi (L "+7") = Ok (7, 2%nat) /\
  stoi (L "-") = Throw InvalidArgument /\ stoi (L "2147483648") = Throw OutOfRange.
Proof. by vm_compute. Qed.

Lemma stoi_range s v pos : stoi s = Ok (v, pos) -> INT_MIN <= v <= INT_MAX.
Proof.
  unfold stoi. destruct (strtol (c_str s)) as [[v' pos']|]; [|done].
  destruct (_ || _) eqn:E; [done|]. intros [= -> ->]. b2p. lia.
Qed.

(** [stoi] returns or throws one of two exceptions. *)
Lemma stoi_throws s e : stoi s = Throw e -> e = InvalidArgument \/ e = OutOfRange.
Proof.
  unfold stoi. destruct (strtol (c_str s)) as [[v pos]|].
  - destruct (_ || _); intros [= <-]. by right.
  - intros [= <-]. by left.
Qed.

(** ** Characters and streams *)

(** [toupper] in the C locale. *)
Definition toupper (c : ascii) : ascii :=
  let n := nat_of_ascii c in
  if (97 <=? n)%nat && (n <=? 122)%nat then ascii_of_nat (n - 32) else c.

Definition space : ascii := " "%char.
Definition newline : ascii := ascii_of_nat 10.

(** [tolower] in the C locale. *)
Definition tolower (c : ascii) : ascii :=
  let n := nat_of_ascii c in
  if (65 <=? n)%nat && (n <=? 90)%nat then ascii_of_nat (n + 32) else c.

(** [setw(width) << text], to the right or to the left of its field; a width that
    is not larger than the text, or negative, adds nothing. *)
Definition setw_right (width : Z) (text : str) : str :=
  replicate (Z.to_nat width - length text) space ++ text.
Definition setw_left (width : Z) (text : str) : str :=
  text ++ replicate (Z.to_nat width - length text) space.

Lemma setw_right_length width text :
  length (setw_right width text) = Nat.max (Z.to_nat width) (length text).
Proof. unfold setw_right. rewrite length_app, length_replicate. lia. Qed.

(** ** Decimal numerals *)

Definition is_digit (c : ascii) : Prop := digit_val c <> None.

Lemma pretty_N_char_digit d : (d < 10)%N -> digit_val (pretty_N_char d) = Some (Z.of_N d).
Proof.
  intros H. destruct d as [|p]; [done|].
  assert (Z.pos p = 1 \/ Z.pos p = 2 \/ Z.pos p = 3 \/ Z.pos p = 4 \/ Z.pos p = 5
    \/ Z.pos p = 6 \/ Z.pos p = 7 \/ Z.pos p = 8 \/ Z.pos p = 9) as E by lia.
  by repeat destruct E as [E|E]; injection E as ->.
Qed.

(** [pretty] writes digits in front of [s] that read back as the number. *)
Lemma pretty_N_go_digits (n : N) (s : string) :
  exists a, lit (pretty_N_go n s) = a ++ lit s /\ Forall is_digit a /\
    ((0 < n)%N -> a <> []) /\
    forall acc t, read_digits acc (a ++ t)
      = let '(v, m) := read_digits (acc * 10 ^ Z.of_nat (length a) + Z.of_N n) t in
        (v, (length a + m)%nat).
Proof.
  revert s. induction n as [n IH] using (well_founded_ind N.lt_wf_0). intros s.
  destruct (N.eq_dec n 0) as [->|Hn].
  { exists []. split; [done|]. split; [done|]. split; [lia|].
    intros acc t. cbn [app length]. replace (acc * 10 ^ Z.of_nat 0 + Z.of_N 0) with acc by lia.
    by destruct (read_digits acc t). }
  rewrite pretty_N_go_step by lia.
  pose proof (N.div_mod n 10 ltac:(done)) as Hdm. pose proof (N.mod_lt n 10 ltac:(done)) as Hm.
  destruct (IH (n / 10)%N ltac:(apply N.div_lt; lia) (String (pretty_N_char (n mod 10)) s))
    as (a & Ea & Ha & _ & Hr).
  pose proof (pretty_N_char_digit _ Hm) as Hd.
  exists (a ++ [pretty_N_char (n mod 10)]). split; [|split; [|split]].
  - rewrite Ea, <- app_assoc. done.
  - apply Forall_app. split; [done|]. constructor; [|done]. unfold is_digit. by rewrite Hd.
  - by destruct a.
  - intros acc t. rewrite <- app_assoc, Hr. cbn [app read_digits]. rewrite Hd.
    rewrite length_app. cbn [length].
    replace ((acc * 10 ^ Z.of_nat (length a) + Z.of_N (n / 10)) * 10 + Z.of_N (n mod 10))
      with (acc * 10 ^ Z.of_nat (length a + 1) + Z.of_N n).
    + destruct (read_digits _ t) as [v m]. f_equal. lia.
    + rewrite Nat2Z.inj_add, Z.pow_add_r by lia. lia.
Qed.

(** Digits followed by something else, as far as [stoi] reads. *)
Lemma to_string_digits (n : Z) :
  0 <= n ->
  Forall is_digit (to_string n) /\ to_string n <> [] /\
  forall t, (forall c, list.head t = Some c -> ~ is_digit c) ->
    read_digits 0 (to_string n ++ t) = (n, length (to_string n)).
Proof.
  intros Hn. unfold to_string. destruct n as [|p|p]; [|change (pretty (Z.pos p)) with (pretty (N.pos p))|lia].
  - split; [|split; [done|]].
    + change (lit (pretty 0)) with [ascii_of_nat 48]. by constructor.
    + intros [|c t] Ht; [done|]. change (lit (pretty 0)) with [ascii_of_nat 48].
      cbn [app read_digits]. change (digit_val (ascii_of_nat 48)) with (Some 0). cbn beta iota.
      destruct (digit_val c) eqn:E; [|done]. exfalso. apply (Ht c eq_refl). unfold is_digit. by rewrite E.
  - change (pretty (N.pos p)) with (pretty_N_go (N.pos p) "").
    destruct (pretty_N_go_digits (N.pos p) "") as (a & -> & Ha & Hne & Hr).
    rewrite app_nil_r. split; [done|]. split; [by apply Hne|]. intros t Ht. rewrite Hr.
    replace (0 * 10 ^ Z.of_nat (length a) + Z.of_N (N.pos p)) with (Z.pos p) by lia.
    destruct t as [|c t]; [cbn; f_equal; lia|]. cbn [read_digits].
    destruct (digit_val c) eqn:E; [|f_equal; lia].
    exfalso. apply (Ht c eq_refl). unfold is_digit. by rewrite E.
Qed.

(** A digit is neither white space, nor a sign, nor NUL. *)
Lemma digit_facts c :
  is_digit c -> isspace c = false /\ c <> minus /\ c <> plus /\ c <> zero.
Proof.
  unfold is_digit, digit_val, isspace, byte_val. intros H.
  destruct (_ && _) eqn:E; [|done]. b2p.
  repeat split; try (intros ->; cbn in *; lia).
  unfold nat_of_ascii.
  destruct (9 <=? N.to_nat (N_of_ascii c))%nat eqn:E1, (N.to_nat (N_of_ascii c) <=? 13)%nat eqn:E2,
    (N.to_nat (N_of_ascii c) =? 32)%nat eqn:E3; b2p; try done; lia.
Qed.

(** [strtol] and [stoi] read back what [to_string] wrote, and stop at what is not a
    digit. *)
Lemma strtol_to_string n t :
  0 <= n -> no_nul t -> (forall c, list.head t = Some c -> ~ is_digit c) ->
  strtol (c_str (to_string n ++ t)) = Some (n, length (to_string n)).
Proof.
  intros Hn Ht Hh. destruct (to_string_digits n Hn) as (Hd & Hne & Hr).
  rewrite c_str_id.
  2: { unfold no_nul in *. rewrite elem_of_app. intros [H|H]; [|done].
       apply list_elem_of_In in H. apply (proj1 (List.Forall_forall _ _) Hd) in H. by apply digit_facts in H as (_ & _ & _ & ?). }
  specialize (Hr t Hh). unfold strtol, ltrim. cbv zeta.
  destruct (to_string n) as [|c a] eqn:Ea; [done|]. apply Forall_cons_1 in Hd as [Hc _].
  destruct (digit_facts c Hc) as (Hs & Hm & Hp & _). cbn [app ltrim_filter].
  rewrite Hs. cbn [negb]. rewrite Nat.sub_diag.
  destruct (ascii_dec c minus); [done|]. destruct (ascii_dec c plus); [done|].
  cbn [app] in Hr. rewrite Hr. cbn [length]. cbn beta iota.
  by replace (1 * n) with n by lia.
Qed.

Lemma stoi_to_string n t :
  0 <= n <= INT_MAX -> no_nul t -> (forall c, list.head t = Some c -> ~ is_digit c) ->
  stoi (to_string n ++ t) = Ok (n, length (to_string n)).
Proof.
  intros [Hn Hmax] Ht Hh. unfold stoi. rewrite strtol_to_string by done.
  destruct (_ || _) eqn:E; [|done]. exfalso. unfold INT_MIN in E.
  apply orb_true_iff in E as [E|E]; b2p; lia.
Qed.
