(* ===== verification/Undefined.v ===== *)
(** * Code that may have undefined behaviour

    The monad of stateful code that throws ([Grpc.M]), with one more outcome:
    [None], an execution to which the C++ standard gives no meaning (a null
    pointer dereferenced, a read past the end of a string, a signed overflow). *)

From S2P Require Import Prelude Grpc.

Definition UM (S A : Type) : Type := S -> option (res A * S).

Definition uret {S A} (a : A) : UM S A := fun s => Some (Ok a, s).
Definition uthrow {S A} (e : exn) : UM S A := fun s => Some (Throw e, s).
Definition undefined {S A} : UM S A := fun _ => None.
Definition ulift {S A} (m : M S A) : UM S A := fun s => Some (m s).

Definition ubind {S A B} (m : UM S A) (k : A -> UM S B) : UM S B :=
  fun s => match m s with
           | None => None
           | Some (Ok a, s) => k a s
           | Some (Throw e, s) => Some (Throw e, s)
           end.

Notation "'let+' x ':=' m 'in' k" := (ubind m (fun x => k))
  (at level 10, x pattern, m at level 100, k at level 200) : buildbox_scope.

Definition ufield {S A} (f : S -> A) : UM S A := fun s => Some (Ok (f s), s).
Definition uupdate {S} (f : S -> S) : UM S unit := fun s => Some (Ok tt, f s).

(** A value that may be undefined. *)
Definition uvalue {S A} (a : option A) : UM S A :=
  fun s => match a with Some a => Some (Ok a, s) | None => None end.

(** [try { m } catch (const E &) { h }] for the exceptions that [p] accepts. *)
Definition ucatch {S A} (p : exn -> bool) (m : UM S A) (h : UM S A) : UM S A :=
  fun s => match m s with
           | Some (Throw e, s) => if p e then h s else Some (Throw e, s)
           | r => r
           end.

(** ** Reasoning *)

(** [m] is defined from [s] and its result and final state satisfy [Q]. *)
Definition runs {S A} (m : UM S A) (s : S) (Q : res A -> S -> Prop) : Prop :=
  match m s with Some (r, s) => Q r s | None => False end.

Section reasoning.
Context {S A B : Type}.
Implicit Types (s : S) (Q : res B -> S -> Prop).

Lemma runs_ret (a : A) s (Q : res A -> S -> Prop) : Q (Ok a) s -> runs (uret a) s Q.
Proof. done. Qed.

Lemma runs_bind (m : UM S A) (k : A -> UM S B) s (R : res A -> S -> Prop) Q :
  runs m s R ->
  (forall a s, R (Ok a) s -> runs (k a) s Q) ->
  (forall e s, R (Throw e) s -> Q (Throw e) s) ->
  runs (let+ a := m in k a) s Q.
Proof.
  unfold runs, ubind. intros Hm Hk He. destruct (m s) as [[[a|e] s']|]; [|by apply He|done].
  by apply Hk.
Qed.

Lemma runs_value (m : UM S A) (k : A -> UM S B) s a Q :
  m s = Some (Ok a, s) -> runs (k a) s Q -> runs (let+ a := m in k a) s Q.
Proof. unfold runs, ubind. by intros ->. Qed.

Lemma runs_field (f : S -> A) (k : A -> UM S B) s Q :
  runs (k (f s)) s Q -> runs (let+ a := ufield f in k a) s Q.
Proof. done. Qed.

Lemma runs_update (f : S -> S) (k : unit -> UM S B) s Q :
  runs (k tt) (f s) Q -> runs (let+ a := uupdate f in k a) s Q.
Proof. done. Qed.

Lemma runs_catch (p : exn -> bool) (m h : UM S B) s Q :
  runs m s (fun r s' =>
    match r with
    | Throw e => if p e then runs h s' Q else Q (Throw e) s'
    | Ok b => Q (Ok b) s'
    end) ->
  runs (ucatch p m h) s Q.
Proof.
  unfold runs, ucatch. destruct (m s) as [[[b|e] s']|]; [done| |done].
  by destruct (p e).
Qed.

Lemma runs_mono (m : UM S A) s (P Q : res A -> S -> Prop) :
  runs m s P -> (forall r s, P r s -> Q r s) -> runs m s Q.
Proof. unfold runs. destruct (m s) as [[r s']|]; [|done]. auto. Qed.
End reasoning.
