(* ===== verification/Posix.v ===== *)
(** * System calls

    The kernel is not the repository's.  Each component takes the calls it makes
    as functions over a world of any type; here are the types and constants of
    the system headers (the values of Linux) and the laws of descriptors that
    theorems rely on. *)

From S2P Require Import Prelude StdMap Arrays Digest TimeUtils Grpc Undefined.
Open Scope Z_scope.

(** ** Errors *)

Definition EPERM : Z := 1.
Definition ENOENT : Z := 2.
Definition EINTR : Z := 4.
Definition EIO : Z := 5.
Definition EBADF : Z := 9.
Definition EEXIST : Z := 17.
Definition ENOTDIR : Z := 20.
Definition ERANGE : Z := 34.
Definition ELOOP : Z := 40.

(** A call gives an [errno] or a value. *)
Definition outcome_of (A : Type) : Type := Z + A.

Definition is_system_error (e : exn) : bool :=
  match e with SystemError _ => true | _ => false end.

(** ** Files *)

(** [struct stat]. *)
Record Stat := MkStat {
  st_mode : Z;
  st_size : Z;
  st_atim : timespec;
  st_mtim : timespec;
}.

Definition S_IFMT : Z := 61440.
Definition S_IFDIR : Z := 16384.
Definition S_IFREG : Z := 32768.
Definition S_IFLNK : Z := 40960.
Definition S_ISDIR (mode : Z) : bool := Z.land mode S_IFMT =? S_IFDIR.
Definition S_ISREG (mode : Z) : bool := Z.land mode S_IFMT =? S_IFREG.
Definition S_ISLNK (mode : Z) : bool := Z.land mode S_IFMT =? S_IFLNK.
Definition S_IXUSR : Z := 64.
Definition S_IXGRP : Z := 8.
Definition S_IXOTH : Z := 1.

(** The flags of [open] that the code combines. *)
Record OpenFlags := MkOpenFlags {
  O_WRONLY : bool;
  O_CREAT : bool;
  O_TRUNC : bool;
  O_APPEND : bool;
  O_DIRECTORY : bool;
  O_NOFOLLOW : bool;
}.

Definition O_RDONLY : OpenFlags := MkOpenFlags false false false false false false.

(** The descriptor that stands for the working directory. *)
Definition AT_FDCWD : Z := -100.
Definition STDOUT_FILENO : Z := 1.
Definition STDERR_FILENO : Z := 2.

(** ** Calls in the monads *)

Definition call {W A} (f : W -> A * W) : M W A :=
  fun w => let '(a, w) := f w in (Ok a, w).
Definition query {W A} (f : W -> A) : M W A := fun w => (Ok (f w), w).
Definition ucall {W A} (f : W -> A * W) : UM W A := ulift (call f).

(** [throw std::system_error(errno, ...)] when the call failed. *)
Definition or_throw {W A} (r : outcome_of A) : M W A :=
  match r with inl errno => mthrow (SystemError errno) | inr a => mret a end.

(** ** Descriptors

    The calls on descriptors, and what POSIX says of them: a new descriptor is
    not one that is open, closing releases one, and each refers to a node of
    the file system. *)

Record Descriptors (W : Type) := MkDescriptors {
  sys_openat : Z -> str -> OpenFlags -> W -> outcome_of Z * W;
  sys_close : Z -> W -> option Z * W;
}.
Arguments sys_openat {W} _.
Arguments sys_close {W} _.

(** A file system at rest: its nodes, the entries of a directory, and what the
    nodes are. *)
Record FileTree := MkFileTree {
  node : Type;
  entry : node -> str -> option node;
  is_dir : node -> bool;
  is_symlink : node -> bool;
}.

(** The name of an entry: one component, and not [.] or [..]. *)
Definition entry_name (name : str) : Prop :=
  name <> [] /\ ("/"%char ∉ name) /\ (zero ∉ name) /\ name <> L "." /\ name <> L "..".

Class DescriptorLaws {W : Type} (sys : Descriptors W) (tree : FileTree) := {
  (** The open descriptors, and the node each refers to. *)
  fds : W -> gset Z;
  refers : W -> Z -> option (node tree);
  (** Opening an entry without following symbolic links. *)
  openat_entry : forall d name flags w i r w',
    entry_name name -> O_NOFOLLOW flags = true -> O_CREAT flags = false ->
    d ∈ fds w -> refers w d = Some i ->
    sys_openat sys d name flags w = (r, w') ->
    match r with
    | inl errno => fds w' = fds w /\ (forall x, x ∈ fds w -> refers w' x = refers w x)
    | inr fd =>
        exists j, entry tree i name = Some j /\ is_symlink tree j = false /\
          (O_DIRECTORY flags = true -> is_dir tree j = true) /\
          (fd ∉ fds w) /\ fds w' = {[fd]} ∪ fds w /\ refers w' fd = Some j /\
          (forall x, x ∈ fds w -> refers w' x = refers w x)
    end;
  (** Closing releases the descriptor, whatever it reports. *)
  close_releases : forall d w r w',
    d ∈ fds w -> sys_close sys d w = (r, w') ->
    fds w' = fds w ∖ {[d]} /\ (forall x, x ∈ fds w -> x <> d -> refers w' x = refers w x);
}.
