(* ===== verification/FileUtils.v ===== *)
(** * Files and directories

    [buildboxcommon_fileutils.cpp]: the functions on the file system.  Queries of
    metadata, the creation of directories, copies and the writing of a whole file
    at once.  (Those on path names are in [Paths].)  The system calls act on a
    world of any type. *)

From S2P Require Import Prelude StdMap Arrays Digest TimeUtils Grpc Merklize Paths Undefined Posix.
Open Scope Z_scope.

(** ** Metadata *)

Section metadata.
Context {W : Type}.
Context (sys_stat sys_lstat : str -> W -> outcome_of Stat).
Context (sys_fstat : Z -> W -> outcome_of Stat).

(** The test of a mode; a path that leads nowhere fails it. *)
Definition mode_test (test : Z -> bool) (status : outcome_of Stat) : M W bool :=
  match status with
  | inr statResult => mret (test (st_mode statResult))
  | inl errno =>
      if (errno =? ENOENT) || (errno =? ENOTDIR) then mret false
      else mthrow (SystemError errno)
  end.

Definition isRegularFileNoFollow (path : str) : M W bool :=
  let* status := query (sys_lstat (c_str path)) in mode_test S_ISREG status.
Definition isRegularFile (path : str) : M W bool :=
  let* status := query (sys_stat (c_str path)) in mode_test S_ISREG status.
Definition isDirectoryNoFollow (path : str) : M W bool :=
  let* status := query (sys_lstat (c_str path)) in mode_test S_ISDIR status.
Definition isDirectory (path : str) : M W bool :=
  let* status := query (sys_stat (c_str path)) in mode_test S_ISDIR status.
Definition isSymlink (path : str) : M W bool :=
  let* status := query (sys_lstat (c_str path)) in mode_test S_ISLNK status.

Definition isDirectory_fd (fd : Z) : M W bool :=
  let* status := query (sys_fstat fd) in
  match status with
  | inr statResult => mret (S_ISDIR (st_mode statResult))
  | inl errno => mthrow (SystemError errno)
  end.

Definition executable (status : outcome_of Stat) : bool :=
  match status with
  | inr statResult => negb (Z.land (st_mode statResult) S_IXUSR =? 0)
  | inl _ => false
  end.

Definition isExecutable (path : str) : M W bool :=
  let* status := query (sys_stat (c_str path)) in mret (executable status).
Definition isExecutable_fd (fd : Z) : M W bool :=
  let* status := query (sys_fstat fd) in mret (executable status).

Definition getFileStat (path : str) : M W Stat :=
  let* status := query (sys_stat (c_str path)) in or_throw status.
Definition getFileStat_fd (fd : Z) : M W Stat :=
  let* status := query (sys_fstat fd) in or_throw status.

Definition getFileSize (path : str) : M W Z :=
  let* statResult := getFileStat path in mret (st_size statResult).
Definition getFileSize_fd (fd : Z) : M W Z :=
  let* statResult := getFileStat_fd fd in mret (st_size statResult).

(** A time point in nanoseconds, of microseconds that are whole. *)
Definition getMtimeTimepoint (result : Stat) : Z :=
  tv_sec (st_mtim result) * 1000000000 + Z.quot (tv_nsec (st_mtim result)) 1000 * 1000.

Definition getFileMtime (path : str) : M W Z :=
  let* statResult := getFileStat path in mret (getMtimeTimepoint statResult).
Definition getFileMtime_fd (fd : Z) : M W Z :=
  let* statResult := getFileStat_fd fd in mret (getMtimeTimepoint statResult).

(** Setting the times of a file (access, modification), and its mode. *)
Context (sys_futimens : Z -> timespec -> timespec -> W -> option Z * W).
Context (sys_utimensat : Z -> str -> timespec -> timespec -> W -> option Z * W).
Context (sys_chmod : str -> Z -> W -> option Z * W).

Definition setFileMtime_fd (fd : Z) (timepoint : Z) : M W unit :=
  let new_mtime := make_timespec timepoint in
  let* stat_result := getFileStat_fd fd in
  let* failed := call (sys_futimens fd (st_atim stat_result) new_mtime) in
  match failed with
  | None => mret tt
  | Some errno => mthrow (SystemError errno)
  end.

Definition setFileMtime (path : str) (timepoint : Z) : M W unit :=
  let new_mtime := make_timespec timepoint in
  let* stat_result := getFileStat path in
  let* failed := call (sys_utimensat AT_FDCWD (c_str path) (st_atim stat_result) new_mtime) in
  match failed with
  | None => mret tt
  | Some errno => mthrow (SystemError errno)
  end.

Definition makeExecutable (path : str) : M W unit :=
  let* status := query (sys_stat (c_str path)) in
  match status with
  | inl errno => mthrow (SystemError errno)
  | inr statResult =>
      let mode := Z.lor (Z.lor (Z.lor (st_mode statResult) S_IXUSR) S_IXGRP) S_IXOTH in
      let* failed := call (sys_chmod (c_str path) mode) in
      match failed with
      | None => mret tt
      | Some errno => mthrow (SystemError errno)
      end
  end.
End metadata.

(** ** Creating directories *)

Section directories.
Context {W : Type} (sys_mkdir : str -> Z -> W -> option Z * W).

(** [path.substr(0, path.rfind('/'))]: all of it when there is no slash. *)
Definition parent_path (path : str) : str :=
  match rsplit_slash path with Some (parent, _) => parent | None => path end.

(** The recursion has no bound of its own; [None] is running out of fuel. *)
Fixpoint createDirectoriesInPath (fuel : nat) (path : str) (mode : Z) : UM W unit :=
  let+ mkdir_error := ucall (sys_mkdir (c_str path) mode) in
  match mkdir_error with
  | None => uret tt
  | Some mkdir_error =>
      if mkdir_error =? EEXIST then uret tt
      else if negb (mkdir_error =? ENOENT) then uthrow (SystemError mkdir_error)
      else
        match fuel with
        | O => undefined
        | S fuel =>
            (* the parent is passed as a C string *)
            let+ _ := createDirectoriesInPath fuel (c_str (parent_path path)) mode in
            let+ again := ucall (sys_mkdir (c_str path) mode) in
            match again with
            | None => uret tt
            | Some errno => uthrow (SystemError errno)
            end
        end
  end.

Definition createDirectory (fuel : nat) (path : str) (mode : Z) : UM W unit :=
  createDirectoriesInPath fuel (normalizePath path) mode.
End directories.

(** ** Copying *)

Section copying.
Context {W : Type}.

(** What [copyFile] asks of the kernel. *)
Record CopyCalls := MkCopyCalls {
  copy_stat : str -> W -> outcome_of Stat;
  copy_open : str -> OpenFlags -> Z -> W -> outcome_of Z * W;
  copy_read : Z -> Z -> W -> outcome_of (list Z) * W;
  copy_write : Z -> list Z -> W -> outcome_of Z * W;
  copy_fchmod : Z -> Z -> W -> option Z * W;
  copy_close : Z -> W -> option Z * W;
  copy_unlink : str -> W -> option Z * W;
}.
Context (sys : CopyCalls).

Definition BUFSIZE : Z := 65536.
Definition write_flags : OpenFlags := MkOpenFlags true true true false false false.

(** The loop: the error so far; [None] is running out of fuel. *)
Fixpoint copy_loop (fuel : nat) (src dest : Z) : UM W (option Z) :=
  let+ rd := ucall (copy_read sys src BUFSIZE) in
  match rd with
  | inl errno => uret (Some errno)
  | inr data =>
      if 0 <? zlen data then
        let+ wr := ucall (copy_write sys dest data) in
        match wr with
        | inr wrsize =>
            if wrsize =? zlen data then
              match fuel with O => undefined | S fuel => copy_loop fuel src dest end
            else uret (Some EIO)
        | inl _ => uret (Some EIO)
        end
      else uret None
  end.

(** [if (call != 0) err = errno]. *)
Definition keep_error (err : option Z) (f : W -> option Z * W) : UM W (option Z) :=
  let+ failed := ucall f in
  uret (match failed with Some errno => Some errno | None => err end).

(** A descriptor or -1, and the [errno]. *)
Definition open_or (r : outcome_of Z) (err : option Z) : Z * option Z :=
  match r with inl errno => (-1, Some errno) | inr fd => (fd, err) end.

Definition copyFile (fuel : nat) (src_path dest_path : str) : UM W unit :=
  let+ status := ulift (query (copy_stat sys (c_str src_path))) in
  match status with
  | inl errno => uthrow (SystemError errno)
  | inr statResult =>
      let mode := st_mode statResult in
      let+ r := ucall (copy_open sys (c_str src_path) O_RDONLY mode) in
      let (src, err) := open_or r None in
      let+ r := ucall (copy_open sys (c_str dest_path) write_flags 420) in
      let (dest, err) := open_or r err in
      let+ err :=
        match err with
        | Some _ => uret err
        | None =>
            let+ err := copy_loop fuel src dest in
            keep_error err (copy_fchmod sys dest mode)
        end in
      let+ err := keep_error err (copy_close sys src) in
      let+ err := keep_error err (copy_close sys dest) in
      match err with
      | None => uret tt
      | Some errno =>
          let+ err := keep_error (Some errno) (copy_unlink sys (c_str dest_path)) in
          uthrow (SystemError (match err with Some errno => errno | None => 0 end))
      end
  end.
End copying.
Arguments CopyCalls : clear implicits.
