(* ===== verification/FileUtilsSpec.v ===== *)
(** * What the functions on the file system promise

    Directories are created with all their parents, and the recursion ends; a
    copy that returns has the contents and the mode of its source; what happens
    to the destination when a copy fails. *)

From S2P Require Import Prelude StdMap Arrays Digest TimeUtils Grpc Merklize MerklizeSpec Merge MergeSpec Paths PathsSpec Undefined Posix FileUtils.
Open Scope Z_scope.

(** ** Absolute paths as lists of names *)

Definition absolute_path (names : list str) : str := L "/" ++ join_path names.

Lemma slash_splits s : "/"%char ∈ s -> split_path s <> [s].
Proof.
  intros Hs. apply list_elem_of_split in Hs as (a & b & ->).
  change (a ++ "/"%char :: b) with (a ++ L "/" ++ b). rewrite split_path_app.
  pose proof (split_path_nonempty a). pose proof (split_path_nonempty b).
  intros E. apply (f_equal length) in E. rewrite length_app in E.
  destruct (split_path a), (split_path b); cbn in E; done || lia.
Qed.

Lemma segment_entry_name s :
  segment_ok s -> s <> dotdot -> no_nul s -> entry_name s.
Proof.
  intros [[Hne Hs] Hd] Hdd Hn. split; [done|]. split; [|done].
  intros Hin. by apply (slash_splits s).
Qed.

(** A normalized absolute path is given by the names of its entries. *)
Lemma normalizePath_absolute p :
  is_absolute p = true ->
  exists names, Forall entry_name names /\ normalizePath p = absolute_path names /\
    names = segments_of (normalizePath p).
Proof.
  intros Hp. destruct (normalizePath_spec p) as (s & Hc & Hn & E & _).
  assert (is_absolute (c_str p) = true) as Ha.
  { destruct p as [|c p]; [done|]. unfold is_absolute, is_slash in *. cbn in *. b2p. subst c. done. }
  rewrite Ha in *. exists (rev s). rewrite E, render_segments by done. split; [|split; [|done]].
  - apply Forall_rev. apply canonical_absolute in Hc. clear E.
    induction Hc as [|x l [H1 H2] Hl IH]; [constructor|]. apply Forall_cons_1 in Hn as [Hx Hn].
    constructor; [by apply segment_entry_name|by apply IH].
  - rewrite render_text by done. by destruct s.
Qed.

Lemma parent_absolute names n :
  names <> [] -> ("/"%char ∉ n) ->
  parent_path (absolute_path (names ++ [n])) = absolute_path names.
Proof.
  intros Hne Hn. unfold parent_path, absolute_path.
  rewrite join_path_snoc, app_assoc, rsplit_slash_cut by done. done.
Qed.

(** ** Creating directories *)

(** POSIX on [mkdir]: the paths that are present, an error for one that is, and
    ENOENT for one whose parent is not. *)
Class MkdirLaws {W : Type} (sys_mkdir : str -> Z -> W -> option Z * W) := {
  present : W -> gset (list str);
  root_present : forall w, [] ∈ present w;
  mkdir_law : forall names mode w r w',
    Forall entry_name names -> sys_mkdir (absolute_path names) mode w = (r, w') ->
    match r with
    | None => removelast names ∈ present w /\ present w' = {[names]} ∪ present w
    | Some errno => present w' = present w /\
        (errno = EEXIST -> names ∈ present w) /\
        (errno = ENOENT -> removelast names ∉ present w)
    end;
}.

Section directories.
Context {W : Type} (sys_mkdir : str -> Z -> W -> option Z * W) {laws : MkdirLaws sys_mkdir}.

(** Only this path and its parents may have been added. *)
Definition created (names : list str) (w w' : W) : Prop :=
  present w ⊆ present w' /\
  forall l, l ∈ present w' -> l ∈ present w \/ l `prefix_of` names.

Definition creation_result (names : list str) (w : W) (r : res unit) (w' : W) : Prop :=
  created names w w' /\
  match r with
  | Ok _ => names ∈ present w'
  | Throw e => exists errno, e = SystemError errno
  end.

Lemma absolute_c_str names : Forall entry_name names -> c_str (absolute_path names) = absolute_path names.
Proof.
  intros Hn. apply c_str_id. unfold absolute_path, no_nul.
  apply not_elem_of_cons. split; [discriminate|].
  induction Hn as [|x l (_ & _ & Hx & _) Hl IH]; [apply not_elem_of_nil|].
  destruct l as [|y l]; [done|].
  change (join_path (x :: y :: l)) with (x ++ L "/" ++ join_path (y :: l)).
  intros Hin. apply elem_of_app in Hin as [?|Hin]; [done|].
  apply elem_of_cons in Hin as [?|?]; done.
Qed.

(** One call to [mkdir]. *)
Lemma runs_mkdir {A} names mode (k : option Z -> UM W A) w Q :
  Forall entry_name names ->
  (forall w', removelast names ∈ present w -> present w' = {[names]} ∪ present w ->
     runs (k None) w' Q) ->
  (forall errno w', present w' = present w -> (errno = EEXIST -> names ∈ present w) ->
     (errno = ENOENT -> removelast names ∉ present w) -> runs (k (Some errno)) w' Q) ->
  runs (let+ r := ucall (sys_mkdir (c_str (absolute_path names)) mode) in k r) w Q.
Proof.
  intros Hn H1 H2. rewrite absolute_c_str by done.
  unfold runs, ubind, ucall, ulift, call.
  destruct (sys_mkdir (absolute_path names) mode w) as [r w'] eqn:E.
  pose proof (mkdir_law names mode w r w' Hn E) as HL. destruct r as [errno|].
  - destruct HL as (? & ? & ?). by apply H2.
  - destruct HL as (? & ?). by apply H1.
Qed.

Lemma created_add names w w' :
  present w' = {[names]} ∪ present w -> created names w w' /\ names ∈ present w'.
Proof.
  intros E. rewrite E. split; [|set_solver]. split; [rewrite E; set_solver|].
  intros l. rewrite E, elem_of_union, elem_of_singleton. intros [->|?]; [by right|by left].
Qed.

Lemma created_same names w w' : present w' = present w -> created names w w'.
Proof. intros E. split; rewrite E; [done|]. by left. Qed.

(** The second attempt, after the parents were created. *)
Lemma created_again names l w w1 w' :
  l `prefix_of` names -> created l w w1 ->
  (present w' = {[names]} ∪ present w1 \/ present w' = present w1) -> created names w w'.
Proof.
  intros Hl [Hsub Hnew] Hw'. split; [destruct Hw' as [->| ->]; set_solver|].
  intros x Hx. assert (x ∈ present w1 \/ x = names) as [Hx1| ->].
  { destruct Hw' as [E|E]; rewrite E in Hx; set_solver. }
  - destruct (Hnew x Hx1) as [?|Hp]; [by left|]. right. by etrans.
  - by right.
Qed.

Lemma createDirectoriesInPath_spec names fuel mode w :
  Forall entry_name names -> (length names <= fuel)%nat ->
  runs (createDirectoriesInPath sys_mkdir fuel (absolute_path names) mode) w
    (creation_result names w).
Proof.
  revert fuel w. induction names as [|n l IH] using rev_ind; intros fuel w Hn Hfuel.
  all: destruct fuel as [|fuel]; try (rewrite length_app in Hfuel; cbn in Hfuel; lia).
  all: cbn [createDirectoriesInPath]; apply runs_mkdir; [done| |].
  all: try (intros w' _ E; destruct (created_add _ _ _ E); by apply runs_ret).
  all: intros errno w' E Hex Hno; cbn beta iota;
    destruct (Z.eqb_spec errno EEXIST) as [->|_];
    [apply runs_ret; split; [by apply created_same|rewrite E; auto]|];
    destruct (Z.eqb_spec errno ENOENT) as [->|_]; cbn [negb];
    [|split; [by apply created_same|by eexists]].
  1,2: exfalso; apply Hno; [done|apply root_present].
  specialize (Hno eq_refl). rewrite removelast_last in Hno.
  assert (l <> []) as Hl by (intros ->; apply Hno, root_present).
  apply Forall_app in Hn as [Hnl Hnn]. pose proof (Forall_cons_1 _ _ _ Hnn) as [Hn1 _].
  rewrite parent_absolute, absolute_c_str by (done || apply Hn1).
  rewrite length_app in Hfuel. cbn in Hfuel.
  eapply runs_bind; [apply (IH fuel w'); [done|lia]| |].
  - intros _ w1 [Hc _].
    assert (created l w w1) as Hc1 by (destruct Hc as [H1 H2]; rewrite E in H1; split; [done|];
      intros x Hx; rewrite <- E; auto).
    assert (l `prefix_of` l ++ [n]) as Hpre by (by exists [n]).
    apply runs_mkdir; [by apply Forall_app| |].
    + intros w2 _ E2. apply runs_ret. destruct (created_add _ _ _ E2) as [_ Hin].
      split; [|done]. apply (created_again _ l w w1); auto.
    + intros errno w2 E2 _ _. split; [apply (created_again _ l w w1); auto|by eexists].
  - intros e w1 [Hc He]. split; [|done]. assert (l `prefix_of` l ++ [n]) as Hpre by (by exists [n]).
    apply (created_again _ l w w1); [done| |by right]. destruct Hc as [H1 H2]. rewrite E in H1.
    split; [done|]. intros x Hx. rewrite <- E. auto.
Qed.

(** [createDirectory] of an absolute path: the recursion on parents ends (one
    level per segment of the normalized path is enough fuel), nothing is created
    but the path and its parents, nothing disappears, and the path is there if it
    returns; it throws [std::system_error] only. *)
Theorem createDirectory_creates (fuel : nat) (path : str) (mode : Z) (w : W) :
  is_absolute path = true -> (length (segments_of (normalizePath path)) <= fuel)%nat ->
  runs (createDirectory sys_mkdir fuel path mode) w
    (creation_result (segments_of (normalizePath path)) w).
Proof.
  intros Hp Hfuel. destruct (normalizePath_absolute path Hp) as (names & Hn & E & En).
  unfold createDirectory. rewrite <- En in *. rewrite E. by apply createDirectoriesInPath_spec.
Qed.
End directories.

(** A disk of directories where everything succeeds. *)
Definition toy_mkdir (path : str) (_ : Z) (w : gset (list str)) : option Z * gset (list str) :=
  let names := segments_of path in
  if decide (names ∈ {[ [] ]} ∪ w) then (Some EEXIST, w)
  else if decide (removelast names ∈ {[ [] ]} ∪ w) then (None, {[names]} ∪ w)
  else (Some ENOENT, w).

Lemma segments_absolute names :
  Forall entry_name names -> segments_of (absolute_path names) = names.
Proof.
  intros Hn. unfold absolute_path. change (L "/" ++ join_path names) with ([] ++ L "/" ++ join_path names).
  rewrite segments_of_slash. change (segments_of []) with (@nil str). cbn [app].
  destruct (decide (names = [])) as [->|Hne]; [done|].
  assert (Forall segment_ok names) as Hok.
  { eapply Forall_impl; [|exact Hn]. intros x (Hx & Hs & _ & Hd & _).
    split; [split; [done|by apply split_slash_none, split_slash_name]|done]. }
  unfold segments_of. rewrite split_join; [by apply segments_of_keep|done|].
  eapply Forall_impl; [|exact Hok]. apply segment_ok_piece.
Qed.

#[global] Instance toy_mkdir_laws : MkdirLaws toy_mkdir.
Proof.
  refine (Build_MkdirLaws _ toy_mkdir (fun w => {[ [] ]} ∪ w) _ _); [set_solver|].
  intros names mode w r w' Hn. unfold toy_mkdir. rewrite segments_absolute by done.
  case_decide as H1; [by intros [= <- <-]|]. case_decide as H2; intros [= <- <-].
  - split; [done|]. set_solver.
  - done.
Defined.

Lemma createDirectory_creates_witness :
  runs (createDirectory toy_mkdir 3 (L "/a/./b//c/") 511) ∅
    (creation_result toy_mkdir [L "a"; L "b"; L "c"] ∅).
Proof.
  apply (createDirectory_creates toy_mkdir 3 (L "/a/./b//c/") 511 ∅).
  - reflexivity.
  - vm_compute. lia.
Defined.

(** Calls of [mkdir] that report what a script says. *)
Definition scripted (_ : str) (_ : Z) (w : list (option Z)) : option Z * list (option Z) :=
  (hd None w, tl w).

(** Another process creates the directory between the two attempts: the second
    one reports EEXIST, which is then an error; and a path without a slash whose
    [mkdir] reports ENOENT has itself as a parent. *)
Example creation_race :
  createDirectory scripted 5 (L "/a/b") 511 [Some ENOENT; Some EEXIST; Some EEXIST]
  = Some (Throw (SystemError EEXIST), []) /\
  forall fuel, createDirectory scripted fuel (L "a") 511 (replicate (S fuel) (Some ENOENT)) = None.
Proof.
  split; [vm_compute; reflexivity|]. intros fuel.
  unfold createDirectory. change (normalizePath (L "a")) with (L "a").
  induction fuel as [|fuel IH]; [reflexivity|].
  change (replicate (S (S fuel)) (Some ENOENT)) with (Some ENOENT :: replicate (S fuel) (Some ENOENT)).
  cbn [createDirectoriesInPath]. unfold ubind at 1. unfold ubind at 1.
  change (ucall (scripted (c_str (L "a")) 511) (Some ENOENT :: replicate (S fuel) (Some ENOENT)))
    with (Some (Ok (Some ENOENT), replicate (S fuel) (Some ENOENT))).
  cbn beta iota. change (ENOENT =? EEXIST) with false. change (ENOENT =? ENOENT) with true.
  cbn [negb]. change (c_str (parent_path (L "a"))) with (L "a"). by rewrite IH.
Qed.

(** ** Creating directories while others do *)

(** [mkdir] on a disk that others add to at any time: what is there stays.
    [made] lists the directories that this process has made. *)
Class SharedMkdirLaws {W : Type} (sys_mkdir : str -> Z -> W -> option Z * W) := {
  there : W -> gset (list str);
  made : W -> list (list str);
  root_there : forall w, [] ∈ there w;
  shared_mkdir_law : forall names mode w r w',
    Forall entry_name names -> sys_mkdir (absolute_path names) mode w = (r, w') ->
    there w ⊆ there w' /\
    match r with
    | None => names ∉ there w /\ names ∈ there w' /\ made w' = (made w ++ [names])
    | Some errno =>
        made w' = made w /\
        (errno = EEXIST -> names ∈ there w') /\
        (errno = ENOENT -> removelast names ∉ there w /\ names ∉ there w)
    end;
}.

Section shared.
Context {W : Type} (sys_mkdir : str -> Z -> W -> option Z * W) {laws : SharedMkdirLaws sys_mkdir}.

(** An error that [mkdir] reported for a path. *)
Definition mkdir_reported (names : list str) (errno : Z) : Prop :=
  exists mode w w', sys_mkdir (absolute_path names) mode w = (Some errno, w').

(** [new] is what the call has made: the path and parents of it, none of which
    was there.  When the call returns, the path is there.  When it throws, the
    error is one that [mkdir] reported for the path or for a parent, and not that
    a parent is missing; and when it is EEXIST, that path is there, was not when
    the call began, and the call has not made it: somebody else has, meanwhile. *)
Definition shared_result (names : list str) (w : W) (r : res unit) (w' : W) : Prop :=
  there w ⊆ there w' /\
  exists new, made w' = (made w ++ new) /\
    Forall (fun l => l `prefix_of` names /\ l ∉ there w /\ l ∈ there w') new /\
    match r with
    | Ok _ => names ∈ there w'
    | Throw e => exists errno l, e = SystemError errno /\ errno <> ENOENT /\
        l `prefix_of` names /\ mkdir_reported l errno /\
        (errno = EEXIST -> l ∈ there w' /\ l ∉ there w /\ l ∉ new)
    end.

Lemma runs_shared_mkdir {A} names mode (k : option Z -> UM W A) w Q :
  Forall entry_name names ->
  (forall w', there w ⊆ there w' -> names ∉ there w -> names ∈ there w' ->
     made w' = (made w ++ [names]) -> runs (k None) w' Q) ->
  (forall errno w', there w ⊆ there w' -> made w' = made w -> mkdir_reported names errno ->
     (errno = EEXIST -> names ∈ there w') ->
     (errno = ENOENT -> removelast names ∉ there w /\ names ∉ there w) ->
     runs (k (Some errno)) w' Q) ->
  runs (let+ r := ucall (sys_mkdir (c_str (absolute_path names)) mode) in k r) w Q.
Proof.
  intros Hn H1 H2. rewrite absolute_c_str by done.
  unfold runs, ubind, ucall, ulift, call.
  destruct (sys_mkdir (absolute_path names) mode w) as [r w'] eqn:E.
  pose proof (shared_mkdir_law names mode w r w' Hn E) as [Hs HL]. destruct r as [errno|].
  - destruct HL as (? & ? & ?). apply H2; try done. by exists mode, w, w'.
  - destruct HL as (? & ? & ?). by apply H1.
Qed.

Lemma not_a_prefix (l : list str) n new :
  Forall (fun l' => l' `prefix_of` l) new -> l ++ [n] ∉ new.
Proof.
  intros Hf Hin. pose proof (proj1 (list.Forall_forall _ _) Hf _ Hin) as Hp. apply prefix_length in Hp as Hlen.
  rewrite length_app in Hlen. cbn in Hlen. lia.
Qed.

(** What was made on the way to a parent. *)
Lemma made_by_parent (l names : list str) (w w' w1 : W) new :
  l `prefix_of` names -> there w ⊆ there w' ->
  Forall (fun x => x `prefix_of` l /\ x ∉ there w' /\ x ∈ there w1) new ->
  Forall (fun x => x `prefix_of` names /\ x ∉ there w /\ x ∈ there w1) new.
Proof.
  intros Hp Hs Hnew. eapply Forall_impl; [|exact Hnew]. intros x (Hx & Hnot & Hin).
  split; [by etrans|]. split; [set_solver|done].
Qed.

Lemma createDirectoriesInPath_shared names fuel mode w :
  Forall entry_name names -> (length names <= fuel)%nat ->
  runs (createDirectoriesInPath sys_mkdir fuel (absolute_path names) mode) w
    (shared_result names w).
Proof.
  revert fuel w. induction names as [|n l IH] using rev_ind; intros fuel w Hn Hfuel.
  all: destruct fuel as [|fuel]; try (rewrite length_app in Hfuel; cbn in Hfuel; lia).
  all: cbn [createDirectoriesInPath]; apply runs_shared_mkdir; [done|..];
    [intros w' Hs Hnot Hin Hm; apply runs_ret; split; [done|]; eexists; split; [exact Hm|];
     split; [apply Forall_singleton; auto|done]|].
  all: intros errno w' Hs Hm Hrep Hex Hno; cbn beta iota.
  all: assert (made w' = (made w ++ [])) as Hm0 by (by rewrite app_nil_r).
  all: destruct (Z.eqb_spec errno EEXIST) as [->|Hne];
    [apply runs_ret; split; [done|]; exists []; auto|].
  all: destruct (Z.eqb_spec errno ENOENT) as [->|Hne2]; cbn [negb];
    [|split; [done|]; exists []; split; [done|]; split; [constructor|];
      exists errno; eexists; do 4 (split; [done|]); done].
  1,2: exfalso; apply (proj1 (Hno eq_refl)), root_there.
  destruct (Hno eq_refl) as [Hp Hnm]. rewrite removelast_last in Hp.
  assert (l `prefix_of` l ++ [n]) as Hpre by (by exists [n]).
  apply Forall_app in Hn as [Hnl Hnn]. pose proof (Forall_cons_1 _ _ _ Hnn) as [Hn1 _].
  assert (l <> []) as Hl by (intros ->; apply Hp, root_there).
  rewrite parent_absolute, absolute_c_str by (done || apply Hn1).
  rewrite length_app in Hfuel. cbn in Hfuel.
  eapply runs_bind; [apply (IH fuel w'); [done|lia]| |].
  - intros _ w1 [Hs1 (new & Hm1 & Hnew & Hl1)].
    pose proof (made_by_parent _ _ _ _ _ _ Hpre Hs Hnew) as Hnew1.
    assert (l ++ [n] ∉ new) as Hfresh
      by (apply not_a_prefix; eapply Forall_impl; [|exact Hnew]; by intros x [? _]).
    apply runs_shared_mkdir; [by apply Forall_app|..].
    + intros w2 Hs2 Hnot Hin Hm2. apply runs_ret. split; [set_solver|].
      exists (new ++ [l ++ [n]]). rewrite Hm2, Hm1, Hm, app_assoc. split; [done|].
      split; [|done]. apply Forall_app. split; [|by apply Forall_singleton].
      eapply Forall_impl; [|exact Hnew1]. intros x (? & ? & ?). set_solver.
    + intros errno w2 Hs2 Hm2 Hrep2 Hex2 Hno2. split; [set_solver|]. exists new.
      rewrite Hm2, Hm1, Hm. split; [done|]. split.
      { eapply Forall_impl; [|exact Hnew1]. intros x (? & ? & ?). set_solver. }
      exists errno, (l ++ [n]). split; [done|]. split.
      { intros ->. destruct (Hno2 eq_refl) as [Hno3 _]. by rewrite removelast_last in Hno3. }
      split; [done|]. split; [done|]. intros He. auto.
  - intros e w1 [Hs1 (new & Hm1 & Hnew & errno & l' & -> & He & Hp' & Hrep' & Hex1)].
    split; [set_solver|]. exists new. rewrite Hm1, Hm. split; [done|].
    split; [by apply (made_by_parent l (l ++ [n]) w w')|].
    exists errno, l'. split; [done|]. split; [done|]. split; [by etrans|]. split; [done|].
    intros Hx. destruct (Hex1 Hx) as (? & ? & ?). split; [done|]. split; [set_solver|done].
Qed.

(** C35. [createDirectory] of an absolute path while other processes create
    directories at any time and remove none: it ends; if it returns the path is
    there; it never fails for a missing parent; it makes nothing but the path and
    parents that were not there; an error that it throws is one that [mkdir]
    reported; and when that is EEXIST, the path or a parent of it has come into
    being during the call and not by this call: another process was ahead.  So it
    does not throw EEXIST when nobody interferes. *)
Theorem createDirectory_shared (fuel : nat) (path : str) (mode : Z) (w : W)
    (Hpath : is_absolute path = true)
    (Hfuel : (length (segments_of (normalizePath path)) <= fuel)%nat) :
  runs (createDirectory sys_mkdir fuel path mode) w
    (shared_result (segments_of (normalizePath path)) w).
Proof.
  destruct (normalizePath_absolute path Hpath) as (names & Hn & E & En).
  unfold createDirectory. rewrite <- En in *. rewrite E. by apply createDirectoriesInPath_shared.
Qed.
End shared.

(** The disk, what this process has made, and the directories that others will
    have made by the next calls. *)
Definition toy_shared_disk : Type :=
  (gset (list str) * list (list str) * list (list (list str)))%type.

Definition toy_shared_mkdir (path : str) (mode : Z) (s : toy_shared_disk) : option Z * toy_shared_disk :=
  let '(w, mine, script) := s in
  let '(r, w') := toy_mkdir path mode (list_to_set (hd [] script) ∪ w) in
  (r, (w', match r with None => mine ++ [segments_of path] | Some _ => mine end, tl script)).

#[global] Instance toy_shared_laws : SharedMkdirLaws toy_shared_mkdir.
Proof.
  refine (Build_SharedMkdirLaws _ toy_shared_mkdir (fun s => {[ [] ]} ∪ s.1.1) (fun s => s.1.2) _ _);
    [set_solver|].
  intros names mode [[w mine] script] r [[w' mine'] script'] Hn. unfold toy_shared_mkdir. cbn [fst snd].
  set (others := list_to_set _).
  destruct (toy_mkdir (absolute_path names) mode (others ∪ w)) as [r0 w0] eqn:E.
  intros [= <- <- <- _]. unfold toy_mkdir in E. rewrite segments_absolute in * by done.
  case_decide as H1; [injection E as <- <-; split; [set_solver|done]|].
  case_decide as H2; injection E as <- <-; (split; [set_solver|]).
  - split; [set_solver|]. split; [set_solver|done].
  - split; [done|]. split; [done|]. intros _. set_solver.
Defined.

(** Another process makes [/a/b] just after this one has made [/a]: the call
    fails, and [/a/b/c] is not made. *)
Lemma createDirectory_shared_witness :
  let s := (∅, [], [[]; []; []; [[L "a"; L "b"]]]) : toy_shared_disk in
  exists w', createDirectory toy_shared_mkdir 3 (L "/a/b/c") 511 s
    = Some (Throw (SystemError EEXIST), w') /\
  shared_result toy_shared_mkdir [L "a"; L "b"; L "c"] s (Throw (SystemError EEXIST)) w' /\
  [L "a"; L "b"; L "c"] ∉ there w'.
Proof.
  set (s := (∅, [], [[]; []; []; [[L "a"; L "b"]]]) : toy_shared_disk). cbn zeta.
  pose proof (createDirectory_shared toy_shared_mkdir 3 (L "/a/b/c") 511 s) as Hr.
  destruct (createDirectory toy_shared_mkdir 3 (L "/a/b/c") 511 s) as [[r w']|] eqn:E;
    [|vm_compute in E; discriminate E].
  assert (r = Throw (SystemError EEXIST)) as -> by (vm_compute in E; by injection E as <- _).
  exists w'. split; [reflexivity|]. split.
  - unfold runs in Hr. rewrite E in Hr. apply Hr; [reflexivity|vm_compute; lia].
  - vm_compute in E. injection E as <-. by_evaluation.
Defined.

(** Nobody else is there: both levels are made. *)
Example createDirectory_alone :
  createDirectory toy_shared_mkdir 2 (L "/a/b") 511 (∅, [], [])
  = Some (Ok tt, ({[ [L "a"; L "b"] ]} ∪ ({[ [L "a"] ]} ∪ (∅ ∪ (∅ ∪ (∅ ∪ ∅)))), [[L "a"]; [L "a"; L "b"]], [])).
Proof. by_evaluation. Qed.
