(* ===== verification/CopyFileSpec.v ===== *)
(** * What copying a file promises

    [FileUtils::copyFile] over any system calls, by the calls that it makes: a
    copy that returns wrote exactly what it read, up to the end of the file; a
    copy that fails unlinks the destination, even one that it could not open. *)

From S2P Require Import Prelude StdMap Arrays Digest TimeUtils Grpc Merklize Paths Undefined Posix FileUtils.
Open Scope Z_scope.

(** The calls made, with what they gave. *)
Inductive copy_event :=
  | Opened (path : str) (r : outcome_of Z)
  | Got (fd : Z) (r : outcome_of (list Z))
  | Put (fd : Z) (data : list Z) (r : outcome_of Z)
  | Moded (fd mode : Z) (r : option Z)
  | Closed (fd : Z) (r : option Z)
  | Unlink (path : str) (r : option Z).

Section copy.
Context {W : Type} (sys : CopyCalls W).

Definition recorded {A} (e : A -> copy_event) (f : W -> A * W)
  : W * list copy_event -> A * (W * list copy_event) :=
  fun '(w, log) => let '(a, w) := f w in (a, (w, log ++ [e a])).

Definition logged : CopyCalls (W * list copy_event) :=
  MkCopyCalls
    (fun path '(w, _) => copy_stat sys path w)
    (fun path flags mode => recorded (Opened path) (copy_open sys path flags mode))
    (fun fd n => recorded (Got fd) (copy_read sys fd n))
    (fun fd data => recorded (Put fd data) (copy_write sys fd data))
    (fun fd mode => recorded (Moded fd mode) (copy_fchmod sys fd mode))
    (fun fd => recorded (Closed fd) (copy_close sys fd))
    (fun path => recorded (Unlink path) (copy_unlink sys path)).

(** The files have an end: what is left to read goes down with every read that
    gives data, and no other call brings it up. *)
Class FiniteReads := {
  left_to_read : W -> nat;
  read_less : forall fd n w data w', copy_read sys fd n w = (inr data, w') ->
    0 < zlen data -> (left_to_read w' < left_to_read w)%nat;
  write_less : forall fd data w, (left_to_read (snd (copy_write sys fd data w)) <= left_to_read w)%nat;
  open_less : forall path flags mode w,
    (left_to_read (snd (copy_open sys path flags mode w)) <= left_to_read w)%nat;
}.

Lemma runs_recorded {A R} (e : A -> copy_event) (f : W -> A * W)
    (k : A -> UM (W * list copy_event) R) w log Q :
  runs (k (fst (f w))) (snd (f w), log ++ [e (fst (f w))]) Q ->
  runs (let+ a := ucall (recorded e f) in k a) (w, log) Q.
Proof. unfold runs, ubind, ucall, ulift, call, recorded. by destruct (f w). Qed.

(** Rounds of the loop: each chunk read from [src] and written to [dest]. *)
Definition rounds (src dest : Z) (chunks : list (list Z)) : list copy_event :=
  chunks ≫= fun c => [Got src (inr c); Put dest c (inr (zlen c))].

Context {law : FiniteReads}.

Lemma copy_loop_spec fuel src dest w log :
  (left_to_read w <= fuel)%nat ->
  runs (copy_loop logged fuel src dest) (w, log) (fun r '(w', log') =>
    exists chunks rest, log' = log ++ rounds src dest chunks ++ rest /\
      match r with
      | Ok None => rest = [Got src (inr [])]
      | Ok (Some _) => True
      | Throw _ => False
      end).
Proof.
  revert w log. induction fuel as [|fuel IH]; intros w log Hfuel;
    cbn [copy_loop]; cbn [logged copy_read]; apply runs_recorded;
    destruct (copy_read sys src BUFSIZE w) as [[errno|data] w1] eqn:Er; cbn [fst snd].
  1,3: apply runs_ret; exists [], [Got src (inl errno)]; by split.
  all: destruct (0 <? zlen data) eqn:Hd.
  2,4: apply runs_ret; exists [], [Got src (inr [])]; split; [|done];
    apply Z.ltb_ge in Hd; destruct data; [done|unfold zlen in Hd; cbn in Hd; lia].
  all: apply Z.ltb_lt in Hd; pose proof (read_less _ _ _ _ _ Er Hd) as Hless.
  1: lia.
  cbn [logged copy_write]. apply runs_recorded.
  pose proof (write_less dest data w1) as Hw.
  destruct (copy_write sys dest data w1) as [[errno|n] w2] eqn:Ew; cbn [fst snd] in *.
  - apply runs_ret. exists [], [Got src (inr data); Put dest data (inl errno)].
    split; [|done]. by rewrite <- app_assoc.
  - destruct (Z.eqb_spec n (zlen data)) as [->|Hn].
    + eapply runs_mono; [apply IH; lia|]. intros r [w' log'] (chunks & rest & E & Hr).
      exists (data :: chunks), rest. split; [|done]. rewrite E. unfold rounds. cbn.
      by rewrite <- !app_assoc.
    + apply runs_ret. exists [], [Got src (inr data); Put dest data (inr n)].
      split; [|done]. by rewrite <- app_assoc.
Qed.

Lemma runs_keep {R} (err : option Z) (e : option Z -> copy_event) (f : W -> option Z * W)
    (k : option Z -> UM (W * list copy_event) R) w log Q :
  runs (k (match fst (f w) with Some errno => Some errno | None => err end))
    (snd (f w), log ++ [e (fst (f w))]) Q ->
  runs (let+ err := keep_error err (recorded e f) in k err) (w, log) Q.
Proof.
  unfold runs, ubind, keep_error, ubind, ucall, ulift, call, recorded, uret.
  by destruct (f w).
Qed.

(** What the calls were: nothing for a source that has no metadata, all of a copy
    for a return, and an unlinked destination at the end of any other throw. *)
Definition copy_log (src_path dest_path : str) (status : outcome_of Stat) (r : res unit)
    (log : list copy_event) : Prop :=
  match status, r with
  | inr stat, Ok _ => exists src dest chunks,
      log = [Opened src_path (inr src); Opened dest_path (inr dest)]
            ++ rounds src dest chunks ++ [Got src (inr [])]
            ++ [Moded dest (st_mode stat) None; Closed src None; Closed dest None]
  | inr _, Throw e => exists errno calls unlinked,
      e = SystemError errno /\ log = calls ++ [Unlink dest_path unlinked]
  | inl errno, r => r = Throw (SystemError errno) /\ log = []
  end.

(** The end of [copyFile]. *)
Lemma copy_end err src dest dest_path w log :
  runs (let+ err := keep_error err (copy_close logged src) in
        let+ err := keep_error err (copy_close logged dest) in
        match err with
        | None => uret tt
        | Some errno =>
            let+ err := keep_error (Some errno) (copy_unlink logged dest_path) in
            uthrow (SystemError (match err with Some errno => errno | None => 0 end))
        end) (w, log) (fun r '(_, log') =>
    match r with
    | Ok _ => err = None /\ log' = log ++ [Closed src None; Closed dest None]
    | Throw e => exists errno calls unlinked,
        e = SystemError errno /\ log' = calls ++ [Unlink dest_path unlinked]
    end).
Proof.
  cbn [logged copy_close copy_unlink]. do 2 apply runs_keep.
  destruct (copy_close sys src w) as [c1 w1]; cbn [fst snd].
  destruct (copy_close sys dest w1) as [c2 w2]; cbn [fst snd].
  destruct (match c2 with Some errno => Some errno | None => _ end) as [errno|] eqn:E.
  - apply runs_keep. by eexists _, _, _.
  - destruct c2, c1; try done. apply runs_ret. split; [done|]. by rewrite <- app_assoc.
Qed.

(** C17. [copyFile] from a file that has an end, whatever the system calls do: it
    comes to an end; if it returns, the chunks read from the source up to its end
    are the chunks written to the destination, in order and completely, the mode
    of the source was set, and both descriptors were closed without an error; if it
    throws, which is a [std::system_error], then either the metadata of the source
    could not be read and no other call was made, or the last call asked to unlink
    the destination (and may itself have failed). *)
Theorem copyFile_copies (fuel : nat) (src_path dest_path : str) (w : W) :
  (left_to_read w <= fuel)%nat ->
  runs (copyFile logged fuel src_path dest_path) (w, []) (fun r '(_, log) =>
    copy_log (c_str src_path) (c_str dest_path) (copy_stat sys (c_str src_path) w) r log).
Proof.
  intros Hfuel. unfold copyFile. cbn [logged copy_stat].
  eapply runs_value; [reflexivity|]. cbn beta iota.
  destruct (copy_stat sys (c_str src_path) w) as [errno|stat]; [by split|].
  cbn [logged copy_open]. apply runs_recorded.
  pose proof (open_less (c_str src_path) O_RDONLY (st_mode stat) w) as H1.
  destruct (copy_open sys (c_str src_path) O_RDONLY (st_mode stat) w) as [r1 w1]; cbn [fst snd] in *.
  destruct (open_or r1 None) as [src err1] eqn:E1. apply runs_recorded.
  pose proof (open_less (c_str dest_path) write_flags 420 w1) as H2.
  destruct (copy_open sys (c_str dest_path) write_flags 420 w1) as [r2 w2]; cbn [fst snd] in *.
  destruct (open_or r2 err1) as [dest err2] eqn:E2. destruct err2 as [errno|].
  - eapply runs_value; [reflexivity|]. eapply runs_mono; [apply copy_end|].
    intros [?|e] [w3 log3]; [by intros [? _]|done].
  - destruct r2 as [|dest']; [done|]. injection E2 as <- ->.
    destruct r1 as [|src']; [done|]. injection E1 as <-.
    set (opened := [Opened (c_str src_path) (inr src'); Opened (c_str dest_path) (inr dest')]).
    apply runs_bind with (R := fun r '(_, log) =>
      match r with
      | Ok None => exists chunks, log = opened ++ rounds src' dest' chunks
                     ++ [Got src' (inr [])] ++ [Moded dest' (st_mode stat) None]
      | Ok (Some _) => True
      | Throw _ => False
      end).
    + eapply runs_bind; [apply copy_loop_spec; lia| |by intros ? [? ?] (? & ? & _ & ?)].
      intros err [w3 log3] (chunks & rest & E & Hr). cbn [logged copy_fchmod].
      unfold runs, keep_error, ubind, ucall, ulift, call, recorded, uret.
      destruct (copy_fchmod sys dest' (st_mode stat) w3) as [[e|] w4]; [done|].
      destruct err; [done|]. exists chunks. rewrite E, Hr. unfold opened. cbn.
      by rewrite <- app_assoc.
    + intros err [w3 log3] Herr. eapply runs_mono; [apply copy_end|].
      intros [u|e] [w4 log4]; [|done]. intros [-> ->]. destruct Herr as [chunks ->].
      exists src', dest', chunks. unfold opened. by rewrite <- !app_assoc.
    + by intros e [w3 log3].
Qed.
End copy.

(** ** A small disk *)

(** The source has two blocks left to read; the destination may refuse. *)
Definition toy_copy (writable : bool) : CopyCalls nat :=
  MkCopyCalls (fun _ _ => inr (MkStat (S_IFREG + 493) 2 (MkTimespec 0 0) (MkTimespec 0 0)))
    (fun _ flags _ w => (if O_WRONLY flags then if writable then inr 4 else inl 13 else inr 3, w))
    (fun _ _ w => match w with O => (inr [], w) | S w => (inr [Z.of_nat w], w) end)
    (fun _ data w => (inr (zlen data), w))
    (fun _ _ w => (None, w))
    (fun fd w => (if fd =? -1 then Some EBADF else None, w))
    (fun _ w => (None, w)).

#[global] Instance toy_copy_finite writable : FiniteReads (toy_copy writable).
Proof.
  refine {| left_to_read := fun w : nat => w |}; try (intros; cbn; lia).
  intros fd n [|w] data w' [= <- <-] H; [done|lia].
Defined.

Lemma copyFile_copies_witness :
  runs (copyFile (logged (toy_copy true)) 2 (L "a") (L "b")) (2%nat, []) (fun r '(_, log) =>
    copy_log (L "a") (L "b") (copy_stat (toy_copy true) (L "a") 2%nat) r log).
Proof. apply (copyFile_copies (toy_copy true) 2 (L "a") (L "b") 2%nat). cbn. lia. Defined.

(** A destination that cannot be opened is removed all the same, and the error is
    that of closing the descriptor that was never opened. *)
Example refused_destination_is_removed :
  copyFile (logged (toy_copy false)) 2 (L "a") (L "b") (2%nat, [])
  = Some (Throw (SystemError EBADF),
          (2%nat, [Opened (L "a") (inr 3); Opened (L "b") (inl 13); Closed 3 None;
                   Closed (-1) (Some EBADF); Unlink (L "b") None])).
Proof. reflexivity. Qed.
