(* ===== verification/Temporary.v ===== *)
(** * Temporary files and directories, and writing atomically

    [buildboxcommon_temporaryfile.cpp], [buildboxcommon_temporarydirectory.cpp]
    and [FileUtils::writeFileAtomically] ([buildboxcommon_fileutils.cpp]).  An
    object is what its constructor gives; the destructor runs on every way out of
    the scope that owns it. *)

From S2P Require Import Prelude StdMap Arrays Digest TimeUtils Grpc Merklize Paths Undefined Posix.
Open Scope Z_scope.

Section temporary.
Context {W : Type}.

Record TempCalls := MkTempCalls {
  (** [getenv("TMPDIR")]. *)
  env_tmpdir : W -> option str;
  (** The name made from a template and, for a file, its descriptor. *)
  sys_mkstemp : str -> W -> outcome_of (str * Z) * W;
  sys_mkdtemp : str -> W -> outcome_of str * W;
  temp_fchmod : Z -> Z -> W -> option Z * W;
  temp_close : Z -> W -> option Z * W;
  temp_unlink : str -> W -> option Z * W;
  temp_rename : str -> str -> W -> option Z * W;
  (** A whole file written by an [std::ofstream]: the [errno] when it is not good. *)
  temp_store : str -> str -> W -> option Z * W;
  (** [dirname(3)], which may fail. *)
  temp_dirname : str -> outcome_of str;
}.
Context (sys : TempCalls).

Definition DEFAULT_TMP_DIR : str := L "/tmp".
Definition DEFAULT_TMP_PREFIX : str := L "buildbox".

(** [TMPDIR], or the default when it is unset or empty. *)
Definition tempDirectory (w : W) : str :=
  match env_tmpdir sys w with
  | None | Some [] => DEFAULT_TMP_DIR
  | Some tmpdir => tmpdir
  end.

(** ** [TemporaryFile] *)

Record TemporaryFile := MkTemporaryFile { tf_name : str; tf_fd : Z }.

Definition template (directory prefix : str) : str :=
  c_str directory ++ L "/" ++ c_str prefix ++ L "XXXXXX".

Definition TemporaryFile_create (directory prefix : str) (mode : Z) : M W TemporaryFile :=
  let* made := call (sys_mkstemp sys (template directory prefix)) in
  match made with
  | inl errno => mthrow (SystemError errno)
  | inr (name, fd) =>
      let* _ := if mode =? 384 then mret None else call (temp_fchmod sys fd mode) in
      mret (MkTemporaryFile (normalizePath name) fd)
  end.

(** The constructor with a prefix only. *)
Definition TemporaryFile_new (prefix : str) : M W TemporaryFile :=
  let* directory := query tempDirectory in TemporaryFile_create directory prefix 384.

Definition TemporaryFile_close (self : TemporaryFile) : M W TemporaryFile :=
  let* _ := call (temp_close sys (tf_fd self)) in
  mret (MkTemporaryFile (tf_name self) (-1)).

Definition TemporaryFile_delete (self : TemporaryFile) : M W unit :=
  let* _ := if negb (tf_fd self =? -1) then call (temp_close sys (tf_fd self)) else mret None in
  let* _ := call (temp_unlink sys (c_str (tf_name self))) in
  mret tt.

(** ** [TemporaryDirectory] *)

(** [None] is a null pointer. *)
Definition constructTmpDirPath (path : option str) : M W str :=
  match path with
  | None => mthrow RuntimeError
  | Some path =>
      if bool_decide (c_str path = []) then query tempDirectory else mret (c_str path)
  end.

Definition TemporaryDirectory_create (path prefix : str) : M W str :=
  let name := normalizePath (template path prefix) in
  let* made := call (sys_mkdtemp sys name) in
  or_throw made.

(** The name of the directory; it is removed on destruction by default. *)
Definition TemporaryDirectory_new (path : option str) (prefix : str) : M W (str * bool) :=
  let* path := constructTmpDirPath path in
  let* d_name := TemporaryDirectory_create path prefix in
  mret (d_name, true).

Definition TemporaryDirectory_setAutoRemove (auto_remove : bool) (self : str * bool)
  : str * bool := (fst self, auto_remove).

(** A destructor may not throw: what [deleteDirectory] throws here is where the
    program is terminated. *)
Definition TemporaryDirectory_delete (deleteDirectory : str -> M W unit)
    (self : str * bool) : M W unit :=
  let (d_name, d_auto_remove) := self in
  if (d_auto_remove : bool) then deleteDirectory d_name else mret tt.

(** ** [ScopeGuard] ([buildboxcommon_scopeguard.cpp]) *)

(** A scope with a guard: the callback is called however the scope is left, and what
    it throws is caught. *)
Definition with_ScopeGuard {A} (callback : M W unit) (body : M W A) : M W A :=
  fun w => let '(r, w) := body w in (r, snd (callback w)).

(** ** [writeFileAtomically] *)

(** A scope that owns an object: its destructor runs however the scope is left. *)
Definition owning {A} (destructor : M W unit) (body : M W A) : M W A :=
  fun w =>
    let '(r, w) := body w in
    match destructor w with
    | (Ok _, w) => (r, w)
    | (Throw e, w) => (Throw e, w)
    end.

Definition intermediate (path intermediate_directory : str) : M W str :=
  if negb (bool_decide (intermediate_directory = [])) then mret intermediate_directory
  else or_throw (temp_dirname sys (c_str path)).

Definition writeFileAtomically (path data : str) (mode : Z)
    (intermediate_directory prefix : str) : M W unit :=
  let* temporary_directory := intermediate path intermediate_directory in
  let* temp_file := TemporaryFile_create temporary_directory prefix mode in
  owning (TemporaryFile_delete temp_file)
    (let temp_filename := c_str (tf_name temp_file) in
     let* stored := call (temp_store sys temp_filename data) in
     match stored with
     | Some errno => mthrow (SystemError errno)
     | None =>
         let* renamed := call (temp_rename sys temp_filename (c_str path)) in
         match renamed with
         | Some errno => mthrow (SystemError errno)
         | None => mret tt
         end
     end).
End temporary.
Arguments TempCalls : clear implicits.
