(* ===== verification/TemporarySpec.v ===== *)
(** * What writing atomically promises

    Whatever the system calls do: the destination is only ever the target of one
    rename, of a temporary file that holds all the data; and the temporary file
    is unlinked on every way out. *)

From S2P Require Import Prelude StdMap Arrays Digest TimeUtils Grpc Merklize Paths Undefined Posix Temporary.
Open Scope Z_scope.

(** The calls that change what lies at a path, with their success. *)
Inductive file_event :=
  | Stored (path data : str) (done : bool)
  | Renamed (path to : str) (done : bool)
  | Unlinked (path : str).

Definition succeeded (failed : option Z) : bool :=
  match failed with None => true | Some _ => false end.

Section logging.
Context {W : Type} (sys : TempCalls W).

Definition silently {A} (f : W -> A * W) : W * list file_event -> A * (W * list file_event) :=
  fun '(w, log) => let '(a, w) := f w in (a, (w, log)).
Definition recorded {A} (e : A -> file_event) (f : W -> A * W)
  : W * list file_event -> A * (W * list file_event) :=
  fun '(w, log) => let '(a, w) := f w in (a, (w, log ++ [e a])).

(** The same calls, recorded. *)
Definition logged : TempCalls (W * list file_event) :=
  MkTempCalls
    (fun '(w, _) => env_tmpdir sys w)
    (fun name => silently (sys_mkstemp sys name))
    (fun name => silently (sys_mkdtemp sys name))
    (fun fd mode => silently (temp_fchmod sys fd mode))
    (fun fd => silently (temp_close sys fd))
    (fun path => recorded (fun _ => Unlinked path) (temp_unlink sys path))
    (fun path to => recorded (fun r => Renamed path to (succeeded r)) (temp_rename sys path to))
    (fun path data => recorded (fun r => Stored path data (succeeded r))
                        (temp_store sys path data))
    (temp_dirname sys).

(** What a run may leave in the log. *)
Definition atomic_log (path data : str) (r : res unit) (log : list file_event) : Prop :=
  match r with
  | Ok _ => exists temp,
      log = [Stored temp data true; Renamed temp path true; Unlinked temp]
  | Throw e => (exists errno, e = SystemError errno) /\
      (log = [] \/ exists temp, log = [Stored temp data false; Unlinked temp] \/
       log = [Stored temp data true; Renamed temp path false; Unlinked temp])
  end.

Lemma run_silently {A R} (f : W -> A * W) (k : A -> M (W * list file_event) R) w log :
  (let* a := call (silently f) in k a) (w, log) = k (fst (f w)) (snd (f w), log).
Proof. unfold mbind_M, call, silently. by destruct (f w). Qed.

Lemma run_recorded {A R} (e : A -> file_event) (f : W -> A * W)
    (k : A -> M (W * list file_event) R) w log :
  (let* a := call (recorded e f) in k a) (w, log)
  = k (fst (f w)) (snd (f w), log ++ [e (fst (f w))]).
Proof. unfold mbind_M, call, recorded. by destruct (f w). Qed.

(** The destructor of the temporary file. *)
Lemma delete_logged temp w log :
  exists w', TemporaryFile_delete logged temp (w, log)
             = (Ok tt, (w', log ++ [Unlinked (c_str (tf_name temp))])).
Proof.
  unfold TemporaryFile_delete. cbn [logged temp_close temp_unlink].
  assert (forall w, exists w',
    (let* _ := call (recorded (fun _ => Unlinked (c_str (tf_name temp)))
                       (temp_unlink sys (c_str (tf_name temp)))) in mret tt) (w, log)
    = (Ok tt, (w', log ++ [Unlinked (c_str (tf_name temp))]))) as H.
  { intros w1. rewrite run_recorded. by eexists. }
  destruct (negb _); [rewrite run_silently|]; apply H.
Qed.

Lemma create_logged d prefix mode w log :
  exists r w', TemporaryFile_create logged d prefix mode (w, log) = (r, (w', log)) /\
    match r with Ok _ => True | Throw e => exists errno, e = SystemError errno end.
Proof.
  unfold TemporaryFile_create. cbn [logged sys_mkstemp temp_fchmod]. rewrite run_silently.
  destruct (fst (sys_mkstemp sys (template d prefix) w)) as [errno|[name fd]].
  - eexists _, _. split; [reflexivity|]. by eexists.
  - destruct (mode =? 384); [by eexists _, _|]. rewrite run_silently. by eexists _, _.
Qed.

(** What happens once the temporary file is there. *)
Lemma write_logged temp path data w :
  let '(r, (_, log)) :=
    owning (TemporaryFile_delete logged temp)
      (let* stored := call (temp_store logged (c_str (tf_name temp)) data) in
       match stored with
       | Some errno => mthrow (SystemError errno)
       | None =>
           let* renamed := call (temp_rename logged (c_str (tf_name temp)) path) in
           match renamed with
           | Some errno => mthrow (SystemError errno)
           | None => mret tt
           end
       end) (w, []) in
  atomic_log path data r log.
Proof.
  unfold owning. cbn [logged temp_store temp_rename]. rewrite run_recorded.
  destruct (fst (temp_store sys (c_str (tf_name temp)) data w)) as [errno|]; cbn [succeeded].
  - unfold mthrow. match goal with |- context [TemporaryFile_delete logged temp (?w, ?l)] =>
      destruct (delete_logged temp w l) as [w' ->] end.
    split; [by eexists|]. right. exists (c_str (tf_name temp)). by left.
  - rewrite run_recorded.
    match goal with |- context [fst (temp_rename sys ?a ?b ?c)] =>
      destruct (fst (temp_rename sys a b c)) as [errno|] end; cbn [succeeded];
    unfold mthrow, mret; match goal with |- context [TemporaryFile_delete logged temp (?w, ?l)] =>
      destruct (delete_logged temp w l) as [w' ->] end.
    + split; [by eexists|]. right. exists (c_str (tf_name temp)). by right.
    + by exists (c_str (tf_name temp)).
Qed.

(** C18. [writeFileAtomically], whatever the system calls do: if it returns, all the
    data was stored in a temporary file, which was then renamed to the path; if it
    throws, which is a [std::system_error], the path was not touched, since the
    only call on it is the rename that failed; and a temporary file that was
    written to is unlinked in the end in every case. *)
Theorem writeFileAtomically_atomic (path data : str) (mode : Z)
    (intermediate_directory prefix : str) (w : W) :
  let '(r, (_, log)) :=
    writeFileAtomically logged path data mode intermediate_directory prefix (w, []) in
  atomic_log (c_str path) data r log.
Proof.
  assert (forall (k : str -> M (W * list file_event) unit) w,
    (forall d w, let '(r, (_, log)) := k d (w, []) in atomic_log (c_str path) data r log) ->
    let '(r, (_, log)) :=
      (let* d := intermediate logged path intermediate_directory in k d) (w, []) in
    atomic_log (c_str path) data r log) as Hdir.
  { intros k w0 Hk. unfold intermediate. destruct (negb _); [apply Hk|].
    unfold or_throw. cbn [logged temp_dirname].
    destruct (temp_dirname sys (c_str path)) as [errno|d]; [|apply Hk].
    split; [by eexists|by left]. }
  unfold writeFileAtomically. apply Hdir. clear w. intros d w.
  destruct (create_logged d prefix mode w []) as (r & w' & E & Hr).
  unfold mbind_M at 1. rewrite E. destruct r as [temp|e]; [apply write_logged|].
  by split; [|left].
Qed.
End logging.
