(* ===== verification/StagedDirectory.v ===== *)
(** * Staged directories

    [buildboxcommon_stageddirectory.cpp]: where the outputs of a command may
    lie ([captureAllOutputs] and its helpers), and the functions that open files
    below a directory without following symbolic links.

    A callback captures one path; it acts on a world of any type, like the
    system calls.  [None] is undefined behaviour: an iterator past the end. *)

From S2P Require Import Prelude StdMap Arrays Blake3Compress Digest TimeUtils Grpc Merklize Client ClientBlobs Paths Undefined Posix.
Open Scope Z_scope.

(** ** Messages *)

Record Command := MkCommand {
  arguments : list str;
  output_files : list str;
  output_directories : list str;
  output_paths : list str;
  working_directory : str;
  output_node_properties : list str;
}.

Record OutputFile := MkOutputFile {
  of_path : str;
  of_digest : Digest;
  of_is_executable : bool;
  of_node_properties : option NodeProperties;
}.

Record OutputDirectory := MkOutputDirectory {
  od_path : str;
  od_tree_digest : Digest;
}.

Definition OutputFile_default : OutputFile := MkOutputFile [] empty_digest false None.
Definition OutputDirectory_default : OutputDirectory := MkOutputDirectory [] empty_digest.

Definition of_set_path (path : str) (f : OutputFile) : OutputFile :=
  MkOutputFile path (of_digest f) (of_is_executable f) (of_node_properties f).
Definition od_set_path (path : str) (d : OutputDirectory) : OutputDirectory :=
  MkOutputDirectory path (od_tree_digest d).

(** When a worker did what. *)
Record ExecutedActionMetadata := MkMetadata {
  worker_start_timestamp : option Timestamp;
  worker_completed_timestamp : option Timestamp;
  execution_start_timestamp : option Timestamp;
  execution_completed_timestamp : option Timestamp;
}.

Record ActionResult := MkActionResult {
  ar_output_files : list OutputFile;
  ar_output_directories : list OutputDirectory;
  exit_code : Z;
  stdout_digest : option Digest;
  stderr_digest : option Digest;
  execution_metadata : option ExecutedActionMetadata;
}.

Definition add_output_file (f : OutputFile) (r : ActionResult) : ActionResult :=
  MkActionResult (ar_output_files r ++ [f]) (ar_output_directories r) (exit_code r)
    (stdout_digest r) (stderr_digest r) (execution_metadata r).
Definition add_output_directory (d : OutputDirectory) (r : ActionResult) : ActionResult :=
  MkActionResult (ar_output_files r) (ar_output_directories r ++ [d]) (exit_code r)
    (stdout_digest r) (stderr_digest r) (execution_metadata r).

(** ** Paths of outputs *)

Definition getWorkingDirectory (command : Command) : res str :=
  if bool_decide (working_directory command = []) then Ok []
  else
    let working_directory := normalizePath (working_directory command) ++ L "/" in
    if is_slash (front working_directory) then Throw InvalidArgument
    else if bool_decide (take 3 working_directory = L "../") then Throw InvalidArgument
    else Ok working_directory.

Definition assertNoInvalidSlashes (path : str) : res unit :=
  if negb (bool_decide (path = [])) && (is_slash (front path) || is_slash (back path))
  then Throw InvalidArgument
  else Ok tt.

Definition assertPathInsideInputRoot (pathFromRoot : str) : res unit :=
  if bool_decide (pathFromRoot = L "..") || bool_decide (take 3 pathFromRoot = L "../")
  then Throw InvalidArgument
  else Ok tt.

Definition pathInInputRoot (name workingDirectory : str) : res str :=
  let! _ := assertNoInvalidSlashes name in
  let res := normalizePath (workingDirectory ++ name) in
  let! _ := assertPathInsideInputRoot res in
  Ok res.

(** ** Capturing all outputs *)

(** [for (const auto &x : l) { ... }]. *)
Fixpoint for_each {S A} (step : A -> M S unit) (l : list A) : M S unit :=
  match l with
  | [] => mret tt
  | x :: l => let* _ := step x in for_each step l
  end.

Section capture.
Context {W : Type} (sys_lstat : str -> W -> outcome_of Stat).

(** [None]: there is no such file. *)
Definition getStatMode (path : str) : M W (option Z) :=
  let* status := query (sys_lstat (c_str path)) in
  match status with
  | inl errno =>
      if errno =? ENOENT then mret None else mthrow (SystemError errno)
  | inr s => mret (Some (st_mode s))
  end.

Context (captureFileFunction : str -> M W OutputFile).
Context (captureDirectoryFunction : str -> M W OutputDirectory).

Definition captureFile (name pathInInputRoot : str) : M W OutputFile :=
  let* outputFile := captureFileFunction (c_str pathInInputRoot) in
  mret (if negb (bool_decide (of_path outputFile = [])) then of_set_path name outputFile
        else outputFile).

Definition captureDirectory (name pathInInputRoot : str) : M W OutputDirectory :=
  let* outputDirectory := captureDirectoryFunction (c_str pathInInputRoot) in
  mret (if negb (bool_decide (od_path outputDirectory = []))
        then od_set_path name outputDirectory else outputDirectory).

(** From here on, over the world and the result, which keeps what was added
    before an exception. *)
Definition add_to_result (f : ActionResult -> ActionResult) : M (W * ActionResult) unit :=
  fun '(w, result) => (Ok tt, (w, f result)).

Definition captureFileAndAddToResult (name pathInInputRoot : str)
  : M (W * ActionResult) unit :=
  let* outputFile := on_world (captureFile name pathInInputRoot) in
  if negb (bool_decide (of_path outputFile = []))
  then add_to_result (add_output_file outputFile) else mret tt.

Definition captureDirectoryAndAddToResult (name pathInInputRoot : str)
  : M (W * ActionResult) unit :=
  let* outputDirectory := on_world (captureDirectory name pathInInputRoot) in
  if negb (bool_decide (od_path outputDirectory = []))
  then add_to_result (add_output_directory outputDirectory) else mret tt.

(** One round of the loop over [output_paths]. *)
Definition capture_output_path (d_path workingDirectory outputPath : str)
  : M (W * ActionResult) unit :=
  let* relative_path := mlift (pathInInputRoot outputPath workingDirectory) in
  let* absolute_path := mlift (makePathAbsolute relative_path d_path) in
  let* mode := on_world (getStatMode absolute_path) in
  match mode with
  | None => mret tt
  | Some st_mode =>
      if S_ISDIR st_mode then captureDirectoryAndAddToResult outputPath relative_path
      else if S_ISREG st_mode then captureFileAndAddToResult outputPath relative_path
      else mthrow InvalidArgument
  end.

Definition capture_output_file (workingDirectory outputFile : str)
  : M (W * ActionResult) unit :=
  let* path := mlift (pathInInputRoot outputFile workingDirectory) in
  captureFileAndAddToResult outputFile path.

Definition capture_output_directory (workingDirectory outputDirectory : str)
  : M (W * ActionResult) unit :=
  let* path := mlift (pathInInputRoot outputDirectory workingDirectory) in
  captureDirectoryAndAddToResult outputDirectory path.

(** [captureAllOutputs] of a directory at [d_path], with its callbacks. *)
Definition captureAllOutputs (d_path : str) (command : Command)
  : M (W * ActionResult) unit :=
  let* workingDirectory := mlift (getWorkingDirectory command) in
  if negb (bool_decide (output_paths command = [])) then
    for_each (capture_output_path d_path workingDirectory) (output_paths command)
  else
    let* _ := for_each (capture_output_file workingDirectory) (output_files command) in
    for_each (capture_output_directory workingDirectory) (output_directories command).
End capture.

(** ** Opening without following links *)

Section utils.
Context {W : Type} (sys : Descriptors W).

Definition directory_flags : OpenFlags := MkOpenFlags false false false false true true.
Definition file_flags : OpenFlags := MkOpenFlags false false false false false true.

(** The string from [subdir_start] to [path_end]: the subdirectory at its front,
    found from [subdir_start + 1] on, and what follows its slash. *)
Definition next_subdir (rest : str) : option (str * option str) :=
  match rest with
  | [] => None
  | c :: rest =>
      match split_slash rest with
      | None => Some (c :: rest, None)
      | Some (before, after) => Some (c :: before, Some after)
      end
  end.

Definition without_trailing_slash (path : str) : str :=
  if is_slash (back path) then removelast path else path.

(** The loop; each round consumes a part of the path. *)
Fixpoint openDirectory_loop (fuel : nat) (root_dir_fd current_dir_fd : Z) (rest : str)
  : UM W Z :=
  let+ (subdir_path, next) := uvalue (next_subdir rest) in
  let+ opened := ucall (sys_openat sys current_dir_fd (c_str subdir_path) directory_flags) in
  match opened with
  | inl errno => uthrow (SystemError errno)
  | inr subdir_fd =>
      match next, fuel with
      | Some rest, S fuel =>
          let+ _ := if current_dir_fd =? root_dir_fd then uret None
                    else ucall (sys_close sys current_dir_fd) in
          openDirectory_loop fuel root_dir_fd subdir_fd rest
      | _, _ => uret subdir_fd
      end
  end.

(** [path.back()] is undefined for an empty path. *)
Definition openDirectoryInInputRoot (root_dir_fd : Z) (path : str) : UM W Z :=
  if bool_decide (path = []) then undefined
  else openDirectory_loop (length path) root_dir_fd root_dir_fd (without_trailing_slash path).

Definition openFileInInputRoot (root_dir_fd : Z) (relative_path : str) : UM W Z :=
  let+ (directory_fd, filename) :=
    match rsplit_slash relative_path with
    | None => uret (root_dir_fd, relative_path)
    | Some (base_path, filename) =>
        let+ directory_fd := openDirectoryInInputRoot root_dir_fd base_path in
        uret (directory_fd, filename)
    end in
  let+ opened := ucall (sys_openat sys directory_fd (c_str filename) file_flags) in
  let+ closed := if directory_fd =? root_dir_fd then uret None
                 else ucall (sys_close sys directory_fd) in
  match opened with
  | inl errno =>
      (* a close that fails overwrites errno *)
      uthrow (SystemError (match closed with Some errno => errno | None => errno end))
  | inr file_fd => uret file_fd
  end.

Definition fileInInputRoot (root_dir_fd : Z) (path : str) : UM W bool :=
  ucatch is_system_error
    (let+ fd := openFileInInputRoot root_dir_fd path in
     let+ _ := ucall (sys_close sys fd) in
     uret true)
    (uret false).

Definition directoryInInputRoot (root_dir_fd : Z) (path : str) : UM W bool :=
  if bool_decide (path = []) then uret true
  else
    ucatch is_system_error
      (let+ fd := openDirectoryInInputRoot root_dir_fd path in
       let+ _ := ucall (sys_close sys fd) in
       uret true)
      (uret false).
End utils.
