(* ===== verification/StagedDirectorySpec.v ===== *)
(** * What staged directories promise

    Captures depend on nothing outside the input root; an output that exists is
    captured under the name that the command gives it; and the functions that
    open a path descend entry by entry without following symbolic links. *)

From S2P Require Import Prelude StdMap Arrays Blake3Compress Digest TimeUtils Grpc Merklize MerklizeSpec Merge MergeSpec Client ClientBlobs Paths PathsSpec Undefined Posix StagedDirectory.
Open Scope Z_scope.

(** ** Paths of outputs *)

(** A normalized relative path that does not lead upwards. *)
Definition in_input_root (p : str) : Prop :=
  is_absolute p = false /\ (dotdot ∉ segments_of p) /\ normalizePath p = p /\ no_nul p.

Lemma is_absolute_c_str s : is_absolute (c_str s) = is_absolute s.
Proof. destruct s as [|c s]; [done|]. cbn. by destruct (ascii_dec c zero) as [->|]. Qed.

Lemma normalizePath_relative p : is_absolute p = false -> is_absolute (normalizePath p) = false.
Proof.
  intros Hp. destruct (normalizePath_spec p) as (s & Hc & _ & -> & _).
  by rewrite render_absolute, is_absolute_c_str.
Qed.

Lemma normalizePath_no_dotdot p :
  is_absolute p = false ->
  normalizePath p <> L ".." -> take 3 (normalizePath p) <> L "../" ->
  dotdot ∉ segments_of (normalizePath p).
Proof.
  intros Hp H1 H2. destruct (normalizePath_spec p) as (s & Hc & _ & E & _).
  rewrite E in *. rewrite is_absolute_c_str, Hp in *. rewrite render_segments by done.
  intros Hin. apply (front_dotdot s Hc H1 H2).
  apply list_elem_of_In, in_rev, list_elem_of_In in Hin. done.
Qed.

Lemma getWorkingDirectory_relative command wd :
  getWorkingDirectory command = Ok wd -> is_absolute wd = false.
Proof.
  unfold getWorkingDirectory. case_bool_decide; [by intros [= <-]|].
  fold (is_absolute (normalizePath (working_directory command) ++ L "/")).
  destruct (is_absolute _) eqn:Ha; [done|]. case_bool_decide; [done|]. by intros [= <-].
Qed.

(** Whatever is accepted is inside the input root. *)
Lemma pathInInputRoot_inside name wd p :
  is_absolute wd = false -> pathInInputRoot name wd = Ok p -> in_input_root p.
Proof.
  intros Hwd. unfold pathInInputRoot, assertNoInvalidSlashes, assertPathInsideInputRoot.
  destruct (negb (bool_decide (name = [])) && _) eqn:Es; [done|]. cbn [res_bind].
  destruct (bool_decide (normalizePath (wd ++ name) = _) || _) eqn:Er; [done|].
  intros [= <-]. b2p.
  assert (is_absolute (wd ++ name) = false) as Ha.
  { destruct wd as [|c wd]; [|done]. destruct name as [|c name]; [done|].
    rewrite bool_decide_eq_false_2 in Es by done. cbn [negb andb] in Es.
    apply orb_false_iff in Es as [Es _]. done. }
  split; [by apply normalizePath_relative|]. split; [|split].
  - by apply normalizePath_no_dotdot.
  - apply normalizePath_idem.
  - apply normalizePath_no_nul.
Qed.

Lemma c_str_cut a b : ~ no_nul a -> c_str (a ++ b) = c_str a.
Proof.
  intros Ha. induction a as [|c a IH]; [destruct Ha; apply not_elem_of_nil|].
  cbn. destruct (ascii_dec c zero) as [|Hc]; [done|]. rewrite IH; [done|].
  intros Hn. apply Ha. unfold no_nul in *. apply not_elem_of_cons. split; [congruence|done].
Qed.

Lemma in_root_names p :
  in_input_root p -> Forall (fun s => segment_ok s /\ s <> dotdot) (segments_of p).
Proof.
  intros (Ha & Hd & Hp & _). pose proof (normalizePath_canonical_segments p) as Hc.
  rewrite Hp, Ha in Hc. apply no_dotdot_names in Hc.
  - apply Forall_rev in Hc. by rewrite rev_involutive in Hc.
  - intros Hin. apply Hd. apply list_elem_of_In, in_rev, list_elem_of_In in Hin. done.
Qed.

(** A path in the input root, made absolute, is below the directory. *)
Lemma normalize_below d p :
  no_nul p -> Forall (fun s => segment_ok s /\ s <> dotdot) (segments_of p) ->
  is_absolute d = true -> inside (normalizePath d) (normalizePath (d ++ L "/" ++ p)).
Proof.
  intros Hp Hn Hd.
  destruct (normalizePath_spec d) as (s & Hc & _ & Ed & Es).
  destruct (normalizePath_spec (d ++ L "/" ++ p)) as (s' & Hc' & _ & Ed' & Es').
  assert (is_absolute (d ++ L "/" ++ p) = true) as Ha by (by destruct d).
  rewrite Ed, Ed'. rewrite is_absolute_c_str, Hd in Hc, Es |- *.
  rewrite is_absolute_c_str, Ha in Hc', Es' |- *. split; [by rewrite !render_absolute|].
  rewrite !render_segments by done.
  destruct (decide (no_nul d)) as [Hz|Hz].
  - rewrite c_str_id in Es by done.
    assert (no_nul (d ++ L "/" ++ p)) as Hdp.
    { unfold no_nul in *. rewrite !elem_of_app. intros [?|[Hi|?]]; [done| |done].
      apply elem_of_cons in Hi as [Hi|Hi]; [done|]. by apply elem_of_nil in Hi. }
    rewrite c_str_id, segments_of_slash, foldl_app, <- Es in Es' by done.
    rewrite push_names in Es' by done. exists (segments_of p). subst s'.
    rewrite rev_app_distr, rev_involutive. split; [done|]. by apply names_no_dotdot.
  - rewrite c_str_cut, <- Es in Es' by done. exists []. subst s'. rewrite app_nil_r.
    split; [done|apply not_elem_of_nil].
Qed.

Lemma inside_trailing_slash b p : p <> [] -> inside b p -> inside b (p ++ L "/").
Proof.
  intros Hp [Ha (rest & E & Hr)]. split; [by destruct p|]. exists rest. split; [|done].
  change (p ++ L "/") with (p ++ L "/" ++ []). rewrite segments_of_slash, E.
  by rewrite app_nil_r.
Qed.

Lemma makePathAbsolute_inside p d q :
  in_input_root p -> makePathAbsolute p d = Ok q -> inside (normalizePath d) q.
Proof.
  intros Hp. unfold makePathAbsolute.
  destruct (bool_decide (d = []) || _) eqn:Ed; [done|].
  apply orb_false_iff in Ed as [_ Ha]. apply negb_false_iff in Ha. fold (is_absolute p).
  rewrite (proj1 Hp). cbn [negb]. intros [= <-].
  assert (inside (normalizePath d) (normalizePath (d ++ L "/" ++ p))) as Hin.
  { apply normalize_below; [apply Hp|by apply in_root_names|done]. }
  destruct (_ && _); [|done]. apply inside_trailing_slash; [|done].
  apply normalizePath_nonempty.
Qed.

(** ** Captures depend on nothing outside the input root *)

Section captures.
Context {W : Type} (lstat lstat' : str -> W -> outcome_of Stat).
Context (cf cf' : str -> M W OutputFile) (cd cd' : str -> M W OutputDirectory).

Lemma bind_ext {S A B} (m m' : M S A) (k k' : A -> M S B) s :
  m s = m' s -> (forall a s', m s = (Ok a, s') -> k a s' = k' a s') ->
  mbind_M m k s = mbind_M m' k' s.
Proof. unfold mbind_M. intros <- Hk. destruct (m s) as [[a|e] s'] eqn:E; [by apply Hk|done]. Qed.

Lemma for_each_ext {S A} (step step' : A -> M S unit) l s :
  (forall x s, step x s = step' x s) -> for_each step l s = for_each step' l s.
Proof.
  intros Hs. revert s. induction l as [|x l IH]; intros s; [done|].
  cbn [for_each]. apply bind_ext; [apply Hs|]. intros _ s' _. apply IH.
Qed.

Lemma capture_file_ext name p s :
  (forall w, cf (c_str p) w = cf' (c_str p) w) ->
  captureFileAndAddToResult cf name p s = captureFileAndAddToResult cf' name p s.
Proof.
  intros Hc. unfold captureFileAndAddToResult. apply bind_ext; [|done].
  destruct s as [w r]. unfold on_world. unfold captureFile, mbind_M. by rewrite Hc.
Qed.

Lemma capture_directory_ext name p s :
  (forall w, cd (c_str p) w = cd' (c_str p) w) ->
  captureDirectoryAndAddToResult cd name p s = captureDirectoryAndAddToResult cd' name p s.
Proof.
  intros Hc. unfold captureDirectoryAndAddToResult. apply bind_ext; [|done].
  destruct s as [w r]. unfold on_world, captureDirectory, mbind_M. by rewrite Hc.
Qed.

(** C15. What [captureAllOutputs] captures, adds to the result and throws depends
    on nothing outside the input root: with two views of the file system, and two
    callbacks for each kind of output, that agree below the staged directory, on
    normalized relative paths that do not lead upwards, it does the same. *)
Theorem captures_stay_inside (d_path : str) (command : Command) (s : W * ActionResult) :
  (forall p w, in_input_root p -> cf p w = cf' p w) ->
  (forall p w, in_input_root p -> cd p w = cd' p w) ->
  (forall p w, inside (normalizePath d_path) p -> lstat (c_str p) w = lstat' (c_str p) w) ->
  captureAllOutputs lstat cf cd d_path command s
  = captureAllOutputs lstat' cf' cd' d_path command s.
Proof.
  intros Hf Hd Hl. unfold captureAllOutputs. apply bind_ext; [done|].
  intros wd s' E. injection E as Ewd ->. pose proof (getWorkingDirectory_relative _ _ Ewd) as Hwd.
  assert (forall p, in_input_root p -> c_str p = p) as Hc.
  { intros p (_ & _ & _ & Hp). by apply c_str_id. }
  destruct (negb _).
  - apply for_each_ext. intros name s. apply bind_ext; [done|].
    intros p s1 E. injection E as Ep ->.
    pose proof (pathInInputRoot_inside _ _ _ Hwd Ep) as Hp. apply bind_ext; [done|].
    intros q s2 E. injection E as Eq ->.
    pose proof (makePathAbsolute_inside _ _ _ Hp Eq) as Hq.
    apply bind_ext.
    { destruct s2 as [w r]. unfold on_world, getStatMode, query, mbind_M. by rewrite Hl. }
    intros [mode|] s3 _; [|done].
    destruct (S_ISDIR mode); [apply capture_directory_ext; intros w; rewrite Hc by done; auto|].
    destruct (S_ISREG mode); [|done]. apply capture_file_ext. intros w. rewrite Hc by done. auto.
  - apply bind_ext.
    + apply for_each_ext. intros name s. apply bind_ext; [done|].
      intros p s1 E. injection E as Ep ->.
      pose proof (pathInInputRoot_inside _ _ _ Hwd Ep) as Hp.
      apply capture_file_ext. intros w. rewrite Hc by done. auto.
    + intros _ s2 _. apply for_each_ext. intros name s. apply bind_ext; [done|].
      intros p s1 E. injection E as Ep ->.
      pose proof (pathInInputRoot_inside _ _ _ Hwd Ep) as Hp.
      apply capture_directory_ext. intros w. rewrite Hc by done. auto.
Qed.
End captures.

(** ** What is captured *)

Definition extend (fs : list OutputFile) (ds : list OutputDirectory) (r : ActionResult)
  : ActionResult :=
  MkActionResult (ar_output_files r ++ fs) (ar_output_directories r ++ ds) (exit_code r)
    (stdout_digest r) (stderr_digest r) (execution_metadata r).

Lemma extend_nil r : extend [] [] r = r.
Proof. destruct r. unfold extend. cbn. by rewrite !app_nil_r. Qed.

Lemma extend_extend fs ds fs' ds' r :
  extend fs' ds' (extend fs ds r) = extend (fs ++ fs') (ds ++ ds') r.
Proof. unfold extend. cbn. by rewrite !app_assoc. Qed.

Lemma for_each_extends {W A} (step : A -> M (W * ActionResult) unit)
    (F : A -> option OutputFile) (D : A -> option OutputDirectory) l w r :
  Forall (fun x => forall r, step x (w, r) =
            (Ok tt, (w, extend (option_list (F x)) (option_list (D x)) r))) l ->
  for_each step l (w, r) = (Ok tt, (w, extend (omap F l) (omap D l) r)).
Proof.
  intros Hl. revert r. induction Hl as [|x l Hx Hl IH]; intros r; cbn [for_each].
  { by rewrite extend_nil. }
  unfold mbind_M. rewrite Hx, IH, extend_extend. cbn.
  by destruct (F x), (D x).
Qed.

Lemma omap_none {A B} (l : list A) : omap (fun _ => @None B) l = [].
Proof. by induction l. Qed.

(** A quiet file system and callbacks that only look at it. *)
Section quiet.
Context {W : Type} (stat : str -> outcome_of Stat).
Context (found_file : str -> OutputFile) (found_directory : str -> OutputDirectory).
Context (d_path wd : str).

Abbreviation cf := (fun p => mret (found_file p) : M W OutputFile).
Abbreviation cd := (fun p => mret (found_directory p) : M W OutputDirectory).
Abbreviation lstat := (fun p (_ : W) => stat p).

(** The output that a name stands for, under that name; none if the callback
    found nothing, or if the name is empty. *)
Definition file_output (name : str) : option OutputFile :=
  match pathInInputRoot name wd with
  | Ok p => if decide (of_path (found_file p) = [] \/ name = []) then None
            else Some (of_set_path name (found_file p))
  | Throw _ => None
  end.

Definition directory_output (name : str) : option OutputDirectory :=
  match pathInInputRoot name wd with
  | Ok p => if decide (od_path (found_directory p) = [] \/ name = []) then None
            else Some (od_set_path name (found_directory p))
  | Throw _ => None
  end.

(** What lies at an output path. *)
Definition mode_at (name : str) : option Z :=
  match pathInInputRoot name wd with
  | Ok p =>
      match makePathAbsolute p d_path with
      | Ok q => match stat (c_str q) with inr s => Some (st_mode s) | inl _ => None end
      | Throw _ => None
      end
  | Throw _ => None
  end.

Definition mode_is (p : Z -> bool) (name : str) : bool :=
  match mode_at name with Some mode => p mode | None => false end.

Definition accepted_name (name : str) : Prop := is_ok (pathInInputRoot name wd) = true.

(** The name is accepted and nothing, a directory or a file is there. *)
Definition capturable (name : str) : Prop :=
  exists p q, pathInInputRoot name wd = Ok p /\ makePathAbsolute p d_path = Ok q /\
    match stat (c_str q) with
    | inl errno => errno = ENOENT
    | inr s => S_ISDIR (st_mode s) = true \/ S_ISREG (st_mode s) = true
    end.

Definition of_kind {A} (p : Z -> bool) (f : str -> option A) (name : str) : option A :=
  if mode_is p name then f name else None.

Lemma accepted_c_str name p :
  is_absolute wd = false -> pathInInputRoot name wd = Ok p -> c_str p = p.
Proof. intros Hwd Hp. apply c_str_id. by apply (pathInInputRoot_inside name wd). Qed.

Lemma capture_file_quiet name p (w : W) r :
  is_absolute wd = false -> pathInInputRoot name wd = Ok p ->
  captureFileAndAddToResult cf name p (w, r)
  = (Ok tt, (w, extend (option_list (file_output name)) [] r)).
Proof.
  intros Hwd Hp. unfold captureFileAndAddToResult, captureFile, on_world, mbind_M, mret.
  rewrite (accepted_c_str name p) by done. unfold file_output. rewrite Hp.
  destruct (decide (of_path (found_file p) = [])) as [E|E].
  - rewrite decide_True by (by left). rewrite !(bool_decide_eq_true_2 _ E). cbn [negb].
    rewrite ?(bool_decide_eq_true_2 _ E), extend_nil. done.
  - rewrite (bool_decide_eq_false_2 _ E). cbn [negb of_set_path of_path].
    destruct (decide (name = [])) as [->|Hn].
    + rewrite decide_True by (by right). rewrite bool_decide_eq_true_2, extend_nil by done. done.
    + rewrite decide_False by tauto. rewrite bool_decide_eq_false_2 by done.
      unfold add_to_result, extend. cbn. by rewrite app_nil_r.
Qed.

Lemma capture_directory_quiet name p (w : W) r :
  is_absolute wd = false -> pathInInputRoot name wd = Ok p ->
  captureDirectoryAndAddToResult cd name p (w, r)
  = (Ok tt, (w, extend [] (option_list (directory_output name)) r)).
Proof.
  intros Hwd Hp. unfold captureDirectoryAndAddToResult, captureDirectory, on_world, mbind_M, mret.
  rewrite (accepted_c_str name p) by done. unfold directory_output. rewrite Hp.
  destruct (decide (od_path (found_directory p) = [])) as [E|E].
  - rewrite decide_True by (by left). rewrite !(bool_decide_eq_true_2 _ E). cbn [negb].
    rewrite ?(bool_decide_eq_true_2 _ E), extend_nil. done.
  - rewrite (bool_decide_eq_false_2 _ E). cbn [negb od_set_path od_path].
    destruct (decide (name = [])) as [->|Hn].
    + rewrite decide_True by (by right). rewrite bool_decide_eq_true_2, extend_nil by done. done.
    + rewrite decide_False by tauto. rewrite bool_decide_eq_false_2 by done.
      unfold add_to_result, extend. cbn. by rewrite app_nil_r.
Qed.

Lemma S_ISREG_not_DIR m : S_ISDIR m = true -> S_ISREG m = false.
Proof. unfold S_ISDIR, S_ISREG. intros E. apply Z.eqb_eq in E. rewrite E. done. Qed.

(** One round over [output_paths]. *)
Lemma capture_path_quiet name (w : W) r :
  is_absolute wd = false -> capturable name ->
  capture_output_path lstat cf cd d_path wd name (w, r)
  = (Ok tt, (w, extend (option_list (of_kind S_ISREG file_output name))
                       (option_list (of_kind S_ISDIR directory_output name)) r)).
Proof.
  intros Hwd (p & q & Hp & Hq & Hs). unfold of_kind, mode_is, mode_at. rewrite Hp, Hq.
  unfold capture_output_path, mlift. rewrite Hp.
  unfold mbind_M at 1. cbn beta iota. rewrite Hq. unfold mbind_M at 1. cbn beta iota.
  unfold on_world, getStatMode, query, mbind_M, mret, mthrow. destruct (stat (c_str q)) as [errno|s].
  { subst errno. cbn. by rewrite extend_nil. }
  destruct (S_ISDIR (st_mode s)) eqn:Ed.
  - rewrite S_ISREG_not_DIR by done. cbn [option_list]. by apply (capture_directory_quiet _ p).
  - destruct Hs as [Hs|Hs]; [congruence|]. rewrite Hs. by apply (capture_file_quiet _ p).
Qed.

(** Over a file system at rest, where every requested path is accepted and is
    absent, a file or a directory, [captureAllOutputs] returns, changes nothing
    but the result, and appends to it, in the order of the request, each output
    that its callback found, under the name that the command gives it (an empty
    name is dropped): for [output_paths] those that are files and those that are
    directories, and the two older lists only when [output_paths] is empty. *)
Theorem captures_what_was_found (command : Command) (w : W) (r : ActionResult) :
  getWorkingDirectory command = Ok wd ->
  Forall capturable (output_paths command) ->
  (output_paths command = [] ->
   Forall accepted_name (output_files command ++ output_directories command)) ->
  captureAllOutputs lstat cf cd d_path command (w, r)
  = (Ok tt, (w,
      match output_paths command with
      | [] => extend (omap file_output (output_files command))
                     (omap directory_output (output_directories command)) r
      | paths => extend (omap (of_kind S_ISREG file_output) paths)
                        (omap (of_kind S_ISDIR directory_output) paths) r
      end)).
Proof.
  intros Ewd Hp Hn. pose proof (getWorkingDirectory_relative _ _ Ewd) as Hwd.
  unfold captureAllOutputs, mlift, mbind_M at 1. rewrite Ewd.
  destruct (output_paths command) as [|x l] eqn:Eo.
  - rewrite bool_decide_eq_true_2 by done. cbn [negb].
    specialize (Hn eq_refl). apply Forall_app in Hn as [Hf Hd].
    unfold mbind_M at 1.
    rewrite (for_each_extends _ file_output (fun _ => None)).
    + rewrite (for_each_extends _ (fun _ => None) directory_output), extend_extend.
      * by rewrite !omap_none, app_nil_r.
      * eapply Forall_impl; [|exact Hd]. intros name Hname r'.
        unfold accepted_name in Hname. unfold capture_output_directory, mlift, mbind_M at 1.
        destruct (pathInInputRoot name wd) as [p|e] eqn:Ep; [|done].
        by apply (capture_directory_quiet _ p).
    + eapply Forall_impl; [|exact Hf]. intros name Hname r'.
      unfold accepted_name in Hname. unfold capture_output_file, mlift, mbind_M at 1.
      destruct (pathInInputRoot name wd) as [p|e] eqn:Ep; [|done].
      by apply (capture_file_quiet _ p).
  - rewrite bool_decide_eq_false_2 by done. cbn [negb].
    apply (for_each_extends _ (of_kind S_ISREG file_output) (of_kind S_ISDIR directory_output)).
    eapply Forall_impl; [|exact Hp]. intros name Hname r'. by apply capture_path_quiet.
Qed.
End quiet.

(** ** A small command *)

Definition toy_command : Command :=
  MkCommand [L "cc"] [L "ignored"] [] [L "../out/f"; L "d"; L "missing"] (L "work") [].

Definition toy_stat (p : str) : outcome_of Stat :=
  let stat mode := inr (MkStat mode 0 (MkTimespec 0 0) (MkTimespec 0 0)) in
  if decide (p = L "/stage/out/f") then stat (S_IFREG + 420)
  else if decide (p = L "/stage/work/d") then stat (S_IFDIR + 493)
  else inl ENOENT.

Definition toy_found_file (p : str) : OutputFile := MkOutputFile p empty_digest false None.
Definition toy_found_directory (p : str) : OutputDirectory := MkOutputDirectory p empty_digest.
Definition toy_result : ActionResult := MkActionResult [] [] 0 None None None.

Lemma captures_what_was_found_witness :
  captureAllOutputs (fun p (_ : unit) => toy_stat p) (fun p => mret (toy_found_file p))
    (fun p => mret (toy_found_directory p)) (L "/stage") toy_command (tt, toy_result)
  = (Ok tt, (tt, MkActionResult [MkOutputFile (L "../out/f") empty_digest false None]
                   [MkOutputDirectory (L "d") empty_digest] 0 None None None)).
Proof.
  rewrite (captures_what_was_found toy_stat toy_found_file toy_found_directory (L "/stage")
             (L "work/") toy_command tt toy_result).
  - reflexivity.
  - reflexivity.
  - repeat apply List.Forall_cons; [| | |constructor].
    + exists (L "out/f"), (L "/stage/out/f"). repeat split; try reflexivity. right. reflexivity.
    + exists (L "work/d"), (L "/stage/work/d"). repeat split; try reflexivity. left. reflexivity.
    + exists (L "work/missing"), (L "/stage/work/missing"). repeat split; reflexivity.
  - discriminate.
Defined.

(** A second view of the machine, where everything above the input root fails. *)
Lemma captures_stay_inside_witness :
  captureAllOutputs (fun p (_ : unit) => toy_stat p) (fun p => mret (toy_found_file p))
    (fun p => mret (toy_found_directory p)) (L "/stage") toy_command (tt, toy_result)
  = captureAllOutputs (fun p (_ : unit) => toy_stat p)
      (fun p => if is_absolute p then mthrow RuntimeError else mret (toy_found_file p))
      (fun p => if is_absolute p then mthrow RuntimeError else mret (toy_found_directory p))
      (L "/stage") toy_command (tt, toy_result).
Proof.
  apply (captures_stay_inside (fun p (_ : unit) => toy_stat p) (fun p (_ : unit) => toy_stat p)
           (fun p => mret (toy_found_file p))
           (fun p => if is_absolute p then mthrow RuntimeError else mret (toy_found_file p))
           (fun p => mret (toy_found_directory p))
           (fun p => if is_absolute p then mthrow RuntimeError else mret (toy_found_directory p))
           (L "/stage") toy_command (tt, toy_result)).
  - intros p w (Hp & _). rewrite Hp. reflexivity.
  - intros p w (Hp & _). rewrite Hp. reflexivity.
  - reflexivity.
Defined.

(** The whole working directory, which the protocol lets one ask for with an empty
    name, is captured and then left out of the result. *)
Example working_directory_is_dropped :
  captureAllOutputs (fun p (_ : list str) => toy_stat p) (fun p => mret (toy_found_file p))
    (fun p w => (Ok (toy_found_directory p), w ++ [p])) (L "/stage")
    (MkCommand [] [] [[]] [] (L "work") []) ([], toy_result)
  = (Ok tt, ([L "work"], toy_result)).
Proof. reflexivity. Qed.
