(* ===== verification/FileDescentSpec.v ===== *)
(** * Descending into a directory without following links

    [StagedDirectoryUtils] ([buildboxcommon_stageddirectory.cpp]): the
    descriptor that a successful call returns is reached from the root entry by
    entry, none of them a symbolic link; which descriptors are left open. *)

From S2P Require Import Prelude StdMap Arrays Blake3Compress Digest TimeUtils Grpc Merklize MerklizeSpec Merge MergeSpec Client ClientBlobs Paths PathsSpec Undefined Posix StagedDirectory.
Open Scope Z_scope.

(** ** Separators *)

Lemma next_subdir_last n : entry_name n -> next_subdir n = Some (n, None).
Proof.
  intros (Hne & Hs & _). destruct n as [|c n]; [done|]. apply not_elem_of_cons in Hs as [_ Hs].
  cbn. by rewrite split_slash_name.
Qed.

Lemma next_subdir_more n rest :
  entry_name n -> next_subdir (n ++ L "/" ++ rest) = Some (n, Some rest).
Proof.
  intros (Hne & Hs & _). destruct n as [|c n]; [done|]. apply not_elem_of_cons in Hs as [_ Hs].
  cbn [app next_subdir]. by rewrite split_slash_cut.
Qed.

Lemma entry_c_str n : entry_name n -> c_str n = n.
Proof. intros (_ & _ & Hz & _). by apply c_str_id. Qed.

Lemma back_app_name a n : entry_name n -> is_slash (back (a ++ n)) = false.
Proof.
  intros (Hne & Hs & _). unfold back. destruct (exists_last Hne) as (l & c & ->).
  rewrite app_assoc, List.last_last. unfold is_slash, slash. apply bool_decide_eq_false_2.
  intros ->. apply Hs. apply elem_of_app. right. by left.
Qed.

Lemma join_path_back names :
  names <> [] -> Forall entry_name names -> is_slash (back (join_path names)) = false.
Proof.
  intros Hne Hn. induction Hn as [|n names Hn Hns IH]; [done|].
  destruct names as [|m names]; [by apply (back_app_name [])|].
  change (join_path (n :: m :: names)) with (n ++ L "/" ++ join_path (m :: names)).
  unfold back in *. rewrite app_assoc. specialize (IH ltac:(done)).
  destruct (exists_last (l := join_path (m :: names))) as (l & c & E).
  { apply Forall_cons_1 in Hns as [(Hm & _) _]. destruct m; [done|]. by destruct names. }
  rewrite E in *. rewrite app_assoc. rewrite List.last_last in *. done.
Qed.

Lemma join_path_length names :
  Forall entry_name names -> (length names <= length (join_path names))%nat.
Proof.
  induction 1 as [|n names (Hne & _) Hns IH]; [done|].
  destruct n as [|c n]; [done|]. destruct names as [|m names]; [cbn; lia|].
  change (join_path ((c :: n) :: m :: names)) with ((c :: n) ++ L "/" ++ join_path (m :: names)).
  rewrite length_app. cbn [length app lit String.list_ascii_of_string] in *. lia.
Qed.

(** ** Descriptors *)

Section descent.
Context {W : Type} (sys : Descriptors W) (tree : FileTree) {laws : DescriptorLaws sys tree}.
Implicit Types (w : W) (i j : node tree) (B : gset Z).

(** The directory reached from [i] through these entries. *)
Fixpoint descend (i : node tree) (names : list str) : option (node tree) :=
  match names with
  | [] => Some i
  | n :: names =>
      match entry tree i n with
      | Some j => if is_dir tree j && negb (is_symlink tree j) then descend j names else None
      | None => None
      end
  end.

(** The descriptors [B] are as in [w]; those of [extra] are the only others. *)
Definition only (B extra : gset Z) w w' : Prop :=
  fds w' = extra ∪ B /\ extra ## B /\ forall x, x ∈ B -> refers w' x = refers w x.

Lemma runs_ucall {A R} (f : W -> A * W) (k : A -> UM W R) w Q :
  runs (k (fst (f w))) (snd (f w)) Q -> runs (let+ a := ucall f in k a) w Q.
Proof. unfold runs, ubind, ucall, ulift, call. by destruct (f w). Qed.

(** Opening an entry of the directory behind [cur]. *)
Lemma runs_openat {A} cur name flags (k : outcome_of Z -> UM W A) w i Q :
  entry_name name -> O_NOFOLLOW flags = true -> O_CREAT flags = false ->
  cur ∈ fds w -> refers w cur = Some i ->
  (forall errno w', only (fds w) ∅ w w' -> runs (k (inl errno)) w' Q) ->
  (forall fd j w', entry tree i name = Some j -> is_symlink tree j = false ->
     (O_DIRECTORY flags = true -> is_dir tree j = true) ->
     only (fds w) {[fd]} w w' -> refers w' fd = Some j -> runs (k (inr fd)) w' Q) ->
  runs (let+ r := ucall (sys_openat sys cur (c_str name) flags) in k r) w Q.
Proof.
  intros Hn Hf Hc Hcur Hr Hk1 Hk2. apply runs_ucall. rewrite entry_c_str by done.
  destruct (sys_openat sys cur name flags w) as [r w'] eqn:E. cbn.
  pose proof (openat_entry cur name flags w i r w' Hn Hf Hc Hcur Hr E) as HL.
  destruct r as [errno|fd].
  - destruct HL as [H1 H2]. apply Hk1. split; [set_solver|]. split; [set_solver|done].
  - destruct HL as (j & H1 & H2 & H3 & H4 & H5 & H6 & H7). apply (Hk2 fd j); try done.
    split; [done|]. split; [set_solver|done].
Qed.

Lemma runs_close {A} d (k : option Z -> UM W A) w Q :
  d ∈ fds w ->
  (forall r w', fds w' = fds w ∖ {[d]} ->
     (forall x, x ∈ fds w -> x <> d -> refers w' x = refers w x) -> runs (k r) w' Q) ->
  runs (let+ r := ucall (sys_close sys d) in k r) w Q.
Proof.
  intros Hd Hk. apply runs_ucall. destruct (sys_close sys d w) as [r w'] eqn:E. cbn.
  destruct (close_releases d w r w' Hd E). by apply Hk.
Qed.

(** Where the loop stands: at the root, or at one descriptor of its own. *)
Definition own (root cur : Z) : gset Z := if decide (cur = root) then ∅ else {[cur]}.
Definition at_directory (root cur : Z) (B : gset Z) w0 w : Prop := only B (own root cur) w0 w.

Lemma own_size root cur : size (own root cur) = if decide (cur = root) then O else 1%nat.
Proof.
  unfold own. destruct (decide (cur = root)); [apply size_empty|apply size_singleton].
Qed.

Lemma at_directory_fds root cur B w0 w :
  root ∈ B -> at_directory root cur B w0 w -> cur ∈ fds w /\ B ⊆ fds w.
Proof. intros Hroot (-> & _). unfold own. case_decide; subst; set_solver. Qed.

(** A failed call leaves things where they stand. *)
Lemma at_directory_fail root cur B w0 w w' :
  root ∈ B -> at_directory root cur B w0 w -> only (fds w) ∅ w w' ->
  at_directory root cur B w0 w'.
Proof.
  intros Hroot Hat (E & _ & Hr). pose proof (at_directory_fds _ _ _ _ _ Hroot Hat) as [_ HB].
  rewrite union_empty_l_L in E. destruct Hat as (Ew & Hd & Hw).
  split; [congruence|]. split; [done|]. intros x Hx. rewrite Hr by set_solver. auto.
Qed.

(** A new descriptor, while the current one stays open. *)
Lemma at_directory_open root cur B w0 w w' fd :
  root ∈ B -> at_directory root cur B w0 w -> only (fds w) {[fd]} w w' ->
  only B ({[fd]} ∪ own root cur) w0 w' /\ (fd ∉ own root cur) /\ fd <> root /\ fd <> cur.
Proof.
  intros Hroot Hat (E & Hd & Hr). pose proof (at_directory_fds _ _ _ _ _ Hroot Hat) as [Hc HB].
  destruct Hat as (Ew & Hd0 & Hw). split; [|set_solver].
  split; [rewrite E, Ew; set_solver|]. split; [set_solver|].
  intros x Hx. rewrite Hr by set_solver. auto.
Qed.

(** Going down: the old one is closed, unless it is the root. *)
Lemma at_directory_close root cur B w0 w w' fd :
  root ∈ B -> fd <> root -> fd <> cur -> only B ({[fd]} ∪ own root cur) w0 w ->
  cur <> root -> fds w' = fds w ∖ {[cur]} ->
  (forall x, x ∈ fds w -> x <> cur -> refers w' x = refers w x) ->
  at_directory root fd B w0 w' /\ refers w' fd = refers w fd.
Proof.
  intros Hroot Hfr Hfc (E & Hd & Hr) Hne E' Hr'. unfold at_directory, own in *.
  rewrite decide_False in E, Hd by done. rewrite decide_False by done.
  assert ((cur ∉ B) /\ (fd ∉ B)) as [Hcb Hfb] by (clear -Hd; set_solver).
  assert (fd ∈ fds w /\ B ⊆ fds w) as [Hfw HB] by (clear -E; set_solver).
  split; [|by apply Hr']. split; [|split; [clear -Hfb; set_solver|]].
  - rewrite E', E. clear -Hcb Hfc. set_solver.
  - intros x Hx. rewrite Hr'; [by apply Hr|by apply HB|by intros ->].
Qed.

(** What opening the directory at [names] below [i] gives and leaves open, from
    a world [w0] where [B] was open. *)
Definition descent_result (B : gset Z) w0 i (names : list str) (leaks : nat)
    (r : res Z) w : Prop :=
  match r with
  | Ok fd => exists j leaked, descend i names = Some j /\ refers w fd = Some j /\
      only B ({[fd]} ∪ leaked) w0 w /\ (fd ∉ leaked) /\ size leaked = leaks
  | Throw e => exists errno leaked, e = SystemError errno /\ only B leaked w0 w /\
      (size leaked <= leaks)%nat
  end.

(** The descriptors that a call from [cur] leaves open. *)
Definition leaks_from (root cur : Z) (names : list str) : nat :=
  if decide (cur = root /\ length names = 1%nat) then O else 1%nat.

Lemma own_leaks root cur n names : (size (own root cur) <= leaks_from root cur (n :: names))%nat.
Proof. rewrite own_size. unfold leaks_from. repeat case_decide; naive_solver lia. Qed.

Lemma own_leaks_last root cur n : size (own root cur) = leaks_from root cur [n].
Proof. rewrite own_size. unfold leaks_from. repeat case_decide; naive_solver. Qed.

Lemma openDirectory_loop_spec names fuel root cur B i w0 w :
  names <> [] -> Forall entry_name names -> (length names <= S fuel)%nat ->
  root ∈ B -> at_directory root cur B w0 w -> refers w cur = Some i ->
  runs (openDirectory_loop sys fuel root cur (join_path names)) w
    (descent_result B w0 i names (leaks_from root cur names)).
Proof.
  intros Hne Hn Hfuel Hroot. revert fuel cur i w Hfuel.
  induction Hn as [|n names Hn Hns IH]; [done|]. intros fuel cur i w Hfuel Hat Hr.
  destruct (at_directory_fds _ _ _ _ _ Hroot Hat) as [Hcur _].
  assert (next_subdir (join_path (n :: names))
          = Some (n, match names with [] => None | _ => Some (join_path names) end)) as En.
  { destruct names; [by apply next_subdir_last|by apply next_subdir_more]. }
  destruct fuel as [|fuel]; [destruct names; [|cbn in Hfuel; lia]|];
    cbn [openDirectory_loop]; unfold uvalue; rewrite En;
    (eapply runs_value; [reflexivity|]); cbn beta iota;
    (eapply (runs_openat cur n _ _ w i); [done|done|done|done|done| |]).
  1,3: intros errno w' Hw; exists errno, (own root cur); split; [done|];
    split; [by eapply at_directory_fail|apply own_leaks].
  all: intros fd j w' He Hs Hd Hw Hf;
    destruct (at_directory_open _ _ _ _ _ _ _ Hroot Hat Hw) as (Ho & Hfd & Hfr & Hfc).
  2: destruct names as [|m names].
  1,2: exists j, (own root cur); cbn [descend]; rewrite He, Hd, Hs by done;
    (split; [done|]); (split; [done|]); (split; [done|]); (split; [done|]);
    apply own_leaks_last.
  assert (descend i (n :: m :: names) = descend j (m :: names)) as Edesc.
  { cbn [descend]. by rewrite He, Hd, Hs. }
  assert (leaks_from root cur (n :: m :: names) = leaks_from root fd (m :: names)) as El.
  { unfold leaks_from. rewrite !decide_False by (cbn; naive_solver lia). done. }
  unfold descent_result. rewrite Edesc, El.
  assert (length (m :: names) <= S fuel)%nat as Hfuel' by (cbn in Hfuel |- *; lia).
  destruct (Z.eqb_spec cur root) as [->|Hne'].
  - apply runs_value with (a := None); [done|]. apply IH; [done|done| |done].
    unfold at_directory, own in *. rewrite decide_True in Ho by done.
    rewrite decide_False by done. by rewrite union_empty_r_L in Ho.
  - apply runs_close.
    { destruct Ho as (-> & _). unfold own. rewrite decide_False by done. clear. set_solver. }
    intros r w2 E2 Hr2.
    destruct (at_directory_close root cur B w0 w' w2 fd) as [Hat2 Hr2']; try done.
    apply IH; [done|done|done|]. by rewrite Hr2'.
Qed.

(** Opening a directory below the root, given by the names of the entries on
    the way and perhaps a final slash: what a successful call returns is a new
    descriptor of the directory reached entry by entry, every one of them a
    directory and none a symbolic link, and descriptors that were open are as
    they were.  One more descriptor is left open exactly when there is more than
    one entry on the way, and at most one when the call throws, which it does with
    a [std::system_error] only. *)
Theorem openDirectory_descends (root : Z) (names : list str) (trailing : bool)
    (w : W) (i : node tree) :
  names <> [] -> Forall entry_name names -> root ∈ fds w -> refers w root = Some i ->
  runs (openDirectoryInInputRoot sys root (join_path names ++ if trailing then L "/" else []))
    w (descent_result (fds w) w i names (pred (Nat.min 2 (length names)))).
Proof.
  intros Hne Hn Hroot Hr.
  set (path := join_path names ++ _).
  assert (path <> []) as Hp.
  { unfold path. destruct Hn as [|n names (Hn & _) _]; [done|].
    pose proof (join_path_nonempty n names Hn). by destruct (join_path (n :: names)). }
  assert (without_trailing_slash path = join_path names) as Ew.
  { unfold path, without_trailing_slash. destruct trailing.
    - unfold back. change (L "/") with [slash]. rewrite List.last_last. cbn.
      by rewrite removelast_last.
    - rewrite app_nil_r, join_path_back by done. done. }
  unfold openDirectoryInInputRoot. rewrite bool_decide_eq_false_2, Ew by done.
  replace (pred (Nat.min 2 (length names))) with (leaks_from root root names).
  - apply openDirectory_loop_spec; try done.
    + unfold path. rewrite length_app. pose proof (join_path_length names Hn). lia.
    + unfold at_directory, own. rewrite decide_True by done.
      split; [by rewrite union_empty_l_L|]. split; [set_solver|done].
  - unfold leaks_from. destruct names as [|n [|m names]]; [done| |].
    + by rewrite decide_True.
    + by rewrite decide_False by (cbn; lia).
Qed.

(** ** Files *)

Definition entry_result (B : gset Z) w0 i (dirs : list str) (name : str)
    (r : res Z) w : Prop :=
  match r with
  | Ok fd => exists d j leaked, descend i dirs = Some d /\ entry tree d name = Some j /\
      is_symlink tree j = false /\ refers w fd = Some j /\
      only B ({[fd]} ∪ leaked) w0 w /\ (fd ∉ leaked) /\
      size leaked = pred (Nat.min 2 (length dirs))
  | Throw e => exists errno leaked, e = SystemError errno /\ only B leaked w0 w /\
      (size leaked <= pred (Nat.min 2 (length dirs)))%nat
  end.

(** The file is opened in the directory behind [dfd]. *)
Lemma openFile_at root dfd dirs name i d leaked w0 w :
  entry_name name -> root ∈ fds w0 -> descend i dirs = Some d -> refers w dfd = Some d ->
  only (fds w0) (own root dfd ∪ leaked) w0 w -> (dfd ∉ leaked) ->
  size leaked = pred (Nat.min 2 (length dirs)) ->
  runs (let+ opened := ucall (sys_openat sys dfd (c_str name) file_flags) in
        let+ closed := if dfd =? root then uret None else ucall (sys_close sys dfd) in
        match opened with
        | inl errno =>
            uthrow (SystemError (match closed with Some errno => errno | None => errno end))
        | inr file_fd => uret file_fd
        end) w (entry_result (fds w0) w0 i dirs name).
Proof.
  intros Hn Hroot Hi Hr (Hw & Hd & Hrefs) Hdl Hsz.
  assert (dfd ∈ fds w /\ fds w0 ⊆ fds w /\ leaked ⊆ fds w) as (Hin & HB & Hlk).
  { rewrite Hw. clear -Hroot. unfold own. case_decide; subst; set_solver. }
  apply (runs_openat dfd name _ _ w d); [done|done|done|done|done| |].
  - intros errno w' (E & _ & Hr'). rewrite union_empty_l_L in E.
    destruct (Z.eqb_spec dfd root) as [->|Hne].
    + exists errno, leaked. split; [done|]. split; [|by rewrite Hsz].
      unfold own in *. rewrite decide_True, union_empty_l_L in Hw, Hd by done.
      split; [congruence|]. split; [done|]. intros x Hx. rewrite Hr' by auto. auto.
    + apply runs_close; [congruence|]. intros r w2 E2 Hr2. eexists _, leaked.
      split; [done|]. split; [|by rewrite Hsz]. unfold own in *.
      rewrite decide_False in Hw, Hd by done.
      assert (dfd ∉ fds w0) as Hdf by (clear -Hd; set_solver).
      split; [rewrite E2, E, Hw; clear -Hdl Hdf; set_solver|].
      split; [clear -Hd; set_solver|]. intros x Hx.
      rewrite Hr2, Hr'; auto; [rewrite E; auto|by intros ->].
  - intros fd j w' He Hs _ (E & Hfd & Hr') Hf.
    assert (fd ∉ fds w) as Hfw by (clear -Hfd; set_solver).
    assert (fd <> dfd) as Hfne by (intros ->; done).
    assert ((fd ∉ leaked) /\ (fd ∉ fds w0)) as [Hfl Hf0] by (clear -Hfw HB Hlk; set_solver).
    destruct (Z.eqb_spec dfd root) as [->|Hne].
    + exists d, j, leaked. do 4 (split; [done|]). unfold own in *.
      rewrite decide_True, union_empty_l_L in Hw, Hd by done.
      split; [|done]. split; [rewrite E, Hw; clear; set_solver|].
      split; [clear -Hf0 Hd; set_solver|]. intros x Hx. rewrite Hr' by auto. auto.
    + apply runs_close; [rewrite E; clear -Hin; set_solver|]. intros r w2 E2 Hr2.
      exists d, j, leaked. do 3 (split; [done|]). unfold own in *.
      rewrite decide_False in Hw, Hd by done.
      assert (dfd ∉ fds w0) as Hdf by (clear -Hd; set_solver).
      split; [rewrite Hr2; [done|rewrite E; clear; set_solver|done]|].
      split; [|done]. split; [rewrite E2, E, Hw; clear -Hdl Hdf Hfne; set_solver|].
      split; [clear -Hf0 Hd; set_solver|]. intros x Hx.
      rewrite Hr2, Hr'; auto; [rewrite E; clear -HB Hx; set_solver|by intros ->].
Qed.

(** Opening a file below the root: what a successful call returns is a new
    descriptor of the entry named last, found in the directory reached entry by
    entry; nothing on the way and not the file itself is a symbolic link. *)
Theorem openFile_descends (root : Z) (dirs : list str) (name : str) (w : W) (i : node tree) :
  Forall entry_name dirs -> entry_name name -> root ∈ fds w -> refers w root = Some i ->
  runs (openFileInInputRoot sys root (join_path (dirs ++ [name]))) w
    (entry_result (fds w) w i dirs name).
Proof.
  intros Hds Hn Hroot Hr. unfold openFileInInputRoot.
  destruct dirs as [|d dirs].
  - cbn [app join_path]. rewrite rsplit_slash_name by apply Hn.
    eapply runs_value; [reflexivity|]. cbn beta iota.
    apply openFile_at with (d := i) (leaked := ∅); try done.
    unfold own. rewrite decide_True by done.
    rewrite union_empty_l_L. split; [by rewrite union_empty_l_L|].
    split; [apply disjoint_empty_l|done].
  - rewrite join_path_snoc, rsplit_slash_cut by (done || apply Hn).
    set (opened := descent_result (fds w) w i (d :: dirs) (pred (Nat.min 2 (length (d :: dirs))))).
    apply runs_bind with (R := fun r w' =>
      match r with
      | Ok (fd, f) => f = name /\ opened (Ok fd) w'
      | Throw e => opened (Throw e) w'
      end).
    + apply runs_bind with (R := opened).
      * pose proof (openDirectory_descends root (d :: dirs) false w i) as H.
        rewrite app_nil_r in H. by apply H.
      * done.
      * done.
    + intros [fd f] w' [-> (j & leaked & Hj & Hfd & Ho & Hl & Hsz)].
      apply openFile_at with (d := j) (leaked := leaked); try done.
      unfold own. rewrite decide_False; [done|]. intros ->.
      destruct Ho as (_ & Hd & _). clear -Hd Hroot. set_solver.
    + intros e w' (errno & leaked & -> & Ho & Hsz). by exists errno, leaked.
Qed.

(** Closing a descriptor that was just opened. *)
Lemma runs_close_new {A} fd leaked w0 w1 (a : A) Q :
  only (fds w0) ({[fd]} ∪ leaked) w0 w1 -> (fd ∉ leaked) ->
  (forall w2, only (fds w0) leaked w0 w2 -> Q (Ok a) w2) ->
  runs (let+ _ := ucall (sys_close sys fd) in uret a) w1 Q.
Proof.
  intros (E & Hd & Hr) Hl HQ. assert (fd ∉ fds w0) as Hf by (clear -Hd; set_solver).
  apply runs_close; [rewrite E; clear; set_solver|]. intros r w2 E2 Hr2. apply runs_ret.
  apply HQ. split; [rewrite E2, E; clear -Hl Hf; set_solver|].
  split; [clear -Hd; set_solver|]. intros x Hx.
  rewrite Hr2; [by apply Hr|rewrite E; clear -Hx; set_solver|by intros ->].
Qed.

(** C19. [fileInInputRoot] and [directoryInInputRoot] say yes only for an entry that
    is reached without following a symbolic link; they never throw, and leave
    what was open as it was, but for at most one more descriptor. *)
Theorem in_input_root_descends (root : Z) (dirs : list str) (name : str) (w : W)
    (i : node tree) :
  Forall entry_name dirs -> entry_name name -> root ∈ fds w -> refers w root = Some i ->
  let leaks leaked := (size leaked <= 1)%nat in
  runs (fileInInputRoot sys root (join_path (dirs ++ [name]))) w (fun r w' =>
    exists found leaked, r = Ok found /\ only (fds w) leaked w w' /\ leaks leaked /\
      (found = true -> exists d j, descend i dirs = Some d /\ entry tree d name = Some j /\
                                    is_symlink tree j = false)) /\
  runs (directoryInInputRoot sys root (join_path (dirs ++ [name]))) w (fun r w' =>
    exists found leaked, r = Ok found /\ only (fds w) leaked w w' /\ leaks leaked /\
      (found = true -> is_Some (descend i (dirs ++ [name])))).
Proof.
  intros Hds Hn Hroot Hr leaks. split.
  - apply runs_catch. eapply runs_bind; [by apply openFile_descends| |].
    + intros fd w1 (d & j & leaked & Hd & Hj & Hs & Hf & Ho & Hl & Hsz).
      apply (runs_close_new fd leaked w w1); [done|done|]. intros w2 Ho2.
      exists true, leaked. do 2 (split; [done|]). split; [unfold leaks; lia|]. intros _. by exists d, j.
    + intros e w1 (errno & leaked & -> & Ho & Hsz). cbn.
      exists false, leaked. do 2 (split; [done|]). split; [unfold leaks; lia|done].
  - unfold directoryInInputRoot. rewrite bool_decide_eq_false_2.
    2: { pose proof (join_path_nonempty name [] (proj1 Hn)) as H1. destruct dirs as [|d dirs]; [done|].
         apply join_path_nonempty. by apply Forall_cons_1 in Hds as [[? _] _]. }
    apply runs_catch. eapply runs_bind.
    + pose proof (openDirectory_descends root (dirs ++ [name]) false w i) as H.
      rewrite app_nil_r in H. apply H; [by destruct dirs|apply Forall_app; split; [done|by constructor]|done|done].
    + intros fd w1 (j & leaked & Hj & Hf & Ho & Hl & Hsz).
      apply (runs_close_new fd leaked w w1); [done|done|]. intros w2 Ho2.
      exists true, leaked. do 2 (split; [done|]). split; [unfold leaks; lia|]. intros _. by eexists.
    + intros e w1 (errno & leaked & -> & Ho & Hsz). cbn.
      exists false, leaked. do 2 (split; [done|]). split; [unfold leaks; lia|done].
Qed.
End descent.

(** ** A small file system *)

(** Directories 0, 1 and 3, a link 2 and a file 4: [a/b], [a/f] and [link]. *)
Definition toy_entry (i : nat) (name : str) : option nat :=
  match i with
  | O => if decide (name = L "a") then Some 1%nat
         else if decide (name = L "link") then Some 2%nat else None
  | 1%nat => if decide (name = L "b") then Some 3%nat
             else if decide (name = L "f") then Some 4%nat else None
  | _ => None
  end.

Definition toy_tree : FileTree :=
  MkFileTree nat toy_entry (fun i => bool_decide (i ∈ [0%nat; 1%nat; 3%nat])) (Nat.eqb 2).

Definition toy_openat (d : Z) (name : str) (flags : OpenFlags) (w : gmap Z nat)
  : outcome_of Z * gmap Z nat :=
  match w !! d with
  | None => (inl EBADF, w)
  | Some i =>
      match toy_entry i name with
      | None => (inl ENOENT, w)
      | Some j =>
          if O_NOFOLLOW flags && is_symlink toy_tree j then (inl ELOOP, w)
          else if O_DIRECTORY flags && negb (is_dir toy_tree j) then (inl ENOTDIR, w)
          else let fd := fresh (dom w) in (inr fd, <[fd := j]> w)
      end
  end.

Definition toy_descriptors : Descriptors (gmap Z nat) :=
  MkDescriptors _ toy_openat (fun d w => (None, delete d w)).

Definition toy_refers (w : gmap Z nat) (fd : Z) : option nat := w !! fd.

#[global] Instance toy_descriptor_laws : DescriptorLaws toy_descriptors toy_tree.
Proof.
  refine (Build_DescriptorLaws _ toy_descriptors toy_tree (fun w => dom w) toy_refers _ _);
    unfold toy_refers.
  - intros d name flags w i r w' Hn Hf Hc Hd Hr.
    change (sys_openat toy_descriptors d name flags w) with (toy_openat d name flags w).
    unfold toy_openat. rewrite Hr, Hf. cbn [andb].
    destruct (toy_entry i name) as [j|] eqn:Ej; [|by intros [= <- <-]].
    destruct (is_symlink toy_tree j) eqn:Es; [by intros [= <- <-]|].
    destruct (O_DIRECTORY flags && negb (is_dir toy_tree j)) eqn:Ed; [by intros [= <- <-]|].
    intros [= <- <-]. exists j. pose proof (is_fresh (dom w)) as Hfresh.
    split; [done|]. split; [done|]. split.
    { intros Hdir. rewrite Hdir in Ed. by destruct (is_dir toy_tree j). }
    split; [done|]. split; [apply dom_insert_L|]. split; [apply lookup_insert_eq|].
    intros x Hx. apply lookup_insert_ne. by intros <-.
  - intros d w r w' Hd [= _ <-]. split; [apply dom_delete_L|].
    intros x _ Hx. by apply lookup_delete_ne.
Defined.

Definition toy_root : gmap Z nat := {[3 := 0%nat]}.

Ltac closed := by apply (bool_decide_unpack _); vm_compute.

Lemma entry_name_lit name :
  bool_decide (name <> [] /\ ("/"%char ∉ name) /\ (zero ∉ name) /\ name <> L "." /\ name <> L "..")
  = true -> entry_name name.
Proof. intros H. by apply bool_decide_eq_true in H. Qed.

Lemma openDirectory_descends_witness :
  runs (openDirectoryInInputRoot toy_descriptors 3 (L "a/b/")) toy_root
    (descent_result toy_descriptors toy_tree (fds toy_root) toy_root 0%nat [L "a"; L "b"] 1).
Proof.
  apply (openDirectory_descends toy_descriptors toy_tree 3 [L "a"; L "b"] true toy_root 0%nat).
  - discriminate.
  - repeat constructor; closed.
  - closed.
  - reflexivity.
Defined.

Lemma in_input_root_descends_witness :
  runs (fileInInputRoot toy_descriptors 3 (L "a/f")) toy_root (fun r w' =>
    exists found leaked, r = Ok found /\
      only toy_descriptors toy_tree (fds toy_root) leaked toy_root w' /\ (size leaked <= 1)%nat /\
      (found = true -> exists d j, descend toy_tree 0%nat [L "a"] = Some d /\
         entry toy_tree d (L "f") = Some j /\ is_symlink toy_tree j = false)).
Proof.
  apply (in_input_root_descends toy_descriptors toy_tree 3 [L "a"] (L "f") toy_root 0%nat).
  - repeat constructor; closed.
  - repeat constructor; closed.
  - closed.
  - reflexivity.
Defined.

(** The descriptor of [a] is left open after [a/b] was opened. *)
Example a_descriptor_is_lost :
  option_map (fun '(r, w) => (r, map_to_list w))
    (openDirectoryInInputRoot toy_descriptors 3 (L "a/b") toy_root)
  = Some (Ok 5, [(5, 3%nat); (3, 0%nat); (4, 1%nat)]).
Proof. vm_compute. reflexivity. Qed.

(** A kernel that opens everything and remembers what it was asked. *)
Definition recording : Descriptors (list (Z * str)) :=
  MkDescriptors _ (fun d name _ w => (inr (Z.of_nat (length w) + 10), w ++ [(d, name)]))
    (fun _ w => (None, w)).

(** A path that is not normalized is not opened entry by entry: after a doubled
    slash the kernel is given an absolute path, and [..] leads upwards. *)
Example absolute_after_doubled_slash :
  openDirectoryInInputRoot recording 3 (L "a//etc/b") []
  = Some (Ok 12, [(3, L "a"); (10, L "/etc"); (11, L "b")]) /\
  openDirectoryInInputRoot recording 3 (L "../b") [] = Some (Ok 11, [(3, L ".."); (10, L "b")]) /\
  openDirectoryInInputRoot recording 3 (L "a//") [] = None.
Proof. vm_compute. done. Qed.
