(* ===== verification/RelativePath.v ===== *)
(** * Paths relative to a working directory

    [FileUtils::makePathRelative] ([buildboxcommon_fileutils.cpp]), with its indices
    into both strings.  [None] is a read past the terminating zero. *)

From S2P Require Import Prelude StdMap Grpc Paths.

(** [s\[i\]]: the zero at the end may be read. *)
Definition char_at (s : str) (i : nat) : option ascii :=
  if (i =? length s)%nat then Some zero else nth_error s i.

(** How the comparison of the two strings ends: with the result, or with
    [pathIndex] and [lastMatchingSegmentEnd]. *)
Inductive comparison_end :=
  | Result (r : str)
  | Mismatch (pathIndex lastMatchingSegmentEnd : nat).

(** [nextPathIndex] is one more than [pathIndex] throughout.  The loop ends within
    the length of the path. *)
Fixpoint compare_loop (fuel : nat) (path cwd : str) (pathIndex lastMatchingSegmentEnd : nat)
  : option comparison_end :=
  let nextPathIndex := S pathIndex in
  match fuel with
  | O => Some (Mismatch pathIndex lastMatchingSegmentEnd)
  | S fuel =>
      if (pathIndex <? length path)%nat then
        match char_at path pathIndex, char_at cwd pathIndex with
        | Some c, Some d =>
            if bool_decide (c = d) then
              if (nextPathIndex =? length cwd)%nat then
                if (length path =? nextPathIndex)%nat then
                  Some (Result (if is_slash c then L "./" else L "."))
                else
                  match char_at path nextPathIndex with
                  | None => None
                  | Some next =>
                      if (length path =? pathIndex + 2)%nat && is_slash next then
                        Some (Result (L "./"))
                      else if is_slash c then Some (Result (skipn nextPathIndex path))
                      else if is_slash next then Some (Result (skipn (pathIndex + 2) path))
                      else compare_loop fuel path cwd nextPathIndex lastMatchingSegmentEnd
                  end
              else
                compare_loop fuel path cwd nextPathIndex
                  (if is_slash c then pathIndex else lastMatchingSegmentEnd)
            else Some (Mismatch pathIndex lastMatchingSegmentEnd)
        | _, _ => None
        end
      else Some (Mismatch pathIndex lastMatchingSegmentEnd)
  end.

(** The second loop: one more for each slash of the rest that does not end it. *)
Fixpoint count_loop (fuel : nat) (cwd : str) (pathIndex dotdotsNeeded : nat) : option nat :=
  match fuel with
  | O => Some dotdotsNeeded
  | S fuel =>
      if (pathIndex <? length cwd)%nat then
        match char_at cwd pathIndex, char_at cwd (S pathIndex) with
        | Some c, Some d =>
            count_loop fuel cwd (S pathIndex)
              (if is_slash c && negb (bool_decide (d = zero)) then S dotdotsNeeded
               else dotdotsNeeded)
        | _, _ => None
        end
      else Some dotdotsNeeded
  end.

(** [replace] and the loop that writes the separators. *)
Definition prepend_dotdots (path : str) (lastMatchingSegmentEnd dotdotsNeeded : nat) : str :=
  let result := repeat "."%char (dotdotsNeeded * 3 - 1) ++ skipn lastMatchingSegmentEnd path in
  foldl (fun (result : str) j => <[(j * 3 + 2)%nat := slash]> result) result
    (seq 0 (dotdotsNeeded - 1)).

Definition makePathRelative (path cwd : str) : option (res str) :=
  if bool_decide (cwd = []) || bool_decide (path = []) || negb (is_slash (front path)) then
    Some (Ok path)
  else if negb (is_slash (front cwd)) then Some (Throw RuntimeError)
  else
    match compare_loop (length path) path cwd 0 0 with
    | None => None
    | Some (Result r) => Some (Ok r)
    | Some (Mismatch pathIndex lastMatchingSegmentEnd) =>
        let finish pathIndex lastMatchingSegmentEnd :=
          match count_loop (length cwd) cwd pathIndex 1 with
          | Some dotdotsNeeded =>
              Some (Ok (prepend_dotdots path lastMatchingSegmentEnd dotdotsNeeded))
          | None => None
          end in
        if (pathIndex =? length path)%nat then
          match char_at cwd pathIndex with
          | None => None
          | Some c =>
              if is_slash c then
                if (S pathIndex =? length cwd)%nat then Some (Ok (L "."))
                else finish (S pathIndex) pathIndex
              else finish pathIndex lastMatchingSegmentEnd
          end
        else finish pathIndex lastMatchingSegmentEnd
    end.
