(* ===== verification/RelativePathSpec.v ===== *)
(** * Relative paths lead back

    [makePathRelative] reads inside its strings, and [makePathAbsolute] undoes it. *)

From S2P Require Import Prelude StdMap Arrays Blake3Compress Digest TimeUtils Grpc Merklize MerklizeSpec Merge MergeSpec Client ClientBlobs Paths PathsSpec Undefined Posix FileUtils FileUtilsSpec StagedDirectory FileDescentSpec RelativePath.

(** ** The loops, on what is left of the strings *)

Fixpoint compare (n last : nat) (xs ys : str) : comparison_end :=
  match xs, ys with
  | c :: xs, d :: ys =>
      if bool_decide (c = d) then
        match ys with
        | [] =>
            match xs with
            | [] => Result (if is_slash c then L "./" else L ".")
            | e :: xs' =>
                if bool_decide (xs' = []) && is_slash e then Result (L "./")
                else if is_slash c then Result xs
                else if is_slash e then Result xs'
                else Mismatch (S n) last
            end
        | _ :: _ => compare (S n) (if is_slash c then n else last) xs ys
        end
      else Mismatch n last
  | _, _ => Mismatch n last
  end.

Fixpoint inner_slashes (ys : str) : nat :=
  match ys with
  | [] => 0
  | c :: ys => (if is_slash c && negb (bool_decide (ys = [])) then 1 else 0) + inner_slashes ys
  end.

Lemma char_at_app pre xs :
  char_at (pre ++ xs) (length pre) = Some (match xs with [] => zero | c :: _ => c end).
Proof.
  unfold char_at. rewrite length_app. destruct xs as [|c xs].
  - by rewrite Nat.add_0_r, Nat.eqb_refl.
  - replace (length pre =? length pre + length (c :: xs))%nat with false
      by (symmetry; apply Nat.eqb_neq; cbn; lia).
    rewrite List.nth_error_app2, Nat.sub_diag by lia. done.
Qed.

Lemma char_at_next pre c xs :
  char_at (pre ++ c :: xs) (S (length pre)) = Some (match xs with [] => zero | d :: _ => d end).
Proof.
  pose proof (char_at_app (pre ++ [c]) xs) as H. rewrite length_app, <- app_assoc in H. cbn in H.
  by rewrite Nat.add_1_r in H.
Qed.

Lemma skipn_next {A} (pre : list A) c xs : skipn (S (length pre)) (pre ++ c :: xs) = xs.
Proof.
  rewrite List.skipn_app. rewrite List.skipn_all2 by lia.
  replace (S (length pre) - length pre)%nat with 1%nat by lia. done.
Qed.

Lemma compare_loop_spec fuel pre pre' xs ys last :
  length pre' = length pre -> no_nul xs -> (length xs <= fuel)%nat ->
  compare_loop fuel (pre ++ xs) (pre' ++ ys) (length pre) last
  = Some (compare (length pre) last xs ys).
Proof.
  revert fuel pre pre' ys last. induction xs as [|c xs IH]; intros fuel pre pre' ys last Hpre Hz Hfuel.
  - destruct fuel; [done|]. cbn [compare_loop compare]. rewrite app_nil_r.
    by replace (length pre <? length pre)%nat with false by (symmetry; apply Nat.ltb_irrefl).
  - destruct fuel as [|fuel]; [cbn in Hfuel; lia|]. cbn [length] in Hfuel.
    apply not_elem_of_cons in Hz as [Hc Hz]. cbn [compare_loop].
    replace (length pre <? length (pre ++ c :: xs))%nat with true
      by (symmetry; apply Nat.ltb_lt; rewrite length_app; cbn; lia).
    assert (char_at (pre' ++ ys) (length pre) = Some (match ys with [] => zero | d :: _ => d end)) as ->
      by (rewrite <- Hpre; apply char_at_app).
    rewrite char_at_app.
    destruct ys as [|d ys]; cbn [compare]; [by rewrite bool_decide_eq_false_2|].
    destruct (bool_decide (c = d)) eqn:Ecd; [|done].
    assert (forall last', compare_loop fuel (pre ++ c :: xs) (pre' ++ d :: ys) (S (length pre)) last'
              = Some (compare (S (length pre)) last' xs ys)) as Hrec.
    { intros last'. specialize (IH fuel (pre ++ [c]) (pre' ++ [d]) ys last').
      rewrite !length_app, <- !app_assoc in IH. cbn [length app] in IH.
      rewrite !Nat.add_1_r in IH. apply IH; [lia|done|lia]. }
    destruct ys as [|d' ys].
    + assert ((S (length pre) =? length (pre' ++ [d]))%nat = true) as ->
        by (apply Nat.eqb_eq; rewrite length_app; cbn; lia).
      destruct xs as [|e xs].
      * assert ((length (pre ++ [c]) =? S (length pre))%nat = true) as ->
          by (apply Nat.eqb_eq; rewrite length_app; cbn; lia).
        done.
      * assert ((length (pre ++ c :: e :: xs) =? S (length pre))%nat = false) as ->
          by (apply Nat.eqb_neq; rewrite length_app; cbn; lia).
        rewrite char_at_next, skipn_next.
        assert ((length (pre ++ c :: e :: xs) =? length pre + 2)%nat = bool_decide (xs = [])) as ->.
        { rewrite length_app. destruct xs; [rewrite bool_decide_eq_true_2 by done; apply Nat.eqb_eq; cbn; lia|].
          rewrite bool_decide_eq_false_2 by done. apply Nat.eqb_neq. cbn. lia. }
        assert (skipn (length pre + 2) (pre ++ c :: e :: xs) = xs) as ->.
        { pose proof (skipn_next (pre ++ [c]) e xs) as H. rewrite length_app, <- app_assoc in H.
          cbn in H. by replace (length pre + 2)%nat with (S (length pre + 1)) by lia. }
        rewrite Hrec. destruct (bool_decide (xs = []) && is_slash e); [done|].
        destruct (is_slash c); [done|]. by destruct (is_slash e).
    + assert ((S (length pre) =? length (pre' ++ d :: d' :: ys))%nat = false) as ->
        by (apply Nat.eqb_neq; rewrite length_app; cbn; lia).
      apply Hrec.
Qed.

Lemma count_loop_spec fuel pre ys n :
  no_nul ys -> (length ys <= fuel)%nat ->
  count_loop fuel (pre ++ ys) (length pre) n = Some (n + inner_slashes ys)%nat.
Proof.
  revert fuel pre n. induction ys as [|c ys IH]; intros fuel pre n Hz Hfuel.
  - destruct fuel; cbn [count_loop inner_slashes]; [by rewrite Nat.add_0_r|].
    rewrite app_nil_r, Nat.ltb_irrefl.
    by rewrite Nat.add_0_r.
  - destruct fuel as [|fuel]; [cbn in Hfuel; lia|]. cbn [length] in Hfuel. cbn [count_loop].
    apply not_elem_of_cons in Hz as [Hc Hz].
    replace (length pre <? length (pre ++ c :: ys))%nat with true
      by (symmetry; apply Nat.ltb_lt; rewrite length_app; cbn; lia).
    rewrite char_at_app, char_at_next. pose proof (IH fuel (pre ++ [c])) as IH'.
    rewrite length_app, <- app_assoc in IH'. cbn [length app] in IH'. rewrite Nat.add_1_r in IH'.
    rewrite IH' by (done || lia). f_equal. cbn [inner_slashes].
    assert (bool_decide (match ys with [] => zero | d :: _ => d end = zero) = bool_decide (ys = [])) as ->.
    { destruct ys as [|d ys]; [done|]. apply not_elem_of_cons in Hz as [Hd _].
      by rewrite !bool_decide_eq_false_2. }
    destruct (_ && _); lia.
Qed.

(** ** The common prefix *)

Definition diverge (x y : str) : Prop :=
  match x, y with c :: _, d :: _ => c <> d | _, _ => True end.

Lemma common_prefix (s t : str) : exists a x y, s = a ++ x /\ t = a ++ y /\ diverge x y.
Proof.
  revert t. induction s as [|c s IH]; intros t; [by exists [], [], t|].
  destruct t as [|d t]; [by exists [], (c :: s), []|].
  destruct (decide (c = d)) as [->|Hcd]; [|by exists [], (c :: s), (d :: t)].
  destruct (IH t) as (a & x & y & -> & -> & H). by exists (d :: a), x, y.
Qed.

Fixpoint last_slash (n last : nat) (a : str) : nat :=
  match a with
  | [] => last
  | c :: a => last_slash (S n) (if is_slash c then n else last) a
  end.

Lemma compare_step n last c xs ys :
  ys <> [] ->
  compare n last (c :: xs) (c :: ys) = compare (S n) (if is_slash c then n else last) xs ys.
Proof. intros Hy. cbn [compare]. rewrite bool_decide_eq_true_2 by done. by destruct ys. Qed.

Lemma compare_diverge a n last x y :
  y <> [] -> diverge x y ->
  compare n last (a ++ x) (a ++ y) = Mismatch (n + length a) (last_slash n last a).
Proof.
  intros Hy Hd. revert n last. induction a as [|c a IH]; intros n last.
  - cbn [app length last_slash]. rewrite Nat.add_0_r. destruct x as [|c x], y as [|d y]; try done.
    cbn [compare]. by rewrite bool_decide_eq_false_2.
  - cbn [app length last_slash]. rewrite compare_step, IH, Nat.add_succ_r; [done|].
    intros E. by apply app_eq_nil in E as [_ ->].
Qed.

Lemma compare_whole a c n last x :
  compare n last (a ++ c :: x) (a ++ [c]) =
  compare (n + length a) (last_slash n last a) (c :: x) [c].
Proof.
  revert n last. induction a as [|d a IH]; intros n last.
  - cbn [app length last_slash]. by rewrite Nat.add_0_r.
  - change ((d :: a) ++ c :: x) with (d :: (a ++ c :: x)).
    change ((d :: a) ++ [c]) with (d :: (a ++ [c])). cbn [length last_slash].
    rewrite compare_step, IH, Nat.add_succ_r; [done|]. intros E. by apply app_eq_nil in E as [_ ?].
Qed.

Lemma last_slash_name n last a : ("/"%char ∉ a) -> last_slash n last a = last.
Proof.
  revert n. induction a as [|c a IH]; intros n Ha; [done|]. apply not_elem_of_cons in Ha as [Hc Ha].
  cbn. unfold is_slash, slash. rewrite bool_decide_eq_false_2 by congruence. by apply IH.
Qed.

Lemma last_slash_cut n last a b :
  ("/"%char ∉ b) -> last_slash n last (a ++ L "/" ++ b) = (n + length a)%nat.
Proof.
  intros Hb. revert n last. induction a as [|c a IH]; intros n last.
  - change (last_slash (S n) (if is_slash slash then n else last) b = (n + 0)%nat).
    rewrite last_slash_name by done. unfold is_slash. by rewrite bool_decide_eq_true_2, Nat.add_0_r.
  - cbn [app last_slash length]. rewrite IH. lia.
Qed.

Lemma at_last_slash a : "/"%char ∈ a -> exists b c, a = b ++ L "/" ++ c /\ ("/"%char ∉ c).
Proof.
  intros Ha. induction a as [|d a IH]; [by apply elem_of_nil in Ha|].
  destruct (decide ("/"%char ∈ a)) as [H|H].
  - destruct (IH H) as (b & c & -> & Hc). by exists (d :: b), c.
  - apply elem_of_cons in Ha as [<-|]; [|done]. by exists [], a.
Qed.

(** ** Paths as segments after slashes *)

Definition slashed (names : list str) : str := concat (map (fun n => L "/" ++ n) names).

Lemma slashed_app a b : slashed (a ++ b) = slashed a ++ slashed b.
Proof. unfold slashed. by rewrite map_app, concat_app. Qed.

Lemma slashed_join n names : slashed (n :: names) = L "/" ++ join_path (n :: names).
Proof.
  revert n. induction names as [|m names IH]; intros n; [by cbn; rewrite app_nil_r|].
  change (slashed (n :: m :: names)) with (L "/" ++ n ++ slashed (m :: names)).
  rewrite IH. done.
Qed.

(** A name before a slash. *)
Lemma name_before_slash n a rest w :
  ("/"%char ∉ n) -> n ++ rest = a ++ L "/" ++ w -> exists b, a = n ++ b /\ rest = b ++ L "/" ++ w.
Proof.
  revert a. induction n as [|c n IH]; intros a Hn E; [by exists a|].
  apply not_elem_of_cons in Hn as [Hc Hn]. destruct a as [|d a]; [injection E as E1 E2; congruence|].
  injection E as <- E. destruct (IH a Hn E) as (b & -> & ->). by exists b.
Qed.

(** What may end a path. *)
Definition ending (u : str) : Prop := u = [] \/ u = L "/".

Lemma cut_slashed names u a w :
  Forall entry_name names -> ending u -> slashed names ++ u = a ++ L "/" ++ w ->
  exists k c, names = k ++ c /\ a = slashed k /\ L "/" ++ w = slashed c ++ u.
Proof.
  intros Hn Hu. revert a. induction Hn as [|n names (_ & Hs & _) Hn IH]; intros a E.
  - exists [], []. cbn in E |- *. split; [done|]. destruct Hu as [->| ->].
    + by destruct a.
    + destruct a as [|c a]; [done|]. injection E as _ E. by destruct a.
  - change (slashed (n :: names)) with (L "/" ++ n ++ slashed names) in E.
    destruct a as [|c a].
    + exists [], (n :: names). split; [done|]. split; [done|]. symmetry. exact E.
    + cbn in E. injection E as <- E. rewrite <- app_assoc in E.
      destruct (name_before_slash _ _ _ _ Hs E) as (b & -> & E').
      destruct (IH b E') as (k & c & -> & -> & Ec). exists (n :: k), c. by split.
Qed.

(** The inner slashes of a path are one less than its segments. *)
Lemma inner_slashes_name n y :
  ("/"%char ∉ n) -> inner_slashes (n ++ y) = inner_slashes y.
Proof.
  induction n as [|c n IH]; intros Hn; [done|]. apply not_elem_of_cons in Hn as [Hc Hn].
  cbn. unfold is_slash, slash. rewrite bool_decide_eq_false_2 by congruence. by rewrite IH.
Qed.

Lemma inner_slashes_count w c u :
  Forall entry_name c -> ending u -> c <> [] -> L "/" ++ w = slashed c ++ u ->
  S (inner_slashes w) = length c.
Proof.
  intros Hc Hu Hne E. revert w E. induction Hc as [|n c (Hn & Hs & _) Hc IH]; intros w E; [done|].
  change (slashed (n :: c)) with (L "/" ++ n ++ slashed c) in E. injection E as ->.
  rewrite <- app_assoc, inner_slashes_name by done. cbn [length]. f_equal.
  destruct c as [|m c].
  - cbn. destruct Hu as [->| ->]; done.
  - change (slashed (m :: c)) with (L "/" ++ m ++ slashed c) in *.
    rewrite <- (IH ltac:(done) ((m ++ slashed c) ++ u) eq_refl). cbn [app lit String.list_ascii_of_string].
    cbn [inner_slashes]. inversion Hc as [|? ? (Hm & _) _]; subst. destruct m; done.
Qed.

Definition dotdots (n : nat) : str := join_path (replicate n dotdot).

Lemma entry_segment n : entry_name n -> segment_ok n /\ n <> dotdot.
Proof.
  intros (Hne & Hs & _ & Hd & Hdd). split; [|done]. split; [|done]. split; [done|].
  by apply split_slash_none, split_slash_name.
Qed.

Lemma entry_segments names : Forall entry_name names -> Forall (fun s => segment_ok s /\ s <> dotdot) names.
Proof. apply Forall_impl. apply entry_segment. Qed.

Lemma segments_of_name n : segment_ok n -> segments_of n = [n].
Proof.
  intros Hn. unfold segments_of. rewrite (segment_ok_piece n Hn : split_path n = [n]).
  by apply segments_of_keep; constructor.
Qed.

Lemma segments_slashed a names u :
  Forall entry_name names -> ending u -> segments_of (a ++ slashed names ++ u) = segments_of a ++ names.
Proof.
  intros Hn Hu. revert a. induction Hn as [|n names Hn Hns IH]; intros a.
  - cbn [slashed map concat app]. destruct Hu as [-> | ->]; [by rewrite !app_nil_r|].
    change (L "/") with (L "/" ++ []). by rewrite segments_of_slash.
  - change (slashed (n :: names)) with (L "/" ++ n ++ slashed names).
    rewrite <- !app_assoc, segments_of_slash, IH, (segments_of_name n) by apply entry_segment, Hn.
    done.
Qed.

Lemma segments_dotdots n : n <> O -> segments_of (dotdots n) = replicate n dotdot.
Proof.
  intros Hn. unfold dotdots. assert (Forall segment_ok (replicate n dotdot)) as H
    by apply Forall_replicate, valid_dotdot.
  unfold segments_of. rewrite split_join; [by apply segments_of_keep|by destruct n|].
  eapply Forall_impl; [|exact H]. apply segment_ok_piece.
Qed.

Lemma pop_dotdots global k c :
  Forall (fun s => segment_ok s /\ s <> dotdot) c ->
  foldl (add_segment global) (rev (k ++ c)) (replicate (length c) dotdot) = rev k.
Proof.
  intros Hc. rewrite <- (rev_involutive c) in Hc |- *. rewrite length_rev.
  apply Forall_rev in Hc. rewrite rev_involutive in Hc. rewrite rev_app_distr, rev_involutive.
  induction Hc as [|s l [_ Hs] Hl IH]; [done|]. cbn [length replicate foldl app].
  assert (add_segment global (s :: l ++ rev k) dotdot = l ++ rev k) as ->; [|done].
  cbn [add_segment]. rewrite bool_decide_eq_true_2 by done. by rewrite bool_decide_eq_false_2.
Qed.

(** ** Back to the path *)

Lemma back_slashed n names :
  Forall entry_name (n :: names) -> is_slash (back (slashed (n :: names))) = false.
Proof.
  intros Hn. rewrite slashed_join. pose proof (join_path_back (n :: names) ltac:(done) Hn) as H.
  destruct (join_path (n :: names)) as [|c l] eqn:E; [|by destruct l].
  by inversion Hn as [|? ? (Hne & _) _]; apply join_path_nonempty in E.
Qed.

Lemma back_slash s : is_slash (back (s ++ L "/")) = true.
Proof. unfold back. change (L "/") with [slash]. by rewrite List.last_last. Qed.

Lemma back_ending names v :
  names <> [] -> Forall entry_name names -> ending v ->
  is_slash (back (slashed names ++ v)) = bool_decide (v = L "/").
Proof.
  intros Hne Hn [-> | ->].
  - rewrite app_nil_r. destruct names; [done|]. by rewrite back_slashed.
  - apply back_slash.
Qed.

Lemma last_app_nonempty {A} (a b : list A) x : b <> [] -> List.last (a ++ b) x = List.last b x.
Proof.
  intros Hb. destruct (exists_last Hb) as (l & y & ->). by rewrite app_assoc, !List.last_last.
Qed.

Section back.
Context (c : list str) (u : str) (Hc : Forall entry_name c) (Hu : ending u).
Context (p : list str) (t : str) (Hp : Forall entry_name p) (Ht : ending t).
Let cwd : str := slashed c ++ u.
Let path : str := slashed p ++ t.
Context (Hcwd : cwd <> []) (Hpath : path <> []).

Lemma front_slashed names v : ending v -> slashed names ++ v <> [] -> is_slash (front (slashed names ++ v)) = true.
Proof. destruct names as [|n names]; [|done]. by intros [-> | ->]. Qed.

Lemma no_nul_slashed names v : Forall entry_name names -> ending v -> no_nul (slashed names ++ v).
Proof.
  intros Hn Hv. unfold no_nul. induction Hn as [|n names (_ & _ & Hz & _) Hns IH].
  - destruct Hv as [-> | ->]; cbn; [apply not_elem_of_nil|].
    by apply not_elem_of_cons; split; [|apply not_elem_of_nil].
  - change (slashed (n :: names) ++ v) with ("/"%char :: (n ++ slashed names) ++ v).
    rewrite <- app_assoc. apply not_elem_of_cons. split; [done|]. by apply not_elem_of_app.
Qed.

Lemma absolute_again r :
  is_slash (front r) = false -> no_nul r ->
  foldl (add_segment true) (rev c) (segments_of r) = rev p ->
  is_slash (back r) = bool_decide (t = L "/") ->
  makePathAbsolute r cwd = Ok path.
Proof.
  intros Hf Hz Hs Hb. unfold makePathAbsolute.
  pose proof (front_slashed c u Hu Hcwd) as Hfc. fold cwd in Hfc.
  rewrite bool_decide_eq_false_2, Hfc, Hf by done. cbn [orb negb].
  destruct (normalizePath_spec (cwd ++ L "/" ++ r)) as (segs & Hcan & _ & -> & Esegs).
  assert (no_nul (cwd ++ L "/" ++ r)) as Hn.
  { unfold no_nul. rewrite !not_elem_of_app. split; [by apply no_nul_slashed|]. split; [|done].
    by apply not_elem_of_cons; split; [|apply not_elem_of_nil]. }
  rewrite c_str_id in * by done.
  assert (is_absolute (cwd ++ L "/" ++ r) = true) as Ha.
  { unfold is_absolute. destruct cwd as [|x l]; [done|]. exact Hfc. }
  rewrite Ha in *. rewrite segments_of_slash, foldl_app in Esegs.
  pose proof (segments_slashed [] c u Hc Hu) as Ec. cbn [app] in Ec. fold cwd in Ec.
  change (segments_of []) with (@nil str) in Ec. cbn [app] in Ec.
  rewrite Ec, (push_names true c []), app_nil_r, Hs in Esegs by by apply entry_segments.
  subst segs. rewrite render_text by done. rewrite rev_involutive, Hb. unfold path in *.
  destruct p as [|n names].
  - destruct Ht as [-> | ->]; [done|]. reflexivity.
  - destruct (rev (n :: names)) as [|x l] eqn:E.
    { apply (f_equal (@length str)) in E. by rewrite length_rev in E. }
    change ((if true then L "/" else []) ++ join_path (n :: names)) with (L "/" ++ join_path (n :: names)).
    rewrite <- slashed_join, back_slashed by done. cbn [negb]. rewrite andb_true_r. f_equal.
    destruct Ht as [-> | ->]; [|done]. by rewrite app_nil_r.
Qed.

(** The result of an early return: what follows the working directory. *)
Lemma absolute_below q r :
  p = c ++ q -> q <> [] -> L "/" ++ r = slashed q ++ t -> makePathAbsolute r cwd = Ok path.
Proof.
  intros E Hq Er. assert (Forall entry_name q) as Hnq.
  { rewrite E in Hp. by apply List.Forall_app in Hp as [_ ?]. }
  pose proof (back_ending q t Hq Hnq Ht) as Hb. pose proof (no_nul_slashed q t Hnq Ht) as Hz.
  rewrite <- Er in Hb, Hz. destruct q as [|n q]; [done|].
  change (slashed (n :: q)) with (L "/" ++ n ++ slashed q) in Er. injection Er as Er.
  pose proof (List.Forall_inv Hnq) as Hn. pose proof (List.Forall_inv_tail Hnq) as Hqs.
  assert (r <> []) as Hr by (subst r; by destruct n; [destruct Hn|]).
  apply absolute_again.
  - destruct Hn as (Hne & Hs & _). subst r. destruct n as [|x n]; [done|]. cbn.
    apply not_elem_of_cons in Hs as [Hx _]. unfold is_slash, slash. apply bool_decide_eq_false_2. congruence.
  - by apply not_elem_of_cons in Hz as [_ ?].
  - subst r. rewrite <- app_assoc, segments_slashed, segments_of_name by (done || by apply entry_segment).
    cbn [app]. rewrite push_names by by apply entry_segments. by rewrite <- rev_app_distr, E.
  - rewrite <- Hb. by destruct r.
Qed.

(** The result with dots: up to the common part, then down. *)
Lemma absolute_up k up down :
  c = k ++ up -> p = k ++ down -> up <> [] ->
  makePathAbsolute (dotdots (length up) ++ slashed down ++ t) cwd = Ok path.
Proof.
  intros Ec Ep Hup. assert (Forall entry_name down) as Hd.
  { rewrite Ep in Hp. by apply List.Forall_app in Hp as [_ ?]. }
  assert (Forall entry_name up) as Hu'.
  { rewrite Ec in Hc. by apply List.Forall_app in Hc as [_ ?]. }
  assert (length up <> O) as Hlen by by destruct up.
  apply absolute_again.
  - unfold dotdots. destruct (length up) as [|[|m]]; done.
  - unfold no_nul. apply not_elem_of_app. split; [|by apply no_nul_slashed].
    clear. unfold dotdots. induction (length up) as [|[|m] IH]; [apply not_elem_of_nil| |].
    + repeat (apply not_elem_of_cons; split; [done|]). apply not_elem_of_nil.
    + change (join_path (replicate (S (S m)) dotdot)) with (L "../" ++ join_path (replicate (S m) dotdot)).
      repeat (apply not_elem_of_cons; split; [done|]). exact IH.
  - rewrite segments_slashed, segments_dotdots, foldl_app, Ec by done.
    rewrite pop_dotdots by by apply entry_segments.
    rewrite push_names by by apply entry_segments. by rewrite <- rev_app_distr, Ep.
  - destruct down as [|n down].
    + cbn [slashed map concat app]. destruct Ht as [-> | ->].
      * rewrite app_nil_r. clear -Hlen. unfold dotdots.
        induction (length up) as [|[|m] IH]; [done|done|].
        change (join_path (replicate (S (S m)) dotdot)) with (L "../" ++ join_path (replicate (S m) dotdot)).
        rewrite <- (IH ltac:(done)). by destruct m.
      * apply back_slash.
    + rewrite <- (back_ending (n :: down) t) by done. unfold back.
      by rewrite (last_app_nonempty _ (slashed (n :: down) ++ t)).
Qed.
End back.

(** ** The dots *)

Lemma write_slashes m : forall pre rest j,
  length pre = (3 * j)%nat ->
  foldl (fun (result : str) j => <[(j * 3 + 2)%nat := slash]> result)
    (pre ++ repeat "."%char (S m * 3 - 1) ++ rest) (seq j m)
  = pre ++ dotdots (S m) ++ rest.
Proof.
  induction m as [|m IH]; intros pre rest j Hj; [done|].
  cbn [seq foldl]. replace (S (S m) * 3 - 1)%nat with (3 + (S m * 3 - 1))%nat by lia.
  cbn [repeat Nat.add app].
  replace (j * 3 + 2)%nat with (length pre + 2)%nat by lia. rewrite insert_app_r. cbn [insert list_insert].
  change (pre ++ "."%char :: "."%char :: slash :: repeat "."%char (S m * 3 - 1) ++ rest)
    with (pre ++ L "../" ++ repeat "."%char (S m * 3 - 1) ++ rest).
  rewrite app_assoc, IH, <- app_assoc; [done|]. rewrite length_app. cbn. lia.
Qed.

Lemma prepend_dotdots_spec path last m :
  prepend_dotdots path last (S m) = dotdots (S m) ++ skipn last path.
Proof.
  unfold prepend_dotdots. pose proof (write_slashes m [] (skipn last path) 0 eq_refl) as H.
  cbn [app] in H. by replace (S m - 1)%nat with m by lia.
Qed.

(** ** The theorem *)

Lemma slashed_inj k v c u :
  Forall entry_name k -> ending v -> Forall entry_name c -> ending u ->
  slashed k ++ v = slashed c ++ u -> k = c /\ v = u.
Proof.
  intros Hk Hv Hc Hu E. assert (k = c) as ->.
  { pose proof (segments_slashed [] k v Hk Hv) as H1. pose proof (segments_slashed [] c u Hc Hu) as H2.
    cbn [app] in H1, H2. rewrite E, H2 in H1. by apply app_inv_head in H1. }
  split; [done|]. by apply app_inv_head in E.
Qed.

Lemma no_names_left q t w :
  Forall entry_name q -> ending t -> L "/" ++ w = slashed q ++ t -> q = [] -> w = [] /\ t = L "/".
Proof.
  intros Hq Ht E ->. cbn in E. destruct Ht as [-> | ->]; [done|]. split; [|done].
  by injection E as ->.
Qed.

Section relative.
Context (p : list str) (t : str) (Hp : Forall entry_name p) (Ht : ending t).
Context (c : list str) (u : str) (Hc : Forall entry_name c) (Hu : ending u).
Context (Hpath : slashed p ++ t <> []) (Hcwd : slashed c ++ u <> []).
Let goal (r : option (res str)) : Prop :=
  exists q, r = Some (Ok q) /\ makePathAbsolute q (slashed c ++ u) = Ok (slashed p ++ t).

Lemma back_path : is_slash (back (slashed p ++ t)) = bool_decide (t = L "/").
Proof.
  destruct p as [|n l]; [|by apply back_ending].
  by destruct Ht as [-> | ->].
Qed.

(** The working directory itself, perhaps written with a slash. *)
Lemma relative_same (b : bool) :
  p = c -> b = bool_decide (t = L "/") -> goal (Some (Ok (if b then L "./" else L "."))).
Proof.
  intros E Eb. eexists. split; [done|]. apply absolute_again; try done.
  - by destruct b.
  - destruct b; repeat (apply not_elem_of_cons; split; [done|]); apply not_elem_of_nil.
  - rewrite E. by destruct b.
  - rewrite <- Eb. by destruct b.
Qed.

Lemma relative_below a r :
  slashed p ++ t = a ++ L "/" ++ r -> r <> [] ->
  (slashed c ++ u = a \/ slashed c ++ u = a ++ L "/") -> goal (Some (Ok r)).
Proof.
  intros E Hr Ea. destruct (cut_slashed p t a r Hp Ht E) as (k & q & Ep & -> & Eq).
  pose proof Hp as Hp'. rewrite Ep in Hp'. apply List.Forall_app in Hp' as [Hk Hq].
  assert (k = c) as ->.
  { destruct Ea as [Ea|Ea]; symmetry in Ea.
    - rewrite <- (app_nil_r (slashed k)) in Ea. by apply slashed_inj in Ea as [? _]; [| |left| |].
    - by apply slashed_inj in Ea as [? _]; [| |right| |]. }
  exists r. split; [done|]. apply (absolute_below c u Hc Hu p t Hp Ht Hcwd Hpath q); try done.
  intros ->. by destruct (no_names_left [] t r Hq Ht Eq eq_refl).
Qed.

(** What the code does after a mismatch. *)
Lemma relative_up k up down cwd' n last :
  p = k ++ down -> c = k ++ up -> up <> [] ->
  skipn last (slashed p ++ t) = slashed down ++ t ->
  slashed c ++ u = cwd' ++ n -> S (inner_slashes n) = length up ->
  goal match count_loop (length (slashed c ++ u)) (slashed c ++ u) (length cwd') 1 with
       | Some dotdotsNeeded => Some (Ok (prepend_dotdots (slashed p ++ t) last dotdotsNeeded))
       | None => None
       end.
Proof.
  intros Ep Ec Hup Hskip En Hn. rewrite En at 2. rewrite count_loop_spec.
  - change (1 + inner_slashes n)%nat with (S (inner_slashes n)). rewrite prepend_dotdots_spec, Hskip, Hn.
    eexists. split; [done|]. by apply (absolute_up c u Hc Hu p t Hp Ht Hcwd Hpath k).
  - pose proof (no_nul_slashed c u Hc Hu) as Hz. rewrite En in Hz. by apply not_elem_of_app in Hz as [_ ?].
  - rewrite En, length_app. lia.
Qed.

(** The mismatch is inside a segment, or at its start. *)
Lemma relative_mismatch a x y :
  slashed p ++ t = a ++ x -> slashed c ++ u = a ++ y ->
  "/"%char ∈ a -> (y = [] -> is_slash (back a) = false) ->
  goal match count_loop (length (slashed c ++ u)) (slashed c ++ u) (length a) 1 with
       | Some dotdotsNeeded =>
           Some (Ok (prepend_dotdots (slashed p ++ t) (last_slash 0 0 a) dotdotsNeeded))
       | None => None
       end.
Proof.
  intros Ex Ey Ha Hy. destruct (at_last_slash a Ha) as (b & e & -> & He).
  rewrite <- !app_assoc in Ex, Ey.
  destruct (cut_slashed p t b _ Hp Ht Ex) as (k & down & Ep & Eb & Ed).
  destruct (cut_slashed c u b _ Hc Hu Ey) as (k' & up & Ec & Eb' & Eu).
  pose proof Hp as Hp'. rewrite Ep in Hp'. apply List.Forall_app in Hp' as [Hk Hdown].
  pose proof Hc as Hc'. rewrite Ec in Hc'. apply List.Forall_app in Hc' as [Hk' Hup].
  assert (k' = k) as ->.
  { apply (slashed_inj k' [] k []); try done; [by left|by left|]. by rewrite !app_nil_r, <- Eb, <- Eb'. }
  assert (up <> []) as Hne.
  { intros ->. destruct (no_names_left [] u (e ++ y) Hup Hu Eu eq_refl) as [E _].
    apply app_eq_nil in E as [-> ->]. rewrite app_nil_r in Hy. specialize (Hy eq_refl).
    by rewrite back_slash in Hy. }
  rewrite last_slash_cut by done. apply (relative_up k up down _ y); try done.
  - rewrite Ex. cbn [Nat.add]. rewrite List.skipn_app, List.skipn_all, Nat.sub_diag. exact Ed.
  - by rewrite <- !app_assoc.
  - rewrite <- (inner_slashes_name e y) by done. by apply (inner_slashes_count (e ++ y) up u).
Qed.

(** The path is a prefix of the working directory, up to a slash. *)
Lemma relative_parent y :
  slashed c ++ u = (slashed p ++ t) ++ L "/" ++ y ->
  goal (if (S (length (slashed p ++ t)) =? length (slashed c ++ u))%nat then Some (Ok (L "."))
        else match count_loop (length (slashed c ++ u)) (slashed c ++ u)
                     (S (length (slashed p ++ t))) 1 with
             | Some dotdotsNeeded =>
                 Some (Ok (prepend_dotdots (slashed p ++ t) (length (slashed p ++ t)) dotdotsNeeded))
             | None => None
             end).
Proof.
  intros Ey. destruct (cut_slashed c u _ y Hc Hu Ey) as (k & up & Ec & Ek & Eu).
  pose proof Hc as Hc'. rewrite Ec in Hc'. apply List.Forall_app in Hc' as [Hk Hup].
  destruct (slashed_inj p t k []) as [Epk Et]; [done|done|done|by left|by rewrite app_nil_r|].
  assert (length (slashed c ++ u) = S (length (slashed p ++ t) + length y)) as Hlen
    by (rewrite Ey, !length_app; cbn; lia).
  destruct y as [|d y].
  - replace (S (length (slashed p ++ t)) =? length (slashed c ++ u))%nat with true
      by (symmetry; apply Nat.eqb_eq; rewrite Hlen; cbn; lia).
    apply (relative_same false); [|by rewrite Et].
    destruct up as [|n up]; [by rewrite Ec, app_nil_r|].
    change (slashed (n :: up)) with (L "/" ++ n ++ slashed up) in Eu. injection Eu as Eu.
    apply List.Forall_inv in Hup as [Hn _]. by destruct n.
  - replace (S (length (slashed p ++ t)) =? length (slashed c ++ u))%nat with false
      by (symmetry; apply Nat.eqb_neq; rewrite Hlen; cbn; lia).
    assert (up <> []) as Hne by (intros ->; by destruct (no_names_left [] u (d :: y) Hup Hu Eu eq_refl)).
    replace (S (length (slashed p ++ t))) with (length ((slashed p ++ t) ++ L "/"))
      by (rewrite !length_app; cbn; lia).
    apply (relative_up k up [] _ (d :: y)); [by rewrite app_nil_r|done|done| |by rewrite <- !app_assoc in *|].
    + by rewrite List.skipn_all, Et.
    + by apply (inner_slashes_count (d :: y) up u).
Qed.

Lemma prefix_has_slash a x y :
  slashed p ++ t = a ++ x -> slashed c ++ u = a ++ y -> diverge x y -> "/"%char ∈ a.
Proof.
  intros Ex Ey Hd. pose proof (front_slashed p t Ht Hpath) as H1.
  pose proof (front_slashed c u Hu Hcwd) as H2. rewrite Ex in H1. rewrite Ey in H2.
  unfold is_slash in *. rewrite bool_decide_eq_true in H1, H2. destruct a as [|d a].
  - destruct x as [|d x]; [by rewrite Ex in Hpath|]. destruct y as [|e y]; [by rewrite Ey in Hcwd|].
    cbn in *. congruence.
  - cbn in H1. subst d. left.
Qed.

(** The path is the working directory with one more slash. *)
Lemma one_more_slash : slashed p ++ t = (slashed c ++ u) ++ L "/" -> p = c /\ t = L "/".
Proof.
  intros E. destruct (cut_slashed p t (slashed c ++ u) [] Hp Ht E) as (k & q & Ep & Ek & Eq).
  pose proof Hp as Hp'. rewrite Ep in Hp'. apply List.Forall_app in Hp' as [Hk Hq].
  destruct (slashed_inj k [] c u) as [-> _]; [done|by left|done|done|by rewrite app_nil_r|].
  destruct q as [|n q].
  - destruct (no_names_left [] t [] Hq Ht Eq eq_refl) as [_ Et]. by rewrite Ep, app_nil_r.
  - change (slashed (n :: q)) with (L "/" ++ n ++ slashed q) in Eq. injection Eq as Eq.
    apply List.Forall_inv in Hq as [Hn _]. by destruct n.
Qed.

Lemma last_slash_snoc n last a d : is_slash d = false -> last_slash n last (a ++ [d]) = last_slash n last a.
Proof.
  intros Hd. revert n last. induction a as [|e a IH]; intros n last; cbn; [by rewrite Hd|apply IH].
Qed.

(** The working directory is a prefix of the path. *)
Lemma relative_whole a d x (finish : nat -> nat -> option (res str)) :
  slashed p ++ t = a ++ d :: x -> slashed c ++ u = a ++ [d] ->
  (x <> [] -> is_slash d = false -> goal (finish (S (length a)) (last_slash 0 0 (a ++ [d])))) ->
  goal match compare 0 0 (a ++ d :: x) (a ++ [d]) with
       | Result r => Some (Ok r)
       | Mismatch pathIndex lastMatchingSegmentEnd => finish pathIndex lastMatchingSegmentEnd
       end.
Proof.
  intros Ex Ey Hfinish. rewrite compare_whole. cbn [compare]. rewrite bool_decide_eq_true_2 by done.
  destruct x as [|e x].
  - apply (relative_same (is_slash d)).
    + by destruct (slashed_inj p t c u) as [-> _]; [| | | |congruence|].
    + rewrite <- back_path, Ex. unfold back. by rewrite List.last_last.
  - destruct (bool_decide (x = []) && is_slash e) eqn:E1.
    { apply andb_true_iff in E1 as [H1 H2]. apply bool_decide_eq_true in H1. apply bool_decide_eq_true in H2.
      subst x e. destruct one_more_slash as [E Et]; [rewrite Ex, Ey, <- app_assoc; done|].
      apply (relative_same true); [done|]. by rewrite bool_decide_eq_true_2. }
    destruct (is_slash d) eqn:E2.
    { apply bool_decide_eq_true in E2. subst d. by apply (relative_below a (e :: x)); [| |right]. }
    destruct (is_slash e) eqn:E3.
    { apply bool_decide_eq_true in E3. subst e. apply (relative_below (slashed c ++ u) x); [| |by left].
      - rewrite Ex, Ey, <- app_assoc. done.
      - intros ->. done. }
    rewrite last_slash_snoc in Hfinish by done. by apply Hfinish.
Qed.

(** C14. [makePathAbsolute] undoes [makePathRelative]: for a path and a working
    directory that are absolute and normalized, up to a slash at the end of either,
    the relative path is defined (no index is out of range), nothing is thrown, and
    made absolute again it is the path that one started with, with the slash at its
    end if it had one. *)
Theorem makePathRelative_undone :
  exists q, makePathRelative (slashed p ++ t) (slashed c ++ u) = Some (Ok q) /\
            makePathAbsolute q (slashed c ++ u) = Ok (slashed p ++ t).
Proof.
  fold (goal (makePathRelative (slashed p ++ t) (slashed c ++ u))). unfold makePathRelative.
  rewrite !bool_decide_eq_false_2, !front_slashed by done. cbn [orb negb].
  rewrite (compare_loop_spec _ [] [] _ _ 0 eq_refl (no_nul_slashed p t Hp Ht) (le_n _)
    : compare_loop _ (slashed p ++ t) (slashed c ++ u) 0 0 = _).
  destruct (common_prefix (slashed p ++ t) (slashed c ++ u)) as (a & x & y & Ex & Ey & Hd).
  pose proof (prefix_has_slash a x y Ex Ey Hd) as Ha.
  destruct (decide (y = [])) as [->|Hy].
  - (* the working directory is a prefix of the path *)
    rewrite app_nil_r in Ey. assert (a <> []) as Hne by (intros ->; by apply elem_of_nil in Ha).
    destruct (exists_last Hne) as (a' & d & Ea). rewrite Ea in Ey, Ex. rewrite <- app_assoc in Ex.
    rewrite Ex at 1. rewrite Ey at 1. cbn [length].
    apply (relative_whole a' d x); [done|done|]. intros Hx Hd'.
    assert ((S (length a') =? length (slashed p ++ t))%nat = false) as ->.
    { apply Nat.eqb_neq. rewrite Ex, length_app. destruct x; [done|]. cbn. lia. }
    replace (S (length a')) with (length a) by (rewrite Ea, length_app; cbn; lia). rewrite <- Ea.
    apply (relative_mismatch a x []); [by rewrite Ex, Ea, <- app_assoc|by rewrite Ey, Ea, app_nil_r|done|].
    intros _. rewrite Ea. unfold back. by rewrite List.last_last.
  - rewrite Ex, Ey, compare_diverge by done. cbn [length Nat.add]. rewrite <- Ex, <- Ey.
    destruct x as [|e x].
    + rewrite app_nil_r in Ex. rewrite <- Ex, Nat.eqb_refl. destruct y as [|d y]; [done|].
      rewrite <- Ex in Ey. rewrite Ey at 1. rewrite char_at_app.
      destruct (is_slash d) eqn:Es.
      * apply bool_decide_eq_true in Es. subst d. by apply (relative_parent y).
      * apply (relative_mismatch _ [] (d :: y)); [by rewrite app_nil_r|done|by rewrite Ex|done].
    + assert ((length a =? length (slashed p ++ t))%nat = false) as ->
        by (apply Nat.eqb_neq; rewrite Ex, length_app; cbn; lia).
      by apply (relative_mismatch a (e :: x) y).
Qed.
End relative.

Lemma makePathRelative_undone_witness :
  exists q, makePathRelative (L "/some/tests") (L "/some/test/") = Some (Ok q) /\
            makePathAbsolute q (L "/some/test/") = Ok (L "/some/tests").
Proof.
  apply (makePathRelative_undone [L "some"; L "tests"] []) with (c := [L "some"; L "test"]) (u := L "/").
  - constructor; [|constructor; [|constructor]]; unfold entry_name; apply (bool_decide_unpack _); vm_compute; exact I.
  - by left.
  - constructor; [|constructor; [|constructor]]; unfold entry_name; apply (bool_decide_unpack _); vm_compute; exact I.
  - by right.
  - discriminate.
  - discriminate.
Defined.

Example sibling_path : makePathRelative (L "/some/tests") (L "/some/test") = Some (Ok (L "../tests")).
Proof. vm_compute. reflexivity. Qed.
Example parent_path_twice :
  makePathRelative (L "/some/test/path") (L "/some/test/path/a/b/") = Some (Ok (L "../..")).
Proof. vm_compute. reflexivity. Qed.
