(* ===== verification/Dirent.v ===== *)
(** * Directories as streams, and walking over them

    [DirentWrapper] ([buildboxcommon_direntwrapper.cpp]), the traversal of
    [FileUtils] with the functions built on it ([buildboxcommon_fileutils.cpp]), and
    [recursively_chmod_directories] of the runner ([buildboxcommon_runner.cpp]).
    The system calls are parameters that act on a world of any type.  The loops
    that read a directory have fuel. *)

From S2P Require Import Prelude StdMap Grpc Paths Undefined Posix.
Open Scope Z_scope.

(** ** The calls *)

Record DirCalls (W : Type) := MkDirCalls {
  (** A stream is known by a number; null is an [errno]. *)
  sys_opendir : str -> W -> outcome_of Z * W;
  sys_fdopendir : Z -> W -> outcome_of Z * W;
  sys_dirfd : Z -> W -> Z;
  (** The name of the entry, if any, and [errno] (which was 0 before). *)
  sys_readdir : Z -> W -> (option str * Z) * W;
  sys_closedir : Z -> W -> option Z * W;
  (** [fstatat] with [AT_SYMLINK_NOFOLLOW]. *)
  sys_fstatat : Z -> str -> W -> outcome_of Stat * W;
  dir_openat : Z -> str -> OpenFlags -> W -> outcome_of Z * W;
  dir_close : Z -> W -> option Z * W;
  (** [unlinkat], with or without [AT_REMOVEDIR]. *)
  sys_unlinkat : Z -> str -> bool -> W -> option Z * W;
  sys_fchmod : Z -> Z -> W -> option Z * W;
  (** [errno] as a failed call left it and a later one may have changed it. *)
  last_errno : W -> Z;
}.
Arguments sys_opendir {W} _. Arguments sys_fdopendir {W} _. Arguments sys_dirfd {W} _.
Arguments sys_readdir {W} _. Arguments sys_closedir {W} _. Arguments sys_fstatat {W} _.
Arguments dir_openat {W} _. Arguments dir_close {W} _. Arguments sys_unlinkat {W} _.
Arguments sys_fchmod {W} _. Arguments last_errno {W} _.

(** ** [DirentWrapper] *)

Record DirentWrapper := MkDirent {
  d_dir : Z;
  d_entry : option str;
  dw_path : str;
  dw_fd : Z;
  dw_p_fd : Z;
}.

Section dirent.
Context {W : Type} (sys : DirCalls W).

Definition set_entry (entry : option str) (self : DirentWrapper) : DirentWrapper :=
  MkDirent (d_dir self) entry (dw_path self) (dw_fd self) (dw_p_fd self).

(** The directory itself and its parent are skipped. *)
Definition dot_entry (name : str) : bool :=
  bool_decide (name = L ".") || bool_decide (name = L "..").

Fixpoint next (fuel : nat) (self : DirentWrapper) : UM W DirentWrapper :=
  let+ (entry, errno) := ucall (sys_readdir sys (d_dir self)) in
  match entry with
  | None => if negb (errno =? 0) then uthrow (SystemError errno) else uret (set_entry None self)
  | Some name =>
      if dot_entry name then
        match fuel with O => undefined | S fuel => next fuel self end
      else uret (set_entry (Some name) self)
  end.

(** What follows the opening of the stream, in a constructor. *)
Definition openDir (fuel : nat) (dir : Z) (path : str) : UM W DirentWrapper :=
  let+ fd := ulift (query (sys_dirfd sys dir)) in
  if fd <? 0 then let+ errno := ulift (query (last_errno sys)) in uthrow (SystemError errno)
  else next fuel (MkDirent dir None path fd (-1)).

Definition DirentWrapper_new (fuel : nat) (path : str) : UM W DirentWrapper :=
  let+ dir := ucall (sys_opendir sys (c_str path)) in
  match dir with
  | inl errno => uthrow (SystemError errno)
  | inr dir => openDir fuel dir path
  end.

(** The constructor over a descriptor: [close] comes before the use of [errno]. *)
Definition DirentWrapper_from_fd (fuel : nat) (fd p_fd : Z) (path : str) : UM W DirentWrapper :=
  let+ dir := ucall (sys_fdopendir sys fd) in
  match dir with
  | inl _ =>
      let+ _ := ucall (dir_close sys fd) in
      let+ errno := ulift (query (last_errno sys)) in
      uthrow (SystemError errno)
  | inr dir => next fuel (MkDirent dir None path fd p_fd)
  end.

(** The constructor over a stream. *)
Definition DirentWrapper_from_dir (fuel : nat) (dir : Z) (path : str) : UM W DirentWrapper :=
  openDir fuel dir path.

Definition DirentWrapper_delete (self : DirentWrapper) (w : W) : W :=
  snd (sys_closedir sys (d_dir self) w).

(** What [test] says of the kind of the current entry. *)
Definition currentEntryTest (test : Z -> bool) (self : DirentWrapper) : M W bool :=
  match d_entry self with
  | None => mret false
  | Some name =>
      let* status := call (sys_fstatat sys (dw_fd self) name) in
      let* statResult := or_throw status in
      mret (test (st_mode statResult))
  end.
Definition currentEntryIsFile : DirentWrapper -> M W bool := currentEntryTest S_ISREG.
Definition currentEntryIsDirectory : DirentWrapper -> M W bool := currentEntryTest S_ISDIR.

(** -1 if there is no entry or it cannot be opened. *)
Definition openEntry (self : DirentWrapper) (flag : OpenFlags) : M W Z :=
  match d_entry self with
  | None => mret (-1)
  | Some name =>
      let* dirfd := query (sys_dirfd sys (d_dir self)) in
      let* fd := call (dir_openat sys dirfd name flag) in
      mret (match fd with inl _ => -1 | inr fd => fd end)
  end.

Definition currentEntryPath (self : DirentWrapper) : str :=
  match d_entry self with
  | None => []
  | Some name => dw_path self ++ L "/" ++ name
  end.

Definition O_DIRECTORY_only : OpenFlags := MkOpenFlags false false false false true false.

Definition nextDir (fuel : nat) (self : DirentWrapper) : UM W DirentWrapper :=
  let+ next_fd := ulift (openEntry self O_DIRECTORY_only) in
  if next_fd =? -1 then uthrow RuntimeError
  else DirentWrapper_from_fd fuel next_fd (dw_fd self) (currentEntryPath self).

(** A wrapper in a scope: its destructor runs however the scope is left. *)
Definition with_dir {A} (dir : DirentWrapper) (body : UM W A) : UM W A :=
  fun w => match body w with
           | Some (r, w) => Some (r, DirentWrapper_delete dir w)
           | None => None
           end.

(** ** The traversal *)

Definition DirectoryTraversalFn : Type := option (str -> Z -> UM W unit).

(** One iteration of the loop, or what follows it. *)
Fixpoint fileDescriptorTraverseAndApply (fuel : nat) (dir : DirentWrapper)
    (dir_func file_func : DirectoryTraversalFn) (apply_to_root pass_parent_fd : bool)
  : UM W unit :=
  match d_entry dir with
  | Some name =>
      match fuel with
      | O => undefined
      | S fuel =>
          let+ is_directory := ulift (currentEntryIsDirectory dir) in
          let+ _ :=
            if is_directory then
              let+ nextDir := nextDir fuel dir in
              with_dir nextDir
                (fileDescriptorTraverseAndApply fuel nextDir dir_func file_func true
                   pass_parent_fd)
            else
              match file_func with
              | Some file_func => file_func name (dw_fd dir)
              | None => uret tt
              end in
          let+ dir := next fuel dir in
          fileDescriptorTraverseAndApply fuel dir dir_func file_func apply_to_root
            pass_parent_fd
      end
  | None =>
      match dir_func with
      | Some dir_func =>
          if apply_to_root then
            dir_func (c_str (dw_path dir)) (if pass_parent_fd then dw_p_fd dir else dw_fd dir)
          else uret tt
      | None => uret tt
      end
  end.

(** ** Deleting *)

Definition unlink_func (file_path : str) (fd : Z) : UM W unit :=
  let+ failed := ucall (sys_unlinkat sys fd file_path false) in
  match failed with Some errno => uthrow (SystemError errno) | None => uret tt end.

Definition rmdir_func (dir_path : str) (fd : Z) : UM W unit :=
  let remove fd dir_basename :=
    let+ failed := ucall (sys_unlinkat sys fd (c_str dir_basename) true) in
    match failed with Some errno => uthrow (SystemError errno) | None => uret tt end in
  if negb (fd =? -1) then
    let dir_basename := pathBasename dir_path in
    if bool_decide (dir_basename = []) then uret tt else remove fd dir_basename
  else remove AT_FDCWD dir_path.

Definition deleteRecursively (fuel : nat) (path : str) (delete_root_directory : bool)
  : UM W unit :=
  let+ root := DirentWrapper_new fuel (c_str path) in
  with_dir root
    (fileDescriptorTraverseAndApply fuel root (Some rmdir_func) (Some unlink_func)
       delete_root_directory true).

Definition deleteDirectory (fuel : nat) (path : str) : UM W unit :=
  deleteRecursively fuel path true.
Definition clearDirectory (fuel : nat) (path : str) : UM W unit :=
  deleteRecursively fuel path false.

Definition directoryIsEmpty (fuel : nat) (path : str) : UM W bool :=
  let+ root := DirentWrapper_new fuel (c_str path) in
  with_dir root (uret (match d_entry root with None => true | Some _ => false end)).

(** ** [Runner::recursively_chmod_directories] *)

(** A failure is at most logged. *)
Definition chmod_func (mode : Z) (dir_path : str) (fd : Z) : UM W unit :=
  let+ _ := ucall (sys_fchmod sys fd mode) in uret tt.

Definition recursively_chmod_directories (fuel : nat) (path : str) (mode : Z) : UM W unit :=
  let+ root := DirentWrapper_new fuel (c_str path) in
  with_dir root
    (fileDescriptorTraverseAndApply fuel root (Some (chmod_func mode)) None true false).
End dirent.
