(* ===== verification/DirentSpec.v ===== *)
(** * What a walk over a directory does

    The traversal of [FileUtils] over a tree of directories ends, applies its
    functions to every entry, the contents of a directory before the directory, and
    closes every directory it opened.  Deleting recursively is one use of it,
    changing the modes of all directories the other. *)

From S2P Require Import Prelude StdMap Grpc Paths PathsSpec Undefined Posix FileDescentSpec Dirent.
Open Scope Z_scope.

(** ** Trees of directories *)

Inductive dnode :=
  | Leaf                                (** anything but a directory *)
  | Dir (entries : list (str * dnode)).

Fixpoint dnode_rect' (P : dnode -> Prop) (HL : P Leaf)
    (HD : forall l, Forall (fun '(_, t) => P t) l -> P (Dir l)) (t : dnode) : P t :=
  match t with
  | Leaf => HL
  | Dir l =>
      HD l ((fix go (l : list (str * dnode)) : Forall (fun '(_, t) => P t) l :=
               match l with
               | [] => List.Forall_nil _
               | (n, t) :: l => List.Forall_cons _ (n, t) l (dnode_rect' P HL HD t) (go l)
               end) l)
  end.

Fixpoint child (name : str) (l : list (str * dnode)) : option dnode :=
  match l with
  | [] => None
  | (n, t) :: l => if decide (name = n) then Some t else child name l
  end.

(** What is at a path below a node. *)
Fixpoint node_at (t : dnode) (path : list str) : option dnode :=
  match path with
  | [] => Some t
  | n :: path =>
      match t with
      | Leaf => None
      | Dir l => match child n l with Some t => node_at t path | None => None end
      end
  end.

(** Every directory has each name once, and only names of entries. *)
Fixpoint dnode_wf (t : dnode) : Prop :=
  match t with
  | Leaf => True
  | Dir l => NoDup (map fst l) /\ Forall entry_name (map fst l) /\
             (fix all (l : list (str * dnode)) : Prop :=
                match l with [] => True | (_, t) :: l => dnode_wf t /\ all l end) l
  end.

(** What bounds the work below a node. *)
Fixpoint weight (t : dnode) : nat :=
  match t with
  | Leaf => 1
  | Dir l => 3 + (fix sum (l : list (str * dnode)) : nat :=
                    match l with [] => 0 | (_, t) :: l => weight t + sum l end) l
  end%nat.
Definition weights (l : list (str * dnode)) : nat := sum_list_with (fun '(_, t) => weight t) l.

(** The entries below a directory, with or without those that are not directories;
    the contents of a directory come before it. *)
Fixpoint postorder (files : bool) (path : list str) (t : dnode) : list (list str) :=
  match t with
  | Leaf => []
  | Dir l =>
      (fix go (l : list (str * dnode)) : list (list str) :=
         match l with
         | [] => []
         | (n, t) :: l =>
             match t with
             | Leaf => if files then [path ++ [n]] else []
             | Dir _ => postorder files (path ++ [n]) t ++ [path ++ [n]]
             end ++ go l
         end) l
  end.
Definition visits_of (files : bool) (path : list str) (entry : str * dnode) : list (list str) :=
  let (n, t) := entry in
  match t with
  | Leaf => if files then [path ++ [n]] else []
  | Dir _ => postorder files (path ++ [n]) t ++ [path ++ [n]]
  end.

Lemma dnode_wf_dir l :
  dnode_wf (Dir l) <-> NoDup (map fst l) /\ Forall entry_name (map fst l) /\
                      Forall (fun e => dnode_wf (snd e)) l.
Proof.
  assert (forall l, (fix all (l : list (str * dnode)) : Prop :=
    match l with [] => True | (_, t) :: l => dnode_wf t /\ all l end) l
    <-> Forall (fun e => dnode_wf (snd e)) l) as H.
  { clear l. induction l as [|[n t] l IH]; [done|]. split.
    - intros [H1 H2]. constructor; [done|by apply IH].
    - intros H. inversion H; subst. split; [done|by apply IH]. }
  cbn [dnode_wf]. split; intros (H1 & H2 & H3); (split; [done|]; split; [done|]; by apply H).
Qed.

Lemma weight_dir l : weight (Dir l) = (3 + weights l)%nat.
Proof. cbn [weight]. f_equal. induction l as [|[n t] l IH]; [done|]. cbn. by f_equal. Qed.

Lemma weight_pos t : (1 <= weight t)%nat.
Proof. destruct t; cbn [weight]; lia. Qed.

Lemma weights_length l : (length l <= weights l)%nat.
Proof.
  induction l as [|[n t] l IH]; [done|]. cbn. pose proof (weight_pos t).
  unfold weights in IH. lia.
Qed.

Lemma postorder_dir files path l :
  postorder files path (Dir l) = flat_map (visits_of files path) l.
Proof.
  cbn [postorder]. induction l as [|[n t] l IH]; [done|]. cbn [flat_map].
  rewrite <- IH. by destruct t.
Qed.

Lemma child_in l n t : NoDup (map fst l) -> (n, t) ∈ l -> child n l = Some t.
Proof.
  intros Hnd Hin. induction l as [|[m s] l IH]; [by apply elem_of_nil in Hin|].
  cbn in *. inversion Hnd as [|? ? Hm Hnd']; subst. apply elem_of_cons in Hin as [E|Hin].
  - injection E as -> ->. by rewrite decide_True.
  - rewrite decide_False; [auto|]. intros ->. apply Hm.
    apply list_elem_of_In, in_map_iff. exists (m, t). split; [done|]. by apply list_elem_of_In.
Qed.

Lemma node_at_app t p q :
  node_at t (p ++ q) = match node_at t p with Some t => node_at t q | None => None end.
Proof.
  revert t. induction p as [|n p IH]; intros t; [done|]. cbn. destruct t as [|l]; [done|].
  destruct (child n l); [apply IH|done].
Qed.

Lemma node_at_wf t p u : dnode_wf t -> node_at t p = Some u -> dnode_wf u.
Proof.
  revert t. induction p as [|n p IH]; intros t Hwf E; [by injection E as ->|].
  destruct t as [|l]; [done|]. cbn in E. destruct (child n l) as [v|] eqn:Ec; [|done].
  apply (IH v); [|done]. apply dnode_wf_dir in Hwf as (_ & _ & Hall). clear -Hall Ec.
  induction l as [|[m s] l IHl]; [done|]. inversion Hall; subst. cbn in Ec.
  destruct (decide (n = m)); [by injection Ec as ->|auto].
Qed.

(** The entries of a directory of the tree are where its path says. *)
Definition below (tree : dnode) (p : list str) (e : str * dnode) : Prop :=
  entry_name (fst e) /\ node_at tree (p ++ [fst e]) = Some (snd e).

Lemma entries_below tree p l :
  dnode_wf tree -> node_at tree p = Some (Dir l) -> Forall (below tree p) l.
Proof.
  intros Hwf E. pose proof (node_at_wf _ _ _ Hwf E) as Hl.
  apply dnode_wf_dir in Hl as (Hnd & Hn & _). apply List.Forall_forall. intros [n t] Hin.
  split.
  - cbn. eapply List.Forall_forall; [exact Hn|]. by apply (in_map fst) in Hin.
  - rewrite node_at_app, E. cbn. by rewrite (child_in l n t) by (done || by apply list_elem_of_In).
Qed.

(** ** The calls *)

Section laws.
Context {W : Type} (sys : DirCalls W) (root_path : str) (tree : dnode).

(** A directory as [readdir] gives it: its entries, and at most two dots. *)
Definition names_of (ns : list str) : list str := List.filter (fun n => negb (dot_entry n)) ns.
Definition few_dots (ns : list str) : Prop := (length ns <= length (names_of ns) + 2)%nat.

(** What POSIX says of the calls on directories.  A call may fail for any reason;
    [failures] counts those that did. *)
Class DirectoryLaws := {
  (** The open descriptors of directories, with their paths below the root. *)
  open_dirs : W -> gmap Z (list str);
  (** The open streams: the descriptor and the names still to be read. *)
  streams : W -> gmap Z (Z * list str);
  (** What was visited by the functions that a traversal applies. *)
  log : W -> list (list str);
  failures : W -> nat;
  opendir_law : forall w,
    let '(r, w') := sys_opendir sys root_path w in
    log w' = log w /\
    match r with
    | inl _ => open_dirs w' = open_dirs w /\ streams w' = streams w /\
               (failures w < failures w')%nat
    | inr d => exists fd ns l, tree = Dir l /\ names_of ns = map fst l /\ few_dots ns /\
        0 <= fd /\ open_dirs w !! fd = None /\ streams w !! d = None /\
        open_dirs w' = <[fd := []]> (open_dirs w) /\
        streams w' = <[d := (fd, ns)]> (streams w) /\ failures w' = failures w
    end;
  fdopendir_law : forall w fd p l, open_dirs w !! fd = Some p -> node_at tree p = Some (Dir l) ->
    let '(r, w') := sys_fdopendir sys fd w in
    log w' = log w /\ open_dirs w' = open_dirs w /\
    match r with
    | inl _ => streams w' = streams w /\ (failures w < failures w')%nat
    | inr d => exists ns, names_of ns = map fst l /\ few_dots ns /\ streams w !! d = None /\
        streams w' = <[d := (fd, ns)]> (streams w) /\ failures w' = failures w
    end;
  dirfd_law : forall w d fd ns, streams w !! d = Some (fd, ns) -> sys_dirfd sys d w = fd;
  readdir_law : forall w d fd ns, streams w !! d = Some (fd, ns) ->
    let '((r, errno), w') := sys_readdir sys d w in
    log w' = log w /\ open_dirs w' = open_dirs w /\
    match r with
    | None => streams w' = streams w /\
        (errno = 0 /\ ns = [] /\ failures w' = failures w \/
         errno <> 0 /\ (failures w < failures w')%nat)
    | Some n => exists ns', ns = n :: ns' /\ streams w' = <[d := (fd, ns')]> (streams w) /\
        failures w' = failures w
    end;
  closedir_law : forall w d fd ns, streams w !! d = Some (fd, ns) ->
    let '(_, w') := sys_closedir sys d w in
    log w' = log w /\ open_dirs w' = delete fd (open_dirs w) /\
    streams w' = delete d (streams w) /\ (failures w <= failures w')%nat;
  fstatat_law : forall w fd p n t, open_dirs w !! fd = Some p ->
    node_at tree (p ++ [n]) = Some t ->
    let '(r, w') := sys_fstatat sys fd n w in
    log w' = log w /\ open_dirs w' = open_dirs w /\ streams w' = streams w /\
    match r with
    | inl _ => (failures w < failures w')%nat
    | inr st => failures w' = failures w /\
        S_ISDIR (st_mode st) = match t with Dir _ => true | Leaf => false end
    end;
  dir_openat_law : forall w fd p n l, open_dirs w !! fd = Some p ->
    node_at tree (p ++ [n]) = Some (Dir l) ->
    let '(r, w') := dir_openat sys fd n O_DIRECTORY_only w in
    log w' = log w /\ streams w' = streams w /\
    match r with
    | inl _ => open_dirs w' = open_dirs w /\ (failures w < failures w')%nat
    | inr new => 0 <= new /\ open_dirs w !! new = None /\
        open_dirs w' = <[new := p ++ [n]]> (open_dirs w) /\ failures w' = failures w
    end;
  dir_close_law : forall w fd p, open_dirs w !! fd = Some p ->
    let '(_, w') := dir_close sys fd w in
    log w' = log w /\ open_dirs w' = delete fd (open_dirs w) /\ streams w' = streams w /\
    (failures w <= failures w')%nat;
}.
Context {laws : DirectoryLaws}.
Implicit Types (w : W) (F : gmap Z (list str)) (S : gmap Z (Z * list str)).

(** A wrapper that has open what it holds, besides [F] and [S]. *)
Definition holds F S (dir : DirentWrapper) (p ns : list str) w : Prop :=
  open_dirs w = <[dw_fd dir := p]> F /\ streams w = <[d_dir dir := (dw_fd dir, ns)]> S /\
  F !! dw_fd dir = None /\ S !! d_dir dir = None.

(** Its current entry and those to come. *)
Definition reading (dir : DirentWrapper) (ns : list str) (l : list (str * dnode)) : Prop :=
  few_dots ns /\
  match l with
  | [] => d_entry dir = None /\ names_of ns = []
  | (n, _) :: l => d_entry dir = Some n /\ names_of ns = map fst l
  end.

Lemma runs_call {A B} (f : W -> A * W) (k : A -> UM W B) w Q :
  (let '(a, w') := f w in runs (k a) w' Q) -> runs (let+ a := ucall f in k a) w Q.
Proof. unfold runs, ubind, ucall, ulift, call. by destruct (f w). Qed.

(** One more name, past the dots. *)
Lemma next_spec fuel dir F S p ns l w :
  holds F S dir p ns w -> few_dots ns -> names_of ns = map fst l -> (length ns <= fuel)%nat ->
  runs (next sys fuel dir) w (fun r w' =>
    log w' = log w /\
    match r with
    | Ok dir' => exists e ns', dir' = set_entry e dir /\ holds F S dir' p ns' w' /\
                   reading dir' ns' l /\ failures w' = failures w
    | Throw _ => exists ns', holds F S dir p ns' w' /\ (failures w < failures w')%nat
    end).
Proof.
  revert w ns. induction fuel as [|fuel IH]; intros w ns (Ho & Hs & HF & HS) Hd Hn Hfuel;
    cbn [next]; apply runs_call;
    (assert (streams w !! d_dir dir = Some (dw_fd dir, ns)) as Hst by (by rewrite Hs, lookup_insert_eq));
    pose proof (readdir_law w _ _ _ Hst) as HL;
    destruct (sys_readdir sys (d_dir dir) w) as [[[n|] errno] w']; destruct HL as (Hlog & Hop & HL).
  1: destruct HL as (ns' & -> & _); cbn in Hfuel; lia.
  1,3: destruct HL as (Hs' & [(-> & -> & Hf)|(He & Hf)]); cbn [negb Z.eqb];
    [apply runs_ret; split; [done|]; exists None, []; split; [done|];
     split; [by repeat split; cbn; congruence|]; split; [split; [cbn; unfold few_dots; cbn; lia|]|done];
     destruct l; [done|discriminate Hn]
    |rewrite (proj2 (Z.eqb_neq errno 0) He); split; [done|]; exists ns; split; [|done];
     by repeat split; congruence].
  destruct HL as (ns' & -> & Hs' & Hf).
  assert (holds F S dir p ns' w') as Hh.
  { repeat split; [congruence| |done|done]. by rewrite Hs', Hs, insert_insert_eq. }
  unfold few_dots, names_of in Hd, Hn. cbn [List.filter] in Hd, Hn.
  destruct (dot_entry n) eqn:En; cbn [negb] in Hd, Hn.
  - cbn [length] in *. eapply runs_mono; [apply (IH w' ns' Hh); unfold few_dots, names_of in *; try lia; done|].
    cbn beta. rewrite <- Hf, <- Hlog. done.
  - destruct l as [|[m t] l]; [done|]. cbn [map fst] in Hn. injection Hn as -> Hn.
    apply runs_ret. split; [done|]. exists (Some m), ns'. split; [done|]. split; [exact Hh|].
    split; [|done]. split; [unfold few_dots, names_of; cbn [length] in *; lia|]. by split.
Qed.

(** Where a wrapper belongs: it has the root, or a directory of which the parent is
    open. *)
Definition located (dir : DirentWrapper) (p : list str) F : Prop :=
  0 <= dw_fd dir /\ (zero ∉ dw_path dir) /\
  (p = [] /\ dw_p_fd dir = -1 /\ dw_path dir = root_path \/
   exists q n x, p = q ++ [n] /\ entry_name n /\ dw_path dir = x ++ L "/" ++ n /\
     0 <= dw_p_fd dir /\ F !! dw_p_fd dir = Some q).

(** At least what is in [F] and [S] is still open, besides what the wrapper holds. *)
Definition leaves F S (dir : DirentWrapper) w : Prop :=
  exists ns, streams w !! d_dir dir = Some (dw_fd dir, ns) /\
    F ⊆ delete (dw_fd dir) (open_dirs w) /\ S ⊆ delete (d_dir dir) (streams w).

Lemma holds_leaves F S dir p ns w : holds F S dir p ns w -> leaves F S dir w.
Proof.
  intros (Ho & Hs & HF & HS). exists ns. rewrite Ho, Hs, lookup_insert_eq.
  split; [done|]. by rewrite !delete_insert_id.
Qed.

Lemma leaves_weaken F S dir p ns w w' :
  holds F S dir p ns w -> open_dirs w ⊆ open_dirs w' -> streams w ⊆ streams w' ->
  leaves F S dir w'.
Proof.
  intros (Ho & Hs & HF & HS) Hsub Hsub'. exists ns. split.
  - eapply lookup_weaken; [|exact Hsub']. by rewrite Hs, lookup_insert_eq.
  - split; [rewrite <- (delete_insert_id F (dw_fd dir) p) by done; rewrite <- Ho; by apply delete_mono|].
    rewrite <- (delete_insert_id S (d_dir dir) (dw_fd dir, ns)) by done. rewrite <- Hs.
    by apply delete_mono.
Qed.

(** What calling the destructor gives back. *)
Lemma delete_leaves F S dir w :
  leaves F S dir w ->
  let w' := DirentWrapper_delete sys dir w in
  log w' = log w /\ F ⊆ open_dirs w' /\ S ⊆ streams w' /\ (failures w <= failures w')%nat.
Proof.
  intros (ns & Hs & HF & HS). unfold DirentWrapper_delete.
  pose proof (closedir_law w _ _ _ Hs) as HL. destruct (sys_closedir sys (d_dir dir) w) as [r w'].
  destruct HL as (Hl & Ho & Hs' & Hf). cbn. by rewrite Hl, Ho, Hs'.
Qed.

Lemma delete_holds F S dir p ns w :
  holds F S dir p ns w ->
  let w' := DirentWrapper_delete sys dir w in
  log w' = log w /\ open_dirs w' = F /\ streams w' = S /\ (failures w <= failures w')%nat.
Proof.
  intros (Ho & Hs & HF & HS). unfold DirentWrapper_delete.
  pose proof (closedir_law w (d_dir dir) (dw_fd dir) ns) as HL.
  rewrite Hs, lookup_insert_eq in HL. specialize (HL eq_refl).
  destruct (sys_closedir sys (d_dir dir) w) as [r w'].
  destruct HL as (Hl & Ho' & Hs' & Hf). cbn. by rewrite Hl, Ho', Hs', Ho, !delete_insert_id.
Qed.

(** Whether a wrapper could be made over what is now open besides [F] and [S]. *)
Definition made F S (p_fd : Z) (path : str) (p : list str) (l : list (str * dnode)) w
    (r : res DirentWrapper) w' : Prop :=
  log w' = log w /\
  match r with
  | Ok dir => exists ns, dw_path dir = path /\ dw_p_fd dir = p_fd /\ 0 <= dw_fd dir /\
      holds F S dir p ns w' /\ reading dir ns l /\ failures w' = failures w
  | Throw _ => (failures w < failures w')%nat /\ F ⊆ open_dirs w' /\ S ⊆ streams w'
  end.

Lemma few_dots_length ns (l : list (str * dnode)) :
  few_dots ns -> names_of ns = map fst l -> (length ns <= length l + 2)%nat.
Proof. unfold few_dots. intros H E. by rewrite E, length_map in H. Qed.

(** The first name, in a constructor: the stream is lost when it cannot be read. *)
Lemma first_name fuel F S d fd p_fd path p ns l w0 w :
  holds F S (MkDirent d None path fd p_fd) p ns w -> 0 <= fd ->
  few_dots ns -> names_of ns = map fst l -> (length l + 2 <= fuel)%nat ->
  log w = log w0 -> failures w = failures w0 ->
  runs (next sys fuel (MkDirent d None path fd p_fd)) w (made F S p_fd path p l w0).
Proof.
  intros Hh Hfd Hd Hn Hfuel Hl0 Hf0. pose proof (few_dots_length _ _ Hd Hn).
  eapply runs_mono; [eapply next_spec; [exact Hh|done|exact Hn|lia]|].
  intros r w' (Hl & Hr). split; [congruence|]. destruct r as [dir|e].
  - destruct Hr as (e & ns' & -> & Hh' & Hr & Hf). exists ns'. cbn. repeat split; try done.
    1-4: apply Hh'. 1-2: apply Hr. congruence.
  - destruct Hr as (ns' & Hh' & Hf). split; [lia|]. destruct Hh' as (-> & -> & HF & HS). cbn in *.
    split; by apply insert_subseteq.
Qed.

Lemma from_fd_spec fuel F S fd p_fd path p l w :
  open_dirs w = <[fd := p]> F -> F !! fd = None -> streams w = S -> 0 <= fd ->
  node_at tree p = Some (Dir l) -> (length l + 2 <= fuel)%nat ->
  runs (DirentWrapper_from_fd sys fuel fd p_fd path) w (made F S p_fd path p l w).
Proof.
  intros Ho HF Hs Hfd Hat Hfuel. unfold DirentWrapper_from_fd. apply runs_call.
  assert (open_dirs w !! fd = Some p) as Hop by (by rewrite Ho, lookup_insert_eq).
  pose proof (fdopendir_law w _ _ _ Hop Hat) as HL.
  destruct (sys_fdopendir sys fd w) as [[errno|d] w1]; destruct HL as (Hl & Ho1 & HL).
  - destruct HL as (Hs1 & Hf1). apply runs_call. rewrite <- Ho1 in Hop.
    pose proof (dir_close_law w1 _ _ Hop) as HL. destruct (dir_close sys fd w1) as [x w2].
    destruct HL as (Hl2 & Ho2 & Hs2 & Hf2). split; [congruence|]. split; [lia|].
    rewrite Ho2, Ho1, Ho, delete_insert_id, Hs2, Hs1, Hs by done. done.
  - destruct HL as (ns & Hn & Hd & HS & Hs1 & Hf1).
    eapply first_name; try done. repeat split; cbn; congruence.
Qed.

(** Going down into the current entry. *)
Lemma nextDir_spec fuel dir F S p ns n l w :
  holds F S dir p ns w -> located dir p F -> d_entry dir = Some n ->
  below tree p (n, Dir l) -> (length l + 2 <= fuel)%nat ->
  runs (nextDir sys fuel dir) w
    (made (open_dirs w) (streams w) (dw_fd dir) (dw_path dir ++ L "/" ++ n) (p ++ [n]) l w).
Proof.
  intros (Ho & Hs & HF & HS) (Hfd & Hz & _) He [Hn Hat] Hfuel. cbn [fst snd] in Hn, Hat.
  unfold nextDir, openEntry, runs, ubind, ulift, mbind_M, query, mret, call, currentEntryPath.
  rewrite He, (dirfd_law w _ (dw_fd dir) ns) by (by rewrite Hs, lookup_insert_eq).
  assert (open_dirs w !! dw_fd dir = Some p) as Hop by (by rewrite Ho, lookup_insert_eq).
  pose proof (dir_openat_law w _ _ _ _ Hop Hat) as HL.
  destruct (dir_openat sys (dw_fd dir) n O_DIRECTORY_only w) as [[errno|new] w1];
    destruct HL as (Hl & Hs1 & HL).
  - destruct HL as (Ho1 & Hf1). cbn. split; [done|]. split; [done|]. by rewrite Ho1, Hs1.
  - destruct HL as (Hnew & Hfresh & Ho1 & Hf1). replace (new =? -1) with false by lia.
    pose proof (from_fd_spec fuel (open_dirs w) (streams w) new (dw_fd dir)
      (dw_path dir ++ L "/" ++ n) (p ++ [n]) l w1) as HR. unfold runs, made in *.
    rewrite Hl, Hf1 in HR. by apply HR.
Qed.

(** ** The traversal *)

Context (dir_func : str -> Z -> UM W unit) (file_func : DirectoryTraversalFn (W := W)).
Context (pass_parent_fd : bool).

(** Something applied to what is at [p]: it succeeds and is logged, or a call failed. *)
Definition visit (m : UM W unit) (p : list str) w : Prop :=
  runs m w (fun r w' =>
    open_dirs w' = open_dirs w /\ streams w' = streams w /\
    match r with
    | Ok _ => log w' = log w ++ [p] /\ (failures w <= failures w')%nat
    | Throw _ => log w' = log w /\ (failures w < failures w')%nat
    end).

Class Visitors := {
  dir_visits : forall dir p l w, located dir p (open_dirs w) ->
    open_dirs w !! dw_fd dir = Some p -> node_at tree p = Some (Dir l) ->
    visit (dir_func (c_str (dw_path dir)) (if pass_parent_fd then dw_p_fd dir else dw_fd dir)) p w;
  file_visits : match file_func with
    | None => True
    | Some file_func => forall fd p n w, 0 <= fd -> open_dirs w !! fd = Some p -> below tree p (n, Leaf) ->
        visit (file_func n fd) (p ++ [n]) w
    end;
}.
Context {visitors : Visitors}.

Definition with_files : bool := match file_func with Some _ => true | None => false end.

(** How a part of a walk ends: all is visited, or a call failed on the way. *)
Definition walked F S (dir : DirentWrapper) (p : list str) (todo : list (list str)) w
    (r : res unit) w' : Prop :=
  match r with
  | Ok _ => log w' = log w ++ todo /\ (failures w <= failures w')%nat /\
            exists ns, holds F S dir p ns w'
  | Throw _ => (failures w < failures w')%nat /\ leaves F S dir w' /\
               exists k, k `prefix_of` todo /\ log w' = log w ++ k
  end.

(** The same walk from a later entry, or after more was visited. *)
Lemma walked_after F S dir dir' p done_ todo w w1 r w' :
  dw_fd dir' = dw_fd dir -> d_dir dir' = d_dir dir ->
  log w1 = log w ++ done_ -> (failures w <= failures w1)%nat ->
  walked F S dir' p todo w1 r w' -> walked F S dir p (done_ ++ todo) w r w'.
Proof.
  intros Efd Ed El Ef. unfold walked, holds, leaves. rewrite Efd, Ed.
  destruct r as [u|e].
  - intros (Hl & Hf & Hh). split; [by rewrite Hl, El, app_assoc|]. split; [lia|done].
  - intros (Hf & Hh & k & Hk & Hl). split; [lia|]. split; [done|].
    exists (done_ ++ k). split; [by apply prefix_app|]. by rewrite Hl, El, app_assoc.
Qed.

(** A step that failed before more was visited. *)
Lemma walked_throw F S dir p todo w e w' :
  (failures w < failures w')%nat -> leaves F S dir w' -> log w' = log w ->
  walked F S dir p todo w (Throw e) w'.
Proof.
  intros Hf Hh Hl. split; [done|]. split; [done|]. exists []. split; [apply prefix_nil|].
  by rewrite Hl, app_nil_r.
Qed.

(** Looking at the current entry. *)
Lemma current_is_directory F S dir p ns n t w :
  holds F S dir p ns w -> d_entry dir = Some n -> below tree p (n, t) ->
  runs (ulift (currentEntryIsDirectory sys dir)) w (fun r w' =>
    log w' = log w /\ holds F S dir p ns w' /\
    match r with
    | Ok b => b = (match t with Dir _ => true | Leaf => false end) /\ failures w' = failures w
    | Throw _ => (failures w < failures w')%nat
    end).
Proof.
  intros (Ho & Hs & HF & HS) He [Hn Hat]. unfold runs, ulift, currentEntryIsDirectory, currentEntryTest.
  rewrite He. unfold mbind_M, call, or_throw, mret, mthrow.
  pose proof (fstatat_law w (dw_fd dir) p n t) as HL. rewrite Ho, lookup_insert_eq in HL.
  specialize (HL eq_refl Hat).
  destruct (sys_fstatat sys (dw_fd dir) n w) as [[errno|st] w']; destruct HL as (H1 & H2 & H3 & H4).
  - split; [done|]. split; [by repeat split; congruence|done].
  - destruct H4 as [H4 H5]. split; [done|]. split; [by repeat split; congruence|]. by rewrite H5.
Qed.

(** A scope with the wrapper of a directory in it. *)
Lemma with_dir_walked dir p todo w0 w (m : UM W unit) :
  log w = log w0 -> failures w = failures w0 ->
  runs m w (walked (open_dirs w0) (streams w0) dir p todo w) ->
  runs (with_dir sys dir m) w (fun r w' =>
    open_dirs w0 ⊆ open_dirs w' /\ streams w0 ⊆ streams w' /\
    match r with
    | Ok _ => log w' = log w0 ++ todo /\ (failures w0 <= failures w')%nat /\
              open_dirs w' = open_dirs w0 /\ streams w' = streams w0
    | Throw _ => (failures w0 < failures w')%nat /\
                 exists k, k `prefix_of` todo /\ log w' = log w0 ++ k
    end).
Proof.
  intros El Ef. unfold runs, with_dir. destruct (m w) as [[r w1]|]; [|done]. rewrite <- El, <- Ef.
  destruct r as [u|e].
  - intros (Hl & Hf & ns & Hh). destruct (delete_holds _ _ _ _ _ _ Hh) as (H1 & H2 & H3 & H4).
    rewrite H2, H3, H1. do 3 (split; [done|]). split; [lia|done].
  - intros (Hf & Hh & k & Hk & Hl). destruct (delete_leaves _ _ _ _ Hh) as (H1 & H2 & H3 & H4).
    split; [done|]. split; [done|]. split; [lia|]. exists k. by rewrite H1.
Qed.

Lemma holds_same F S dir p ns w w' :
  holds F S dir p ns w -> open_dirs w' = open_dirs w -> streams w' = streams w ->
  holds F S dir p ns w'.
Proof. intros (?&?&?&?) E1 E2. repeat split; congruence. Qed.

(** The last function. *)
Lemma visit_root F S dir p ns l (apply_to_root : bool) w :
  holds F S dir p ns w -> located dir p F -> node_at tree p = Some (Dir l) ->
  runs (if apply_to_root
        then dir_func (c_str (dw_path dir)) (if pass_parent_fd then dw_p_fd dir else dw_fd dir)
        else uret tt) w
    (walked F S dir p (if apply_to_root then [p] else []) w).
Proof.
  intros Hh Hloc Hat. destruct apply_to_root.
  - assert (located dir p (open_dirs w)) as Hloc'.
    { destruct Hloc as (H1 & H2 & H3). destruct Hh as (Ho & _ & HF & _). split; [done|]. split; [done|].
      destruct H3 as [H3|(q & n & x & E & Hn & Hx & Hp & Hq)]; [by left|]. right. exists q, n, x.
      do 4 (split; [done|]). rewrite Ho, lookup_insert_ne; congruence. }
    eapply runs_mono; [apply (dir_visits dir p l w Hloc'); [|done]; destruct Hh as (-> & _); apply lookup_insert_eq|].
    intros r w' (H1 & H2 & H3). pose proof (holds_same _ _ _ _ _ _ _ Hh H1 H2) as Hh'.
    destruct r as [u|e]; destruct H3 as [H3 H4].
    + split; [done|]. split; [done|]. by exists ns.
    + apply walked_throw; [done| |done]. by eapply holds_leaves.
  - split; [by rewrite app_nil_r|]. split; [done|]. by exists ns.
Qed.

Lemma weights_cons (e : str * dnode) l : weights (e :: l) = (weight (snd e) + weights l)%nat.
Proof. by destruct e. Qed.

(** How the visit of one entry ends. *)
Definition entry_visited F S (dir : DirentWrapper) (p ns : list str) (todo : list (list str)) w
    (r : res unit) w' : Prop :=
  match r with
  | Ok _ => log w' = log w ++ todo /\ (failures w <= failures w')%nat /\ holds F S dir p ns w'
  | Throw _ => (failures w < failures w')%nat /\ leaves F S dir w' /\
               exists k, k `prefix_of` todo /\ log w' = log w ++ k
  end.

Lemma visit_file F S dir p ns n w :
  holds F S dir p ns w -> 0 <= dw_fd dir -> below tree p (n, Leaf) ->
  runs (match file_func with
        | Some file_func => file_func n (dw_fd dir)
        | None => uret tt
        end) w
    (entry_visited F S dir p ns (visits_of with_files p (n, Leaf)) w).
Proof.
  intros Hh Hfd Hb. cbn [visits_of]. unfold with_files. pose proof file_visits as Hv.
  destruct file_func as [f|].
  - eapply runs_mono; [apply (Hv _ p); [done|destruct Hh as (-> & _); apply lookup_insert_eq|done]|].
    intros r w' (H1 & H2 & H3). pose proof (holds_same _ _ _ _ _ _ _ Hh H1 H2) as Hh'.
    destruct r as [u|ex]; destruct H3 as [H3 H4]; [done|].
    split; [done|]. split; [by eapply holds_leaves|]. exists []. split; [apply prefix_nil|].
    by rewrite app_nil_r.
  - apply runs_ret. split; [by rewrite app_nil_r|done].
Qed.

(** Going into a directory, with [walk] what is done there. *)
Lemma visit_directory fuel (walk : DirentWrapper -> UM W unit) F S dir p ns n l w :
  holds F S dir p ns w -> located dir p F -> d_entry dir = Some n ->
  below tree p (n, Dir l) -> (length l + 2 <= fuel)%nat ->
  (forall dir' ns' w', holds (open_dirs w) (streams w) dir' (p ++ [n]) ns' w' ->
     reading dir' ns' l -> located dir' (p ++ [n]) (open_dirs w) ->
     runs (walk dir') w' (walked (open_dirs w) (streams w) dir' (p ++ [n])
       (flat_map (visits_of with_files (p ++ [n])) l ++ [p ++ [n]]) w')) ->
  runs (let+ nextDir := nextDir sys fuel dir in with_dir sys nextDir (walk nextDir)) w
    (entry_visited F S dir p ns (visits_of with_files p (n, Dir l)) w).
Proof.
  intros Hh Hloc He Hb Hfuel Hwalk.
  eapply runs_bind; [by eapply nextDir_spec| |].
  2: { intros ex w2 (El2 & Ef2 & Ho2 & Hs2). split; [done|]. split; [by eapply leaves_weaken|].
       exists []. split; [apply prefix_nil|]. by rewrite app_nil_r. }
  intros dir' w2 (El2 & ns' & Hpath & Hpfd & Hpos & Hh2 & Hr2 & Ef2).
  assert (located dir' (p ++ [n]) (open_dirs w)) as Hloc2.
  { destruct Hloc as (Hfd & Hz & _). destruct Hb as [(Hn1 & Hn2 & Hz2 & Hn3) _]. cbn [fst] in *.
    split; [done|]. rewrite Hpath, Hpfd. split; [set_solver|]. right. exists p, n, (dw_path dir).
    do 4 (split; [done|]). destruct Hh as (-> & _). apply lookup_insert_eq. }
  eapply runs_mono; [eapply (with_dir_walked dir' (p ++ [n]) _ w w2); [done|done|by eapply Hwalk]|].
  intros r w3 (Ho3 & Hs3 & Hr3). rewrite <- postorder_dir in Hr3. cbn [visits_of].
  destruct r as [u|ex].
  - destruct Hr3 as (H1 & H2 & H3 & H4). split; [done|]. split; [done|]. by eapply holds_same.
  - destruct Hr3 as (H1 & Hk). split; [done|]. split; [by eapply leaves_weaken|done].
Qed.

(** The traversal applies its functions to every entry that is still to come, the
    contents of a directory before the directory, or a call failed on the way. *)
Lemma traverse_spec fuel : forall l all dir F S p ns (apply_to_root : bool) w,
  dnode_wf tree -> (weights l + 3 <= fuel)%nat -> node_at tree p = Some (Dir all) ->
  holds F S dir p ns w -> reading dir ns l -> located dir p F -> Forall (below tree p) l ->
  runs (fileDescriptorTraverseAndApply sys fuel dir (Some dir_func) file_func apply_to_root
          pass_parent_fd) w
    (walked F S dir p
       (flat_map (visits_of with_files p) l ++ if apply_to_root then [p] else []) w).
Proof.
  induction fuel as [|fuel IH]; intros l all dir F S p ns apply_to_root w Hwf Hfuel Hat Hh [Hd Hr] Hloc Hl;
    [lia|].
  destruct l as [|[n t] l]; [destruct Hr as [He _]|destruct Hr as [He Hn]];
    cbn [fileDescriptorTraverseAndApply]; rewrite He; [by eapply visit_root|].
  rewrite weights_cons in Hfuel. cbn [snd] in Hfuel. inversion Hl as [|? ? Hb Hl']; subst.
  pose proof (weights_length l). pose proof (weight_pos t).
  cbn [flat_map]. rewrite <- app_assoc.
  eapply runs_bind; [by eapply current_is_directory| |].
  2: { intros ex w1 (El & Hh1 & Ef). apply walked_throw; [done| |done]. by eapply holds_leaves. }
  intros b w1 (El & Hh1 & -> & Ef).
  apply (runs_bind _ _ _ (entry_visited F S dir p ns (visits_of with_files p (n, t)) w1)).
  - destruct t as [|l']; [apply visit_file; [done|apply Hloc|done]|].
    rewrite weight_dir in Hfuel. pose proof (weights_length l').
    apply visit_directory; try done; [lia|]. intros dir' ns' w' Hh2 Hr2 Hloc2.
    eapply (IH l' l'); try done; [lia|apply Hb|]. apply entries_below; [done|apply Hb].
  - intros [] w2 (El2 & Ef2 & Hh2). pose proof (few_dots_length _ _ Hd Hn) as Hlen.
    eapply runs_bind; [eapply next_spec; [exact Hh2|done|exact Hn|lia]| |].
    + intros dir' w3 (El3 & e & ns' & -> & Hh3 & Hr3 & Ef3).
      eapply runs_mono; [apply (IH l all _ F S p ns'); try done; lia|].
      intros r w' Hw. eapply walked_after; [| | | |exact Hw]; try done; [congruence|lia].
    + intros ex w3 (El3 & ns' & Hh3 & Ef3). split; [lia|]. split; [by eapply holds_leaves|].
      exists (visits_of with_files p (n, t)). split; [by eexists|congruence].
  - intros ex w2 (H1 & H2 & k & Hk & H3). split; [lia|]. split; [done|]. exists k.
    split; [by apply prefix_app_r|congruence].
Qed.

(** ** From the root *)

Lemma open_root fuel w :
  (zero ∉ root_path) -> (weight tree <= fuel)%nat ->
  runs (DirentWrapper_new sys fuel root_path) w (fun r w' =>
    log w' = log w /\
    match r with
    | Ok dir => exists l ns, tree = Dir l /\ holds (open_dirs w) (streams w) dir [] ns w' /\
        reading dir ns l /\ located dir [] (open_dirs w) /\ failures w' = failures w
    | Throw _ => (failures w < failures w')%nat /\ open_dirs w ⊆ open_dirs w' /\
        streams w ⊆ streams w'
    end).
Proof.
  intros Hz Hfuel. unfold DirentWrapper_new. rewrite c_str_id by done. apply runs_call.
  pose proof (opendir_law w) as HL.
  destruct (sys_opendir sys root_path w) as [[errno|d] w1]; destruct HL as (Hl & HL).
  { destruct HL as (Ho & Hs & Hf). split; [done|]. by rewrite Ho, Hs. }
  destruct HL as (fd & ns & l & E & Hn & Hd & Hfd & Hfresh & Hs & Ho1 & Hs1 & Hf1).
  unfold openDir, runs, ubind, ulift, query at 1.
  rewrite (dirfd_law w1 d fd ns) by (by rewrite Hs1, lookup_insert_eq).
  replace (fd <? 0) with false by lia. rewrite E, weight_dir in Hfuel.
  pose proof (weights_length l).
  pose proof (first_name fuel (open_dirs w) (streams w) d fd (-1) root_path [] ns l w w1) as HR.
  eapply runs_mono; [apply HR; try done; lia|].
  intros r w' (Hl' & Hr). split; [done|]. destruct r as [dir|ex]; [|done].
  destruct Hr as (ns' & Hp & Hpf & Hpos & Hh & Hr & Hf). exists l, ns'.
  do 3 (split; [done|]). split; [|done]. split; [done|]. split; [by rewrite Hp|]. by left.
Qed.

(** All below the root is visited, and everything closed, or a call failed. *)
Definition walked_root (apply_to_root : bool) w (r : res unit) w' : Prop :=
  open_dirs w ⊆ open_dirs w' /\ streams w ⊆ streams w' /\
  let todo := postorder with_files [] tree ++ if apply_to_root then [[]] else [] in
  match r with
  | Ok _ => log w' = log w ++ todo /\ (failures w <= failures w')%nat /\
            open_dirs w' = open_dirs w /\ streams w' = streams w
  | Throw _ => (failures w < failures w')%nat /\
               exists k, k `prefix_of` todo /\ log w' = log w ++ k
  end.

Theorem walk_from_root fuel apply_to_root w :
  dnode_wf tree -> (zero ∉ root_path) -> (weight tree <= fuel)%nat ->
  runs (let+ root := DirentWrapper_new sys fuel root_path in
        with_dir sys root
          (fileDescriptorTraverseAndApply sys fuel root (Some dir_func) file_func apply_to_root
             pass_parent_fd)) w (walked_root apply_to_root w).
Proof.
  intros Hwf Hz Hfuel. eapply runs_bind; [by apply open_root| |].
  - intros dir w1 (Hl & l & ns & E & Hh & Hr & Hloc & Hf). unfold walked_root.
    rewrite E in Hfuel |- *. rewrite weight_dir in Hfuel. rewrite postorder_dir.
    eapply with_dir_walked; [done|done|].
    apply (traverse_spec fuel l l dir _ _ [] ns); try done; [lia|by rewrite E|].
    apply entries_below; [done|by rewrite E].
  - intros ex w1 (Hl & Hf & Ho & Hs). split; [done|]. split; [done|]. split; [done|].
    exists []. split; [apply prefix_nil|]. by rewrite app_nil_r.
Qed.
End laws.
Arguments open_dirs {W sys root_path tree _} _.
Arguments streams {W sys root_path tree _} _.
Arguments log {W sys root_path tree _} _.
Arguments failures {W sys root_path tree _} _.
Arguments holds {W sys root_path tree _} _ _ _ _ _ _.
Arguments visit {W sys root_path tree _} _ _ _.
Arguments walked {W sys root_path tree _} _ _ _ _ _ _ _ _.
Arguments walked_root {W sys root_path tree _} _ _ _ _ _.
