(* ===== verification/DeleteSpec.v ===== *)
(** * Deleting a directory with all it contains, and changing all its modes

    What [deleteRecursively] ([buildboxcommon_fileutils.cpp]) removes, in which order,
    and what [recursively_chmod_directories] ([buildboxcommon_runner.cpp]) changes, as
    uses of the traversal; the sequence of removals empties the tree. *)

From S2P Require Import Prelude StdMap TimeUtils Grpc Paths PathsSpec Undefined Posix FileDescentSpec Dirent DirentSpec.
Open Scope Z_scope.

(** ** Removing entries from a tree *)

(** The first entry of a name, changed or removed. *)
Fixpoint alter_child (name : str) (f : dnode -> option (option dnode)) (l : list (str * dnode))
  : option (list (str * dnode)) :=
  match l with
  | [] => None
  | (n, t) :: l =>
      if decide (name = n) then
        match f t with
        | Some (Some t) => Some ((n, t) :: l)
        | Some None => Some l
        | None => None
        end
      else option_map (cons (n, t)) (alter_child name f l)
  end.

(** [unlink] and [rmdir]: only what has no entries can be removed. *)
Fixpoint remove (path : list str) (t : dnode) : option dnode :=
  match path, t with
  | n :: path, Dir l =>
      let f t :=
        match path with
        | [] => match t with Leaf | Dir [] => Some None | Dir (_ :: _) => None end
        | _ => option_map Some (remove path t)
        end in
      option_map Dir (alter_child n f l)
  | _, _ => None
  end.

Fixpoint replay (paths : list (list str)) (t : dnode) : option dnode :=
  match paths with
  | [] => Some t
  | p :: paths => match remove p t with Some t => replay paths t | None => None end
  end.

Lemma replay_app ps qs t :
  replay (ps ++ qs) t = match replay ps t with Some t => replay qs t | None => None end.
Proof.
  revert t. induction ps as [|p ps IH]; intros t; [done|]. cbn. by destruct (remove p t).
Qed.

(** Removals below the first entry. *)
Lemma replay_first ps n t u l :
  Forall (fun p => p <> []) ps -> replay ps t = Some u ->
  replay (map (cons n) ps) (Dir ((n, t) :: l)) = Some (Dir ((n, u) :: l)).
Proof.
  intros Hne. revert t. induction Hne as [|p ps Hp Hps IH]; intros t E; [by injection E as ->|].
  cbn in E. destruct (remove p t) as [v|] eqn:Ev; [|done]. cbn [map replay].
  assert (remove (n :: p) (Dir ((n, t) :: l)) = Some (Dir ((n, v) :: l))) as ->.
  { cbn [remove alter_child]. rewrite decide_True by done. destruct p as [|m p]; [done|].
    rewrite Ev. done. }
  by apply IH.
Qed.

Lemma postorder_prefix files path t :
  postorder files path t = map (app path) (postorder files [] t).
Proof.
  revert path. induction t as [|l IH] using dnode_rect'; intros path; [done|].
  rewrite !postorder_dir. induction IH as [|[n t] l Ht Hl IHl]; [done|].
  cbn [flat_map]. rewrite IHl, map_app. f_equal. cbn [visits_of].
  destruct t as [|l']; [by destruct files|].
  rewrite map_app, (Ht (path ++ [n])), (Ht ([] ++ [n])), map_map. f_equal.
  apply map_ext. intros p. by rewrite <- app_assoc.
Qed.

Lemma visits_of_dir files n l :
  visits_of files [] (n, Dir l) = map (cons n) (postorder files [] (Dir l)) ++ [[n]].
Proof. cbn [visits_of]. by rewrite postorder_prefix. Qed.

Lemma postorder_nonempty files t : Forall (fun p => p <> []) (postorder files [] t).
Proof.
  destruct t as [|l]; [constructor|]. rewrite postorder_dir.
  induction l as [|[n [|l']] l IH]; [constructor| |]; cbn [flat_map]; apply List.Forall_app;
    (split; [|done]).
  - destruct files; repeat constructor. done.
  - rewrite visits_of_dir. apply List.Forall_app. split; [|by repeat constructor].
    apply List.Forall_map. apply List.Forall_forall. done.
Qed.

(** The removals in this order are all possible, and leave an empty directory. *)
Theorem postorder_empties l : replay (postorder true [] (Dir l)) (Dir l) = Some (Dir []).
Proof.
  enough (forall t, match t with
    | Leaf => True
    | Dir l => replay (postorder true [] (Dir l)) (Dir l) = Some (Dir [])
    end) as H by apply (H (Dir l)).
  clear l. intros t. induction t as [|l IH] using dnode_rect'; [done|].
  rewrite postorder_dir. induction IH as [|[n t] l Ht Hl IHl]; [done|].
  cbn [flat_map]. rewrite replay_app. destruct t as [|l'].
  - cbn. by rewrite decide_True.
  - rewrite visits_of_dir, replay_app.
    rewrite (replay_first _ n _ (Dir []) l (postorder_nonempty _ _) Ht).
    cbn. by rewrite decide_True.
Qed.

(** ** Deleting *)

Section deleting.
Context {W : Type} (sys : DirCalls W) (root_path : str) (tree : dnode).
Context {laws : DirectoryLaws sys root_path tree}.

(** A call of [unlinkat] with the right flag removes one entry, or fails. *)
Definition removed (p : list str) (w : W) (r : option Z) (w' : W) : Prop :=
  open_dirs w' = open_dirs w /\ streams w' = streams w /\
  match r with
  | None => log w' = log w ++ [p] /\ failures w' = failures w
  | Some _ => log w' = log w /\ (failures w < failures w')%nat
  end.

Class RemovalLaws := {
  unlinkat_law : forall w fd p n t, 0 <= fd -> open_dirs w !! fd = Some p -> node_at tree (p ++ [n]) = Some t ->
    let '(r, w') := sys_unlinkat sys fd n (match t with Dir _ => true | Leaf => false end) w in
    removed (p ++ [n]) w r w';
  rmdir_law : forall w,
    let '(r, w') := sys_unlinkat sys AT_FDCWD root_path true w in removed [] w r w';
}.
Context {removal : RemovalLaws}.

Lemma removal_visits fd name flag p w :
  (let '(r, w') := sys_unlinkat sys fd name flag w in removed p w r w') ->
  visit
    (let+ failed := ucall (sys_unlinkat sys fd name flag) in
     match failed with Some errno => uthrow (SystemError errno) | None => uret tt end) p w.
Proof.
  intros HL. apply runs_call. destruct (sys_unlinkat sys fd name flag w) as [[errno|] w'];
    destruct HL as (H1 & H2 & H3 & H4); (split; [done|]; split; [done|]; split; [done|]; lia).
Qed.

Lemma zero_path x n : entry_name n -> (zero ∉ x) -> zero ∉ x ++ L "/" ++ n.
Proof.
  intros (_ & _ & Hz & _) Hx. rewrite !not_elem_of_app. split; [done|]. split; [|done].
  by apply not_elem_of_cons; split; [|apply not_elem_of_nil].
Qed.

Lemma basename_entry x n : entry_name n -> (zero ∉ x) -> pathBasename (x ++ L "/" ++ n) = n.
Proof.
  intros Hn Hx. unfold pathBasename. rewrite c_str_id by (by apply zero_path).
  assert (is_slash (back (x ++ L "/" ++ n)) = false) as ->.
  { rewrite app_assoc. by apply back_app_name. }
  destruct Hn as (Hne & Hs & _). rewrite rsplit_slash_cut by done.
  replace (length (x ++ L "/" ++ n) <=? 1)%nat with false; [done|].
  symmetry. apply Nat.leb_gt. rewrite !length_app. destruct n; [done|]. cbn. lia.
Qed.

Context (root_nonzero : zero ∉ root_path).

#[local] Instance removal_visitors :
  Visitors sys root_path tree (rmdir_func sys) (Some (unlink_func sys)) true.
Proof.
  split.
  - intros dir p l w (Hfd & Hz & Hloc) Hop Hat. unfold rmdir_func. rewrite c_str_id by done.
    destruct Hloc as [(-> & -> & ->)|(q & n & x & -> & Hn & Hx & Hp & Hq)].
    + cbn [Z.eqb negb]. apply removal_visits. rewrite c_str_id by done. apply rmdir_law.
    + replace (dw_p_fd dir =? -1) with false by lia. cbn [negb]. rewrite Hx in *.
      assert (zero ∉ x) as Hzx by (by rewrite !not_elem_of_app in Hz; destruct Hz).
      rewrite basename_entry by done. rewrite bool_decide_eq_false_2 by apply Hn.
      rewrite entry_c_str by done. apply removal_visits.
      by apply (unlinkat_law w (dw_p_fd dir) q n (Dir l)).
  - intros fd p n w Hfd Hop [Hn Hat]. apply removal_visits. by apply (unlinkat_law w fd p n Leaf).
Qed.

(** How [deleteRecursively] ends.  [removals] is the order in which all below the
    root can be removed. *)
Definition deleted (delete_root : bool) (w : W) (r : res unit) (w' : W) : Prop :=
  open_dirs w ⊆ open_dirs w' /\ streams w ⊆ streams w' /\
  exists removals, replay removals tree = Some (Dir []) /\
    let removals := removals ++ if delete_root then [[]] else [] in
    match r with
    | Ok _ => log w' = log w ++ removals /\ open_dirs w' = open_dirs w /\ streams w' = streams w
    | Throw _ => (failures w < failures w')%nat /\
                 exists k, k `prefix_of` removals /\ log w' = log w ++ k
    end.

(** C21. [deleteRecursively] of a directory: it ends; if it returns, it has removed,
    each once and each when nothing was left below it, all the entries below the
    directory (and the directory itself, for [deleteDirectory]), and it has closed
    all that it opened; it throws only if a system call failed, and what was removed
    until then is a beginning of that sequence. *)
Theorem deleteRecursively_removes (fuel : nat) (delete_root : bool) (l : list (str * dnode)) (w : W) :
  tree = Dir l -> dnode_wf tree -> (weight tree <= fuel)%nat ->
  runs (deleteRecursively sys fuel root_path delete_root) w (deleted delete_root w).
Proof.
  intros E Hwf Hfuel. unfold deleteRecursively. rewrite c_str_id by done.
  eapply runs_mono; [by apply (walk_from_root sys root_path tree (rmdir_func sys) (Some (unlink_func sys)) true)|].
  intros r w' (H1 & H2 & H3). split; [done|]. split; [done|].
  exists (postorder true [] tree). split; [rewrite E; apply postorder_empties|].
  destruct r as [u|ex]; [|done]. by destruct H3 as (? & _ & ?).
Qed.
End deleting.

(** ** Changing modes *)

Section modes.
Context {W : Type} (sys : DirCalls W) (root_path : str) (tree : dnode).
Context {laws : DirectoryLaws sys root_path tree}.

(** The log has the directories whose mode [fchmod] was asked to change. *)
Class ModeLaws := {
  fchmod_law : forall w fd p mode, open_dirs w !! fd = Some p ->
    let '(_, w') := sys_fchmod sys fd mode w in
    open_dirs w' = open_dirs w /\ streams w' = streams w /\ log w' = log w ++ [p] /\
    (failures w <= failures w')%nat;
}.
Context {mode_laws : ModeLaws}.

#[local] Instance mode_visitors mode :
  Visitors sys root_path tree (chmod_func sys mode) None false.
Proof.
  split; [|done]. intros dir p l w Hloc Hop Hat. apply runs_call.
  pose proof (fchmod_law w (dw_fd dir) p mode Hop) as HL.
  destruct (sys_fchmod sys (dw_fd dir) mode w) as [r w']. by destruct HL as (? & ? & ? & ?).
Qed.

(** [recursively_chmod_directories] asks for the mode of every directory below the
    root, and of the root, once, whether or not this succeeds; it throws only if
    some directory could not be read. *)
Theorem chmod_reaches_directories (fuel : nat) (mode : Z) (w : W) :
  dnode_wf tree -> (zero ∉ root_path) -> (weight tree <= fuel)%nat ->
  runs (recursively_chmod_directories sys fuel root_path mode) w (fun r w' =>
    open_dirs w ⊆ open_dirs w' /\
    match r with
    | Ok _ => log w' = log w ++ postorder false [] tree ++ [[]] /\ open_dirs w' = open_dirs w
    | Throw _ => (failures w < failures w')%nat
    end).
Proof.
  intros Hwf Hz Hfuel. unfold recursively_chmod_directories. rewrite c_str_id by done.
  eapply runs_mono;
    [by apply (walk_from_root sys root_path tree (chmod_func sys mode) None false)|].
  intros r w' (H1 & H2 & H3). split; [done|]. destruct r as [u|ex]; [|by destruct H3].
  by destruct H3 as (? & _ & ? & _).
Qed.
End modes.

(** ** A disk in memory *)

Record disk := MkDisk {
  disk_open : gmap Z (list str);
  disk_streams : gmap Z (Z * list str);
  disk_log : list (list str);
  disk_failures : nat;
}.

(** A number that is not in use. *)
Definition unused {A} (m : gmap Z A) : Z :=
  Z.of_nat (fresh (set_map Z.to_nat (dom m : gset Z) : gset nat)).

Lemma unused_free {A} (m : gmap Z A) : m !! unused m = None.
Proof.
  destruct (m !! unused m) as [a|] eqn:E; [|done]. exfalso.
  apply (is_fresh (set_map Z.to_nat (dom m : gset Z) : gset nat)).
  apply elem_of_map. exists (unused m). split; [unfold unused; by rewrite Nat2Z.id|].
  by apply elem_of_dom_2 in E.
Qed.

Section toy.
Context (tree : dnode).

Definition fail {A} (errno : Z) (w : disk) : outcome_of A * disk :=
  (inl errno, MkDisk (disk_open w) (disk_streams w) (disk_log w) (S (disk_failures w))).

Definition new_stream (fd : Z) (p : list str) (w : disk) : outcome_of Z * disk :=
  match node_at tree p with
  | Some (Dir l) =>
      let d := unused (disk_streams w) in
      (inr d, MkDisk (disk_open w) (<[d := (fd, L "." :: L ".." :: map fst l)]> (disk_streams w))
                (disk_log w) (disk_failures w))
  | _ => fail ENOTDIR w
  end.

Definition new_fd (p : list str) (w : disk) : Z * disk :=
  let fd := unused (disk_open w) in
  (fd, MkDisk (<[fd := p]> (disk_open w)) (disk_streams w) (disk_log w) (disk_failures w)).

Definition disk_opendir (path : str) (w : disk) : outcome_of Z * disk :=
  match tree with
  | Dir _ => let (fd, w) := new_fd [] w in new_stream fd [] w
  | Leaf => fail ENOTDIR w
  end.

Definition disk_visit (fd : Z) (suffix : list str) (w : disk) : option Z * disk :=
  let p := match disk_open w !! fd with Some p => p | None => [] end in
  (None, MkDisk (disk_open w) (disk_streams w) (disk_log w ++ [p ++ suffix]) (disk_failures w)).

Definition toy_calls : DirCalls disk := {|
  sys_opendir := disk_opendir;
  sys_fdopendir := fun fd w =>
    match disk_open w !! fd with Some p => new_stream fd p w | None => fail EBADF w end;
  sys_dirfd := fun d w => match disk_streams w !! d with Some (fd, _) => fd | None => -1 end;
  sys_readdir := fun d w =>
    match disk_streams w !! d with
    | Some (fd, n :: ns) =>
        ((Some n, 0), MkDisk (disk_open w) (<[d := (fd, ns)]> (disk_streams w)) (disk_log w)
                        (disk_failures w))
    | _ => ((None, 0), w)
    end;
  sys_closedir := fun d w =>
    (None, match disk_streams w !! d with
           | Some (fd, _) => MkDisk (delete fd (disk_open w)) (delete d (disk_streams w))
                               (disk_log w) (disk_failures w)
           | None => w
           end);
  sys_fstatat := fun fd n w =>
    match disk_open w !! fd with
    | Some p => (inr (MkStat (match node_at tree (p ++ [n]) with
                              | Some (Dir _) => S_IFDIR
                              | _ => S_IFREG
                              end) 0 (MkTimespec 0 0) (MkTimespec 0 0)), w)
    | None => fail EBADF w
    end;
  dir_openat := fun fd n _ w =>
    match disk_open w !! fd with
    | Some p => let (new, w) := new_fd (p ++ [n]) w in (inr new, w)
    | None => fail EBADF w
    end;
  dir_close := fun fd w =>
    (None, MkDisk (delete fd (disk_open w)) (disk_streams w) (disk_log w) (disk_failures w));
  sys_unlinkat := fun fd n _ w =>
    if fd =? AT_FDCWD then (None, MkDisk (disk_open w) (disk_streams w) (disk_log w ++ [[]]) (disk_failures w))
    else disk_visit fd [n] w;
  sys_fchmod := fun fd _ w => disk_visit fd [] w;
  last_errno := fun _ => EBADF;
|}.

Context (wf : dnode_wf tree).

Lemma listing_ok p l :
  node_at tree p = Some (Dir l) ->
  names_of (L "." :: L ".." :: map fst l) = map fst l /\ few_dots (L "." :: L ".." :: map fst l).
Proof.
  intros Hat. pose proof (node_at_wf _ _ _ wf Hat) as Hl. apply dnode_wf_dir in Hl as (_ & Hn & _).
  assert (names_of (map fst l) = map fst l) as E.
  { clear -Hn. induction Hn as [|n ns Hn Hns IH]; [done|]. unfold names_of in *. cbn [List.filter].
    rewrite IH. unfold dot_entry. destruct Hn as (_ & _ & _ & H1 & H2).
    by rewrite !bool_decide_eq_false_2. }
  unfold few_dots. change (names_of (L "." :: L ".." :: map fst l)) with (names_of (map fst l)).
  rewrite E. split; [done|]. cbn [length]. lia.
Qed.

#[global] Instance toy_directory_laws : DirectoryLaws toy_calls (L "/r") tree.
Proof.
  refine {| open_dirs := disk_open; streams := disk_streams; log := disk_log;
            failures := disk_failures |}; cbn.
  - intros w. pose proof (fun l => listing_ok [] l) as HL. cbn [node_at] in HL.
    unfold disk_opendir, new_stream, new_fd. cbn [node_at]. destruct tree as [|l].
    + cbn. repeat split. lia.
    + cbn. split; [done|]. exists (unused (disk_open w)), (L "." :: L ".." :: map fst l), l.
      split; [done|]. destruct (HL l eq_refl) as [H1 H2].
      do 2 (split; [done|]). split; [unfold unused; lia|]. split; [apply unused_free|].
      split; [apply unused_free|]. by repeat split.
  - intros w fd p l Hop Hat. rewrite Hop. unfold new_stream. rewrite Hat. cbn.
    do 2 (split; [done|]). destruct (listing_ok p l Hat) as [H1 H2]. eexists. split; [done|].
    split; [done|]. split; [apply unused_free|done].
  - intros w d fd ns Hs. by rewrite Hs.
  - intros w d fd ns Hs. rewrite Hs. destruct ns as [|n ns]; cbn.
    + do 3 (split; [done|]). by left.
    + do 2 (split; [done|]). by exists ns.
  - intros w d fd ns Hs. by rewrite Hs.
  - intros w fd p n t Hop Hat. rewrite Hop, Hat. cbn. do 4 (split; [done|]). by destruct t.
  - intros w fd p n l Hop Hat. rewrite Hop. cbn. do 2 (split; [done|]).
    split; [unfold unused; lia|]. split; [apply unused_free|done].
  - intros w fd p Hop. done.
Defined.

#[global] Instance toy_removal_laws : RemovalLaws toy_calls (L "/r") tree.
Proof.
  split.
  - intros w fd p n t Hfd Hop Hat. cbn in *. replace (fd =? AT_FDCWD) with false by (unfold AT_FDCWD; lia).
    unfold disk_visit. cbn. by rewrite Hop.
  - intros w. cbn. done.
Defined.

#[global] Instance toy_mode_laws : ModeLaws toy_calls (L "/r") tree.
Proof. split. intros w fd p mode Hop. cbn in *. by rewrite Hop, app_nil_r. Defined.
End toy.

(** A directory with a file in a directory, and a file. *)
Definition toy_tree : dnode := Dir [(L "a", Dir [(L "f", Leaf)]); (L "b", Leaf)].

Lemma toy_tree_wf : dnode_wf toy_tree.
Proof.
  assert (forall n, n = L "a" \/ n = L "b" \/ n = L "f" -> entry_name n) as H.
  { intros n [-> | [-> | ->]]; repeat split; try done; by apply not_elem_of_cons; split; [|apply not_elem_of_nil]. }
  apply dnode_wf_dir. cbn [map fst].
  split; [apply (bool_decide_unpack (NoDup _)); vm_compute; exact I|].
  split; [constructor; [auto|constructor; [auto|constructor]]|].
  constructor; [|by constructor; [|constructor]]. apply dnode_wf_dir. cbn [map fst].
  split; [apply (bool_decide_unpack (NoDup _)); vm_compute; exact I|].
  split; [constructor; [auto|constructor]|by constructor; [|constructor]].
Qed.

Definition empty_disk : disk := MkDisk ∅ ∅ [] 0.

Lemma deleteRecursively_removes_witness :
  runs (deleteRecursively (toy_calls toy_tree) 10 (L "/r") true) empty_disk
    (deleted (toy_calls toy_tree) (L "/r") toy_tree (laws := toy_directory_laws _ toy_tree_wf)
       true empty_disk).
Proof.
  apply (deleteRecursively_removes (toy_calls toy_tree) (L "/r") toy_tree
           (laws := toy_directory_laws _ toy_tree_wf)
           (removal := toy_removal_laws _ toy_tree_wf)) with (l := [(L "a", Dir [(L "f", Leaf)]); (L "b", Leaf)]).
  - vm_compute. intros H. repeat (apply elem_of_cons in H as [H|H]; [discriminate H|]). by apply elem_of_nil in H.
  - reflexivity.
  - apply toy_tree_wf.
  - cbn. lia.
Defined.

(** [clearDirectory] keeps the directory itself. *)
Example clear_toy :
  option_map (fun '(r, w) => (r, disk_log w, bool_decide (disk_open w = ∅)))
    (clearDirectory (toy_calls toy_tree) 10 (L "/r") empty_disk)
  = Some (Ok tt, [[L "a"; L "f"]; [L "a"]; [L "b"]], true).
Proof. vm_compute. reflexivity. Qed.

(** A directory whose entries cannot be read: the constructor throws, no destructor
    runs, and the stream stays open. *)
Definition unreadable : DirCalls disk :=
  let c := toy_calls toy_tree in
  MkDirCalls disk (sys_opendir c) (sys_fdopendir c) (sys_dirfd c) (fun _ w => ((None, EIO), w))
    (sys_closedir c) (sys_fstatat c) (dir_openat c) (dir_close c) (sys_unlinkat c)
    (sys_fchmod c) (last_errno c).
Example unreadable_directory_stays_open :
  option_map (fun '(r, w) => (r, size (disk_open w), size (disk_streams w)))
    (directoryIsEmpty unreadable 10 (L "/r") empty_disk)
  = Some (Throw (SystemError EIO), 1%nat, 1%nat).
Proof. vm_compute. reflexivity. Qed.
