(* ===== verification/StagedCapture.v ===== *)
(** * Capturing outputs from a staged directory

    [buildboxcommon_fallbackstageddirectory.cpp], which downloads and uploads
    through the CAS client, and [buildboxcommon_localcasstageddirectory.cpp],
    which asks the local CAS to capture.  The operations of the client that they
    call, hashing a descriptor and the system calls are parameters over a world
    of any type; [localcas_client] takes them from the model of the client. *)

From S2P Require Import Prelude StdMap Arrays Blake3Compress Digest TimeUtils Grpc Merklize Client ClientBlobs Paths Undefined Posix FileUtils Temporary StagedDirectory.
Open Scope Z_scope.

(** [catch (...) { h; throw; }]. *)
Definition cleanup {S A} (m : UM S A) (h : UM S unit) : UM S A :=
  fun s => match m s with
           | Some (Throw e, s) =>
               match h s with
               | Some (Ok _, s) => Some (Throw e, s)
               | Some (Throw e, s) => Some (Throw e, s)
               | None => None
               end
           | r => r
           end.

(** ** The fallback *)

Section fallback.
Context {W : Type} (sys : Descriptors W) (sys_fstat : Z -> W -> outcome_of Stat).
Context (MicrosecondsToTimestamp : Z -> Timestamp).
(** [CASHash::hash] of what a descriptor reads. *)
Context (CASHash_hash : Z -> UM W Digest).

Record FallbackClient := MkFallbackClient {
  client_downloadDirectory : Digest -> str -> M W unit;
  client_upload : Z -> Digest -> M W unit;
  (** The digest of the root and the tree. *)
  client_uploadDirectory : str -> M W (Digest * Tree);
  client_uploadTree : Tree -> M W Digest;
}.

Record FallbackStagedDirectory := MkFallback {
  fsd_path : str;
  d_stage_directory : str * bool;
  d_stage_directory_fd : Z;
}.

(** The constructor.  What it throws from its body destroys the members: the
    temporary directory is removed, but the descriptor is an [int]. *)
Definition FallbackStagedDirectory_new (temp : TempCalls W)
    (deleteDirectory : str -> M W unit) (client : FallbackClient)
    (digest : Digest) (path : str) : M W FallbackStagedDirectory :=
  let* d_stage_directory := TemporaryDirectory_new temp (Some path) (L "buildboxrun") in
  let d_path := c_str (fst d_stage_directory) in
  mcatch
    (let* fd := call (sys_openat sys AT_FDCWD d_path
                        (MkOpenFlags false false false false true false)) in
     match fd with
     | inl errno => mthrow (SystemError errno)
     | inr d_stage_directory_fd =>
         let* _ := client_downloadDirectory client digest d_path in
         mret (MkFallback d_path d_stage_directory d_stage_directory_fd)
     end)
    (fun e =>
       let* _ := TemporaryDirectory_delete deleteDirectory d_stage_directory in
       mthrow e).

Definition FallbackStagedDirectory_delete (deleteDirectory : str -> M W unit)
    (self : FallbackStagedDirectory) : M W unit :=
  let* _ := call (sys_close sys (d_stage_directory_fd self)) in
  TemporaryDirectory_delete deleteDirectory (d_stage_directory self).

Definition openFile (self : FallbackStagedDirectory) (relative_path : str) : UM W Z :=
  openFileInInputRoot sys (d_stage_directory_fd self) relative_path.

Definition is_missing_path (e : exn) : bool :=
  match e with SystemError errno => (errno =? ENOENT) || (errno =? ENOTDIR) | _ => false end.

(** What is known of an open file. *)
Definition capture_open (relative_path : str) (fd : Z)
    (upload_file_function : Z -> Digest -> M W unit) (capture_mtime : bool)
  : UM W OutputFile :=
  let+ digest := CASHash_hash fd in
  let+ _ := cleanup (ulift (upload_file_function fd digest))
              (let+ _ := ucall (sys_close sys fd) in uret tt) in
  let+ is_executable := ulift (isExecutable_fd sys_fstat fd) in
  let+ node_properties :=
    if capture_mtime then
      let+ mtime := ulift (getFileMtime_fd sys_fstat fd) in
      let mtime_timestamp := make_timestamp MicrosecondsToTimestamp mtime in
      uret (Some (MkNodeProperties [] (Some mtime_timestamp) None))
    else uret None in
  let+ _ := ucall (sys_close sys fd) in
  uret (MkOutputFile relative_path digest is_executable node_properties).

(** [captureFile] with a function that uploads. *)
Definition captureFile_with (self : FallbackStagedDirectory) (relative_path : str)
    (upload_file_function : Z -> Digest -> M W unit) (capture_mtime : bool)
  : UM W OutputFile :=
  let+ fd := ucatch is_missing_path
               (let+ fd := openFile self relative_path in uret (Some fd))
               (uret None) in
  match fd with
  | None => uret OutputFile_default
  | Some fd => capture_open relative_path fd upload_file_function capture_mtime
  end.

Definition fallback_captureFile (client : FallbackClient) (self : FallbackStagedDirectory)
    (relative_path : str) (command : Command) : UM W OutputFile :=
  let capture_mtime :=
    existsb (fun property => bool_decide (property = L "mtime"))
      (output_node_properties command) in
  captureFile_with self relative_path (client_upload client) capture_mtime.

Definition captureDirectory_with (self : FallbackStagedDirectory) (relative_path : str)
    (upload_directory_function : str -> M W Digest) : UM W OutputDirectory :=
  let+ found := directoryInInputRoot sys (d_stage_directory_fd self) relative_path in
  if negb found then uret OutputDirectory_default
  else
    let+ absolute_path := ulift (mlift (makePathAbsolute relative_path (fsd_path self))) in
    let+ tree_digest := ulift (upload_directory_function absolute_path) in
    uret (MkOutputDirectory relative_path tree_digest).

Definition fallback_uploadDirectory (client : FallbackClient) (path : str) : M W Digest :=
  let* (root_directory_digest, tree) := client_uploadDirectory client path in
  client_uploadTree client tree.

Definition fallback_captureDirectory (client : FallbackClient)
    (self : FallbackStagedDirectory) (relative_path : str) (_ : Command)
  : UM W OutputDirectory :=
  captureDirectory_with self relative_path (fallback_uploadDirectory client).
End fallback.
Arguments FallbackClient : clear implicits.

(** ** The local CAS *)

Section localcas.
Context {W : Type} (sys : Descriptors W) (sys_stat : str -> W -> outcome_of Stat).

Record LocalCasClient := MkLocalCasClient {
  lc_stage : Digest -> str -> M W str;
  lc_captureFiles : list str -> list str -> bool -> M W (list CapturedFile);
  lc_captureTree : list str -> list str -> bool -> M W (list CapturedTree);
  (** The destructor of what was staged. *)
  lc_unstage : W -> W;
}.
Context (client : LocalCasClient).

Record LocalCasStagedDirectory := MkLocalCas {
  lsd_path : str;
  d_staged_directory_fd : Z;
}.

Definition LocalCasStagedDirectory_new (digest : Digest) (path : str)
  : M W LocalCasStagedDirectory :=
  let* d_path := lc_stage client digest path in
  let* fd := call (sys_openat sys AT_FDCWD (c_str d_path)
                     (MkOpenFlags false false false false true false)) in
  match fd with
  | inl errno =>
      let* _ := call (fun w => (tt, lc_unstage client w)) in
      mthrow (SystemError errno)
  | inr d_staged_directory_fd => mret (MkLocalCas d_path d_staged_directory_fd)
  end.

Definition LocalCasStagedDirectory_delete (self : LocalCasStagedDirectory) : M W unit :=
  let* _ := call (sys_close sys (d_staged_directory_fd self)) in
  call (fun w => (tt, lc_unstage client w)).

Definition localcas_captureFile (self : LocalCasStagedDirectory) (relative_path : str)
    (command : Command) : UM W OutputFile :=
  let+ found := fileInInputRoot sys (d_staged_directory_fd self) relative_path in
  if negb found then uret OutputFile_default
  else
    let properties := output_node_properties command in
    let+ absolute_path := ulift (mlift (makePathAbsolute relative_path (lsd_path self))) in
    let+ responses := ulift (lc_captureFiles client [absolute_path] properties false) in
    match responses with
    | [] => uthrow RuntimeError
    | captured_file :: _ =>
        if negb (cf_status captured_file =? OK) then uthrow RuntimeError
        else
          let+ is_executable := ulift (isExecutable sys_stat absolute_path) in
          uret (MkOutputFile relative_path (cf_digest captured_file) is_executable
                  (Some (cf_node_properties captured_file)))
    end.

(** The first response is taken without asking whether there is one. *)
Definition localcas_captureDirectory (self : LocalCasStagedDirectory) (relative_path : str)
    (command : Command) : UM W OutputDirectory :=
  let+ found := directoryInInputRoot sys (d_staged_directory_fd self) relative_path in
  if negb found then uret OutputDirectory_default
  else
    let+ absolute_path := ulift (mlift (makePathAbsolute relative_path (lsd_path self))) in
    let properties := output_node_properties command in
    let+ responses := ulift (lc_captureTree client [absolute_path] properties false) in
    let+ response := uvalue (head responses) in
    uret (MkOutputDirectory relative_path (ct_tree_digest response)).
End localcas.
Arguments LocalCasClient : clear implicits.

(** The operations of the client in [ClientBlobs]. *)
Definition localcas_client {W} (env : CasEnv W) (self : Client) : LocalCasClient W :=
  MkLocalCasClient (stage env self) (captureFiles env self) (captureTree env self)
    (StagedDirectory_delete env).
