(* ===== verification/StagedCaptureSpec.v ===== *)
(** * What capturing from a staged directory promises

    A file captured by the fallback is the one reached without following
    symbolic links, under the digest of its contents; which descriptors a capture
    leaves open.  The local CAS is asked about one absolute path inside the staged
    directory. *)

From S2P Require Import Prelude StdMap Arrays Blake3Compress Digest TimeUtils Grpc Merklize MerklizeSpec Merge MergeSpec Client ClientBlobs Paths PathsSpec Undefined Posix FileUtils Temporary StagedDirectory StagedDirectorySpec FileDescentSpec StagedCapture.
Open Scope Z_scope.

Section fallback.
Context {W : Type} (sys : Descriptors W) (tree : FileTree) {laws : DescriptorLaws sys tree}.
Context (sys_fstat : Z -> W -> outcome_of Stat) (to_timestamp : Z -> Timestamp).
Context (CASHash_hash : Z -> UM W Digest) (upload : Z -> Digest -> M W unit).

Abbreviation only := (only sys tree).

(** Hashing a descriptor gives the digest of the node behind it, and neither
    hashing nor uploading opens or closes anything. *)
Class CaptureLaws := {
  node_digest : node tree -> Digest;
  hash_law : forall fd j w, fd ∈ fds w -> refers w fd = Some j ->
    runs (CASHash_hash fd) w (fun r w' => only (fds w) ∅ w w' /\
      match r with Ok d => d = node_digest j | Throw _ => True end);
  upload_law : forall fd d w r w', upload fd d w = (r, w') -> only (fds w) ∅ w w';
}.
Context {capture_laws : CaptureLaws}.

(** At most [n] descriptors more are open, and the others are as they were. *)
Definition leaves_open (n : nat) (w w' : W) : Prop :=
  exists leaked, only (fds w) leaked w w' /\ (size leaked <= n)%nat.

(** From [w0], the descriptor [fd] and [leaked] were opened. *)
Definition holding (w0 : W) (fd : Z) (j : node tree) (leaked : gset Z) (w : W) : Prop :=
  only (fds w0) ({[fd]} ∪ leaked) w0 w /\ (fd ∉ leaked) /\ refers w fd = Some j.

Lemma holding_open w0 fd j leaked w : holding w0 fd j leaked w -> fd ∈ fds w.
Proof. intros ((-> & _) & _). clear. set_solver. Qed.

Lemma holding_same w0 fd j leaked w w' :
  holding w0 fd j leaked w -> only (fds w) ∅ w w' -> holding w0 fd j leaked w'.
Proof.
  intros H (E & _ & Hr). pose proof (holding_open _ _ _ _ _ H) as Hfd.
  destruct H as ((Ew & Hd & Hw) & Hl & Hj). rewrite union_empty_l_L in E.
  assert (fds w0 ⊆ fds w) as Hsub by (rewrite Ew; clear; set_solver).
  split; [|split; [done|by rewrite Hr]].
  split; [congruence|]. split; [done|]. intros x Hx. rewrite Hr by auto. auto.
Qed.

Lemma holding_leaves w0 fd j leaked w : holding w0 fd j leaked w -> leaves_open (S (size leaked)) w0 w.
Proof.
  intros (Ho & Hl & _). exists ({[fd]} ∪ leaked). split; [done|].
  rewrite size_union by (clear -Hl; set_solver). by rewrite size_singleton.
Qed.

(** Closing it. *)
Lemma holding_close {A} w0 fd j leaked w (k : option Z -> UM W A) Q :
  holding w0 fd j leaked w ->
  (forall r w', leaves_open (size leaked) w0 w' -> runs (k r) w' Q) ->
  runs (let+ r := ucall (sys_close sys fd) in k r) w Q.
Proof.
  intros H Hk. pose proof (holding_open _ _ _ _ _ H) as Hfd.
  destruct H as ((E & Hd & Hr) & Hl & Hj). apply (runs_close sys tree); [done|].
  intros r w' E' Hr'. apply Hk. exists leaked. split; [|done].
  assert (fd ∉ fds w0) as Hf0 by (clear -Hd; set_solver).
  split; [rewrite E', E; clear -Hl Hf0; set_solver|]. split; [clear -Hd; set_solver|].
  intros x Hx. rewrite Hr'; [by apply Hr|rewrite E; clear -Hx; set_solver|by intros ->].
Qed.

(** A query changes nothing. *)
Lemma runs_query {A B} (m : M W A) (k : A -> UM W B) w Q :
  snd (m w) = w ->
  match fst (m w) with Ok a => runs (k a) w Q | Throw e => Q (Throw e) w end ->
  runs (let+ a := ulift m in k a) w Q.
Proof. unfold runs, ubind, ulift. by destruct (m w) as [[a|e] w']; cbn; intros <- ?. Qed.

Lemma capture_open_spec path fd j leaked mtime w0 w :
  holding w0 fd j leaked w ->
  runs (capture_open sys sys_fstat to_timestamp CASHash_hash path fd upload mtime) w
    (fun r w' =>
       match r with
       | Ok file => leaves_open (size leaked) w0 w' /\ of_path file = path /\
                    of_digest file = node_digest j
       | Throw e => leaves_open (S (size leaked)) w0 w'
       end).
Proof.
  intros H. unfold capture_open. eapply runs_bind.
  - apply (hash_law fd j); [by eapply holding_open|apply H].
  - intros d w1 [Ho ->]. pose proof (holding_same _ _ _ _ _ _ H Ho) as H1. eapply runs_bind.
    + instantiate (1 := fun r w' =>
        match r with Ok _ => holding w0 fd j leaked w' | Throw _ => leaves_open (size leaked) w0 w' end).
      unfold runs, cleanup, ulift. destruct (upload fd (node_digest j) w1) as [r w2] eqn:Eu.
      pose proof (holding_same _ _ _ _ _ _ H1 (upload_law _ _ _ _ _ Eu)) as H2.
      destruct r as [u|e]; [done|].
      assert (runs (let+ _ := ucall (sys_close sys fd) in uret tt) w2
                (fun r w' => leaves_open (size leaked) w0 w' /\ exists u, r = Ok u)) as Hc.
      { eapply holding_close; [done|]. intros r w' Hl. apply runs_ret. eauto. }
      unfold runs in Hc.
      destruct ((let+ _ := ucall (sys_close sys fd) in uret tt) w2) as [[r w3]|]; [|done].
      by destruct Hc as [Hc [u ->]].
    + intros [] w2 H2. apply runs_query; [done|]. cbn [fst isExecutable_fd query mbind_M mret].
      eapply runs_bind.
      * instantiate (1 := fun r w' => w' = w2). unfold runs. destruct mtime; [|done].
        unfold ubind, ulift, getFileMtime_fd, getFileStat_fd, query, or_throw, mbind_M, mret, mthrow.
        by destruct (sys_fstat fd w2).
      * intros props w3 ->. eapply holding_close; [done|]. intros r w4 H4. by apply runs_ret.
      * intros e w3 ->. by eapply holding_leaves.
    + intros e w2 [leaked' [? ?]]. exists leaked'. split; [done|lia].
  - intros e w1 [Ho _]. eapply holding_leaves, holding_same; done.
Qed.

(** C20. [FallbackStagedDirectory::captureFile] of a path below the staged
    directory: a file that it returns under that path is the entry reached without
    following a symbolic link, with the digest of its contents (or nothing was
    there to capture, and the file has no path).  What was open stays as it was; a
    call that returns leaves no descriptor open if there is at most one directory
    on the way, else at most one; a call that throws may leave one more, that of
    the file itself. *)
Theorem fallback_captures_entry (self : FallbackStagedDirectory) (dirs : list str)
    (name : str) (mtime : bool) (w : W) (i : node tree) :
  Forall entry_name dirs -> entry_name name ->
  d_stage_directory_fd self ∈ fds w -> refers w (d_stage_directory_fd self) = Some i ->
  let path := join_path (dirs ++ [name]) in
  let leaks := pred (Nat.min 2 (length dirs)) in
  runs (captureFile_with sys sys_fstat to_timestamp CASHash_hash self path upload mtime) w
    (fun r w' =>
       match r with
       | Ok file => leaves_open leaks w w' /\
           (file = OutputFile_default \/
            exists d j, descend tree i dirs = Some d /\ entry tree d name = Some j /\
              is_symlink tree j = false /\ of_path file = path /\ of_digest file = node_digest j)
       | Throw e => leaves_open (S leaks) w w'
       end).
Proof.
  intros Hds Hn Hfd Hi path leaks. unfold captureFile_with, openFile. eapply runs_bind.
  - instantiate (1 := fun r w' =>
      match r with
      | Ok (Some fd) => exists d j leaked, descend tree i dirs = Some d /\
          entry tree d name = Some j /\ is_symlink tree j = false /\
          holding w fd j leaked w' /\ size leaked = leaks
      | Ok None | Throw _ => leaves_open leaks w w'
      end).
    apply runs_catch. eapply runs_bind; [by apply (openFile_descends sys tree)| |].
    + intros fd w1 (d & j & leaked & Hd & Hj & Hs & Hf & Ho & Hl & Hsz).
      by exists d, j, leaked.
    + intros e w1 (errno & leaked & -> & Ho & Hsz). destruct (is_missing_path _); by exists leaked.
  - intros [fd|] w1.
    + intros (d & j & leaked & Hd & Hj & Hs & Hh & Hsz).
      eapply runs_mono; [by eapply capture_open_spec|].
      intros [file|e] w2; rewrite Hsz; [|done]. intros (Hl & Hp & Hdig). split; [done|].
      right. by exists d, j.
    + intros Hl. apply runs_ret. split; [done|by left].
  - intros e w1 (leaked & Ho & Hsz). exists leaked. split; [done|lia].
Qed.
End fallback.

(** ** A small staged directory *)

Definition toy_digest_of (j : nat) : Digest := MkDigest (to_string (Z.of_nat j)) 1 [].

Definition toy_hash (fd : Z) : UM (gmap Z nat) Digest :=
  fun w => match w !! fd with
           | Some j => Some (Ok (toy_digest_of j), w)
           | None => Some (Throw (SystemError EBADF), w)
           end.

Definition toy_upload (_ : Z) (_ : Digest) : M (gmap Z nat) unit := mret tt.

Lemma only_same (w : gmap Z nat) : only toy_descriptors toy_tree (fds w) ∅ w w.
Proof. split; [by rewrite union_empty_l_L|]. split; [apply disjoint_empty_l|done]. Qed.

#[global] Instance toy_capture_laws :
  CaptureLaws toy_descriptors toy_tree toy_hash toy_upload.
Proof.
  refine {| node_digest := toy_digest_of : node toy_tree -> Digest |}.
  - intros fd j w Hfd Hj. change (toy_refers w fd = Some j) in Hj.
    unfold runs, toy_hash. unfold toy_refers in Hj. rewrite Hj. split; [apply only_same|done].
  - intros fd d w r w' [= _ <-]. apply only_same.
Defined.

Definition toy_fallback : FallbackStagedDirectory := MkFallback (L "/stage") (L "/stage", true) 3.

Definition toy_fstat (_ : Z) (_ : gmap Z nat) : outcome_of Stat :=
  inr (MkStat (S_IFREG + 493) 1 (MkTimespec 0 0) (MkTimespec 5 0)).

Lemma fallback_captures_entry_witness :
  runs (captureFile_with toy_descriptors toy_fstat toy_us toy_hash toy_fallback (L "a/f")
          toy_upload true) toy_root
    (fun r w' =>
       match r with
       | Ok file => leaves_open toy_descriptors toy_tree 0 toy_root w' /\
           (file = OutputFile_default \/
            exists d j, descend toy_tree 0%nat [L "a"] = Some d /\
              entry toy_tree d (L "f") = Some j /\ is_symlink toy_tree j = false /\
              of_path file = L "a/f" /\
              of_digest file = node_digest toy_descriptors toy_tree toy_hash toy_upload j)
       | Throw e => leaves_open toy_descriptors toy_tree 1 toy_root w'
       end).
Proof.
  assert (Forall entry_name [L "a"]) as H1 by (repeat constructor; closed).
  assert (entry_name (L "f")) as H2 by (repeat constructor; closed).
  assert (3 ∈ fds toy_root) as H3 by closed.
  exact (fallback_captures_entry toy_descriptors toy_tree toy_fstat toy_us toy_hash toy_upload
           toy_fallback [L "a"] (L "f") true toy_root 0%nat H1 H2 H3 eq_refl).
Defined.

Example fallback_captures_file :
  option_map fst (captureFile_with toy_descriptors toy_fstat toy_us toy_hash toy_fallback
                    (L "a/f") toy_upload true toy_root)
  = Some (Ok (MkOutputFile (L "a/f") (MkDigest (L "4") 1 []) true
                (Some (MkNodeProperties [] (Some (MkTimestamp 5 0)) None)))).
Proof. vm_compute. reflexivity. Qed.

(** A hash that fails leaves the descriptor of the file open. *)
Example failed_hash_loses_descriptor :
  option_map (fun '(r, w) => (r, size (dom w)))
    (captureFile_with toy_descriptors toy_fstat toy_us (fun _ => uthrow RuntimeError)
       toy_fallback (L "a/f") toy_upload true toy_root)
  = Some (Throw RuntimeError, 2%nat).
Proof. vm_compute. reflexivity. Qed.

(** The local CAS: a tree that could not be captured is returned with whatever
    digest is in the response, and an empty response is read past its end. *)
Definition toy_localcas (responses : list CapturedTree) : LocalCasClient (gmap Z nat) :=
  MkLocalCasClient (fun _ _ => mret (L "/stage")) (fun _ _ _ => mret [])
    (fun _ _ _ => mret responses) id.

Example localcas_status_is_ignored :
  let capture responses :=
    option_map fst (localcas_captureDirectory toy_descriptors (toy_localcas responses)
                      (MkLocalCas (L "/stage") 3) (L "a") toy_command toy_root) in
  capture [MkCapturedTree (L "/stage/a") empty_digest INTERNAL]
  = Some (Ok (MkOutputDirectory (L "a") empty_digest)) /\ capture [] = None.
Proof. vm_compute. done. Qed.
