(* ===== verification/SystemUtils.v ===== *)
(** * Processes and descriptors

    [buildboxcommon_systemutils.cpp].  [fork] is given what the child goes on to
    do; a call that does not return ([execv] that succeeds, [_Exit]) has no
    result.  Waiting has fuel, since a caught signal ends each wait. *)

From S2P Require Import Prelude StdMap Arrays Blake3Compress Digest TimeUtils Grpc Merklize Paths Cstring Undefined Posix FileUtils.
Open Scope Z_scope.

(** How the part of a child process that is its own code ends: replaced by [execv],
    in [_Exit], or with an exception that goes on through the stack it shares
    with its parent. *)
Inductive child_end :=
  | Replaced
  | Exits (code : Z)
  | Throws (e : exn).

Record ProcessCalls (W : Type) := MkProcessCalls {
  (** [None]: the process has been replaced. *)
  sys_execv : list str -> W -> option Z * W;
  (** The child runs the function; the parent has its identifier. *)
  sys_fork : (W -> child_end * W) -> W -> outcome_of Z * W;
  (** The identifier and the status, or an [errno]. *)
  sys_waitpid : Z -> W -> outcome_of Z * W;
  env_path : W -> option str;
  (** [strdup]: out of memory or not. *)
  sys_strdup : str -> W -> outcome_of str * W;
  sys_getcwd : Z -> W -> outcome_of str * W;
  proc_open : str -> OpenFlags -> Z -> W -> outcome_of Z * W;
  sys_dup2 : Z -> Z -> W -> outcome_of Z * W;
  proc_close : Z -> W -> option Z * W;
  sys_kill : Z -> Z -> W -> W;
}.
Arguments sys_execv {W} _. Arguments sys_fork {W} _. Arguments sys_waitpid {W} _.
Arguments env_path {W} _. Arguments sys_strdup {W} _. Arguments sys_getcwd {W} _.
Arguments proc_open {W} _. Arguments sys_dup2 {W} _. Arguments proc_close {W} _.
Arguments sys_kill {W} _.

(** ** Exit statuses, as the macros of [wait.h] decode them *)

Definition WTERMSIG (status : Z) : Z := Z.land status 127.
Definition WIFEXITED (status : Z) : bool := WTERMSIG status =? 0.
Definition WEXITSTATUS (status : Z) : Z := Z.shiftr (Z.land status 65280) 8.
Definition signed_char (x : Z) : Z := (x + 128) mod 256 - 128.
Definition WIFSIGNALED (status : Z) : bool :=
  0 <? Z.shiftr (signed_char (WTERMSIG status + 1)) 1.

Section processes.
Context {W : Type} (sys : ProcessCalls W).

Definition logLineForCommand (command : list str) : str :=
  concat (map (fun token => token ++ L " ") command).

(** The exit code, if [execv] failed. *)
Definition executeCommand (command : list str) : W -> option Z * W := fun w =>
  match sys_execv sys (map c_str command) w with
  | (None, w) => (None, w)
  | (Some exec_error, w) => (Some (if exec_error =? ENOENT then 127 else 126), w)
  end.

(** ** Waiting *)

Definition waitPidOrSignal (pid : Z) : M W Z :=
  let* waited := call (sys_waitpid sys pid) in
  match waited with
  | inl waitpid_error =>
      if waitpid_error =? EINTR then mret (- EINTR) else mthrow (SystemError waitpid_error)
  | inr status =>
      if WIFEXITED status then mret (WEXITSTATUS status)
      else if WIFSIGNALED status then mret (128 + WTERMSIG status)
      else mthrow RuntimeError
  end.

Fixpoint waitPid (fuel : nat) (pid : Z) : UM W Z :=
  let+ exit_code := ulift (waitPidOrSignal pid) in
  if exit_code =? - EINTR then
    match fuel with O => undefined | S fuel => waitPid fuel pid end
  else uret exit_code.

(** The child: its own status is that of a failed [execv]. *)
Definition child_of_executeCommand (command : list str) : W -> child_end * W := fun w =>
  match executeCommand command w with
  | (Some status, w) => (Exits status, w)
  | (None, w) => (Replaced, w)
  end.

Definition executeCommandAndWait (fuel : nat) (command : list str) : UM W Z :=
  let+ pid := ucall (sys_fork sys (child_of_executeCommand command)) in
  match pid with
  | inl errno => uthrow (SystemError errno)
  | inr pid => waitPid fuel pid
  end.

(** ** [getPathToCommand] *)

(** The tokens of [strtok]: runs of characters other than the separator. *)
Definition strtok (separator : ascii) (s : str) : list str :=
  let fix go (token : str) (s : str) : list str :=
    match s with
    | [] => if decide (token = []) then [] else [token]
    | c :: s =>
        if ascii_dec c separator
        then (if decide (token = []) then go [] s else token :: go [] s)
        else go (token ++ [c]) s
    end in
  go [] s.

Context (sys_stat : str -> W -> outcome_of Stat).

Fixpoint search_path (tokens : list str) (command : str) : M W str :=
  match tokens with
  | [] => mret []
  | token :: tokens =>
      let path := token ++ L "/" ++ command in
      let* regular := isRegularFile sys_stat path in
      let* executable := if (regular : bool) then isExecutable sys_stat path else mret false in
      if (executable : bool) then mret path else search_path tokens command
  end.

Definition getPathToCommand (command : str) : M W str :=
  if bool_decide (slash ∈ command) then mret command
  else
    let* path_pointer := query (env_path sys) in
    match path_pointer with
    | None => mret []
    | Some path_pointer =>
        let* copied := call (sys_strdup sys path_pointer) in
        match copied with
        | inl errno => mthrow (SystemError errno)
        | inr path_envvar_contents => search_path (strtok ":"%char path_envvar_contents) command
        end
    end.

(** ** [get_current_working_directory] *)

(** The size is an [unsigned int]. *)
Fixpoint getcwd_loop (fuel : nat) (bufferSize : Z) : UM W str :=
  let+ cwd := ucall (sys_getcwd sys bufferSize) in
  match cwd with
  | inr cwd => uret (c_str cwd)
  | inl errno =>
      if errno =? ERANGE then
        match fuel with O => undefined | S fuel => getcwd_loop fuel (u32 (bufferSize * 2)) end
      else uthrow RuntimeError
  end.

Definition get_current_working_directory (fuel : nat) : UM W str := getcwd_loop fuel 1024.

(** ** [redirectStandardOutputToFile] *)

Definition redirect_flags : OpenFlags := MkOpenFlags true true true true false false.

Definition redirectStandardOutputToFile (standardOutputFd : Z) (path : str) : M W unit :=
  if negb (standardOutputFd =? STDOUT_FILENO) && negb (standardOutputFd =? STDERR_FILENO)
  then mthrow InvalidArgument
  else
    let* fileFd := call (proc_open sys (c_str path) redirect_flags 384) in
    match fileFd with
    | inl errno => mthrow (SystemError errno)
    | inr fileFd =>
        let* duplicated := call (sys_dup2 sys fileFd standardOutputFd) in
        match duplicated with
        | inl errno => mthrow (SystemError errno)
        | inr _ => let* _ := call (proc_close sys fileFd) in mret tt
        end
    end.
End processes.
