(* ===== verification/SystemUtilsSpec.v ===== *)
(** * What the functions on processes promise

    Exit codes tell an exit from a signal and from an interruption; waiting ends;
    the working directory is found in a bounded number of attempts; the search of
    a command gives the first candidate of PATH. *)

From S2P Require Import Prelude StdMap Arrays Blake3Compress Digest TimeUtils Grpc Merklize Paths Cstring Undefined Posix FileUtils SystemUtils.
Open Scope Z_scope.

(** ** Exit codes *)

(** How a child ended, and the status that the kernel reports for it. *)
Inductive ended :=
  | ChildExited (code : Z)
  | ChildKilled (signal : Z) (core : bool).

Definition status_word (e : ended) : Z :=
  match e with
  | ChildExited code => code * 256
  | ChildKilled signal core => signal + if core then 128 else 0
  end.

Definition ended_ok (e : ended) : Prop :=
  match e with
  | ChildExited code => 0 <= code <= 255
  | ChildKilled signal _ => 1 <= signal <= 126
  end.

Definition code_of (e : ended) : Z :=
  match e with ChildExited code => code | ChildKilled signal _ => 128 + signal end.

(** A statement about integers in an interval, checked for each. *)
Lemma check_range (P : Z -> bool) (n : nat) (lo : Z) :
  forallb (fun k => P (lo + Z.of_nat k)) (seq 0 n) = true ->
  forall x, lo <= x < lo + Z.of_nat n -> P x = true.
Proof.
  intros H x Hx. rewrite forallb_forall in H.
  replace x with (lo + Z.of_nat (Z.to_nat (x - lo))) by lia.
  apply H, in_seq. lia.
Qed.

Definition decodes (e : ended) : bool :=
  let status := status_word e in
  match e with
  | ChildExited code => WIFEXITED status && (WEXITSTATUS status =? code)
  | ChildKilled signal _ =>
      negb (WIFEXITED status) && WIFSIGNALED status && (WTERMSIG status =? signal)
  end.

Lemma decodes_ended e : ended_ok e -> decodes e = true.
Proof.
  destruct e as [code|signal core]; cbn [ended_ok]; intros H.
  - apply (check_range (fun c => decodes (ChildExited c)) 256 0); [vm_compute; reflexivity|lia].
  - destruct core.
    + apply (check_range (fun s => decodes (ChildKilled s true)) 126 1); [vm_compute; reflexivity|lia].
    + apply (check_range (fun s => decodes (ChildKilled s false)) 126 1); [vm_compute; reflexivity|lia].
Qed.

Section waiting.
Context {W : Type} (sys : ProcessCalls W).

Lemma waitPidOrSignal_ended pid e w w' :
  ended_ok e -> sys_waitpid sys pid w = (inr (status_word e), w') ->
  waitPidOrSignal sys pid w = (Ok (code_of e), w').
Proof.
  intros He Hw. pose proof (decodes_ended e He) as Hd. unfold decodes in Hd.
  unfold waitPidOrSignal, mbind_M, call. rewrite Hw.
  destruct e as [code|signal core]; cbn [code_of].
  - apply andb_true_iff in Hd as [-> Hc]. apply Z.eqb_eq in Hc. by rewrite Hc.
  - rewrite !andb_true_iff, negb_true_iff in Hd. destruct Hd as [[-> ->] Hc].
    apply Z.eqb_eq in Hc. by rewrite Hc.
Qed.

(** A child that is waited for: [waitpid] is interrupted so many times more, and
    then reports how the child ended. *)
Class ChildEnds (pid : Z) (e : ended) := {
  interruptions : W -> nat;
  waitpid_law : forall w,
    match sys_waitpid sys pid w with
    | (inl errno, w') => errno = EINTR /\ interruptions w = S (interruptions w')
    | (inr status, w') => interruptions w = O /\ status = status_word e
    end;
}.

(** Waiting for a child: whatever it is interrupted by, [waitPid] gets to the
    end of it, with as many more calls as there are interruptions; the code is the
    exit status of a child that exited, between 0 and 255, and 128 plus the signal
    of one that was killed, never the negative code of an interruption. *)
Theorem waitPid_ends (pid : Z) (e : ended) {child : ChildEnds pid e} (fuel : nat) (w : W) :
  ended_ok e -> (interruptions w <= fuel)%nat ->
  runs (waitPid sys fuel pid) w (fun r _ => r = Ok (code_of e) /\ 0 <= code_of e < 256).
Proof.
  intros He. assert (0 <= code_of e < 256) as Hc.
  { destruct e; cbn in *; lia. }
  revert w. induction fuel as [|fuel IH]; intros w Hw; cbn [waitPid];
    unfold runs, ubind, ulift; pose proof (waitpid_law w) as HL;
    destruct (sys_waitpid sys pid w) as [[errno|status] w'] eqn:E.
  1: destruct HL; lia.
  2: destruct HL as [-> HL].
  2: { unfold waitPidOrSignal, mbind_M, call at 1. rewrite E. cbn. apply IH. lia. }
  all: destruct HL as [_ ->]; rewrite (waitPidOrSignal_ended pid e w w') by done;
    (replace (code_of e =? - EINTR) with false by (unfold EINTR; lia)); by split.
Qed.
End waiting.
Arguments interruptions {W sys pid e _} _.
Arguments waitpid_law {W sys pid e _} _.

(** A child that exits with 3 after two interruptions. *)
Definition toy_processes (status : Z) : ProcessCalls nat :=
  MkProcessCalls nat (fun _ w => (Some ENOENT, w)) (fun _ w => (inr 7, w))
    (fun _ w => match w with O => (inr status, O) | S w => (inl EINTR, w) end)
    (fun _ => Some (L "/bin::/usr/bin")) (fun s w => (inr s, w))
    (fun size w => (if size <=? 5000 then inl ERANGE else inr (L "/root"), w))
    (fun _ _ _ w => (inr 5, w)) (fun _ fd w => (inr fd, w)) (fun _ w => (None, w))
    (fun _ _ w => w).

#[global] Instance toy_child : ChildEnds (toy_processes (3 * 256)) 7 (ChildExited 3).
Proof. refine {| interruptions := fun w : nat => w |}. by intros [|w]. Defined.

Lemma waitPid_ends_witness :
  runs (waitPid (toy_processes (3 * 256)) 2 7) 2%nat
    (fun r _ => r = Ok 3 /\ 0 <= 3 < 256).
Proof.
  apply (waitPid_ends (toy_processes (3 * 256)) 7 (ChildExited 3) 2 2%nat); [cbn; lia|cbn; lia].
Defined.

(** ** The working directory *)

Definition EINVAL : Z := 22.

Section cwd.
Context {W : Type} (sys : ProcessCalls W).

(** [getcwd(3)] of a working directory [cwd]: it takes a buffer with room for the
    path and a NUL, and refuses an empty one in another way. *)
Class WorkingDirectory (cwd : str) := {
  getcwd_law : forall size w,
    sys_getcwd sys size w
    = (if size =? 0 then inl EINVAL else if size <=? zlen cwd then inl ERANGE else inr cwd, w);
}.

(** The size of the buffer when so many doublings are left. *)
Definition buffer_size (left : nat) : Z := match left with O => 0 | _ => 2 ^ (32 - Z.of_nat left) end.

Lemma buffer_size_doubles left :
  (left < 31)%nat -> u32 (buffer_size (S left) * 2) = buffer_size left.
Proof.
  intros Hl. unfold buffer_size, u32. rewrite Z.mul_comm, <- Z.pow_succ_r by lia.
  destruct left as [|left]; [done|].
  replace (Z.succ (32 - Z.of_nat (S (S left)))) with (32 - Z.of_nat (S left)) by lia.
  apply Z.mod_small. split; [apply Z.pow_nonneg; lia|]. apply Z.pow_lt_mono_r; lia.
Qed.

Lemma getcwd_loop_total cwd {law : WorkingDirectory cwd} left w :
  (left <= 31)%nat ->
  getcwd_loop sys left (buffer_size left) w
  = Some (if zlen cwd <? 2 ^ 31 then if bool_decide (left = O) then Throw RuntimeError
                                     else Ok (c_str cwd)
          else Throw RuntimeError, w).
Proof.
  induction left as [|left IH]; intros Hl; cbn [getcwd_loop];
    unfold ubind, ucall, ulift, call; rewrite getcwd_law.
  - cbn. by destruct (_ <? _).
  - assert (0 < buffer_size (S left) <= 2 ^ 31) as Hs.
    { unfold buffer_size. split; [apply Z.pow_pos_nonneg; lia|apply Z.pow_le_mono_r; lia]. }
    destruct (Z.eqb_spec (buffer_size (S left)) 0) as [?|_]; [lia|].
    destruct (Z.leb_spec (buffer_size (S left)) (zlen cwd)) as [Hle|Hgt].
    + rewrite Z.eqb_refl, buffer_size_doubles, IH by lia.
      destruct left as [|left]; [|done]. cbn in Hle.
      destruct (Z.ltb_spec (zlen cwd) (2 ^ 31)); [lia|done].
    + destruct (Z.ltb_spec (zlen cwd) (2 ^ 31)); [done|lia].
Qed.

(** The doublings of an [unsigned] size come to an end: a working directory of
    less than 2 GiB is found within 23 attempts, and for a longer one the size
    wraps to 0, which [getcwd] refuses. *)
Theorem get_current_working_directory_total (cwd : str) {law : WorkingDirectory cwd} (w : W) :
  get_current_working_directory sys 22 w
  = Some (if zlen cwd <? 2 ^ 31 then Ok (c_str cwd) else Throw RuntimeError, w).
Proof. exact (getcwd_loop_total cwd 22 w ltac:(lia)). Qed.
End cwd.

(** ** Searching PATH *)

Section search.
Context {W : Type} (sys_stat : str -> W -> outcome_of Stat).

Definition candidate (w : W) (path : str) : bool :=
  match sys_stat (c_str path) w with
  | inr s => S_ISREG (st_mode s) && executable (inr s)
  | inl _ => false
  end.

(** Looking at the path does not fail in a way that stops the search. *)
Definition searchable (w : W) (path : str) : Prop :=
  match sys_stat (c_str path) w with
  | inr _ => True
  | inl errno => errno = ENOENT \/ errno = ENOTDIR
  end.

(** The first candidate of a list, or the empty string. *)
Fixpoint first_candidate (w : W) (paths : list str) : str :=
  match paths with
  | [] => []
  | path :: paths => if candidate w path then path else first_candidate w paths
  end.

(** The search gives it. *)
Theorem search_path_first (tokens : list str) (command : str) (w : W) :
  Forall (searchable w) (map (fun token => token ++ L "/" ++ command) tokens) ->
  search_path sys_stat tokens command w
  = (Ok (first_candidate w (map (fun token => token ++ L "/" ++ command) tokens)), w).
Proof.
  induction tokens as [|token tokens IH]; intros Hs; [done|]. cbn [map] in *.
  apply Forall_cons_1 in Hs as [Hs Hss]. cbn [search_path first_candidate].
  unfold isRegularFile, isExecutable, query, mode_test, candidate. unfold mbind_M at 1 2 3.
  set (path := token ++ L "/" ++ command) in *. unfold searchable in Hs.
  destruct (sys_stat (c_str path) w) as [errno|s] eqn:E.
  - assert ((errno =? ENOENT) || (errno =? ENOTDIR) = true) as -> by (destruct Hs as [->| ->]; done).
    by apply IH.
  - cbn [mret]. destruct (S_ISREG (st_mode s)); [|by apply IH]. cbn. rewrite E.
    unfold executable in *. destruct (negb _); [done|by apply IH].
Qed.
End search.

(** Empty components of PATH are skipped, although POSIX gives them a meaning. *)
Example strtok_path : strtok ":"%char (L "/bin::/usr/bin:") = [L "/bin"; L "/usr/bin"].
Proof. reflexivity. Qed.

(** A directory that may not be searched ends the search with an exception. *)
Example unsearchable_directory :
  getPathToCommand (toy_processes 0)
    (fun path (_ : nat) =>
       if decide (path = L "/bin/cc") then inl 13
       else inr (MkStat (S_IFREG + 493) 0 (MkTimespec 0 0) (MkTimespec 0 0)))
    (L "cc") O
  = (Throw (SystemError 13), O).
Proof. reflexivity. Qed.

(** When the file opened takes the place of a closed standard output, [dup2] has
    nothing to do and the redirected output is closed again. *)
Example redirect_closed_stdout :
  let sys := MkProcessCalls (list Z) (fun _ w => (None, w)) (fun _ w => (inr 7, w))
    (fun _ w => (inr 0, w)) (fun _ => None) (fun s w => (inr s, w)) (fun _ w => (inl 1, w))
    (fun _ _ _ w => (inr 1, 1 :: w)) (fun _ fd w => (inr fd, w))
    (fun fd w => (None, base.filter (fun x => x <> fd) w)) (fun _ _ w => w) in
  redirectStandardOutputToFile sys STDOUT_FILENO (L "out") [2] = (Ok tt, [2]).
Proof. reflexivity. Qed.
