(* ===== verification/TokenAuthenticator.v ===== *)
(** * The access token of a channel

    [buildboxcommon_reloadtokenauthenticator.cpp].  First the calls as one
    thread makes them, over a world that answers for the clock and the token
    file; then the same calls made by any number of threads, as a step relation
    in which every lock operation and every access to a shared field is a step. *)

From S2P Require Import Prelude Grpc Paths StringUtils Cstring.
Open Scope Z_scope.

(** ** [ParseTime] *)

(** [{'M', 60}, {'H', 60 * 60}]. *)
Definition prefix_to_mult (c : ascii) : option Z :=
  if ascii_dec c "M"%char then Some 60
  else if ascii_dec c "H"%char then Some 3600
  else None.

(** A product of two [int]s; [None] is a signed overflow, which is undefined. *)
Definition int_mul (a b : Z) : option Z :=
  if (INT_MIN <=? a * b) && (a * b <=? INT_MAX) then Some (a * b) else None.

(** The number of seconds; [None] where the program overflows. *)
Definition ParseTime (refresh_time_char : str) : option (res Z) :=
  let refresh_time := c_str refresh_time_char in
  if bool_decide (refresh_time = []) then Some (Throw InvalidArgument)
  else
    let back := toupper (back refresh_time) in
    let '(multiplier, suffix) :=
      match prefix_to_mult back with
      | Some m => (m, 1%nat)
      | None => (60, 0%nat)
      end in
    match stoi refresh_time with
    | Throw e => Some (Throw e)
    | Ok (n, pos) =>
        match int_mul n multiplier with
        | None => None
        | Some refresh_duration =>
            if negb (length refresh_time - suffix =? pos)%nat
            then Some (Throw InvalidArgument)
            else Some (Ok refresh_duration)
        end
    end.

(** ** The calls of one thread *)

Record ReloadTokenAuthenticator := MkRTA {
  d_token_path : str;
  d_token_string : str;
  d_next_refresh_time : Z;   (** nanoseconds of [steady_clock] *)
  d_refresh_duration : Z;    (** seconds *)
  d_skip_refresh : bool;
  d_reload_lock : bool;      (** held by some thread? *)
}.

Definition set_token (self : ReloadTokenAuthenticator) (token : str) :=
  MkRTA (d_token_path self) token (d_next_refresh_time self)
    (d_refresh_duration self) (d_skip_refresh self) (d_reload_lock self).
Definition set_next (self : ReloadTokenAuthenticator) (next : Z) :=
  MkRTA (d_token_path self) (d_token_string self) next
    (d_refresh_duration self) (d_skip_refresh self) (d_reload_lock self).
Definition set_lock (self : ReloadTokenAuthenticator) (locked : bool) :=
  MkRTA (d_token_path self) (d_token_string self) (d_next_refresh_time self)
    (d_refresh_duration self) (d_skip_refresh self) locked.

(** The text of the header for the contents of the token file. *)
Definition bearer (contents : str) : str := L "Bearer " ++ trim contents.

(** When the token read at [now] is due again. *)
Definition due (duration now : Z) : Z := now + duration * 1000000000.

Section calls.
Context {W : Type}.
(** [FileUtils::getFileContents] finds the contents or fails; the clock. *)
Context (load : str -> W -> option str * W) (steady_now : W -> Z * W).

Definition S_ : Type := ReloadTokenAuthenticator * W.

Definition clock_now : M S_ Z :=
  fun '(self, w) => let '(t, w) := steady_now w in (Ok t, (self, w)).

Definition file_contents (path : str) : M S_ str :=
  fun '(self, w) =>
    match load path w with
    | (None, w) => (Throw RuntimeError, (self, w))
    | (Some contents, w) => (Ok contents, (self, w))
    end.

Definition update (f : ReloadTokenAuthenticator -> ReloadTokenAuthenticator)
  : M S_ unit := fun '(self, w) => (Ok tt, (f self, w)).
Definition field {A} (f : ReloadTokenAuthenticator -> A) : M S_ A :=
  fun '(self, w) => (Ok (f self), (self, w)).

Definition SetNextRefreshTimeFromNow : M S_ unit :=
  let* now := clock_now in
  update (fun self => set_next self (due (d_refresh_duration self) now)).

Definition TrimAndSetToken : M S_ unit :=
  let* path := field d_token_path in
  let* new_token_string := file_contents path in
  let* _ := update (fun self => set_token self (bearer new_token_string)) in
  SetNextRefreshTimeFromNow.

Definition RefreshTokenIfNeeded : M S_ unit :=
  let* current_time := clock_now in
  let* next_refresh_time := field d_next_refresh_time in
  if next_refresh_time <=? current_time then
    let* locked := field d_reload_lock in
    if (locked : bool) then mret tt
    else
      let* _ := update (fun self => set_lock self true) in
      (* the lock guard *)
      let* _ := mcatch TrimAndSetToken
                  (fun e => let* _ := update (fun self => set_lock self false) in
                            mthrow e) in
      update (fun self => set_lock self false)
  else mret tt.

(** The value of the header [authorization]. *)
Definition GetMetadata : M S_ str :=
  let* skip := field d_skip_refresh in
  let* _ := (if (skip : bool) then mret tt else RefreshTokenIfNeeded) in
  field d_token_string.

(** The constructor; without an interval [d_refresh_duration] is not set and has
    some value [indeterminate]. *)
Definition ReloadTokenAuthenticator_new (token_path : str)
    (refresh_time : option str) (indeterminate : Z)
  : option (M W ReloadTokenAuthenticator) :=
  let start (skip : bool) (duration : Z) : M W ReloadTokenAuthenticator :=
    fun w =>
      match TrimAndSetToken (MkRTA token_path [] 0 duration skip false, w) with
      | (Ok _, (self, w)) => (Ok self, w)
      | (Throw e, (_, w)) => (Throw e, w)
      end in
  match refresh_time with
  | None => Some (start true indeterminate)
  | Some refresh_time =>
      match ParseTime refresh_time with
      | None => None
      | Some r => Some (let* duration := mlift r in start false duration)
      end
  end.

End calls.

(** ** The calls of many threads

    Where a thread is inside [GetMetadata]; the values it has read so far. *)
Inductive pc :=
  | Start
  | HaveTime (current_time : Z)       (** after [steady_clock::now()] *)
  | TryLock                           (** the token is due *)
  | Loading                           (** [d_reload_lock] taken *)
  | Loaded (contents : str)
  | TokenSet                          (** holds [d_token_string_lock] too *)
  | Unlocking                         (** at the end of the lock guard *)
  | Unwinding                         (** the same, for an exception *)
  | Reading                           (** about to call [GetTokenString] *)
  | Done (token : str)
  | Failed.

Record Conc := MkConc {
  shared : ReloadTokenAuthenticator;
  token_lock : bool;        (** [d_token_string_lock] held exclusively? *)
  served : list str;        (** every contents read from the file so far *)
  threads : list pc;
}.

(** A step of a thread: the clock and the file answer anything, and [try_lock]
    may fail even when the lock is free. *)
Inductive thread_step
  : ReloadTokenAuthenticator * bool * list str -> pc ->
    ReloadTokenAuthenticator * bool * list str -> pc -> Prop :=
  | ts_skip sh tl sv :
      d_skip_refresh sh = true ->
      thread_step (sh, tl, sv) Start (sh, tl, sv) Reading
  | ts_now sh tl sv t :
      d_skip_refresh sh = false ->
      thread_step (sh, tl, sv) Start (sh, tl, sv) (HaveTime t)
  | ts_due sh tl sv t :
      d_next_refresh_time sh <= t ->
      thread_step (sh, tl, sv) (HaveTime t) (sh, tl, sv) TryLock
  | ts_not_due sh tl sv t :
      t < d_next_refresh_time sh ->
      thread_step (sh, tl, sv) (HaveTime t) (sh, tl, sv) Reading
  | ts_try_fails sh tl sv :
      thread_step (sh, tl, sv) TryLock (sh, tl, sv) Reading
  | ts_try_locks sh tl sv :
      d_reload_lock sh = false ->
      thread_step (sh, tl, sv) TryLock (set_lock sh true, tl, sv) Loading
  | ts_load sh tl sv contents :
      thread_step (sh, tl, sv) Loading (sh, tl, contents :: sv) (Loaded contents)
  | ts_load_fails sh tl sv :
      thread_step (sh, tl, sv) Loading (sh, tl, sv) Unwinding
  | ts_set_token sh sv contents :
      thread_step (sh, false, sv) (Loaded contents)
        (set_token sh (bearer contents), true, sv) TokenSet
  | ts_set_next sh tl sv now :
      thread_step (sh, tl, sv) TokenSet
        (set_next sh (due (d_refresh_duration sh) now), false, sv) Unlocking
  | ts_unlock sh tl sv :
      thread_step (sh, tl, sv) Unlocking (set_lock sh false, tl, sv) Reading
  | ts_unwind sh tl sv :
      thread_step (sh, tl, sv) Unwinding (set_lock sh false, tl, sv) Failed
  | ts_read sh sv :
      thread_step (sh, false, sv) Reading (sh, false, sv) (Done (d_token_string sh)).

Inductive conc_step (c : Conc) : Conc -> Prop :=
  | conc_thread i p sh tl sv p' :
      threads c !! i = Some p ->
      thread_step (shared c, token_lock c, served c) p (sh, tl, sv) p' ->
      conc_step c (MkConc sh tl sv (<[i := p']> (threads c))).

(** The state after a constructor that read [contents], with [k] calls to make. *)
Definition conc_initial (sh : ReloadTokenAuthenticator) (contents : str) (k : nat)
  : Conc := MkConc sh false [contents] (replicate k Start).

Definition constructed (sh : ReloadTokenAuthenticator) (contents : str) : Prop :=
  d_token_string sh = bearer contents /\ d_reload_lock sh = false.

(** Between locking and unlocking [d_reload_lock]. *)
Definition holds_reload (p : pc) : bool :=
  match p with
  | Loading | Loaded _ | TokenSet | Unlocking | Unwinding => true
  | _ => false
  end.
Definition holds_token (p : pc) : bool :=
  match p with TokenSet => true | _ => false end.
Definition finished (p : pc) : bool :=
  match p with Done _ | Failed => true | _ => false end.

(** How many steps a thread can still take. *)
Definition rank (p : pc) : nat :=
  match p with
  | Start => 8
  | HaveTime _ => 7
  | TryLock => 6
  | Loading => 5
  | Loaded _ => 4
  | TokenSet => 3
  | Unlocking => 2
  | Unwinding | Reading => 1
  | Done _ | Failed => 0
  end%nat.
