(* ===== verification/TokenAuthenticatorSpec.v ===== *)
(** * Properties of the access token *)

From stdpp Require Import relations.
From S2P Require Import Prelude StdMap Arrays Grpc Paths PathsSpec StringUtils Cstring TokenAuthenticator.
Open Scope Z_scope.

(** ** Sums over the threads *)

Fixpoint total (g : pc -> nat) (l : list pc) : nat :=
  match l with
  | [] => 0
  | p :: l => g p + total g l
  end.

Lemma total_insert g (l : list pc) i p p' :
  l !! i = Some p -> (total g (<[i := p']> l) + g p = total g l + g p')%nat.
Proof.
  revert i. induction l as [|q l IH]; intros [|i] Hi; [done..| |].
  - injection Hi as ->. cbn. lia.
  - specialize (IH i Hi). cbn [total]. change (<[S i:=p']> (q :: l)) with (q :: <[i:=p']> l).
    cbn [total]. lia.
Qed.

Lemma total_replicate g k p : total g (replicate k p) = (k * g p)%nat.
Proof. induction k as [|k IH]; [done|]. cbn [replicate total]. lia. Qed.

Lemma total_pos g (l : list pc) :
  (0 < total g l)%nat -> exists i p, l !! i = Some p /\ (0 < g p)%nat.
Proof.
  induction l as [|q l IH]; cbn [total]; [lia|]. intros H.
  destruct (g q) as [|n] eqn:E; [|exists O, q; split; [done|lia]].
  destruct (IH ltac:(lia)) as (i & p & Hp & Hg). by exists (S i), p.
Qed.

Definition holders (l : list pc) : nat := total (fun p => Nat.b2n (holds_reload p)) l.
Definition writers (l : list pc) : nat := total (fun p => Nat.b2n (holds_token p)) l.

Lemma holders_insert (l : list pc) i p p' :
  l !! i = Some p ->
  (holders (<[i := p']> l) + Nat.b2n (holds_reload p)
   = holders l + Nat.b2n (holds_reload p'))%nat.
Proof. apply (total_insert (fun p => Nat.b2n (holds_reload p))). Qed.

Lemma writers_insert (l : list pc) i p p' :
  l !! i = Some p ->
  (writers (<[i := p']> l) + Nat.b2n (holds_token p)
   = writers l + Nat.b2n (holds_token p'))%nat.
Proof. apply (total_insert (fun p => Nat.b2n (holds_token p))). Qed.

(** ** The invariant *)

(** What a thread has read is a contents of the file, or the text made of one. *)
Definition pc_ok (sv : list str) (p : pc) : Prop :=
  match p with
  | Loaded contents => contents ∈ sv
  | Done token => exists contents, contents ∈ sv /\ token = bearer contents
  | _ => True
  end.

Lemma pc_ok_more sv contents p : pc_ok sv p -> pc_ok (contents :: sv) p.
Proof.
  destruct p; cbn; try done.
  - intros H. by apply list_elem_of_further.
  - intros (c & H & ->). exists c. split; [by apply list_elem_of_further|done].
Qed.

(** Each lock is held by the threads that are between taking and releasing it,
    so by one at most. *)
Record conc_inv (c : Conc) : Prop := {
  inv_reload : holders (threads c) = Nat.b2n (d_reload_lock (shared c));
  inv_token : writers (threads c) = Nat.b2n (token_lock c);
  inv_served : exists contents, contents ∈ served c /\
                 d_token_string (shared c) = bearer contents;
  inv_threads : Forall (pc_ok (served c)) (threads c);
}.

Lemma conc_inv_initial sh contents k :
  constructed sh contents -> conc_inv (conc_initial sh contents k).
Proof.
  intros [Ht Hl]. split; cbn.
  - unfold holders. rewrite total_replicate, Hl. cbn. lia.
  - unfold writers. rewrite total_replicate. cbn. lia.
  - exists contents. split; [by apply list_elem_of_here|done].
  - by apply Forall_replicate.
Qed.

(** A thread that steps keeps the sums, by the change of its own summand. *)
Lemma step_inv c c' : conc_inv c -> conc_step c c' -> conc_inv c'.
Proof.
  intros [Hr Ht Hs Hp] H. destruct H as [i p sh tl sv p' Hi H].
  pose proof (holders_insert _ _ _ p' Hi) as Er. rewrite Hr in Er.
  pose proof (writers_insert _ _ _ p' Hi) as Et. rewrite Ht in Et.
  pose proof (proj1 (Forall_lookup _ _) Hp i p Hi) as Hok.
  destruct c as [csh ctl csv l]. cbn [shared token_lock served threads] in *.
  split; cbn [shared token_lock served threads].
  - revert Er. generalize (holders (<[i := p']> l)). intros n Er.
    inversion H; subst; cbn in Er |- *; try lia;
      match goal with E : d_reload_lock _ = false |- _ => rewrite E in Er | _ => idtac end;
      try destruct (d_reload_lock _); cbn in *; lia.
  - revert Et. generalize (writers (<[i := p']> l)). intros n Et.
    inversion H; subst; cbn in Et |- *; try lia;
      try destruct tl; try destruct ctl; cbn in *; lia.
  - inversion H; subst; cbn in *; try done.
    + destruct Hs as (c & Hc & ->). exists c. split; [by apply list_elem_of_further|done].
    + by eexists.
  - apply Forall_insert.
    + inversion H; subst; cbn in *; try done.
      eapply Forall_impl; [|exact Hp]. intros q. apply pc_ok_more.
    + inversion H; subst; cbn in *; try done. apply list_elem_of_here.
Qed.

Lemma steps_inv n c c' : conc_inv c -> nsteps conc_step n c c' -> conc_inv c'.
Proof.
  intros Hc H. revert Hc. induction H as [|n x y z Hxy _ IH]; [done|].
  intros Hx. by eapply IH, step_inv.
Qed.

(** ** Progress *)

Definition total_rank (c : Conc) : nat := total rank (threads c).

Lemma step_rank c c' : conc_step c c' -> (total_rank c' < total_rank c)%nat.
Proof.
  intros H. destruct H as [i p sh tl sv p' Hi H].
  pose proof (total_insert rank _ _ _ p' Hi) as E. unfold total_rank.
  cbn [threads]. assert (rank p' < rank p)%nat by (inversion H; cbn; lia). lia.
Qed.

Lemma steps_rank n c c' :
  nsteps conc_step n c c' -> (total_rank c' + n <= total_rank c)%nat.
Proof.
  induction 1 as [|n x y z Hxy _ IH]; [lia|]. apply step_rank in Hxy. lia.
Qed.

Lemma rank_finished p : rank p = O <-> finished p = true.
Proof. by destruct p. Qed.

(** A thread that is not finished can step unless it waits for the token lock. *)
Lemma thread_can_step sh sv p :
  finished p = false -> exists x p', thread_step (sh, false, sv) p x p'.
Proof.
  intros Hf. destruct p; try done.
  - destruct (d_skip_refresh sh) eqn:E; eexists _, _; [by apply ts_skip|].
    by apply (ts_now _ _ _ 0).
  - destruct (Z.le_gt_cases (d_next_refresh_time sh) current_time);
      eexists _, _; [by apply ts_due|by apply ts_not_due].
  - eexists _, _. apply ts_try_fails.
  - eexists _, _. by apply (ts_load _ _ _ []).
  - eexists _, _. apply ts_set_token.
  - eexists _, _. by apply (ts_set_next _ _ _ 0).
  - eexists _, _. apply ts_unlock.
  - eexists _, _. apply ts_unwind.
  - eexists _, _. apply ts_read.
Qed.

Lemma conc_progress c :
  conc_inv c -> (0 < total_rank c)%nat -> exists c', conc_step c c'.
Proof.
  intros Hc H. destruct c as [sh tl sv l]. destruct tl.
  - pose proof (inv_token _ Hc) as Ht. cbn [threads token_lock Nat.b2n] in Ht.
    assert (0 < writers l)%nat as Hw by lia.
    apply total_pos in Hw as (i & p & Hi & Hp).
    destruct p; cbn in Hp; try lia. eexists.
    eapply (conc_thread _ i TokenSet); [exact Hi|]. by apply (ts_set_next _ _ _ 0).
  - apply total_pos in H as (i & p & Hi & Hp). cbn in Hi.
    destruct (thread_can_step sh sv p) as ([[??]?] & p' & Hs).
    { destruct (finished p) eqn:E; [|done]. apply rank_finished in E. lia. }
    eexists. by eapply (conc_thread _ i p).
Qed.

Lemma all_finished l : total rank l = O -> Forall (fun p => finished p = true) l.
Proof.
  induction l as [|p l IH]; cbn [total]; [done|]. intros H.
  constructor; [apply rank_finished; lia|apply IH; lia].
Qed.

Lemma conc_completes c :
  conc_inv c -> exists m c', nsteps conc_step m c c' /\ total_rank c' = O.
Proof.
  remember (total_rank c) as r eqn:E. revert c E.
  induction r as [r IH] using lt_wf_ind. intros c -> Hc.
  destruct (total_rank c) as [|r] eqn:E.
  { exists O, c. split; [constructor|done]. }
  destruct (conc_progress c Hc) as [c1 H1]; [lia|].
  pose proof (step_rank _ _ H1).
  destruct (IH (total_rank c1) ltac:(lia) c1 eq_refl (step_inv _ _ Hc H1)) as (m & c2 & H2 & E2).
  exists (S m), c2. split; [|done]. by econstructor.
Qed.

(** Calls of [GetMetadata] never block each other forever: however the steps
    of [k] calls interleave, and whatever the clock, the token file and
    [try_lock] do, no run has more than [8 * k] steps, every state reached has a
    next step unless all calls have finished, and it can be run until they have. *)
Theorem metadata_calls_finish (sh : ReloadTokenAuthenticator) (contents : str)
    (k n : nat) (c : Conc) :
  constructed sh contents ->
  nsteps conc_step n (conc_initial sh contents k) c ->
  (n <= 8 * k)%nat /\
  (Forall (fun p => finished p = true) (threads c) \/ exists c', conc_step c c') /\
  exists m c', nsteps conc_step m c c' /\
    Forall (fun p => finished p = true) (threads c').
Proof.
  intros H0 Hn. pose proof (steps_inv _ _ _ (conc_inv_initial _ _ k H0) Hn) as Hc.
  split; [|split].
  - apply steps_rank in Hn. unfold total_rank, conc_initial in Hn. cbn [threads] in Hn.
    rewrite total_replicate in Hn. cbn [rank] in Hn. lia.
  - destruct (total_rank c) as [|r] eqn:E; [left; by apply all_finished|].
    right. apply conc_progress; [done|lia].
  - destruct (conc_completes c Hc) as (m & c' & Hm & E). exists m, c'.
    split; [done|]. by apply all_finished.
Qed.

(** The authenticator of a token [abc] read at time 0, good for a minute. *)
Definition toy_rta : ReloadTokenAuthenticator :=
  MkRTA (L "token") (bearer (L "abc")) (due 60 0) 60 false false.

Lemma toy_rta_constructed : constructed toy_rta (L " abc ").
Proof. by split. Qed.

Lemma metadata_calls_finish_witness :
  exists c, nsteps conc_step 2 (conc_initial toy_rta (L " abc ") 2) c /\
    exists m c', nsteps conc_step m c c' /\
      Forall (fun p => finished p = true) (threads c').
Proof.
  eexists. assert (H : nsteps conc_step 2 (conc_initial toy_rta (L " abc ") 2)
    (MkConc toy_rta false [L " abc "] [HaveTime 5; HaveTime 7])).
  { eapply nsteps_l; [apply (conc_thread _ 0%nat Start); [done|by apply (ts_now _ _ _ 5)]|].
    eapply nsteps_l; [apply (conc_thread _ 1%nat Start); [done|by apply (ts_now _ _ _ 7)]|].
    apply nsteps_O. }
  split; [exact H|].
  exact (proj2 (proj2 (metadata_calls_finish toy_rta (L " abc ") 2 2 _ toy_rta_constructed H))).
Defined.

(** C27. However the calls interleave, at most one thread is inside a reload at a
    time (and exactly when the reload lock is taken), and every header value
    given to gRPC is Bearer followed by the trimmed contents that the token file
    had when some call or the constructor read it. *)
Theorem metadata_tokens_were_read (sh : ReloadTokenAuthenticator) (contents : str)
    (k n : nat) (c : Conc) :
  constructed sh contents ->
  nsteps conc_step n (conc_initial sh contents k) c ->
  holders (threads c) = Nat.b2n (d_reload_lock (shared c)) /\
  forall i token, threads c !! i = Some (Done token) ->
    exists contents, contents ∈ served c /\ token = bearer contents.
Proof.
  intros H0 Hn. pose proof (steps_inv _ _ _ (conc_inv_initial _ _ k H0) Hn) as Hc.
  split; [apply Hc|]. intros i token Hi.
  exact (proj1 (Forall_lookup _ _) (inv_threads _ Hc) i _ Hi).
Qed.

Lemma metadata_tokens_were_read_witness :
  exists c, nsteps conc_step 3 (conc_initial toy_rta (L " abc ") 1) c /\
    exists contents, contents ∈ served c /\ L "Bearer abc" = bearer contents.
Proof.
  eexists. assert (H : nsteps conc_step 3 (conc_initial toy_rta (L " abc ") 1)
    (MkConc toy_rta false [L " abc "] [Done (L "Bearer abc")])).
  { eapply nsteps_l; [apply (conc_thread _ 0%nat Start); [done|by apply (ts_now _ _ _ 5)]|].
    eapply nsteps_l; [apply (conc_thread _ 0%nat (HaveTime 5)); [done|by apply ts_not_due]|].
    eapply nsteps_l; [apply (conc_thread _ 0%nat Reading); [done|by apply (ts_read toy_rta)]|].
    apply nsteps_O. }
  split; [exact H|].
  exact (proj2 (metadata_tokens_were_read toy_rta (L " abc ") 1 3 _ toy_rta_constructed H)
           0%nat (L "Bearer abc") eq_refl).
Defined.

(** ** One call alone is one of the schedules *)

(** How a call ends. *)
Definition outcome (r : res str) : pc :=
  match r with Ok token => Done token | Throw _ => Failed end.

Lemma one_step sh tl sv p sh' tl' sv' p' c :
  thread_step (sh, tl, sv) p (sh', tl', sv') p' ->
  rtc conc_step (MkConc sh' tl' sv' [p']) c ->
  rtc conc_step (MkConc sh tl sv [p]) c.
Proof.
  intros H. apply rtc_l. by apply (conc_thread (MkConc sh tl sv [p]) 0%nat p).
Qed.

Ltac step_by rule := eapply one_step; [by eapply rule; eauto|].

(** The sequential [GetMetadata] refines the step relation: what it returns
    or throws and the state it leaves are those of a run of one thread. *)
Theorem GetMetadata_is_a_schedule {W : Type} (load : str -> W -> option str * W)
    (steady_now : W -> Z * W) (self self' : ReloadTokenAuthenticator) (w w' : W)
    (sv : list str) (r : res str) :
  GetMetadata load steady_now (self, w) = (r, (self', w')) ->
  exists sv', rtc conc_step (MkConc self false sv [Start])
                (MkConc self' false sv' [outcome r]).
Proof.
  unfold GetMetadata, RefreshTokenIfNeeded, TrimAndSetToken, SetNextRefreshTimeFromNow,
    field, update, clock_now, file_contents, mbind_M, mcatch, mret, mthrow.
  destruct (d_skip_refresh self) eqn:Esk.
  { intros [= <- <- <-]. exists sv. step_by ts_skip. step_by ts_read. apply rtc_refl. }
  destruct (steady_now w) as [t w1]. cbn beta iota.
  destruct (d_next_refresh_time self <=? t) eqn:Et; b2p.
  2: { intros [= <- <- <-]. exists sv.
       step_by (ts_now self). step_by ts_not_due. step_by ts_read. apply rtc_refl. }
  destruct (d_reload_lock self) eqn:El.
  { intros [= <- <- <-]. exists sv. step_by (ts_now self). step_by ts_due.
    step_by ts_try_fails. step_by ts_read. apply rtc_refl. }
  destruct (load _ w1) as [[contents|] w2].
  - destruct (steady_now w2) as [t2 w3]. intros [= <- <- <-].
    exists (contents :: sv). step_by (ts_now self). step_by ts_due. step_by ts_try_locks.
    step_by ts_load. step_by ts_set_token. step_by ts_set_next. step_by ts_unlock.
    step_by ts_read. apply rtc_refl.
  - intros [= <- <- <-]. exists sv. step_by (ts_now self). step_by ts_due.
    step_by ts_try_locks. step_by ts_load_fails. step_by ts_unwind. apply rtc_refl.
Qed.

(** A file that always holds [new], and a clock that is its own count. *)
Definition toy_load (_ : str) (w : Z) : option str * Z := (Some (L " new "), w).
Definition toy_clock (w : Z) : Z * Z := (w, w + 1).

Lemma GetMetadata_is_a_schedule_witness :
  exists self' sv', rtc conc_step (MkConc toy_rta false [L " abc "] [Start])
    (MkConc self' false sv' [Done (L "Bearer new")]).
Proof.
  eexists. eapply (GetMetadata_is_a_schedule toy_load toy_clock toy_rta _
    (due 60 0) _ [L " abc "] (Ok (L "Bearer new"))).
  vm_compute. reflexivity.
Defined.

(** A token that is not due is not read again. *)
Theorem GetMetadata_keeps {W : Type} (load : str -> W -> option str * W)
    (steady_now : W -> Z * W) (self : ReloadTokenAuthenticator) (w : W) :
  d_skip_refresh self = true \/ fst (steady_now w) < d_next_refresh_time self ->
  exists w', GetMetadata load steady_now (self, w) = (Ok (d_token_string self), (self, w')).
Proof.
  unfold GetMetadata, RefreshTokenIfNeeded, field, clock_now, mbind_M, mret.
  intros H. destruct (d_skip_refresh self) eqn:Esk; [by eexists|].
  destruct H as [H|H]; [done|]. destruct (steady_now w) as [t w1]. cbn beta iota in *.
  cbn [fst] in H. rewrite (proj2 (Z.leb_gt _ _) H). by eexists.
Qed.

(** Without a reload the interval that was never set does not matter. *)
Theorem constructor_ignores_duration {W : Type} (load : str -> W -> option str * W)
    (steady_now : W -> Z * W) (path : str) (d1 d2 : Z) (w : W) :
  match ReloadTokenAuthenticator_new load steady_now path None d1,
        ReloadTokenAuthenticator_new load steady_now path None d2 with
  | Some m1, Some m2 =>
      match m1 w, m2 w with
      | (Ok a1, w1), (Ok a2, w2) =>
          w1 = w2 /\ GetMetadata load steady_now (a1, w1) = (Ok (d_token_string a2), (a1, w2))
      | (Throw e1, w1), (Throw e2, w2) => e1 = e2 /\ w1 = w2
      | _, _ => False
      end
  | _, _ => False
  end.
Proof.
  unfold ReloadTokenAuthenticator_new, TrimAndSetToken, SetNextRefreshTimeFromNow,
    field, update, clock_now, file_contents, mbind_M. cbn beta iota.
  destruct (load _ w) as [[contents|] w1]; [|done].
  destruct (steady_now w1) as [t w2]. done.
Qed.

(** ** [ParseTime] *)

Lemma back_last s c : back (s ++ [c]) = c.
Proof. unfold back. apply List.last_last. Qed.

Lemma back_digit s : Forall is_digit s -> s <> [] -> is_digit (back s).
Proof.
  intros Hs Hne. destruct (exists_last Hne) as (a & c & ->). rewrite back_last.
  apply Forall_app in Hs as [_ Hs]. by apply Forall_cons_1 in Hs as [? _].
Qed.

Lemma digit_no_unit c : is_digit c -> prefix_to_mult (toupper c) = None.
Proof.
  intros Hc. unfold is_digit, digit_val, byte_val in Hc. unfold prefix_to_mult, toupper.
  destruct (_ && _) eqn:E in Hc; [|done]. b2p. unfold nat_of_ascii.
  destruct (97 <=? N.to_nat (N_of_ascii c))%nat eqn:E1; b2p; [lia|]. cbn [andb].
  destruct (ascii_dec c "M"%char) as [->|_]; [cbn in *; lia|].
  destruct (ascii_dec c "H"%char) as [->|_]; [cbn in *; lia|]. done.
Qed.

(** The suffixes and the seconds they stand for. *)
Definition units : list (str * Z) :=
  [([], 60); (L "M", 60); (L "m", 60); (L "H", 3600); (L "h", 3600)].

(** An interval written as a number with no suffix or with M is in minutes,
    with H in hours, in either case of the letter; the program multiplies two
    ints, and a product above INT_MAX is a signed overflow instead of an error. *)
Theorem ParseTime_units (n multiplier : Z) (suffix : str) :
  0 <= n <= INT_MAX -> (suffix, multiplier) ∈ units ->
  ParseTime (to_string n ++ suffix)
  = if n * multiplier <=? INT_MAX then Some (Ok (n * multiplier)) else None.
Proof.
  intros Hn Hu. destruct (to_string_digits n) as (Hd & Hne & _); [lia|].
  assert (no_nul suffix /\ (forall c, list.head suffix = Some c -> ~ is_digit c) /\
    0 < multiplier /\
    match prefix_to_mult (toupper (back (to_string n ++ suffix))) with
    | Some m => m = multiplier /\ length suffix = 1%nat
    | None => multiplier = 60 /\ suffix = []
    end) as (Hz & Hh & Hm & Hb).
  { unfold units in Hu.
    repeat (apply elem_of_cons in Hu as [Hu|Hu]; [injection Hu as -> ->|]);
      [|split; [by apply (bool_decide_unpack _); vm_compute|];
        split; [intros c [= <-] Hx; by apply Hx|]; split; [lia|];
        unfold lit; cbn [String.list_ascii_of_string]; by rewrite back_last..|by apply not_elem_of_nil in Hu].
    split; [apply not_elem_of_nil|]. split; [done|]. split; [lia|].
    rewrite app_nil_r, digit_no_unit by by apply back_digit. done. }
  unfold ParseTime. rewrite c_str_id; cbv zeta.
  2: { unfold no_nul in *. rewrite elem_of_app. intros [H|H]; [|done].
       apply list_elem_of_In in H. apply (proj1 (List.Forall_forall _ _) Hd) in H.
       by apply digit_facts in H as (_ & _ & _ & ?). }
  rewrite bool_decide_false by (intros H; by apply app_eq_nil in H as [? _]).
  rewrite (stoi_to_string n suffix) by done. unfold int_mul.
  rewrite length_app.
  destruct (prefix_to_mult _) as [m|]; destruct Hb as [-> Hs]; cbn beta iota.
  - rewrite (proj2 (Z.leb_le INT_MIN _)) by (unfold INT_MIN; lia). cbn [andb].
    destruct (_ <=? _); [|done]. rewrite Hs.
    rewrite (proj2 (Nat.eqb_eq _ _)) by lia. done.
  - rewrite (proj2 (Z.leb_le INT_MIN _)) by (unfold INT_MIN; lia). cbn [andb].
    destruct (_ <=? _); [|done]. rewrite Hs. cbn [length].
    rewrite (proj2 (Nat.eqb_eq _ _)) by lia. done.
Qed.

Lemma ParseTime_units_witness :
  ParseTime (L "2H") = Some (Ok 7200) /\ ParseTime (L "35791395") = None.
Proof.
  split.
  - apply (ParseTime_units 2 3600 (L "H")); [unfold INT_MAX; lia|].
    unfold units. by do 3 apply list_elem_of_further; apply list_elem_of_here.
  - apply (ParseTime_units 35791395 60 []); [unfold INT_MAX; lia|].
    unfold units. apply list_elem_of_here.
Defined.
