(* ===== verification/ConnectionOptions.v ===== *)
(** * The options of a connection

    [buildboxcommon_connectionoptions.cpp]: [parseArg], [putArgs], the setters,
    [createChannel], [printArgHelp] and [operator<<].  A [const char *] is [None]
    for a null pointer and otherwise the text it points to; that the text outlives
    the options is the caller's duty in the program and assumed here. *)

From S2P Require Import Prelude Grpc Merklize Paths Cstring Undefined TokenAuthenticator.
Open Scope Z_scope.

Record ConnectionOptions := MkConnectionOptions {
  d_clientCert : option str;
  d_clientCertPath : option str;
  d_clientKey : option str;
  d_clientKeyPath : option str;
  d_accessTokenPath : option str;
  d_instanceName : option str;
  d_serverCert : option str;
  d_serverCertPath : option str;
  d_url : option str;
  d_useGoogleApiAuth : bool;
  d_tokenReloadInterval : option str;
  d_loadBalancingPolicy : option str;
  d_retryLimit : option str;
  d_retryDelay : option str;
}.

Definition ConnectionOptions_default : ConnectionOptions :=
  MkConnectionOptions None None None None None None None None None false None None
    (Some (L "4")) (Some (L "1000")).

(** ** Assignments to the fields *)

Definition with_clientCert (v : option str) (o : ConnectionOptions) : ConnectionOptions :=
  MkConnectionOptions v (d_clientCertPath o) (d_clientKey o)
    (d_clientKeyPath o) (d_accessTokenPath o) (d_instanceName o)
    (d_serverCert o) (d_serverCertPath o) (d_url o) (d_useGoogleApiAuth o)
    (d_tokenReloadInterval o) (d_loadBalancingPolicy o) (d_retryLimit o)
    (d_retryDelay o).
Definition with_clientCertPath (v : option str) (o : ConnectionOptions) : ConnectionOptions :=
  MkConnectionOptions (d_clientCert o) v (d_clientKey o) (d_clientKeyPath o)
    (d_accessTokenPath o) (d_instanceName o) (d_serverCert o)
    (d_serverCertPath o) (d_url o) (d_useGoogleApiAuth o)
    (d_tokenReloadInterval o) (d_loadBalancingPolicy o) (d_retryLimit o)
    (d_retryDelay o).
Definition with_clientKey (v : option str) (o : ConnectionOptions) : ConnectionOptions :=
  MkConnectionOptions (d_clientCert o) (d_clientCertPath o) v
    (d_clientKeyPath o) (d_accessTokenPath o) (d_instanceName o)
    (d_serverCert o) (d_serverCertPath o) (d_url o) (d_useGoogleApiAuth o)
    (d_tokenReloadInterval o) (d_loadBalancingPolicy o) (d_retryLimit o)
    (d_retryDelay o).
Definition with_clientKeyPath (v : option str) (o : ConnectionOptions) : ConnectionOptions :=
  MkConnectionOptions (d_clientCert o) (d_clientCertPath o) (d_clientKey o)
    v (d_accessTokenPath o) (d_instanceName o) (d_serverCert o)
    (d_serverCertPath o) (d_url o) (d_useGoogleApiAuth o)
    (d_tokenReloadInterval o) (d_loadBalancingPolicy o) (d_retryLimit o)
    (d_retryDelay o).
Definition with_accessTokenPath (v : option str) (o : ConnectionOptions) : ConnectionOptions :=
  MkConnectionOptions (d_clientCert o) (d_clientCertPath o) (d_clientKey o)
    (d_clientKeyPath o) v (d_instanceName o) (d_serverCert o)
    (d_serverCertPath o) (d_url o) (d_useGoogleApiAuth o)
    (d_tokenReloadInterval o) (d_loadBalancingPolicy o) (d_retryLimit o)
    (d_retryDelay o).
Definition with_instanceName (v : option str) (o : ConnectionOptions) : ConnectionOptions :=
  MkConnectionOptions (d_clientCert o) (d_clientCertPath o) (d_clientKey o)
    (d_clientKeyPath o) (d_accessTokenPath o) v (d_serverCert o)
    (d_serverCertPath o) (d_url o) (d_useGoogleApiAuth o)
    (d_tokenReloadInterval o) (d_loadBalancingPolicy o) (d_retryLimit o)
    (d_retryDelay o).
Definition with_serverCert (v : option str) (o : ConnectionOptions) : ConnectionOptions :=
  MkConnectionOptions (d_clientCert o) (d_clientCertPath o) (d_clientKey o)
    (d_clientKeyPath o) (d_accessTokenPath o) (d_instanceName o) v
    (d_serverCertPath o) (d_url o) (d_useGoogleApiAuth o)
    (d_tokenReloadInterval o) (d_loadBalancingPolicy o) (d_retryLimit o)
    (d_retryDelay o).
Definition with_serverCertPath (v : option str) (o : ConnectionOptions) : ConnectionOptions :=
  MkConnectionOptions (d_clientCert o) (d_clientCertPath o) (d_clientKey o)
    (d_clientKeyPath o) (d_accessTokenPath o) (d_instanceName o)
    (d_serverCert o) v (d_url o) (d_useGoogleApiAuth o)
    (d_tokenReloadInterval o) (d_loadBalancingPolicy o) (d_retryLimit o)
    (d_retryDelay o).
Definition with_url (v : option str) (o : ConnectionOptions) : ConnectionOptions :=
  MkConnectionOptions (d_clientCert o) (d_clientCertPath o) (d_clientKey o)
    (d_clientKeyPath o) (d_accessTokenPath o) (d_instanceName o)
    (d_serverCert o) (d_serverCertPath o) v (d_useGoogleApiAuth o)
    (d_tokenReloadInterval o) (d_loadBalancingPolicy o) (d_retryLimit o)
    (d_retryDelay o).
Definition with_useGoogleApiAuth (v : bool) (o : ConnectionOptions) : ConnectionOptions :=
  MkConnectionOptions (d_clientCert o) (d_clientCertPath o) (d_clientKey o)
    (d_clientKeyPath o) (d_accessTokenPath o) (d_instanceName o)
    (d_serverCert o) (d_serverCertPath o) (d_url o) v (d_tokenReloadInterval
    o) (d_loadBalancingPolicy o) (d_retryLimit o) (d_retryDelay o).
Definition with_tokenReloadInterval (v : option str) (o : ConnectionOptions) : ConnectionOptions :=
  MkConnectionOptions (d_clientCert o) (d_clientCertPath o) (d_clientKey o)
    (d_clientKeyPath o) (d_accessTokenPath o) (d_instanceName o)
    (d_serverCert o) (d_serverCertPath o) (d_url o) (d_useGoogleApiAuth o) v
    (d_loadBalancingPolicy o) (d_retryLimit o) (d_retryDelay o).
Definition with_loadBalancingPolicy (v : option str) (o : ConnectionOptions) : ConnectionOptions :=
  MkConnectionOptions (d_clientCert o) (d_clientCertPath o) (d_clientKey o)
    (d_clientKeyPath o) (d_accessTokenPath o) (d_instanceName o)
    (d_serverCert o) (d_serverCertPath o) (d_url o) (d_useGoogleApiAuth o)
    (d_tokenReloadInterval o) v (d_retryLimit o) (d_retryDelay o).
Definition with_retryLimit (v : option str) (o : ConnectionOptions) : ConnectionOptions :=
  MkConnectionOptions (d_clientCert o) (d_clientCertPath o) (d_clientKey o)
    (d_clientKeyPath o) (d_accessTokenPath o) (d_instanceName o)
    (d_serverCert o) (d_serverCertPath o) (d_url o) (d_useGoogleApiAuth o)
    (d_tokenReloadInterval o) (d_loadBalancingPolicy o) v (d_retryDelay o).
Definition with_retryDelay (v : option str) (o : ConnectionOptions) : ConnectionOptions :=
  MkConnectionOptions (d_clientCert o) (d_clientCertPath o) (d_clientKey o)
    (d_clientKeyPath o) (d_accessTokenPath o) (d_instanceName o)
    (d_serverCert o) (d_serverCertPath o) (d_url o) (d_useGoogleApiAuth o)
    (d_tokenReloadInterval o) (d_loadBalancingPolicy o) (d_retryLimit o) v.

(** ** Setters *)

Definition setClientCert (value : str) : ConnectionOptions -> ConnectionOptions :=
  with_clientCert (Some (c_str value)).
Definition setServerCertPath (value : str) : ConnectionOptions -> ConnectionOptions :=
  with_serverCertPath (Some (c_str value)).
Definition setClientKey (value : str) : ConnectionOptions -> ConnectionOptions :=
  with_clientKey (Some (c_str value)).
Definition setClientKeyPath (value : str) : ConnectionOptions -> ConnectionOptions :=
  with_clientKeyPath (Some (c_str value)).
Definition setAccessTokenPath (value : str) : ConnectionOptions -> ConnectionOptions :=
  with_accessTokenPath (Some (c_str value)).
Definition setTokenReloadInterval (value : str) : ConnectionOptions -> ConnectionOptions :=
  with_tokenReloadInterval (Some (c_str value)).
Definition setInstanceName (value : str) : ConnectionOptions -> ConnectionOptions :=
  with_instanceName (Some (c_str value)).
Definition setRetryDelay (value : str) : ConnectionOptions -> ConnectionOptions :=
  with_retryDelay (Some (c_str value)).
Definition setRetryLimit (value : str) : ConnectionOptions -> ConnectionOptions :=
  with_retryLimit (Some (c_str value)).
Definition setServerCert (value : str) : ConnectionOptions -> ConnectionOptions :=
  with_serverCert (Some (c_str value)).
Definition setClientCertPath (value : str) : ConnectionOptions -> ConnectionOptions :=
  with_clientCertPath (Some (c_str value)).
Definition setUrl (value : str) : ConnectionOptions -> ConnectionOptions :=
  with_url (Some (c_str value)).
Definition setUseGoogleApiAuth (value : bool) : ConnectionOptions -> ConnectionOptions :=
  with_useGoogleApiAuth value.
Definition setLoadBalancingPolicy (value : str) : ConnectionOptions -> ConnectionOptions :=
  with_loadBalancingPolicy (Some (c_str value)).

(** ** [parseArg] *)

(** The chain of comparisons on the key of [key=value]. *)
Definition assign_option (key value : str) (self : ConnectionOptions)
  : option ConnectionOptions :=
  let value := Some value in
  if bool_decide (key = L "remote") then Some (with_url value self)
  else if bool_decide (key = L "instance") then Some (with_instanceName value self)
  else if bool_decide (key = L "server-cert") then Some (with_serverCertPath value self)
  else if bool_decide (key = L "client-key") then Some (with_clientKeyPath value self)
  else if bool_decide (key = L "client-cert") then Some (with_clientCertPath value self)
  else if bool_decide (key = L "access-token") then Some (with_accessTokenPath value self)
  else if bool_decide (key = L "retry-limit") then Some (with_retryLimit value self)
  else if bool_decide (key = L "retry-delay") then Some (with_retryDelay value self)
  else if bool_decide (key = L "token-reload-interval")
  then Some (with_tokenReloadInterval value self)
  else if bool_decide (key = L "load-balancing-policy")
  then Some (with_loadBalancingPolicy value self)
  else None.

(** What follows the two dashes, without the prefix; [None] where
    [parseArg] returns false. *)
Definition option_text (arg prefix : option str) : option str :=
  match arg with
  | None => None
  | Some arg =>
      match c_str arg with
      | d0 :: d1 :: arg =>
          if bool_decide (d0 = minus) && bool_decide (d1 = minus) then
            match prefix with
            | None => Some arg
            | Some prefix =>
                let prefix := c_str prefix in
                if starts_with prefix arg then Some (drop (length prefix) arg) else None
            end
          else None
      | _ => None
      end
  end.

Definition assign : ascii := "="%char.

Definition parseArg (arg prefix : option str) (self : ConnectionOptions)
  : bool * ConnectionOptions :=
  match option_text arg prefix with
  | None => (false, self)
  | Some arg =>
      match split_at assign arg with
      | Some (key, value) =>
          match assign_option key value self with
          | Some self => (true, self)
          | None => (false, self)
          end
      | None =>
          if bool_decide (arg = L "googleapi-auth")
          then (true, with_useGoogleApiAuth true self)
          else (false, self)
      end
  end.

(** ** [putArgs] *)

Definition put (p name : str) (value : option str) : list str :=
  match value with
  | Some value => [L "--" ++ p ++ name ++ value]
  | None => []
  end.

(** What is added to [out]. *)
Definition putArgs (prefix : option str) (self : ConnectionOptions) : list str :=
  let p := match prefix with None => [] | Some prefix => c_str prefix end in
  put p (L "remote=") (d_url self) ++
  put p (L "instance=") (d_instanceName self) ++
  put p (L "server-cert=") (d_serverCertPath self) ++
  put p (L "client-key=") (d_clientKeyPath self) ++
  put p (L "client-cert=") (d_clientCertPath self) ++
  put p (L "access-token=") (d_accessTokenPath self) ++
  put p (L "token-reload-interval=") (d_tokenReloadInterval self) ++
  put p (L "retry-limit=") (d_retryLimit self) ++
  put p (L "retry-delay=") (d_retryDelay self) ++
  (if d_useGoogleApiAuth self then [L "--googleapi-auth"] else []) ++
  put p (L "load-balancing-policy=") (d_loadBalancingPolicy self).

(** ** [createChannel] *)

(** [grpc::SslCredentialsOptions]. *)
Record SslCredentialsOptions := MkSsl {
  pem_root_certs : str;
  pem_private_key : str;
  pem_cert_chain : str;
}.

(** The target and whether the connection is secure; [None] for a scheme that is
    not supported. *)
Definition url_target (url : str) : option (str * bool) :=
  if starts_with (L "http://") url then Some (drop 7 url, false)
  else if starts_with (L "grpc://") url then Some (drop 7 url, false)
  else if starts_with (L "https://") url then Some (drop 8 url, true)
  else if starts_with (L "grpcs://") url then Some (drop 8 url, true)
  else if starts_with (L "unix:") url then Some (url, false)
  else None.

Section channel.
(** gRPC's factories; a [shared_ptr] that may be null is an option. *)
Context {W Creds CallCreds Channel : Type}.
Context (InsecureChannelCredentials : option Creds)
  (GoogleDefaultCredentials : W -> option Creds * W)
  (SslCredentials : SslCredentialsOptions -> option Creds)
  (MetadataCredentialsFromPlugin : ReloadTokenAuthenticator -> CallCreds)
  (CompositeChannelCredentials : option Creds -> CallCreds -> option Creds)
  (CreateCustomChannel : str -> option Creds -> option str -> Channel).
(** The file system, the clock, and what an unset interval holds. *)
Context (load : str -> W -> option str * W) (steady_now : W -> Z * W)
  (indeterminate : Z).

Definition read_file (path : str) : UM W str :=
  fun w => match load path w with
           | (None, w) => Some (Throw RuntimeError, w)
           | (Some contents, w) => Some (Ok contents, w)
           end.

(** One of the three PEM texts: given, in a file, or left empty. *)
Definition pem (text path : option str) : UM W str :=
  match text, path with
  | Some text, _ => uret text
  | None, Some path => read_file path
  | None, None => uret []
  end.

Definition google_credentials : UM W (option Creds) :=
  fun w => match GoogleDefaultCredentials w with
           | (None, w) => Some (Throw RuntimeError, w)
           | (creds, w) => Some (Ok creds, w)
           end.

(** [if (secure)]. *)
Definition secure_credentials (self : ConnectionOptions) : UM W (option Creds) :=
  let+ root := pem (d_serverCert self) (d_serverCertPath self) in
  let+ key := pem (d_clientKey self) (d_clientKeyPath self) in
  let+ chain := pem (d_clientCert self) (d_clientCertPath self) in
  let options := MkSsl root key chain in
  match d_accessTokenPath self, d_useGoogleApiAuth self with
  | Some _, true => uthrow RuntimeError
  | None, true => google_credentials
  | None, false => uret (SslCredentials options)
  | Some token_path, false =>
      let creds := SslCredentials options in
      let+ plugin :=
        (fun w =>
           match ReloadTokenAuthenticator_new load steady_now token_path
                   (d_tokenReloadInterval self) indeterminate with
           | None => None
           | Some m => Some (m w)
           end) in
      uret (CompositeChannelCredentials creds (MetadataCredentialsFromPlugin plugin))
  end.

Definition is_set (value : option str) : bool :=
  match value with Some _ => true | None => false end.

Definition secure_options (self : ConnectionOptions) : bool :=
  is_set (d_serverCert self) || is_set (d_serverCertPath self)
  || is_set (d_clientKey self) || is_set (d_clientKeyPath self)
  || is_set (d_clientCert self) || is_set (d_clientCertPath self)
  || is_set (d_accessTokenPath self) || d_useGoogleApiAuth self.

Definition createChannel (self : ConnectionOptions) : UM W Channel :=
  match d_url self with
  | None => undefined
  | Some url =>
      match url_target url with
      | None => uthrow RuntimeError
      | Some (target, secure) =>
          let+ creds := (if secure then secure_credentials self else uret None) in
          let+ creds :=
            (match creds with
             | Some _ => uret creds
             | None =>
                 if secure_options self then uthrow RuntimeError
                 else uret InsecureChannelCredentials
             end) in
          uret (CreateCustomChannel target creds (d_loadBalancingPolicy self))
      end
  end.
End channel.

(** ** Printing *)

(** [printPadded], on [std::cerr]. *)
Definition printPadded (padWidth : Z) (s : str) : str :=
  L "    " ++ setw_left (padWidth - 5) s ++ L " ".

(** What [printArgHelp] writes to [std::cerr] and to [std::clog], which share a
    terminal, in order. *)
Definition printArgHelp (padWidth : Z) (serviceName : str) (prefix : option str) : str :=
  let p := L "--" ++ match prefix with None => [] | Some prefix => c_str prefix end in
  let line (name help : str) := printPadded padWidth (p ++ name) ++ help ++ [newline] in
  line (L "remote=URL") (L "URL for " ++ serviceName ++ L " service") ++
  line (L "instance=NAME") (L "Name of the " ++ serviceName ++ L " instance") ++
  line (L "server-cert=PATH") (L "Public server certificate for TLS (PEM-encoded)") ++
  line (L "client-key=PATH") (L "Private client key for TLS (PEM-encoded)") ++
  line (L "client-cert=PATH") (L "Public client certificate for TLS (PEM-encoded)") ++
  line (L "access-token=PATH")
    (L "Access Token for authentication (e.g. JWT, OAuth access token, etc), will be included as an HTTP Authorization bearer token.") ++
  line (L "token-reload-interval=MINUTES")
    (L "Time to wait before refreshing access token from disk again. The following suffixes can be optionally specified: M (minutes), H (hours). Value defaults to minutes if suffix not specified.") ++
  line (L "googleapi-auth") (L "Use GoogleAPIAuth when this flag is set.") ++
  line (L "retry-limit=INT") (L "Number of times to retry on grpc errors") ++
  line (L "retry-delay=MILLISECONDS") (L "How long to wait before the first grpc retry") ++
  line (L "load-balancing-policy")
    (L "Which grpc load balancing policy to use. Valid options are 'round_robin' and 'grpclb'").

Definition safeStream (var : option str) : str :=
  match var with Some var => var | None => L "null" end.

(** [operator<<]. *)
Definition print_options (obj : ConnectionOptions) : str :=
  L "url = " ++ quoted (safeStream (d_url obj)) ++
  L ", instance = " ++ quoted (safeStream (d_instanceName obj)) ++
  L ", serverCert = " ++ quoted (safeStream (d_serverCert obj)) ++
  L ", serverCertPath = " ++ quoted (safeStream (d_serverCertPath obj)) ++
  L ", clientKey = " ++ quoted (safeStream (d_clientKey obj)) ++
  L ", clientKeyPath = " ++ quoted (safeStream (d_clientKeyPath obj)) ++
  L ", clientCert = " ++ quoted (safeStream (d_clientCert obj)) ++
  L ", clientCertPath = " ++ quoted (safeStream (d_clientCertPath obj)) ++
  L ", accessTokenPath = " ++ quoted (safeStream (d_accessTokenPath obj)) ++
  L ", token-reload-interval = " ++ quoted (safeStream (d_tokenReloadInterval obj)) ++
  L ", googleapi-auth = " ++ (if d_useGoogleApiAuth obj then L "true" else L "false") ++
  L ", retry-limit = " ++ quoted (safeStream (d_retryLimit obj)) ++
  L ", retry-delay = " ++ quoted (safeStream (d_retryDelay obj)) ++
  [ascii_of_nat 34] ++ L ", load-balancing-policy = " ++
  quoted (safeStream (d_loadBalancingPolicy obj)).
