(* ===== verification/ConnectionOptionsSpec.v ===== *)
(** * Properties of the options of a connection *)

From S2P Require Import Prelude StdMap Arrays Grpc Paths PathsSpec StringUtils Cstring Undefined TokenAuthenticator ConnectionOptions.
Open Scope Z_scope.

Lemma no_nul_app a b : no_nul (a ++ b) <-> no_nul a /\ no_nul b.
Proof. unfold no_nul. rewrite elem_of_app. tauto. Qed.

(** ** Parsing what was put *)

(** The text of a prefix. *)
Definition prefix_text (prefix : option str) : str :=
  match prefix with None => [] | Some prefix => c_str prefix end.

(** Parsing a list of arguments in order. *)
Definition parse_args (prefix : option str) (args : list str) (o : ConnectionOptions)
  : ConnectionOptions := foldl (fun o arg => snd (parseArg (Some arg) prefix o)) o args.

Lemma option_text_dashes prefix t :
  no_nul t ->
  option_text (Some (L "--" ++ t)) prefix
  = if starts_with (prefix_text prefix) t
    then Some (drop (length (prefix_text prefix)) t) else None.
Proof.
  intros Ht. unfold option_text. rewrite c_str_id.
  - by destruct prefix.
  - apply no_nul_app. split; [by apply (bool_decide_unpack _); vm_compute|done].
Qed.

Lemma prefix_no_nul prefix : no_nul (prefix_text prefix).
Proof. destruct prefix; [apply c_str_no_nul|apply not_elem_of_nil]. Qed.

Lemma option_text_put prefix t :
  no_nul t -> option_text (Some (L "--" ++ prefix_text prefix ++ t)) prefix = Some t.
Proof.
  intros Ht. rewrite option_text_dashes.
  - by rewrite starts_with_prefix, drop_app_length.
  - apply no_nul_app. split; [apply prefix_no_nul|done].
Qed.

Definition or_else (a b : option str) : option str :=
  match a with Some _ => a | None => b end.
Infix "`or_else`" := or_else (at level 40) : buildbox_scope.

(** [key] is recognised and assigns the field [d], with [w]. *)
Definition assigns (key : str) (w : option str -> ConnectionOptions -> ConnectionOptions)
    (d : ConnectionOptions -> option str) : Prop :=
  (assign ∉ key) /\ no_nul key /\
  (forall o, w (d o) o = o) /\
  forall value o, assign_option key value o = Some (w (Some value) o).

Definition no_nul_option (value : option str) : Prop :=
  match value with None => True | Some v => no_nul v end.

Lemma parseArg_put prefix key w d v o :
  assigns key w d -> no_nul v ->
  parseArg (Some (L "--" ++ prefix_text prefix ++ (key ++ [assign]) ++ v)) prefix o
  = (true, w (Some v) o).
Proof.
  intros (Ha & Hk & _ & Hw) Hv. unfold parseArg. rewrite option_text_put.
  - rewrite <- app_assoc. cbn [app]. rewrite split_at_app by done. by rewrite Hw.
  - rewrite !no_nul_app. split; [split; [done|]|done].
    by apply (bool_decide_unpack _); vm_compute.
Qed.

Lemma parse_put prefix key name w d value rest o :
  assigns key w d -> name = key ++ [assign] -> no_nul_option value ->
  parse_args prefix (put (prefix_text prefix) name value ++ rest) o
  = parse_args prefix rest (w (value `or_else` d o) o).
Proof.
  intros Hk -> Hv. destruct value as [v|]; unfold put, parse_args; cbn [app foldl or_else].
  - by rewrite (parseArg_put _ _ w d).
  - destruct Hk as (_ & _ & E & _). by rewrite E.
Qed.

Ltac assigns_tac :=
  split; [by apply (bool_decide_unpack _); vm_compute|];
  split; [by apply (bool_decide_unpack _); vm_compute|]; split; [by intros []|done].

Lemma parse_google prefix o :
  parseArg (Some (L "--googleapi-auth")) prefix o
  = if bool_decide (prefix_text prefix = []) then (true, with_useGoogleApiAuth true o)
    else (false, o).
Proof.
  unfold parseArg. change (L "--googleapi-auth") with (L "--" ++ L "googleapi-auth").
  rewrite option_text_dashes by (by apply (bool_decide_unpack _); vm_compute).
  generalize (prefix_text prefix). intros p.
  destruct (decide (p = [])) as [->|Hne]; [by vm_compute|].
  rewrite (bool_decide_false (p = [])) by done.
  destruct (starts_with p (L "googleapi-auth")) eqn:Es; [|done].
  apply starts_with_app in Es as [t Et].
  rewrite Et, drop_app_length.
  assert (split_at assign t = None) as Ha.
  { apply split_at_None. intros Hin. assert (assign ∈ L "googleapi-auth") as H.
    { rewrite Et. apply elem_of_app. by right. }
    by apply (bool_decide_pack _) in H. }
  rewrite Ha. rewrite <- Et, bool_decide_false; [done|]. intros ->.
  apply (f_equal length) in Et. rewrite length_app in Et. cbn in Et.
  destruct p; [done|]. cbn in Et. lia.
Qed.

(** The options an application may hold: C strings. *)
Definition c_strings (o : ConnectionOptions) : Prop :=
  no_nul_option (d_url o) /\ no_nul_option (d_instanceName o) /\
  no_nul_option (d_serverCertPath o) /\ no_nul_option (d_clientKeyPath o) /\
  no_nul_option (d_clientCertPath o) /\ no_nul_option (d_accessTokenPath o) /\
  no_nul_option (d_tokenReloadInterval o) /\ no_nul_option (d_retryLimit o) /\
  no_nul_option (d_retryDelay o) /\ no_nul_option (d_loadBalancingPolicy o).

(** What is set in [o], over [b]; [google] tells whether the flag arrives. *)
Definition over (google : bool) (o b : ConnectionOptions) : ConnectionOptions :=
  MkConnectionOptions (d_clientCert b) (d_clientCertPath o `or_else` d_clientCertPath b)
    (d_clientKey b) (d_clientKeyPath o `or_else` d_clientKeyPath b)
    (d_accessTokenPath o `or_else` d_accessTokenPath b) (d_instanceName o `or_else` d_instanceName b)
    (d_serverCert b) (d_serverCertPath o `or_else` d_serverCertPath b) (d_url o `or_else` d_url b)
    (google || d_useGoogleApiAuth b)
    (d_tokenReloadInterval o `or_else` d_tokenReloadInterval b)
    (d_loadBalancingPolicy o `or_else` d_loadBalancingPolicy b)
    (d_retryLimit o `or_else` d_retryLimit b) (d_retryDelay o `or_else` d_retryDelay b).

Lemma parse_google_flag prefix (g : bool) rest o :
  parse_args prefix ((if g then [L "--googleapi-auth"] else []) ++ rest) o
  = parse_args prefix rest
      (if g && bool_decide (prefix_text prefix = []) then with_useGoogleApiAuth true o else o).
Proof.
  destruct g; [|done]. unfold parse_args. cbn [app foldl andb]. rewrite parse_google.
  by destruct (bool_decide _).
Qed.

Lemma assigns_keys :
  assigns (L "remote") with_url d_url /\ assigns (L "instance") with_instanceName d_instanceName /\
  assigns (L "server-cert") with_serverCertPath d_serverCertPath /\
  assigns (L "client-key") with_clientKeyPath d_clientKeyPath /\
  assigns (L "client-cert") with_clientCertPath d_clientCertPath /\
  assigns (L "access-token") with_accessTokenPath d_accessTokenPath /\
  assigns (L "token-reload-interval") with_tokenReloadInterval d_tokenReloadInterval /\
  assigns (L "retry-limit") with_retryLimit d_retryLimit /\
  assigns (L "retry-delay") with_retryDelay d_retryDelay /\
  assigns (L "load-balancing-policy") with_loadBalancingPolicy d_loadBalancingPolicy.
Proof. repeat (split; [assigns_tac|]). assigns_tac. Qed.

Ltac put_step K :=
  rewrite (parse_put _ _ _ _ _ _ _ _ K) by done;
  cbn beta iota delta [with_url with_instanceName with_serverCertPath with_clientKeyPath
    with_clientCertPath with_accessTokenPath with_tokenReloadInterval with_retryLimit
    with_retryDelay with_loadBalancingPolicy with_useGoogleApiAuth
    d_clientCert d_clientCertPath d_clientKey d_clientKeyPath d_accessTokenPath
    d_instanceName d_serverCert d_serverCertPath d_url d_useGoogleApiAuth
    d_tokenReloadInterval d_loadBalancingPolicy d_retryLimit d_retryDelay].

(** Round trip: parsing the arguments that [putArgs] wrote, with the same
    prefix, over any options [b], sets every option that was set and leaves the
    others of [b]; the flag of Google authentication survives only without a
    prefix, because it is written without it. *)
Theorem putArgs_parseArg (prefix : option str) (o b : ConnectionOptions) :
  c_strings o ->
  parse_args prefix (putArgs prefix o) b
  = over (d_useGoogleApiAuth o && bool_decide (prefix_text prefix = [])) o b.
Proof.
  intros (H1 & H2 & H3 & H4 & H5 & H6 & H7 & H8 & H9 & H10).
  destruct assigns_keys as (K1 & K2 & K3 & K4 & K5 & K6 & K7 & K8 & K9 & K10).
  unfold putArgs. fold (prefix_text prefix).
  destruct b as [b1 b2 b3 b4 b5 b6 b7 b8 b9 b10 b11 b12 b13 b14]. unfold over.
  put_step K1. put_step K2. put_step K3. put_step K4. put_step K5. put_step K6.
  put_step K7. put_step K8. put_step K9. rewrite parse_google_flag.
  rewrite <- (app_nil_r (put _ (L "load-balancing-policy=") _)).
  by destruct (d_useGoogleApiAuth o && _); put_step K10.
Qed.

Definition toy_options : ConnectionOptions :=
  with_url (Some (L "http://h:1"))
    (with_useGoogleApiAuth true ConnectionOptions_default).

Lemma putArgs_parseArg_witness :
  parse_args (Some (L "cas-")) (putArgs (Some (L "cas-")) toy_options)
    ConnectionOptions_default
  = with_url (Some (L "http://h:1")) ConnectionOptions_default.
Proof.
  rewrite (putArgs_parseArg (Some (L "cas-")) toy_options ConnectionOptions_default).
  - vm_compute. reflexivity.
  - unfold c_strings, no_nul_option. cbn [toy_options d_url d_retryLimit d_retryDelay
      with_url with_useGoogleApiAuth ConnectionOptions_default d_instanceName
      d_serverCertPath d_clientKeyPath d_clientCertPath d_accessTokenPath
      d_tokenReloadInterval d_loadBalancingPolicy].
    repeat split; by apply (bool_decide_unpack _); vm_compute.
Defined.

(** ** Creating a channel *)

Lemma starts_with_drop p s t :
  starts_with p s = true -> drop (length p) s = t -> s = p ++ t.
Proof. intros H <-. apply starts_with_app in H as [t ->]. by rewrite drop_app_length. Qed.

(** A connection is secure exactly for two schemes; what follows the scheme is the
    target. *)
Lemma url_target_secure url target :
  url_target url = Some (target, true) <->
  url = L "https://" ++ target \/ url = L "grpcs://" ++ target.
Proof.
  unfold url_target. split.
  - destruct (starts_with (L "http://") url); [done|].
    destruct (starts_with (L "grpc://") url); [done|].
    destruct (starts_with (L "https://") url) eqn:E3.
    { intros [= H]. left. by apply starts_with_drop. }
    destruct (starts_with (L "grpcs://") url) eqn:E4.
    { intros [= H]. right. by apply starts_with_drop. }
    by destruct (starts_with (L "unix:") url).
  - by intros [-> | ->].
Qed.

(** gRPC's documented behaviour: the factories of SSL and composite credentials
    never give a null pointer. *)
Class GrpcCredentials {Creds CallCreds : Type}
    (SslCredentials : SslCredentialsOptions -> option Creds)
    (CompositeChannelCredentials : option Creds -> CallCreds -> option Creds) := {
  ssl_not_null options : SslCredentials options <> None;
  composite_not_null creds call : creds <> None ->
    CompositeChannelCredentials creds call <> None;
}.

Section channel.
Context {W Creds CallCreds Channel : Type}.
Context (Insecure : option Creds) (Google : W -> option Creds * W)
  (Ssl : SslCredentialsOptions -> option Creds)
  (Plugin : ReloadTokenAuthenticator -> CallCreds)
  (Composite : option Creds -> CallCreds -> option Creds)
  (Custom : str -> option Creds -> option str -> Channel).
Context (load : str -> W -> option str * W) (steady_now : W -> Z * W) (ind : Z).

Abbreviation secure_creds :=
  (secure_credentials Google Ssl Plugin Composite load steady_now ind).
Abbreviation create :=
  (createChannel Insecure Google Ssl Plugin Composite Custom load steady_now ind).

Lemma secure_creds_not_null {law : GrpcCredentials Ssl Composite} self w creds w' :
  secure_creds self w = Some (Ok creds, w') ->
  creds <> None /\ (is_set (d_accessTokenPath self) && d_useGoogleApiAuth self) = false.
Proof.
  unfold secure_credentials, ubind, uret, uthrow, google_credentials.
  destruct (pem _ _ _ w) as [[[?|?] w1]|]; [|done..].
  destruct (pem _ _ _ w1) as [[[?|?] w2]|]; [|done..].
  destruct (pem _ _ _ w2) as [[[?|?] w3]|]; [|done..].
  destruct (d_accessTokenPath self), (d_useGoogleApiAuth self); cbn; try done.
  - destruct (ReloadTokenAuthenticator_new _ _ _ _ _) as [m|]; [|done].
    destruct (m w3) as [[?|?] w4]; [|done]. intros [= <- <-]. split; [|done].
    apply composite_not_null, ssl_not_null.
  - destruct (Google w3) as [[?|] w4]; intros [= <- <-]; done.
  - intros [= <- <-]. split; [apply ssl_not_null|done].
Qed.

(** A channel is made with insecure credentials only for a scheme that is not
    secure and only when none of the options of a secure connection is set; for a
    secure scheme the credentials come from SSL or Google, never from the
    insecure default, and an access token and Google authentication exclude each
    other. *)
Theorem createChannel_secure {law : GrpcCredentials Ssl Composite}
    (self : ConnectionOptions) (w w' : W) (ch : Channel) :
  create self w = Some (Ok ch, w') ->
  exists url target secure creds,
    d_url self = Some url /\ url_target url = Some (target, secure) /\
    ch = Custom target creds (d_loadBalancingPolicy self) /\
    if secure : bool
    then secure_creds self w = Some (Ok creds, w') /\ creds <> None /\
         (is_set (d_accessTokenPath self) && d_useGoogleApiAuth self) = false
    else creds = Insecure /\ secure_options self = false /\ w' = w.
Proof.
  unfold createChannel. destruct (d_url self) as [url|]; [|done].
  destruct (url_target url) as [[target secure]|] eqn:Eu; [|done].
  destruct secure; unfold ubind, uret, uthrow.
  - destruct (secure_creds self w) as [[[creds|e] w1]|] eqn:Ec; [|done..].
    destruct (secure_creds_not_null self w creds w1 Ec) as [Hn Hx].
    destruct creds as [creds|]; [|done]. intros [= <- <-].
    by exists url, target, true, (Some creds).
  - destruct (secure_options self) eqn:Es; [done|]. intros [= <- <-].
    by exists url, target, false, Insecure.
Qed.

(** Without a URL there is a null pointer; any other scheme is an error. *)
Theorem createChannel_errors (self : ConnectionOptions) (w : W) :
  (d_url self = None -> create self w = None) /\
  (forall url, d_url self = Some url -> url_target url = None ->
     create self w = Some (Throw RuntimeError, w)) /\
  (forall url target, d_url self = Some url -> url_target url = Some (target, false) ->
     secure_options self = true -> create self w = Some (Throw RuntimeError, w)).
Proof.
  unfold createChannel. split; [by intros ->|]. split.
  - by intros url -> ->.
  - intros url target -> -> H. unfold ubind, uret. by rewrite H.
Qed.
End channel.

(** A gRPC that keeps what it was asked for. *)
Inductive toy_creds :=
  | ToySsl (options : SslCredentialsOptions)
  | ToyInsecure
  | ToyComposite (creds : toy_creds) (token : str).

Definition toy_ssl (options : SslCredentialsOptions) : option toy_creds :=
  Some (ToySsl options).
Definition toy_composite (creds : option toy_creds) (call : ReloadTokenAuthenticator)
  : option toy_creds :=
  match creds with
  | Some creds => Some (ToyComposite creds (d_token_string call))
  | None => None
  end.

#[global] Instance toy_grpc : GrpcCredentials toy_ssl toy_composite.
Proof. split; [done|]. by intros [creds|] call H. Qed.

Definition toy_channel (self : ConnectionOptions)
  : UM Z (str * option toy_creds * option str) :=
  createChannel (Some ToyInsecure) (fun w => (None, w)) toy_ssl id toy_composite
    (fun target creds policy => (target, creds, policy))
    (fun path w => (Some path, w)) (fun w => (w, w + 1)) 0 self.

Definition toy_secure_options : ConnectionOptions :=
  with_url (Some (L "https://h"))
    (with_accessTokenPath (Some (L "tok")) ConnectionOptions_default).

Definition toy_secure_channel : str * option toy_creds * option str :=
  (L "h", Some (ToyComposite (ToySsl (MkSsl [] [] [])) (L "Bearer tok")), None).

Lemma createChannel_secure_witness :
  toy_channel toy_secure_options 0 = Some (Ok toy_secure_channel, 1) /\
  exists target creds, toy_secure_channel = (target, creds, None) /\ creds <> None.
Proof.
  assert (E : toy_channel toy_secure_options 0 = Some (Ok toy_secure_channel, 1))
    by (vm_compute; reflexivity).
  split; [exact E|].
  destruct (createChannel_secure (Some ToyInsecure) (fun w : Z => (None, w))
    toy_ssl id toy_composite (fun target creds policy => (target, creds, policy))
    (fun path w => (Some path, w)) (fun w => (w, w + 1)) 0
    toy_secure_options 0 1 toy_secure_channel E)
    as (url & target & secure & creds & Hu & Ht & Hc & Hs).
  exists target, creds. injection Hu as <-. injection Ht as <- <-.
  destruct Hs as (_ & Hn & _). split; [exact Hc|exact Hn].
Defined.
