(* ===== verification/CommandLine.v ===== *)
(** * The command line

    [buildboxcommon_commandlinetypes.h], [buildboxcommon_commandlinetypes.cpp],
    [buildboxcommon_commandline.h] and [buildboxcommon_commandline.cpp], as they
    are compiled for C++14, the standard the build sets.  The stream [out] is the
    text written to it; the variables a specification binds live in a store.  The
    type [double] with its conversions from and to text is a parameter. *)

From S2P Require Import Prelude Grpc Merklize Paths Cstring Undefined.
Open Scope Z_scope.

(** ** [CommandLineTypes] *)

Inductive DataType :=
  | COMMANDLINE_DT_STRING
  | COMMANDLINE_DT_INT
  | COMMANDLINE_DT_DOUBLE
  | COMMANDLINE_DT_BOOL
  | COMMANDLINE_DT_STRING_ARRAY
  | COMMANDLINE_DT_STRING_PAIR_ARRAY
  | COMMANDLINE_DT_UNKNOWN.

#[global] Instance DataType_eq_dec : EqDecision DataType.
Proof. solve_decision. Defined.

(** An enumerator as [operator<<] shows it. *)
Definition DataType_int (t : DataType) : Z :=
  match t with
  | COMMANDLINE_DT_STRING => 0
  | COMMANDLINE_DT_INT => 1
  | COMMANDLINE_DT_DOUBLE => 2
  | COMMANDLINE_DT_BOOL => 3
  | COMMANDLINE_DT_STRING_ARRAY => 4
  | COMMANDLINE_DT_STRING_PAIR_ARRAY => 5
  | COMMANDLINE_DT_UNKNOWN => 6
  end.

Inductive Occurrence := O_OPTIONAL | O_REQUIRED.
Inductive Constraint := C_WITH_ARG | C_WITHOUT_ARG.

#[global] Instance Occurrence_eq_dec : EqDecision Occurrence.
Proof. solve_decision. Defined.
#[global] Instance Constraint_eq_dec : EqDecision Constraint.
Proof. solve_decision. Defined.

(** [TypeInfo]: a type and, where one is bound, the location of a variable. *)
Record TypeInfo := MkTypeInfo {
  ti_dataType : DataType;
  d_variable : option nat;
}.

Definition isBindable (t : TypeInfo) : bool :=
  match d_variable t with Some _ => true | None => false end.

Definition show_bool (b : bool) : str := if b then L "true" else L "false".

Section double.
Context {double : Type}.
(** [std::stod], 0.0, and [std::fixed << d]. *)
Context (stod : str -> res double) (double_0 : double) (show_double : double -> str).

(** [DefaultValue], by the constructor that made it. *)
Inductive DefaultValue :=
  | DefaultNone
  | DefaultString (s : str)
  | DefaultInt (i : Z)
  | DefaultDouble (d : double)
  | DefaultBool (b : bool).

Definition dv_dataType (v : DefaultValue) : DataType :=
  match v with
  | DefaultNone => COMMANDLINE_DT_UNKNOWN
  | DefaultString _ => COMMANDLINE_DT_STRING
  | DefaultInt _ => COMMANDLINE_DT_INT
  | DefaultDouble _ => COMMANDLINE_DT_DOUBLE
  | DefaultBool _ => COMMANDLINE_DT_BOOL
  end.

Definition dv_hasValue (v : DefaultValue) : bool :=
  negb (bool_decide (dv_dataType v = COMMANDLINE_DT_UNKNOWN)).

(** The getters; [None] is a member that the constructor left uninitialised. *)
Definition dv_getString (v : DefaultValue) : str :=
  match v with DefaultString s => s | _ => [] end.
Definition dv_getInt (v : DefaultValue) : option Z :=
  match v with DefaultInt i => Some i | DefaultNone => Some 0 | _ => None end.
Definition dv_getDouble (v : DefaultValue) : option double :=
  match v with DefaultDouble d => Some d | DefaultNone => Some double_0 | _ => None end.
Definition dv_getBool (v : DefaultValue) : option bool :=
  match v with DefaultBool b => Some b | DefaultNone => Some false | _ => None end.

(** A default value shown as a value of [dataType]. *)
Definition dv_show (v : DefaultValue) (dataType : DataType) : option str :=
  match dataType with
  | COMMANDLINE_DT_STRING => Some (quoted (dv_getString v))
  | COMMANDLINE_DT_INT => to_string <$> dv_getInt v
  | COMMANDLINE_DT_DOUBLE => show_double <$> dv_getDouble v
  | COMMANDLINE_DT_BOOL => show_bool <$> dv_getBool v
  | _ => Some []
  end.

Definition dv_print (v : DefaultValue) (dataType : DataType) : option str :=
  s ← dv_show v dataType; Some (L "[" ++ s ++ L "]").

Record ArgumentSpec := MkArgumentSpec {
  d_name : str;
  d_desc : str;
  d_typeInfo : TypeInfo;
  d_occurrence : Occurrence;
  d_constraint : Constraint;
  d_defaultValue : DefaultValue;
}.

Definition isOptional (s : ArgumentSpec) : bool :=
  bool_decide (d_occurrence s = O_OPTIONAL).
Definition isRequired (s : ArgumentSpec) : bool := negb (isOptional s).
Definition hasArgument (s : ArgumentSpec) : bool :=
  bool_decide (d_constraint s = C_WITH_ARG).
Definition isPositional (s : ArgumentSpec) : bool := bool_decide (d_name s = []).
Definition dataType (s : ArgumentSpec) : DataType := ti_dataType (d_typeInfo s).
Definition hasDefaultValue (s : ArgumentSpec) : bool := dv_hasValue (d_defaultValue s).

(** [operator<<] of a specification. *)
Definition show_ArgumentSpec (obj : ArgumentSpec) : option str :=
  default_text ← dv_print (d_defaultValue obj) (dataType obj);
  Some (L "[" ++ quoted (d_name obj) ++ L ", " ++ quoted (d_desc obj) ++ L ", " ++
        to_string (DataType_int (dataType obj)) ++ L ", " ++
        to_string (match d_occurrence obj with O_OPTIONAL => 0 | O_REQUIRED => 1 end) ++
        L ", " ++
        to_string (match d_constraint obj with C_WITH_ARG => 0 | C_WITHOUT_ARG => 1 end) ++
        L ", " ++ default_text).

(** [ArgumentValue]: a member per type; its constructor leaves [d_bool] unset. *)
Record ArgumentValue := MkArgumentValue {
  d_str : str;
  d_int : Z;
  d_double : double;
  d_bool : option bool;
  d_vs : list str;
  d_vps : list (str * str);
}.

Definition ArgumentValue_default : ArgumentValue :=
  MkArgumentValue [] 0 double_0 None [] [].

(** [operator=], by the type of the right-hand side. *)
Definition assign_str (rhs : str) (v : ArgumentValue) : ArgumentValue :=
  MkArgumentValue rhs (d_int v) (d_double v) (d_bool v) (d_vs v) (d_vps v).
Definition assign_int (rhs : Z) (v : ArgumentValue) : ArgumentValue :=
  MkArgumentValue (d_str v) rhs (d_double v) (d_bool v) (d_vs v) (d_vps v).
Definition assign_double (rhs : double) (v : ArgumentValue) : ArgumentValue :=
  MkArgumentValue (d_str v) (d_int v) rhs (d_bool v) (d_vs v) (d_vps v).
Definition assign_bool (rhs : bool) (v : ArgumentValue) : ArgumentValue :=
  MkArgumentValue (d_str v) (d_int v) (d_double v) (Some rhs) (d_vs v) (d_vps v).
Definition assign_vs (rhs : list str) (v : ArgumentValue) : ArgumentValue :=
  MkArgumentValue (d_str v) (d_int v) (d_double v) (d_bool v) rhs (d_vps v).
Definition assign_vps (rhs : list (str * str)) (v : ArgumentValue) : ArgumentValue :=
  MkArgumentValue (d_str v) (d_int v) (d_double v) (d_bool v) (d_vs v) rhs.

(** ** [CommandLine] *)

(** What a bound variable holds. *)
Inductive Variable_ :=
  | VarString (s : str)
  | VarInt (i : Z)
  | VarDouble (d : double)
  | VarBool (b : bool)
  | VarVS (vs : list str)
  | VarVPS (vps : list (str * str)).

Abbreviation ArgumentMetaData := (ArgumentValue * ArgumentSpec)%type.

Record CommandLine := MkCommandLine {
  d_spec : list ArgumentSpec;
  d_parsedArgs : gmap str ArgumentMetaData;
  d_processName : str;
  d_argIdx : nat;
  d_idxLastPositionalFound : nat;
  d_rawArgv : list str;
}.

(** The constructor. *)
Definition CommandLine_new (optionSpec : list ArgumentSpec) : CommandLine :=
  MkCommandLine optionSpec ∅ [] 0 0 [].

(** The object, the stream and the variables. *)
Record State := MkState {
  cml : CommandLine;
  out : str;
  vars : gmap nat Variable_;
}.

Definition with_cml (f : CommandLine -> CommandLine) (s : State) : State :=
  MkState (f (cml s)) (out s) (vars s).
Definition set_parsedArgs (m : gmap str ArgumentMetaData) (c : CommandLine) :=
  MkCommandLine (d_spec c) m (d_processName c) (d_argIdx c)
    (d_idxLastPositionalFound c) (d_rawArgv c).
Definition set_argIdx (n : nat) (c : CommandLine) :=
  MkCommandLine (d_spec c) (d_parsedArgs c) (d_processName c) n
    (d_idxLastPositionalFound c) (d_rawArgv c).
Definition set_idxLast (n : nat) (c : CommandLine) :=
  MkCommandLine (d_spec c) (d_parsedArgs c) (d_processName c) (d_argIdx c) n (d_rawArgv c).
Definition set_argv (process : str) (argv : list str) (c : CommandLine) :=
  MkCommandLine (d_spec c) (d_parsedArgs c) process (d_argIdx c)
    (d_idxLastPositionalFound c) argv.

Definition assign_char : ascii := "="%char.

(** [prefix(__LINE__)]. *)
Definition prefix (lineNumber : Z) : str :=
  L "[buildboxcommon_commandline.cpp:" ++ to_string lineNumber ++ L "]".

Definition emit (text : str) : UM State unit :=
  uupdate (fun s => MkState (cml s) (out s ++ text ++ [newline]) (vars s)).

(** A message and the result [false]. *)
Definition failed (text : str) : UM State bool :=
  let+ _ := emit text in uret false.

(** ** Helpers *)

Definition isRequiredPositional (spec : ArgumentSpec) : bool :=
  isPositional spec && isRequired spec.

(** [split]: the result and what is left in [*s1] and [*s2], empty before. *)
Definition split (s : str) (delim : ascii) : bool * str * str :=
  match split_at delim s with
  | None => (false, [], [])
  | Some (s1, s2) =>
      (negb (bool_decide (s1 = [])) && negb (bool_decide (s2 = [])), s1, s2)
  end.

(** [padString]: the text after each newline is preceded by a field of [fill]. *)
Fixpoint padString (s : str) (fill : Z) : str :=
  match s with
  | [] => []
  | c :: s =>
      if ascii_dec c newline
      then c :: setw_right fill [space] ++ padString s fill
      else c :: padString s fill
  end.

Definition find_spec (name : str) (specs : list ArgumentSpec) : option ArgumentSpec :=
  List.find (fun s => bool_decide (d_name s = name)) specs.

Definition existsInSpec (self : CommandLine) (argvArg : str) : bool :=
  match find_spec argvArg (d_spec self) with Some _ => true | None => false end.

Definition findOptionSpecByName (self : CommandLine) (argvArg : str)
  : option ArgumentSpec := find_spec argvArg (d_spec self).

(** The loop of [findNextPositionalSpec] from index [i] over what follows it. *)
Fixpoint next_positional (i : nat) (specs : list ArgumentSpec)
  : option ArgumentSpec * nat :=
  match specs with
  | [] => (None, i)
  | spec :: specs =>
      if isPositional spec then (Some spec, S i) else next_positional (S i) specs
  end.

Definition findNextPositionalSpec : UM State (option ArgumentSpec) :=
  fun s =>
    let i := d_idxLastPositionalFound (cml s) in
    let '(spec, i) := next_positional i (drop i (d_spec (cml s))) in
    Some (Ok spec, with_cml (set_idxLast i) s).

(** ** [buildArgumentValue] *)

Definition bind (spec : ArgumentSpec) (v : Variable_) : UM State unit :=
  match d_variable (d_typeInfo spec) with
  | Some loc => uupdate (fun s => MkState (cml s) (out s) (<[loc := v]> (vars s)))
  | None => uret tt
  end.

(** [emplace_back] on a bound vector; a variable of another type would be
    undefined, but the constructors of [TypeInfo] exclude it. *)
Definition bind_back (spec : ArgumentSpec) (f : Variable_ -> option Variable_)
  : UM State unit :=
  match d_variable (d_typeInfo spec) with
  | Some loc =>
      fun s =>
        match vars s !! loc ≫= f with
        | Some v => Some (Ok tt, MkState (cml s) (out s) (<[loc := v]> (vars s)))
        | None => None
        end
  | None => uret tt
  end.

Definition back_vs (value : str) (v : Variable_) : option Variable_ :=
  match v with VarVS vs => Some (VarVS (vs ++ [value])) | _ => None end.
Definition back_vps (value : str * str) (v : Variable_) : option Variable_ :=
  match v with VarVPS vps => Some (VarVPS (vps ++ [value])) | _ => None end.

(** An array option: a new value at its first occurrence, later an addition to
    the value that is kept in [d_parsedArgs]. *)
Definition append_parsed (name : str) (fresh : ArgumentValue)
    (append : ArgumentValue -> ArgumentValue) : UM State ArgumentValue :=
  fun s =>
    match d_parsedArgs (cml s) !! name with
    | None => Some (Ok fresh, s)
    | Some (value, spec) =>
        Some (Ok ArgumentValue_default,
              with_cml (set_parsedArgs
                (<[name := (append value, spec)]> (d_parsedArgs (cml s)))) s)
    end.

(** The [switch]. *)
Definition convert (optionValue : str) (spec : ArgumentSpec) : UM State ArgumentValue :=
  match dataType spec with
  | COMMANDLINE_DT_STRING =>
      let+ _ := bind spec (VarString optionValue) in
      uret (assign_str optionValue ArgumentValue_default)
  | COMMANDLINE_DT_INT =>
      let+ (val, _) := (fun s => Some (stoi optionValue, s)) in
      let+ _ := bind spec (VarInt val) in
      uret (assign_int val ArgumentValue_default)
  | COMMANDLINE_DT_DOUBLE =>
      let+ val := (fun s => Some (stod (c_str optionValue), s)) in
      let+ _ := bind spec (VarDouble val) in
      uret (assign_double val ArgumentValue_default)
  | COMMANDLINE_DT_BOOL =>
      let tmpVal :=
        if bool_decide (optionValue = []) && bool_decide (d_constraint spec = C_WITHOUT_ARG)
        then L "true" else optionValue in
      let val := bool_decide (tmpVal = L "true") in
      let+ _ := bind spec (VarBool val) in
      uret (assign_bool val ArgumentValue_default)
  | COMMANDLINE_DT_STRING_ARRAY =>
      let+ value :=
        append_parsed (d_name spec) (assign_vs [optionValue] ArgumentValue_default)
          (fun v => assign_vs (d_vs v ++ [optionValue]) v) in
      let+ _ := bind_back spec (back_vs optionValue) in
      uret value
  | COMMANDLINE_DT_STRING_PAIR_ARRAY =>
      let '(_, key, val) := split optionValue assign_char in
      let+ value :=
        append_parsed (d_name spec) (assign_vps [(key, val)] ArgumentValue_default)
          (fun v => assign_vps (d_vps v ++ [(key, val)]) v) in
      let+ _ := bind_back spec (back_vps (key, val)) in
      uret value
  | COMMANDLINE_DT_UNKNOWN => uthrow RuntimeError
  end.

Definition conversion_error (line : Z) (what optionValue : str) (spec : ArgumentSpec)
  : str :=
  prefix line ++ L ": " ++ what ++ L " error caught converting argument " ++
  quoted optionValue ++ L " to " ++
  (if bool_decide (dataType spec = COMMANDLINE_DT_DOUBLE) then L "double" else L "int").

(** [None] where the function returns false. *)
Definition buildArgumentValue (optionValue : str) (spec : ArgumentSpec)
  : UM State (option ArgumentValue) :=
  ucatch (fun e => bool_decide (e = OutOfRange))
    (ucatch (fun e => bool_decide (e = InvalidArgument))
       (let+ value := convert optionValue spec in uret (Some value))
       (let+ _ := emit (conversion_error 235 (L "invalid_argument") optionValue spec) in
        uret None))
    (let+ _ := emit (conversion_error 244 (L "out_of_range") optionValue spec) in
     uret None).

(** ** [validateRequiredArgs] *)

Definition is_missing (self : CommandLine) (spec : ArgumentSpec) : bool :=
  negb (isPositional spec) && isRequired spec
  && bool_decide (d_parsedArgs self !! d_name spec = None).

(** The result and, where it is false, the message. *)
Definition validateRequiredArgs (self : CommandLine) : bool * str :=
  let missing := List.filter (is_missing self) (d_spec self) in
  let filler := replicate (length (prefix 543) + 2) space in
  let oss := missing ≫= fun spec => filler ++ quoted (L "--" ++ d_name spec) ++ [newline] in
  if bool_decide (missing = []) then (true, [])
  else
    (false,
     d_processName self ++ L ": " ++ to_string (Z.of_nat (length missing)) ++
     L " required argument(s) missing" ++ [newline] ++ oss).

(** ** [readyForPositionals] *)

(** [operator\[\]] of a string: its terminator at the end, undefined beyond. *)
Definition char_at (s : str) (i : nat) : UM State ascii :=
  uvalue (if (i <=? length s)%nat then Some (nth i s zero) else None).

(** [s\[0\] == '-' && s\[1\] == '-'] and its two variants below. *)
Definition two_dashes (s : str) : UM State bool :=
  let+ c0 := char_at s 0 in
  if bool_decide (c0 = minus) then
    let+ c1 := char_at s 1 in uret (bool_decide (c1 = minus))
  else uret false.

Definition readyForPositionals (argIdx : nat) (currentArg : str) : UM State bool :=
  let+ self := ufield cml in
  if existsInSpec self currentArg then
    failed (prefix 446 ++ L ": parse error: long option format is required for argument "
            ++ quoted currentArg)
  else
    let '(valid, errorMsg) := validateRequiredArgs self in
    if negb valid then
      if (argIdx <? length (d_rawArgv self) - 1)%nat then
        let+ next := two_dashes (nth (argIdx + 1) (d_rawArgv self) []) in
        if (next : bool) then
          failed (prefix 468 ++ L ": parse error: positional arguments must come after options")
        else failed (prefix 474 ++ L ": parse error: " ++ errorMsg)
      else failed (prefix 480 ++ L ": parse error: " ++ errorMsg)
    else uret true.

(** ** [parseOptions] *)

(** [s.substr(pos)]. *)
Definition substr (s : str) (pos : nat) : UM State str :=
  if (length s <? pos)%nat then uthrow OutOfRange else uret (drop pos s).

(** [s\[0\] == '-' && s\[1\] != '-']. *)
Definition short_format (s : str) : UM State bool :=
  let+ c0 := char_at s 0 in
  if bool_decide (c0 = minus) then
    let+ c1 := char_at s 1 in uret (negb (bool_decide (c1 = minus)))
  else uret false.

(** [s\[0\] != '-' && s\[1\] != '-']. *)
Definition no_dashes (s : str) : UM State bool :=
  let+ c0 := char_at s 0 in
  if negb (bool_decide (c0 = minus)) then
    let+ c1 := char_at s 1 in uret (negb (bool_decide (c1 = minus)))
  else uret false.

Definition missing_argument (line : Z) (optionName : str) : str :=
  prefix line ++ L ": parse error: option " ++ quoted optionName ++
  L " is configured to accept an argument but none was provided".

(** The value of an option: what follows the equals sign, or for an option with
    an argument the next element of [argv], which is consumed; [None] after an
    error. *)
Definition optionValue_of (spec : ArgumentSpec) (optionName : str)
    (inline_value : option str) : UM State (option str) :=
  match inline_value with
  | Some optionValue => uret (Some optionValue)
  | None =>
      if hasArgument spec then
        let+ self := ufield cml in
        if (length (d_rawArgv self) =? d_argIdx self + 1)%nat then
          let+ _ := emit (missing_argument 306 optionName) in uret None
        else
          let+ _ := uupdate (with_cml (set_argIdx (d_argIdx self + 1))) in
          match d_rawArgv self !! (d_argIdx self + 1)%nat with
          | None => uthrow OutOfRange
          | Some optionValue =>
              let+ next := two_dashes optionValue in
              if (next : bool) then
                let+ _ := emit (missing_argument 319 optionName) in uret None
              else uret (Some optionValue)
          end
      else uret (Some [])
  end.

(** [d_parsedArgs.emplace]: what is there already stays. *)
Definition emplace (name : str) (value : ArgumentMetaData) : UM State unit :=
  uupdate (with_cml (fun c =>
    match d_parsedArgs c !! name with
    | Some _ => c
    | None => set_parsedArgs (<[name := value]> (d_parsedArgs c)) c
    end)).

(** The body of the loop; the result tells whether to go on, to leave the loop
    or to return false. *)
Inductive next := Continue | Break | Fail_.

Definition parseOption (currentArg : str) : UM State next :=
  let+ short := short_format currentArg in
  if (short : bool) then
    let+ _ := emit (prefix 264 ++ L ": parse error: unrecognized short option format for argument "
                    ++ quoted currentArg) in
    uret Fail_
  else
  let+ positional := no_dashes currentArg in
  if (positional : bool) then
    let+ self := ufield cml in
    let+ ready := readyForPositionals (d_argIdx self) currentArg in
    uret (if (ready : bool) then Break else Fail_)
  else
  let+ text := substr currentArg 2 in
  let '(optionName, inline_value) :=
    match split_at assign_char text with
    | Some (name, value) => (name, Some value)
    | None => (text, None)
    end in
  let+ self := ufield cml in
  match findOptionSpecByName self optionName with
  | None =>
      let+ _ := emit (prefix 296 ++ L ": parse error: option " ++ quoted optionName
                      ++ L " not part of argument specification") in
      uret Fail_
  | Some spec =>
      let+ value := optionValue_of spec optionName inline_value in
      match value with
      | None => uret Fail_
      | Some optionValue =>
          let+ argumentValue := buildArgumentValue optionValue spec in
          match argumentValue with
          | None => uret Fail_
          | Some argumentValue =>
              let+ _ := emplace optionName (argumentValue, spec) in
              uret Continue
          end
      end
  end.

(** The loop; its index grows, so the number of arguments bounds the rounds. *)
Fixpoint parseOptions_loop (fuel : nat) : UM State bool :=
  let+ self := ufield cml in
  match d_rawArgv self !! d_argIdx self with
  | None => uret true
  | Some currentArg =>
      match fuel with
      | O => undefined
      | S fuel =>
          let+ step := parseOption currentArg in
          match step with
          | Fail_ => uret false
          | Break => uret true
          | Continue =>
              let+ _ := uupdate (with_cml (fun c => set_argIdx (S (d_argIdx c)) c)) in
              parseOptions_loop fuel
          end
      end
  end.

Definition parseOptions : UM State bool :=
  let+ self := ufield cml in
  parseOptions_loop (length (d_rawArgv self)).

(** ** [applyDefaultValues] *)

Definition default_value (v : DefaultValue) : ArgumentValue :=
  match v with
  | DefaultNone => ArgumentValue_default
  | DefaultString s => assign_str s ArgumentValue_default
  | DefaultInt i => assign_int i ArgumentValue_default
  | DefaultDouble d => assign_double d ArgumentValue_default
  | DefaultBool b => assign_bool b ArgumentValue_default
  end.

Definition exists_ (self : CommandLine) (name : str) : bool :=
  match d_parsedArgs self !! name with Some _ => true | None => false end.

Fixpoint applyDefaultValues_loop (specs : list ArgumentSpec) : UM State bool :=
  match specs with
  | [] => uret true
  | spec :: specs =>
      if isPositional spec then applyDefaultValues_loop specs
      else if isRequired spec && hasDefaultValue spec then
        failed (prefix 352 ++ L ": parse error: option " ++ quoted (d_name spec) ++
          L " is specified as REQUIRED and is specifying a default value which is not allowed(only optional arguments are allowed default values), please fix the specification")
      else
        let+ self := ufield cml in
        if exists_ self (d_name spec) then applyDefaultValues_loop specs
        else if negb (hasDefaultValue spec) then applyDefaultValues_loop specs
        else if negb (bool_decide (dataType spec = dv_dataType (d_defaultValue spec))) then
          failed (prefix 372 ++ L ": parse error: option " ++ quoted (d_name spec) ++
            L " is specified as type " ++ to_string (DataType_int (dataType spec)) ++
            L " but the default value is specified with type " ++
            to_string (DataType_int (dv_dataType (d_defaultValue spec))) ++
            L ", please fix the specification")
        else
          let+ _ := emplace (d_name spec) (default_value (d_defaultValue spec), spec) in
          applyDefaultValues_loop specs
  end.

Definition applyDefaultValues : UM State bool :=
  let+ self := ufield cml in
  applyDefaultValues_loop (d_spec self).

(** ** [parsePositionals] *)

(** The loop over the arguments from [d_argIdx] on. *)
Fixpoint parsePositionals_loop (positionals : list str) : UM State bool :=
  match positionals with
  | [] => uret true
  | positional :: positionals =>
      let+ spec := findNextPositionalSpec in
      let+ built :=
        (match spec with
         | None =>
             let+ _ := emit (prefix 425 ++ L ": parse warning: unexpected positional argument "
                             ++ quoted positional
                             ++ L " found, but not defined in specification") in
             uret true
         | Some spec =>
             let+ value := buildArgumentValue positional spec in
             uret (match value with Some _ => true | None => false end)
         end) in
      if (built : bool) then
        let+ _ := uupdate (with_cml (fun c => set_argIdx (S (d_argIdx c)) c)) in
        parsePositionals_loop positionals
      else uret false
  end.

Definition parsePositionals : UM State bool :=
  let+ self := ufield cml in
  let numRequiredSpecPositionals :=
    length (List.filter isRequiredPositional (d_spec self)) in
  if (length (d_rawArgv self) <? d_argIdx self + numRequiredSpecPositionals)%nat then
    failed (prefix 414 ++
      L ": parse error: required positional argument(s) missing from command line")
  else parsePositionals_loop (drop (d_argIdx self) (d_rawArgv self)).

(** ** [parse] *)

(** After [argv] has been copied. *)
Definition parse_copied : UM State bool :=
  let+ result := parseOptions in
  if negb result then uret false
  else
    let+ self := ufield cml in
    if bool_decide (size (d_parsedArgs self) = 1%nat) && exists_ self (L "help")
    then uret true
    else
      let '(valid, errorMsg) := validateRequiredArgs self in
      if negb valid then failed (prefix 524 ++ L ": " ++ errorMsg)
      else
        let+ defaults := applyDefaultValues in
        if negb defaults then uret false else parsePositionals.

(** [argv] is null or an array of C strings ended by a null pointer. *)
Definition parse (argc : Z) (argv : option (list str)) : UM State bool :=
  match argv with
  | None => failed (L "invalid argc/argv parameters")
  | Some argv =>
      if argc =? 0 then failed (L "invalid argc/argv parameters")
      else if (argc <? 0) || (Z.of_nat (length argv) <? argc) then undefined
      else
        let+ self := ufield cml in
        match d_rawArgv self ++ map c_str (take (Z.to_nat argc) argv) with
        | [] => undefined
        | process :: args =>
            let+ _ := uupdate (with_cml (set_argv process args)) in
            parse_copied
        end
  end.

(** ** [usage] *)

(** [spec.d_desc.length()] or [spec.d_name.length()]. *)
Definition shown_length (spec : ArgumentSpec) : nat :=
  if isPositional spec then length (d_desc spec) else length (d_name spec).

(** [static_cast<int>(maxPadding - n)] of two [size_t]s. *)
Definition size_t_diff_int (a b : Z) : Z :=
  (a - b + 2 ^ 31) mod 2 ^ 32 - 2 ^ 31.

(** One line of the options; [None] reads an uninitialised default. *)
Definition usage_line (maxPadding : nat) (spec : ArgumentSpec) : option str :=
  let prefixSize := 3 in
  let gapSize := 5 in
  let fill := size_t_diff_int (Z.of_nat maxPadding) (Z.of_nat (shown_length spec)) in
  let paddedDesc := padString (d_desc spec) (Z.of_nat maxPadding + prefixSize + gapSize) in
  default_text ←
    (if hasDefaultValue spec then
       (fun text => L ", default = " ++ text) <$> dv_show (d_defaultValue spec) (dataType spec)
     else Some []);
  Some (replicate 3 space ++
        (if isPositional spec then L "  " else L "--") ++
        (if isPositional spec then paddedDesc else d_name spec) ++
        setw_right fill [space] ++
        (if isPositional spec then L "POSITIONAL" else paddedDesc) ++ L " [" ++
        (if isOptional spec then L "optional" else L "required") ++
        default_text ++ L "]" ++ [newline]).

Fixpoint usage_lines (maxPadding : nat) (specs : list ArgumentSpec) : option str :=
  match specs with
  | [] => Some []
  | spec :: specs =>
      line ← usage_line maxPadding spec;
      lines ← usage_lines maxPadding specs;
      Some (line ++ lines)
  end.

Definition usage (self : CommandLine) : option str :=
  let maxOptionLength := foldr Nat.max O (map (fun s => length (d_name s)) (d_spec self)) in
  let gapSize := 5%nat in
  let maxPadding := (maxOptionLength + gapSize)%nat in
  lines ← usage_lines maxPadding (d_spec self);
  Some (L "Usage: " ++ d_processName self ++ [newline] ++ lines ++ [newline]).

(** ** Getters *)

Section getters.
Context (self : CommandLine) (name : str).

Definition parsed : res ArgumentValue :=
  match d_parsedArgs self !! name with
  | None => Throw RuntimeError
  | Some (value, _) => Ok value
  end.

Definition getString : res str := let! v := parsed in Ok (d_str v).
Definition getInt : res Z := let! v := parsed in Ok (d_int v).
Definition getDouble : res double := let! v := parsed in Ok (d_double v).
(** [None] is the member of a value that is not a [bool]: never set. *)
Definition getBool : res (option bool) := let! v := parsed in Ok (d_bool v).

Definition getString_or (default_value : str) : str :=
  match d_parsedArgs self !! name with
  | None => default_value | Some (v, _) => d_str v end.
Definition getInt_or (default_value : Z) : Z :=
  match d_parsedArgs self !! name with
  | None => default_value | Some (v, _) => d_int v end.
Definition getBool_or (default_value : bool) : option bool :=
  match d_parsedArgs self !! name with
  | None => Some default_value | Some (v, _) => d_bool v end.
Definition getDouble_or (default_value : double) : double :=
  match d_parsedArgs self !! name with
  | None => default_value | Some (v, _) => d_double v end.
Definition getVS (default_value : list str) : list str :=
  match d_parsedArgs self !! name with
  | None => default_value | Some (v, _) => d_vs v end.
Definition getVPS (default_value : list (str * str)) : list (str * str) :=
  match d_parsedArgs self !! name with
  | None => default_value | Some (v, _) => d_vps v end.
End getters.

End double.

Arguments DefaultValue : clear implicits.
Arguments ArgumentSpec : clear implicits.
Arguments ArgumentValue : clear implicits.
Arguments CommandLine : clear implicits.
Arguments State : clear implicits.
Arguments Variable_ : clear implicits.
