(* ===== verification/CommandLineSpec.v ===== *)
(** * Properties of the command line *)

From S2P Require Import Prelude StdMap Arrays Grpc Merklize Paths PathsSpec StringUtils Cstring Undefined CommandLine.
Open Scope Z_scope.

(** [std::stod] throws what the standard says, like [std::stoi]. *)
Class StodLaw {double : Type} (stod : str -> res double) :=
  stod_throws s e : stod s = Throw e -> e = InvalidArgument \/ e = OutOfRange.

Section props.
Context {double : Type} (stod : str -> res double) (double_0 : double)
  (show_double : double -> str).
Context {law : StodLaw stod}.

Abbreviation ArgumentSpec := (ArgumentSpec double).
Abbreviation ArgumentValue := (ArgumentValue double).
Abbreviation State := (State double).
Implicit Types (s : State) (spec : ArgumentSpec) (specs : list ArgumentSpec).

(** ** Well-formed states *)

Definition var_type (v : Variable_ double) : DataType :=
  match v with
  | VarString _ => COMMANDLINE_DT_STRING
  | VarInt _ => COMMANDLINE_DT_INT
  | VarDouble _ => COMMANDLINE_DT_DOUBLE
  | VarBool _ => COMMANDLINE_DT_BOOL
  | VarVS _ => COMMANDLINE_DT_STRING_ARRAY
  | VarVPS _ => COMMANDLINE_DT_STRING_PAIR_ARRAY
  end.

(** Each bound variable exists and has the type its specification was built with. *)
Definition store_ok specs (vars : gmap nat (Variable_ double)) : Prop :=
  Forall (fun spec => forall loc, d_variable (d_typeInfo spec) = Some loc ->
    exists v, vars !! loc = Some v /\ var_type v = dataType spec) specs.

(** A parsed value has the member of its type. *)
Definition value_ok spec (v : ArgumentValue) : Prop :=
  match dataType spec with
  | COMMANDLINE_DT_BOOL => d_bool v <> None
  | COMMANDLINE_DT_INT => INT_MIN <= d_int v <= INT_MAX
  | COMMANDLINE_DT_UNKNOWN => False
  | _ => True
  end.

Definition entry_ok specs (name : str) (e : ArgumentValue * ArgumentSpec) : Prop :=
  find_spec name specs = Some (snd e) /\ value_ok (snd e) (fst e).

Record st_ok specs (argv : list str) s : Prop := {
  ok_spec : d_spec (cml s) = specs;
  ok_argv : d_rawArgv (cml s) = argv;
  ok_parsed : map_Forall (entry_ok specs) (d_parsedArgs (cml s));
  ok_store : store_ok specs (vars s);
}.

(** No option is forgotten. *)
Definition keeps s s' : Prop :=
  forall name, d_parsedArgs (cml s) !! name <> None ->
    d_parsedArgs (cml s') !! name <> None.

(** What most of the operations do to a state: they keep it well formed, and the
    index of the current argument and the parsed options with it. *)
Record step_ok specs argv s s' : Prop := {
  step_st : st_ok specs argv s';
  step_idx : d_argIdx (cml s') = d_argIdx (cml s);
  step_keeps : keeps s s';
}.

Lemma step_refl specs argv s : st_ok specs argv s -> step_ok specs argv s s.
Proof. intros H. split; [done|done|by intros n Hn]. Qed.

Lemma step_trans specs argv s1 s2 s3 :
  step_ok specs argv s1 s2 -> step_ok specs argv s2 s3 -> step_ok specs argv s1 s3.
Proof.
  intros [_ E1 K1] [H2 E2 K2]. split; [done|congruence|]. intros n Hn. by apply K2, K1.
Qed.

Lemma find_spec_In name specs spec :
  find_spec name specs = Some spec -> In spec specs /\ d_name spec = name.
Proof.
  unfold find_spec. intros H. apply find_some in H as [H E].
  split; [done|by apply bool_decide_eq_true in E].
Qed.

Lemma store_ok_insert specs vars loc spec v :
  store_ok specs vars -> In spec specs -> d_variable (d_typeInfo spec) = Some loc ->
  var_type v = dataType spec -> store_ok specs (<[loc := v]> vars).
Proof.
  unfold store_ok. rewrite !Forall_forall. intros H Hin Hl Hv spec' Hin' loc' Hl'.
  destruct (decide (loc' = loc)) as [->|Hne].
  - exists v. split; [apply lookup_insert_eq|].
    destruct (H spec Hin loc Hl) as (v1 & E1 & T1), (H spec' Hin' loc Hl') as (v2 & E2 & T2).
    congruence.
  - rewrite lookup_insert_ne by done. by apply (H spec').
Qed.

(** ** The primitives *)

Lemma emit_ok text specs argv s (Q : res unit -> State -> Prop) :
  st_ok specs argv s ->
  (forall s', step_ok specs argv s s' -> Q (Ok tt) s') -> runs (emit text) s Q.
Proof.
  intros [H1 H2 H3 H4] HQ. apply HQ. split; [by split|done|]. by intros n Hn.
Qed.

(** A message and then a result. *)
Lemma emit_then {A} (a : A) text specs argv s :
  st_ok specs argv s ->
  runs (let+ _ := emit text in uret a) s (fun r s' => r = Ok a /\ step_ok specs argv s s').
Proof.
  intros Hs. eapply runs_bind;
    [apply (emit_ok _ specs argv s (fun r s' => r = Ok tt /\ step_ok specs argv s s')); done|..].
  - intros [] s' [_ H]. by split.
  - by intros e s' [[=] _].
Qed.

Lemma bind_ok spec v specs argv s :
  st_ok specs argv s -> In spec specs -> var_type v = dataType spec ->
  runs (bind spec v) s (fun r s' => r = Ok tt /\ step_ok specs argv s s').
Proof.
  intros Hs Hin Hv. unfold bind. destruct (d_variable (d_typeInfo spec)) as [loc|] eqn:E.
  - destruct Hs as [H1 H2 H3 H4]. split; [done|]. split; [|done|by intros n Hn].
    split; cbn; [done..|]. by eapply store_ok_insert.
  - split; [done|by apply step_refl].
Qed.

Lemma bind_back_ok spec f specs argv s :
  st_ok specs argv s -> In spec specs ->
  (forall v, var_type v = dataType spec ->
     exists v', f v = Some v' /\ var_type v' = dataType spec) ->
  runs (bind_back spec f) s (fun r s' => r = Ok tt /\ step_ok specs argv s s').
Proof.
  intros Hs Hin Hf. unfold bind_back. destruct (d_variable (d_typeInfo spec)) as [loc|] eqn:E.
  - destruct Hs as [H1 H2 H3 H4]. pose proof (proj1 (Forall_forall _ _) H4) as H5.
    destruct (H5 spec Hin loc E) as (v & Ev & Tv).
    destruct (Hf v Tv) as (v' & Ev' & Tv'). unfold runs. rewrite Ev. cbn. rewrite Ev'.
    split; [done|]. split; [|done|by intros n Hn].
    split; cbn; [done..|]. by eapply store_ok_insert.
  - split; [done|by apply step_refl].
Qed.

(** Changing the parsed options by inserting a good entry. *)
Lemma insert_ok name e specs argv s :
  st_ok specs argv s -> entry_ok specs name e ->
  step_ok specs argv s
    (with_cml (set_parsedArgs (<[name := e]> (d_parsedArgs (cml s)))) s).
Proof.
  intros [H1 H2 H3 H4] He. split; [|done|].
  - split; cbn; [done..| |done]. by apply map_Forall_insert_2.
  - intros n Hn. cbn. destruct (decide (name = n)) as [->|Hne].
    + by rewrite lookup_insert_eq.
    + by rewrite lookup_insert_ne.
Qed.

Lemma append_parsed_ok name fresh append spec specs argv s :
  st_ok specs argv s ->
  value_ok spec fresh -> value_ok spec (ArgumentValue_default double_0) ->
  (forall spec v, value_ok spec v -> value_ok spec (append v)) ->
  runs (append_parsed double_0 name fresh append) s
    (fun r s' => (exists v, r = Ok v /\ value_ok spec v) /\ step_ok specs argv s s').
Proof.
  intros Hs Hv Hd Ha. unfold append_parsed, runs.
  destruct (d_parsedArgs (cml s) !! name) as [[v spec']|] eqn:E.
  - split; [by eexists|]. apply insert_ok; [done|].
    pose proof (ok_parsed _ _ _ Hs name _ E) as [H1 H2]. split; [done|]. by apply Ha.
  - split; [by eexists|]. by apply step_refl.
Qed.

(** ** Building a value *)

(** The result of [convert], and of a conversion that failed. *)
Definition converted spec specs argv s (r : res ArgumentValue) s' : Prop :=
  step_ok specs argv s s' /\
  match r with
  | Ok v => value_ok spec v
  | Throw e => e = InvalidArgument \/ e = OutOfRange
  end.

Lemma bind_then spec v (a : ArgumentValue) specs argv s :
  st_ok specs argv s -> In spec specs -> var_type v = dataType spec -> value_ok spec a ->
  runs (let+ _ := bind spec v in uret a) s (converted spec specs argv s).
Proof.
  intros Hs Hin Hv Ha. eapply runs_bind; [by apply bind_ok|..].
  - intros [] s' [_ Hs']. by split.
  - by intros e s' [[=] _].
Qed.

Lemma append_then spec fresh append f specs argv s :
  st_ok specs argv s -> In spec specs ->
  value_ok spec fresh -> value_ok spec (ArgumentValue_default double_0) ->
  (forall spec v, value_ok spec v -> value_ok spec (append v)) ->
  (forall v, var_type v = dataType spec ->
     exists v', f v = Some v' /\ var_type v' = dataType spec) ->
  runs (let+ value := append_parsed double_0 (d_name spec) fresh append in
        let+ _ := bind_back spec f in uret value) s (converted spec specs argv s).
Proof.
  intros Hs Hin Hv Hd Ha Hf. eapply runs_bind; [by apply (append_parsed_ok _ _ _ spec)|..].
  - intros a s1 [(v & [= <-] & Hv1) H1].
    eapply runs_bind; [apply bind_back_ok; [by apply H1|done..]|..].
    + intros [] s2 [_ H2]. split; [by eapply step_trans|done].
    + by intros e s2 [[=] _].
  - by intros e s1 [(v & [=] & _) _].
Qed.

Lemma convert_ok value spec specs argv s :
  st_ok specs argv s -> In spec specs -> dataType spec <> COMMANDLINE_DT_UNKNOWN ->
  runs (convert stod double_0 value spec) s (converted spec specs argv s).
Proof.
  intros Hs Hin Hu. unfold convert.
  destruct (dataType spec) eqn:Et; [..|done].
  - apply bind_then; try done. by unfold value_ok; rewrite Et.
  - destruct (stoi value) as [[v pos]|e] eqn:Ei.
    + apply bind_then; try done. unfold value_ok; rewrite Et. by eapply stoi_range.
    + split; [by apply step_refl|by eapply stoi_throws].
  - destruct (stod (c_str value)) as [v|e] eqn:Ei.
    + apply bind_then; try done. by unfold value_ok; rewrite Et.
    + split; [by apply step_refl|by eapply stod_throws].
  - apply bind_then; try done. unfold value_ok; by rewrite Et.
  - apply append_then; try done; try (by unfold value_ok; rewrite Et).
    rewrite Et. intros []; try done. intros _. by eexists.
  - destruct (split value _) as [[? key] val]. apply append_then; try done;
      try (by unfold value_ok; rewrite Et).
    rewrite Et. intros []; try done. intros _. by eexists.
Qed.

Lemma buildArgumentValue_ok value spec specs argv s :
  st_ok specs argv s -> In spec specs -> dataType spec <> COMMANDLINE_DT_UNKNOWN ->
  runs (buildArgumentValue stod double_0 value spec) s (fun r s' =>
    step_ok specs argv s s' /\
    exists v, r = Ok v /\ match v with Some v => value_ok spec v | None => True end).
Proof.
  intros Hs Hin Hu. unfold buildArgumentValue. apply runs_catch, runs_catch.
  assert (forall line what (s' : State), step_ok specs argv s s' ->
    runs (let+ _ := emit (conversion_error line what value spec) in
          uret (None : option ArgumentValue)) s' (fun r s'' => step_ok specs argv s s'' /\
      exists v, r = Ok v /\ match v with Some v => value_ok spec v | None => True end)) as He.
  { intros line what s' Hs'. eapply runs_mono; [apply emit_then, Hs'|].
    intros r s'' [-> H]. split; [by eapply step_trans|by eexists]. }
  eapply runs_bind; [by apply convert_ok|..].
  - intros v s1 [H1 Hv]. split; [done|by eexists].
  - intros e s1 [H1 [-> | ->]].
    + change (bool_decide (InvalidArgument = InvalidArgument)) with true. cbn iota.
      eapply runs_mono; [by apply He|]. intros [v|e] s2 H2; [exact H2|].
      by destruct H2 as (_ & v & [=] & _).
    + change (bool_decide (OutOfRange = InvalidArgument)) with false.
      change (bool_decide (OutOfRange = OutOfRange)) with true. cbn iota. by apply He.
Qed.

(** ** Parsing options *)

Lemma two_dashes_ok (a : str) s : exists b, two_dashes a s = Some (Ok b, s).
Proof.
  unfold two_dashes, ubind, char_at, uvalue, uret. destruct a as [|c0 a]; cbn.
  { rewrite bool_decide_false by done. by eexists. }
  destruct (bool_decide (c0 = minus)); by eexists.
Qed.

Lemma short_format_ok (a : str) s : exists b, short_format a s = Some (Ok b, s) /\
  (b = false -> forall a', a = minus :: a' -> exists a'', a' = minus :: a'').
Proof.
  unfold short_format, ubind, char_at, uvalue, uret. destruct a as [|c0 a]; cbn.
  { rewrite bool_decide_false by done. by eexists. }
  destruct (bool_decide (c0 = minus)) eqn:E0; b2p; eexists; split; try done.
  - intros H a' [= _ <-]. b2p. destruct a as [|c1 a]; cbn in H; [done|]. subst c1. by eexists.
  - by intros _ a' [= ->].
Qed.

Lemma no_dashes_ok (a : str) s : a <> [] -> exists b, no_dashes a s = Some (Ok b, s) /\
  (b = false -> exists c0, c0 = minus /\ (hd zero a = c0 \/ exists d a', a = d :: c0 :: a')).
Proof.
  intros Ha. unfold no_dashes, ubind, char_at, uvalue, uret. destruct a as [|c0 a]; [done|]. cbn.
  destruct (bool_decide (c0 = minus)) eqn:E0; b2p; eexists; (split; [done|]).
  - intros _. exists minus. split; [done|by left].
  - cbn. intros H. b2p. exists minus. split; [done|]. right.
    destruct a as [|c1 a]; cbn in H; [done|]. subst c1. by exists c0, a.
Qed.

(** An empty argument, where an option or a positional argument could stand, is
    read past its end. *)
Lemma no_dashes_empty s : no_dashes [] s = None.
Proof. by vm_compute. Qed.

Lemma readyForPositionals_ok idx arg specs argv s :
  st_ok specs argv s ->
  runs (readyForPositionals idx arg) s (fun r s' =>
    step_ok specs argv s s' /\ exists b, r = Ok b).
Proof.
  intros Hs. assert (forall text, runs (failed text) s (fun r s' =>
    step_ok specs argv s s' /\ exists b, r = Ok b)) as Hf.
  { intros text. eapply runs_mono; [by apply emit_then|].
    intros r s' [-> H]. split; [done|by eexists]. }
  unfold readyForPositionals. apply runs_field.
  destruct (existsInSpec (cml s) arg); [apply Hf|].
  destruct (validateRequiredArgs (cml s)) as [[] msg]; cbn [negb].
  { split; [by apply step_refl|by eexists]. }
  destruct (_ <? _)%nat; [|apply Hf].
  destruct (two_dashes_ok (nth (idx + 1) (d_rawArgv (cml s)) []) s) as [b Eb].
  eapply runs_value; [exact Eb|]. destruct b; apply Hf.
Qed.

(** An operation that may also consume one more argument. *)
Record option_ok specs argv s s' : Prop := {
  option_st : st_ok specs argv s';
  option_idx : (d_argIdx (cml s) <= d_argIdx (cml s'))%nat;
  option_keeps : keeps s s';
}.

Lemma step_option specs argv s s' : step_ok specs argv s s' -> option_ok specs argv s s'.
Proof. intros [H1 H2 H3]. split; [done|lia|done]. Qed.

Lemma option_trans specs argv s1 s2 s3 :
  option_ok specs argv s1 s2 -> option_ok specs argv s2 s3 -> option_ok specs argv s1 s3.
Proof.
  intros [_ E1 K1] [H2 E2 K2]. split; [done|lia|]. intros n Hn. by apply K2, K1.
Qed.

Lemma set_argIdx_ok n specs argv s :
  st_ok specs argv s -> (d_argIdx (cml s) <= n)%nat ->
  option_ok specs argv s (with_cml (set_argIdx n) s).
Proof. intros [H1 H2 H3 H4] Hn. split; [by split|done|]. by intros m Hm. Qed.

Lemma optionValue_of_ok spec name inline arg specs argv s :
  st_ok specs argv s -> argv !! d_argIdx (cml s) = Some arg ->
  runs (optionValue_of spec name inline) s (fun r s' =>
    option_ok specs argv s s' /\ exists v, r = Ok v).
Proof.
  intros Hs Ha. assert (forall A (a : A) text (s' : State), option_ok specs argv s s' ->
    runs (let+ _ := emit text in uret a) s' (fun r s'' =>
      option_ok specs argv s s'' /\ exists v, r = Ok v)) as He.
  { intros A a text s' H. eapply runs_mono; [apply emit_then, H|].
    intros r s'' [-> H']. split; [|by eexists]. eapply option_trans; [exact H|].
    by apply step_option. }
  pose proof (step_option _ _ _ _ (step_refl _ _ _ Hs)) as H0.
  unfold optionValue_of. destruct inline as [v|]; [split; [done|by eexists]|].
  destruct (hasArgument spec); [|split; [done|by eexists]].
  apply runs_field. rewrite (ok_argv _ _ _ Hs).
  destruct (_ =? _)%nat eqn:El; b2p; [by apply He|]. apply runs_update.
  set (s1 := with_cml _ s).
  assert (option_ok specs argv s s1) as H1 by (apply set_argIdx_ok; [done|lia]).
  destruct (argv !! (d_argIdx (cml s) + 1)%nat) as [v|] eqn:Ev.
  2: { apply lookup_ge_None in Ev. apply lookup_lt_Some in Ha. lia. }
  destruct (two_dashes_ok v s1) as [b Eb]. eapply runs_value; [exact Eb|].
  destruct b; [by apply He|]. split; [done|by eexists].
Qed.

Lemma emplace_ok name e specs argv s :
  st_ok specs argv s -> entry_ok specs name e ->
  runs (emplace name e) s (fun r s' => r = Ok tt /\ step_ok specs argv s s' /\
    d_parsedArgs (cml s') !! name <> None).
Proof.
  intros Hs He. unfold emplace, runs, uupdate. split; [done|].
  destruct (d_parsedArgs (cml s) !! name) as [e'|] eqn:E.
  - unfold with_cml. rewrite E. destruct s as [c o v]. cbn in *.
    split; [by apply step_refl|by rewrite E].
  - unfold with_cml. rewrite E. split; [by apply (insert_ok name e)|].
    cbn. by rewrite lookup_insert_eq.
Qed.

(** No specification has the type that [buildArgumentValue] rejects. *)
Definition known specs : Prop :=
  Forall (fun spec => dataType spec <> COMMANDLINE_DT_UNKNOWN) specs.

Lemma parseOption_ok arg specs argv s :
  st_ok specs argv s -> known specs -> arg <> [] -> argv !! d_argIdx (cml s) = Some arg ->
  runs (parseOption stod double_0 arg) s (fun r s' =>
    option_ok specs argv s s' /\ exists n, r = Ok n).
Proof.
  intros Hs Hk Ha Harg.
  assert (forall (n : next) text (s' : State), option_ok specs argv s s' ->
    runs (let+ _ := emit text in uret n) s' (fun r s'' =>
      option_ok specs argv s s'' /\ exists v, r = Ok v)) as He.
  { intros n text s' H. eapply runs_mono; [apply emit_then, H|].
    intros r s'' [-> H']. split; [|by eexists]. eapply option_trans; [exact H|].
    by apply step_option. }
  pose proof (step_option _ _ _ _ (step_refl _ _ _ Hs)) as H0.
  unfold parseOption. destruct (short_format_ok arg s) as (b & Eb & Hb).
  eapply runs_value; [exact Eb|]. destruct b; [by apply He|].
  destruct (no_dashes_ok arg s Ha) as (b' & Eb' & Hb').
  eapply runs_value; [exact Eb'|]. destruct b'.
  { apply runs_field. eapply runs_bind; [by apply readyForPositionals_ok|..].
    - intros b s' [H _]. split; [by apply step_option|by eexists].
    - by intros e s' [_ (b & [=])]. }
  assert (substr arg 2 s = Some (Ok (drop 2 arg), s)) as Esub.
  { unfold substr. destruct (_ <? 2)%nat eqn:El; [|done]. b2p. exfalso.
    destruct (Hb' eq_refl) as (c0 & -> & [H | (d & a' & ->)]); [|cbn in El; lia].
    destruct arg as [|c a]; [done|]. cbn in H. subst c.
    destruct (Hb eq_refl a eq_refl) as [a'' ->]. cbn in El. lia. }
  eapply runs_value; [exact Esub|].
  set (sp := match split_at assign_char (drop 2 arg) with Some _ => _ | None => _ end).
  destruct sp as [name inline] eqn:Esp. clear sp Esp. apply runs_field.
  unfold findOptionSpecByName. rewrite (ok_spec _ _ _ Hs).
  destruct (find_spec name specs) as [spec|] eqn:Ef; [|by apply He].
  pose proof (find_spec_In _ _ _ Ef) as [Hin _].
  assert (dataType spec <> COMMANDLINE_DT_UNKNOWN) as Hu
    by exact (proj1 (List.Forall_forall _ _) Hk spec Hin).
  eapply runs_bind; [by eapply optionValue_of_ok|..].
  2: { by intros e s' [_ (v & [=])]. }
  intros [v|] s1 [H1 _]; [|by split; [|eexists]].
  eapply runs_bind; [by apply buildArgumentValue_ok; [apply H1|..]|..].
  2: { by intros e s' [_ (v' & [=] & _)]. }
  intros [a|] s2 [H2 (v' & [= <-] & Hv)].
  2: { split; [|by eexists]. eapply option_trans; [exact H1|by apply step_option]. }
  eapply runs_bind; [apply (emplace_ok name (a, spec) specs argv); [by apply H2|by split]|..].
  2: { by intros e s' [[=] _]. }
  intros [] s3 (_ & H3 & _). split; [|by eexists].
  eapply option_trans; [exact H1|]. apply step_option. by eapply step_trans.
Qed.

Lemma parseOptions_loop_ok fuel specs argv s :
  st_ok specs argv s -> known specs -> Forall (fun a => a <> []) argv ->
  (length argv <= fuel + d_argIdx (cml s))%nat ->
  runs (parseOptions_loop stod double_0 fuel) s (fun r s' =>
    option_ok specs argv s s' /\ exists b, r = Ok b).
Proof.
  revert s. induction fuel as [|fuel IH]; intros s Hs Hk Hne Hf;
    pose proof (step_option _ _ _ _ (step_refl _ _ _ Hs)) as H0;
    cbn [parseOptions_loop]; apply runs_field; rewrite (ok_argv _ _ _ Hs);
    destruct (argv !! d_argIdx (cml s)) as [arg|] eqn:Ea;
    try by (split; [|eexists]).
  - apply lookup_lt_Some in Ea. lia.
  - eapply runs_bind; [apply (parseOption_ok arg specs argv); try done|..].
    { by eapply (proj1 (Forall_lookup _ _) Hne). }
    2: { by intros e s' [_ (n & [=])]. }
    intros n s1 [H1 _]. destruct n; [|by (split; [|eexists])..].
    apply runs_update. set (s2 := with_cml _ s1).
    assert (option_ok specs argv s1 s2) as H2.
    { unfold s2. pose proof (set_argIdx_ok (S (d_argIdx (cml s1))) specs argv s1
        (option_st _ _ _ _ H1) ltac:(lia)) as H. exact H. }
    eapply runs_mono; [apply (IH s2)|].
    + apply H2.
    + done.
    + done.
    + unfold s2. cbn. pose proof (option_idx _ _ _ _ H1). lia.
    + intros r s3 [H3 Hr]. split; [|done]. eapply option_trans; [exact H1|].
      by eapply option_trans.
Qed.

(** ** Defaults and positionals *)

(** After the defaults: every option of [specs] that has one is there. *)
Definition defaulted specs s : Prop :=
  Forall (fun spec => hasDefaultValue spec = true -> d_name spec <> [] ->
    d_parsedArgs (cml s) !! d_name spec <> None) specs.

(** The names of the options differ, so that a name leads to its specification. *)
Definition distinct_names specs : Prop :=
  forall spec, In spec specs -> d_name spec <> [] ->
    find_spec (d_name spec) specs = Some spec.

Lemma default_value_ok spec :
  hasDefaultValue spec = true -> dataType spec = dv_dataType (d_defaultValue spec) ->
  (forall i, d_defaultValue spec = DefaultInt i -> INT_MIN <= i <= INT_MAX) ->
  value_ok spec (default_value double_0 (d_defaultValue spec)).
Proof.
  unfold hasDefaultValue, value_ok. intros Hh -> Hi.
  destruct (d_defaultValue spec); cbn in *; try done. by apply Hi.
Qed.

(** The integers of the defaults are [int]s. *)
Definition int_defaults specs : Prop :=
  Forall (fun spec => forall i, d_defaultValue spec = DefaultInt i ->
    INT_MIN <= i <= INT_MAX) specs.

Lemma applyDefaultValues_loop_ok l specs argv s :
  st_ok specs argv s -> distinct_names specs -> int_defaults specs ->
  (forall spec, In spec l -> In spec specs) ->
  runs (applyDefaultValues_loop double_0 l) s (fun r s' =>
    step_ok specs argv s s' /\ exists b, r = Ok b /\ (b = true -> defaulted l s')).
Proof.
  intros Hs Hd Hi. revert s Hs. induction l as [|spec l IH]; intros s Hs Hl.
  { split; [by apply step_refl|]. exists true. split; [done|constructor]. }
  assert (forall text, runs (failed text) s (fun r s' =>
    step_ok specs argv s s' /\ exists b, r = Ok b /\ (b = true -> defaulted (spec :: l) s'))) as Hf.
  { intros text. eapply runs_mono; [by apply emit_then|].
    intros r s' [-> H]. split; [done|by exists false]. }
  assert (forall s1, step_ok specs argv s s1 ->
    (hasDefaultValue spec = true -> d_name spec <> [] ->
       d_parsedArgs (cml s1) !! d_name spec <> None) ->
    runs (applyDefaultValues_loop double_0 l) s1 (fun r s' =>
      step_ok specs argv s s' /\ exists b, r = Ok b /\ (b = true -> defaulted (spec :: l) s'))) as Hn.
  { intros s1 H1 Hsp. eapply runs_mono; [apply IH; [by apply H1|by intros ??; apply Hl; right]|].
    intros r s' [H2 (b & -> & Hb)]. split; [by eapply step_trans|]. exists b. split; [done|].
    intros Ht. constructor; [|by apply Hb]. intros Hx Hy. by apply H2, Hsp. }
  pose proof (step_refl _ _ _ Hs) as H0. cbn [applyDefaultValues_loop].
  destruct (isPositional spec) eqn:Ep.
  { apply Hn; [done|]. intros _ Hne. unfold isPositional in Ep. b2p. done. }
  destruct (_ && _) eqn:Er; [apply Hf|]. apply runs_field.
  unfold exists_. destruct (d_parsedArgs (cml s) !! d_name spec) eqn:Ee.
  { apply Hn; [done|]. by rewrite Ee. }
  destruct (hasDefaultValue spec) eqn:Eh; cbn [negb].
  2: { apply Hn; [done|]. congruence. }
  destruct (bool_decide _) eqn:Et; cbn [negb]; [|apply Hf]. b2p.
  eapply runs_bind; [apply (emplace_ok _ (default_value double_0 (d_defaultValue spec), spec)
    specs argv); [done|]|..].
  - unfold isPositional in Ep. b2p. split; [apply Hd; [apply Hl; by left|done]|].
    apply default_value_ok; [done..|].
    exact (proj1 (List.Forall_forall _ _) Hi spec (Hl spec ltac:(by left))).
  - intros [] s1 (_ & H1 & Hp). by apply Hn.
  - by intros e s' [[=] _].
Qed.

Lemma next_positional_In i l spec j :
  next_positional i l = (Some spec, j) -> In spec l.
Proof.
  revert i. induction l as [|x l IH]; intros i; cbn; [done|].
  destruct (isPositional x); [intros [= -> _]; by left|]. intros H. right. by eapply IH.
Qed.

Lemma findNextPositionalSpec_ok specs argv s :
  st_ok specs argv s ->
  runs findNextPositionalSpec s (fun r s' => step_ok specs argv s s' /\
    exists o, r = Ok o /\ match o with Some spec => In spec specs | None => True end).
Proof.
  intros [H1 H2 H3 H4]. unfold findNextPositionalSpec, runs.
  destruct (next_positional _ _) as [o j] eqn:E.
  split; [split; [by split|done|by intros n Hn]|]. exists o. split; [done|].
  destruct o as [spec|]; [|done]. apply next_positional_In in E. rewrite H1 in E.
  apply list_elem_of_In in E. rewrite <- (take_drop (d_idxLastPositionalFound (cml s)) specs).
  apply in_app_iff. right. by apply list_elem_of_In.
Qed.

Lemma parsePositionals_loop_ok l specs argv s :
  st_ok specs argv s -> known specs ->
  runs (parsePositionals_loop stod double_0 l) s (fun r s' =>
    option_ok specs argv s s' /\ exists b, r = Ok b).
Proof.
  intros Hs Hk. revert s Hs. induction l as [|arg l IH]; intros s Hs.
  { split; [by apply step_option, step_refl|by eexists]. }
  cbn [parsePositionals_loop].
  eapply runs_bind; [by apply (findNextPositionalSpec_ok specs argv)|..].
  2: { by intros e s' [_ (o & [=] & _)]. }
  intros o s1 [H1 (o' & [= <-] & Ho)].
  eapply (runs_bind _ _ _ (fun r s' => step_ok specs argv s s' /\ exists b, r = Ok b)).
  - destruct o as [spec|].
    + eapply runs_bind; [apply (buildArgumentValue_ok _ spec specs argv);
        [by apply H1|done|exact (proj1 (List.Forall_forall _ _) Hk spec Ho)]|..].
      * intros v s2 [H2 _]. split; [by eapply step_trans|by eexists].
      * by intros e s' [_ (v & [=] & _)].
    + eapply runs_mono; [apply emit_then, H1|]. intros r s2 [-> H2].
      split; [by eapply step_trans|by eexists].
  - intros [] s2 [H2 _]; [|by split; [apply step_option|eexists]].
    apply runs_update. set (s3 := with_cml _ s2).
    assert (option_ok specs argv s2 s3) as H3.
    { exact (set_argIdx_ok (S (d_argIdx (cml s2))) specs argv s2
        (step_st _ _ _ _ H2) ltac:(lia)). }
    eapply runs_mono; [apply IH, H3|]. intros r s4 [H4 Hb]. split; [|done].
    eapply option_trans; [apply step_option, H2|]. by eapply option_trans.
  - by intros e s' [_ (b & [=])].
Qed.

(** ** [parse] *)

Definition required specs s : Prop :=
  Forall (fun spec => isRequired spec = true -> d_name spec <> [] ->
    d_parsedArgs (cml s) !! d_name spec <> None) specs.

Definition only_help s : Prop :=
  size (d_parsedArgs (cml s)) = 1%nat /\ d_parsedArgs (cml s) !! L "help" <> None.

Lemma validateRequiredArgs_required s :
  fst (validateRequiredArgs (cml s)) = true -> required (d_spec (cml s)) s.
Proof.
  unfold validateRequiredArgs. destruct (bool_decide _) eqn:E; [|done]. b2p. intros _.
  apply Forall_forall. intros spec Hin Hr Hn Hp.
  assert (In spec (List.filter (is_missing (cml s)) (d_spec (cml s)))) as H.
  { apply filter_In. split; [done|]. unfold is_missing, isPositional.
    rewrite Hr, Hp. rewrite bool_decide_false by done. by rewrite bool_decide_true. }
  by rewrite E in H.
Qed.

Lemma keeps_required specs s s' : keeps s s' -> required specs s -> required specs s'.
Proof. intros Hk. apply Forall_impl. intros spec H Hr Hn. by apply Hk, H. Qed.

Lemma keeps_defaulted specs s s' : keeps s s' -> defaulted specs s -> defaulted specs s'.
Proof. intros Hk. apply Forall_impl. intros spec H Hr Hn. by apply Hk, H. Qed.

Lemma parse_copied_ok specs argv s :
  st_ok specs argv s -> known specs -> distinct_names specs -> int_defaults specs ->
  Forall (fun a => a <> []) argv ->
  runs (parse_copied stod double_0) s (fun r s' => st_ok specs argv s' /\
    exists b, r = Ok b /\
      (b = true -> only_help s' \/ (required specs s' /\ defaulted specs s'))).
Proof.
  intros Hs Hk Hd Hi Hne. unfold parse_copied.
  eapply (runs_bind _ _ _ (fun r s' => option_ok specs argv s s' /\ exists b, r = Ok b)).
  { unfold parseOptions. apply runs_field. apply parseOptions_loop_ok; try done.
    rewrite (ok_argv _ _ _ Hs). lia. }
  2: { by intros e s' [_ (b & [=])]. }
  intros [] s1 [[Hs1 _ _] _]; cbn [negb]; [|by split; [|exists false]].
  apply runs_field. destruct (_ && _) eqn:Eh.
  { apply andb_true_iff in Eh as [Es Ex]. b2p. split; [done|]. exists true. split; [done|].
    intros _. left. split; [done|]. unfold exists_ in Ex. by intros Hx; rewrite Hx in Ex. }
  pose proof (validateRequiredArgs_required s1) as Hv. rewrite (ok_spec _ _ _ Hs1) in Hv.
  destruct (validateRequiredArgs (cml s1)) as [[] msg]; cbn [negb].
  2: { eapply runs_mono; [by apply (emit_then false _ specs argv)|].
       intros r s2 [-> H2]. split; [apply H2|by exists false]. }
  specialize (Hv eq_refl).
  eapply (runs_bind _ _ _ (fun r s' => step_ok specs argv s1 s' /\
    exists b, r = Ok b /\ (b = true -> defaulted specs s'))).
  { unfold applyDefaultValues. apply runs_field. rewrite (ok_spec _ _ _ Hs1).
    by apply applyDefaultValues_loop_ok. }
  2: { by intros e s' [_ (b & [=] & _)]. }
  intros b s2 [H2 (b' & [= <-] & Hb)].
  destruct b; cbn [negb]; [|by split; [apply H2|exists false]]. specialize (Hb eq_refl).
  unfold parsePositionals. apply runs_field. destruct (_ <? _)%nat.
  { eapply runs_mono; [apply (emit_then false _ specs argv), H2|].
    intros r s3 [-> H3]. split; [apply H3|by exists false]. }
  eapply runs_mono; [apply (parsePositionals_loop_ok _ specs argv); [apply H2|done]|].
  intros r s3 [[H3 _ K3] (b & ->)]. split; [done|]. exists b. split; [done|]. intros _.
  right. split; [|by eapply keeps_defaulted].
  eapply keeps_required; [|exact Hv]. intros n Hn. by apply K3, H2.
Qed.
End props.

(** C22. For a specification with distinct names, known types and [int] defaults
    and for arguments that are not empty, a fresh [CommandLine] parses to the end:
    there is no undefined behaviour, no exception and no endless loop.  Whatever
    it returns, every parsed option belongs to the specification of its name and
    holds a value of its type, and bound variables keep their types; and if it
    returns true, then either only --help was given or every required option and
    every option with a default is there. *)
Theorem parse_sound {double : Type} (stod : str -> res double) (double_0 : double)
    {law : StodLaw stod} (specs : list (ArgumentSpec double)) (process : str)
    (args : list str) (o : str) (v : gmap nat (Variable_ double)) :
  known specs -> distinct_names specs -> int_defaults specs -> store_ok specs v ->
  Forall (fun a => c_str a <> []) args ->
  runs (parse stod double_0 (Z.of_nat (S (length args))) (Some (process :: args)))
    (MkState (CommandLine_new specs) o v) (fun r s =>
      map_Forall (entry_ok specs) (d_parsedArgs (cml s)) /\ store_ok specs (vars s) /\
      exists b, r = Ok b /\
        (b = true -> only_help s \/ (required specs s /\ defaulted specs s))).
Proof.
  intros Hk Hd Hi Hv Hne. unfold parse. cbn [length].
  rewrite (proj2 (Z.eqb_neq _ _)) by lia. rewrite (proj2 (Z.ltb_ge _ 0)) by lia.
  rewrite (proj2 (Z.ltb_ge _ _)) by lia. cbn [orb]. apply runs_field.
  rewrite Nat2Z.id. cbn [cml CommandLine_new d_rawArgv app take map].
  rewrite take_ge by lia. apply runs_update.
  eapply runs_mono; [apply (parse_copied_ok stod double_0 specs (map c_str args)); try done|].
  - apply Forall_map. exact Hne.
  - intros r s [[H1 H2 H3 H4] Hr]. split; [exact H3|]. split; [exact H4|exact Hr].
Qed.

(** A specification with no [double], for examples. *)
Definition toy_stod (_ : str) : res unit := Throw InvalidArgument.

#[global] Instance toy_stod_law : StodLaw toy_stod.
Proof. intros s e [= <-]. by left. Qed.

Definition toy_option (name : str) (t : DataType) (loc : option nat) (o : Occurrence)
    (c : Constraint) (d : DefaultValue unit) : ArgumentSpec unit :=
  MkArgumentSpec name (L "an option") (MkTypeInfo t loc) o c d.

Definition toy_specs : list (ArgumentSpec unit) :=
  [ toy_option (L "help") COMMANDLINE_DT_BOOL None O_OPTIONAL C_WITHOUT_ARG DefaultNone;
    toy_option (L "port") COMMANDLINE_DT_INT (Some 1%nat) O_REQUIRED C_WITH_ARG DefaultNone;
    toy_option (L "tag") COMMANDLINE_DT_STRING_ARRAY None O_OPTIONAL C_WITH_ARG DefaultNone;
    toy_option (L "name") COMMANDLINE_DT_STRING None O_OPTIONAL C_WITH_ARG (DefaultString (L "x"));
    toy_option [] COMMANDLINE_DT_STRING None O_REQUIRED C_WITH_ARG DefaultNone ].

Definition toy_state : State unit :=
  MkState (CommandLine_new toy_specs) [] {[1%nat := VarInt 0]}.

Definition toy_parse (args : list str) : option (res bool * State unit) :=
  parse toy_stod tt (Z.of_nat (S (length args))) (Some (L "prog" :: args)) toy_state.

Definition toy_args : list str :=
  [L "--port"; L "80"; L "--tag=a"; L "--tag"; L "b"; L "input"].

Lemma toy_specs_ok :
  known toy_specs /\ distinct_names toy_specs /\ int_defaults toy_specs /\
  store_ok toy_specs (vars toy_state).
Proof.
  split; [by repeat constructor|]. split; [|split; [by repeat constructor|]].
  - intros spec Hin Hne. unfold toy_specs in Hin.
    repeat (destruct Hin as [<-|Hin]; [by vm_compute|]). done.
  - unfold store_ok, toy_specs. repeat (constructor; [intros loc Hl; cbn in Hl; try done|]);
      [|constructor]. injection Hl as <-. by exists (VarInt 0).
Qed.

Lemma parse_sound_witness :
  match toy_parse toy_args with
  | Some (r, s) =>
      r = Ok true /\ getInt (cml s) (L "port") = Ok 80 /\
      getVS (cml s) (L "tag") [] = [L "a"; L "b"] /\
      vars s !! 1%nat = Some (VarInt 80) /\
      exists b, r = Ok b /\
        (b = true -> only_help s \/ (required toy_specs s /\ defaulted toy_specs s))
  | None => False
  end.
Proof.
  destruct toy_specs_ok as (H1 & H2 & H3 & H4).
  pose proof (parse_sound toy_stod tt toy_specs (L "prog") toy_args []
    (vars toy_state) H1 H2 H3 H4
    ltac:(repeat (apply Forall_cons_2; [discriminate|]); apply Forall_nil_2)) as H.
  change (MkState (CommandLine_new toy_specs) [] (vars toy_state)) with toy_state in H.
  unfold runs in H. fold (toy_parse toy_args) in H.
  assert (Q : match toy_parse toy_args with
    | Some (r, s) => r = Ok true /\ getInt (cml s) (L "port") = Ok 80 /\
        getVS (cml s) (L "tag") [] = [L "a"; L "b"] /\ vars s !! 1%nat = Some (VarInt 80)
    | None => False
    end) by (vm_compute; repeat split).
  revert H Q. generalize (toy_parse toy_args). intros [[r s]|] H Q; [|exact H].
  destruct Q as (Q1 & Q2 & Q3 & Q4). destruct H as (_ & _ & H).
  split; [exact Q1|]. split; [exact Q2|]. split; [exact Q3|]. split; [exact Q4|exact H].
Defined.

(** An empty argument where an option may stand is read past its end, whatever the
    specification. *)
Theorem parse_empty_argument {double : Type} (stod : str -> res double) (double_0 : double)
    (specs : list (ArgumentSpec double)) (process o : str) (v : gmap nat (Variable_ double)) :
  parse stod double_0 2 (Some [process; []]) (MkState (CommandLine_new specs) o v) = None.
Proof. by vm_compute. Qed.

(** An option given twice: the object keeps the first value, the bound variable
    the second. *)
Example parse_repeated :
  match toy_parse [L "--port=1"; L "--port=2"; L "input"] with
  | Some (r, s) =>
      r = Ok true /\ getInt (cml s) (L "port") = Ok 1 /\ vars s !! 1%nat = Some (VarInt 2)
  | None => False
  end.
Proof. vm_compute. repeat split. Qed.

(** An argument whose second character only is a dash loses two characters and is
    taken for an option. *)
Example parse_one_dash :
  match toy_parse [L "x-port=1"; L "input"] with
  | Some (r, s) => r = Ok true /\ getInt (cml s) (L "port") = Ok 1
  | None => False
  end.
Proof. vm_compute. repeat split. Qed.
