(* ===== verification/CommandLineAssign.v ===== *)
(** * Command lines of assignments

    What [CommandLine.parse] makes of arguments of the form --name=value: an
    exact description of the resulting object. *)

From S2P Require Import Prelude StdMap Arrays Grpc Merklize Paths PathsSpec StringUtils Cstring Undefined CommandLine CommandLineSpec.
Open Scope Z_scope.

(** ** [emplace] on a map *)

Section emplace.
Context {E : Type}.
Implicit Types (m : gmap str E) (l : list (str * E)).

Definition emplace_map m (n : str) (e : E) : gmap str E :=
  match m !! n with Some _ => m | None => <[n := e]> m end.

Definition emplace_all m l : gmap str E :=
  foldl (fun m x => emplace_map m (fst x) (snd x)) m l.

(** The first entry of a name counts. *)
Definition first_of (n : str) l : option E :=
  snd <$> List.find (fun x => bool_decide (fst x = n)) l.

Lemma first_of_app n l1 l2 :
  first_of n (l1 ++ l2)
  = match first_of n l1 with Some e => Some e | None => first_of n l2 end.
Proof.
  unfold first_of. induction l1 as [|x l1 IH]; [done|]. cbn.
  by destruct (bool_decide _).
Qed.

Lemma emplace_all_lookup m l n :
  emplace_all m l !! n = match m !! n with Some e => Some e | None => first_of n l end.
Proof.
  revert m. induction l as [|[k e] l IH]; intros m; [cbn; by destruct (m !! n)|].
  unfold emplace_all in *. cbn [foldl fst snd]. rewrite IH. unfold emplace_map, first_of. cbn.
  destruct (m !! k) as [e'|] eqn:Ek.
  - destruct (m !! n) eqn:En; [done|]. rewrite bool_decide_false; [done|congruence].
  - destruct (decide (k = n)) as [->|Hne].
    + rewrite lookup_insert_eq, Ek. by rewrite bool_decide_true.
    + rewrite lookup_insert_ne by done. by rewrite bool_decide_false.
Qed.

Lemma emplace_all_app m l1 l2 : emplace_all m (l1 ++ l2) = emplace_all (emplace_all m l1) l2.
Proof. apply foldl_app. Qed.

(** Names with a common prefix. *)
Lemma first_of_prefix (p n : str) l :
  first_of (p ++ n) (map (fun x => (p ++ fst x, snd x)) l) = first_of n l.
Proof.
  unfold first_of. induction l as [|[k e] l IH]; [done|]. cbn.
  destruct (decide (k = n)) as [->|Hne].
  - by rewrite !bool_decide_true.
  - rewrite !bool_decide_false; [exact IH|done|]. intros H. by apply app_inv_head in H.
Qed.
End emplace.

Section assign.
Context {double : Type} (stod : str -> res double) (double_0 : double).

Abbreviation ArgumentSpec := (ArgumentSpec double).
Abbreviation ArgumentValue := (ArgumentValue double).
Abbreviation State := (State double).
Implicit Types (s : State) (spec : ArgumentSpec) (specs : list ArgumentSpec).

(** An assignment: the name, the text of the value, the value it is converted to
    and its specification. *)
Record assignment := MkAssignment {
  as_name : str;
  as_text : str;
  as_value : ArgumentValue;
  as_spec : ArgumentSpec;
}.

Definition render_assignment (a : assignment) : str :=
  L "--" ++ as_name a ++ assign_char :: as_text a.

Definition entry (a : assignment) : str * (ArgumentValue * ArgumentSpec) :=
  (as_name a, (as_value a, as_spec a)).

(** The text converts to the value, and nothing else happens. *)
Definition converts spec (text : str) (value : ArgumentValue) : Prop :=
  forall s, convert stod double_0 text spec s = Some (Ok value, s).

Lemma converts_string spec text :
  dataType spec = COMMANDLINE_DT_STRING -> d_variable (d_typeInfo spec) = None ->
  converts spec text (assign_str text (ArgumentValue_default double_0)).
Proof. intros Ht Hv s. unfold convert, bind, ubind, uret. by rewrite Ht, Hv. Qed.

Record assignment_ok specs (a : assignment) : Prop := {
  ao_name : assign_char ∉ as_name a;
  ao_no_nul : no_nul (as_name a) /\ no_nul (as_text a);
  ao_find : find_spec (as_name a) specs = Some (as_spec a);
  ao_converts : converts (as_spec a) (as_text a) (as_value a);
}.

(** The state with other options parsed, further on. *)
Definition advance (m : gmap str (ArgumentValue * ArgumentSpec)) (n : nat) s : State :=
  with_cml (fun c => set_argIdx n (set_parsedArgs m c)) s.

Lemma parseOption_assign specs a s :
  d_spec (cml s) = specs -> assignment_ok specs a ->
  parseOption stod double_0 (render_assignment a) s
  = Some (Ok Continue,
          advance (emplace_map (d_parsedArgs (cml s)) (as_name a) (snd (entry a)))
            (d_argIdx (cml s)) s).
Proof.
  intros Hs [Hn _ Hf Hc]. unfold parseOption, short_format, no_dashes, char_at, uvalue,
    ubind, uret, substr, ufield.
  change (render_assignment a) with (minus :: minus :: as_name a ++ assign_char :: as_text a).
  cbn [length Nat.leb nth]. change (bool_decide (minus = minus)) with true. cbn [negb].
  rewrite (proj2 (Nat.ltb_ge _ 2)) by (cbn; lia). unfold uret. cbn beta iota zeta delta [drop].
  rewrite drop_0, split_at_app by done.
  unfold findOptionSpecByName. rewrite Hs, Hf. cbn [optionValue_of].
  unfold uret, buildArgumentValue, ucatch, ubind. rewrite Hc. unfold uret, emplace, uupdate.
  unfold advance, with_cml, emplace_map. destruct s as [c o v]. cbn [cml out vars].
  destruct c as [sp m p i j r]. cbn. by destruct (m !! as_name a).
Qed.

Lemma parseOptions_loop_assign specs l fuel s :
  d_spec (cml s) = specs -> Forall (assignment_ok specs) l ->
  drop (d_argIdx (cml s)) (d_rawArgv (cml s)) = map render_assignment l -> (length l <= fuel)%nat ->
  parseOptions_loop stod double_0 fuel s
  = Some (Ok true,
          advance (emplace_all (d_parsedArgs (cml s)) (map entry l))
            (d_argIdx (cml s) + length l) s).
Proof.
  revert fuel s. induction l as [|a l IH]; intros fuel s Hs Hl Hd Hf.
  - cbn [map length]. rewrite Nat.add_0_r. apply drop_eq_nil_iff in Hd || idtac.
    assert (d_rawArgv (cml s) !! d_argIdx (cml s) = None) as E.
    { rewrite <- (Nat.add_0_r (d_argIdx (cml s))), <- lookup_drop, Hd. done. }
    destruct s as [[sp m p i j r] o v]. cbn in *.
    destruct fuel; cbn [parseOptions_loop]; unfold ubind, ufield; cbn; by rewrite E.
  - apply Forall_cons_1 in Hl as [Ha Hl]. destruct fuel as [|fuel]; [cbn in Hf; lia|].
    assert (d_rawArgv (cml s) !! d_argIdx (cml s) = Some (render_assignment a)) as E.
    { rewrite <- (Nat.add_0_r (d_argIdx (cml s))), <- lookup_drop, Hd. done. }
    cbn [parseOptions_loop]. unfold ubind at 1, ufield. rewrite E.
    unfold ubind at 1. rewrite (parseOption_assign specs) by done.
    unfold ubind at 1, uupdate. rewrite (IH fuel).
    + destruct s as [[sp m p i j r] o v]. cbn. do 2 f_equal. unfold advance, with_cml. cbn.
      f_equal. unfold set_argIdx, set_parsedArgs. cbn. f_equal. lia.
    + destruct s as [[sp m p i j r] o v]. exact Hs.
    + done.
    + destruct s as [[sp m p i j r] o v]. cbn in *.
      rewrite <- Nat.add_1_r, <- drop_drop, Hd. done.
    + cbn in Hf. lia.
Qed.

(** ** The defaults *)

(** No option is both required and has a default, and a default has its type. *)
Definition defaults_ok specs : Prop :=
  Forall (fun spec => d_name spec <> [] -> hasDefaultValue spec = true ->
    isRequired spec = false /\ dataType spec = dv_dataType (d_defaultValue spec)) specs.

Definition default_entry spec : list (str * (ArgumentValue * ArgumentSpec)) :=
  if isPositional spec then []
  else if hasDefaultValue spec
  then [(d_name spec, (default_value double_0 (d_defaultValue spec), spec))]
  else [].

Lemma applyDefaultValues_loop_exact l s :
  defaults_ok l ->
  applyDefaultValues_loop double_0 l s
  = Some (Ok true, advance (emplace_all (d_parsedArgs (cml s)) (l ≫= default_entry))
                     (d_argIdx (cml s)) s).
Proof.
  revert s. induction l as [|spec l IH]; intros s Hl.
  { destruct s as [[sp m p i j r] o v]. done. }
  apply Forall_cons_1 in Hl as [Hs Hl]. cbn [applyDefaultValues_loop].
  change ((spec :: l) ≫= default_entry) with (default_entry spec ++ (l ≫= default_entry)).
  rewrite emplace_all_app. unfold default_entry at 1.
  destruct (isPositional spec) eqn:Ep; [by rewrite IH|].
  assert (d_name spec <> []) as Hne by (unfold isPositional in Ep; by b2p).
  destruct (hasDefaultValue spec) eqn:Eh.
  - destruct (Hs Hne eq_refl) as [Hr Ht]. rewrite Hr. cbn [andb negb].
    unfold ubind at 1, ufield. unfold exists_, emplace_all at 2. cbn [foldl fst snd].
    unfold emplace_map.
    destruct (d_parsedArgs (cml s) !! d_name spec) as [e|] eqn:Ee; [by rewrite IH|].
    rewrite bool_decide_true by done. cbn [negb].
    unfold ubind, emplace, uupdate. rewrite IH by done.
    destruct s as [[sp m p i j r] o v]. unfold advance, with_cml. cbn in *. by rewrite !Ee.
  - rewrite andb_false_r. unfold ubind, ufield. cbn [negb emplace_all foldl].
    destruct (exists_ _ _); by rewrite IH.
Qed.

(** ** The whole command line *)

(** What is parsed: the assignments, the first of each name, then the defaults of
    the names that are missing. *)
Definition parsed_of specs (l : list assignment) : gmap str (ArgumentValue * ArgumentSpec) :=
  emplace_all ∅ (map entry l ++ (specs ≫= default_entry)).

Definition all_required specs (l : list assignment) : Prop :=
  Forall (fun spec => isRequired spec = true ->
    d_name spec <> [] /\ first_of (d_name spec) (map entry l) <> None) specs.

Lemma validateRequiredArgs_true (self : CommandLine double) specs :
  d_spec self = specs ->
  Forall (fun spec => isRequired spec = true -> d_parsedArgs self !! d_name spec <> None) specs ->
  validateRequiredArgs self = (true, []).
Proof.
  intros <- H. unfold validateRequiredArgs. rewrite bool_decide_true; [done|].
  induction (d_spec self) as [|spec l IH]; [done|]. apply Forall_cons_1 in H as [Hs Hl].
  cbn [List.filter]. rewrite IH by done. unfold is_missing.
  destruct (isRequired spec) eqn:Er; [|by rewrite andb_false_r].
  rewrite bool_decide_false by by apply Hs. by rewrite andb_false_r.
Qed.

Lemma no_required_positionals specs l :
  all_required specs l -> List.filter (isRequiredPositional (double:=double)) specs = [].
Proof.
  unfold all_required. induction 1 as [|spec specs H _ IH]; [done|]. cbn [List.filter].
  rewrite IH. unfold isRequiredPositional, isPositional.
  destruct (isRequired spec) eqn:Er; [|by rewrite andb_false_r].
  rewrite bool_decide_false by by apply H. done.
Qed.

Lemma advance_advance m1 n1 m2 n2 s :
  advance m2 n2 (advance m1 n1 s) = advance m2 n2 s.
Proof. by destruct s as [[sp m p i j r] o v]. Qed.

Lemma parse_copied_assignments specs l s :
  d_spec (cml s) = specs -> d_rawArgv (cml s) = map render_assignment l ->
  d_argIdx (cml s) = O -> d_parsedArgs (cml s) = ∅ ->
  Forall (assignment_ok specs) l -> all_required specs l -> defaults_ok specs ->
  first_of (L "help") (map entry l) = None ->
  parse_copied stod double_0 s
  = Some (Ok true, advance (parsed_of specs l) (length l) s).
Proof.
  intros Hs Hr Hi Hp Hl Hreq Hd Hh. unfold parse_copied.
  unfold ubind at 1, parseOptions. unfold ubind at 1, ufield.
  rewrite (parseOptions_loop_assign specs l); try done.
  2: { by rewrite Hi, Hr. }
  2: { rewrite Hr, length_map. lia. }
  rewrite Hi, Hp. set (s1 := advance _ _ s). cbn [negb].
  assert (d_parsedArgs (cml s1) = emplace_all ∅ (map entry l)) as Hm1 by done.
  unfold ubind at 1, ufield.
  replace (exists_ (cml s1) (L "help")) with false.
  2: { unfold exists_. by rewrite Hm1, emplace_all_lookup, Hh, lookup_empty. }
  rewrite andb_false_r, (validateRequiredArgs_true _ specs).
  2: { destruct s as [[sp m p i j r] o v]. exact Hs. }
  2: { eapply Forall_impl; [|exact Hreq]. intros spec H Hx. apply H in Hx as [_ Hx].
       by rewrite Hm1, emplace_all_lookup, lookup_empty. }
  cbn [negb]. unfold ubind at 1, applyDefaultValues. unfold ubind at 1, ufield.
  assert (d_spec (cml s1) = specs) as Hs1 by (destruct s as [[sp m p i j r] o v]; exact Hs).
  rewrite Hs1, applyDefaultValues_loop_exact by done. cbn [negb].
  unfold parsePositionals. unfold ubind at 1, ufield.
  rewrite Hm1, <- emplace_all_app. fold (parsed_of specs l).
  unfold s1. rewrite advance_advance.
  assert (forall m n, d_rawArgv (cml (advance m n s)) = map render_assignment l /\
    d_argIdx (cml (advance m n s)) = n /\ d_spec (cml (advance m n s)) = specs) as Hadv.
  { intros m n. destruct s as [[sp m' p i j r] o v]. done. }
  destruct (Hadv (emplace_all ∅ (map entry l)) (0 + length l)%nat) as (_ & -> & _).
  destruct (Hadv (parsed_of specs l) (0 + length l)%nat) as (-> & -> & ->).
  rewrite (no_required_positionals specs l) by done. cbn [length].
  rewrite (proj2 (Nat.ltb_ge _ _)) by (rewrite length_map; lia).
  rewrite drop_ge by (rewrite length_map; lia). done.
Qed.
End assign.

(** A fresh object parses a command line of assignments (the C strings [argv]
    without the process name) into the state described by [parsed_of]. *)
Lemma parse_rendered {double : Type} (stod : str -> res double) (double_0 : double)
    (specs : list (ArgumentSpec double)) (l : list assignment) (process o : str)
    (v : gmap nat (Variable_ double)) :
  Forall (assignment_ok stod double_0 specs) l -> all_required specs l ->
  defaults_ok specs -> first_of (L "help") (map entry l) = None ->
  parse stod double_0 (Z.of_nat (S (length l))) (Some (process :: map render_assignment l))
    (MkState (CommandLine_new specs) o v)
  = Some (Ok true,
          MkState (MkCommandLine specs (parsed_of double_0 specs l) (c_str process)
                     (length l) 0 (map render_assignment l)) o v).
Proof.
  intros Hl Hr Hd Hh. unfold parse.
  rewrite (proj2 (Z.eqb_neq _ _)) by lia. rewrite (proj2 (Z.ltb_ge _ 0)) by lia.
  rewrite (proj2 (Z.ltb_ge _ _)) by (cbn [length]; rewrite length_map; lia). cbn [orb].
  unfold ubind at 1, ufield. rewrite Nat2Z.id. cbn [cml CommandLine_new d_rawArgv app take map].
  rewrite take_ge by (rewrite length_map; lia).
  assert (map c_str (map render_assignment l) = map render_assignment l) as ->.
  { clear Hr Hh. induction Hl as [|a l [_ [Hn Ht] _ _] _ IH]; [done|]. cbn [map]. rewrite IH.
    f_equal. apply c_str_id. unfold render_assignment, no_nul in *. rewrite !elem_of_app, elem_of_cons.
    intros [H | [H | [H | H]]]; [|done| |done].
    - by apply (bool_decide_pack _) in H.
    - by apply (bool_decide_pack _) in H. }
  unfold ubind, uupdate.
  by rewrite (parse_copied_assignments stod double_0 specs l).
Qed.

(** C28. A command line of assignments --name=value to options of scalar types that
    are not bound to a variable: if every name has a specification and every value
    converts to its type ([converts]: an array option would accumulate its
    assignments, a bound one would write the variable, and a value that does not
    convert ends the parse), no name contains an equals sign and nothing a NUL
    character, --help is not among them, every required option is assigned, nothing
    required is positional and the defaults fit, then [parse] returns true and an
    option has the value of its first assignment, or else its default, or else it
    does not exist. *)
Theorem parse_assignments {double : Type} (stod : str -> res double) (double_0 : double)
    (specs : list (ArgumentSpec double)) (l : list assignment) (process o : str)
    (v : gmap nat (Variable_ double)) :
  Forall (assignment_ok stod double_0 specs) l -> all_required specs l ->
  defaults_ok specs -> first_of (L "help") (map entry l) = None ->
  exists s,
    parse stod double_0 (Z.of_nat (S (length l))) (Some (process :: map render_assignment l))
      (MkState (CommandLine_new specs) o v) = Some (Ok true, s) /\
    vars s = v /\ out s = o /\
    forall name, d_parsedArgs (cml s) !! name
      = match first_of name (map entry l) with
        | Some e => Some e
        | None => first_of name (specs ≫= default_entry double_0)
        end.
Proof.
  intros Hl Hr Hd Hh. eexists. split; [by apply parse_rendered|].
  split; [done|]. split; [done|]. intros name. cbn [cml d_parsedArgs].
  unfold parsed_of. rewrite emplace_all_lookup, lookup_empty. apply first_of_app.
Qed.

Definition toy_assign (name text : str) (spec : ArgumentSpec unit) : @assignment unit :=
  MkAssignment name text (assign_str text (ArgumentValue_default tt)) spec.

Definition toy_host : ArgumentSpec unit :=
  toy_option (L "host") COMMANDLINE_DT_STRING None O_REQUIRED C_WITH_ARG DefaultNone.
Definition toy_name : ArgumentSpec unit :=
  toy_option (L "name") COMMANDLINE_DT_STRING None O_OPTIONAL C_WITH_ARG
    (DefaultString (L "x")).

Lemma parse_assignments_witness :
  exists s,
    parse toy_stod tt 3 (Some [L "prog"; L "--host=a=b"; L "--host=c"])
      (MkState (CommandLine_new [toy_host; toy_name]) [] ∅) = Some (Ok true, s) /\
    d_parsedArgs (cml s) !! L "host"
      = Some (assign_str (L "a=b") (ArgumentValue_default tt), toy_host) /\
    d_parsedArgs (cml s) !! L "name"
      = Some (assign_str (L "x") (ArgumentValue_default tt), toy_name).
Proof.
  destruct (parse_assignments toy_stod tt [toy_host; toy_name]
    [toy_assign (L "host") (L "a=b") toy_host; toy_assign (L "host") (L "c") toy_host]
    (L "prog") [] ∅) as (s & Hp & _ & _ & Hl).
  - assert (forall t, no_nul t ->
      assignment_ok toy_stod tt [toy_host; toy_name] (toy_assign (L "host") t toy_host)) as H.
    { intros t Ht. split; [by apply (bool_decide_unpack _); vm_compute| |done|by apply converts_string].
      split; [by apply (bool_decide_unpack _); vm_compute|exact Ht]. }
    apply Forall_cons_2; [|apply Forall_cons_2; [|apply Forall_nil_2]];
      apply H; by apply (bool_decide_unpack _); vm_compute.
  - apply Forall_cons_2; [|apply Forall_cons_2; [|apply Forall_nil_2]]; [intros _; done|done].
  - apply Forall_cons_2; [|apply Forall_cons_2; [|apply Forall_nil_2]]; done.
  - done.
  - exists s. split; [exact Hp|]. split; [exact (Hl (L "host"))|exact (Hl (L "name"))].
Defined.
