(* ===== verification/ConnectionOptionsCommandLine.v ===== *)
(** * The options of a connection on a command line

    [buildboxcommon_connectionoptions_commandline.cpp]: the specification of the
    options, and the transfer of what was parsed to [ConnectionOptions]. *)

From S2P Require Import Prelude StdMap Arrays Merklize Grpc Paths PathsSpec StringUtils Cstring Undefined TokenAuthenticator ConnectionOptions ConnectionOptionsSpec CommandLine CommandLineSpec CommandLineAssign.
Open Scope Z_scope.

Section double.
Context {double : Type}.

Definition string_option (name desc : str) (o : Occurrence) (d : DefaultValue double)
  : ArgumentSpec double :=
  MkArgumentSpec name desc (MkTypeInfo COMMANDLINE_DT_STRING None) o C_WITH_ARG d.

(** The constructor: [d_spec]. *)
Definition ConnectionOptionsCommandLine_new (serviceName commandLinePrefix : str)
    (connectionRequired : bool) : list (ArgumentSpec double) :=
  [ string_option (commandLinePrefix ++ L "remote")
      (L "URL for the " ++ serviceName ++ L " service")
      (if connectionRequired then O_REQUIRED else O_OPTIONAL) DefaultNone;
    string_option (commandLinePrefix ++ L "instance")
      (L "Name of the " ++ serviceName ++ L " instance")
      O_OPTIONAL (DefaultString (L ""));
    string_option (commandLinePrefix ++ L "server-cert")
      (L "Public server certificate for " ++ serviceName ++ L " TLS (PEM-encoded)")
      O_OPTIONAL DefaultNone;
    string_option (commandLinePrefix ++ L "client-key")
      (L "Private client key for " ++ serviceName ++ L " TLS (PEM-encoded)")
      O_OPTIONAL DefaultNone;
    string_option (commandLinePrefix ++ L "client-cert")
      (L "Private client certificate for " ++ serviceName ++ L " TLS (PEM-encoded)")
      O_OPTIONAL DefaultNone;
    string_option (commandLinePrefix ++ L "access-token")
      (L "Access Token for authentication " ++ serviceName ++
       L " (e.g. JWT, OAuth access token, etc), will be included as an HTTP Authorization bearer token")
      O_OPTIONAL DefaultNone;
    string_option (commandLinePrefix ++ L "token-reload-interval")
      (L "How long to wait before refreshing access token")
      O_OPTIONAL DefaultNone;
    MkArgumentSpec (commandLinePrefix ++ L "googleapi-auth")
      (L "Use GoogleAPIAuth for " ++ serviceName ++ L " service")
      (MkTypeInfo COMMANDLINE_DT_BOOL None) O_OPTIONAL C_WITH_ARG (DefaultBool false);
    string_option (commandLinePrefix ++ L "retry-limit")
      (L "Number of times to retry on grpc errors for " ++ serviceName ++ L " service")
      O_OPTIONAL (DefaultString (L "4"));
    string_option (commandLinePrefix ++ L "retry-delay")
      (L "How long to wait in milliseconds before the first grpc retry for " ++
       serviceName ++ L " service")
      O_OPTIONAL (DefaultString (L "1000"));
    string_option (commandLinePrefix ++ L "load-balancing-policy")
      (L "Which grpc load balancing policy to use for " ++ serviceName ++
       L " service." ++ [newline] ++ L "Valid options are 'round_robin' and 'grpclb'")
      O_OPTIONAL DefaultNone ].

(** [cml.exists(name) ? cml.getString(name).c_str() : nullptr]. *)
Definition string_of (self : CommandLine double) (name : str) : option str :=
  if exists_ self name
  then match getString self name with Ok s => Some (c_str s) | Throw _ => None end
  else None.

(** [cml.exists(name) ? cml.getBool(name) : false]; [None] reads a value that is
    not a [bool]. *)
Definition bool_of (self : CommandLine double) (name : str) : option bool :=
  if exists_ self name
  then match getBool self name with Ok b => b | Throw _ => None end
  else Some false.

(** [configureChannel]; [channel] is [None] for a null pointer.  The result is
    [None] where the program reads an unset value. *)
Definition configureChannel (cml : CommandLine double) (commandLinePrefix : str)
    (channel : option ConnectionOptions) : option (bool * option ConnectionOptions) :=
  match channel with
  | None => Some (false, None)
  | Some channel =>
      let channel := with_url (string_of cml (commandLinePrefix ++ L "remote")) channel in
      let channel := with_instanceName (string_of cml (commandLinePrefix ++ L "instance")) channel in
      let channel := with_serverCertPath (string_of cml (commandLinePrefix ++ L "server-cert")) channel in
      let channel := with_clientKeyPath (string_of cml (commandLinePrefix ++ L "client-key")) channel in
      let channel := with_clientCertPath (string_of cml (commandLinePrefix ++ L "client-cert")) channel in
      let channel := with_accessTokenPath (string_of cml (commandLinePrefix ++ L "access-token")) channel in
      let channel := with_tokenReloadInterval
                       (string_of cml (commandLinePrefix ++ L "token-reload-interval")) channel in
      google ← bool_of cml (commandLinePrefix ++ L "googleapi-auth");
      let channel := with_useGoogleApiAuth google channel in
      let channel := with_retryLimit (string_of cml (commandLinePrefix ++ L "retry-limit")) channel in
      let channel := with_retryDelay (string_of cml (commandLinePrefix ++ L "retry-delay")) channel in
      let channel := with_loadBalancingPolicy
                       (string_of cml (commandLinePrefix ++ L "load-balancing-policy")) channel in
      Some (true, Some channel)
  end.

End double.

(** * From arguments through the command line to the options of a connection

    [ConnectionOptions::putArgs] writes arguments; [CommandLine::parse] reads them
    with the specification of [ConnectionOptionsCommandLine]; [configureChannel]
    transfers the result. *)

Lemma bool_decide_app (p a b : str) :
  bool_decide (p ++ a = p ++ b) = bool_decide (a = b).
Proof. apply bool_decide_ext. split; [apply app_inv_head|congruence]. Qed.

Lemma bool_decide_app_nil (p : str) c a : bool_decide (p ++ c :: a = []) = false.
Proof. apply bool_decide_false. by destruct p. Qed.

Section round_trip.
Context {double : Type} (stod : str -> res double) (double_0 : double).
Context (serviceName p : str) (connectionRequired : bool).

Abbreviation specs :=
  (@ConnectionOptionsCommandLine_new double serviceName p connectionRequired).
Abbreviation entries := (list (str * (ArgumentValue double * ArgumentSpec double))).

(** The specification of an option (some default for what is not a key). *)
Definition spec_of (key : str) : ArgumentSpec double :=
  match find_spec (p ++ key) specs with
  | Some spec => spec
  | None => string_option [] [] O_OPTIONAL DefaultNone
  end.

Definition string_value (v : str) : ArgumentValue double :=
  assign_str v (ArgumentValue_default double_0).

(** An option that is set, as an assignment and as an entry. *)
Definition assign_key (key : str) (value : option str) : list (@assignment double) :=
  match value with
  | Some v => [MkAssignment (p ++ key) v (string_value v) (spec_of key)]
  | None => []
  end.
Definition entry_key (key : str) (value : option str) : entries :=
  match value with
  | Some v => [(key, (string_value v, spec_of key))]
  | None => []
  end.

Definition each {A} (f : str -> option str -> list A) (o : ConnectionOptions) : list A :=
  f (L "remote") (d_url o) ++ f (L "instance") (d_instanceName o) ++
  f (L "server-cert") (d_serverCertPath o) ++ f (L "client-key") (d_clientKeyPath o) ++
  f (L "client-cert") (d_clientCertPath o) ++ f (L "access-token") (d_accessTokenPath o) ++
  f (L "token-reload-interval") (d_tokenReloadInterval o) ++
  f (L "retry-limit") (d_retryLimit o) ++ f (L "retry-delay") (d_retryDelay o) ++
  f (L "load-balancing-policy") (d_loadBalancingPolicy o).

Lemma each_map {A B} (g : A -> B) (f : str -> option str -> list A) o :
  map g (each f o) = each (fun k v => map g (f k v)) o.
Proof. unfold each. by rewrite !map_app. Qed.

Lemma render_assigns o :
  no_nul p -> d_useGoogleApiAuth o = false ->
  putArgs (Some p) o = map render_assignment (each assign_key o).
Proof.
  intros Hp Hg. unfold putArgs. rewrite (c_str_id p Hp), Hg, each_map. unfold each.
  assert (forall key value, put p (key ++ [assign]) value
    = map render_assignment (assign_key key value)) as E.
  { intros key [v|]; [|done]. unfold put, assign_key, render_assignment. cbn [map as_name as_text].
    by rewrite <- !app_assoc. }
  by rewrite <- !E.
Qed.

Lemma entry_assigns o :
  map entry (each assign_key o)
  = map (fun x => (p ++ fst x, snd x)) (each entry_key o).
Proof.
  rewrite !each_map. unfold each.
  assert (forall key value, map entry (assign_key key value)
    = map (fun x => (p ++ fst x, snd x)) (entry_key key value)) as E by by intros key [v|].
  by rewrite !E.
Qed.

Lemma first_of_key n key value :
  first_of n (entry_key key value)
  = if bool_decide (key = n)
    then (fun v => (string_value v, spec_of key)) <$> value else None.
Proof.
  unfold first_of, entry_key. destruct value; cbn; by destruct (bool_decide _).
Qed.

(** The keys and their specifications. *)
Lemma spec_keys :
  Forall (fun key => find_spec (p ++ key) specs = Some (spec_of key) /\
    dataType (spec_of key) = COMMANDLINE_DT_STRING /\
    d_variable (d_typeInfo (spec_of key)) = None)
  [L "remote"; L "instance"; L "server-cert"; L "client-key"; L "client-cert";
   L "access-token"; L "token-reload-interval"; L "retry-limit"; L "retry-delay";
   L "load-balancing-policy"].
Proof.
  unfold spec_of, ConnectionOptionsCommandLine_new, find_spec.
  repeat (apply Forall_cons_2; [cbn [List.find d_name string_option];
    rewrite !bool_decide_app; by vm_compute|]). apply Forall_nil_2.
Qed.

Lemma each_forall (P : @assignment double -> Prop) (Q : str -> Prop) o :
  Forall Q [L "remote"; L "instance"; L "server-cert"; L "client-key"; L "client-cert";
   L "access-token"; L "token-reload-interval"; L "retry-limit"; L "retry-delay";
   L "load-balancing-policy"] ->
  c_strings o ->
  (forall key value, Q key -> no_nul_option value -> Forall P (assign_key key value)) ->
  Forall P (each assign_key o).
Proof.
  intros HQ (H1 & H2 & H3 & H4 & H5 & H6 & H7 & H8 & H9 & H10) HP. unfold each.
  repeat (apply Forall_cons_1 in HQ as [? HQ]). rewrite !Forall_app.
  repeat (split; [by apply HP|]). by apply HP.
Qed.

Definition plain (key : str) : Prop := (assign_char ∉ key) /\ no_nul key /\ (4 < length key)%nat.

Lemma plain_keys :
  Forall plain [L "remote"; L "instance"; L "server-cert"; L "client-key"; L "client-cert";
   L "access-token"; L "token-reload-interval"; L "retry-limit"; L "retry-delay";
   L "load-balancing-policy"].
Proof.
  repeat (apply Forall_cons_2;
    [split; [by apply (bool_decide_unpack _); vm_compute|];
     split; [by apply (bool_decide_unpack _); vm_compute|cbn; lia]|]). apply Forall_nil_2.
Qed.

Lemma assigns_ok o :
  (assign_char ∉ p) -> no_nul p -> c_strings o ->
  Forall (assignment_ok stod double_0 specs) (each assign_key o).
Proof.
  intros Ha Hp Ho.
  apply (each_forall _ (fun key => plain key /\ find_spec (p ++ key) specs = Some (spec_of key)
    /\ dataType (spec_of key) = COMMANDLINE_DT_STRING
    /\ d_variable (d_typeInfo (spec_of key)) = None)); [|done|].
  - apply List.Forall_and; [exact plain_keys|exact spec_keys].
  - intros key [v|] ((Hk & Hn & _) & Hf & Ht & Hv) Hz; [|apply Forall_nil_2].
    apply Forall_cons_2; [|apply Forall_nil_2]. split; cbn [as_name as_text as_value as_spec].
    + rewrite elem_of_app. tauto.
    + split; [by apply no_nul_app|done].
    + done.
    + by apply converts_string.
Qed.

(** The defaults, by key. *)
Definition default_keys : entries :=
  [(L "instance", (string_value (L ""), spec_of (L "instance")));
   (L "googleapi-auth",
    (assign_bool false (ArgumentValue_default double_0), spec_of (L "googleapi-auth")));
   (L "retry-limit", (string_value (L "4"), spec_of (L "retry-limit")));
   (L "retry-delay", (string_value (L "1000"), spec_of (L "retry-delay")))].

Lemma default_entries :
  specs ≫= default_entry double_0 = map (fun x => (p ++ fst x, snd x)) default_keys.
Proof.
  unfold default_keys, spec_of, ConnectionOptionsCommandLine_new, find_spec, default_entry,
    isPositional, string_option.
  cbn [List.find mbind list_bind d_name lit String.list_ascii_of_string d_defaultValue
    hasDefaultValue dv_hasValue].
  rewrite !bool_decide_app, !bool_decide_app_nil. by vm_compute.
Qed.

Lemma string_of_lookup (self : CommandLine double) name :
  string_of self name = (fun e => c_str (d_str (fst e))) <$> d_parsedArgs self !! name.
Proof.
  unfold string_of, exists_, getString, parsed.
  by destruct (d_parsedArgs self !! name) as [[v spec]|].
Qed.

Lemma bool_of_lookup (self : CommandLine double) name :
  bool_of self name
  = match d_parsedArgs self !! name with Some (v, _) => d_bool v | None => Some false end.
Proof.
  unfold bool_of, exists_, getBool, parsed.
  by destruct (d_parsedArgs self !! name) as [[v spec]|].
Qed.

Lemma parsed_lookup o key :
  parsed_of double_0 specs (each assign_key o) !! (p ++ key)
  = first_of key (each entry_key o ++ default_keys).
Proof.
  unfold parsed_of. rewrite emplace_all_lookup, lookup_empty, entry_assigns, default_entries.
  rewrite <- map_app. apply first_of_prefix.
Qed.

(** What [configureChannel] leaves in [ch] for the arguments of [o]. *)
Definition configured (o ch : ConnectionOptions) : ConnectionOptions :=
  MkConnectionOptions (d_clientCert ch) (d_clientCertPath o) (d_clientKey ch)
    (d_clientKeyPath o) (d_accessTokenPath o) (d_instanceName o `or_else` Some [])
    (d_serverCert ch) (d_serverCertPath o) (d_url o) false (d_tokenReloadInterval o)
    (d_loadBalancingPolicy o) (d_retryLimit o `or_else` Some (L "4"))
    (d_retryDelay o `or_else` Some (L "1000")).
End round_trip.

(** Decide the equations between keys. *)
Ltac decide_keys :=
  repeat match goal with
  | |- context [bool_decide (lit ?a = lit ?b)] =>
      let v := eval vm_compute in (bool_decide (lit a = lit b)) in
      change (bool_decide (lit a = lit b)) with v
  end; cbn iota.

Ltac key_value :=
  unfold each; rewrite !first_of_app, !first_of_key; decide_keys;
  repeat case_match; done.

Section round_trip_2.
Context {double : Type} (double_0 : double) (serviceName p : str) (req : bool).

Abbreviation value_entry key :=
  (fun v => (string_value double_0 v, spec_of serviceName p req key)).
Abbreviation written o := (each (entry_key double_0 serviceName p req) o).

Lemma written_keys o :
  first_of (L "remote") (written o) = value_entry (L "remote") <$> d_url o /\
  first_of (L "instance") (written o) = value_entry (L "instance") <$> d_instanceName o /\
  first_of (L "server-cert") (written o)
    = value_entry (L "server-cert") <$> d_serverCertPath o /\
  first_of (L "client-key") (written o) = value_entry (L "client-key") <$> d_clientKeyPath o /\
  first_of (L "client-cert") (written o)
    = value_entry (L "client-cert") <$> d_clientCertPath o /\
  first_of (L "access-token") (written o)
    = value_entry (L "access-token") <$> d_accessTokenPath o /\
  first_of (L "token-reload-interval") (written o)
    = value_entry (L "token-reload-interval") <$> d_tokenReloadInterval o /\
  first_of (L "retry-limit") (written o) = value_entry (L "retry-limit") <$> d_retryLimit o /\
  first_of (L "retry-delay") (written o) = value_entry (L "retry-delay") <$> d_retryDelay o /\
  first_of (L "load-balancing-policy") (written o)
    = value_entry (L "load-balancing-policy") <$> d_loadBalancingPolicy o /\
  first_of (L "googleapi-auth") (written o) = None.
Proof. repeat (split; [key_value|]). key_value. Qed.

(** The value of a key that is a string, or its default. *)
Lemma string_of_key (self : CommandLine double) o key value d :
  d_parsedArgs self !! (p ++ key)
    = first_of key (written o ++ default_keys double_0 serviceName p req) ->
  first_of key (written o) = value_entry key <$> value ->
  first_of key (default_keys double_0 serviceName p req) = value_entry key <$> d ->
  no_nul_option value -> no_nul_option d ->
  string_of self (p ++ key) = value `or_else` d.
Proof.
  intros E Ev Ed Hv Hd. rewrite string_of_lookup, E, first_of_app, Ev, Ed.
  destruct value as [v|]; [|destruct d as [v|]; [|done]]; cbn; by rewrite c_str_id.
Qed.

Lemma or_else_none v : v `or_else` None = v.
Proof. by destruct v. Qed.

(** [configureChannel] on an object that parsed [written]. *)
Lemma configureChannel_written (self : CommandLine double) o ch :
  (forall key, d_parsedArgs self !! (p ++ key)
     = first_of key (written o ++ default_keys double_0 serviceName p req)) ->
  c_strings o ->
  configureChannel self p (Some ch) = Some (true, Some (configured o ch)).
Proof.
  intros E (H1 & H2 & H3 & H4 & H5 & H6 & H7 & H8 & H9 & H10).
  destruct (written_keys o) as (K1 & K2 & K3 & K4 & K5 & K6 & K7 & K8 & K9 & K10 & K11).
  assert (no_nul_option (Some []) /\ no_nul_option (Some (L "4")) /\
    no_nul_option (Some (L "1000"))) as (N1 & N2 & N3).
  { split; [|split]; by apply (bool_decide_unpack _); vm_compute. }
  unfold configureChannel. rewrite bool_of_lookup, E, first_of_app, K11.
  rewrite (string_of_key self o _ _ None (E _) K1 eq_refl),
    (string_of_key self o _ _ (Some []) (E _) K2 eq_refl),
    (string_of_key self o _ _ None (E _) K3 eq_refl),
    (string_of_key self o _ _ None (E _) K4 eq_refl),
    (string_of_key self o _ _ None (E _) K5 eq_refl),
    (string_of_key self o _ _ None (E _) K6 eq_refl),
    (string_of_key self o _ _ None (E _) K7 eq_refl),
    (string_of_key self o _ _ (Some (L "4")) (E _) K8 eq_refl),
    (string_of_key self o _ _ (Some (L "1000")) (E _) K9 eq_refl),
    (string_of_key self o _ _ None (E _) K10 eq_refl) by done.
  by rewrite !or_else_none.
Qed.

(** The required option, and no option called help. *)
Lemma written_required o :
  (req = true -> d_url o <> None) ->
  all_required (@ConnectionOptionsCommandLine_new double serviceName p req)
    (each (assign_key double_0 serviceName p req) o).
Proof.
  intros Hr. destruct (written_keys o) as (K1 & _). unfold all_required.
  rewrite entry_assigns. unfold ConnectionOptionsCommandLine_new.
  apply Forall_cons_2; [|repeat (apply Forall_cons_2; [done|]); apply Forall_nil_2].
  unfold isRequired, isOptional. cbn [d_occurrence d_name string_option].
  destruct req; [|done]. intros _. split; [by destruct p|].
  rewrite first_of_prefix, K1. destruct (d_url o); [done|]. by specialize (Hr eq_refl).
Qed.

Lemma written_no_help o :
  c_strings o ->
  first_of (L "help") (map entry (each (assign_key double_0 serviceName p req) o)) = None.
Proof.
  intros Ho.
  assert (Forall (fun a => as_name a <> L "help")
    (each (assign_key double_0 serviceName p req) o)) as H.
  { apply (each_forall double_0 serviceName p req _ plain); [exact plain_keys|done|].
    intros key [v|] (_ & _ & Hl) _; [|apply Forall_nil_2].
    apply Forall_cons_2; [|apply Forall_nil_2]. cbn [as_name].
    intros E. apply (f_equal length) in E. rewrite length_app in E. cbn in E. lia. }
  unfold first_of. induction H as [|a l Ha _ IH]; [done|]. cbn [map List.find entry fst].
  rewrite bool_decide_false by done. exact IH.
Qed.

Lemma new_defaults_ok :
  defaults_ok (@ConnectionOptionsCommandLine_new double serviceName p req).
Proof.
  unfold ConnectionOptionsCommandLine_new.
  repeat (apply Forall_cons_2; [done|]). apply Forall_nil_2.
Qed.
End round_trip_2.

(** C29. The arguments that [putArgs] writes for options without Google
    authentication (with it the parse is refused, [google_is_refused]) parse
    on a command line with the specification for the same prefix, and
    [configureChannel] gives back every option that was written, with the
    documented defaults for the instance and the retries. *)
Theorem putArgs_through_command_line {double : Type} (stod : str -> res double)
    (double_0 : double) (serviceName p process : str) (connectionRequired : bool)
    (o ch : ConnectionOptions) :
  (assign_char ∉ p) -> no_nul p -> c_strings o -> d_useGoogleApiAuth o = false ->
  (connectionRequired = true -> d_url o <> None) ->
  exists s,
    parse stod double_0 (Z.of_nat (S (length (putArgs (Some p) o))))
      (Some (process :: putArgs (Some p) o))
      (MkState (CommandLine_new
                  (ConnectionOptionsCommandLine_new serviceName p connectionRequired)) [] ∅)
      = Some (Ok true, s) /\
    configureChannel (cml s) p (Some ch) = Some (true, Some (configured o ch)).
Proof.
  intros Ha Hp Ho Hg Hr.
  rewrite (render_assigns double_0 serviceName p connectionRequired) by done.
  rewrite length_map, parse_rendered.
  - eexists. split; [done|]. cbn [cml].
    apply (configureChannel_written double_0 serviceName p connectionRequired); [|done].
    apply (parsed_lookup double_0 serviceName p connectionRequired o).
  - by apply assigns_ok.
  - by apply written_required.
  - apply new_defaults_ok.
  - by apply written_no_help.
Qed.

Definition toy_remote : ConnectionOptions :=
  with_retryLimit None (with_url (Some (L "http://h?a=b")) ConnectionOptions_default).

Lemma putArgs_through_command_line_witness :
  exists s,
    parse toy_stod tt 3
      (Some [L "prog"; L "--cas-remote=http://h?a=b"; L "--cas-retry-delay=1000"])
      (MkState (CommandLine_new (ConnectionOptionsCommandLine_new (L "CAS") (L "cas-") true)) [] ∅)
      = Some (Ok true, s) /\
    configureChannel (cml s) (L "cas-") (Some ConnectionOptions_default)
      = Some (true, Some (configured toy_remote ConnectionOptions_default)).
Proof.
  apply (putArgs_through_command_line toy_stod tt (L "CAS") (L "cas-") (L "prog") true
    toy_remote ConnectionOptions_default).
  - by apply (bool_decide_unpack _); vm_compute.
  - by apply (bool_decide_unpack _); vm_compute.
  - unfold c_strings. repeat split; by apply (bool_decide_unpack _); vm_compute.
  - done.
  - done.
Defined.

(** With Google authentication the flag is written without prefix and without a
    value, while the specification wants an argument: such arguments are refused. *)
Example google_is_refused :
  match parse toy_stod tt 3 (Some [L "prog"; L "--remote=u"; L "--googleapi-auth"])
          (MkState (CommandLine_new (ConnectionOptionsCommandLine_new (L "CAS") [] true)) [] ∅) with
  | Some (r, _) => r = Ok false
  | None => False
  end /\
  match parse toy_stod tt 3 (Some [L "prog"; L "--cas-remote=u"; L "--googleapi-auth"])
          (MkState (CommandLine_new (ConnectionOptionsCommandLine_new (L "CAS") (L "cas-") true)) [] ∅) with
  | Some (r, _) => r = Ok false
  | None => False
  end.
Proof. by vm_compute. Qed.
