(* ===== verification/LogStream.v ===== *)
(** * Writing a log stream

    [buildboxcommon_logstreamwriter.cpp].  A writer appends to one stream of the
    ByteStream service: [write] sends one request, [commit] the last one; the
    stream is asked for before the first write.  The stubs act on a world of any
    type. *)

From S2P Require Import Prelude StdMap Arrays Blake3Compress Digest Grpc Client Cstring Undefined ConnectionOptions.
Open Scope Z_scope.

Definition DATA_LOSS : Z := 15.

(** A [size_t] stored in an [int64]. *)
Definition to_int64 (x : Z) : Z := (x + 2 ^ 63) mod 2 ^ 64 - 2 ^ 63.

(** ** The services *)

Record LogEnv (W : Type) := MkLogEnv {
  (** [QueryWriteStatus] of a resource, over a [grpc::ClientContext] that is new or
      was used by an earlier call.  gRPC allows one call per context: what it does
      with a used one is left open. *)
  stub_QueryWriteStatus : bool -> str -> W -> Status * W;
  (** [Write]: the stream is opened; a request is written (and accepted?); no more
      requests follow; the status and [committed_size] of the response. *)
  stub_OpenWrite : W -> W;
  stream_Write : WriteRequest -> W -> bool * W;
  stream_WritesDone : W -> W;
  stream_Finish : W -> Status * Z * W;
  (** [CreateLogStream] for a parent, over a new or a used context: the status and
      the stream. *)
  stub_CreateLogStream : bool -> str -> W -> Status * str * W;
  (** [RetryInfo] in the error details of a status. *)
  log_retry_delay : str -> option Z;
}.
Arguments stub_QueryWriteStatus {W} _.
Arguments stub_OpenWrite {W} _.
Arguments stream_Write {W} _.
Arguments stream_WritesDone {W} _.
Arguments stream_Finish {W} _.
Arguments stub_CreateLogStream {W} _.
Arguments log_retry_delay {W} _.

(** ** The writer *)

Record LogStreamWriter := MkLogStreamWriter {
  d_resourceName : str;
  lsw_grpcRetryLimit : Z;        (** [unsigned int] *)
  lsw_grpcRetryDelay : Z;
  d_bytestreamWriter : bool;     (** made by the first call that needs it *)
  d_writeResponse : Z;           (** [committed_size] *)
  d_writeOffset : Z;
  d_writeCommitted : bool;
  d_resourceReady : bool;
}.

(** The constructor for a given stub. *)
Definition LogStreamWriter_new (resourceName : str) (grpcRetryLimit grpcRetryDelay : Z)
  : LogStreamWriter :=
  MkLogStreamWriter resourceName (u32 grpcRetryLimit) grpcRetryDelay false 0 0 false false.

Definition set_stream (opened : bool) (response : Z) (w : LogStreamWriter) :=
  MkLogStreamWriter (d_resourceName w) (lsw_grpcRetryLimit w) (lsw_grpcRetryDelay w)
    opened response (d_writeOffset w) (d_writeCommitted w) (d_resourceReady w).
Definition set_offset (offset : Z) (w : LogStreamWriter) :=
  MkLogStreamWriter (d_resourceName w) (lsw_grpcRetryLimit w) (lsw_grpcRetryDelay w)
    (d_bytestreamWriter w) (d_writeResponse w) offset (d_writeCommitted w) (d_resourceReady w).
Definition set_committed (w : LogStreamWriter) :=
  MkLogStreamWriter (d_resourceName w) (lsw_grpcRetryLimit w) (lsw_grpcRetryDelay w)
    (d_bytestreamWriter w) (d_writeResponse w) (d_writeOffset w) true (d_resourceReady w).
Definition set_ready (ready : bool) (w : LogStreamWriter) :=
  MkLogStreamWriter (d_resourceName w) (lsw_grpcRetryLimit w) (lsw_grpcRetryDelay w)
    (d_bytestreamWriter w) (d_writeResponse w) (d_writeOffset w) (d_writeCommitted w) ready.

Section writer.
Context {W : Type} (env : LogEnv W).

(** The writer and the world. *)
Abbreviation St := (LogStreamWriter * W)%type.

Definition lget : M St LogStreamWriter := fun s => (Ok (fst s), s).
Definition lset (f : LogStreamWriter -> LogStreamWriter) : M St unit :=
  fun '(self, w) => (Ok tt, (f self, w)).
Definition world {A} (f : W -> A * W) : M St A :=
  fun '(self, w) => let '(a, w) := f w in (Ok a, (self, w)).

(** [bytestreamWriter()]. *)
Definition bytestreamWriter : M St unit :=
  let* self := lget in
  if d_bytestreamWriter self then mret tt
  else
    let* _ := world (fun w => (tt, stub_OpenWrite env w)) in
    lset (set_stream true (d_writeResponse self)).

(** [bytestreamWriter()->Write(request)]. *)
Definition stream_write (request : WriteRequest) : M St bool :=
  let* _ := bytestreamWriter in world (stream_Write env request).

(** [retrier.issueRequest() && retrier.status().ok()]. *)
Definition issued_ok {S} (limit delay : Z) (invocation : M S Status) : M S bool :=
  let* (issued, retrier, _) :=
    issueRequest (log_retry_delay env) (GrpcRetrier_new limit delay invocation ∅) in
  mret (issued && ok (d_status retrier)).

(** A block with a [grpc::ClientContext] of its own, that its lambda captures: has it
    been used? *)
Definition with_context {S A} (m : M (S * bool) A) : M S A := fun s =>
  let '(r, (s, _)) := m (s, false) in (r, s).

(** The lambda captures [context] by reference and ignores the one that the retrier
    passes: every attempt after the first is over a used context. *)
Definition queryWriteStatusLambda (resourceName : str) : M (St * bool) Status :=
  fun '((self, w), used) =>
    let '(status, w) := stub_QueryWriteStatus env used resourceName w in
    (Ok status, ((self, w), true)).

Definition queryStreamWriteStatus : M St bool :=
  let* self := lget in
  with_context
    (issued_ok (lsw_grpcRetryLimit self) (lsw_grpcRetryDelay self)
       (queryWriteStatusLambda (d_resourceName self))).

Definition writeLambda (request : WriteRequest) : M St Status :=
  let* accepted := stream_write request in
  mret (status_of (if (accepted : bool) then OK else INTERNAL)).

(** The end of [write], for a resource that is ready. *)
Definition write_ready (data : str) : M St bool :=
  let* self := lget in
  let request := MkWriteRequest (d_resourceName self) (d_writeOffset self) data false in
  let* written := issued_ok (lsw_grpcRetryLimit self) (lsw_grpcRetryDelay self)
                    (writeLambda request) in
  if (written : bool) then
    let* _ := lset (fun self => set_offset (to_int64 (d_writeOffset self + zlen data)) self) in
    mret true
  else mret false.

Definition write (data : str) : M St bool :=
  let* self := lget in
  if d_writeCommitted self then mthrow RuntimeError
  else if d_resourceReady self then write_ready data
  else
    let* ready := queryStreamWriteStatus in
    let* _ := lset (set_ready ready) in
    if (ready : bool) then write_ready data else mret false.

Definition commitWriteLambda (request : WriteRequest) : M St Status :=
  let* accepted := stream_write request in
  if negb accepted then mret (status_of INTERNAL)
  else
    let* _ := bytestreamWriter in
    let* _ := world (fun w => (tt, stream_WritesDone env w)) in
    let* _ := bytestreamWriter in
    let* (status, committed_size) := world (stream_Finish env) in
    let* _ := lset (set_stream true committed_size) in
    let* self := lget in
    if ok status && negb (d_writeResponse self =? d_writeOffset self)
    then mret (status_of DATA_LOSS)
    else mret status.

Definition commit : M St bool :=
  let* self := lget in
  if d_writeCommitted self then mthrow RuntimeError
  else
    let request := MkWriteRequest (d_resourceName self) (d_writeOffset self) [] true in
    let* committed := issued_ok (lsw_grpcRetryLimit self) (lsw_grpcRetryDelay self)
                        (commitWriteLambda request) in
    if (committed : bool) then
      let* _ := lset set_committed in mret true
    else mret false.

(** [createLogStream]; the client may be a null pointer.  The invocation runs
    over the world, the context it captures (used or not) and [createdLogStream]. *)
Definition createLogStream (client : bool) (parent : str) (retryLimit retryDelay : Z)
  : M W str :=
  if negb client then mthrow InvalidArgument
  else fun w =>
    match issueRequest (log_retry_delay env)
            (GrpcRetrier_new (u32 retryLimit) retryDelay
               (fun '(w, used, _) =>
                  let '(status, stream, w) := stub_CreateLogStream env used parent w in
                  (Ok status, (w, true, stream))) ∅) (w, false, []) with
    | (Throw e, (w, _, _)) => (Throw e, w)
    | (Ok (issued, retrier, _), (w, _, createdLogStream)) =>
        if issued && ok (d_status retrier) then (Ok createdLogStream, w)
        else (Throw (GrpcError (error_code (d_status retrier))), w)
    end.

(** [std::stoi] of an option of the connection; a null pointer is undefined. *)
Definition stoi_option (value : option str) : UM W Z :=
  match value with
  | None => undefined
  | Some value =>
      fun w => Some (match stoi value with Ok (n, _) => Ok n | Throw e => Throw e end, w)
  end.

(** The two functions that take options: [make_stub] creates the channel and a
    stub on it. *)
Definition LogStreamWriter_from_options (make_stub : UM W unit) (resourceName : str)
    (connectionOptions : ConnectionOptions) : UM W LogStreamWriter :=
  let+ _ := make_stub in
  let+ limit := stoi_option (d_retryLimit connectionOptions) in
  let+ delay := stoi_option (d_retryDelay connectionOptions) in
  uret (LogStreamWriter_new resourceName limit delay).

Definition createLogStream_from_options (make_stub : UM W unit) (parent : str)
    (connectionOptions : ConnectionOptions) : UM W str :=
  let+ _ := make_stub in
  let+ retryLimit := stoi_option (d_retryLimit connectionOptions) in
  let+ retryDelay := stoi_option (d_retryDelay connectionOptions) in
  ulift (createLogStream true parent retryLimit retryDelay).

End writer.
