(* ===== verification/LogStreamSpec.v ===== *)
(** * Properties of the log stream writer *)

From S2P Require Import Prelude StdMap Arrays Blake3Compress Digest Grpc Client Cstring Undefined ConnectionOptions LogStream.
Open Scope Z_scope.

(** ** Requests with retries *)

Section issued.
Context {W : Type} (env : LogEnv W) {St : Type}.

(** An invocation that never throws. *)
Definition never_throws_inv (inv : M St Status) : Prop :=
  forall s, exists st s', inv s = (Ok st, s').

(** [issueRequest() && status().ok()] is whether the last call succeeded, after
    calls that failed. *)
Lemma issued_ok_cases limit delay (inv : M St Status) s :
  0 <= limit -> never_throws_inv inv ->
  exists s0 st s',
    issued_ok env limit delay inv s = (Ok (ok st), s') /\
    failed_calls inv s s0 /\ inv s0 = (Ok st, s').
Proof.
  intros Hl Hn.
  destruct (issueRequest_run (log_retry_delay env) inv limit delay ∅ s Hl)
    as (r & n & s' & Ho & _ & Hr).
  apply outcome_last in Ho as (s0 & Hc & H). unfold issued_ok, mbind_M.
  destruct r as [[b st]|e].
  - destruct Hr as (self & sleeps & -> & <- & _). destruct H as (E & Hok & _).
    exists s0, (d_status self), s'. split; [|done]. unfold mret.
    destruct (ok (d_status self)); [by rewrite Hok|by rewrite andb_false_r].
  - destruct (Hn s0) as (st & s1 & E). congruence.
Qed.

(** From a run of the retry loop. *)
Lemma issued_ok_outcome limit delay (inv : M St Status) s b st n s' :
  0 <= limit ->
  outcome inv {[UNAVAILABLE]} (Z.to_nat limit) s (Ok (b, st)) n s' ->
  issued_ok env limit delay inv s = (Ok (b && ok st), s').
Proof.
  intros Hl Ho.
  rewrite <- (right_id_L ∅ (∪) {[UNAVAILABLE]}) in Ho.
  destruct (issueRequest_outcome (log_retry_delay env) inv _ _ _ _ _ _ Ho
    (set_result (GrpcRetrier_new limit delay inv ∅) (status_of OK) delay 0))
    as (self & sleeps & E & Hst & _); [done|done|done|cbn; lia|].
  assert (issueRequest (log_retry_delay env) (GrpcRetrier_new limit delay inv ∅) s
    = (Ok (b, self, sleeps), s')) as E' by exact E.
  unfold issued_ok, mbind_M. rewrite E'. unfold mret. by rewrite Hst.
Qed.
End issued.

(** What calls that fail leave unchanged. *)
Lemma failed_calls_keep {St} (inv : M St Status) (P : St -> Prop) s s' :
  failed_calls inv s s' -> P s ->
  (forall s st s', P s -> inv s = (Ok st, s') -> ok st = false -> P s') -> P s'.
Proof. induction 1; eauto. Qed.

(** ** What is sent

    The services of [env], with a log of the requests written and their fate. *)

Abbreviation log_entry := (WriteRequest * bool)%type.

Definition logged {W} (env : LogEnv W) : LogEnv (W * list log_entry) :=
  MkLogEnv _
    (fun used name '(w, l) =>
       let '(st, w) := stub_QueryWriteStatus env used name w in (st, (w, l)))
    (fun '(w, l) => (stub_OpenWrite env w, l))
    (fun r '(w, l) => let '(b, w) := stream_Write env r w in (b, (w, l ++ [(r, b)])))
    (fun '(w, l) => (stream_WritesDone env w, l))
    (fun '(w, l) => let '(st, n, w) := stream_Finish env w in (st, n, (w, l)))
    (fun used parent '(w, l) =>
       let '(st, s, w) := stub_CreateLogStream env used parent w in (st, s, (w, l)))
    (log_retry_delay env).

(** The bytes the server took. *)
Definition accepted (l : list log_entry) : str :=
  l ≫= fun e : log_entry => if snd e then wr_data (fst e) else [].

Lemma accepted_app l1 l2 : accepted (l1 ++ l2) = accepted l1 ++ accepted l2.
Proof. apply bind_app. Qed.

(** Every request was for [name] and at the end of what had been taken before. *)
Inductive log_ok (name : str) : list log_entry -> Prop :=
  | log_ok_nil : log_ok name []
  | log_ok_snoc l r b :
      log_ok name l -> wr_resource_name r = name ->
      wr_write_offset r = zlen (accepted l) -> log_ok name (l ++ [(r, b)]).

Section sending.
Context {W : Type} (env : LogEnv W) (name : str).
Abbreviation St := (LogStreamWriter * (W * list log_entry))%type.

Definition log_of (s : St) : list log_entry := snd (snd s).

(** The writer and the log agree; nothing is said of the flags. *)
Record writer_ok (s : St) : Prop := {
  wo_name : d_resourceName (fst s) = name;
  wo_log : log_ok name (log_of s);
  wo_offset : d_writeOffset (fst s) = zlen (accepted (log_of s));
  wo_limit : 0 <= lsw_grpcRetryLimit (fst s);
}.

(** What a call may change without sending anything that is taken. *)
Record same_writer (s s' : St) : Prop := {
  sw_name : d_resourceName (fst s') = d_resourceName (fst s);
  sw_offset : d_writeOffset (fst s') = d_writeOffset (fst s);
  sw_limit : lsw_grpcRetryLimit (fst s') = lsw_grpcRetryLimit (fst s);
  sw_committed : d_writeCommitted (fst s') = d_writeCommitted (fst s);
  sw_ready : d_resourceReady (fst s') = d_resourceReady (fst s);
}.

Lemma same_refl s : same_writer s s.
Proof. by split. Qed.

Lemma same_trans s1 s2 s3 : same_writer s1 s2 -> same_writer s2 s3 -> same_writer s1 s3.
Proof. intros [] []. split; congruence. Qed.

(** One request on the stream. *)
Lemma stream_write_spec r s :
  exists b s', stream_write (logged env) r s = (Ok b, s') /\ same_writer s s' /\
    log_of s' = log_of s ++ [(r, b)] /\ d_bytestreamWriter (fst s') = true.
Proof.
  destruct s as [self [w l]]. unfold stream_write, bytestreamWriter, mbind_M, lget, lset,
    world, mret. cbn. destruct (d_bytestreamWriter self) eqn:E; cbn.
  - destruct (stream_Write env r w) as [b w']. by exists b, (self, (w', l ++ [(r, b)])).
  - destruct (stream_Write env r _) as [b w']. eexists b, _. split; [done|]. by split.
Qed.

Lemma writeLambda_spec r s :
  exists b s', writeLambda (logged env) r s = (Ok (status_of (if b : bool then OK else INTERNAL)), s')
    /\ same_writer s s' /\ log_of s' = log_of s ++ [(r, b)].
Proof.
  destruct (stream_write_spec r s) as (b & s' & E & H & Hl & _).
  exists b, s'. split; [|done]. unfold writeLambda, mbind_M. by rewrite E.
Qed.

Lemma query_spec s :
  0 <= lsw_grpcRetryLimit (fst s) ->
  exists b s', queryStreamWriteStatus (logged env) s = (Ok b, s') /\ fst s' = fst s /\
    log_of s' = log_of s.
Proof.
  intros Hl. unfold queryStreamWriteStatus, mbind_M, lget, with_context.
  set (inv := queryWriteStatusLambda _ _).
  assert (forall s, exists st s', inv s = (Ok st, s') /\ fst (fst s') = fst (fst s) /\
            log_of (fst s') = log_of (fst s)) as Hinv.
  { intros [[self [w l]] used]. unfold inv. cbn.
    destruct (stub_QueryWriteStatus env _ _ w) as [st w']. by eexists _, _. }
  destruct (issued_ok_cases (logged env) (lsw_grpcRetryLimit (fst s))
    (lsw_grpcRetryDelay (fst s)) inv (s, false) Hl) as (s0 & st & [s' used] & -> & Hc & E).
  { intros s1. destruct (Hinv s1) as (st & s2 & E & _). by eexists _, _. }
  exists (ok st), s'. split; [done|].
  apply (failed_calls_inv inv (fun s0 => fst (fst s0) = fst s /\ log_of (fst s0) = log_of s)) in Hc
    as [H1 H2]; [|done|].
  - destruct (Hinv s0) as (st1 & s1 & E1 & H3 & H4). rewrite E in E1. injection E1 as <- <-.
    cbn in *. split; congruence.
  - intros s1 st1 s2 [H1 H2] E1. destruct (Hinv s1) as (st3 & s3 & E3 & H3 & H4).
    rewrite E1 in E3. injection E3 as <- <-. split; congruence.
Qed.

Lemma zlen_le_app (a b : str) : zlen a <= zlen (a ++ b).
Proof. rewrite zlen_app. pose proof (zlen_nonneg b). lia. Qed.

Lemma to_int64_small x : 0 <= x < 2 ^ 63 -> to_int64 x = x.
Proof. intros H. unfold to_int64. rewrite Z.mod_small; lia. Qed.

(** A further request at the end of what was taken. *)
Lemma writer_ok_snoc s s' r b :
  writer_ok s -> same_writer s s' -> log_of s' = log_of s ++ [(r, b)] ->
  wr_resource_name r = d_resourceName (fst s) ->
  wr_write_offset r = d_writeOffset (fst s) ->
  log_ok name (log_of s') /\
  accepted (log_of s') = accepted (log_of s) ++ (if b then wr_data r else []) /\
  (b = false \/ wr_data r = [] -> writer_ok s').
Proof.
  intros [Hna Hl Ho Hlim] [S1 S2 S3 _ _] E Hn Hw. rewrite E.
  assert (accepted (log_of s ++ [(r, b)])
    = accepted (log_of s) ++ (if b then wr_data r else [])) as Ea.
  { rewrite accepted_app. unfold accepted at 2. cbn. by rewrite app_nil_r. }
  assert (log_ok name (log_of s ++ [(r, b)])) as Hlog.
  { apply log_ok_snoc; [done|congruence|]. by rewrite Hw. }
  split; [done|]. split; [done|]. intros Hb. split.
  - congruence.
  - by rewrite E.
  - rewrite S2, E, Ea, Ho. destruct Hb as [-> | ->]; [|destruct b]; by rewrite app_nil_r.
  - by rewrite S3.
Qed.

(** The effect of [write] on a ready resource. *)
Lemma write_ready_spec s data :
  writer_ok s -> zlen (accepted (log_of s)) + zlen data < 2 ^ 63 ->
  exists b s', write_ready (logged env) data s = (Ok b, s') /\ writer_ok s' /\
    accepted (log_of s') = accepted (log_of s) ++ (if b : bool then data else []) /\
    d_writeCommitted (fst s') = d_writeCommitted (fst s) /\
    d_resourceReady (fst s') = d_resourceReady (fst s).
Proof.
  intros Hs Hd. unfold write_ready, mbind_M at 1, lget.
  set (r := MkWriteRequest _ _ _ _).
  destruct (issued_ok_cases (logged env) (lsw_grpcRetryLimit (fst s))
    (lsw_grpcRetryDelay (fst s)) (writeLambda (logged env) r) s) as (s0 & st & s1 & Ei & Hc & E).
  { apply Hs. }
  { intros s0. destruct (writeLambda_spec r s0) as (b & s' & E & _). by eexists _, _. }
  apply (failed_calls_keep _ (fun s0 => writer_ok s0 /\ same_writer s s0 /\
    accepted (log_of s0) = accepted (log_of s))) in Hc as (H0 & Hsw & Ha).
  2: { split; [done|]. split; [apply same_refl|done]. }
  2: { clear Hc E Ei st s0 s1. intros s0 st s1 (H0 & Hsw & Ha) E Hok.
       destruct (writeLambda_spec r s0) as (b & s' & E' & H' & Hl').
       rewrite E' in E. injection E as <- <-. destruct b; [done|].
       destruct (writer_ok_snoc s0 s' r false) as (_ & Ea & Hw); try done;
         [by rewrite (sw_name _ _ Hsw)|by rewrite (sw_offset _ _ Hsw)|].
       split; [apply Hw; by left|]. split; [by eapply same_trans|].
       rewrite Ea, Ha. apply app_nil_r. }
  destruct (writeLambda_spec r s0) as (b & s' & E' & H' & Hl').
  rewrite E' in E. injection E as <- <-.
  destruct (writer_ok_snoc s0 s' r b) as (Hlog & Ea & Hw); try done;
    [by rewrite (sw_name _ _ Hsw)|by rewrite (sw_offset _ _ Hsw)|].
  pose proof (same_trans _ _ _ Hsw H') as Hss.
  unfold mbind_M at 1. rewrite Ei. destruct b; cbn [ok status_of error_code Z.eqb OK INTERNAL].
  - set (s2 := (set_offset (to_int64 (d_writeOffset (fst s') + zlen data)) (fst s'), snd s')).
    exists true, s2. split; [by destruct s' as [self w]|].
    assert (accepted (log_of s2) = accepted (log_of s) ++ data) as Ea2
      by (change (log_of s2) with (log_of s'); by rewrite Ea, Ha).
    split; [|split; [exact Ea2|split; [apply Hss|apply Hss]]].
    destruct H0 as [Hna _ Ho Hlim]. split.
    + cbn. rewrite (sw_name _ _ H'). exact Hna.
    + exact Hlog.
    + rewrite Ea2. cbn [s2 fst set_offset d_writeOffset]. rewrite (sw_offset _ _ H'), Ho, Ha.
      rewrite zlen_app. pose proof (zlen_nonneg (accepted (log_of s))).
      pose proof (zlen_nonneg data). apply to_int64_small. lia.
    + cbn. rewrite (sw_limit _ _ H'). exact Hlim.
  - exists false, s'. split; [done|]. split; [apply Hw; by left|].
    split; [by rewrite Ea, Ha, !app_nil_r|]. split; apply Hss.
Qed.

(** [write]: it tells whether the bytes were taken, in a state it changes in no
    other way that matters. *)
Lemma write_spec s data :
  writer_ok s -> zlen (accepted (log_of s)) + zlen data < 2 ^ 63 ->
  if d_writeCommitted (fst s) then write (logged env) data s = (Throw RuntimeError, s)
  else exists b s', write (logged env) data s = (Ok b, s') /\ writer_ok s' /\
    accepted (log_of s') = accepted (log_of s) ++ (if b : bool then data else []) /\
    d_writeCommitted (fst s') = false /\
    (d_resourceReady (fst s') = false -> log_of s' = log_of s).
Proof.
  intros Hs Hd. unfold write, lget. destruct (d_writeCommitted (fst s)) eqn:Ec;
    unfold mbind_M at 1; rewrite Ec; [done|].
  destruct (d_resourceReady (fst s)) eqn:Er.
  { destruct (write_ready_spec s data Hs Hd) as (b & s' & E & H1 & H2 & H3 & H4).
    exists b, s'. split; [done|]. split; [done|]. split; [done|]. split; [congruence|congruence]. }
  destruct (query_spec s (wo_limit _ Hs)) as (b & s1 & E & Ef & El).
  unfold mbind_M at 1. rewrite E. unfold mbind_M at 1, lset.
  set (s2 := (set_ready b (fst s1), snd s1)).
  assert (writer_ok s2) as H2.
  { destruct Hs as [Hna Hl Ho Hlim]. split; cbn; rewrite ?Ef; [done| |rewrite Ho|done];
      change (log_of s2) with (log_of s1); by rewrite El. }
  assert ((let '(self, w) := s1 in (Ok tt, (set_ready b self, w))) = (Ok tt, s2)) as ->
    by by destruct s1.
  assert (d_writeCommitted (fst s2) = false) as Ec2 by (cbn; by rewrite Ef).
  destruct b.
  - destruct (write_ready_spec s2 data H2) as (b & s' & E' & H1 & Ha & H3 & H4).
    { change (log_of s2) with (log_of s1). by rewrite El. }
    exists b, s'. split; [done|]. split; [done|].
    split; [rewrite Ha; change (log_of s2) with (log_of s1); by rewrite El|].
    split; [congruence|]. rewrite H4. by intros [=].
  - exists false, s2. split; [done|]. split; [done|]. change (log_of s2) with (log_of s1).
    rewrite El, app_nil_r. done.
Qed.

(** One attempt to commit: it ends with an OK status only if the server says that
    it committed as many bytes as were written. *)
Lemma commitLambda_spec r s :
  writer_ok s -> wr_resource_name r = d_resourceName (fst s) ->
  wr_write_offset r = d_writeOffset (fst s) -> wr_data r = [] ->
  exists st s', commitWriteLambda (logged env) r s = (Ok st, s') /\
    writer_ok s' /\ same_writer s s' /\
    (exists b, log_of s' = log_of s ++ [(r, b)]) /\
    accepted (log_of s') = accepted (log_of s) /\
    (ok st = true -> log_of s' = log_of s ++ [(r, true)] /\
       d_writeResponse (fst s') = zlen (accepted (log_of s'))).
Proof.
  intros Hs Hn Hw Hd. destruct (stream_write_spec r s) as (b & s1 & E & H1 & Hl & Ho).
  destruct (writer_ok_snoc s s1 r b Hs H1 Hl Hn Hw) as (_ & Ea & Hok).
  specialize (Hok (or_intror Hd)).
  assert (accepted (log_of s1) = accepted (log_of s)) as Ea1.
  { rewrite Ea, Hd. destruct b; apply app_nil_r. }
  unfold commitWriteLambda. unfold mbind_M at 1. rewrite E. destruct b; cbn [negb].
  2: { eexists _, s1. split; [done|]. split; [done|]. split; [done|].
       split; [by eexists|]. split; [done|]. done. }
  unfold bytestreamWriter, mbind_M, lget, lset, world, mret. rewrite Ho.
  destruct s1 as [self [w l]]. cbn [fst snd logged stream_WritesDone stream_Finish] in *.
  rewrite Ho. destruct (stream_Finish env _) as [[st n] w'].
  set (s2 := (set_stream true n self, (w', l))).
  assert (writer_ok s2 /\ same_writer s s2 /\ log_of s2 = log_of s ++ [(r, true)] /\
    accepted (log_of s2) = accepted (log_of s)) as (H2 & Hs2 & Hl2 & Ha2).
  { split; [|split; [|split; [exact Hl|exact Ea1]]].
    - destruct Hok as [N A B C]. by split.
    - eapply same_trans; [exact H1|by split]. }
  destruct (ok st && _) eqn:Eb; eexists _, s2; (split; [done|]); (split; [done|]);
    (split; [done|]); (split; [by eexists|]); (split; [done|]); [done|].
  intros Hst. split; [done|]. rewrite Hst in Eb. cbn in Eb. b2p.
  cbn [s2 fst set_stream d_writeResponse]. rewrite Eb.
  rewrite <- (wo_offset _ H2). done.
Qed.

(** [commit]. *)
Lemma commit_spec s :
  writer_ok s ->
  if d_writeCommitted (fst s) then commit (logged env) s = (Throw RuntimeError, s)
  else exists b s', commit (logged env) s = (Ok b, s') /\ writer_ok s' /\
    accepted (log_of s') = accepted (log_of s) /\
    d_writeCommitted (fst s') = b /\
    (b = true -> d_writeResponse (fst s') = zlen (accepted (log_of s')) /\
       exists l r, log_of s' = l ++ [(r, true)] /\ wr_finish_write r = true).
Proof.
  intros Hs. unfold commit, lget. destruct (d_writeCommitted (fst s)) eqn:Ec;
    unfold mbind_M at 1; rewrite Ec; [done|].
  set (r := MkWriteRequest _ _ _ _).
  set (P := fun s0 => writer_ok s0 /\ same_writer s s0 /\
    accepted (log_of s0) = accepted (log_of s)).
  assert (forall s0, P s0 -> exists st s', commitWriteLambda (logged env) r s0 = (Ok st, s') /\
    P s' /\ (ok st = true -> log_of s' = log_of s0 ++ [(r, true)] /\
       d_writeResponse (fst s') = zlen (accepted (log_of s')))) as Hstep.
  { intros s0 (H0 & Hsw & Ha). destruct (commitLambda_spec r s0 H0) as (st & s' & E & H' & Hs' & _ & Ha' & Hok);
      [by rewrite (sw_name _ _ Hsw)|by rewrite (sw_offset _ _ Hsw)|done|].
    exists st, s'. split; [done|]. split; [|done]. split; [done|].
    split; [by eapply same_trans|congruence]. }
  assert (P s) as HP by (split; [done|]; split; [apply same_refl|done]).
  destruct (issueRequest_run (log_retry_delay (logged env)) (commitWriteLambda (logged env) r)
    (lsw_grpcRetryLimit (fst s)) (lsw_grpcRetryDelay (fst s)) ∅ s (wo_limit _ Hs))
    as (res & n & s1 & Ho & _ & Hr).
  apply outcome_last in Ho as (s0 & Hc & H).
  apply (failed_calls_keep _ P) in Hc; [|done|].
  2: { intros s2 st s3 H2 E _. destruct (Hstep s2 H2) as (st' & s' & E' & H' & _).
       rewrite E' in E. by injection E as _ <-. }
  destruct (Hstep s0 Hc) as (st & s' & E' & (H1 & Hsw & Ha) & Hok).
  unfold mbind_M at 1, issued_ok, mbind_M at 1.
  destruct res as [[b st']|e]; [|congruence].
  destruct H as (E & Hb & _). rewrite E' in E. injection E as <- <-.
  destruct Hr as (self & sleeps & -> & -> & _). unfold mret at 1.
  replace (b && ok st) with (ok st) by (destruct (ok st); [by rewrite Hb|by rewrite andb_false_r]).
  destruct (ok st) eqn:Est.
  - destruct (Hok eq_refl) as [El Hresp].
    exists true, (set_committed (fst s'), snd s'). split; [by destruct s'|].
    split; [destruct H1 as [N A B C]; by split|]. split; [exact Ha|]. split; [done|].
    intros _. split; [exact Hresp|]. by exists (log_of s0), r.
  - exists false, s'. split; [done|]. split; [done|]. split; [done|].
    split; [by rewrite (sw_committed _ _ Hsw)|done].
Qed.
End sending.

(** ** Runs of operations *)

Inductive op := OpWrite (data : str) | OpCommit.

Definition do_op {W} (env : LogEnv W) (o : op) : M (LogStreamWriter * W) bool :=
  match o with OpWrite data => write env data | OpCommit => commit env end.

(** The caller catches what is thrown and goes on. *)
Fixpoint run_ops {W} (env : LogEnv W) (ops : list op) (s : LogStreamWriter * W)
  : list (op * res bool) * (LogStreamWriter * W) :=
  match ops with
  | [] => ([], s)
  | o :: ops =>
      let '(r, s) := do_op env o s in
      let '(rs, s) := run_ops env ops s in ((o, r) :: rs, s)
  end.

Definition op_data (o : op) : str := match o with OpWrite data => data | OpCommit => [] end.

(** The data of the writes that returned true. *)
Definition acknowledged (rs : list (op * res bool)) : str :=
  rs ≫= fun x : op * res bool => match snd x with Ok true => op_data (fst x) | _ => [] end.

(** Once a commit has returned true every call throws. *)
Fixpoint closed_after_commit (rs : list (op * res bool)) : Prop :=
  match rs with
  | [] => True
  | (OpCommit, Ok true) :: rs => Forall (fun x => snd x = Throw RuntimeError) rs
  | (_, Ok _) :: rs => closed_after_commit rs
  | (_, Throw _) :: _ => False
  end.

Definition committed_by (rs : list (op * res bool)) : Prop :=
  Exists (fun x => fst x = OpCommit /\ snd x = Ok true) rs.

Lemma run_ops_committed {W : Type} (env : LogEnv W) ops s :
  d_writeCommitted (fst s) = true ->
  exists rs, run_ops env ops s = (rs, s) /\ Forall (fun x => snd x = Throw RuntimeError) rs /\
    acknowledged rs = [].
Proof.
  intros Hc. induction ops as [|o ops (rs & E & Hf & Ha)]; cbn [run_ops].
  { exists []. done. }
  assert (do_op env o s = (Throw RuntimeError, s)) as ->.
  { destruct o; cbn; unfold write, commit, mbind_M, lget; by rewrite Hc. }
  rewrite E. exists ((o, Throw RuntimeError) :: rs). split; [done|]. split; [by constructor|done].
Qed.

Lemma run_ops_open {W : Type} (env : LogEnv W) (name : str) ops
    (s : LogStreamWriter * (W * list log_entry)) :
  writer_ok name s -> d_writeCommitted (fst s) = false ->
  zlen (accepted (log_of s)) + zlen (concat (map op_data ops)) < 2 ^ 63 ->
  let '(rs, s') := run_ops (logged env) ops s in
  writer_ok name s' /\ accepted (log_of s') = accepted (log_of s) ++ acknowledged rs /\
  closed_after_commit rs /\
  (committed_by rs -> d_writeResponse (fst s') = zlen (accepted (log_of s'))).
Proof.
  revert s. induction ops as [|o ops IH]; intros s Hs Hc Hd; cbn [run_ops].
  { split; [done|]. split; [by rewrite app_nil_r|]. split; [done|].
    intros H. by apply Exists_nil in H. }
  cbn [map concat] in Hd. rewrite zlen_app in Hd.
  pose proof (zlen_nonneg (concat (map op_data ops))) as Hnn.
  destruct o as [data|]; cbn [do_op op_data] in *.
  - pose proof (write_spec env name s data Hs ltac:(lia)) as Hw. rewrite Hc in Hw.
    destruct Hw as (b & s1 & -> & H1 & Ha & Hc1 & _).
    specialize (IH s1 H1 Hc1). rewrite Ha, zlen_app in IH.
    destruct (run_ops (logged env) ops s1) as [rs s2].
    destruct IH as (H2 & Ha2 & Hcl & Hr). { destruct b; [lia|rewrite zlen_nil; pose proof (zlen_nonneg data); lia]. }
    split; [done|]. split; [|split; [done|]].
    + rewrite Ha2, <- app_assoc. done.
    + intros H. apply Hr. apply Exists_cons in H as [[[=] _]|H]. exact H.
  - pose proof (commit_spec env name s Hs) as Hw. rewrite Hc in Hw.
    destruct Hw as (b & s1 & -> & H1 & Ha & Hc1 & Hb). destruct b.
    + destruct (run_ops_committed (logged env) ops s1 Hc1) as (rs & -> & Hf & Hk).
      destruct (Hb eq_refl) as [Hresp _].
      split; [done|]. split; [|split; [exact Hf|by intros _]].
      unfold acknowledged in *. cbn. by rewrite Hk, app_nil_r.
    + specialize (IH s1 H1 Hc1). rewrite Ha in IH.
      destruct (run_ops (logged env) ops s1) as [rs s2].
      destruct IH as (H2 & Ha2 & Hcl & Hr); [rewrite zlen_nil in Hd; lia|].
      split; [done|]. split; [exact Ha2|]. split; [done|].
      intros H. apply Hr. apply Exists_cons in H as [[_ [=]]|H]. exact H.
Qed.

(** C23. For every sequence of calls on a new writer and every server: each
    request names the stream and is placed exactly at the end of the bytes the
    server has taken, these bytes are the data of the writes that returned true,
    in order, and [d_writeOffset] is their number; no call throws before a
    commit has returned true, and every call throws afterwards; a commit that
    returned true was confirmed by the server with that number of bytes. *)
Theorem log_stream_requests {W : Type} (env : LogEnv W) (name : str) (limit delay : Z)
    (ops : list op) (w : W) :
  zlen (concat (map op_data ops)) < 2 ^ 63 ->
  let '(rs, (self, (_, log))) :=
    run_ops (logged env) ops (LogStreamWriter_new name limit delay, (w, [])) in
  log_ok name log /\ accepted log = acknowledged rs /\
  d_writeOffset self = zlen (accepted log) /\ closed_after_commit rs /\
  (committed_by rs -> d_writeResponse self = zlen (accepted log)).
Proof.
  intros Hd. pose proof (run_ops_open env name ops
    (LogStreamWriter_new name limit delay, (w, []))) as H.
  destruct (run_ops _ _ _) as [rs [self [w' log]]].
  destruct H as ([_ H1 H2 _] & Ha & Hc & Hr).
  - split; cbn; [done|constructor|done|]. unfold u32. apply Z.mod_pos_bound. lia.
  - done.
  - exact Hd.
  - split; [exact H1|]. split; [exact Ha|]. split; [exact H2|]. split; [exact Hc|exact Hr].
Qed.

(** ** A server for examples

    It is unavailable for a number of queries, takes every request, and counts
    the bytes.  A context that was used before makes a call fail. *)
Definition toy_log_env : LogEnv (nat * Z) :=
  MkLogEnv _
    (fun used _ '(k, n) => if (used : bool) then (status_of INTERNAL, (k, n))
                           else match k with
                                | O => (status_of OK, (O, n))
                                | S k => (status_of UNAVAILABLE, (k, n))
                                end)
    (fun w => w)
    (fun r '(k, n) => (true, (k, n + zlen (wr_data r))))
    (fun w => w)
    (fun '(k, n) => (status_of OK, n, (k, n)))
    (fun used parent w => (status_of OK, parent ++ L "/logs/1", w))
    (fun _ => None).

Definition toy_ops : list op :=
  [OpWrite (L "x"); OpWrite (L "ab"); OpWrite (L "cde"); OpCommit; OpWrite (L "f")].

Lemma log_stream_requests_witness :
  let '(rs, (self, (_, log))) :=
    run_ops (logged toy_log_env) toy_ops (LogStreamWriter_new (L "s") 2 100, ((1%nat, 0), [])) in
  accepted log = acknowledged rs /\ acknowledged rs = L "abcde" /\ committed_by rs.
Proof.
  assert (H := log_stream_requests toy_log_env (L "s") 2 100 toy_ops (1%nat, 0)
    ltac:(vm_compute; reflexivity)).
  destruct (run_ops _ _ _) as [rs [self [w log]]] eqn:E.
  assert (rs = [(OpWrite (L "x"), Ok false); (OpWrite (L "ab"), Ok true);
                (OpWrite (L "cde"), Ok true); (OpCommit, Ok true);
                (OpWrite (L "f"), Throw RuntimeError)]) as ->
    by (vm_compute in E; injection E as <- _ _ _; reflexivity).
  split; [apply H|]. split; [reflexivity|]. right. right. right. left. split; reflexivity.
Defined.

(** ** A writer gets through *)

(** A server that is unavailable for the next [avail w] queries about a stream,
    then answers, and takes what is written.  Nothing is said of what a query over
    a used context answers, but that it does not put the server off. *)
Class EventuallyAvailable {W : Type} (env : LogEnv W) (name : str) (avail : W -> nat) := {
  ea_query w :
    match avail w with
    | O => exists w', stub_QueryWriteStatus env false name w = (status_of OK, w') /\ avail w' = O
    | S n => exists w', stub_QueryWriteStatus env false name w = (status_of UNAVAILABLE, w') /\
               avail w' = n
    end;
  ea_reused w : (avail (snd (stub_QueryWriteStatus env true name w)) <= avail w)%nat;
  ea_write r w : fst (stream_Write env r w) = true;
}.

Section liveness.
Context {W : Type} (env : LogEnv W) (name : str) (avail : W -> nat).
Context {law : EventuallyAvailable env name avail}.
Abbreviation St := (LogStreamWriter * W)%type.

(** A writer that was not committed and whose resource is not known to be ready. *)
Definition waiting (self : LogStreamWriter) : Prop :=
  d_resourceName self = name /\ d_writeCommitted self = false /\
  d_resourceReady self = false /\ 0 <= lsw_grpcRetryLimit self.

(** One query, which may be repeated over the used context: it says that the stream
    is ready, or the server is unavailable for fewer queries than before. *)
Lemma query_result self w :
  waiting self -> exists b w', queryStreamWriteStatus env (self, w) = (Ok b, (self, w')) /\
    (b = false -> (avail w' < avail w)%nat).
Proof.
  intros (Hn & _ & _ & Hl). unfold queryStreamWriteStatus, mbind_M, lget, with_context.
  cbn [fst]. rewrite Hn. set (inv := queryWriteStatusLambda _ _).
  assert (forall s, exists st s', inv s = (Ok st, s')) as Hnt.
  { intros [[self' w'] used]. unfold inv, queryWriteStatusLambda.
    destruct (stub_QueryWriteStatus env used name w'). by eexists _, _. }
  destruct (issued_ok_cases env (lsw_grpcRetryLimit self) (lsw_grpcRetryDelay self) inv
              ((self, w), false) Hl Hnt) as (s0 & st & [[self' w'] used] & -> & Hc & E).
  set (P := fun s0 : St * bool => fst (fst s0) = self /\
    (s0 = ((self, w), false) \/ (snd s0 = true) /\ (avail (snd (fst s0)) < avail w)%nat)).
  assert (forall s1 st1 s2, P s1 -> inv s1 = (Ok st1, s2) -> ok st1 = false ->
    fst (fst s2) = self /\ (snd s2 = true) /\ (avail (snd (fst s2)) < avail w)%nat) as Hstep.
  { intros [[self1 w1] used1] st1 s2 [Hself H1] E1 Hok. cbn in Hself. subst self1.
    unfold inv, queryWriteStatusLambda in E1.
    destruct (stub_QueryWriteStatus env used1 name w1) as [st2 w2] eqn:Eq. injection E1 as -> <-.
    split; [done|]. split; [done|]. cbn. destruct H1 as [[= -> ->]|[Hu H1]].
    - pose proof (ea_query w) as Hq. rewrite Eq in Hq.
      destruct (avail w) as [|n]; destruct Hq as (w3 & [= -> ->] & Hw); [done|lia].
    - cbn in Hu, H1. subst used1. pose proof (ea_reused w1) as Hq. rewrite Eq in Hq. cbn in Hq. lia. }
  assert (P s0) as H0.
  { apply (failed_calls_keep _ P) in Hc; [done|split; [done|by left]|].
    intros s1 st1 s2 H1 E1 Hok. destruct (Hstep _ _ _ H1 E1 Hok) as (? & ? & ?). split; [done|by right]. }
  exists (ok st), w'. assert (self' = self) as ->.
  { destruct s0 as [[self0 w0] used0]. destruct H0 as [Hs _]. cbn in Hs. subst self0.
    unfold inv, queryWriteStatusLambda in E. by destruct (stub_QueryWriteStatus _ _ _ _); injection E. }
  split; [done|]. intros Hok. by destruct (Hstep _ _ _ H0 E Hok) as (_ & _ & Hw).
Qed.

(** Without retries, there is one query, over a new context. *)
Lemma query_once self w :
  waiting self -> lsw_grpcRetryLimit self = 0 ->
  exists w', queryStreamWriteStatus env (self, w) = (Ok (avail w =? 0)%nat, (self, w')) /\
    avail w' = (avail w - 1)%nat.
Proof.
  intros (Hn & _ & _ & _) Hl. unfold queryStreamWriteStatus, mbind_M, lget, with_context.
  cbn [fst]. rewrite Hn, Hl. set (inv := queryWriteStatusLambda _ _).
  pose proof (ea_query w) as Hq. destruct (avail w) as [|n]; destruct Hq as (w' & E & Ea);
    exists w'; (split; [|lia]);
    assert (inv ((self, w), false) = (Ok (status_of _), ((self, w'), true))) as Ei
      by (unfold inv, queryWriteStatusLambda; rewrite E; reflexivity).
  - by rewrite (issued_ok_outcome env 0 _ inv _ _ _ _ _ ltac:(done)
                  (outcome_final _ _ _ _ _ _ Ei eq_refl)).
  - assert (final {[UNAVAILABLE]} (status_of UNAVAILABLE) = false) as Hf.
    { unfold final. rewrite bool_decide_true; [done|]. by apply elem_of_singleton. }
    by rewrite (issued_ok_outcome env 0 _ inv _ _ _ _ _ ltac:(done)
                  (outcome_exhausted _ _ _ _ _ Ei Hf)).
Qed.

Lemma writeLambda_taken r s :
  exists s', writeLambda env r s = (Ok (status_of OK), s').
Proof.
  destruct s as [self w]. unfold writeLambda, stream_write, bytestreamWriter, mbind_M, lget,
    lset, world, mret. cbn [fst].
  destruct (d_bytestreamWriter self).
  - pose proof (ea_write r w) as H. destruct (stream_Write env r w) as [b w']. cbn in H.
    subst b. by eexists.
  - pose proof (ea_write r (stub_OpenWrite env w)) as H.
    destruct (stream_Write env r _) as [b w']. cbn in H. subst b. by eexists.
Qed.

Lemma write_ready_taken data s :
  0 <= lsw_grpcRetryLimit (fst s) -> exists s', write_ready env data s = (Ok true, s').
Proof.
  intros Hl. unfold write_ready, mbind_M at 1, lget.
  set (r := MkWriteRequest _ _ _ _). destruct (writeLambda_taken r s) as [s1 E].
  unfold mbind_M at 1. erewrite issued_ok_outcome; [|done|by eapply outcome_final].
  cbn [andb ok status_of error_code]. change (OK =? OK) with true.
  destruct s1 as [self w]. unfold mbind_M, lset, mret. by eexists.
Qed.

(** The caller tries again until a write succeeds. *)
Inductive tries (data : str) : nat -> St -> St -> Prop :=
  | tries_now s s' : write env data s = (Ok true, s') -> tries data 1 s s'
  | tries_again n s s1 s' :
      write env data s = (Ok false, s1) -> tries data n s1 s' -> tries data (S n) s s'.

(** A call of [write] does what the query says. *)
Lemma write_after_query self w b w' data :
  waiting self -> queryStreamWriteStatus env (self, w) = (Ok b, (self, w')) ->
  if b then exists s', write env data (self, w) = (Ok true, s')
  else write env data (self, w) = (Ok false, (set_ready false self, w')).
Proof.
  intros (Hn & Hc & Hr & Hl) Eq.
  assert (write env data (self, w)
    = if b then write_ready env data (set_ready b self, w')
      else (Ok false, (set_ready b self, w'))) as E.
  { unfold write, mbind_M, lget. cbn [fst]. rewrite Hc, Hr, Eq. by destruct b. }
  destruct b; rewrite E; [by apply write_ready_taken|done].
Qed.

Lemma write_tries self w data :
  waiting self -> exists n s', (n <= S (avail w))%nat /\
    (lsw_grpcRetryLimit self = 0 -> n = S (avail w)) /\ tries data n (self, w) s'.
Proof.
  remember (avail w) as k eqn:Ek. revert self w Ek.
  induction k as [k IH] using lt_wf_ind. intros self w -> Hw.
  destruct (query_result self w Hw) as (b & w1 & Eq & Ha).
  pose proof (write_after_query self w b w1 data Hw Eq) as Ht.
  assert (lsw_grpcRetryLimit self = 0 -> b = (avail w =? 0)%nat /\ avail w1 = (avail w - 1)%nat) as Hone.
  { intros Hl. destruct (query_once self w Hw Hl) as (w2 & Eq2 & Ha2).
    rewrite Eq in Eq2. by injection Eq2 as -> ->. }
  destruct b.
  - destruct Ht as [s' E]. exists 1%nat, s'. split; [lia|]. split; [|by apply tries_now].
    intros Hl. destruct (Hone Hl) as [Hb _]. symmetry in Hb. b2p. lia.
  - specialize (Ha eq_refl).
    destruct (IH (avail w1) Ha (set_ready false self) w1 eq_refl) as (n & s' & Hn & Hx & Htr).
    { destruct Hw as (Hn & Hc & Hr & Hl). done. }
    exists (S n), s'. split; [lia|]. split; [|by eapply tries_again].
    intros Hl. destruct (Hone Hl) as [_ Hw1]. rewrite (Hx Hl). lia.
Qed.
End liveness.

(** C24. A write gets through: if the server is unavailable for the next [avail w]
    queries about the stream, then answers, and takes what is written, a caller
    who repeats [write] has a success after [avail w] failed calls at most, and
    after exactly so many when the retry limit is 0.  Each call makes one query
    over a new context; the retries within a call use that context again, which
    gRPC does not allow, and nothing is assumed of what they answer (only that they
    do not keep the server unavailable for longer): so a retry limit may not help. *)
Theorem write_eventually_succeeds {W : Type} (env : LogEnv W) (name data : str)
    (avail : W -> nat) {law : EventuallyAvailable env name avail} (limit delay : Z) (w : W) :
  exists n s', (n <= S (avail w))%nat /\ (u32 limit = 0 -> n = S (avail w)) /\
    tries env data n (LogStreamWriter_new name limit delay, w) s'.
Proof.
  apply (write_tries env name avail (LogStreamWriter_new name limit delay)).
  split; [done|]. split; [done|]. split; [done|]. unfold u32. cbn.
  apply Z.mod_pos_bound. lia.
Qed.

#[global] Instance toy_log_available :
  EventuallyAvailable toy_log_env (L "s") fst.
Proof.
  split; [| |by intros r [k n]].
  - intros [[|k] n]; cbn; by eexists.
  - by intros [k n].
Qed.

Lemma write_eventually_succeeds_witness :
  exists n s', (n <= 5)%nat /\ (u32 0 = 0 -> n = 5%nat) /\
    tries toy_log_env (L "ab") n (LogStreamWriter_new (L "s") 0 100, (4%nat, 0)) s'.
Proof.
  exact (write_eventually_succeeds toy_log_env (L "s") (L "ab") fst 0 100 (4%nat, 0)).
Defined.

(** With a used context failing, retries within a call are of no use: as many calls
    fail with a limit of 3 as with none. *)
Example retries_do_not_help :
  map snd (fst (run_ops toy_log_env (repeat (OpWrite (L "ab")) 5)
                  (LogStreamWriter_new (L "s") 3 100, (4%nat, 0))))
  = [Ok false; Ok false; Ok false; Ok false; Ok true].
Proof. vm_compute. reflexivity. Qed.
