(* ===== verification/ClientUpload.v ===== *)
(** * The CAS client: uploading a directory

    [buildboxcommon_client.cpp], third part: [uploadDirectory], which walks a
    directory with [make_nesteddirectory], asks the server what it misses and
    uploads that; and the [init] that takes the options of a connection. *)

From S2P Require Import Prelude StdMap Digest TimeUtils Grpc Undefined Merklize Client ClientBlobs Cstring Paths ConnectionOptions LogStream.
Open Scope Z_scope.

(** The map of [uploadDirectory], whose entries are visited. *)
#[export] Instance entries_digest_map : DigestMap entries :=
  fun digest blob m => um_set m digest blob.

Section upload_directory.
Context {W : Type} (env : CasEnv W) `{DigestFunction} `{StdSort}.
(** Protobuf's. *)
Context (MicrosecondsToTimestamp : Z -> Timestamp) (SerializeAsString : Directory -> str).
(** What [openat], [readdir], [fstatat] and the hash of each file find below a
    path. *)
Context (sys_directory : str -> W -> option Z * list (str * fs_entry)).
(** The order in which a loop visits an unordered map. *)
Context (um_order : entries -> entries).

(** The two out parameters; [None] for one that was not written. *)
Record UploadOutputs := MkUploadOutputs {
  root_directory_digest : option Digest;
  uploaded_tree : option Tree;
}.

(** The loop over the entries that are missing: what parses as a [Directory] is
    taken to be one, anything else to be the path of a file. *)
Fixpoint missing_upload_requests (directory_map : entries) : M W (list UploadRequest) :=
  match directory_map with
  | [] => mret []
  | (digest, value) :: directory_map =>
      let* request :=
        match ParseDirectory env value with
        | Some _ => mret (MkUploadRequest digest value [])
        | None =>
            let* file_contents := getFileContents env value in
            mret (MkUploadRequest digest file_contents [])
        end in
      let* upload_requests := missing_upload_requests directory_map in
      mret (request :: upload_requests)
  end.

(** [make_nesteddirectory(path.c_str(), &directory_map)]. *)
Definition walk_directory (path : str) (w : W) : res (NestedDirectory * entries) :=
  let '(opens, content) := sys_directory path w in
  let! (nested_dir, directory_map) :=
    make_nesteddirectory_plain false path opens content (Some []) in
  Ok (nested_dir, match directory_map with Some m => m | None => [] end).

(** [wants_digest] and [wants_tree] tell whether the pointers are not null. *)
Definition uploadDirectory (self : Client) (path : str) (wants_digest wants_tree : bool)
  : M (W * UploadOutputs) (list UploadResult) :=
  let* (w, _) := mget in
  let* (nested_dir, directory_map) := mlift (walk_directory path w) in
  let (directory_digest, directory_map) :=
    to_digest MicrosecondsToTimestamp SerializeAsString nested_dir (Some directory_map) in
  let* _ :=
    (if wants_digest then
       fun '(w, out) => (Ok tt, (w, MkUploadOutputs (Some directory_digest) (uploaded_tree out)))
     else mret tt) in
  let* directory_map :=
    on_world (missingDigests env self
                (um_order (match directory_map with Some m => m | None => [] end))) in
  let* upload_requests := on_world (missing_upload_requests (um_order directory_map)) in
  let* _ :=
    (if wants_tree then
       fun '(w, out) =>
         (Ok tt, (w, MkUploadOutputs (root_directory_digest out)
                       (Some (to_tree MicrosecondsToTimestamp SerializeAsString nested_dir))))
     else mret tt) in
  on_world (uploadBlobs_results env self upload_requests).
End upload_directory.

(** ** [init] with the options of a connection

    [channel] is what [createChannel] gives and [stubs] the stubs made from it. *)
Definition init_from_options {W Channel : Type} (createChannel : UM W Channel)
    (stubs : Channel -> Env W) (self : Client) (options : ConnectionOptions) (uuid : str)
  : UM W Client :=
  let+ channel := createChannel in
  let+ limit := stoi_option (d_retryLimit options) in
  let+ delay := stoi_option (d_retryDelay options) in
  let instance_name :=
    match ConnectionOptions.d_instanceName options with
    | Some name => c_str name
    | None => Client.d_instanceName self
    end in
  ulift (init (stubs channel)
           (MkClient instance_name (d_uuid self) limit delay (d_maxBatchTotalSizeBytes self))
           uuid).
