(* ===== verification/ClientUploadSpec.v ===== *)
(** * Properties of [uploadDirectory]

    The map of digests that a walk and [to_digest] fill has one entry per blob
    of the directory; what is uploaded are the entries that the server misses,
    each with the data of its digest. *)

From S2P Require Import Prelude StdMap Digest TimeUtils Grpc Merklize MerklizeSpec Client ClientSpec ClientBlobs ClientBlobsSpec ClientUpload.
Open Scope Z_scope.

(** ** Maps with one entry per digest *)

Definition keys (m : entries) : list (str * Z) := digest_key <$> m.*1.
Definition keys_distinct (m : entries) : Prop := NoDup (keys m).

Lemma digest_eqb_key a b : digest_eqb a b = bool_decide (digest_key a = digest_key b).
Proof.
  destruct (digest_eqb a b) eqn:E; symmetry.
  - apply bool_decide_eq_true. by apply digest_key_spec.
  - apply bool_decide_eq_false. intros K%digest_key_spec. unfold digest_equiv in K. congruence.
Qed.

Lemma um_set_keys m d v :
  keys (um_set m d v) =
  if decide (digest_key d ∈ keys m) then keys m else keys m ++ [digest_key d].
Proof.
  unfold keys. induction m as [|[d0 v0] m IH].
  - destruct (decide _) as [H|]; [by apply elem_of_nil in H|done].
  - cbn [um_set]. rewrite digest_eqb_key. cbn [fmap list_fmap fst].
    case_bool_decide as E.
    + rewrite decide_True; [done|]. rewrite E. by left.
    + cbn [fmap list_fmap fst]. rewrite IH.
      destruct (decide (digest_key d ∈ digest_key <$> m.*1)) as [H|H].
      * rewrite decide_True; [done|]. by right.
      * rewrite decide_False; [done|]. intros [H'|H']%elem_of_cons; [|done]. by apply E.
Qed.

Lemma um_set_distinct m d v : keys_distinct m -> keys_distinct (um_set m d v).
Proof.
  unfold keys_distinct. rewrite um_set_keys. destruct (decide _); [done|]. intros Hm.
  apply list.NoDup_app. split; [done|]. split; [|apply NoDup_singleton].
  by intros k Hk ->%list_elem_of_singleton.
Qed.

Lemma um_at_elem m d v :
  keys_distinct m ->
  um_at m d = Ok v <-> exists d', (d', v) ∈ m /\ digest_equiv d' d.
Proof.
  unfold keys_distinct, keys. induction m as [|[d0 v0] m IH]; intros Hm.
  - cbn. split; [done|]. by intros (d' & H%elem_of_nil & _).
  - cbn [fmap list_fmap fst] in Hm. apply list.NoDup_cons in Hm as [Hd Hm].
    cbn [um_at]. rewrite digest_eqb_key. case_bool_decide as E.
    + split.
      * intros [= ->]. exists d0. split; [by left|]. by apply digest_key_spec.
      * intros (d' & H%elem_of_cons & K%digest_key_spec). destruct H as [[= -> ->]|H]; [done|].
        exfalso. apply Hd. rewrite E, <- K. apply list_elem_of_fmap_2.
        by apply (list_elem_of_fmap_2 fst m (d', v)).
    + rewrite IH by done. split.
      * intros (d' & H & K). exists d'. split; [by right|done].
      * intros (d' & H%elem_of_cons & K). destruct H as [[= -> ->]|H]; [|by exists d'].
        by apply digest_key_spec in K.
Qed.

#[global] Instance keys_proper : Proper ((≡ₚ) ==> (≡ₚ)) keys.
Proof. intros m m' E. unfold keys. by rewrite E. Qed.

Lemma keys_distinct_perm m m' : m ≡ₚ m' -> keys_distinct m -> keys_distinct m'.
Proof. unfold keys_distinct. by intros ->. Qed.

(** The order of the entries does not matter to a lookup. *)
Lemma um_at_perm m m' d : m ≡ₚ m' -> keys_distinct m -> um_at m d = um_at m' d.
Proof.
  intros E Hm. pose proof (keys_distinct_perm _ _ E Hm) as Hm'.
  assert (forall v, um_at m d = Ok v <-> um_at m' d = Ok v) as H.
  { intros v. rewrite !um_at_elem by done. by setoid_rewrite E. }
  destruct (um_at m d) as [v|e] eqn:E1; [symmetry; by apply H|].
  destruct (um_at m' d) as [v|e'] eqn:E2; [by discriminate (proj2 (H v) eq_refl)|].
  assert (forall m e, um_at m d = Throw e -> e = OutOfRange) as Ho.
  { clear. intros m e. induction m as [|[d0 v0] m IH]; cbn [um_at]; [by intros [= <-]|].
    by destruct (digest_eqb d0 d). }
  by rewrite (Ho _ _ E1), (Ho _ _ E2).
Qed.

Lemma um_at_is_ok m d : is_ok (um_at m d) = bool_decide (digest_key d ∈ keys m).
Proof.
  unfold keys. induction m as [|[d0 v0] m IH]; cbn [um_at fmap list_fmap fst].
  - symmetry. apply bool_decide_eq_false. by intros ?%elem_of_nil.
  - rewrite digest_eqb_key. destruct (decide (digest_key d0 = digest_key d)) as [E|E].
    + rewrite (bool_decide_true _ E). symmetry. apply bool_decide_eq_true. rewrite E. by left.
    + rewrite (bool_decide_false _ E), IH. apply bool_decide_ext. rewrite elem_of_cons. naive_solver.
Qed.

(** ** The blobs of a directory *)

Section blobs.
Context {W : Type} (env : CasEnv W) `{DigestFunction}.
Context (us : Z -> Timestamp) (ser : Directory -> str).

(** The path of a file that has (and keeps) contents with this digest. *)
Definition file_path_of (d : Digest) (path : str) : Prop :=
  ParseDirectory env path = None /\
  forall w, exists contents w',
    sys_load env path w = (Some contents, w') /\ digest_equiv d (digest_of contents).

(** What stands for a blob in the map: a serialized directory or such a path. *)
Definition entry_ok (e : Digest * str) : Prop :=
  (is_Some (ParseDirectory env e.2) /\ digest_equiv e.1 (digest_of e.2)) \/
  file_path_of e.1 e.2.

#[global] Instance file_path_of_proper :
  Proper (digest_equiv ==> eq ==> iff) file_path_of.
Proof.
  intros d d' E p p' <-. unfold file_path_of. split; intros [Hp Hw]; (split; [done|]);
    intros w; destruct (Hw w) as (c & w' & Hc & Hd); exists c, w'; (split; [done|]).
  - by rewrite <- E.
  - by rewrite E.
Qed.

Lemma entry_ok_equiv d d' v : digest_equiv d d' -> entry_ok (d, v) -> entry_ok (d', v).
Proof.
  intros E [[Hp Hd]|Hf]; cbn in *.
  - left. split; [done|]. by rewrite <- E.
  - right. cbn. by rewrite <- E.
Qed.

Lemma um_set_entries_ok m d v :
  Forall entry_ok m -> entry_ok (d, v) -> Forall entry_ok (um_set m d v).
Proof.
  intros Hm Hd. induction Hm as [|[d0 v0] m H0 Hm IH]; cbn [um_set].
  - by apply Forall_singleton.
  - destruct (digest_eqb d0 d) eqn:E; constructor; try done.
    apply (entry_ok_equiv d); [|done]. symmetry. exact E.
Qed.

(** A lookup finds what stands for the blob that was asked for. *)
Lemma um_at_entry_ok m d v : Forall entry_ok m -> um_at m d = Ok v -> entry_ok (d, v).
Proof.
  intros Hm. induction Hm as [|[d0 v0] m H0 Hm IH]; cbn [um_at]; [done|].
  destruct (digest_eqb d0 d) eqn:E; [|done]. intros [= <-]. by apply (entry_ok_equiv d0).
Qed.

Lemma foldl_set_entry_entries (Hser : forall msg, is_Some (ParseDirectory env (ser msg)))
    ds (m : entries) :
  Forall entry_ok m -> keys_distinct m ->
  exists m' : entries, foldl (set_entry us ser) (Some m) ds = Some m' /\
    Forall entry_ok m' /\ keys_distinct m' /\
    (forall k, k ∈ keys m' <->
       k ∈ keys m \/ exists d, d ∈ ds /\ k = digest_key (make_digest ser (dir_message us ser d))).
Proof.
  revert m. induction ds as [|d ds IH]; intros m Hm Hk.
  - exists m. split; [done|]. split; [done|]. split; [done|]. intros k. split; [by left|].
    intros [?|(d & Hd%elem_of_nil & _)]; done.
  - cbn [foldl]. unfold set_entry at 2, digest_map_set, dm_set, entries_digest_map.
    set (msg := dir_message us ser d).
    destruct (IH (um_set m (make_digest ser msg) (ser msg))) as (m' & E & Hok & Hd & Hkeys).
    { apply um_set_entries_ok; [done|]. left. split; [apply Hser|done]. }
    { by apply um_set_distinct. }
    exists m'. split; [done|]. split; [done|]. split; [done|]. intros k.
    rewrite Hkeys, um_set_keys. setoid_rewrite elem_of_cons.
    destruct (decide (digest_key (make_digest ser msg) ∈ keys m)) as [Hin|Hin];
      rewrite ?elem_of_app, ?list_elem_of_singleton; naive_solver.
Qed.

(** The map in which [uploadDirectory] looks up what is missing. *)
Definition blobs_of (nested_dir : NestedDirectory) (files : entries) : entries :=
  match (to_digest us ser nested_dir (Some files)).2 with Some m => m | None => [] end.

Lemma blobs_of_ok (Hser : forall msg, is_Some (ParseDirectory env (ser msg)))
    nested_dir (files : entries) :
  Forall entry_ok files -> keys_distinct files ->
  let m := blobs_of nested_dir files in
  (to_digest us ser nested_dir (Some files)).2 = Some m /\
  Forall entry_ok m /\ keys_distinct m /\
  (forall k, k ∈ keys m <->
     k ∈ keys files \/
     exists msg, msg ∈ children (to_tree us ser nested_dir) ++ [root (to_tree us ser nested_dir)]
       /\ k = digest_key (make_digest ser msg)).
Proof.
  intros Hf Hk m. rewrite to_tree_spec. cbn [root children].
  destruct (foldl_set_entry_entries Hser (descendants nested_dir ++ [nested_dir]) files Hf Hk)
    as (m' & E & Hok & Hd & Hkeys).
  assert (m = m') as -> by (unfold m, blobs_of; by rewrite to_digest_spec; cbn [snd]; rewrite E).
  split; [by rewrite to_digest_spec; cbn [snd]; rewrite E|]. split; [done|]. split; [done|]. intros k. rewrite Hkeys.
  change [dir_message us ser nested_dir] with (map (dir_message us ser) [nested_dir]).
  rewrite <- map_app. setoid_rewrite list_elem_of_fmap. naive_solver.
Qed.
End blobs.

(** ** The walk keeps what every assignment to its file map keeps *)

Section walk_keeps.
Context {M : Type} `{DigestMap M} (P : M -> Prop).
Context (Hset : forall d b m, P m -> P (dm_set d b m)).
Context (props : list str) (follow : bool).

Definition kept (r : res (NestedDirectory * option M)) : Prop :=
  forall d fm, r = Ok (d, fm) -> exists m, fm = Some m /\ P m.

Lemma readdir_loop_keeps es :
  Forall (fun p => forall prefix name result m, P m ->
    kept (visit_entry props follow prefix p.2 name result (Some m))) es ->
  forall prefix result m, P m ->
  kept (readdir_loop (visit_entry props follow prefix) es result (Some m)).
Proof.
  induction 1 as [|[name e] es He Hes IH]; intros prefix result m Hm.
  - intros d fm [= <- <-]. by exists m.
  - cbn [readdir_loop]. destruct (decide _); [by apply IH|].
    specialize (He prefix name result m Hm). cbn in He.
    destruct (visit_entry _ _ _ _ _ _ _) as [[r fm]|x]; [|intros ? ? [=]].
    destruct (He r fm eq_refl) as (m' & -> & Hm'). cbn [res_bind]. by apply IH.
Qed.

Lemma visit_entry_keeps e :
  forall prefix name result m, P m ->
  kept (visit_entry props follow prefix e name result (Some m)).
Proof.
  induction e as [o es IH|f|r e IH| |] using fs_ind; intros prefix name result m Hm;
    cbn [visit_entry].
  - destruct o; [intros ? ? [=]|].
    pose proof (readdir_loop_keeps es IH (prefix ++ name ++ L "/") NestedDirectory_new m Hm) as Hk.
    destruct (readdir_loop _ _ _ _) as [[r fm]|x]; [|intros ? ? [=]].
    destruct (Hk r fm eq_refl) as (m' & -> & Hm'). intros ? ? [= <- <-]. by exists m'.
  - destruct (File_new f props); [|intros ? ? [=]]. intros ? ? [= <- <-].
    eexists. split; [reflexivity|]. by apply Hset.
  - destruct follow; [by apply IH|]. destruct r; [intros ? ? [=]|]. intros ? ? [= <- <-]. by exists m.
  - intros ? ? [= <- <-]. by exists m.
  - intros ? ? [= <- <-]. by exists m.
Qed.

Lemma make_nesteddirectory_keeps prefix path opens es m :
  P m -> kept (make_nesteddirectory props follow prefix path opens es (Some m)).
Proof.
  intros Hm. unfold make_nesteddirectory. destruct opens; [intros ? ? [=]|].
  apply readdir_loop_keeps; [|done]. apply Forall_forall. intros p _. apply visit_entry_keeps.
Qed.
End walk_keeps.

Lemma walk_distinct {W : Type} (sys_directory : str -> W -> option Z * list (str * fs_entry))
    path w nested_dir files :
  walk_directory sys_directory path w = Ok (nested_dir, files) -> keys_distinct files.
Proof.
  unfold walk_directory, make_nesteddirectory_plain, make_nesteddirectory_at.
  destruct (sys_directory path w) as [opens content].
  pose proof (make_nesteddirectory_keeps (M := entries) keys_distinct
    (fun d b m => um_set_distinct m d b) [] false [] path opens content []
    (base.NoDup_nil_2)) as Hk.
  destruct (make_nesteddirectory _ _ _ _ _ _ _) as [[d fm]|]; [|done].
  destruct (Hk d fm eq_refl) as (m & -> & Hm). by intros [= <- <-].
Qed.

(** ** What is uploaded *)

(** A request with data in memory that has the digest of the request. *)
Definition upload_ok `{DigestFunction} (r : UploadRequest) : Prop :=
  ur_path r = [] /\ digest_equiv (ur_digest r) (digest_of (ur_data r)).

Lemma upload_ok_consistent `{DigestFunction} r : upload_ok r -> consistent r.
Proof.
  intros [_ [_ Hs]%digest_eqb_spec] _. by rewrite Hs, digest_of_size.
Qed.

Section upload.
Context {W : Type} (env : CasEnv W) `{DigestFunction}.

Lemma collect_missing_ok m missing files files' :
  Forall (entry_ok env) m -> Forall (entry_ok env) files -> keys_distinct files ->
  collect_missing m missing files = Ok files' ->
  Forall (entry_ok env) files' /\ keys_distinct files'.
Proof.
  intros Hm. revert files. induction missing as [|d missing IH]; intros files Hf Hk.
  - by intros [= <-].
  - cbn [collect_missing]. destruct (um_at m d) as [v|] eqn:E; [|done]. apply IH.
    + apply um_set_entries_ok; [done|]. by apply (um_at_entry_ok env m).
    + by apply um_set_distinct.
Qed.

Lemma missing_upload_requests_ok m w :
  Forall (entry_ok env) m ->
  exists requests w', missing_upload_requests env m w = (Ok requests, w') /\
    Forall upload_ok requests /\ ur_digest <$> requests = m.*1.
Proof.
  intros Hm. revert w. induction Hm as [|[d v] m Hd Hm IH]; intros w.
  - by exists [], w.
  - cbn [missing_upload_requests].
    assert (exists data w1, digest_equiv d (digest_of data) /\
      match ParseDirectory env v with
      | Some _ => mret (MkUploadRequest d v [])
      | None => let* c := getFileContents env v in mret (MkUploadRequest d c [])
      end w = (Ok (MkUploadRequest d data []), w1)) as (data & w1 & Hdata & E).
    { destruct Hd as [[[msg Hp] Hd]|[Hp Hf]]; cbn in *.
      - exists v, w. by rewrite Hp.
      - destruct (Hf w) as (contents & w1 & Hl & Hd). exists contents, w1. split; [done|].
        rewrite Hp. unfold mbind_M, getFileContents. by rewrite Hl. }
    destruct (IH w1) as (requests & w2 & E2 & Hr & Hk).
    exists (MkUploadRequest d data [] :: requests), w2. split; [|split].
    + unfold mbind_M at 1. rewrite E. unfold mbind_M. by rewrite E2.
    + by constructor.
    + cbn. by rewrite Hk.
Qed.
End upload.

Lemma among_keys ds d : among ds d = bool_decide (digest_key d ∈ digest_key <$> ds).
Proof.
  unfold among. induction ds as [|d0 ds IH]; cbn.
  - symmetry. apply bool_decide_eq_false. by intros ?%elem_of_nil.
  - rewrite IH, digest_eqb_key. destruct (decide (digest_key d0 = digest_key d)) as [E|E].
    + rewrite (bool_decide_true _ E). symmetry. apply bool_decide_eq_true. rewrite E. by left.
    + rewrite (bool_decide_false _ E). apply bool_decide_ext. rewrite elem_of_cons. naive_solver.
Qed.

(** [missingDigests] of a map with one good entry per digest. *)
Lemma missingDigests_ok {W : Type} (env : CasEnv W) `{DigestFunction} (self : Client)
    (m : entries) (missing : list Digest) (w w1 : W) :
  Forall (entry_ok env) m ->
  findMissingBlobs env self m.*1 w = (Ok missing, w1) ->
  ((forall d, d ∈ missing -> digest_key d ∈ keys m) ->
   exists files, missingDigests env self m w = (Ok files, w1) /\
     Forall (entry_ok env) files /\ keys_distinct files /\
     (forall k, k ∈ keys files <-> k ∈ digest_key <$> missing)) /\
  (forall d, d ∈ missing -> digest_key d ∉ keys m ->
   missingDigests env self m w = (Throw OutOfRange, w1)).
Proof.
  intros Hm Hfind. unfold missingDigests, mbind_M. change (map fst m) with (m.*1).
  rewrite Hfind. unfold mlift. pose proof (collect_missing_spec m missing []) as Hc. split.
  - intros Hin. rewrite (proj2 (forallb_forall _ _)) in Hc.
    2: { intros d Hd. rewrite um_at_is_ok. apply bool_decide_eq_true, Hin. by apply list_elem_of_In. }
    destruct Hc as (files & E & Hf). rewrite E.
    destruct (collect_missing_ok env m missing [] files) as [Hok Hk]; try done.
    { constructor. }
    exists files. split; [done|]. split; [done|]. split; [done|]. intros k.
    assert (exists d, k = digest_key d) as [d ->]
      by (exists (MkDigest k.1 k.2 []); by destruct k).
    pose proof (f_equal is_ok (Hf d)) as Hd. rewrite um_at_is_ok, among_keys in Hd.
    destruct (decide (digest_key d ∈ digest_key <$> missing)) as [Hin'|Hin'].
    + rewrite (bool_decide_true _ Hin'), um_at_is_ok in Hd.
      rewrite (bool_decide_true (_ ∈ keys m)), bool_decide_eq_true in Hd; [done|].
      apply list_elem_of_fmap in Hin' as (d' & -> & Hd'). by apply Hin.
    + rewrite (bool_decide_false _ Hin') in Hd. by apply bool_decide_eq_false in Hd.
  - intros d Hd Hout. rewrite (not_true_is_false (forallb _ _)) in Hc; [by rewrite Hc|].
    intros Hall. rewrite forallb_forall in Hall. apply list_elem_of_In in Hd.
    specialize (Hall d Hd). by rewrite um_at_is_ok, bool_decide_eq_true in Hall.
Qed.

(** [uploadDirectory] after the walk. *)
Lemma uploadDirectory_after_walk {W : Type} (env : CasEnv W) `{DigestFunction} `{StdSort}
    us ser sys_directory um_order self path (wants_digest wants_tree : bool) w out
    nested_dir (files : entries) :
  walk_directory sys_directory path w = Ok (nested_dir, files) ->
  (forall msg, is_Some (ParseDirectory env (ser msg))) ->
  Forall (entry_ok env) files -> keys_distinct files ->
  let tree := to_tree us ser nested_dir in
  uploadDirectory env us ser sys_directory um_order self path wants_digest wants_tree (w, out) =
  (let* directory_map :=
     on_world (missingDigests env self (um_order (blobs_of us ser nested_dir files))) in
   let* upload_requests := on_world (missing_upload_requests env (um_order directory_map)) in
   let* _ :=
     (if wants_tree then fun '(w, out) =>
        (Ok tt, (w, MkUploadOutputs (root_directory_digest out) (Some tree)))
      else mret tt) in
   on_world (uploadBlobs env self upload_requests false))
    (w, MkUploadOutputs
          (if wants_digest then Some (make_digest ser (root tree)) else root_directory_digest out)
          (uploaded_tree out)).
Proof.
  intros Hwalk Hser Hok Hk tree.
  destruct (blobs_of_ok env us ser Hser nested_dir files Hok Hk) as (E2 & _).
  assert (to_digest us ser nested_dir (Some files) =
    (make_digest ser (root tree), Some (blobs_of us ser nested_dir files))) as Ed.
  { rewrite (surjective_pairing (to_digest _ _ _ _)), E2.
    unfold tree. by rewrite to_digest_spec, to_tree_spec. }
  unfold uploadDirectory, mget, mbind_M at 1 2, mlift. rewrite Hwalk, Ed.
  by destruct wants_digest, out.
Qed.

(** C11. [uploadDirectory] uploads what the server misses of the directory, and
    nothing else: the digest map it looks up has one entry for every file and
    every directory message of the tree; when the server names only digests of
    that map, there is exactly one request for each of them, with data in memory
    that has this digest, and the call returns what [uploadBlobs] of these
    requests reports, the digest and the tree of the directory having been
    written; otherwise it throws.  This holds for every server, as long as the
    files keep their contents, a serialized directory parses and the path of a
    file does not. *)
Theorem uploadDirectory_uploads {W : Type} (env : CasEnv W) (H : DigestFunction)
    (S : StdSort) (us : Z -> Timestamp) (ser : Directory -> str)
    (sys_directory : str -> W -> option Z * list (str * fs_entry))
    (um_order : entries -> entries) (self : Client) (path : str)
    (wants_digest wants_tree : bool) (w w1 : W) (out : UploadOutputs)
    (nested_dir : NestedDirectory) (files : entries) (missing : list Digest)
    (Horder : forall m, um_order m ≡ₚ m)
    (Hwalk : walk_directory sys_directory path w = Ok (nested_dir, files))
    (Hfiles : Forall (fun e => file_path_of env e.1 e.2) files)
    (Hser : forall msg, is_Some (ParseDirectory env (ser msg)))
    (Hmissing : findMissingBlobs env self
       (um_order (blobs_of us ser nested_dir files)).*1 w = (Ok missing, w1)) :
  let tree := to_tree us ser nested_dir in
  let blobs := keys (blobs_of us ser nested_dir files) in
  let run := uploadDirectory env us ser sys_directory um_order self path
               wants_digest wants_tree (w, out) in
  let digest_out := if wants_digest then Some (make_digest ser (root tree))
                    else root_directory_digest out in
  (forall k, k ∈ blobs <-> k ∈ keys files \/
     exists msg, msg ∈ children tree ++ [root tree] /\ k = digest_key (make_digest ser msg)) /\
  ((forall d, d ∈ missing -> digest_key d ∈ blobs) ->
   exists requests w2 results w3,
     Forall upload_ok requests /\ NoDup (digest_key <$> (ur_digest <$> requests)) /\
     (forall d, digest_key d ∈ digest_key <$> (ur_digest <$> requests) <->
                digest_key d ∈ digest_key <$> missing) /\
     uploadBlobs env self requests false w2 = (Ok results, w3) /\
     run = (Ok results, (w3, MkUploadOutputs digest_out
              (if wants_tree then Some tree else uploaded_tree out)))) /\
  (forall d, d ∈ missing -> digest_key d ∉ blobs ->
   run = (Throw OutOfRange, (w1, MkUploadOutputs digest_out (uploaded_tree out)))).
Proof.
  intros tree blobs run digest_out.
  pose proof (walk_distinct _ _ _ _ _ Hwalk) as Hdistinct.
  assert (Forall (entry_ok env) files) as Hok0
    by (eapply Forall_impl; [|exact Hfiles]; by right).
  destruct (blobs_of_ok env us ser Hser nested_dir files Hok0 Hdistinct) as (E2 & Hok & Hk & Hkeys).
  set (m := blobs_of us ser nested_dir files) in *.
  assert (Permutation (keys (um_order m)) blobs) as Hperm by (by rewrite Horder).
  assert (Forall (entry_ok env) (um_order m)) as Hok' by (by rewrite Horder).
  destruct (missingDigests_ok env self (um_order m) missing w w1 Hok' Hmissing) as [Hin Hout].
  assert (run = _) as -> by
    (apply (uploadDirectory_after_walk env us ser sys_directory um_order self path wants_digest
       wants_tree w out nested_dir files Hwalk Hser Hok0 Hdistinct)).
  fold m tree digest_out.
  split; [done|]. split.
  - intros Hall. destruct Hin as (dm & Em & Hdm & Hdk & Hdkeys).
    { intros d Hd. rewrite Hperm. by apply Hall. }
    destruct (missing_upload_requests_ok env (um_order dm) w1) as (requests & w2 & Er & Hr & Hrk);
      [by rewrite Horder|].
    assert (Forall consistent requests) as Hcons.
    { eapply Forall_impl; [|exact Hr]. apply upload_ok_consistent. }
    destruct (uploadBlobs_never env self requests Hcons w2) as (results & w3 & Eu).
    assert (digest_key <$> (ur_digest <$> requests) ≡ₚ keys dm) as Hrkeys
      by (by rewrite Hrk; fold (keys (um_order dm)); rewrite Horder).
    exists requests, w2, results, w3. split; [done|]. split; [by rewrite Hrkeys|].
    split; [intros d; by rewrite Hrkeys|]. split; [done|].
    unfold mbind_M at 1, on_world at 1. rewrite Em.
    unfold mbind_M at 1, on_world at 1. rewrite Er.
    destruct wants_tree; unfold mbind_M, mret, on_world; by rewrite Eu.
  - intros d Hd Hd'. unfold mbind_M at 1, on_world at 1.
    by rewrite (Hout d Hd); [|rewrite Hperm].
Qed.

(** ** Examples *)

(** [env], with a disk. *)
Definition with_disk {W : Type} (env : CasEnv W) (load : str -> option str) : CasEnv W :=
  {| cas_env := cas_env env;
     stub_BatchUpdateBlobs := stub_BatchUpdateBlobs env;
     stub_BatchReadBlobs := stub_BatchReadBlobs env;
     stub_FindMissingBlobs := stub_FindMissingBlobs env;
     stub_GetTree := stub_GetTree env;
     stub_FetchTree := stub_FetchTree env;
     stub_CaptureTree := stub_CaptureTree env;
     stub_CaptureFiles := stub_CaptureFiles env;
     stub_StageTree := stub_StageTree env;
     stage_Write := stage_Write env;
     stage_Read := stage_Read env;
     stage_WritesDone := stage_WritesDone env;
     stage_Finish := stage_Finish env;
     sys_open := sys_open env;
     sys_load := fun path w => (load path, w);
     sys_create := sys_create env;
     fs_put := fs_put env;
     sys_store := sys_store env;
     sys_mkdir := sys_mkdir env;
     sys_symlink := sys_symlink env;
     ByteSizeLong := ByteSizeLong env;
     ParseDirectory := ParseDirectory env |}.

(** Every path starts with a slash, and no serialized directory does. *)
Definition toy_upload_ser (m : Directory) : str := L "D" ++ toy_ser m.
Definition toy_parse (s : str) : option Directory :=
  match s with
  | c :: _ => if ascii_dec c "/"%char then None else Some empty_Directory
  | [] => Some empty_Directory
  end.

Definition toy_upload_env : CasEnv (list op) :=
  with_disk (toy_cas_env toy_parse) (fun _ => Some (L "abc")).

Definition toy_upload_disk (path : str) (w : list op) : option Z * list (str * fs_entry) :=
  let f := FsReg (MkFileOnDisk None false (Ok (toy_digest_of (L "abc"))) 0) in
  (None, [(L "f", f); (L "sub", FsDir None [(L "g", f)])]).

Lemma uploadDirectory_uploads_witness :
  exists results out,
    uploadDirectory (H := toy_digests) toy_upload_env toy_us toy_upload_ser toy_upload_disk
      (fun m => m) toy_limits (L "/d") true false ([], MkUploadOutputs None None)
    = (Ok results, out) /\ is_Some (root_directory_digest out.2).
Proof.
  set (r := walk_directory toy_upload_disk (L "/d") []).
  destruct r as [[nd files]|] eqn:Er; [|vm_compute in Er; discriminate Er].
  set (missing := take 1 (blobs_of (H := toy_digests) toy_us toy_upload_ser nd files).*1).
  destruct (uploadDirectory_uploads toy_upload_env toy_digests toy_sort toy_us toy_upload_ser
    toy_upload_disk (fun m => m) toy_limits (L "/d") true false [] [] (MkUploadOutputs None None)
    nd files missing) as (_ & H2 & _).
  - intros m. reflexivity.
  - exact Er.
  - vm_compute in Er. injection Er as <- <-. apply Forall_singleton. split; [reflexivity|].
    intros w. exists (L "abc"), w. split; reflexivity.
  - intros msg. exists empty_Directory. reflexivity.
  - subst missing. vm_compute in Er. injection Er as <- <-. vm_compute. reflexivity.
  - destruct H2 as (requests & w2 & results & w3 & _ & _ & _ & _ & E).
    + intros d Hd. unfold keys. apply list_elem_of_fmap_2. revert Hd. subst missing.
      apply elem_of_subseteq, list.sublist_subseteq, list.sublist_take.
    + exists results. eexists. split; [exact E|]. cbn. by eexists.
Defined.

(** A path that happens to parse as a [Directory] is taken for one: the request
    for the file's digest carries the path as data, and the file is not read. *)
Lemma path_taken_for_directory {W : Type} (env : CasEnv W) (digest : Digest) (path : str)
    (directory : Directory) (m : entries) (w : W)
    (Hparse : ParseDirectory env path = Some directory) :
  missing_upload_requests env ((digest, path) :: m) w =
  (let* requests := missing_upload_requests env m in
   mret (MkUploadRequest digest path [] :: requests)) w.
Proof. cbn [missing_upload_requests]. by rewrite Hparse. Qed.
