(* ===== verification/CasServer.v ===== *)
(** * What the client needs of a CAS server

    The interface between the client and the Content Addressable Storage: the
    server is a map from digests to data, which no call of the client shrinks,
    and each call says something about the map.  Then what the uploads of the
    client do to that map, and what its downloads do when every blob they ask
    for is stored: they return, and every output is written with data of its
    digest. *)

From S2P Require Import Prelude StdMap Arrays Blake3Compress Digest TimeUtils Grpc Merklize MerklizeSpec Client ClientSpec ClientBlobs ClientBlobsSpec ClientUploadSpec.
Open Scope Z_scope.

(** What is stored, by what [operator==] on digests compares. *)
Abbreviation blob_map := (gmap (str * Z) str).

(** ** The interface

    Each law is what the Remote Execution API says of a call, whatever status
    the call ends with. *)
Class CasServer {W : Type} (env : CasEnv W) `{DigestFunction} (self : Client) := {
  stored : W -> blob_map;
  (** A server checks what it stores. *)
  stored_valid w k data :
    stored w !! k = Some data -> digest_key (digest_of data) = k;
  (** The digests named are some of those asked about, and the others are
      there. *)
  find_missing_law digests w status response w' :
    stub_FindMissingBlobs env (d_instanceName self) digests w = (status, response, w') ->
    stored w ⊆ stored w' /\
    (ok status = true ->
     forall d, digest_key d ∈ digest_key <$> digests ->
       digest_key d ∈ digest_key <$> response \/ is_Some (stored w' !! digest_key d)) /\
    (ok status = true ->
     forall d, d ∈ response -> digest_key d ∈ digest_key <$> digests);
  (** There is a response for every blob, and one that says OK is true. *)
  batch_update_law blobs w status response w' :
    stub_BatchUpdateBlobs env (d_instanceName self) blobs w = (status, response, w') ->
    stored w ⊆ stored w' /\
    (ok status = true ->
     forall d data, (d, data) ∈ blobs -> digest_equiv d (digest_of data) ->
       exists d' code, (d', code) ∈ response /\ digest_equiv d' d /\
         (code = OK -> is_Some (stored w' !! digest_key d)));
  (** A well-formed upload that is committed with its full size is stored. *)
  write_law digest data requests w status committed_size w' :
    ClientSpec.upload_ok (makeResourceName self digest true) bytestreamChunkSizeBytes 0 data requests ->
    digest_equiv digest (digest_of data) ->
    writer_Finish env (write_all env requests (stub_Write env w))
      = (status, committed_size, w') ->
    stored w ⊆ stored w' /\
    (ok status = true -> committed_size = size_bytes digest ->
     is_Some (stored w' !! digest_key digest));
  (** Reading a local file does not reach the server. *)
  load_law path w : stored (sys_load env path w).2 = stored w;
}.

(** ** Computations that keep what is stored *)

Section grows.
Context {S : Type} (store : S -> blob_map).

(** From [s], nothing stored is lost, and a result satisfies [Q]. *)
Definition grows {A} (s : S) (m : M S A) (Q : A -> S -> Prop) : Prop :=
  match m s with
  | (Ok a, s') => store s ⊆ store s' /\ Q a s'
  | (Throw _, s') => store s ⊆ store s'
  end.

Lemma grows_ret {A} s (a : A) (Q : A -> S -> Prop) : Q a s -> grows s (mret a) Q.
Proof. intros HQ. by split. Qed.

Lemma grows_throw {A} s e (Q : A -> S -> Prop) : grows s (mthrow e) Q.
Proof. unfold grows, mthrow. done. Qed.

Lemma grows_bind {A B} s (m : M S A) (k : A -> M S B) Q (R : B -> S -> Prop) :
  grows s m Q ->
  (forall a s1, store s ⊆ store s1 -> Q a s1 -> grows s1 (k a) R) ->
  grows s (mbind_M m k) R.
Proof.
  unfold grows, mbind_M. intros Hm Hk. destruct (m s) as [[a|e] s1]; [|done].
  destruct Hm as [Hs Ha]. specialize (Hk a s1 Hs Ha).
  destruct (k a s1) as [[b|e] s2].
  - destruct Hk as [H2 Hb]. split; [by transitivity (store s1)|done].
  - by transitivity (store s1).
Qed.

Lemma grows_mono {A} s (m : M S A) (Q R : A -> S -> Prop) :
  grows s m Q -> (forall a s', Q a s' -> R a s') -> grows s m R.
Proof. unfold grows. destruct (m s) as [[a|e] s1]; [|done]. intros [? ?] HR. auto. Qed.

Lemma grows_grown {A} s (m : M S A) (Q : A -> S -> Prop) :
  grows s m Q -> grows s m (fun a s' => store s ⊆ store s' /\ Q a s').
Proof. unfold grows. destruct (m s) as [[a|e] s1]; naive_solver. Qed.

Lemma grows_catch {A} s (m : M S A) h (Q : A -> S -> Prop) :
  grows s m Q -> (forall e s1, store s ⊆ store s1 -> grows s1 (h e) Q) ->
  grows s (catch_runtime m h) Q.
Proof.
  unfold grows, catch_runtime, mcatch. intros Hm Hh.
  destruct (m s) as [[a|e] s1]; [done|]. specialize (Hh e s1 Hm).
  destruct (is_runtime_error e); [|done].
  destruct (h e s1) as [[a|e'] s2].
  - destruct Hh as [H2 Ha]. split; [by transitivity (store s1)|done].
  - by transitivity (store s1).
Qed.

(** A request that is retried: what holds of its last, successful attempt. *)
Lemma grows_issue {W : Type} (env : Env W) (self : Client) (inv : M S Status)
    (Q : Status -> S -> Prop) s :
  (forall s1, grows s1 inv Q) ->
  grows s (issueRequestAndThrowOnErrors env self inv)
    (fun _ s' => exists st, ok st = true /\ Q st s').
Proof.
  intros Hinv. unfold grows. pose proof (issue_cases env self inv s) as Hc.
  assert (forall s0, failed_calls inv s s0 -> store s ⊆ store s0) as Hf.
  { intros s0 Hs0. apply (failed_calls_inv inv (fun s' => store s ⊆ store s') s s0 Hs0);
      [done|]. intros s1 st s2 H1 E. pose proof (Hinv s1) as Hi. unfold grows in Hi.
    rewrite E in Hi. transitivity (store s1); [done|apply Hi]. }
  destruct (issueRequestAndThrowOnErrors env self inv s) as [[u|e] s'].
  - destruct Hc as (s0 & st & Hs0 & E & Hok). pose proof (Hinv s0) as Hi.
    unfold grows in Hi. rewrite E in Hi. destruct Hi as [Hs HQ].
    split; [transitivity (store s0); auto|by exists st].
  - destruct Hc as (s0 & Hs0 & Hc). pose proof (Hinv s0) as Hi. unfold grows in Hi.
    destruct Hc as [E|(st & E & _)]; rewrite E in Hi;
      (transitivity (store s0); [by apply Hf|apply Hi]).
Qed.
End grows.

Lemma grows_captured {W C A : Type} (store : W -> blob_map) (c : C) (m : M (W * C) A)
    (Q : A -> W * C -> Prop) w :
  grows (fun s => store s.1) (w, c) m Q ->
  grows store w (with_captured c m) (fun p w' => Q p.1 (w', p.2)).
Proof.
  unfold grows, with_captured. by destruct (m (w, c)) as [[a|e] [w1 c1]].
Qed.

Lemma grows_world {W C A : Type} (store : W -> blob_map) (m : M W A) (Q : A -> W -> Prop) w (c : C) :
  grows store w m Q ->
  grows (fun s => store s.1) (w, c) (on_world m) (fun a s' => Q a s'.1 /\ s'.2 = c).
Proof. unfold grows, on_world. destruct (m w) as [[a|e] w1]; cbn; naive_solver. Qed.

(** ** Batches *)

(** The batches and what follows them are all the blobs, whatever the limit. *)
Lemma makeBatches_loop_cover {A} (l : list A) fuel max start digests :
  let batches := makeBatches_loop fuel max start digests in
  concat (map (fun '(b, e) => subrange b e l) batches)
  ++ drop (match batches with [] => start | _ => batches_end batches end) l
  = drop start l.
Proof.
  revert start. induction fuel as [|fuel IH]; intros start; cbn [makeBatches_loop]; [done|].
  destruct (drop start digests) as [|d rest]; [done|].
  destruct (max <? _); [done|]. cbn zeta.
  set (e := (start + fill_batch max 0 (d :: rest))%nat). specialize (IH e). cbn zeta in IH.
  rewrite batches_end_cons. cbn [map concat]. rewrite <- app_assoc.
  transitivity (subrange start e l ++ drop e l); [|apply subrange_drop; lia].
  f_equal. exact IH.
Qed.

Lemma makeBatches_cover {A} (l : list A) self digests :
  let batches := makeBatches self digests in
  concat (map (fun '(b, e) => subrange b e l) batches) ++ drop (batches_end batches) l = l.
Proof.
  pose proof (makeBatches_loop_cover l (length digests)
    (u64 (d_maxBatchTotalSizeBytes self - SIZEOF_ESTIMATED_TOP_LEVEL_GRPC_CONTAINER))
    0 digests) as Hc.
  unfold makeBatches. cbn zeta in *. by destruct (makeBatches_loop _ _ _ _).
Qed.

(** ** Uploads *)

Section uploads.
Context {W : Type} (env : CasEnv W) `{DigestFunction} `{StdSort} (self : Client).
Context {Hserver : CasServer env self}.

(** A blob is stored, or reported among the failures. *)
Definition accounted (results : list UploadResult) (w : W) (d : Digest) : Prop :=
  is_Some (stored w !! digest_key d) \/
  exists d' code, (d', code) ∈ results /\ digest_equiv d' d.

Lemma stored_mono (m1 m2 : blob_map) k : m1 ⊆ m2 -> is_Some (m1 !! k) -> is_Some (m2 !! k).
Proof. intros Hm [x Hx]. exists x. by eapply lookup_weaken. Qed.

Lemma accounted_mono results results' w w' d :
  stored w ⊆ stored w' -> results ⊆ results' ->
  accounted results w d -> accounted results' w' d.
Proof.
  intros Hw Hr [Hs|(d' & code & Hin & He)]; [left; by eapply stored_mono|].
  right. exists d', code. split; [by apply Hr|done].
Qed.

Lemma accounted_app_l results results' w w' d :
  stored w ⊆ stored w' -> accounted results w d -> accounted (results ++ results') w' d.
Proof. intros Hw. apply accounted_mono; [done|]. intros p. rewrite elem_of_app. by left. Qed.

Lemma accounted_app_r results results' w d :
  accounted results' w d -> accounted (results ++ results') w d.
Proof. apply accounted_mono; [done|]. intros p. rewrite elem_of_app. by right. Qed.

Lemma accounted_reported results w d : d ∈ results.*1 -> accounted results w d.
Proof.
  intros ([d' code] & -> & Hin)%list_elem_of_fmap. right. by exists d', code.
Qed.

(** All of these requests are accounted for. *)
Definition all_accounted (requests : list UploadRequest) (results : list UploadResult)
    (w : W) : Prop := Forall (fun r => accounted results w (ur_digest r)) requests.

(** Data in memory is sent as it is. *)
Lemma batch_entries_in_memory requests w :
  Forall upload_ok requests ->
  batch_entries env requests w
  = (Ok (map (fun r => (ur_digest r, ur_data r)) requests), w).
Proof.
  induction 1 as [|r requests [Hp _] _ IH]; [done|]. cbn [batch_entries].
  rewrite decide_True by done. unfold mbind_M at 1. cbn. unfold mbind_M. by rewrite IH.
Qed.

Lemma batchUpload_grows requests b e w :
  Forall upload_ok requests ->
  grows stored w (batchUpload env self requests b e)
    (all_accounted (subrange b e requests)).
Proof.
  intros Hr. set (slice := subrange b e requests).
  assert (Forall upload_ok slice) as Hslice by (by apply Forall_take, Forall_drop).
  unfold batchUpload. fold slice.
  apply (grows_bind _ _ _ _ (fun entries _ => entries = map (fun r => (ur_digest r, ur_data r)) slice)).
  { unfold grows. by rewrite batch_entries_in_memory. }
  intros entries w1 _ ->.
  eapply grows_bind.
  { apply grows_captured, grows_issue. intros [w2 c2].
    apply (grows_mono _ _ _ (fun st s' => ok st = true -> forall r, r ∈ slice ->
      exists d' code, (d', code) ∈ s'.2 /\ digest_equiv d' (ur_digest r) /\
        (code = OK -> is_Some (stored s'.1 !! digest_key (ur_digest r))))).
    - unfold grows. destruct (stub_BatchUpdateBlobs _ _ _ w2) as [[st response] w3] eqn:E.
      apply batch_update_law in E as [Hs Hok]. split; [done|]. intros Hst r Hin.
      rewrite Forall_forall in Hslice.
      apply (Hok Hst _ (ur_data r)); [|by apply Hslice, list_elem_of_In].
      by apply (list_elem_of_fmap_2 (fun r => (ur_digest r, ur_data r))).
    - intros st s' HQ. exact HQ. }
  intros [u response] w2 _ (st & Hst & HQ). apply grows_ret, Forall_forall.
  intros r Hin%list_elem_of_In. destruct (HQ Hst r Hin) as (d' & code & Hd & He & Hcode).
  destruct (decide (code = OK)) as [->|Hne]; [left; by apply Hcode|].
  right. exists d', code. split; [|done]. by apply list_elem_of_filter.
Qed.

Lemma upload_batches_grows requests throw_on_error batches w :
  Forall upload_ok requests ->
  grows stored w (upload_batches env self requests throw_on_error batches)
    (all_accounted (concat (map (fun '(b, e) => subrange b e requests) batches))).
Proof.
  intros Hr. revert w. induction batches as [|[b e] batches IH]; intros w;
    cbn [upload_batches map concat].
  - by apply grows_ret, Forall_nil_2.
  - eapply grows_bind.
    { apply grows_catch; [by apply batchUpload_grows|]. intros err w1 _.
      destruct throw_on_error; [by apply grows_throw|]. apply grows_ret, Forall_forall.
      intros r Hin%list_elem_of_In. apply accounted_reported. rewrite <- list_fmap_compose.
      by apply (list_elem_of_fmap_2 (fun r => ur_digest r)). }
    intros failed w1 _ Hfailed. eapply grows_bind; [apply IH|]. intros results w2 Hw2 Hres.
    apply grows_ret, Forall_app. split.
    + eapply Forall_impl; [|exact Hfailed]. intros r. by apply accounted_app_l.
    + eapply Forall_impl; [|exact Hres]. intros r. apply accounted_app_r.
Qed.

(** One blob over the ByteStream API is stored when the call returns. *)
Lemma uploadRequest_grows r w :
  upload_ok r ->
  grows stored w (uploadRequest env self r)
    (fun _ w' => is_Some (stored w' !! digest_key (ur_digest r))).
Proof.
  intros [Hp Hd]. unfold uploadRequest. rewrite decide_True by done. unfold upload.
  assert (zlen (ur_data r) = size_bytes (ur_digest r)) as Hs
    by (pose proof Hd as [_ ->]%digest_eqb_spec; by rewrite digest_of_size).
  rewrite Hs, Z.eqb_refl. cbn [negb].
  eapply grows_mono; [apply grows_issue|].
  - intros w1. apply (grows_mono _ _ _
      (fun st w' => ok st = true -> is_Some (stored w' !! digest_key (ur_digest r)))).
    2: { intros st w' HQ. exact HQ. }
    unfold grows, uploadLambda. rewrite upload_string_write_all. unfold finish_upload.
    destruct (writer_Finish env _) as [[st n] w2] eqn:E. pose proof (zlen_nonneg (ur_data r)).
    pose proof (string_requests_ok (S (length (ur_data r))) (makeResourceName self (ur_digest r) true) (ur_data r) 0) as Hok.
    specialize (Hok ltac:(lia) ltac:(unfold zlen; lia)).
    eapply write_law in E as [Hw Hcommit]; [|exact Hok|exact Hd].
    destruct (ok st) eqn:Eok; cbn [andb]; [|split; [done|congruence]].
    destruct (Z.eqb_spec n (size_bytes (ur_digest r))); cbn [negb]; [|done].
    split; [done|]. intros _. by apply Hcommit.
  - intros _ w' (st & Hst & HQ). by apply HQ.
Qed.

Lemma upload_streams_grows requests throw_on_error w :
  Forall upload_ok requests ->
  grows stored w (upload_streams env self throw_on_error requests) (all_accounted requests).
Proof.
  intros Hr. revert w. induction Hr as [|r requests Hr _ IH]; intros w; cbn [upload_streams].
  - by apply grows_ret, Forall_nil_2.
  - apply (grows_bind _ _ _ _ (fun failed w' => accounted failed w' (ur_digest r))).
    { apply grows_catch.
      - eapply grows_bind; [by apply uploadRequest_grows|]. intros [] w1 _ Hw1.
        apply grows_ret. by left.
      - intros err w1 _. destruct throw_on_error; [by apply grows_throw|].
        apply grows_ret, accounted_reported. by left. }
    intros failed w1 _ Hfailed. eapply grows_bind; [apply IH|]. intros results w2 Hw2 Hres.
    apply grows_ret. constructor; [by eapply accounted_app_l|].
    eapply Forall_impl; [|exact Hres]. intros r'. apply accounted_app_r.
Qed.

Lemma uploadBlobs_grows requests throw_on_error w :
  Forall upload_ok requests ->
  grows stored w (uploadBlobs env self requests throw_on_error) (all_accounted requests).
Proof.
  intros Hr. unfold uploadBlobs.
  set (l := std_sort (fun r => size_bytes (ur_digest r)) requests).
  set (batches := makeBatches self (map ur_digest l)).
  assert (Forall upload_ok l) as Hl by (unfold l; by rewrite std_sort_perm).
  eapply grows_bind; [by apply upload_batches_grows|]. intros batch_results w1 _ Hb.
  eapply grows_bind; [by apply upload_streams_grows, Forall_drop|].
  intros stream_results w2 Hw2 Hs. apply grows_ret. unfold all_accounted.
  enough (Forall (fun r => accounted (batch_results ++ stream_results) w2 (ur_digest r)) l) as Hall
    by (unfold l in Hall; by rewrite std_sort_perm in Hall).
  rewrite <- (makeBatches_cover l self (map ur_digest l)). apply Forall_app. split.
  - eapply Forall_impl; [|exact Hb]. intros r. by apply accounted_app_l.
  - eapply Forall_impl; [|exact Hs]. intros r. apply accounted_app_r.
Qed.

(** ** Asking what is missing *)

Lemma issue_requests_grows requests w :
  grows stored w (issue_requests env self requests) (fun missing w' =>
    (forall d, digest_key d ∈ digest_key <$> concat requests ->
       digest_key d ∈ digest_key <$> missing \/ is_Some (stored w' !! digest_key d)) /\
    (forall d, d ∈ missing -> digest_key d ∈ digest_key <$> concat requests)).
Proof.
  revert w. induction requests as [|request requests IH]; intros w; cbn [issue_requests concat].
  - apply grows_ret. split; [|intros d Hd; by apply elem_of_nil in Hd].
    intros d Hd. by apply elem_of_nil in Hd.
  - eapply grows_bind.
    { apply grows_captured, grows_issue. intros [w1 c1].
      eapply (grows_mono _ _ _ (fun st s' => ok st = true ->
        (forall d, digest_key d ∈ digest_key <$> request ->
           digest_key d ∈ digest_key <$> s'.2 \/ is_Some (stored s'.1 !! digest_key d)) /\
        (forall d, d ∈ s'.2 -> digest_key d ∈ digest_key <$> request))); [|intros ? ? HQ; exact HQ].
      unfold grows. destruct (stub_FindMissingBlobs _ _ _ w1) as [[st response] w2] eqn:E.
      apply find_missing_law in E as (Hs & H1 & H2). split; [done|]. by split; [apply H1|apply H2]. }
    intros [u response] w1 _ (st & Hst & HQ). destruct (HQ Hst) as [H1 H2]. cbn in H1, H2.
    eapply grows_bind; [apply IH|]. intros missing w2 Hw2 [H3 H4]. apply grows_ret.
    rewrite !fmap_app. setoid_rewrite elem_of_app. split.
    + intros d [Hd|Hd].
      * destruct (H1 d Hd) as [?|?]; [by left; left|]. right. by eapply stored_mono.
      * destruct (H3 d Hd); [by left; right|by right].
    + intros d [Hd|Hd]; [left; by apply H2|right; by apply H4].
Qed.

Lemma requests_to_issue_concat digests : concat (requests_to_issue env digests) = digests.
Proof.
  unfold requests_to_issue.
  assert (forall ds requests request n,
    let '(requests', request', _) :=
      foldl (split_digest env bytestreamChunkSizeBytes) (requests, request, n) ds in
    concat requests' ++ request' = concat requests ++ request ++ ds) as Hf.
  { induction ds as [|d ds IH]; intros requests request n; cbn [foldl].
    - by rewrite app_nil_r.
    - unfold split_digest at 2. destruct (_ <? _);
        match goal with |- context [foldl _ (?rs, ?r, ?m) _] => specialize (IH rs r m) end;
        destruct (foldl _ _ _) as [[rs' r'] n']; rewrite IH.
      + rewrite concat_app. cbn. by rewrite app_nil_r, <- app_assoc.
      + by rewrite <- app_assoc. }
  specialize (Hf digests [] [] 0). destruct (foldl _ _ _) as [[rs r] n].
  rewrite concat_app. cbn [concat]. by rewrite app_nil_r, Hf.
Qed.

Lemma findMissingBlobs_grows digests w :
  grows stored w (findMissingBlobs env self digests) (fun missing w' =>
    (forall d, digest_key d ∈ digest_key <$> digests ->
       digest_key d ∈ digest_key <$> missing \/ is_Some (stored w' !! digest_key d)) /\
    (forall d, d ∈ missing -> digest_key d ∈ digest_key <$> digests)).
Proof.
  pose proof (issue_requests_grows (requests_to_issue env digests) w) as Hi.
  by rewrite requests_to_issue_concat in Hi.
Qed.
End uploads.

(** * Downloads from a server that has the blobs *)

(** ** The reading half of the interface *)

(** A server that is reachable serves what it stores.  [fs_log] is what has been
    done to the local file system, which reading blobs does not touch. *)
Class CasReader {W : Type} (env : CasEnv W) `{DigestFunction} (self : Client)
    `{CasServer W env self} (fs_log : W -> list op) := {
  (** A read of a stored blob from its start gives all of it, in pieces. *)
  read_law digest data w :
    stored w !! digest_key digest = Some data ->
    exists responses status w',
      stub_Read env (makeResourceName self digest false) 0 w = (responses, status, w') /\
      ok status = true /\ concat responses = data /\
      stored w ⊆ stored w' /\ fs_log w' = fs_log w;
  (** A batch within the limit is answered with all its blobs, in some order. *)
  batch_read_law digests w :
    (forall d, d ∈ digests -> is_Some (stored w !! digest_key d)) ->
    total digests <= batch_limit self ->
    exists status response w',
      stub_BatchReadBlobs env (d_instanceName self) digests w = (status, response, w') /\
      ok status = true /\ stored w ⊆ stored w' /\ fs_log w' = fs_log w /\
      (forall d, d ∈ digests ->
         exists d' data, (d', data, OK) ∈ response /\ digest_equiv d' d) /\
      (forall d data code, (d, data, code) ∈ response ->
         code = OK /\ digest_key d ∈ digest_key <$> digests /\
         stored w !! digest_key d = Some data);
}.

(** A local disk that takes what is written to it. *)
Record LocalDisk {W : Type} (env : CasEnv W) (store : W -> blob_map) (fs_log : W -> list op)
    (writeFileAtomically : str -> str -> Z -> M W unit) : Prop := {
  disk_mkdir path w : exists w', sys_mkdir env path w = (None, w') /\
    store w' = store w /\ fs_log w' = fs_log w ++ [OpMkdir path];
  disk_symlink target path w : exists w', sys_symlink env target path w = (None, w') /\
    store w' = store w /\ fs_log w' = fs_log w ++ [OpSymlink target path];
  disk_write path data mode w : exists w', writeFileAtomically path data mode w = (Ok tt, w') /\
    store w' = store w /\ fs_log w' = fs_log w ++ [OpWrite path data mode];
}.

(** ** What is written for the outputs of a download *)

Definition output_op (o : str * (str * bool)) (data : str) : op :=
  OpWrite o.2.1 data (if o.2.2 then 493 else 420).

(** The writes for one blob. *)
Definition blob_ops (outputs : OutputMap) (hash data : str) : list op :=
  outputs ≫= fun o => if decide (o.1 = hash) then [output_op o data] else [].

Lemma blob_ops_elem outputs hash data p :
  p ∈ blob_ops outputs hash data <->
  exists o, o ∈ outputs /\ o.1 = hash /\ p = output_op o data.
Proof.
  unfold blob_ops. rewrite list_elem_of_bind. split.
  - intros (o & Hp & Ho). exists o. case_decide; [|by apply elem_of_nil in Hp].
    by apply list_elem_of_singleton in Hp.
  - intros (o & Ho & Hh & ->). exists o. split; [|done].
    rewrite decide_True by done. by left.
Qed.

Section delivers.
Context `{DigestFunction} (outputs : OutputMap).

(** Every output of these digests is written with the blob of its digest, and
    nothing is written but blobs to the outputs of their hash. *)
Definition delivers (digests : list Digest) (ops : list op) : Prop :=
  (forall d, d ∈ digests -> exists data, digest_equiv (digest_of data) d /\
     forall o, o ∈ outputs -> o.1 = hash_other d -> output_op o data ∈ ops) /\
  (forall p, p ∈ ops -> exists o data, o ∈ outputs /\ p = output_op o data /\
     hash_other (digest_of data) = o.1).

Lemma delivers_nil : delivers [] [].
Proof. split; intros ? Hx; by apply elem_of_nil in Hx. Qed.

Lemma delivers_app ds1 ds2 ops1 ops2 :
  delivers ds1 ops1 -> delivers ds2 ops2 -> delivers (ds1 ++ ds2) (ops1 ++ ops2).
Proof.
  intros [H1 H2] [H3 H4]. split.
  - intros d [Hd|Hd]%elem_of_app; [destruct (H1 d Hd) as (data & He & Ho)|
      destruct (H3 d Hd) as (data & He & Ho)]; exists data; (split; [done|]);
      intros o Hin Hh; apply elem_of_app; auto.
  - intros p [Hp|Hp]%elem_of_app; auto.
Qed.

Lemma delivers_perm ds1 ds2 ops : ds1 ≡ₚ ds2 -> delivers ds1 ops -> delivers ds2 ops.
Proof. intros E [H1 H2]. split; [|done]. intros d. rewrite <- E. apply H1. Qed.

(** The writes of several blobs are those of each. *)
Lemma delivers_blobs (digests : list Digest) (blobs : list (Digest * str)) :
  (forall d, d ∈ digests -> exists d' data, (d', data) ∈ blobs /\ digest_equiv d' d) ->
  (forall d data, (d, data) ∈ blobs -> digest_equiv (digest_of data) d) ->
  delivers digests (blobs ≫= fun p => blob_ops outputs (hash_other p.1) p.2).
Proof.
  intros Hall Hv. split.
  - intros d Hd. destruct (Hall d Hd) as (d' & data & Hin & He). exists data.
    split; [by rewrite <- He; apply Hv|]. intros o Ho Hh. apply list_elem_of_bind.
    exists (d', data). split; [|done]. apply blob_ops_elem. exists o.
    apply digest_eqb_spec in He as [He _]. by rewrite Hh, <- He.
  - intros p ([d data] & Hp & Hin)%list_elem_of_bind.
    apply blob_ops_elem in Hp as (o & Ho & Hh & ->). exists o, data.
    split; [done|]. split; [done|]. rewrite Hh.
    by apply Hv, digest_eqb_spec in Hin as [-> _].
Qed.
End delivers.

(** ** Computations that do something, whatever they return *)

Section performs.
Context {S : Type} (I : S -> Prop) (log : S -> list op).

(** From [s], the computation returns a value and does operations that together
    satisfy [P]. *)
Definition performs {A} (s : S) (m : M S A) (P : A -> list op -> Prop) : Prop :=
  exists a s' ops, m s = (Ok a, s') /\ I s' /\ log s' = log s ++ ops /\ P a ops.

Lemma performs_ret {A} s (a : A) (P : A -> list op -> Prop) :
  I s -> P a [] -> performs s (mret a) P.
Proof. intros Hs HP. exists a, s, []. by rewrite app_nil_r. Qed.

Lemma performs_bind {A B} s (m : M S A) (k : A -> M S B) P (Q : B -> list op -> Prop) :
  performs s m P ->
  (forall a s' ops, I s' -> P a ops -> performs s' (k a) (fun b ops' => Q b (ops ++ ops'))) ->
  performs s (mbind_M m k) Q.
Proof.
  intros (a & s1 & o1 & E & H1 & L1 & HP) Hk.
  destruct (Hk a s1 o1 H1 HP) as (b & s2 & o2 & E2 & H2 & L2 & HQ).
  exists b, s2, (o1 ++ o2). unfold mbind_M. rewrite E, E2.
  split; [done|]. split; [done|]. by rewrite L2, L1, app_assoc.
Qed.

Lemma performs_mono {A} s (m : M S A) (P Q : A -> list op -> Prop) :
  performs s m P -> (forall a ops, P a ops -> Q a ops) -> performs s m Q.
Proof. intros (a & s' & ops & ? & ? & ? & ?) HQ. exists a, s', ops. auto. Qed.

Lemma performs_catch {A} s (m : M S A) h (P : A -> list op -> Prop) :
  performs s m P -> performs s (catch_runtime m h) P.
Proof.
  intros (a & s' & ops & E & HR). exists a, s', ops. unfold catch_runtime, mcatch. by rewrite E.
Qed.
End performs.

Lemma performs_world {W C A : Type} (I : W -> Prop) (log : W -> list op) (m : M W A)
    (P : A -> list op -> Prop) w (c : C) :
  performs I log w m P ->
  performs (fun s => I s.1) (fun s => log s.1) (w, c) (on_world m) P.
Proof.
  intros (a & w' & ops & E & HR). exists a, (w', c), ops. unfold on_world. by rewrite E.
Qed.

Lemma performs_captured {W C A : Type} (I : W -> Prop) (log : W -> list op)
    (m : M (W * C) A) (P : A -> list op -> Prop) w (c : C) :
  performs (fun s => I s.1) (fun s => log s.1) (w, c) m P ->
  performs I log w (with_captured c m) (fun a => P a.1).
Proof.
  intros (a & [w' c'] & ops & E & HR). exists (a, c'), w', ops. unfold with_captured.
  by rewrite E.
Qed.

(** ** Downloads of blobs that are stored *)

Section downloads.
Context {W : Type} (env : CasEnv W) `{DigestFunction} `{StdSort} (self : Client).
(** The library was built with the function that the client checks with. *)
Context `{CD : ClientDigestFunction} `{Hsame : !SameDigestFunction}.
Context `{!CasServer env self} (fs_log : W -> list op) `{!CasReader env self fs_log}.
Context (writeFileAtomically : str -> str -> Z -> M W unit).
Context (Hdisk : LocalDisk env stored fs_log writeFileAtomically).
(** Stored at the start, and so from then on. *)
Context (blobs : blob_map).

Definition holding (w : W) : Prop := blobs ⊆ stored w.

Lemma holding_mono w w' : stored w ⊆ stored w' -> holding w -> holding w'.
Proof. unfold holding. intros. by transitivity (stored w). Qed.

Lemma client_checks data d : digest_equiv (digest_of data) d -> digest_neqb (client_digest_of data) d = false.
Proof. intros Hd. apply digest_neqb_equiv. etransitivity; [apply same_digests|exact Hd]. Qed.

Definition is_stored (d : Digest) : Prop := is_Some (blobs !! digest_key d).

Lemma fetchString_stored digest data w :
  blobs !! digest_key digest = Some data -> holding w ->
  exists w', fetchString env self digest w = (Ok data, w') /\ holding w' /\
    fs_log w' = fs_log w.
Proof.
  intros Hd Hw. assert (stored w !! digest_key digest = Some data) as Hs
    by (by eapply lookup_weaken).
  destruct (read_law digest data w Hs) as (responses & st & w' & E & Hok & <- & Hm & Hl).
  apply stored_valid, digest_key_spec in Hs.
  exists w'. split; [|split; [by eapply holding_mono|done]].
  unfold fetchString, with_captured, mbind_M.
  rewrite (issue_first_ok env self _ _ st (w', concat responses)); [done| |done].
  unfold fetchLambda. rewrite E, Hok.
  assert (zlen (concat responses) = size_bytes digest) as ->
    by (apply digest_eqb_spec in Hs as [_ <-]; by rewrite digest_of_size).
  rewrite Z.eqb_refl. cbn [negb]. by rewrite (client_checks _ _ Hs).
Qed.

Context (outputs : OutputMap).

Abbreviation write_blob := (fun hash data =>
  @on_world W unit _ (write_outputs writeFileAtomically outputs hash data)).
Abbreviation performs1 := (performs holding fs_log).
Abbreviation performs2 := (performs (fun s => holding s.1) (fun s : W * unit => fs_log s.1)).

Lemma write_outputs_performs hash data outs w :
  holding w ->
  performs1 w (write_outputs writeFileAtomically outs hash data)
    (fun _ => eq (blob_ops outs hash data)).
Proof.
  revert w. induction outs as [|[h [path x]] outs IH]; intros w Hw; cbn [write_outputs].
  - by apply performs_ret.
  - apply (performs_bind _ _ _ _ _
      (fun _ => eq (if decide (h = hash) then [output_op (h, (path, x)) data] else []))).
    + destruct (decide (h = hash)); [|by apply performs_ret].
      destruct (disk_write _ _ _ _ Hdisk path data (if x then 493 else 420) w)
        as (w' & E & Hs & Hl).
      exists tt, w', [output_op (h, (path, x)) data]. split; [done|]. split; [|done].
      unfold holding. by rewrite Hs.
    + intros [] w' ops Hw' <-. eapply performs_mono; [by apply IH|]. by intros ? ops' <-.
Qed.

Lemma batch_responses_performs responses s :
  holding s.1 ->
  (forall d data code, (d, data, code) ∈ responses ->
     code = OK /\ digest_equiv (digest_of data) d) ->
  performs2 s (batch_responses env write_blob None responses)
    (fun _ => eq (responses.*1 ≫= fun p => blob_ops outputs (hash_other p.1) p.2)).
Proof.
  revert s. induction responses as [|[[d data] code] responses IH]; intros s Hs Hr;
    cbn [batch_responses].
  - by apply performs_ret.
  - destruct (Hr d data code) as [-> Hd]; [by left|]. cbn [Z.eqb OK].
    rewrite (client_checks _ _ Hd).
    eapply performs_bind.
    { destruct s as [w []]. apply performs_world. by apply write_outputs_performs. }
    intros [] s' ops Hs' <-. eapply performs_bind.
    { apply IH; [done|]. intros d' data' code' Hin. apply Hr. by right. }
    intros results s'' ops Hs'' <-. apply performs_ret; [done|]. by rewrite app_nil_r.
Qed.

Lemma batchDownload_delivers digests b e s :
  holding s.1 -> Forall is_stored (subrange b e digests) ->
  total (subrange b e digests) <= batch_limit self ->
  performs2 s (batchDownload env write_blob None self digests b e)
    (fun _ => delivers outputs (subrange b e digests)).
Proof.
  destruct s as [w []]. cbn [fst]. intros Hw Hd Ht. unfold batchDownload.
  set (slice := subrange b e digests) in *. rewrite Forall_forall in Hd.
  destruct (batch_read_law slice w) as (st & response & w' & E & Hok & Hm & Hl & Hall & Hr).
  { intros d Hin. eapply stored_mono; [exact Hw|]. by apply Hd, list_elem_of_In. }
  { done. }
  assert (holding w') as Hw' by (by eapply holding_mono).
  apply (performs_bind _ _ _ _ _ (fun a ops => a = (tt, response) /\ ops = [])).
  { exists (tt, response), (w', tt), []. cbn [fst]. rewrite app_nil_r.
    split; [|done]. unfold on_world, with_captured.
    rewrite (issue_first_ok env self _ _ st (w', response)); [done| |done]. by rewrite E. }
  intros a s' ops Hs' [-> ->]. eapply performs_mono.
  { apply batch_responses_performs; [done|]. intros d data code Hin.
    destruct (Hr d data code Hin) as (-> & _ & Hs). split; [done|].
    by apply digest_key_spec, (stored_valid w). }
  intros ? ops <-. apply delivers_blobs.
  - intros d Hin. destruct (Hall d Hin) as (d' & data & Hin' & He). exists d', data.
    split; [|done]. by apply (list_elem_of_fmap_2 fst response (d', data, OK)).
  - intros d data ([[d' data'] code] & [= <- <-] & Hin)%list_elem_of_fmap.
    destruct (Hr d data code Hin) as (_ & _ & Hs). by apply digest_key_spec, (stored_valid w).
Qed.

Lemma download_batches_delivers digests throw_on_error batches s :
  holding s.1 -> Forall is_stored digests ->
  Forall (fun '(b, e) => total (subrange b e digests) <= batch_limit self) batches ->
  performs2 s (download_batches env write_blob None self digests throw_on_error batches)
    (fun _ => delivers outputs (concat (map (fun '(b, e) => subrange b e digests) batches))).
Proof.
  intros Hs Hd Hb. revert s Hs. induction Hb as [|[b e] batches Ht _ IH]; intros s Hs;
    cbn [download_batches map concat].
  - by apply performs_ret, delivers_nil.
  - eapply performs_bind.
    { apply performs_catch, batchDownload_delivers; [done| |done]. by apply Forall_take, Forall_drop. }
    intros results s1 ops Hs1 Hops. eapply performs_bind; [by apply IH|].
    intros results' s2 ops' Hs2 Hops'. apply performs_ret; [done|].
    rewrite app_nil_r. by apply delivers_app.
Qed.

Lemma download_stream_delivers digest s :
  holding s.1 -> is_stored digest ->
  performs2 s (download_stream env write_blob None self digest)
    (fun _ => delivers outputs [digest]).
Proof.
  destruct s as [w []]. cbn [fst]. intros Hw [data Hd]. unfold download_stream.
  destruct (fetchString_stored digest data w Hd Hw) as (w' & E & Hw' & Hl).
  assert (stored w !! digest_key digest = Some data) as Hs by (by eapply lookup_weaken).
  apply stored_valid, digest_key_spec in Hs.
  apply (performs_bind _ _ _ _ _ (fun a ops => a = data /\ ops = [])).
  { apply performs_world. exists data, w', []. by rewrite app_nil_r. }
  intros ? [w1 []] ops Hw1 [-> ->]. eapply performs_mono.
  { by apply performs_world, write_outputs_performs. }
  intros _ ops <-. cbn [app].
  pose proof (delivers_blobs outputs [digest] [(digest, data)]) as Hdel.
  cbn [mbind list_bind fst snd] in Hdel. rewrite app_nil_r in Hdel. apply Hdel.
  - intros d ->%list_elem_of_singleton. exists digest, data. split; [by left|reflexivity].
  - by intros d data' [= -> ->]%list_elem_of_singleton.
Qed.

Lemma download_streams_delivers digests throw_on_error s :
  holding s.1 -> Forall is_stored digests ->
  performs2 s (download_streams env write_blob None self throw_on_error digests)
    (fun _ => delivers outputs digests).
Proof.
  intros Hs Hd. revert s Hs. induction Hd as [|digest digests Hd _ IH]; intros s Hs;
    cbn [download_streams].
  - by apply performs_ret, delivers_nil.
  - apply (performs_bind _ _ _ _ _ (fun _ => delivers outputs [digest])).
    { apply performs_catch. eapply performs_bind; [by apply download_stream_delivers|].
      intros a s' ops Hs' Hops. apply performs_ret; [done|]. rewrite app_nil_r. exact Hops. }
    intros code s1 ops Hs1 Hops. eapply performs_bind; [by apply IH|].
    intros results s2 ops' Hs2 Hops'. apply performs_ret; [done|].
    rewrite app_nil_r. by apply (delivers_app outputs [digest]).
Qed.

Lemma downloadBlobs_with_delivers digests throw_on_error s :
  256 <= d_maxBatchTotalSizeBytes self < 2 ^ 63 -> Forall sized digests ->
  holding s.1 -> Forall is_stored digests ->
  performs2 s (downloadBlobs_with env write_blob None self digests throw_on_error)
    (fun _ => delivers outputs digests).
Proof.
  intros Hlimit Hsized Hs Hd. unfold downloadBlobs_with.
  set (l := std_sort size_bytes digests).
  assert (l ≡ₚ digests) as Hl by apply std_sort_perm.
  rewrite <- Hl in Hsized, Hd. destruct (makeBatches_spec self l Hlimit Hsized) as [[_ Hok] _].
  eapply performs_bind.
  { apply download_batches_delivers; [done|done|]. eapply Forall_impl; [|exact Hok].
    by intros [b e] (_ & Ht & _). }
  intros r1 s1 o1 Hs1 H1. eapply performs_bind.
  { apply download_streams_delivers; [done|]. by apply Forall_drop. }
  intros r2 s2 o2 Hs2 H2. apply performs_ret; [done|]. rewrite app_nil_r.
  apply (delivers_perm _ l); [done|].
  pose proof (delivers_app _ _ _ _ _ H1 H2) as H12. by rewrite makeBatches_cover in H12.
Qed.
End downloads.

(** The download that [downloadDirectory] asks for. *)
Lemma downloadBlobs_to_outputs_delivers {W : Type} (env : CasEnv W) `{DigestFunction}
    `{StdSort} (self : Client) `{CD : ClientDigestFunction} `{!SameDigestFunction}
    `{!CasServer env self} (fs_log : W -> list op)
    `{!CasReader env self fs_log} writeFileAtomically
    (Hdisk : LocalDisk env stored fs_log writeFileAtomically) (blobs : blob_map)
    (outputs : OutputMap) (digests : list Digest) (w : W) :
  256 <= d_maxBatchTotalSizeBytes self < 2 ^ 63 -> Forall sized digests ->
  holding env self blobs w -> Forall (is_stored blobs) digests ->
  performs (holding env self blobs) fs_log w
    (downloadBlobs_to_outputs env writeFileAtomically self digests outputs)
    (fun _ => delivers outputs digests).
Proof.
  intros Hlimit Hsized Hw Hd. unfold downloadBlobs_to_outputs.
  eapply performs_bind.
  { apply performs_captured, downloadBlobs_with_delivers; done. }
  intros [? []] w1 ops Hw1 Hops. apply performs_ret; [done|]. by rewrite app_nil_r.
Qed.
