(* ===== verification/CasRoundTrip.v ===== *)
(** * From one directory to another by way of the server

    What [uploadDirectory] has put on the server is enough for
    [downloadDirectory] to write the directory out again. *)

From S2P Require Import Prelude StdMap Arrays Blake3Compress Digest TimeUtils Grpc Merklize MerklizeSpec Client ClientSpec ClientBlobs ClientBlobsSpec ClientUpload ClientUploadSpec CasServer Cstring.
Open Scope Z_scope.

(** ** The walk finds the digest of every file *)

(** The digest of every file, at any depth, is in the map. *)
Definition covered (d : NestedDirectory) (m : entries) : Prop :=
  forall d' n f, d' ∈ descendants d ++ [d] -> In (n, f) (d_files d') ->
    digest_key (d_digest f) ∈ keys m.

(** Of one directory, without those below it. *)
Definition files_covered (files : smap File) (m : entries) : Prop :=
  forall n f, In (n, f) files -> digest_key (d_digest f) ∈ keys m.

Lemma covered_split d m :
  covered d m <->
  files_covered (d_files d) m /\ forall n s, In (n, s) (d_subdirs d) -> covered s m.
Proof.
  destruct d as [subs fs ls]. unfold covered, files_covered. cbn [descendants d_files d_subdirs].
  setoid_rewrite elem_of_app. setoid_rewrite list_elem_of_bind.
  setoid_rewrite list_elem_of_singleton. split.
  - intros Hc. split; [intros n f; apply (Hc (MkNestedDirectory subs fs ls)); by right|].
    intros n s Hs d' n' f Hd. apply Hc. left. exists (n, s).
    split.
    { cbn. rewrite elem_of_app, list_elem_of_singleton.
 exact Hd. }
    by apply list_elem_of_In.
  - intros [Hf Hs] d' n f [([k s] & Hd & Hin%list_elem_of_In)| ->]; [|apply Hf].
    rewrite elem_of_app, list_elem_of_singleton in Hd. by apply (Hs k s).
Qed.

Lemma covered_mono d m m' : keys m ⊆ keys m' -> covered d m -> covered d m'.
Proof. intros Hm Hc d' n f Hd Hf. apply Hm. by eapply Hc. Qed.

Lemma covered_new m : covered NestedDirectory_new m.
Proof. intros d' n f ->%list_elem_of_singleton []. Qed.

Lemma sm_insert_In {V} k (v : V) m k' v' :
  In (k', v') (sm_insert k v m) -> v' = v \/ In (k', v') m.
Proof.
  unfold sm_insert. induction m as [|[k0 v0] m IH]; cbn; [naive_solver|].
  destruct (str_compare k k0); cbn; naive_solver.
Qed.

Lemma um_set_keys_grow m d v : keys m ⊆ keys (um_set m d v).
Proof. rewrite um_set_keys. destruct (decide _); [done|]. set_solver. Qed.

Lemma um_set_keys_new m d v : digest_key d ∈ keys (um_set m d v).
Proof. rewrite um_set_keys. destruct (decide _); [done|]. set_solver. Qed.

Section walk_covers.
Context (props : list str) (follow : bool).

(** If it gives a directory, its map has the digests of [m] and of its files. *)
Definition covers (m : entries) (r : res (NestedDirectory * option entries)) : Prop :=
  forall d fm, r = Ok (d, fm) -> exists m', fm = Some m' /\ keys m ⊆ keys m' /\ covered d m'.

Lemma readdir_loop_covers es :
  Forall (fun p => forall prefix name result m, covered result m ->
    covers m (visit_entry props follow prefix p.2 name result (Some m))) es ->
  forall prefix result m, covered result m ->
  covers m (readdir_loop (visit_entry props follow prefix) es result (Some m)).
Proof.
  induction 1 as [|[name e] es He Hes IH]; intros prefix result m Hm.
  - intros d fm [= <- <-]. by exists m.
  - cbn [readdir_loop]. destruct (decide _); [by apply IH|].
    specialize (He prefix name result m Hm). cbn in He.
    destruct (visit_entry _ _ _ _ _ _ _) as [[r fm]|x]; [|intros ? ? [=]].
    destruct (He r fm eq_refl) as (m1 & -> & Hk1 & Hm1). cbn [res_bind].
    intros d fm E. destruct (IH _ _ _ Hm1 d fm E) as (m2 & -> & Hk2 & Hm2).
    exists m2. split; [done|]. split; [by transitivity (keys m1)|done].
Qed.

Lemma visit_entry_covers e :
  forall prefix name result m, covered result m ->
  covers m (visit_entry props follow prefix e name result (Some m)).
Proof.
  induction e as [o es IH|f|r e IH| |] using fs_ind; intros prefix name result m Hm;
    cbn [visit_entry].
  - destruct o; [intros ? ? [=]|].
    pose proof (readdir_loop_covers es IH (prefix ++ name ++ L "/") _ m (covered_new m)) as Hk.
    destruct (readdir_loop _ _ _ _) as [[r fm]|x]; [|intros ? ? [=]].
    destruct (Hk r fm eq_refl) as (m' & -> & Hk' & Hm'). intros ? ? [= <- <-]. exists m'.
    split; [done|]. split; [done|]. apply (covered_mono _ m m') in Hm; [|done].
    apply covered_split in Hm as [Hf Hs]. apply covered_split. split; [done|].
    cbn [d_subdirs]. intros n s [->|Hin]%sm_insert_In; [done|by eapply Hs].
  - destruct (File_new f props) as [file|]; [|intros ? ? [=]]. intros ? ? [= <- <-].
    eexists. split; [reflexivity|]. split; [apply um_set_keys_grow|].
    apply (covered_mono _ m (um_set m (d_digest file) (prefix ++ name))) in Hm;
      [|apply um_set_keys_grow].
    apply covered_split in Hm as [Hf Hs]. apply covered_split. split; [|done].
    intros n f' [->|Hin]%sm_insert_In; [apply um_set_keys_new|by eapply Hf].
  - destruct follow; [by apply IH|]. destruct r; [intros ? ? [=]|]. intros ? ? [= <- <-].
    exists m. split; [done|]. split; [done|]. by apply covered_split, (covered_split result).
  - intros ? ? [= <- <-]. by exists m.
  - intros ? ? [= <- <-]. by exists m.
Qed.
End walk_covers.

Lemma walk_covered {W : Type} (sys_directory : str -> W -> option Z * list (str * fs_entry))
    path w nested_dir files :
  walk_directory sys_directory path w = Ok (nested_dir, files) -> covered nested_dir files.
Proof.
  unfold walk_directory. destruct (sys_directory path w) as [[errno|] content]; [done|].
  unfold make_nesteddirectory_plain, make_nesteddirectory_at, make_nesteddirectory.
  pose proof (readdir_loop_covers [] false content
    (proj2 (List.Forall_forall _ _) (fun p _ => visit_entry_covers [] false p.2)) ([] ++ path ++ L "/") _ [] (covered_new [])) as Hk.
  destruct (readdir_loop _ _ _ _) as [[d fm]|]; [|done].
  destruct (Hk d fm eq_refl) as (m & -> & _ & Hm). by intros [= <- <-].
Qed.

(** ** What an upload of a directory leaves on the server *)

Section upload_directory.
Context {W : Type} (env : CasEnv W) `{DigestFunction} `{StdSort} (self : Client).
Context `{!CasServer env self}.
Context (us : Z -> Timestamp) (ser : Directory -> str).
Context (sys_directory : str -> W -> option Z * list (str * fs_entry)).
Context (um_order : entries -> entries) (Horder : forall m, um_order m ≡ₚ m).

#[local] Instance accounted_proper results (w : W) :
  Proper (digest_equiv ==> iff) (accounted env self results w).
Proof.
  intros d d' E. unfold accounted. apply digest_key_spec in E as Ek. rewrite Ek.
  by setoid_rewrite E.
Qed.

Lemma missing_upload_requests_grows m (w : W) :
  Forall (entry_ok env) m ->
  grows stored w (missing_upload_requests env m) (fun requests _ =>
    Forall upload_ok requests /\ ur_digest <$> requests = m.*1).
Proof.
  intros Hm. assert (grows stored w (missing_upload_requests env m) (fun _ _ => True)) as Hg.
  { clear Hm. revert w. induction m as [|[digest value] m IH]; intros w;
      cbn [missing_upload_requests]; [by apply grows_ret|].
    apply (grows_bind _ _ _ _ (fun _ _ => True)).
    - destruct (ParseDirectory env value); [by apply grows_ret|].
      apply (grows_bind _ _ _ _ (fun _ _ => True)); [|intros; by apply grows_ret].
      unfold grows, getFileContents. pose proof (load_law value w) as Hl.
      destruct (sys_load env value w) as [[data|] w1]; cbn in Hl; by rewrite Hl.
    - intros request w1 _ _. apply (grows_bind _ _ _ _ (fun _ _ => True)); [apply IH|].
      intros requests w2 _ _. by apply grows_ret. }
  destruct (missing_upload_requests_ok env m w Hm) as (requests & w' & E & Hr & Hk).
  unfold grows in *. rewrite E in *. by split; [apply Hg|].
Qed.

Lemma missingDigests_grows m (w : W) :
  Forall (entry_ok env) m ->
  grows stored w (missingDigests env self m) (fun files w' =>
    Forall (entry_ok env) files /\
    forall k, k ∈ keys m -> k ∈ keys files \/ is_Some (stored w' !! k)).
Proof.
  intros Hm. pose proof (findMissingBlobs_grows env self m.*1 w) as Hf.
  unfold grows in Hf. destruct (findMissingBlobs env self m.*1 w) as [[missing|e] w1] eqn:E.
  - destruct Hf as (Hs & H1 & H2).
    destruct (missingDigests_ok env self m missing w w1 Hm E) as [Hok _].
    destruct Hok as (files & Em & Hok & _ & Hkeys); [exact H2|].
    unfold grows. rewrite Em. split; [done|]. split; [done|].
    intros k Hk. rewrite Hkeys.
    assert (exists d, k = digest_key d) as [d ->]
      by (exists (MkDigest k.1 k.2 []); by destruct k).
    by apply H1.
  - unfold grows, missingDigests, mbind_M. by change (map fst m) with (m.*1); rewrite E.
Qed.

Lemma uploadDirectory_grows path (wants_digest wants_tree : bool) (w : W) out nested_dir files
    (Hwalk : walk_directory sys_directory path w = Ok (nested_dir, files))
    (Hfiles : Forall (fun e => file_path_of env e.1 e.2) files)
    (Hser : forall msg, is_Some (ParseDirectory env (ser msg))) :
  let tree := to_tree us ser nested_dir in
  grows (fun s => stored s.1) (w, out)
    (uploadDirectory env us ser sys_directory um_order self path wants_digest wants_tree)
    (fun results s' =>
       (forall d, digest_key d ∈ keys (blobs_of us ser nested_dir files) ->
          accounted env self results s'.1 d) /\
       (wants_digest = true ->
          root_directory_digest s'.2 = Some (make_digest ser (root tree)))).
Proof.
  intros tree. pose proof (walk_distinct _ _ _ _ _ Hwalk) as Hdistinct.
  assert (Forall (entry_ok env) files) as Hok0
    by (eapply Forall_impl; [|exact Hfiles]; by right).
  destruct (blobs_of_ok env us ser Hser nested_dir files Hok0 Hdistinct) as (_ & Hok & _).
  unfold grows at 1. rewrite (uploadDirectory_after_walk env us ser sys_directory um_order self
    path wants_digest wants_tree w out nested_dir files Hwalk Hser Hok0 Hdistinct).
  set (blobs := blobs_of us ser nested_dir files) in *. fold tree.
  set (out1 := MkUploadOutputs _ _).
  assert (wants_digest = true ->
    root_directory_digest out1 = Some (make_digest ser (root tree))) as Hout1 by (by intros ->).
  match goal with |- match ?m (w, out1) with _ => _ end =>
    enough (grows (fun s => stored s.1) (w, out1) m (fun results s' =>
       (forall d, digest_key d ∈ keys blobs -> accounted env self results s'.1 d) /\
       (wants_digest = true ->
          root_directory_digest s'.2 = Some (make_digest ser (root tree))))) as Hg
      by exact Hg end.
  eapply grows_bind; [apply grows_world, missingDigests_grows; by rewrite Horder|].
  intros dm [w1 out1'] _ [[Hdm Hkeys] Eo]. cbn in Hkeys, Eo. subst out1'.
  eapply grows_bind; [apply grows_world, missing_upload_requests_grows; by rewrite Horder|].
  intros requests [w2 out2] Hw2 [[Hr Hrk] Eo]. cbn in Hw2, Eo. subst out2.
  apply (grows_bind _ _ _ _ (fun _ s' => s'.1 = w2 /\
    root_directory_digest s'.2 = root_directory_digest out1)).
  { by destruct wants_tree; unfold grows. }
  intros [] [w3 out3] _ [Ew Eo]. cbn in Ew, Eo. subst w3.
  eapply grows_mono; [by apply grows_grown, grows_world, uploadBlobs_grows|].
  intros results [w4 out4] (Hw4 & Hall & Eo4). cbn in *. subst out4. split; [|by rewrite Eo].
  intros d Hd. destruct (Hkeys (digest_key d)) as [Hk|Hk]; [by rewrite Horder| |].
  - assert (digest_key d ∈ digest_key <$> (ur_digest <$> requests)) as Hin
      by (rewrite Hrk; by fold (keys (um_order dm)); rewrite Horder).
    rewrite <- list_fmap_compose in Hin. apply list_elem_of_fmap in Hin as (r & Er & Hin).
    apply digest_key_spec in Er. rewrite Er. unfold all_accounted in Hall.
    rewrite Forall_forall in Hall. by apply Hall, list_elem_of_In.
  - left. eapply stored_mono; [exact Hw4|]. by eapply stored_mono.
Qed.
End upload_directory.

(** ** The blobs of a directory *)

Section tree_blobs.
Context (us : Z -> Timestamp) (ser : Directory -> str) `{DigestFunction}.

(** The messages of the directories, and the digests of these and of the files. *)
Definition tree_messages (d : NestedDirectory) : list Directory :=
  children (to_tree us ser d) ++ [root (to_tree us ser d)].

Inductive tree_blob (d : NestedDirectory) : Digest -> Prop :=
  | tree_blob_message msg : msg ∈ tree_messages d -> tree_blob d (make_digest ser msg)
  | tree_blob_file d' n f :
      d' ∈ descendants d ++ [d] -> In (n, f) (d_files d') -> tree_blob d (d_digest f).

Lemma tree_messages_dir d d' : d' ∈ descendants d ++ [d] -> dir_message us ser d' ∈ tree_messages d.
Proof.
  intros Hd. unfold tree_messages. rewrite to_tree_spec. cbn [root children].
  change [dir_message us ser d] with (map (dir_message us ser) [d]).
  rewrite <- map_app. by apply list_elem_of_fmap_2.
Qed.

Lemma tree_blob_key {W : Type} (env : CasEnv W) sys_directory path (w : W) nested_dir files digest :
  walk_directory sys_directory path w = Ok (nested_dir, files) ->
  Forall (fun e => file_path_of env e.1 e.2) files ->
  (forall msg, is_Some (ParseDirectory env (ser msg))) ->
  tree_blob nested_dir digest -> digest_key digest ∈ keys (blobs_of us ser nested_dir files).
Proof.
  intros Hwalk Hfiles Hser Hblob.
  assert (Forall (entry_ok env) files) as Hok0
    by (eapply Forall_impl; [|exact Hfiles]; by right).
  destruct (blobs_of_ok env us ser Hser nested_dir files Hok0 (walk_distinct _ _ _ _ _ Hwalk))
    as (_ & _ & _ & Hkeys).
  apply Hkeys. destruct Hblob as [msg Hm|d' n f Hd Hf]; [right; by exists msg|left].
  by apply (walk_covered _ _ _ _ _ Hwalk d' n f).
Qed.
End tree_blobs.

(** ** The files of a directory, written out *)

Definition file_mode (f : FileNode) : Z := if fn_is_executable f then 493 else 420.

(** Every file is written, with data of its digest, and nothing is written but
    to these files, with data of their hash.  Files with the same contents are
    written together, perhaps more than once. *)
Definition files_delivered `{DigestFunction} (nodes : list FileNode) (path : str)
    (ops : list op) : Prop :=
  (forall f, f ∈ nodes -> exists data, digest_equiv (digest_of data) (fn_digest f) /\
     OpWrite (path ++ L "/" ++ fn_name f) data (file_mode f) ∈ ops) /\
  (forall p, p ∈ ops -> exists f data, f ∈ nodes /\
     p = OpWrite (path ++ L "/" ++ fn_name f) data (file_mode f) /\
     hash_other (digest_of data) = hash_other (fn_digest f)).

Lemma delivers_files `{DigestFunction} nodes path ops :
  delivers (file_outputs path nodes) (map fn_digest nodes) ops -> files_delivered nodes path ops.
Proof.
  intros [H1 H2]. split.
  - intros f Hf. destruct (H1 (fn_digest f)) as (data & He & Ho).
    { by apply (list_elem_of_fmap_2 fn_digest). }
    exists data. split; [done|].
    apply (Ho (hash_other (fn_digest f), (path ++ L "/" ++ fn_name f, fn_is_executable f)));
      [|done]. by apply (list_elem_of_fmap_2 (fun file => (hash_other (fn_digest file),
        (path ++ L "/" ++ fn_name file, fn_is_executable file)))).
  - intros p Hp. destruct (H2 p Hp) as (o & data & Ho & -> & Hh).
    apply list_elem_of_fmap in Ho as (f & -> & Hf). by exists f, data.
Qed.

Section download.
Context {W : Type} (env : CasEnv W) `{DigestFunction} `{StdSort} (self : Client).
Context `{CD : ClientDigestFunction} `{!SameDigestFunction}.
Context `{!CasServer env self} (fs_log : W -> list op) `{!CasReader env self fs_log}.
Context (writeFileAtomically : str -> str -> Z -> M W unit).
Context (Hdisk : LocalDisk env stored fs_log writeFileAtomically).
Context (us : Z -> Timestamp) (ser : Directory -> str).
Context (Hser : forall msg, ParseDirectory env (ser msg) = Some msg).
Context (Hlimit : 256 <= d_maxBatchTotalSizeBytes self < 2 ^ 63).
Context (blobs : blob_map).

Abbreviation has_blobs := (holding env self blobs).

Lemma disk_recorder : recorder env has_blobs fs_log.
Proof.
  split; [intros path w Hw; destruct (disk_mkdir _ _ _ _ Hdisk path w) as (w' & E & Hs & Hl)|
    intros target path w Hw;
    destruct (disk_symlink _ _ _ _ Hdisk target path w) as (w' & E & Hs & Hl)];
    (exists w'; eexists; rewrite E; split; [done|]; split; [|done];
     unfold holding; by rewrite Hs).
Qed.

Lemma fetchMessage_does msg :
  blobs !! digest_key (make_digest ser msg) = Some (ser msg) ->
  does has_blobs fs_log (fetchMessage env self (make_digest ser msg)) msg (eq []).
Proof.
  intros Hm w Hw.
  destruct (fetchString_stored env self fs_log blobs _ _ w Hm Hw) as (w' & E & Hw' & Hl).
  exists w', []. unfold fetchMessage, mbind_M. rewrite E, Hser, app_nil_r. done.
Qed.

Lemma directory_served d :
  blobs !! digest_key (make_digest ser (dir_message us ser d))
    = Some (ser (dir_message us ser d)) ->
  (forall n f, In (n, f) (d_files d) -> is_stored blobs (d_digest f) /\ sized (d_digest f)) ->
  served us ser (downloadBlobs_to_outputs env writeFileAtomically self) (fetchMessage env self)
    has_blobs fs_log files_delivered d.
Proof.
  intros Hm Hf. split; [by apply fetchMessage_does|]. intros path nodes w Hw.
  assert (forall digest, digest ∈ map fn_digest nodes -> is_stored blobs digest /\ sized digest) as Hn.
  { intros digest (node & -> & Hin)%list_elem_of_fmap. unfold nodes, file_nodes in Hin.
    apply list_elem_of_fmap in Hin as ([n f] & -> & Hin). by apply (Hf n f), list_elem_of_In. }
  destruct (downloadBlobs_to_outputs_delivers env self fs_log writeFileAtomically Hdisk blobs
    (file_outputs path nodes) (map fn_digest nodes) w Hlimit) as ([] & w' & ops & E & Hw' & Hl & Hd).
  - apply List.Forall_forall. intros digest Hin%list_elem_of_In. by apply Hn.
  - done.
  - apply List.Forall_forall. intros digest Hin%list_elem_of_In. by apply Hn.
  - exists w', ops. split; [done|]. split; [done|]. split; [done|]. by apply delivers_files.
Qed.
End download.

(** ** Properties *)

(** C10. [uploadDirectory] loses nothing: whatever fails on the way, the server
    keeps all it had, and when the call returns, every file and every directory
    message of the directory is on the server or named in what is returned; the
    root digest, if asked for, is that of the tree.  This holds for every server
    with the interface, as long as the files keep their contents, a serialized
    directory parses and the path of a file does not. *)
Theorem uploadDirectory_stores {W : Type} (env : CasEnv W) (H : DigestFunction)
    (S : StdSort) (self : Client) (Hserver : CasServer env self) (us : Z -> Timestamp)
    (ser : Directory -> str) (sys_directory : str -> W -> option Z * list (str * fs_entry))
    (um_order : entries -> entries) (path : str) (wants_digest wants_tree : bool) (w : W)
    (out : UploadOutputs) (nested_dir : NestedDirectory) (files : entries)
    (Horder : forall m, um_order m ≡ₚ m)
    (Hwalk : walk_directory sys_directory path w = Ok (nested_dir, files))
    (Hfiles : Forall (fun e => file_path_of env e.1 e.2) files)
    (Hser : forall msg, is_Some (ParseDirectory env (ser msg))) :
  match uploadDirectory env us ser sys_directory um_order self path wants_digest wants_tree
          (w, out) with
  | (Ok results, (w', out')) =>
      stored w ⊆ stored w' /\
      (forall digest, tree_blob us ser nested_dir digest ->
         is_Some (stored w' !! digest_key digest) \/
         exists d code, (d, code) ∈ results /\ digest_equiv d digest) /\
      (wants_digest = true ->
         root_directory_digest out' = Some (to_digest (M := entries) us ser nested_dir None).1)
  | (Throw _, (w', _)) => stored w ⊆ stored w'
  end.
Proof.
  pose proof (uploadDirectory_grows env self us ser sys_directory um_order Horder path
    wants_digest wants_tree w out nested_dir files Hwalk Hfiles Hser) as Hg.
  unfold grows in Hg. destruct (uploadDirectory _ _ _ _ _ _ _ _ _ _) as [[results|e] [w' out']];
    [|done].
  destruct Hg as (Hs & Hall & Hd). split; [done|]. split.
  - intros digest Hblob. apply Hall.
    by eapply (tree_blob_key us ser env sys_directory path w).
  - intros Hw. cbn in Hd. rewrite (Hd Hw). by rewrite to_tree_spec, to_digest_spec.
Qed.

(** C4. A directory that was uploaded can be downloaded: if [uploadDirectory]
    returned and reported no failure, then at any later time, from a server that
    still has what it had and is reachable, [downloadDirectory] of the root
    digest, by a library that was built with the function that clients check
    downloads with (SHA256, the default), finishes and writes the directory out:
    every directory is made before it is filled, every file is written with data of its digest and its
    executable bit, and every symlink with a name and a target is made -- unless
    the server holds other data under the digest of a directory message, a
    collision of the hash function. *)
Theorem uploaded_directory_downloads {W : Type} (env : CasEnv W) (H : DigestFunction)
    (CD : ClientDigestFunction) (Hsame : SameDigestFunction)
    (S : StdSort) (self : Client) (Hserver : CasServer env self) (fs_log : W -> list op)
    (Hreader : CasReader env self fs_log) (writeFileAtomically : str -> str -> Z -> M W unit)
    (us : Z -> Timestamp) (ser : Directory -> str)
    (sys_directory : str -> W -> option Z * list (str * fs_entry))
    (um_order : entries -> entries) (path target : str) (wants_tree : bool) (w w1 w2 : W)
    (out out1 : UploadOutputs) (nested_dir : NestedDirectory) (files : entries) (fuel : nat)
    (Hdisk : LocalDisk env stored fs_log writeFileAtomically)
    (Horder : forall m, um_order m ≡ₚ m)
    (Hwalk : walk_directory sys_directory path w = Ok (nested_dir, files))
    (Hfiles : Forall (fun e => file_path_of env e.1 e.2) files)
    (Hser : forall msg, ParseDirectory env (ser msg) = Some msg)
    (Hlimit : 256 <= d_maxBatchTotalSizeBytes self < 2 ^ 63)
    (Hsized : forall digest, tree_blob us ser nested_dir digest -> sized digest)
    (Hupload : uploadDirectory env us ser sys_directory um_order self path true wants_tree
       (w, out) = (Ok [], (w1, out1)))
    (Hlater : stored w1 ⊆ stored w2) (Hfuel : (height nested_dir <= fuel)%nat) :
  exists digest, root_directory_digest out1 = Some digest /\
    ((exists msg data, msg ∈ tree_messages us ser nested_dir /\
        stored w2 !! digest_key (make_digest ser msg) = Some data /\ data <> ser msg) \/
     exists w3 ops,
       downloadDirectory env writeFileAtomically fuel self digest target w2 = (Ok true, w3) /\
       fs_log w3 = fs_log w2 ++ ops /\
       tree_written us files_delivered nested_dir target ops).
Proof.
  assert (forall msg, is_Some (ParseDirectory env (ser msg))) as Hser' by (by eexists).
  pose proof (uploadDirectory_grows env self us ser sys_directory um_order Horder path
    true wants_tree w out nested_dir files Hwalk Hfiles Hser') as Hg.
  unfold grows in Hg. rewrite Hupload in Hg. destruct Hg as (_ & Hall & Hd). cbn in Hall, Hd.
  rewrite to_tree_spec in Hd. cbn [root] in Hd.
  eexists. split; [by apply Hd|].
  assert (forall digest, tree_blob us ser nested_dir digest -> is_stored (stored w2) digest) as Hst.
  { intros digest Hb. destruct (Hall digest) as [Hs|(d & code & Hin & _)];
      [by eapply (tree_blob_key us ser env sys_directory path w)|by eapply stored_mono|].
    by apply elem_of_nil in Hin. }
  destruct (decide (Forall (fun msg =>
    stored w2 !! digest_key (make_digest ser msg) = Some (ser msg)) (tree_messages us ser nested_dir)))
    as [Hok|Hbad]; [right|left].
  - rewrite List.Forall_forall in Hok. unfold downloadDirectory.
    destruct (downloadDirectory_does us ser env
      (downloadBlobs_to_outputs env writeFileAtomically self) (fetchMessage env self) _ fs_log
      (disk_recorder env self fs_log writeFileAtomically Hdisk (stored w2))
      files_delivered nested_dir target fuel Hfuel) with (w := w2) as (w3 & ops & E & _ & Hl & Ht);
      [|by unfold holding|by exists w3, ops].
    apply List.Forall_forall. intros d' Hd'%list_elem_of_In.
    apply directory_served; [done..| |].
    + by apply Hok, list_elem_of_In, tree_messages_dir.
    + intros n f Hf. assert (tree_blob us ser nested_dir (d_digest f)) as Hb
        by (by eapply tree_blob_file).
      split; [by apply Hst|by apply Hsized].
  - apply not_Forall_Exists in Hbad; [|apply _]. apply List.Exists_exists in Hbad as (msg & Hm & Hbad).
    apply list_elem_of_In in Hm. destruct (Hst (make_digest ser msg)) as [data Hdata];
      [by constructor|].
    exists msg, data. split; [done|]. split; [done|]. intros ->. by apply Hbad.
Qed.

(** What [uploadMessage] has uploaded can be fetched under the digest it returned,
    by a library that was built with the function of the clients, unless the server
    holds other data with this digest.  (With another function it is refused, as
    [fetchString_other_function] shows.) *)
Theorem uploaded_message_fetches {W : Type} (env : CasEnv W) (H : DigestFunction)
    (CD : ClientDigestFunction) (Hsame : SameDigestFunction)
    (self : Client) (Hserver : CasServer env self) (fs_log : W -> list op)
    (Hreader : CasReader env self fs_log) (ser : Directory -> str) (msg : Directory)
    (w w1 w2 : W) (digest : Digest)
    (Hparse : ParseDirectory env (ser msg) = Some msg)
    (Hupload : uploadMessage env ser self msg w = (Ok digest, w1))
    (Hlater : stored w1 ⊆ stored w2) :
  digest = make_digest ser msg /\
  ((exists data, stored w2 !! digest_key digest = Some data /\ data <> ser msg) \/
   exists w3, fetchMessage env self digest w2 = (Ok msg, w3)).
Proof.
  unfold uploadMessage, mbind_M in Hupload.
  pose proof (uploadRequest_grows env self (MkUploadRequest (digest_of (ser msg)) (ser msg) []) w)
    as Hg.
  unfold grows, uploadRequest in Hg. cbn [ur_path ur_data ur_digest] in Hg.
  rewrite decide_True in Hg by done.
  destruct (upload env self (ser msg) (digest_of (ser msg)) w) as [[u|e] w']; [|done].
  injection Hupload as <- ->. split; [done|]. destruct Hg as [_ Hs]; [by split|].
  destruct (stored_mono _ _ _ Hlater Hs) as [data Hdata].
  destruct (decide (data = ser msg)) as [->|Hne]; [right|left; by exists data].
  destruct (fetchString_stored env self fs_log (stored w2) _ _ w2 Hdata) as (w3 & E & _);
    [by unfold holding|].
  exists w3. unfold fetchMessage, mbind_M. by rewrite E, Hparse.
Qed.

(** ** An example

    A serialization of the messages that parses back, ... *)

Class Codec (A : Type) := {
  enc : A -> str;
  dec : str -> option (A * str);
  dec_enc x rest : dec (enc x ++ rest) = Some (x, rest);
}.

#[local, refine] Instance ascii_codec : Codec ascii :=
  {| enc c := [c]; dec s := match s with c :: s => Some (c, s) | [] => None end |}.
Proof. done. Defined.

Fixpoint enc_bits (p : positive) : str :=
  match p with
  | xH => L "."
  | xO p => "0"%char :: enc_bits p
  | xI p => "1"%char :: enc_bits p
  end.

Fixpoint dec_bits (s : str) : option (positive * str) :=
  match s with
  | "."%char :: s => Some (xH, s)
  | "0"%char :: s => '(p, s) ← dec_bits s; Some (xO p, s)
  | "1"%char :: s => '(p, s) ← dec_bits s; Some (xI p, s)
  | _ => None
  end.

#[local, refine] Instance positive_codec : Codec positive :=
  {| enc := enc_bits; dec := dec_bits |}.
Proof. intros p rest. induction p as [p IH|p IH|]; cbn; [by rewrite IH..|done]. Defined.

Section codecs.
Context {A B : Type} `{Codec A} `{Codec B}.

#[refine] Definition via_codec (f : B -> A) (g : A -> B) (Hgf : forall x, g (f x) = x) : Codec B :=
  {| enc x := enc (f x);
     dec s := '(x, s) ← dec s; Some (g x, s) |}.
Proof. intros x rest. rewrite dec_enc. cbn. by rewrite Hgf. Defined.

#[refine] Instance pair_codec : Codec (A * B) :=
  {| enc p := enc p.1 ++ enc p.2;
     dec s := '(a, s) ← dec s; '(b, s) ← dec s; Some (a, b, s) |}.
Proof. intros [a b] rest. rewrite <- app_assoc, dec_enc. cbn. by rewrite dec_enc. Defined.

Fixpoint dec_many (n : nat) (s : str) : option (list A * str) :=
  match n with
  | O => Some ([], s)
  | S n => '(x, s) ← dec s; '(l, s) ← dec_many n s; Some (x :: l, s)
  end.

(** The length, then the elements. *)
#[refine] Instance list_codec : Codec (list A) :=
  {| enc l := enc (Pos.of_succ_nat (length l)) ++ concat (map enc l);
     dec s := '(n, s) ← dec s; dec_many (Nat.pred (Pos.to_nat n)) s |}.
Proof.
  intros l rest. rewrite <- app_assoc, dec_enc. cbn [mbind option_bind].
  rewrite SuccNat2Pos.id_succ. cbn [Nat.pred].
  induction l as [|x l IH]; [done|]. cbn [length dec_many map concat].
  rewrite <- app_assoc, dec_enc. cbn. by rewrite IH.
Defined.
End codecs.
#[local] Existing Instances pair_codec list_codec.

#[local, refine] Instance Z_codec : Codec Z :=
  via_codec (fun z => (Z.to_pos (Z.abs z + 1), if z <? 0 then "-"%char else "+"%char))
    (fun p => if decide (p.2 = "-"%char) then - (Z.pos p.1 - 1) else Z.pos p.1 - 1) _.
Proof.
  intros z. cbn [fst snd]. rewrite Z2Pos.id by lia.
  destruct (Z.ltb_spec z 0); [rewrite decide_True by done|rewrite decide_False by done]; lia.
Defined.

#[local, refine] Instance bool_codec : Codec bool :=
  via_codec (fun b => if b : bool then "1"%char else "0"%char)
    (fun c => bool_decide (c = "1"%char)) _.
Proof. by intros []. Defined.

#[local, refine] Instance option_codec `{Codec A} : Codec (option A) :=
  via_codec option_list list.head _.
Proof. by intros []. Defined.

#[local, refine] Instance Digest_codec : Codec Digest :=
  via_codec (fun d => (hash_other d, size_bytes d, hash_blake3zcc d))
    (fun '(h, n, b) => MkDigest h n b) _.
Proof. by intros []. Defined.

#[local, refine] Instance Timestamp_codec : Codec Timestamp :=
  via_codec (fun t => (seconds t, nanos t)) (fun '(s, n) => MkTimestamp s n) _.
Proof. by intros []. Defined.

#[local, refine] Instance FileNode_codec : Codec FileNode :=
  via_codec (fun f => (fn_name f, fn_digest f, fn_is_executable f, fn_mtime f))
    (fun '(n, d, x, t) => MkFileNode n d x t) _.
Proof. by intros []. Defined.

#[local, refine] Instance SymlinkNode_codec : Codec SymlinkNode :=
  via_codec (fun s => (sn_name s, sn_target s)) (fun '(n, t) => MkSymlinkNode n t) _.
Proof. by intros []. Defined.

#[local, refine] Instance DirectoryNode_codec : Codec DirectoryNode :=
  via_codec (fun d => (dn_name d, dn_digest d)) (fun '(n, d) => MkDirectoryNode n d) _.
Proof. by intros []. Defined.

#[local, refine] Instance Directory_codec : Codec Directory :=
  via_codec (fun d => (Merklize.files d, directories d, symlinks d))
    (fun '(f, d, s) => MkDirectory f d s) _.
Proof. by intros []. Defined.

Definition toy_message (msg : Directory) : str := "D"%char :: enc msg.

(** No path starts with this letter. *)
Definition toy_parse_message (s : str) : option Directory :=
  match s with
  | "D"%char :: s => match dec s with Some (msg, []) => Some msg | _ => None end
  | _ => None
  end.

Lemma toy_message_parses msg : toy_parse_message (toy_message msg) = Some msg.
Proof.
  cbn [toy_parse_message toy_message]. rewrite <- (app_nil_r (enc msg)). by rewrite dec_enc.
Qed.

(** ... and a server that stores every blob it is sent. *)

#[local] Existing Instances toy_digests toy_client_digests toy_same_digests.

Record toy_world := MkToyWorld {
  tw_blobs : list str;
  tw_stream : str;
  tw_log : list op;
}.

Definition toy_put (data : str) (w : toy_world) : toy_world :=
  MkToyWorld (data :: tw_blobs w) (tw_stream w) (tw_log w).

Definition toy_did (o : op) (w : toy_world) : toy_world :=
  MkToyWorld (tw_blobs w) (tw_stream w) (tw_log w ++ [o]).

Definition toy_stored (w : toy_world) : blob_map :=
  list_to_map ((fun data => (digest_key (toy_digest_of data), data)) <$> tw_blobs w).

Definition toy_has (w : toy_world) (d : Digest) : bool :=
  existsb (fun data => digest_eqb (toy_digest_of data) d) (tw_blobs w).

Definition toy_load (path : str) : option str :=
  Some (if decide (path = L "/d/f") then L "abc" else replicate 1100 "x"%char).

Definition toy_server : CasEnv toy_world :=
  {| cas_env := {|
       stub_Read := fun resource _ w =>
         match list_find (fun data =>
                 makeResourceName toy_limits (toy_digest_of data) false = resource) (tw_blobs w) with
         | Some (_, data) => ([data], status_of OK, w)
         | None => ([], status_of NOT_FOUND, w)
         end;
       stub_Write := fun w => MkToyWorld (tw_blobs w) [] (tw_log w);
       writer_Write := fun r w => (true, MkToyWorld (tw_blobs w) (tw_stream w ++ wr_data r) (tw_log w));
       writer_Finish := fun w => (status_of OK, zlen (tw_stream w), toy_put (tw_stream w) w);
       stub_GetCapabilities := fun _ w => (status_of OK, 1000, w);
       sys_write := fun n w => (n, w);
       sys_read_error := fun w => (None, w);
       sys_errno := fun _ => 5;
       retry_delay := fun _ => None |};
     stub_BatchUpdateBlobs := fun _ l w =>
       (status_of OK, map (fun p => (p.1, OK)) l, foldr (fun p => toy_put p.2) w l);
     stub_BatchReadBlobs := fun _ l w =>
       (status_of OK, map (fun d => (d, hash_other d, OK)) (filter (fun d => toy_has w d) l), w);
     stub_FindMissingBlobs := fun _ l w =>
       (status_of OK, filter (fun d => negb (toy_has w d)) l, w);
     stub_GetTree := fun _ _ w => ([], status_of OK, w);
     stub_FetchTree := fun _ _ _ w => (status_of OK, w);
     stub_CaptureTree := fun _ w => (status_of OK, [], w);
     stub_CaptureFiles := fun _ w => (status_of OK, [], w);
     stub_StageTree := fun w => w;
     stage_Write := fun _ w => (true, w);
     stage_Read := fun w => (None, w);
     stage_WritesDone := fun w => w;
     stage_Finish := fun w => (status_of OK, w);
     sys_open := fun _ w => (inl 2, w);
     sys_load := fun path w => (toy_load path, w);
     sys_create := fun _ w => (Some 13, w);
     fs_put := fun _ _ w => w;
     sys_store := fun _ _ w => (true, w);
     sys_mkdir := fun path w => (None, toy_did (OpMkdir path) w);
     sys_symlink := fun target path w => (None, toy_did (OpSymlink target path) w);
     ByteSizeLong := fun _ => 70;
     ParseDirectory := toy_parse_message |}.

Lemma toy_stored_spec w k data :
  toy_stored w !! k = Some data <->
  data ∈ tw_blobs w /\ k = digest_key (toy_digest_of data).
Proof.
  unfold toy_stored. induction (tw_blobs w) as [|b blobs IH]; cbn [fmap list_fmap list_to_map foldr fst snd].
  - rewrite lookup_empty. split; [done|]. by intros [?%elem_of_nil _].
  - change (foldr _ _ _) with
      (list_to_map ((fun data => (digest_key (toy_digest_of data), data)) <$> blobs) : blob_map).
    rewrite lookup_insert_Some, IH, elem_of_cons. split; [naive_solver|].
    intros [[->|Hin] ->]; [by left|].
    destruct (decide (digest_key (toy_digest_of b) = digest_key (toy_digest_of data))) as [E|E].
    + left. split; [done|]. by injection E.
    + by right.
Qed.

Lemma toy_stored_grow w w' : tw_blobs w ⊆ tw_blobs w' -> toy_stored w ⊆ toy_stored w'.
Proof.
  intros Hs. apply map_subseteq_spec. intros k data. rewrite !toy_stored_spec.
  intros [Hd Hk]. split; [by apply Hs|done].
Qed.

Lemma toy_has_spec w d : toy_has w d = true <-> is_Some (toy_stored w !! digest_key d).
Proof.
  unfold toy_has. rewrite existsb_exists. split.
  - intros (data & Hin%list_elem_of_In & He). exists data. apply toy_stored_spec.
    split; [done|]. symmetry. by apply digest_key_spec.
  - intros [data [Hin Hk]%toy_stored_spec]. exists data. split; [by apply list_elem_of_In|].
    symmetry in Hk. by apply digest_key_spec in Hk.
Qed.

Lemma toy_puts w (l : list (Digest * str)) :
  tw_blobs (foldr (fun p => toy_put p.2) w l) = l.*2 ++ tw_blobs w.
Proof. induction l as [|p l IH]; [done|]. cbn. by rewrite IH. Qed.

Lemma toy_write_all rs w :
  write_all toy_server rs w =
  MkToyWorld (tw_blobs w) (tw_stream w ++ concat (wr_data <$> rs)) (tw_log w).
Proof.
  revert w. induction rs as [|r rs IH]; intros w; cbn; [rewrite app_nil_r; by destruct w|].
  rewrite IH. cbn. by rewrite <- app_assoc.
Qed.

#[refine] Instance toy_cas : CasServer toy_server toy_limits :=
  {| stored := toy_stored |}.
Proof.
  - by intros w k data [_ ->]%toy_stored_spec.
  - intros digests w status response w' [= <- <- <-]. split; [done|]. split; intros _ d.
    + intros (d0 & Hk & Hin)%list_elem_of_fmap. rewrite Hk.
      destruct (toy_has w d0) eqn:Eh; [right; by apply toy_has_spec|left].
      apply (list_elem_of_fmap_2 digest_key), list_elem_of_filter. by rewrite Eh.
    + intros [_ Hin]%list_elem_of_filter. by apply list_elem_of_fmap_2.
  - intros blobs w status response w' [= <- <- <-].
    split; [apply toy_stored_grow; rewrite toy_puts; intros x Hx; apply elem_of_app; by right|]. intros _ d data Hin He.
    exists d, OK. split; [by apply (list_elem_of_fmap_2 (fun p => (p.1, OK)) _ (d, data))|].
    split; [reflexivity|]. intros _. exists data. apply toy_stored_spec. rewrite toy_puts.
    split; [|by apply digest_key_spec]. apply elem_of_app. left.
    by apply (list_elem_of_fmap_2 snd _ (d, data)).
  - intros digest data rs w status n w' Hok He.
    apply upload_ok_data in Hok as (_ & Hdata & _). rewrite toy_write_all. cbn.
    rewrite Hdata. intros [= <- <- <-]. split.
    { apply toy_stored_grow. intros x Hx. by right. }
    intros _ _. exists data. apply toy_stored_spec. split; [by left|by apply digest_key_spec].
  - done.
Defined.

(** The size ends a resource name, so that it tells the data. *)
Lemma toy_resource_inj a b :
  makeResourceName toy_limits (toy_digest_of a) false =
  makeResourceName toy_limits (toy_digest_of b) false -> a = b.
Proof.
  assert (forall s : str, "/"%char ∉ to_string (zlen s)) as Hn.
  { intros s Hin. destruct (to_string_digits (zlen s) (zlen_nonneg s)) as [Hd _].
    rewrite List.Forall_forall in Hd. by apply list_elem_of_In, Hd in Hin as []. }
  unfold makeResourceName. intros E. do 3 apply app_inv_head in E.
  cbn [hash_other size_bytes toy_digest_of toy_digests digest_of] in E.
  apply (f_equal (@rev ascii)) in E. rewrite !rev_app_distr in E.
  change (rev (L "/")) with (L "/") in E. rewrite <- !app_assoc in E.
  apply no_slash_split in E as [_ E]; [|intros Hin%list_elem_of_In%in_rev%list_elem_of_In; by eapply Hn..].
  apply (f_equal (@rev ascii)) in E. by rewrite !rev_involutive in E.
Qed.

Definition toy_write_file (path data : str) (mode : Z) : M toy_world unit :=
  fun w => (Ok tt, toy_did (OpWrite path data mode) w).

Lemma toy_disk : LocalDisk toy_server toy_stored tw_log toy_write_file.
Proof. split; intros; eexists; (split; [reflexivity|done]). Qed.

#[refine] Instance toy_reader : CasReader toy_server toy_limits tw_log := {}.
Proof.
  - intros digest data w [Hin Hk]%toy_stored_spec. cbn [stub_Read toy_server cas_env].
    symmetry in Hk. apply digest_key_spec, digest_eqb_spec in Hk as [Hh Hs].
    assert (makeResourceName toy_limits digest false =
      makeResourceName toy_limits (toy_digest_of data) false) as ->
      by (unfold makeResourceName; by rewrite Hh, Hs).
    destruct (list_find _ _) as [[i data']|] eqn:E.
    + apply list_find_Some in E as (_ & Er%toy_resource_inj & _). subst data'.
      exists [data], (status_of OK), w. cbn. by rewrite app_nil_r.
    + exfalso. apply list_find_None in E. rewrite List.Forall_forall in E.
      apply list_elem_of_In in Hin. by apply (E data Hin).
  - intros digests w Hd _. exists (status_of OK). do 2 eexists. split; [reflexivity|].
    split; [done|]. split; [done|]. split; [done|].
    assert (forall d, d ∈ digests -> d ∈ filter (fun d => toy_has w d) digests) as Hf.
    { intros d Hin. apply list_elem_of_filter. split; [|done]. apply Is_true_true, toy_has_spec.
      by apply Hd. }
    split.
    + intros d Hin. exists d, (hash_other d). split; [|reflexivity].
      apply (list_elem_of_fmap_2 (fun d => (d, hash_other d, OK))). by apply Hf.
    + intros d data code (d0 & E & Hin)%list_elem_of_fmap. injection E as -> -> ->.
      apply list_elem_of_filter in Hin as [_ Hin]. split; [done|].
      split; [by apply list_elem_of_fmap_2|].
      destruct (Hd d0 Hin) as [data Hdata]. pose proof Hdata as [_ Hk]%toy_stored_spec.
      assert (hash_other d0 = data) as -> by (by injection Hk). exact Hdata.
Defined.

(** A file, a symlink, and a directory with a file that is too large for a
    batch. *)
Definition toy_source (path : str) (w : toy_world) : option Z * list (str * fs_entry) :=
  let file data := FsReg (MkFileOnDisk None false (Ok (toy_digest_of data)) 0) in
  (None, [(L "f", file (L "abc")); (L "link", FsLnk (inr (L "f")) FsOther);
          (L "sub", FsDir None [(L "g", file (replicate 1100 "x"%char))])]).

Definition toy_start : toy_world := MkToyWorld [] [] [].

Definition toy_upload :=
  uploadDirectory (H := toy_digests) (H0 := toy_sort) toy_server toy_us toy_message toy_source
    (fun m => m) toy_limits (L "/d") true false (toy_start, MkUploadOutputs None None).

Definition toy_nested : NestedDirectory :=
  match walk_directory toy_source (L "/d") toy_start with
  | Ok p => p.1
  | Throw _ => NestedDirectory_new
  end.

(** The files found, with their paths. *)
Definition toy_found : entries :=
  [(toy_digest_of (L "abc"), L "/d/f"); (toy_digest_of (replicate 1100 "x"%char), L "/d/sub/g")].

Lemma toy_walk : walk_directory toy_source (L "/d") toy_start = Ok (toy_nested, toy_found).
Proof. vm_compute. reflexivity. Qed.

Lemma toy_files_kept : Forall (fun e => file_path_of toy_server e.1 e.2) toy_found.
Proof.
  repeat (apply Forall_cons_2; [split; [reflexivity|]; intros w; do 2 eexists;
    (split; [vm_compute; reflexivity|reflexivity])|]). apply Forall_nil_2.
Qed.

Lemma uploadDirectory_stores_witness :
  exists w' out', toy_upload = (Ok [], (w', out')) /\ toy_stored toy_start ⊆ toy_stored w'.
Proof.
  pose proof (uploadDirectory_stores toy_server toy_digests toy_sort toy_limits toy_cas toy_us
    toy_message toy_source (fun m => m) (L "/d") true false toy_start (MkUploadOutputs None None)
    toy_nested toy_found) as Hs. fold toy_upload in Hs.
  assert (fst toy_upload = Ok []) as Er by (vm_compute; reflexivity).
  destruct toy_upload as [r [w' out']]. cbn in Er. subst r.
  exists w', out'. split; [reflexivity|]. apply Hs.
  - intros m. reflexivity.
  - exact toy_walk.
  - exact toy_files_kept.
  - intros msg. exists msg. apply toy_message_parses.
Defined.

#[local] Instance sized_decision d : Decision (sized d).
Proof. unfold sized. apply _. Defined.

(** The world after the upload. *)
Definition toy_uploaded : toy_world := toy_upload.2.1.

Lemma toy_sized digest : tree_blob toy_us toy_message toy_nested digest -> sized digest.
Proof.
  intros [msg Hm|d' n f Hd Hf].
  - assert (Forall (fun m => sized (make_digest toy_message m))
      (tree_messages toy_us toy_message toy_nested)) as Ha by by_evaluation.
    rewrite List.Forall_forall in Ha. by apply Ha, list_elem_of_In.
  - assert (Forall (fun d => Forall (fun p => sized (d_digest p.2)) (d_files d))
      (descendants toy_nested ++ [toy_nested])) as Ha by by_evaluation.
    rewrite List.Forall_forall in Ha. apply list_elem_of_In, Ha in Hd.
    rewrite List.Forall_forall in Hd. by apply (Hd (n, f)).
Qed.

Lemma uploaded_directory_downloads_witness :
  exists digest w3 ops,
    root_directory_digest toy_upload.2.2 = Some digest /\
    downloadDirectory (CD := toy_client_digests) (H := toy_sort) toy_server toy_write_file 2 toy_limits
      digest (L "/out") toy_uploaded = (Ok true, w3) /\
    tw_log w3 = ops /\
    tree_written toy_us files_delivered toy_nested (L "/out") ops.
Proof.
  destruct (uploaded_directory_downloads toy_server toy_digests toy_client_digests toy_same_digests toy_sort toy_limits toy_cas
    tw_log toy_reader toy_write_file toy_us toy_message toy_source (fun m => m) (L "/d") (L "/out")
    false toy_start toy_uploaded toy_uploaded (MkUploadOutputs None None) toy_upload.2.2
    toy_nested toy_found 2) as (digest & Ed & [(msg & data & _ & Hs & Hne)|(w3 & ops & E & Hl & Ht)]).
  - exact toy_disk.
  - intros m. reflexivity.
  - exact toy_walk.
  - exact toy_files_kept.
  - exact toy_message_parses.
  - vm_compute. split; congruence.
  - exact toy_sized.
  - change (toy_upload = (Ok [], (toy_uploaded, toy_upload.2.2))).
    vm_compute. reflexivity.
  - reflexivity.
  - vm_compute. lia.
  - exfalso. apply toy_stored_spec in Hs as [_ Hk]. apply Hne. by injection Hk.
  - exists digest, w3, ops. split; [exact Ed|]. split; [exact E|]. split; [|exact Ht].
    rewrite Hl. assert (tw_log toy_uploaded = []) as -> by (vm_compute; reflexivity). reflexivity.
Defined.

Lemma uploaded_message_fetches_witness :
  let upload := uploadMessage (H := toy_digests) toy_server toy_message toy_limits
                  empty_Directory toy_start in
  exists digest, upload.1 = Ok digest /\
  exists w3, fetchMessage (CD := toy_client_digests) toy_server toy_limits digest upload.2
    = (Ok empty_Directory, w3).
Proof.
  intros upload. exists (make_digest toy_message empty_Directory). split; [vm_compute; reflexivity|].
  destruct (uploaded_message_fetches toy_server toy_digests toy_client_digests toy_same_digests toy_limits toy_cas tw_log toy_reader
    toy_message empty_Directory toy_start upload.2 upload.2
    (make_digest toy_message empty_Directory)) as [_ [(data & Hs & Hne)|(w3 & E)]].
  - apply toy_message_parses.
  - vm_compute. reflexivity.
  - reflexivity.
  - exfalso. apply toy_stored_spec in Hs as [_ Hk]. apply Hne. by injection Hk.
  - exists w3. exact E.
Defined.
