(* ===== verification/Logging.v ===== *)
(** * Logging

    [buildboxcommon_logging.cpp], [buildboxcommon_logging.h]: the levels, the logger
    over the flags of glog, and the texts it makes.  The functions of glog are
    recorded as calls. *)

From S2P Require Import Prelude Grpc Paths StringUtils Cstring.
Open Scope Z_scope.

(** ** Levels *)

Inductive LogLevel := TRACE | DEBUG | INFO | WARNING | ERROR.

Definition stringToLogLevelMap : list (str * LogLevel) :=
  [(L "trace", TRACE); (L "debug", DEBUG); (L "info", INFO); (L "warning", WARNING);
   (L "error", ERROR)].

(** In the order of the levels, which are numbers. *)
Definition logLevelToStringMap : list (LogLevel * str) :=
  [(TRACE, L "trace"); (DEBUG, L "debug"); (INFO, L "info"); (WARNING, L "warning");
   (ERROR, L "error")].

(** Each name with a slash behind it; [pop_back] takes the last one. *)
Definition stringifyLogLevels : str :=
  List.removelast
    (fold_left (fun logLevels (p : LogLevel * str) => logLevels ++ snd p ++ [slash])
       logLevelToStringMap []).

(** ** The logger *)

Definition GLOG_INFO : Z := 0.
Definition GLOG_WARNING : Z := 1.
Definition GLOG_ERROR : Z := 2.
Definition GLOG_FATAL : Z := 3.
Definition GLOG_VLOG_LEVEL_DEBUG : Z := 1.
Definition GLOG_VLOG_LEVEL_TRACE : Z := 2.

(** The global variables of glog that are assigned. *)
Record GlogFlags := MkGlogFlags {
  FLAGS_log_dir : str;
  FLAGS_logtostderr : bool;
  FLAGS_alsologtostderr : bool;
  FLAGS_log_prefix : bool;
  FLAGS_stderrthreshold : Z;
}.

Inductive GlogCall :=
  | InitGoogleLogging (program : str)
  | SetStderrLogging (severity : Z)
  | SetVLOGLevel (pattern : str) (level : Z).

Record Logger := MkLogger {
  d_logOutputDirectory : option str;
  d_glogInitialized : bool;
  glog_flags : GlogFlags;
  glog_calls : list GlogCall;
}.

Definition Logger_new (flags : GlogFlags) : Logger := MkLogger None false flags [].

Definition lg_update (f : Logger -> Logger) : M Logger unit := fun s => (Ok tt, f s).
Definition lg_flags (f : GlogFlags -> GlogFlags) : M Logger unit :=
  lg_update (fun s => MkLogger (d_logOutputDirectory s) (d_glogInitialized s)
                        (f (glog_flags s)) (glog_calls s)).
Definition lg_call (call : GlogCall) : M Logger unit :=
  lg_update (fun s => MkLogger (d_logOutputDirectory s) (d_glogInitialized s) (glog_flags s)
                        (glog_calls s ++ [call])).
Definition lg_get {A} (f : Logger -> A) : M Logger A := fun s => (Ok (f s), s).

(** The directory may be a null pointer. *)
Definition setOutputDirectory (outputDirectory : option str) : M Logger unit :=
  let* initialized := lg_get d_glogInitialized in
  if (initialized : bool) then mthrow RuntimeError
  else
    lg_update (fun s => MkLogger outputDirectory (d_glogInitialized s) (glog_flags s)
                          (glog_calls s)).

Definition initialize (programName : option str) : M Logger unit :=
  match programName with
  | None | Some [] => mthrow RuntimeError
  | Some programName =>
      let* initialized := lg_get d_glogInitialized in
      if (initialized : bool) then mthrow RuntimeError
      else
        let* directory := lg_get d_logOutputDirectory in
        let* _ :=
          match directory with
          | Some directory =>
              lg_flags (fun f => MkGlogFlags directory false false (FLAGS_log_prefix f)
                                   (FLAGS_stderrthreshold f))
          | None =>
              lg_flags (fun f => MkGlogFlags (FLAGS_log_dir f) true (FLAGS_alsologtostderr f)
                                   (FLAGS_log_prefix f) (FLAGS_stderrthreshold f))
          end in
        let* _ :=
          lg_flags (fun f => MkGlogFlags (FLAGS_log_dir f) (FLAGS_logtostderr f)
                               (FLAGS_alsologtostderr f) false (FLAGS_stderrthreshold f)) in
        let* _ := lg_call (InitGoogleLogging programName) in
        lg_update (fun s => MkLogger (d_logOutputDirectory s) true (glog_flags s) (glog_calls s))
  end.

Definition setLogLevel (logLevel : LogLevel) : M Logger unit :=
  let* flags := lg_get glog_flags in
  if FLAGS_logtostderr flags || FLAGS_alsologtostderr flags then
    let glogMinSeverity :=
      match logLevel with
      | WARNING => GLOG_WARNING
      | ERROR => GLOG_ERROR
      | _ => GLOG_INFO
      end in
    let* _ := lg_call (SetStderrLogging glogMinSeverity) in
    match logLevel with
    | DEBUG => lg_call (SetVLOGLevel (L "*") GLOG_VLOG_LEVEL_DEBUG)
    | TRACE => lg_call (SetVLOGLevel (L "*") GLOG_VLOG_LEVEL_TRACE)
    | _ => mret tt
    end
  else mret tt.

Definition disableStderr : M Logger unit :=
  lg_flags (fun f => MkGlogFlags (FLAGS_log_dir f) false false (FLAGS_log_prefix f) GLOG_FATAL).

(** ** Texts *)

Definition printableCommandLine (commandLine : list str) : str :=
  match List.rev commandLine with
  | [] => []
  | back :: front => (List.rev front ≫= fun word => word ++ [space]) ++ back
  end.

(** [writeLogPrefix], for the local time as [put_time] prints it, the time in
    milliseconds, the process and the thread. *)
Definition writeLogPrefix (date zone : str) (now_ms pid thread : Z) (severity file : str)
    (lineNumber : Z) : str :=
  let basename := match rsplit_slash file with Some (_, after) => after | None => file end in
  let ms := to_string (Z.rem now_ms 1000) in
  date ++ L "." ++ replicate (3 - length ms) "0"%char ++ ms ++ zone ++
  L " [" ++ to_string pid ++ L ":" ++ to_string thread ++ L "] [" ++
  basename ++ L ":" ++ to_string lineNumber ++ L "] " ++ L "[" ++ severity ++ L "] ".

(** ** The macros that log

    What a macro hands to glog: a message with a severity, or one that is only logged
    from a verbosity on.  [date] to [lineNumber] are what [writeLogPrefix] looks up. *)
Inductive LogStatement :=
  | LOG (severity : Z) (message : str)
  | VLOG (verbosity : Z) (message : str).

Section macros.
Context (date zone : str) (now_ms pid thread : Z) (file : str) (lineNumber : Z).

Definition logPrefix (severity : str) : str :=
  writeLogPrefix date zone now_ms pid thread severity file lineNumber.

Definition BUILDBOX_LOG_TRACE (x : str) : LogStatement :=
  VLOG GLOG_VLOG_LEVEL_TRACE (logPrefix (L "TRACE") ++ x).
Definition BUILDBOX_LOG_DEBUG (x : str) : LogStatement :=
  VLOG GLOG_VLOG_LEVEL_DEBUG (logPrefix (L "DEBUG") ++ x).
Definition BUILDBOX_LOG_INFO (x : str) : LogStatement :=
  LOG GLOG_INFO (logPrefix (L "INFO") ++ x).
Definition BUILDBOX_LOG_WARNING (x : str) : LogStatement :=
  LOG GLOG_WARNING (logPrefix (L "WARNING") ++ x).
Definition BUILDBOX_LOG_ERROR (x : str) : LogStatement :=
  LOG GLOG_ERROR (logPrefix (L "ERROR") ++ x).

(** [buildboxcommon_exception.h]: the texts of the exceptions that the macros throw.
    The name of a source file does not end in a slash, so that its [basename] is what
    follows the last one. *)
Definition source_basename : str :=
  match rsplit_slash file with Some (_, after) => after | None => file end.

Definition source_location : str := source_basename ++ L ":" ++ to_string lineNumber.

Definition BUILDBOXCOMMON_THROW_EXCEPTION_what (exception what : str) : str :=
  exception ++ L " exception thrown at [" ++ source_location ++ L "], errMsg = " ++
  [ascii_of_nat 34] ++ what ++ [ascii_of_nat 34].

(** The constructor of [std::system_error] appends the text of the error. *)
Definition BUILDBOXCOMMON_THROW_SYSTEM_EXCEPTION_what (exception : str) (err : Z) (category what : str)
  : str :=
  exception ++ L " exception thrown at [" ++ source_location ++ L "] [" ++ category ++ L ":" ++
  to_string err ++ L "], errMsg = " ++ [ascii_of_nat 34] ++ what ++ [ascii_of_nat 34] ++
  L ", errno ".
End macros.
