(* ===== verification/RequestMetadata.v ===== *)
(** * What describes a request and a host

    [buildboxcommon_requestmetadata.cpp]: the message that tells a server about the
    tool behind a request; [buildboxcommon_platformutils.cpp]: the names of the
    operating system and the instruction set of the host. *)

From S2P Require Import Prelude Grpc Paths StringUtils Cstring.
Open Scope Z_scope.

(** ** Request metadata *)

Record ToolDetails := MkToolDetails { tool_name : str; tool_version : str }.

Record RequestMetadata := MkRequestMetadata {
  tool_details : ToolDetails;
  action_id : str;
  tool_invocation_id : str;
  correlated_invocations_id : str;
}.

Record RequestMetadataGenerator := MkRequestMetadataGenerator {
  d_tool_details : ToolDetails;
  d_action_id : str;
  d_tool_invocation_id : str;
  d_correlated_invocations_id : str;
}.

Definition HEADER_NAME : str := L "requestmetadata-bin".

Definition RequestMetadataGenerator_new : RequestMetadataGenerator :=
  MkRequestMetadataGenerator (MkToolDetails [] []) [] [] [].

Definition set_tool_details (name version : str) (g : RequestMetadataGenerator)
  : RequestMetadataGenerator :=
  MkRequestMetadataGenerator (MkToolDetails name version) (d_action_id g)
    (d_tool_invocation_id g) (d_correlated_invocations_id g).

Definition RequestMetadataGenerator_for (name version : str) : RequestMetadataGenerator :=
  set_tool_details name version RequestMetadataGenerator_new.

Definition set_action_id (id : str) (g : RequestMetadataGenerator) : RequestMetadataGenerator :=
  MkRequestMetadataGenerator (d_tool_details g) id (d_tool_invocation_id g)
    (d_correlated_invocations_id g).
Definition set_tool_invocation_id (id : str) (g : RequestMetadataGenerator)
  : RequestMetadataGenerator :=
  MkRequestMetadataGenerator (d_tool_details g) (d_action_id g) id
    (d_correlated_invocations_id g).
Definition set_correlated_invocations_id (id : str) (g : RequestMetadataGenerator)
  : RequestMetadataGenerator :=
  MkRequestMetadataGenerator (d_tool_details g) (d_action_id g) (d_tool_invocation_id g) id.

(** [Client::set_request_metadata]. *)
Definition set_request_metadata (action_id tool_invocation_id correlated_invocations_id : str)
    (d_metadata_generator : RequestMetadataGenerator) : RequestMetadataGenerator :=
  set_correlated_invocations_id correlated_invocations_id
    (set_tool_invocation_id tool_invocation_id (set_action_id action_id d_metadata_generator)).

Definition generate_request_metadata (action invocation correlated : str)
    (g : RequestMetadataGenerator) : RequestMetadata :=
  MkRequestMetadata (d_tool_details g) action invocation correlated.

(** [AddMetadata] appends to the metadata of a call; the serialization of the message
    is generated code. *)
Definition attach_request_metadata (SerializeAsString : RequestMetadata -> str)
    (g : RequestMetadataGenerator) (context : list (str * str)) : list (str * str) :=
  context ++
  [(HEADER_NAME,
    SerializeAsString
      (generate_request_metadata (d_action_id g) (d_tool_invocation_id g)
         (d_correlated_invocations_id g) g))].

(** ** The host *)

(** [uname]: an [errno], or [sysname] and [machine]. *)
Definition getHostOSFamily (uname : Z + str * str) : res str :=
  match uname with
  | inl errno => Throw (SystemError errno)
  | inr (sysname, _) => Ok (map tolower (c_str sysname))
  end.

Definition one_of (arch : str) (names : list str) : bool :=
  existsb (fun name => bool_decide (arch = name)) names.

Definition ISA_of_machine (arch : str) : str :=
  if one_of arch [L "i386"; L "i486"; L "i586"; L "i686"] then L "x86-32"
  else if one_of arch [L "amd64"; L "x86_64"] then L "x86-64"
  else if one_of arch [L "arm"] then L "aarch32"
  else if one_of arch [L "armv8l"] then L "aarch64"
  else if one_of arch [L "armv8b"] then L "aarch64-be"
  else if one_of arch [L "ppc64"] then L "power-isa-be"
  else if one_of arch [L "ppc64le"] then L "power-isa-le"
  else if one_of arch [L "sparc"; L "sparc64"; L "sun4v"] then L "sparc-v9"
  else arch.

Definition getHostISA (uname : Z + str * str) : res str :=
  match uname with
  | inl errno => Throw (SystemError errno)
  | inr (_, machine) => Ok (ISA_of_machine (c_str machine))
  end.
