(* ===== verification/SupportSpec.v ===== *)
(** * Properties of logging, request metadata and host names *)

From S2P Require Import Prelude Grpc Paths StringUtils Cstring Logging RequestMetadata.
Open Scope Z_scope.

(** ** The logger *)

Inductive logger_op :=
  | OpDirectory (directory : option str)
  | OpInitialize (program : option str)
  | OpLevel (level : LogLevel)
  | OpDisable.

Definition do_logger_op (o : logger_op) : M Logger unit :=
  match o with
  | OpDirectory directory => setOutputDirectory directory
  | OpInitialize program => initialize program
  | OpLevel level => setLogLevel level
  | OpDisable => disableStderr
  end.

(** The caller catches what is thrown and goes on. *)
Definition logger_run (ops : list logger_op) (s : Logger) : Logger :=
  fold_left (fun s o => snd (do_logger_op o s)) ops s.

Definition is_init (c : GlogCall) : bool :=
  match c with InitGoogleLogging _ => true | _ => false end.

Definition inits (s : Logger) : nat := length (List.filter is_init (glog_calls s)).

(** The last verbosity that glog was given. *)
Definition verbosity (calls : list GlogCall) : option Z :=
  fold_left (fun v c => match c with SetVLOGLevel _ level => Some level | _ => v end) calls None.

Record logger_ok (s : Logger) : Prop := {
  lo_once : inits s = if d_glogInitialized s then 1%nat else 0%nat;
  lo_directory : forall directory, d_glogInitialized s = true ->
    d_logOutputDirectory s = Some directory ->
    FLAGS_log_dir (glog_flags s) = directory /\ FLAGS_logtostderr (glog_flags s) = false /\
    FLAGS_alsologtostderr (glog_flags s) = false;
  lo_prefix : d_glogInitialized s = true -> FLAGS_log_prefix (glog_flags s) = false;
}.

Lemma inits_call s call : is_init call = false -> inits (snd (lg_call call s)) = inits s.
Proof.
  intros Hc. unfold inits. cbn. rewrite List.filter_app. cbn. rewrite Hc. by rewrite app_nil_r.
Qed.

Lemma logger_op_ok o s : logger_ok s -> logger_ok (snd (do_logger_op o s)).
Proof.
  intros H. pose proof H as [H1 H2 H3]. destruct o as [directory|[[|c program]|]|level|]; cbn; try done.
  - unfold setOutputDirectory, mbind_M, lg_get. destruct (d_glogInitialized s) eqn:E; [done|].
    split; cbn; rewrite ?E; [exact H1|done|done].
  - unfold initialize, mbind_M, lg_get. destruct (d_glogInitialized s) eqn:E; [done|].
    destruct (d_logOutputDirectory s) as [d|] eqn:Ed; cbn; split; cbn; try done.
    + unfold inits in *. cbn. by rewrite List.filter_app, length_app, H1.
    + intros d' _ Hd'. assert (d' = d) as -> by congruence. done.
    + unfold inits in *. cbn. by rewrite List.filter_app, length_app, H1.
    + intros d' _ Hd'. congruence.
  - unfold setLogLevel, mbind_M, lg_get. destruct (_ || _) eqn:E; [|done].
    destruct level; cbn; (split; cbn; [|exact H2|exact H3]);
      unfold inits in *; cbn; rewrite !List.filter_app; cbn; by rewrite !app_nil_r.
  - split; cbn; [done| |done]. intros d Hi Hd. by destruct (H2 d Hi Hd).
Qed.

(** Whatever calls are made and fail: glog is initialised at most once, and exactly when
    the logger says so; from then on its prefix is off, and with an output directory the
    logs go there and not to the standard error. *)
Theorem logger_consistent (flags : GlogFlags) (ops : list logger_op) :
  let s := logger_run ops (Logger_new flags) in
  inits s = (if d_glogInitialized s then 1%nat else 0%nat) /\
  (d_glogInitialized s = true ->
   FLAGS_log_prefix (glog_flags s) = false /\
   forall directory, d_logOutputDirectory s = Some directory ->
   FLAGS_log_dir (glog_flags s) = directory /\ FLAGS_logtostderr (glog_flags s) = false /\
   FLAGS_alsologtostderr (glog_flags s) = false).
Proof.
  assert (logger_ok (logger_run ops (Logger_new flags))) as [H1 H2 H3].
  { unfold logger_run. assert (logger_ok (Logger_new flags)) as H by done.
    revert H. generalize (Logger_new flags). induction ops as [|o ops IH]; intros s H; [done|].
    cbn. by apply IH, logger_op_ok. }
  split; [done|]. intros Hi. split; [by apply H3|]. intros d Hd. by apply H2.
Qed.

(** A level above DEBUG leaves the verbosity as it was: after TRACE, setting INFO,
    WARNING or ERROR does not hide the messages of TRACE again. *)
Theorem verbosity_never_lowered (s : Logger) (level : LogLevel)
    (Hl : level <> TRACE /\ level <> DEBUG) :
  verbosity (glog_calls (snd (setLogLevel level s))) = verbosity (glog_calls s).
Proof.
  unfold setLogLevel, mbind_M, lg_get. destruct (_ || _); [|done].
  destruct Hl, level; try done; cbn; unfold verbosity; by rewrite fold_left_app.
Qed.

Lemma verbosity_never_lowered_witness :
  let s := snd (setLogLevel TRACE (Logger_new (MkGlogFlags [] true false false 2))) in
  verbosity (glog_calls s) = Some 2 /\ verbosity (glog_calls (snd (setLogLevel INFO s))) = Some 2.
Proof.
  cbn zeta. split; [reflexivity|].
  rewrite (verbosity_never_lowered _ INFO ltac:(split; discriminate)). reflexivity.
Defined.

(** glog writes a message of [VLOG] from the verbosity that it was given on; without one
    its verbosity is 0. *)
Definition written (s : Logger) (statement : LogStatement) : bool :=
  match statement with
  | LOG _ _ => true
  | VLOG level _ => level <=? default 0 (verbosity (glog_calls s))
  end.

(** A logger without a directory, as a program sets it up: the messages of DEBUG are
    written when the level is DEBUG or TRACE, those of TRACE when it is TRACE, the
    others always. *)
Theorem debug_messages_by_level (flags : GlogFlags) (program : str) (level : LogLevel)
    (date zone file x : str) (now_ms pid thread lineNumber : Z) (Hprogram : program <> []) :
  let s := logger_run [OpInitialize (Some program); OpLevel level] (Logger_new flags) in
  let shown macro := written s (macro date zone now_ms pid thread file lineNumber x) in
  (shown BUILDBOX_LOG_TRACE = true <-> level = TRACE) /\
  (shown BUILDBOX_LOG_DEBUG = true <-> level = TRACE \/ level = DEBUG) /\
  shown BUILDBOX_LOG_INFO = true /\ shown BUILDBOX_LOG_WARNING = true /\
  shown BUILDBOX_LOG_ERROR = true.
Proof.
  destruct program as [|c program]; [done|].
  destruct level; cbn; repeat split; naive_solver discriminate.
Qed.

Lemma debug_messages_by_level_witness :
  let s := logger_run [OpInitialize (Some (L "prog")); OpLevel DEBUG]
             (Logger_new (MkGlogFlags [] false false true 2)) in
  written s (BUILDBOX_LOG_DEBUG [] [] 0 1 2 (L "a.cpp") 3 (L "x")) = true.
Proof.
  destruct (debug_messages_by_level (MkGlogFlags [] false false true 2) (L "prog") DEBUG
    [] [] (L "a.cpp") (L "x") 0 1 2 3) as (_ & H & _); [discriminate|].
  apply H. by right.
Defined.

(** ** Texts *)

Example levels_text : stringifyLogLevels = L "trace/debug/info/warning/error".
Proof. reflexivity. Qed.

Example command_line_text :
  printableCommandLine [L "cc"; L "-c"; L "a.c"] = L "cc -c a.c" /\ printableCommandLine [] = [].
Proof. split; reflexivity. Qed.

Example prefix_text :
  writeLogPrefix (L "2020-01-01T00:00:00") (L "+0000") 1577836800007 12 34 (L "INFO") (L "/a/b.cpp") 5 =
  L "2020-01-01T00:00:00.007+0000 [12:34] [b.cpp:5] [INFO] ".
Proof. reflexivity. Qed.

Example exception_text :
  BUILDBOXCOMMON_THROW_EXCEPTION_what (L "src/foo.cpp") 25 (L "std::logic_error") (L "tryThis failed") =
  L "std::logic_error exception thrown at [foo.cpp:25], errMsg = " ++
  [ascii_of_nat 34] ++ L "tryThis failed" ++ [ascii_of_nat 34].
Proof. reflexivity. Qed.

(** ** Hosts *)

Lemma tolower_idempotent c : tolower (tolower c) = tolower c.
Proof. by destruct c as [[] [] [] [] [] [] [] []]. Qed.

(** The names are canonical: the name of a name is itself, whatever the machine. *)
Theorem host_names_canonical (sysname machine : str) :
  map tolower (map tolower sysname) = map tolower sysname /\
  ISA_of_machine (ISA_of_machine machine) = ISA_of_machine machine.
Proof.
  split; [rewrite map_map; apply map_ext, tolower_idempotent|].
  unfold ISA_of_machine at 2 3.
  repeat (match goal with |- context [if one_of ?a ?l then _ else _] =>
            destruct (one_of a l) eqn:? end; [reflexivity|]).
  unfold ISA_of_machine. by repeat (match goal with H : one_of _ _ = false |- _ => rewrite H; clear H end).
Qed.
