(* ===== verification/GrpcContext.v ===== *)
(** * What surrounds a retried call

    [buildboxcommon_grpcretrier.h] and [.cpp], [buildboxcommon_grpcretry.cpp],
    [buildboxcommon_client.h] and [.cpp]: the context that every attempt gets, the
    callback that attaches metadata to it, the factory of retriers, and the texts that
    are logged.  [Grpc] has the loops, over invocations that make their own context:
    here is what makes it. *)

From S2P Require Import Prelude StdMap Arrays Blake3Compress Digest TimeUtils Grpc Merklize Paths StringUtils Cstring RequestMetadata Client.
Open Scope Z_scope.

(** ** Contexts *)

(** The metadata that a context sends along. *)
Definition ClientContext : Type := list (str * str).

Definition GrpcInvocation (S : Type) : Type := ClientContext -> M S Status.
Definition MetadataAttacher (S : Type) : Type := ClientContext -> M S ClientContext.

Section contexts.
Context {S : Type}.

(** One attempt: a new context, what is attached to it, the call. *)
Definition attached_invocation (d_metadataAttacher : option (MetadataAttacher S))
    (d_grpcInvocation : GrpcInvocation S) : M S Status :=
  let* context :=
    match d_metadataAttacher with
    | Some attach => attach []
    | None => mret []
    end in
  d_grpcInvocation context.

(** [GrpcRetrier] with the members that [Grpc.GrpcRetrier] leaves out. *)
Record ContextRetrier := MkContextRetrier {
  cr_grpcInvocation : GrpcInvocation S;
  cr_grpcInvocationName : str;
  cr_retryLimit : Z;
  cr_retryDelayBase : Z;
  cr_retryableStatusCodes : gset Z;
  cr_metadataAttacher : option (MetadataAttacher S);
}.

(** The constructor with five arguments: UNAVAILABLE is always retried. *)
Definition ContextRetrier_new (retryLimit retryDelayBase : Z)
    (grpcInvocation : GrpcInvocation S) (grpcInvocationName : str)
    (retryableStatusCodes : gset Z) : ContextRetrier :=
  MkContextRetrier grpcInvocation grpcInvocationName retryLimit retryDelayBase
    ({[UNAVAILABLE]} ∪ retryableStatusCodes) None.

Definition setMetadataAttacher (metadataAttacher : option (MetadataAttacher S))
    (self : ContextRetrier) : ContextRetrier :=
  MkContextRetrier (cr_grpcInvocation self) (cr_grpcInvocationName self) (cr_retryLimit self)
    (cr_retryDelayBase self) (cr_retryableStatusCodes self) metadataAttacher.

(** The retrier whose invocation is a whole attempt. *)
Definition retrier_of (self : ContextRetrier) : GrpcRetrier S :=
  MkGrpcRetrier (attached_invocation (cr_metadataAttacher self) (cr_grpcInvocation self))
    (cr_retryLimit self) (cr_retryDelayBase self) (cr_retryableStatusCodes self)
    (status_of OK) 0.

(** ** The factory *)

Record GrpcRetrierFactory := MkGrpcRetrierFactory {
  rf_retryLimit : Z;
  rf_retryDelayBase : Z;
  rf_metadataAttacher : option (MetadataAttacher S);
}.

Definition GrpcRetrierFactory_new (retryLimit retryDelayBase : Z) : GrpcRetrierFactory :=
  MkGrpcRetrierFactory retryLimit retryDelayBase None.

Definition factory_makeRetrier (self : GrpcRetrierFactory) (grpcInvocation : GrpcInvocation S)
    (grpcInvocationName : str) (retryableStatusCodes : gset Z) : ContextRetrier :=
  let retrier :=
    ContextRetrier_new (rf_retryLimit self) (rf_retryDelayBase self) grpcInvocation
      grpcInvocationName retryableStatusCodes in
  match rf_metadataAttacher self with
  | Some attach => setMetadataAttacher (Some attach) retrier
  | None => retrier
  end.

(** [GrpcRetry::retry] with an attacher, and without one: then a lambda that does
    nothing. *)
Definition retry_attaching (grpcInvocation : GrpcInvocation S) (grpcRetryLimit grpcRetryDelay : Z)
    (metadataAttacher : MetadataAttacher S) (errorsToRetryOn : gset Z) : M S (list delay) :=
  retry (attached_invocation (Some metadataAttacher) grpcInvocation) grpcRetryLimit
    grpcRetryDelay errorsToRetryOn.

Definition retry_without_attacher (grpcInvocation : GrpcInvocation S)
    (grpcRetryLimit grpcRetryDelay : Z) (errorsToRetryOn : gset Z) : M S (list delay) :=
  retry_attaching grpcInvocation grpcRetryLimit grpcRetryDelay mret errorsToRetryOn.

(** ** The client *)

(** The lambda [d_metadata_attach_function]: it captures the client by reference, and
    so reads the generator as it is when the attempt is made. *)
Context (SerializeAsString : RequestMetadata -> str) (generator : S -> RequestMetadataGenerator).

Definition metadata_attach_function : MetadataAttacher S :=
  fun context s => (Ok (attach_request_metadata SerializeAsString (generator s) context), s).

(** [Client::makeRetrier]. *)
Definition Client_makeRetrier (self : Client) (invocation : GrpcInvocation S) (name : str)
  : ContextRetrier :=
  setMetadataAttacher (Some metadata_attach_function)
    (ContextRetrier_new (u32 (d_grpcRetryLimit self)) (d_grpcRetryDelay self) invocation name ∅).
End contexts.
Arguments ContextRetrier : clear implicits.
Arguments GrpcRetrierFactory : clear implicits.

(** ** Texts *)

(** The name of the call, if it has one. *)
Definition for_invocation (grpcInvocationName : str) : str :=
  if bool_decide (grpcInvocationName = []) then []
  else L " for " ++ quoted grpcInvocationName.

Definition grpc_error_text (code : Z) (message : str) : str :=
  to_string code ++ L ": " ++ message ++ L "]".

(** [grpcretrier.cpp]: the numbers are [unsigned]; the delay is a [double], printed by
    the stream. *)
Definition retrier_warning (show_delay : delay -> str) (grpcInvocationName : str) (code : Z)
    (message : str) (attemptNumber totalAttempts : Z) (retryDelayMs : delay) : str :=
  L "Attempt " ++ to_string (u32 (attemptNumber + 1)) ++ L "/" ++
  to_string (u32 (totalAttempts + 1)) ++ for_invocation grpcInvocationName ++
  L " failed with gRPC error [" ++ grpc_error_text code message ++ L ", " ++
  L "retrying in " ++ show_delay retryDelayMs ++ L " ms...".

Definition retrier_exceeded (grpcInvocationName : str) (code : Z) (message : str)
    (retryLimit : Z) : str :=
  L "Retry limit (" ++ to_string retryLimit ++ L ") exceeded" ++
  for_invocation grpcInvocationName ++
  L ", last gRPC error was [" ++ grpc_error_text code message.

(** [grpcretry.cpp]: the numbers are [int]s, whose overflow is undefined. *)
Definition retry_warning (grpcInvocationName : str) (code : Z) (message : str)
    (attemptNumber totalAttempts retryDelay : Z) : option str :=
  if (attemptNumber =? 2 ^ 31 - 1) || (totalAttempts =? 2 ^ 31 - 1) then None
  else Some (L "Attempt " ++ to_string (attemptNumber + 1) ++ L "/" ++
    to_string (totalAttempts + 1) ++ for_invocation grpcInvocationName ++
    L " failed with gRPC error [" ++ grpc_error_text code message ++ L ", " ++
    L "retrying in " ++ to_string retryDelay ++ L " ms...").

Definition retry_exceeded (grpcInvocationName : str) (code : Z) (message : str)
    (retryLimit : Z) : str :=
  L "Retry limit (" ++ to_string retryLimit ++ L ") exceeded" ++
  for_invocation grpcInvocationName ++
  L ", last gRPC error was [" ++ grpc_error_text code message.

Example warning_text :
  retrier_warning (fun d => to_string d.1) (L "Read()") UNAVAILABLE (L "down") 0 3 (100, 0) =
  L "Attempt 1/4 for " ++ quoted (L "Read()") ++
  L " failed with gRPC error [14: down], retrying in 100 ms...".
Proof. reflexivity. Qed.

(** A negative limit of the client becomes the largest [unsigned], and one more is 0. *)
Example warning_text_wraps :
  retrier_warning (fun d => to_string d.1) [] UNAVAILABLE (L "down") 4 (u32 (-1)) (100, 4) =
  L "Attempt 5/0 failed with gRPC error [14: down], retrying in 100 ms...".
Proof. reflexivity. Qed.

(** ** What the server is sent *)

(** The retrier that the client's operations use: when a call does not look at its
    context, what is attached changes nothing. *)
Theorem makeRetrier_attaches {S : Type} (ser : RequestMetadata -> str)
    (generator : S -> RequestMetadataGenerator) (self : Client) (inv : M S Status) (name : str) :
  retrier_of (Client_makeRetrier ser generator self (fun _ => inv) name) = makeRetrier self inv.
Proof. reflexivity. Qed.

(** The factory is the constructor and the attacher it was made with. *)
Theorem factory_is_constructor {S : Type} (self : GrpcRetrierFactory S)
    (inv : GrpcInvocation S) (name : str) (codes : gset Z) :
  factory_makeRetrier self inv name codes =
  setMetadataAttacher (rf_metadataAttacher self)
    (ContextRetrier_new (rf_retryLimit self) (rf_retryDelayBase self) inv name codes).
Proof. unfold factory_makeRetrier. by destruct (rf_metadataAttacher self). Qed.

Section recorded.
Context {S : Type} (ser : RequestMetadata -> str) (generator : S -> RequestMetadataGenerator).
Context (inv : GrpcInvocation S).

(** The call, with the contexts it was given written down. *)
Definition recorded : GrpcInvocation (S * list ClientContext) :=
  fun context '(s, log) =>
    let (r, s) := inv context s in (r, (s, log ++ [context])).

(** What describes a call of the client. *)
Definition metadata_of (g : RequestMetadataGenerator) : RequestMetadata :=
  MkRequestMetadata (d_tool_details g) (d_action_id g) (d_tool_invocation_id g)
    (d_correlated_invocations_id g).

Definition header_of (s : S) : ClientContext := [(HEADER_NAME, ser (metadata_of (generator s)))].

Hypothesis inv_keeps : forall context s, generator (inv context s).2 = generator s.

Let attempt : M (S * list ClientContext) Status :=
  attached_invocation (Some (metadata_attach_function ser (fun s => generator s.1))) recorded.

Lemma attempt_records s log :
  attempt (s, log) =
  ((inv (header_of s) s).1, ((inv (header_of s) s).2, log ++ [header_of s])).
Proof.
  unfold attempt, attached_invocation, mbind_M, metadata_attach_function, recorded.
  change (attach_request_metadata ser (generator (s, log).1) []) with (header_of s).
  by destruct (inv (header_of s) s).
Qed.

Lemma outcome_records codes budget s0 r n s1 :
  outcome attempt codes budget s0 r n s1 ->
  s1.2 = s0.2 ++ replicate n (header_of s0.1).
Proof.
  induction 1 as [b [s log] st s' E Hf|[s log] st s' E Hf|b [s log] e s' E
    |b [s log] st s1 r n s' E Hf Ho IH]; rewrite attempt_records in E; injection E as E1 <-;
    [done..|].
  rewrite IH. cbn [fst snd]. rewrite <- app_assoc. f_equal. cbn. f_equal.
  unfold header_of. by rewrite inv_keeps.
Qed.
End recorded.

(** However often a call of the client is retried, and however it ends, every attempt
    has a context of its own with exactly one header, which describes the request as
    the client was told to; there is an attempt at least, and at most one more than
    the limit. *)
Theorem attempts_described {S : Type} (delay_ms : str -> option Z)
    (ser : RequestMetadata -> str) (generator : S -> RequestMetadataGenerator)
    (inv : GrpcInvocation S) (self : Client) (name : str) (s : S) (log : list ClientContext)
    (Hkeeps : forall context s, generator (inv context s).2 = generator s) :
  exists r n s',
    issueRequest delay_ms
      (retrier_of (Client_makeRetrier ser (fun s => generator s.1) self (recorded inv) name))
      (s, log) =
    (r, (s', log ++ replicate n [(HEADER_NAME, ser (metadata_of (generator s)))])) /\
    (1 <= n <= Z.to_nat (u32 (d_grpcRetryLimit self)) + 1)%nat /\
    match r with
    | Ok (_, retrier, _) => d_retryAttempts retrier = Z.of_nat n - 1
    | Throw _ => True
    end.
Proof.
  destruct (issueRequest_run delay_ms
    (attached_invocation (Some (metadata_attach_function ser (fun s => generator s.1)))
       (recorded inv)) (u32 (d_grpcRetryLimit self)) (d_grpcRetryDelay self) ∅ (s, log))
    as (r & n & [s' log'] & Ho & Hn & Hr); [by apply Z.mod_pos_bound|].
  pose proof (outcome_count _ _ _ _ _ _ _ Ho) as Hc.
  pose proof (outcome_records ser generator inv Hkeeps _ _ _ _ _ _ Ho) as Hlog.
  cbn [fst snd] in Hlog. subst log'. destruct r as [[b st]|e].
  - destruct Hr as (rt & sleeps & Hrun & _ & Hatt & _).
    exists (Ok (b, rt, sleeps)), n, s'. split; [exact Hrun|]. split; [lia|exact Hatt].
  - exists (Throw e), n, s'. split; [exact Hr|]. split; [lia|done].
Qed.

(** A server that is unavailable once. *)
Lemma attempts_described_witness :
  let ser m := tool_name (tool_details m) ++ L "/" ++ action_id m in
  let g := set_request_metadata (L "a1") [] [] (RequestMetadataGenerator_for (L "recc") (L "1")) in
  let inv := fun (_ : ClientContext) '(n, g) =>
    let (r, n) := flaky UNAVAILABLE n in (r, (n : nat, g : RequestMetadataGenerator)) in
  let self := MkClient [] [] 2 100 0 in
  exists r s',
    issueRequest (fun _ => None)
      (retrier_of (Client_makeRetrier ser (fun s => s.1.2) self (recorded inv) [])) ((1%nat, g), []) =
    (r, (s', [[(HEADER_NAME, L "recc/a1")]; [(HEADER_NAME, L "recc/a1")]])).
Proof.
  intros ser g inv self.
  destruct (attempts_described (fun _ => None) ser snd inv self [] (1%nat, g) [])
    as (r & n & s' & Hrun & Hn & Hr).
  - intros context [n g']. unfold inv. by destruct (flaky UNAVAILABLE n).
  - exists r, s'. vm_compute in Hrun. injection Hrun as <- <- _. vm_compute. reflexivity.
Defined.
