(* ===== verification/Runner.v ===== *)
(** * The runner: its state, its arguments

    [buildboxcommon_runner.cpp], [buildboxcommon_runner.h]: the members of the
    class, its command line and usage text, and reading and writing protobuf
    messages ([ProtoUtils], buildboxcommon_protos.h).  Subclasses are a parameter:
    what their virtual functions do to the world. *)

From S2P Require Import Prelude StdMap Arrays Blake3Compress Digest TimeUtils Grpc Merklize Client ClientBlobs Paths Cstring Undefined ConnectionOptions Posix FileUtils Logging.
Open Scope Z_scope.

(** ** State *)

Record StandardOutputsCaptureConfig := MkCaptureConfig {
  stdout_file_path : str;
  stderr_file_path : str;
  skip_capture : bool;
}.

Record Runner := MkRunner {
  d_use_localcas_protocol : bool;
  d_stage_path : str;
  d_action_digest : Digest;
  d_standardOutputsCaptureConfig : StandardOutputsCaptureConfig;
  d_validateParametersAndExit : bool;
  d_casRemote : ConnectionOptions;
  d_inputPath : str;
  d_outputPath : str;
  d_logLevel : LogLevel;
  logger : Logger;                     (** the global logger *)
}.

(** The flags of glog when nobody has set them. *)
Definition glog_defaults : GlogFlags := MkGlogFlags [] false false true GLOG_ERROR.

Definition Runner_new : Runner :=
  MkRunner true [] empty_digest (MkCaptureConfig [] [] false) false ConnectionOptions_default
    [] [] INFO (Logger_new glog_defaults).

Definition set_use_localcas (b : bool) (r : Runner) : Runner :=
  MkRunner b (d_stage_path r) (d_action_digest r) (d_standardOutputsCaptureConfig r)
    (d_validateParametersAndExit r) (d_casRemote r) (d_inputPath r) (d_outputPath r)
    (d_logLevel r) (logger r).
Definition set_stage_path (path : str) (r : Runner) : Runner :=
  MkRunner (d_use_localcas_protocol r) path (d_action_digest r)
    (d_standardOutputsCaptureConfig r) (d_validateParametersAndExit r) (d_casRemote r)
    (d_inputPath r) (d_outputPath r) (d_logLevel r) (logger r).
Definition set_action_digest (digest : Digest) (r : Runner) : Runner :=
  MkRunner (d_use_localcas_protocol r) (d_stage_path r) digest
    (d_standardOutputsCaptureConfig r) (d_validateParametersAndExit r) (d_casRemote r)
    (d_inputPath r) (d_outputPath r) (d_logLevel r) (logger r).
Definition set_capture (f : StandardOutputsCaptureConfig -> StandardOutputsCaptureConfig)
    (r : Runner) : Runner :=
  MkRunner (d_use_localcas_protocol r) (d_stage_path r) (d_action_digest r)
    (f (d_standardOutputsCaptureConfig r)) (d_validateParametersAndExit r) (d_casRemote r)
    (d_inputPath r) (d_outputPath r) (d_logLevel r) (logger r).
Definition set_validate (r : Runner) : Runner :=
  MkRunner (d_use_localcas_protocol r) (d_stage_path r) (d_action_digest r)
    (d_standardOutputsCaptureConfig r) true (d_casRemote r) (d_inputPath r) (d_outputPath r)
    (d_logLevel r) (logger r).
Definition set_casRemote (o : ConnectionOptions) (r : Runner) : Runner :=
  MkRunner (d_use_localcas_protocol r) (d_stage_path r) (d_action_digest r)
    (d_standardOutputsCaptureConfig r) (d_validateParametersAndExit r) o (d_inputPath r)
    (d_outputPath r) (d_logLevel r) (logger r).
Definition set_inputPath (path : str) (r : Runner) : Runner :=
  MkRunner (d_use_localcas_protocol r) (d_stage_path r) (d_action_digest r)
    (d_standardOutputsCaptureConfig r) (d_validateParametersAndExit r) (d_casRemote r) path
    (d_outputPath r) (d_logLevel r) (logger r).
Definition set_outputPath (path : str) (r : Runner) : Runner :=
  MkRunner (d_use_localcas_protocol r) (d_stage_path r) (d_action_digest r)
    (d_standardOutputsCaptureConfig r) (d_validateParametersAndExit r) (d_casRemote r)
    (d_inputPath r) path (d_logLevel r) (logger r).
Definition set_logLevel (level : LogLevel) (r : Runner) : Runner :=
  MkRunner (d_use_localcas_protocol r) (d_stage_path r) (d_action_digest r)
    (d_standardOutputsCaptureConfig r) (d_validateParametersAndExit r) (d_casRemote r)
    (d_inputPath r) (d_outputPath r) level (logger r).
(** The logger is not a member; it is kept here for want of another global. *)
Definition set_logger (l : Logger) (r : Runner) : Runner :=
  MkRunner (d_use_localcas_protocol r) (d_stage_path r) (d_action_digest r)
    (d_standardOutputsCaptureConfig r) (d_validateParametersAndExit r) (d_casRemote r)
    (d_inputPath r) (d_outputPath r) (d_logLevel r) l.

(** [setOutputPath], for derived classes: once only. *)
Definition setOutputPath (path : str) (r : Runner) : res Runner :=
  if negb (bool_decide (d_outputPath r = [])) then Throw RuntimeError
  else Ok (set_outputPath path r).

(** ** Programs that may exit *)

(** The end of a piece of the program: a value, an exception, or [exit]. *)
Inductive ending (A : Type) :=
  | Returned (a : A)
  | Raised (e : exn)
  | Exited (code : Z).
Arguments Returned {A} a.
Arguments Raised {A} e.
Arguments Exited {A} code.

(** [None] is undefined behaviour, or running out of fuel. *)
Definition PM (S A : Type) : Type := S -> option (ending A * S).

Definition pret {S A} (a : A) : PM S A := fun s => Some (Returned a, s).
Definition praise {S A} (e : exn) : PM S A := fun s => Some (Raised e, s).
Definition pexit {S A} (code : Z) : PM S A := fun s => Some (Exited code, s).

Definition pbind {S A B} (m : PM S A) (k : A -> PM S B) : PM S B :=
  fun s => match m s with
           | None => None
           | Some (Returned a, s) => k a s
           | Some (Raised e, s) => Some (Raised e, s)
           | Some (Exited code, s) => Some (Exited code, s)
           end.

Notation "'let^' x ':=' m 'in' k" := (pbind m (fun x => k))
  (at level 10, x pattern, m at level 100, k at level 200) : buildbox_scope.

Definition pget {S} : PM S S := fun s => Some (Returned s, s).

(** [try { m } catch (const E &e) { h }], for what [p] accepts. *)
Definition pcatch {S A} (p : exn -> bool) (m : PM S A) (h : exn -> PM S A) : PM S A :=
  fun s => match m s with
           | Some (Raised e, s) => if p e then h e s else Some (Raised e, s)
           | r => r
           end.

Definition any_exception (e : exn) : bool := true.

(** ** [ProtoUtils] *)

Section protos.
Context {W : Type}.

Record ProtoCalls := MkProtoCalls {
  proto_open : str -> OpenFlags -> Z -> W -> outcome_of Z * W;
  proto_close : Z -> W -> option Z * W;
}.
Context (sys : ProtoCalls).

(** [proto.SerializeToFileDescriptor], of any message, is protobuf's. *)
Definition writeProtobufToFile (SerializeToFileDescriptor : Z -> W -> bool * W) (path : str)
  : M W unit :=
  let* fd := call (proto_open sys (c_str path) (MkOpenFlags true true true false false false) 438) in
  match fd with
  | inl errno => mthrow (SystemError errno)
  | inr fd =>
      let* writeSucceeded := call (SerializeToFileDescriptor fd) in
      let* _ := call (proto_close sys fd) in
      if negb writeSucceeded then mthrow RuntimeError else mret tt
  end.

(** [proto.ParseFromFileDescriptor]: the message, if it parses. *)
Definition readProtobufFromFile {T} (ParseFromFileDescriptor : Z -> W -> option T * W)
    (path : str) : M W T :=
  let* fd := call (proto_open sys (c_str path) O_RDONLY 0) in
  match fd with
  | inl errno => mthrow (SystemError errno)
  | inr fd =>
      let* proto := call (ParseFromFileDescriptor fd) in
      let* _ := call (proto_close sys fd) in
      match proto with Some proto => mret proto | None => mthrow RuntimeError end
  end.
End protos.
Arguments ProtoCalls : clear implicits.

(** ** Usage *)

Definition BUILDBOXCOMMON_RUNNER_USAGE_PAD_WIDTH : Z := 32.

(** [name.substr(name.find_last_of("/") + 1)]; [npos + 1] is 0. *)
Definition programName (name : str) : str :=
  match rsplit_slash name with Some (_, after) => after | None => name end.

Definition line (s : string) : str := lit s ++ [newline].

Definition usage (name : str) : str :=
  [newline] ++ L "usage: " ++ name ++ line " [OPTIONS]" ++
  line "    --action=PATH               Path to read input Action from" ++
  line "    --action-result=PATH        Path to write output ActionResult to" ++
  L "    --log-level=LEVEL           (default: info) Log verbosity: " ++ stringifyLogLevels
    ++ [newline] ++
  line "    --verbose                   Set log level to debug" ++
  line "    --log-directory=DIR         Write logs to this directory with filenames:" ++
  L "                                " ++ programName name
    ++ line ".<hostname>.<user name>.log.<severity level>.<date>.<time>.<pid>" ++
  line "    --use-localcas              Use LocalCAS protocol methods (default behavior)" ++
  line "                                NOTE: this option will be deprecated." ++
  line "    --disable-localcas          Do not use LocalCAS protocol methods" ++
  line "    --workspace-path=PATH       Location on disk which runner will use as root when executing jobs" ++
  line "    --stdout-file=FILE          File to redirect the command's stdout to" ++
  line "    --stderr-file=FILE          File to redirect the command's stderr to" ++
  line "    --no-logs-capture           Do not capture and upload the contents written to stdout and stderr" ++
  line "    --capabilities              Print capabilities supported by this runner" ++
  line "    --validate-parameters       Only check whether all the required parameters are being passed and that no" ++
  line "                                unknown options are given. Exits with a status code containing the result (0 if successful)." ++
  printArgHelp BUILDBOXCOMMON_RUNNER_USAGE_PAD_WIDTH (L "CAS") None.
