(* ===== verification/RunnerExecute.v ===== *)
(** * The runner: staging, executing, uploading

    [buildboxcommon_runner.cpp]: what a subclass calls to stage the input root, to
    create the directories of the outputs, to run the command and to store what it
    wrote.  The signal status is a variable that the handler sets, so it is read
    from the world; the kernel, the client and the clock are parameters. *)

From S2P Require Import Prelude StdMap Arrays Blake3Compress Digest TimeUtils Grpc Merklize Client ClientBlobs Paths Cstring Undefined ConnectionOptions Posix FileUtils Temporary StagedDirectory StagedCapture SystemUtils Runner.
Open Scope Z_scope.

Definition SIGKILL : Z := 9.

(** Code over the world where more is captured. *)
Definition uworld {W C A} (m : UM W A) : UM (W * C) A :=
  fun '(w, c) => match m w with
                 | Some (r, w) => Some (r, (w, c))
                 | None => None
                 end.

(** A scope that owns an object, whose destructor does not throw. *)
Definition uowning {S A} (destructor : S -> S) (body : UM S A) : UM S A :=
  fun s => match body s with
           | Some (r, s) => Some (r, destructor s)
           | None => None
           end.

(** ** The result of an action *)

Definition metadata_default : ExecutedActionMetadata := MkMetadata None None None None.

(** [mutable_execution_metadata]. *)
Definition on_metadata (f : ExecutedActionMetadata -> ExecutedActionMetadata)
    (r : ActionResult) : ActionResult :=
  MkActionResult (ar_output_files r) (ar_output_directories r) (exit_code r)
    (stdout_digest r) (stderr_digest r)
    (Some (f (match execution_metadata r with Some m => m | None => metadata_default end))).

Definition set_execution_start (t : Timestamp) (m : ExecutedActionMetadata) :=
  MkMetadata (worker_start_timestamp m) (worker_completed_timestamp m) (Some t)
    (execution_completed_timestamp m).
Definition set_execution_completed (t : Timestamp) (m : ExecutedActionMetadata) :=
  MkMetadata (worker_start_timestamp m) (worker_completed_timestamp m)
    (execution_start_timestamp m) (Some t).
Definition set_worker_start (t : Timestamp) (m : ExecutedActionMetadata) :=
  MkMetadata (Some t) (worker_completed_timestamp m) (execution_start_timestamp m)
    (execution_completed_timestamp m).
Definition set_worker_completed (t : Timestamp) (m : ExecutedActionMetadata) :=
  MkMetadata (worker_start_timestamp m) (Some t) (execution_start_timestamp m)
    (execution_completed_timestamp m).

Definition set_digests (stdout stderr : Digest) (r : ActionResult) : ActionResult :=
  MkActionResult (ar_output_files r) (ar_output_directories r) (exit_code r)
    (Some stdout) (Some stderr) (execution_metadata r).
Definition set_exit_code (code : Z) (r : ActionResult) : ActionResult :=
  MkActionResult (ar_output_files r) (ar_output_directories r) code
    (stdout_digest r) (stderr_digest r) (execution_metadata r).

Section executing.
Context {W : Type} (sys : ProcessCalls W) (temp : TempCalls W).
Context (getSignalStatus : W -> Z).
Context (gettimeofday : W -> (Z + Z * Z) * W).
(** [perror]. *)
Context (sys_perror : str -> W -> W).

Abbreviation St := (W * ActionResult)%type.

Definition update_result (f : ActionResult -> ActionResult) : UM St unit :=
  fun '(w, result) => Some (Ok tt, (w, f result)).

Definition time_now : UM W Timestamp :=
  let+ t := ucall gettimeofday in ulift (mlift (now t)).

(** ** [Runner_StandardOutputFile] *)

Definition StandardOutputFile : Type := str * option TemporaryFile.

Definition StandardOutputFile_new (path : str) : M W StandardOutputFile :=
  if bool_decide (path = []) then
    let* d_tmpFile := TemporaryFile_new temp DEFAULT_TMP_PREFIX in
    let* d_tmpFile := TemporaryFile_close temp d_tmpFile in
    mret (tf_name d_tmpFile, Some d_tmpFile)
  else mret (path, None).

Definition StandardOutputFile_delete (self : StandardOutputFile) : W -> W :=
  fun w => match snd self with
           | Some d_tmpFile => snd (TemporaryFile_delete temp d_tmpFile w)
           | None => w
           end.

(** ** Running the command *)

(** [execute]: [command.front()] names what could not be executed. *)
Definition execute (command : list str) : W -> child_end * W := fun w =>
  match executeCommand sys command w with
  | (None, w) => (Replaced, w)
  | (Some exit_code, w) => (Exits exit_code, sys_perror (c_str (hd [] command)) w)
  end.

(** The child, with the names of the files for its outputs. *)
Definition child_of_executeAndStore (command : list str) (files : option (str * str))
  : W -> child_end * W := fun w =>
  let redirect :=
    match files with
    | None => mret tt
    | Some (stdout, stderr) =>
        let* _ := redirectStandardOutputToFile sys STDOUT_FILENO stdout in
        redirectStandardOutputToFile sys STDERR_FILENO stderr
    end in
  match redirect w with
  | (Throw e, w) => (Throws e, w)
  | (Ok _, w) => execute command w
  end.

Definition UploadOutputsCallback : Type := str -> str -> UM W (Digest * Digest).

(** The child has ended. *)
Definition store_outcome (files : option (str * str))
    (upload_outputs_function : UploadOutputsCallback) (exit_code : Z) : UM St unit :=
  let+ t := uworld time_now in
  let+ _ := update_result (on_metadata (set_execution_completed t)) in
  let+ _ :=
    match files with
    | None => uret tt
    | Some (stdout, stderr) =>
        let+ (stdout_digest, stderr_digest) :=
          uworld (upload_outputs_function stdout stderr) in
        update_result (set_digests stdout_digest stderr_digest)
    end in
  update_result (set_exit_code exit_code).

(** The loop that waits for the child or for a signal. *)
Fixpoint wait_loop (fuel : nat) (pid : Z) (files : option (str * str))
    (upload_outputs_function : UploadOutputsCallback) : UM St unit :=
  let+ status := uworld (ulift (query getSignalStatus)) in
  if negb (status =? 0) then
    let+ _ := uworld (ulift (call (fun w => (tt, sys_kill sys pid SIGKILL w)))) in
    let+ _ := uworld (waitPid sys fuel pid) in
    uret tt
  else
    let+ exit_code := uworld (ulift (waitPidOrSignal sys pid)) in
    if 0 <=? exit_code then store_outcome files upload_outputs_function exit_code
    else
      match fuel with
      | O => undefined
      | S fuel => wait_loop fuel pid files upload_outputs_function
      end.

Definition fork_and_wait (fuel : nat) (command : list str) (files : option (str * str))
    (upload_outputs_function : UploadOutputsCallback) : UM St unit :=
  let+ t := uworld time_now in
  let+ _ := update_result (on_metadata (set_execution_start t)) in
  let+ pid := uworld (ucall (sys_fork sys (child_of_executeAndStore command files))) in
  match pid with
  | inl errno => uthrow (SystemError errno)
  | inr pid => wait_loop fuel pid files upload_outputs_function
  end.

Definition on_fst {A B} (f : A -> A) : A * B -> A * B := fun '(a, b) => (f a, b).

Definition executeAndStore_with (fuel : nat) (config : StandardOutputsCaptureConfig)
    (command : list str) (upload_outputs_function : UploadOutputsCallback) : UM St unit :=
  if skip_capture config then fork_and_wait fuel command None upload_outputs_function
  else
    let+ stdoutFile := uworld (ulift (StandardOutputFile_new (stdout_file_path config))) in
    uowning (on_fst (StandardOutputFile_delete stdoutFile))
      (let+ stderrFile := uworld (ulift (StandardOutputFile_new (stderr_file_path config))) in
       uowning (on_fst (StandardOutputFile_delete stderrFile))
         (fork_and_wait fuel command (Some (fst stdoutFile, fst stderrFile))
            upload_outputs_function)).

(** ** [uploadOutputs] *)

(** [CASHash::hashFile], and [Client::uploadBlobs] without [throw_on_error]. *)
Context (hashFile : str -> UM W Digest).
Context (uploadBlobs : list UploadRequest -> M W (list UploadResult)).

Definition drop_failed (digests : Digest * Digest) (blob : UploadResult) : Digest * Digest :=
  let (stdout_digest, stderr_digest) := digests in
  if digest_eqb (fst blob) stdout_digest then (empty_digest, stderr_digest)
  else (stdout_digest, empty_digest).

Definition uploadOutputs (stdout_file stderr_file : str) : UM W (Digest * Digest) :=
  let+ stdout_digest := hashFile stdout_file in
  let+ stderr_digest := hashFile stderr_file in
  let upload_requests :=
    [MkUploadRequest stdout_digest [] stdout_file; MkUploadRequest stderr_digest [] stderr_file] in
  let+ failed_blobs :=
    ucatch any_exception (let+ failed := ulift (uploadBlobs upload_requests) in uret (Some failed))
      (uret None) in
  uret (match failed_blobs with
        | None => (empty_digest, empty_digest)
        | Some failed_blobs => foldl drop_failed (stdout_digest, stderr_digest) failed_blobs
        end).

(** The overload that subclasses call. *)
Definition executeAndStore (fuel : nat) (self : Runner) (command : list str) : UM St unit :=
  executeAndStore_with fuel (d_standardOutputsCaptureConfig self) command uploadOutputs.

(** ** Directories for the outputs *)

Context (sys_mkdir : str -> Z -> W -> option Z * W).

Definition createDirectoryIfNeeded (workingDir output : str) : UM W unit :=
  match rsplit_slash output with
  | None => uret tt
  | Some (parent, _) =>
      let directory_location := workingDir ++ L "/" ++ parent in
      createDirectory sys_mkdir (length (normalizePath directory_location))
        (c_str directory_location) 511
  end.

Fixpoint ufor_each {S A} (step : A -> UM S unit) (l : list A) : UM S unit :=
  match l with
  | [] => uret tt
  | x :: l => let+ _ := step x in ufor_each step l
  end.

Definition createOutputDirectories (command : Command) (workingDir : str) : UM W unit :=
  if negb (bool_decide (output_paths command = [])) then
    ufor_each (createDirectoryIfNeeded workingDir) (output_paths command)
  else
    let+ _ := ufor_each (createDirectoryIfNeeded workingDir) (output_files command) in
    ufor_each (createDirectoryIfNeeded workingDir) (output_directories command).
End executing.

(** ** Staging *)

Inductive StagedDirectory :=
  | LocalCas (staged : LocalCasStagedDirectory)
  | Fallback (staged : FallbackStagedDirectory).

Definition getPath (staged : StagedDirectory) : str :=
  match staged with
  | LocalCas staged => c_str (lsd_path staged)
  | Fallback staged => c_str (fsd_path staged)
  end.

Section staging.
Context {W : Type} (sys : Descriptors W) (temp : TempCalls W).
Context (deleteDirectory : str -> M W unit).
Context (localcas : LocalCasClient W) (fallback : FallbackClient W).

Definition make_staged (digest : Digest) (stage_path : str) (use_localcas_protocol : bool)
  : M W StagedDirectory :=
  if use_localcas_protocol then
    let* staged := LocalCasStagedDirectory_new sys localcas digest stage_path in
    mret (LocalCas staged)
  else
    let* staged := FallbackStagedDirectory_new sys temp deleteDirectory fallback digest stage_path in
    mret (Fallback staged).

(** [stage]; an exception goes on. *)
Definition stage_at (digest : Digest) (stage_path : str) (use_localcas_protocol : bool)
  : M (W * Runner) StagedDirectory :=
  fun '(w, self) =>
    match make_staged digest stage_path use_localcas_protocol w with
    | (Ok staged, w) => (Ok staged, (w, set_stage_path (getPath staged) self))
    | (Throw e, w) => (Throw e, (w, self))
    end.

Definition stageDirectory (digest : Digest) : M (W * Runner) StagedDirectory :=
  fun '(w, self) =>
    stage_at digest (d_stage_path self) (d_use_localcas_protocol self) (w, self).
End staging.
