(* ===== verification/RunnerExecuteSpec.v ===== *)
(** * What running a command promises

    [executeAndStore] ends: with the exit code of the child and the digests of its
    outputs, or, on a signal, with the child killed and waited for and nothing
    stored.  Outputs that fail to be uploaded lose their digests.  The directories
    of the outputs are there after [createOutputDirectories]. *)

From S2P Require Import Prelude StdMap Arrays Blake3Compress Digest TimeUtils Grpc Merklize MerklizeSpec Merge MergeSpec Client ClientBlobs Paths PathsSpec Cstring Undefined ConnectionOptions Posix FileUtils FileUtilsSpec Temporary StagedDirectory FileDescentSpec StagedCapture SystemUtils SystemUtilsSpec Runner RunnerExecute.
Open Scope Z_scope.

(** ** [executeAndStore] *)

Lemma code_nonneg e : ended_ok e -> 0 <= code_of e.
Proof. destruct e; cbn; lia. Qed.

(** What happens to the processes: a child is forked; one is sent a signal, while
    the flag of the handler has a value; the end of one is collected. *)
Inductive process_event :=
  | Forked (pid : Z)
  | Sent (pid signal flag : Z)
  | Reaped (pid status : Z).

Section executing.
Context {W : Type} (sys : ProcessCalls W) (getSignalStatus : W -> Z).
Context (gettimeofday : W -> (Z + Z * Z) * W) (sys_perror : str -> W -> W).
Context (upload : UploadOutputsCallback (W := W)).

(** The child [pid] ends as [e]; [events] is the log of what happened to the
    processes; forking, the clock and the upload work, and do nothing else to them. *)
Class RunnerLaws (pid : Z) (e : ended) := {
  runner_child :: ChildEnds sys pid e;
  events : W -> list process_event;
  kill_law : forall p s w,
    events (sys_kill sys p s w) = events w ++ [Sent p s (getSignalStatus w)] /\
    (interruptions (sys_kill sys p s w) <= interruptions w)%nat;
  wait_law : forall p w,
    match sys_waitpid sys p w with
    | (inl _, w') => events w' = events w
    | (inr status, w') => events w' = events w ++ [Reaped p status]
    end;
  clock_law : forall w, exists t w', gettimeofday w = (inr t, w') /\ events w' = events w /\
    (interruptions w' <= interruptions w)%nat;
  fork_law : forall child w, exists w', sys_fork sys child w = (inr pid, w') /\
    events w' = events w ++ [Forked pid] /\ (interruptions w' <= interruptions w)%nat;
  uploaded : str -> str -> Digest * Digest;
  upload_law : forall out err w, exists w', upload out err w = Some (Ok (uploaded out err), w') /\
    events w' = events w;
}.
Context {pid : Z} {e : ended} {laws : RunnerLaws pid e}.

(** What is stored of a child that has ended. *)
Definition stored (files : option (str * str)) (started completed : Timestamp)
    (r : ActionResult) : ActionResult :=
  let r := on_metadata (set_execution_completed completed)
             (on_metadata (set_execution_start started) r) in
  set_exit_code (code_of e)
    match files with
    | None => r
    | Some (out, err) => set_digests (fst (uploaded out err)) (snd (uploaded out err)) r
    end.

Lemma runs_uworld {C A B} (m : UM W A) (k : A -> UM (W * C) B) w c a w' Q :
  m w = Some (Ok a, w') -> runs (k a) (w', c) Q ->
  runs (let+ a := uworld m in k a) (w, c) Q.
Proof. unfold runs, ubind, uworld. by intros ->. Qed.

Lemma run_clock w : exists t w', time_now gettimeofday w = Some (Ok t, w') /\
  events w' = events w /\ (interruptions w' <= interruptions w)%nat.
Proof.
  destruct (clock_law w) as ([s us] & w' & E & Hk & Hi).
  exists (MkTimestamp s (us * 1000)), w'. unfold time_now, ubind, ucall, ulift, call, mlift.
  by rewrite E.
Qed.

Lemma store_outcome_run files started w r code :
  code = code_of e ->
  exists completed w', events w' = events w /\
    store_outcome gettimeofday files upload code
      (w, on_metadata (set_execution_start started) r)
    = Some (Ok tt, (w', stored files started completed r)).
Proof.
  intros ->. destruct (run_clock w) as (t & w1 & E1 & Hk1 & _). unfold store_outcome.
  unfold ubind at 1, uworld at 1. rewrite E1. unfold ubind at 1, update_result at 1.
  destruct files as [[out err]|].
  - destruct (upload_law out err w1) as (w2 & E2 & Hk2).
    unfold ubind, uworld, update_result. rewrite E2. exists t, w2. split; [congruence|].
    unfold stored. by destruct (uploaded out err).
  - exists t, w1. by split.
Qed.

(** How the execution ends, in a world that started as [w0] and a result that
    started as [r0]: the child was forked and waited for, and nothing else was done
    to it; or it was sent SIGKILL because the flag was set, and then waited for. *)
Definition wait_result (files : option (str * str)) (w0 : W) (r0 : ActionResult)
    (r : res unit) (s : W * ActionResult) : Prop :=
  r = Ok tt /\
  ((exists started completed, snd s = stored files started completed r0) /\
   events (fst s) = events w0 ++ [Forked pid; Reaped pid (status_word e)] \/
   exists started signal, signal <> 0 /\
     snd s = on_metadata (set_execution_start started) r0 /\
     events (fst s) = events w0 ++ [Forked pid; Sent pid SIGKILL signal;
                                    Reaped pid (status_word e)]).

(** What a wait for the child does to the world. *)
Lemma wait_once w :
  ended_ok e ->
  match waitPidOrSignal sys pid w with
  | (Ok code, w') =>
      code = code_of e /\ events w' = events w ++ [Reaped pid (status_word e)] \/
      code = - EINTR /\ events w' = events w /\ interruptions w = S (interruptions w')
  | (Throw _, _) => False
  end.
Proof.
  intros He. pose proof (waitpid_law w) as HL. pose proof (wait_law pid w) as Hk.
  destruct (sys_waitpid sys pid w) as [[errno|status] w'] eqn:E.
  - destruct HL as [-> HL]. unfold waitPidOrSignal, mbind_M, call. rewrite E.
    cbn. by right.
  - destruct HL as [_ ->]. rewrite (waitPidOrSignal_ended sys pid e w w') by done.
    by left.
Qed.

Lemma waitPid_reaps fuel w :
  ended_ok e -> (interruptions w <= fuel)%nat ->
  exists w', waitPid sys fuel pid w = Some (Ok (code_of e), w') /\
    events w' = events w ++ [Reaped pid (status_word e)].
Proof.
  intros He. assert (0 <= code_of e < 256) as Hc by (destruct e; cbn in *; lia).
  revert w. induction fuel as [|fuel IH]; intros w Hw; cbn [waitPid];
    unfold ubind at 1, ulift at 1; pose proof (wait_once w He) as H1;
    destruct (waitPidOrSignal sys pid w) as [[code|ex] w'] eqn:E; try done;
    destruct H1 as [[-> Hk]|(-> & Hk & Hi)]; try lia.
  1,2: replace (code_of e =? - EINTR) with false by (unfold EINTR; lia);
    by exists w'.
  rewrite Z.eqb_refl. destruct (IH w') as (w2 & -> & Hk2); [lia|]. exists w2. split; [done|congruence].
Qed.

Lemma wait_loop_spec fuel files started w0 r w :
  ended_ok e -> (interruptions w <= fuel)%nat -> events w = events w0 ++ [Forked pid] ->
  runs (wait_loop sys getSignalStatus gettimeofday fuel pid files upload)
    (w, on_metadata (set_execution_start started) r) (wait_result files w0 r).
Proof.
  intros He. revert w. induction fuel as [|fuel IH]; intros w Hw Hk; cbn [wait_loop];
    (eapply runs_uworld; [reflexivity|]);
    (destruct (Z.eqb_spec (getSignalStatus w) 0) as [Hs|Hs]; cbn [negb]).
  2,4: eapply runs_uworld; [reflexivity|];
    destruct (kill_law pid SIGKILL w) as [Hkill Hi];
    (match goal with |- context [waitPid sys ?f pid] =>
       destruct (waitPid_reaps f (sys_kill sys pid SIGKILL w)) as (w' & E & Hk'); [done|lia|] end);
    (eapply runs_uworld; [exact E|]); apply runs_ret; split; [done|]; right;
    exists started, (getSignalStatus w); do 2 (split; [done|]); cbn;
    by rewrite Hk', Hkill, Hk, <- !app_assoc.
  all: pose proof (wait_once w He) as H1;
    destruct (waitPidOrSignal sys pid w) as [[code|ex] w'] eqn:E; [|done];
    (eapply runs_uworld; [unfold ulift; by rewrite E|]).
  all: destruct H1 as [[Hcode Hk']|(-> & Hk' & Hi)]; [|try lia].
  all: try (destruct (store_outcome_run files started w' r code Hcode) as (t & w2 & Hk2 & E2);
    assert ((0 <=? code) = true) as Hpos by (apply Z.leb_le; rewrite Hcode; by apply code_nonneg);
    rewrite Hpos; unfold runs; rewrite E2;
    split; [done|]; left; split; [by exists started, t|]; cbn;
    by rewrite Hk2, Hk', Hk, <- app_assoc).
  apply IH; [lia|congruence].
Qed.

(** From the start of the execution, with the files for the outputs at hand. *)
Lemma fork_and_wait_outcome (fuel : nat) (command : list str) (files : option (str * str))
    (w : W) (r : ActionResult) :
  ended_ok e -> (interruptions w <= fuel)%nat ->
  runs (fork_and_wait sys getSignalStatus gettimeofday sys_perror fuel command files upload)
    (w, r) (wait_result files w r).
Proof.
  intros He Hfuel. unfold fork_and_wait.
  destruct (run_clock w) as (t & w1 & E1 & Hk1 & Hi1). eapply runs_uworld; [exact E1|].
  eapply (runs_bind _ _ _ (fun r' s => r' = Ok tt /\ s = (w1, on_metadata (set_execution_start t) r)));
    [by split| |by intros ? ? [? _]].
  intros [] s [_ ->].
  destruct (fork_law (child_of_executeAndStore sys sys_perror command files) w1)
    as (w2 & E2 & Hk2 & Hi2).
  eapply runs_uworld; [unfold ucall, ulift, call; by rewrite E2|]. cbn beta iota.
  apply wait_loop_spec; [done|lia|by rewrite Hk2, Hk1].
Qed.

(** ** The files for the outputs *)

Context (temp : TempCalls W).

(** A call that does nothing to the processes and interrupts no more often. *)
Definition quiet {A} (f : W -> A * W) : Prop :=
  forall w, events (snd (f w)) = events w /\
            (interruptions (snd (f w)) <= interruptions w)%nat.

Class QuietFiles := {
  mkstemp_quiet : forall name, quiet (sys_mkstemp temp name);
  close_quiet : forall fd, quiet (temp_close temp fd);
  unlink_quiet : forall path, quiet (temp_unlink temp path);
}.
Context `{!QuietFiles}.

(** A file for an output: the one that was asked for, or a temporary one. *)
Definition file_for (path : str) (file : StandardOutputFile) : Prop :=
  if decide (path = []) then exists t, file = (tf_name t, Some t) else file = (path, None).

Lemma file_new path w :
  let '(r, w') := StandardOutputFile_new temp path w in
  events w' = events w /\ (interruptions w' <= interruptions w)%nat /\
  match r with
  | Ok file => file_for path file
  | Throw ex => exists errno, ex = SystemError errno
  end.
Proof.
  unfold StandardOutputFile_new, file_for. destruct (decide (path = [])) as [Hp|Hp];
    [rewrite bool_decide_eq_true_2 by done|rewrite bool_decide_eq_false_2 by done; cbn; by split; [|split]].
  unfold TemporaryFile_new, TemporaryFile_create, TemporaryFile_close, mbind_M, query, call, mret.
  pose proof (mkstemp_quiet (template (tempDirectory temp w) DEFAULT_TMP_PREFIX) w) as [Hk Hi].
  destruct (sys_mkstemp temp _ w) as [[errno|[name fd]] w1]; cbn [snd] in *; cbn.
  - do 2 (split; [done|]). by eexists.
  - pose proof (close_quiet fd w1) as [Hk1 Hi1].
    destruct (temp_close temp fd w1) as [x w2]; cbn [snd] in *.
    split; [congruence|]. split; [lia|]. by eexists.
Qed.

Lemma file_delete file w : events (StandardOutputFile_delete temp file w) = events w.
Proof.
  unfold StandardOutputFile_delete. destruct (snd file) as [t|]; [|done].
  unfold TemporaryFile_delete, mbind_M, call, mret. destruct (negb _).
  - pose proof (close_quiet (tf_fd t) w) as [Hk _].
    destruct (temp_close temp (tf_fd t) w) as [x w1]; cbn [snd] in *.
    pose proof (unlink_quiet (c_str (tf_name t)) w1) as [Hk1 _].
    destruct (temp_unlink temp (c_str (tf_name t)) w1); cbn [snd] in *. congruence.
  - pose proof (unlink_quiet (c_str (tf_name t)) w) as [Hk1 _].
    destruct (temp_unlink temp (c_str (tf_name t)) w); cbn [snd] in *. congruence.
Qed.

(** How [executeAndStore] ends: the files could not be made, and nothing was
    executed or stored; or as the wait ends. *)
Definition execution_result (config : StandardOutputsCaptureConfig) (w0 : W)
    (r0 : ActionResult) (r : res unit) (s : W * ActionResult) : Prop :=
  if skip_capture config then wait_result None w0 r0 r s
  else (exists errno, r = Throw (SystemError errno)) /\ snd s = r0 /\ events (fst s) = events w0 \/
       exists out err, file_for (stdout_file_path config) out /\
         file_for (stderr_file_path config) err /\
         wait_result (Some (fst out, fst err)) w0 r0 r s.

Lemma wait_result_same files w0 w1 r0 r w w' result :
  events w1 = events w0 -> events w' = events w ->
  wait_result files w1 r0 r (w, result) -> wait_result files w0 r0 r (w', result).
Proof. unfold wait_result. cbn. by intros -> ->. Qed.

(** Nor does the deletion of a file when a scope is left. *)
Lemma runs_owning_file file (m : UM (W * ActionResult) unit) s Q :
  runs m s (fun r '(w, result) =>
    Q r (StandardOutputFile_delete temp file w, result)) ->
  runs (uowning (on_fst (StandardOutputFile_delete temp file)) m) s Q.
Proof.
  unfold runs, uowning, on_fst. by destruct (m s) as [[r [w result]]|].
Qed.

Lemma runs_file_new {A} path (k : StandardOutputFile -> UM (W * ActionResult) A) w r Q :
  (forall errno w', events w' = events w -> Q (Throw (SystemError errno)) (w', r)) ->
  (forall file w', events w' = events w -> (interruptions w' <= interruptions w)%nat ->
     file_for path file -> runs (k file) (w', r) Q) ->
  runs (let+ file := uworld (ulift (StandardOutputFile_new temp path)) in k file) (w, r) Q.
Proof.
  intros Hthrow Hk. unfold runs, ubind, uworld, ulift. pose proof (file_new path w) as Hf.
  destruct (StandardOutputFile_new temp path w) as [[file|ex] w']; destruct Hf as (H1 & H2 & H3).
  - by apply Hk.
  - destruct H3 as [errno ->]. by apply Hthrow.
Qed.

(** C16. [executeAndStore], with a child that ends, however often the wait is
    interrupted: it returns (unless the temporary files for the outputs cannot be
    made: it throws, and nothing is executed or stored); and in between one child
    was forked and its end collected.  Either nothing else was done to it, and the
    result has its exit code, the digests of its outputs when they are captured (in
    the files that the configuration names, or temporary ones), and the times of
    its start and its end; or the signal flag was set, the child was then sent
    SIGKILL, once, before its end was collected, and nothing but the time of the
    start was stored. *)
Theorem executeAndStore_outcome (fuel : nat) (config : StandardOutputsCaptureConfig)
    (command : list str) (w : W) (r : ActionResult) :
  ended_ok e -> (interruptions w <= fuel)%nat ->
  runs (executeAndStore_with sys temp getSignalStatus gettimeofday sys_perror fuel config
          command upload) (w, r)
    (execution_result config w r).
Proof.
  intros He Hfuel. unfold executeAndStore_with, execution_result.
  destruct (skip_capture config); [by apply fork_and_wait_outcome|].
  apply runs_file_new; [intros errno w' Hk; left; by split; [eexists|split]|].
  intros out w1 Hk1 Hi1 Hout. apply runs_owning_file, runs_file_new.
  { intros errno w' Hk. left. split; [by eexists|]. split; [done|].
    cbn. rewrite file_delete. congruence. }
  intros err w2 Hk2 Hi2 Herr. apply runs_owning_file.
  eapply runs_mono; [apply fork_and_wait_outcome; [done|lia]|].
  intros r' [w3 result] Hw. right. exists out, err. do 2 (split; [done|]).
  apply (wait_result_same (Some (fst out, fst err)) w w2 r r' w3 _ result); [congruence| |exact Hw].
  rewrite file_delete. apply file_delete.
Qed.
End executing.

(** A child that exits with 3 after two interruptions, the second of them SIGTERM;
    the world has the interruptions to come and what happened to the processes. *)
Abbreviation Toy := (nat * list process_event)%type.
Definition toy_signal (w : Toy) : Z := if (fst w =? 0)%nat then 15 else 0.

Definition toy_runner : ProcessCalls Toy :=
  MkProcessCalls _ (fun _ w => (Some ENOENT, w)) (fun _ '(n, k) => (inr 7, (n, k ++ [Forked 7])))
    (fun p '(n, k) => match n with
                      | O => (inr (3 * 256), (O, k ++ [Reaped p (3 * 256)]))
                      | S n => (inl EINTR, (n, k))
                      end)
    (fun _ => None) (fun s w => (inr s, w)) (fun _ w => (inr [], w))
    (fun _ _ _ w => (inr 5, w)) (fun _ fd w => (inr fd, w)) (fun _ w => (None, w))
    (fun p s w => (fst w, snd w ++ [Sent p s (toy_signal w)])).

Definition toy_clock (w : Toy) : (Z + Z * Z) * Toy := (inr (1000, 5), w).

Definition toy_outputs : UploadOutputsCallback (W := Toy) :=
  fun out err w => Some (Ok (MkDigest out 1 [], MkDigest err 2 []), w).

#[global] Instance toy_runner_child : ChildEnds toy_runner 7 (ChildExited 3).
Proof. refine {| interruptions := fst : Toy -> nat |}. by intros [[|n] k]. Defined.

#[global] Instance toy_runner_laws :
  RunnerLaws toy_runner toy_signal toy_clock toy_outputs 7 (ChildExited 3).
Proof.
  refine {| events := snd; uploaded := fun out err => (MkDigest out 1 [], MkDigest err 2 []) |}.
  - intros p s [n k]. by cbn.
  - by intros p [[|n] k].
  - intros w. by exists (1000, 5), w.
  - intros child [n k]. by eexists.
  - intros out err w. by exists w.
Defined.

Definition no_result : ActionResult := MkActionResult [] [] 0 None None None.

(** Temporary files that are always made. *)
Definition toy_files : TempCalls Toy :=
  MkTempCalls (fun _ => None) (fun name w => (inr (name, 5), w)) (fun name w => (inr name, w))
    (fun _ _ w => (None, w)) (fun _ w => (None, w)) (fun _ w => (None, w))
    (fun _ _ w => (None, w)) (fun _ _ w => (None, w)) (fun path => inr path).

#[global] Instance toy_quiet_files : QuietFiles toy_runner toy_signal toy_clock toy_outputs toy_files
  (laws := toy_runner_laws).
Proof. by split. Defined.

Lemma executeAndStore_outcome_witness :
  let config := MkCaptureConfig (L "out") [] false in
  runs (executeAndStore_with toy_runner toy_files toy_signal toy_clock (fun _ w => w) 2
          config [L "cc"] toy_outputs) (2%nat, [], no_result)
    (execution_result toy_runner toy_signal toy_clock toy_outputs (laws := toy_runner_laws)
       config (2%nat, []) no_result).
Proof.
  intros config.
  apply (executeAndStore_outcome toy_runner toy_signal toy_clock (fun _ w => w) toy_outputs
           (laws := toy_runner_laws) toy_files).
  - cbn. lia.
  - cbn. lia.
Defined.

(** ** [uploadOutputs] *)

Section outputs.
Context {W : Type} (hashFile : str -> UM W Digest).
Context (uploadBlobs : list UploadRequest -> M W (list UploadResult)).

(** A digest that failed is replaced by the empty one. *)
Definition unless_failed (failed : list UploadResult) (digest : Digest) : Digest :=
  if decide (digest ∈ map fst failed) then empty_digest else digest.

Lemma drop_failed_list failed ds de :
  digest_eqb ds de = false -> digest_eqb de empty_digest = false ->
  Forall (fun b : UploadResult => fst b = ds \/ fst b = de) failed -> NoDup (map fst failed) ->
  foldl drop_failed (ds, de) failed = (unless_failed failed ds, unless_failed failed de).
Proof.
  intros Hne Hempty Hf Hnd. pose proof (@reflexivity _ digest_equiv _ ds : digest_eqb ds ds = true) as Hds.
  assert (digest_eqb de ds = false) as Hne'.
  { destruct (digest_eqb de ds) eqn:E; [|done]. apply (symmetry (R := digest_equiv)) in E.
    unfold digest_equiv in E. congruence. }
  assert (ds <> de) as Hneq by congruence.
  unfold unless_failed.
  destruct failed as [|[d1 c1] [|[d2 c2] [|[d3 c3] l]]]; cbn [map fst foldl] in *.
  - done.
  - apply Forall_cons_1 in Hf as [H1 _]; cbn [fst] in H1; destruct H1 as [->| ->];
      unfold drop_failed; cbn [fst].
    + rewrite Hds. rewrite decide_True by set_solver. by rewrite decide_False by set_solver.
    + rewrite Hne'. rewrite (decide_False (P := ds ∈ _)) by set_solver.
      by rewrite decide_True by set_solver.
  - assert (d1 <> d2) as Hd12.
    { apply NoDup_cons_1_1 in Hnd. set_solver. }
    apply Forall_cons_1 in Hf as [H1 Hf]. apply Forall_cons_1 in Hf as [H2 _]. cbn [fst] in *.
    rewrite !decide_True by (destruct H1, H2; subst; set_solver).
    unfold drop_failed; cbn [fst].
    destruct H1 as [->| ->], H2 as [->| ->]; try done; by rewrite ?Hds, ?Hne', ?Hempty, ?Hds.
  - exfalso. apply Forall_cons_1 in Hf as [H1 Hf]. apply Forall_cons_1 in Hf as [H2 Hf].
    apply Forall_cons_1 in Hf as [H3 _]. cbn [fst] in *.
    pose proof (NoDup_cons_1_1 _ _ Hnd) as Hn1.
    pose proof (NoDup_cons_1_1 _ _ (NoDup_cons_1_2 _ _ Hnd)) as Hn2.
    assert (d1 <> d2 /\ d1 <> d3 /\ d2 <> d3) as (? & ? & ?) by set_solver.
    destruct H1, H2, H3; congruence.
Qed.

(** [uploadOutputs]: when the two files have different digests, and the upload
    names each blob that failed once, the digests returned are those of the files,
    but the empty digest in place of one whose blob failed; when the upload throws
    anything, both are empty, and nothing is thrown. *)
Theorem uploadOutputs_reports (out err : str) (ds de : Digest) (w w1 w2 : W) :
  hashFile out w = Some (Ok ds, w1) -> hashFile err w1 = Some (Ok de, w2) ->
  digest_eqb ds de = false -> digest_eqb de empty_digest = false ->
  let sent := uploadBlobs [MkUploadRequest ds [] out; MkUploadRequest de [] err] w2 in
  match fst sent with
  | Ok failed => Forall (fun b : UploadResult => fst b = ds \/ fst b = de) failed /\
                 NoDup (map fst failed)
  | Throw _ => True
  end ->
  uploadOutputs hashFile uploadBlobs out err w
  = Some (Ok match fst sent with
             | Ok failed => (unless_failed failed ds, unless_failed failed de)
             | Throw _ => (empty_digest, empty_digest)
             end, snd sent).
Proof.
  intros H1 H2 Hne Hempty sent Hs. unfold uploadOutputs, ubind at 1. rewrite H1.
  unfold ubind at 1. rewrite H2. unfold ubind, ucatch, ulift. fold sent.
  destruct sent as [[failed|ex] w3]; cbn [fst snd] in *; [|done].
  destruct Hs as [Hf Hnd]. unfold uret. by rewrite drop_failed_list.
Qed.
End outputs.

Lemma uploadOutputs_reports_witness :
  uploadOutputs (fun path (w : unit) => Some (Ok (MkDigest path 1 []), w))
    (fun _ => mret [(MkDigest (L "out") 1 [], UNAVAILABLE)]) (L "out") (L "err") tt
  = Some (Ok (empty_digest, MkDigest (L "err") 1 []), tt).
Proof.
  rewrite (uploadOutputs_reports (fun path (w : unit) => Some (Ok (MkDigest path 1 []), w))
             (fun _ => mret [(MkDigest (L "out") 1 [], UNAVAILABLE)]) (L "out") (L "err")
             (MkDigest (L "out") 1 []) (MkDigest (L "err") 1 []) tt tt tt); try reflexivity.
  split; [repeat constructor|]. apply NoDup_singleton.
Defined.

(** Two outputs with one digest, reported once: the other is taken for uploaded. *)
Example equal_outputs_misreported :
  uploadOutputs (fun _ (w : unit) => Some (Ok (MkDigest (L "d") 1 []), w))
    (fun _ => mret [(MkDigest (L "d") 1 [], UNAVAILABLE)]) (L "out") (L "err") tt
  = Some (Ok (empty_digest, MkDigest (L "d") 1 []), tt).
Proof. reflexivity. Qed.

(** ** [createOutputDirectories] *)

Section directories.
Context {W : Type} (sys_mkdir : str -> Z -> W -> option Z * W) {laws : MkdirLaws sys_mkdir}.

(** The directory that an output needs, by its segments. *)
Definition needed (workingDir output : str) : option (list str) :=
  match rsplit_slash output with
  | Some (parent, _) => Some (segments_of (normalizePath (c_str (workingDir ++ L "/" ++ parent))))
  | None => None
  end.

Definition requested (command : Command) : list str :=
  match output_paths command with
  | [] => output_files command ++ output_directories command
  | paths => paths
  end.

(** Nothing disappears, and on a return the directories for these outputs are there. *)
Definition provided (workingDir : str) (outputs : list str) (w : W) (r : res unit) (w' : W) : Prop :=
  present w ⊆ present w' /\
  match r with
  | Ok _ => forall output names, output ∈ outputs -> needed workingDir output = Some names ->
              names ∈ present w'
  | Throw e => exists errno, e = SystemError errno
  end.

Lemma normalizePath_c_str p : normalizePath (c_str p) = normalizePath p.
Proof. unfold normalizePath. by rewrite (c_str_id (c_str p)) by apply c_str_no_nul. Qed.

Lemma createDirectoryIfNeeded_run workingDir output w :
  is_absolute workingDir = true ->
  runs (createDirectoryIfNeeded sys_mkdir workingDir output) w (provided workingDir [output] w).
Proof.
  intros Ha. unfold createDirectoryIfNeeded, provided, needed.
  destruct (rsplit_slash output) as [[parent after]|] eqn:E.
  - set (dl := workingDir ++ L "/" ++ parent).
    destruct (normalizePath_absolute dl) as (names & Hn & Ep & En); [by destruct workingDir|].
    unfold createDirectory. rewrite normalizePath_c_str, Ep. eapply runs_mono.
    + apply (createDirectoriesInPath_spec sys_mkdir names); [done|].
      unfold absolute_path. rewrite length_app. pose proof (join_path_length names Hn). lia.
    + intros r w' [[Hsub _] Hr]. split; [done|]. destruct r as [[]|e]; [|done].
      intros o names' Ho. apply list_elem_of_singleton in Ho as ->. rewrite E, normalizePath_c_str.
      fold dl. rewrite <- En. by intros [= <-].
  - apply runs_ret. split; [done|]. intros o names Ho.
    apply list_elem_of_singleton in Ho as ->. by rewrite E.
Qed.

Lemma ufor_each_provided workingDir outputs w :
  is_absolute workingDir = true ->
  runs (ufor_each (createDirectoryIfNeeded sys_mkdir workingDir) outputs) w
    (provided workingDir outputs w).
Proof.
  intros Ha. revert w. induction outputs as [|o outputs IH]; intros w; cbn [ufor_each].
  { apply runs_ret. split; [done|]. intros ? ? Hin. by apply elem_of_nil in Hin. }
  eapply runs_bind; [by apply createDirectoryIfNeeded_run| |].
  - intros _ w1 [Hs1 H1]. eapply runs_mono; [apply IH|]. intros r w2 [Hs2 H2].
    split; [by etrans|]. destruct r as [[]|e]; [|done]. intros o' names Ho' Hn.
    apply elem_of_cons in Ho' as [->|Ho']; [|by eapply H2].
    apply Hs2. eapply H1; [by apply list_elem_of_singleton|done].
  - by intros e w1 H1.
Qed.

(** [createOutputDirectories] below an absolute working directory: nothing
    disappears; if it returns, the directory above every requested output that is
    not at the top is there (for [output_paths] when there are any, else for the
    files and directories); it throws [std::system_error] only. *)
Theorem createOutputDirectories_provides (command : Command) (workingDir : str) (w : W) :
  is_absolute workingDir = true ->
  runs (createOutputDirectories sys_mkdir command workingDir) w
    (provided workingDir (requested command) w).
Proof.
  intros Ha. unfold createOutputDirectories, requested.
  destruct (output_paths command) as [|x l] eqn:E.
  - rewrite bool_decide_eq_true_2 by done. cbn [negb].
    eapply runs_bind; [by apply ufor_each_provided| |by intros e w1 H1].
    intros _ w1 [Hs1 H1]. eapply runs_mono; [by apply ufor_each_provided|].
    intros r w2 [Hs2 H2]. split; [by etrans|]. destruct r as [[]|e]; [|done].
    intros o names Ho Hn. apply elem_of_app in Ho as [Ho|Ho]; [|by eapply H2].
    apply Hs2. by eapply H1.
  - rewrite bool_decide_eq_false_2 by done. by apply ufor_each_provided.
Qed.
End directories.

Lemma createOutputDirectories_provides_witness :
  runs (createOutputDirectories toy_mkdir (MkCommand [] [L "ignored/f"] [] [L "a/b/f"; L "g"] [] [])
          (L "/root")) {[ [L "root"] ]}
    (provided toy_mkdir (L "/root") [L "a/b/f"; L "g"] {[ [L "root"] ]}).
Proof.
  apply (createOutputDirectories_provides toy_mkdir
           (MkCommand [] [L "ignored/f"] [] [L "a/b/f"; L "g"] [] []) (L "/root")).
  reflexivity.
Defined.
