(* ===== verification/RunnerMain.v ===== *)
(** * The runner: its arguments and its main function

    [buildboxcommon_runner.cpp]: [parseArguments], [main] and what [main] calls to
    read the action, to fetch the command and to write the result or the status of
    an error.  The functions that a subclass overrides, protobuf, the client and
    the kernel are parameters; log output is left out. *)

From S2P Require Import Prelude StdMap Arrays Blake3Compress Digest TimeUtils Grpc Merklize Client ClientBlobs Paths Cstring Undefined ConnectionOptions Posix FileUtils Temporary StagedDirectory StagedCapture SystemUtils Logging Runner RunnerExecute.
Open Scope Z_scope.

Definition SIGINT : Z := 2.
Definition SIGTERM : Z := 15.
Definition EXIT_FAILURE : Z := 1.

(** [google.rpc.Status]. *)
Record RpcStatus := MkRpcStatus { rpc_code : Z; rpc_message : str }.

Record Action := MkAction {
  command_digest : Digest;
  input_root_digest : Digest;
  action_fields : str;          (** the rest, serialized *)
}.

Fixpoint assoc {A} (key : str) (l : list (str * A)) : option A :=
  match l with
  | [] => None
  | (k, a) :: l => if decide (k = key) then Some a else assoc key l
  end.

Definition assign_char : ascii := "="%char.

(** What the main program asks of its environment. *)
Record MainEnv (W : Type) := MkMainEnv {
  (** The virtual functions of the subclass. *)
  virtual_parseArg : str -> W -> bool * W;
  virtual_printSpecialUsage : W -> W;
  virtual_printSpecialCapabilities : W -> W;
  virtual_execute : Command -> Digest -> PM (W * Runner) ActionResult;
  (** Writing to standard output (1) or to standard error (2). *)
  sys_print : Z -> str -> W -> W;
  main_stat : str -> W -> outcome_of Stat;
  main_protos : ProtoCalls W;
  ParseAction : Z -> W -> option Action * W;
  SerializeActionResult : ActionResult -> Z -> W -> bool * W;
  SerializeStatus : RpcStatus -> Z -> W -> bool * W;
  (** [Action::SerializeAsString]. *)
  SerializeAction : Action -> str;
  sys_sigaction : Z -> W -> option Z * W;
  client_init : ConnectionOptions -> M W unit;
  client_fetchCommand : Digest -> M W Command;
  main_getSignalStatus : W -> Z;
  main_gettimeofday : W -> (Z + Z * Z) * W;
  (** [e.what()], and [e.status.error_message()]. *)
  what : exn -> str;
}.
Arguments virtual_parseArg {W} _. Arguments virtual_printSpecialUsage {W} _.
Arguments virtual_printSpecialCapabilities {W} _. Arguments virtual_execute {W} _.
Arguments sys_print {W} _. Arguments main_stat {W} _. Arguments main_protos {W} _.
Arguments ParseAction {W} _. Arguments SerializeActionResult {W} _.
Arguments SerializeStatus {W} _. Arguments SerializeAction {W} _.
Arguments sys_sigaction {W} _. Arguments client_init {W} _.
Arguments client_fetchCommand {W} _. Arguments main_getSignalStatus {W} _.
Arguments main_gettimeofday {W} _. Arguments what {W} _.

Section main.
Context {W : Type} (env : MainEnv W) `{DigestFunction}.

Abbreviation St := (W * Runner)%type.

Definition pworld {A} (m : M W A) : PM St A :=
  fun '(w, self) =>
    match m w with
    | (Ok a, w) => Some (Returned a, (w, self))
    | (Throw e, w) => Some (Raised e, (w, self))
    end.
Definition pself : PM St Runner := fun '(w, self) => Some (Returned self, (w, self)).
Definition pset (f : Runner -> Runner) : PM St unit :=
  fun '(w, self) => Some (Returned tt, (w, f self)).
(** A call of the global logger. *)
Definition plog (m : M Logger unit) : PM St unit :=
  fun '(w, self) =>
    match m (logger self) with
    | (Ok tt, l) => Some (Returned tt, (w, set_logger l self))
    | (Throw e, l) => Some (Raised e, (w, set_logger l self))
    end.
Definition pprint (fd : Z) (text : str) : PM St unit :=
  fun '(w, self) => Some (Returned tt, (sys_print env fd text w, self)).
Definition pdo (f : W -> W) : PM St unit :=
  fun '(w, self) => Some (Returned tt, (f w, self)).

Definition cout : Z := 1.
Definition cerr : Z := 2.

(** ** [parseArguments] *)

(** [usage] followed by the text of the subclass. *)
Definition print_usage (name : str) : PM St unit :=
  let^ _ := pprint cerr (usage name) in
  pdo (virtual_printSpecialUsage env).

(** An option with a value: may the parsing go on? *)
Definition parse_assignment (arg key value : str) : PM St bool :=
  if decide (key = L "action") then let^ _ := pset (set_inputPath value) in pret true
  else if decide (key = L "action-result") then
    let^ _ := pset (set_outputPath value) in pret true
  else if decide (key = L "workspace-path") then
    let^ _ := pset (set_stage_path value) in pret true
  else if decide (key = L "log-level") then
    match assoc (map tolower value) stringToLogLevelMap with
    | None => let^ _ := pprint cerr (line "Invalid log level.") in pret false
    | Some level => let^ _ := pset (set_logLevel level) in pret true
    end
  else if decide (key = L "log-file") then
    let^ _ := pprint cerr (line "Option --log-file is no longer supported. To redirect logs to files, use --log-directory=DIR.") in
    pret false
  else if decide (key = L "log-directory") then
    let^ found := pworld (isDirectory (main_stat env) value) in
    if negb found then
      let^ _ := pprint cerr (L "--log-directory: directory [" ++ value ++ line "] does not exist") in
      pret false
    else let^ _ := plog (setOutputDirectory (Some value)) in pret true
  else if decide (key = L "stdout-file") then
    let^ _ := pset (set_capture (fun c => MkCaptureConfig value (stderr_file_path c) (skip_capture c))) in
    pret true
  else if decide (key = L "stderr-file") then
    let^ _ := pset (set_capture (fun c => MkCaptureConfig (stdout_file_path c) value (skip_capture c))) in
    pret true
  else
    let^ _ := pprint cerr (L "Invalid option " ++ arg ++ [newline]) in pret false.

(** An option without a value.  [argv\[0\]] is the argument itself by now. *)
Definition parse_flag (arg name : str) : PM St bool :=
  if decide (name = L "help") then
    let^ _ := print_usage arg in pexit 0
  else if decide (name = L "use-localcas") then
    let^ _ := pprint cerr (line "WARNING: The --use-localcas option will be deprecated. LocalCAS support is now enabled by default.") in
    let^ _ := pset (set_use_localcas true) in pret true
  else if decide (name = L "disable-localcas") then
    let^ _ := pset (set_use_localcas false) in pret true
  else if decide (name = L "no-logs-capture") then
    let^ _ := pset (set_capture (fun c => MkCaptureConfig (stdout_file_path c) (stderr_file_path c) true)) in
    pret true
  else if decide (name = L "verbose") then
    let^ _ := plog (setLogLevel DEBUG) in pret true
  else if decide (name = L "capabilities") then
    let^ _ := pprint cout (line "no-logs-capture") in
    let^ _ := pdo (virtual_printSpecialCapabilities env) in
    pexit 0
  else if decide (name = L "validate-parameters") then
    let^ _ := pset set_validate in pret true
  else
    let^ _ := pprint cerr (L "Invalid option " ++ arg ++ [newline]) in pret false.

(** One argument: is it handled by the subclass or by the connection options? *)
Definition parse_argument (arg : str) : PM St bool :=
  let^ special := pworld (call (virtual_parseArg env arg)) in
  if (special : bool) then pret true
  else
    let^ self := pself in
    let (handled, options) := parseArg (Some arg) None (d_casRemote self) in
    if (handled : bool) then let^ _ := pset (set_casRemote options) in pret true
    else
      match arg with
      | c :: d :: rest =>
          if bool_decide (c = "-"%char) && bool_decide (d = "-"%char) then
            match split_at assign_char rest with
            | Some (key, value) => parse_assignment arg key value
            | None => parse_flag arg rest
            end
          else
            let^ _ := pprint cerr (L "Unexpected argument " ++ arg ++ [newline]) in pret false
      | _ => let^ _ := pprint cerr (L "Unexpected argument " ++ arg ++ [newline]) in pret false
      end.

(** The arguments after the name of the program. *)
Fixpoint parseArguments (args : list str) : PM St bool :=
  match args with
  | [] =>
      let^ self := pself in
      match d_url (d_casRemote self) with
      | None => let^ _ := pprint cerr (line "CAS server URL is missing.") in pret false
      | Some _ => pret true
      end
  | arg :: args =>
      let^ continue := parse_argument arg in
      if (continue : bool) then parseArguments args else pret false
  end.

(** ** Results and errors *)

Definition errorStatusCodeFilePath (actionResultPath : str) : str :=
  if bool_decide (actionResultPath = []) then [] else actionResultPath ++ L ".error-status".

Definition writeStatusFile (status : RpcStatus) (path : str) : PM St unit :=
  pcatch is_runtime_error
    (pworld (writeProtobufToFile (main_protos env) (SerializeStatus env status) path))
    (fun _ => pret tt).

Definition writeErrorStatusFile (errorCode : Z) (errorMessage : str) : PM St unit :=
  let^ self := pself in
  if negb (bool_decide (d_outputPath self = [])) then
    writeStatusFile (MkRpcStatus errorCode errorMessage)
      (errorStatusCodeFilePath (d_outputPath self))
  else pret tt.

Definition readAction (path : str) : PM St Action :=
  pcatch is_runtime_error
    (pworld (readProtobufFromFile (main_protos env) (ParseAction env) path))
    (fun e =>
       let errorMessage := L "Failed to read Action from [" ++ path ++ L "]: " ++ what env e in
       let^ _ := writeErrorStatusFile INTERNAL errorMessage in
       pexit 1).

Definition registerSignals : PM St unit :=
  let^ failed := pworld (call (sys_sigaction env SIGINT)) in
  match failed with
  | Some _ => pexit 1
  | None =>
      let^ failed := pworld (call (sys_sigaction env SIGTERM)) in
      match failed with Some _ => pexit 1 | None => pret tt end
  end.

Definition initializeCasClient : PM St unit :=
  let^ self := pself in
  pcatch is_runtime_error (pworld (client_init env (d_casRemote self))) (fun _ => pexit 1).

(** The status that a handler of [fetchCommand] makes of an exception. *)
Definition fetch_status (e : exn) : RpcStatus :=
  match e with
  | GrpcError code => MkRpcStatus code (what env e)
  | _ => MkRpcStatus INTERNAL (what env e)
  end.

Definition fetchCommand (command_digest : Digest) : PM St Command :=
  pcatch is_runtime_error (pworld (client_fetchCommand env command_digest))
    (fun e =>
       let errorStatus := fetch_status e in
       let^ self := pself in
       let errorMessage :=
         L "Error fetching Command with digest " ++ quoted (digest_toString command_digest)
         ++ L " from " ++ quoted (match d_url (d_casRemote self) with Some url => url | None => [] end)
         ++ L ": " ++ rpc_message errorStatus in
       let^ _ := writeErrorStatusFile (rpc_code errorStatus) errorMessage in
       pexit 1).

Definition writeActionResult (action_result : ActionResult) (path : str) : PM St unit :=
  pcatch is_runtime_error
    (pworld (writeProtobufToFile (main_protos env) (SerializeActionResult env action_result) path))
    (fun _ => pexit 1).

Definition main_now : PM St Timestamp :=
  let^ t := pworld (call (main_gettimeofday env)) in pworld (mlift (now t)).

(** ** [main] *)

(** What is executed under the handler: a status that ends the program, or a result. *)
Definition run_command (command : Command) (input_root_digest : Digest)
  : PM St (Z + ActionResult) :=
  pcatch any_exception
    (let^ signal_status := pworld (query (main_getSignalStatus env)) in
     if negb (signal_status =? 0) then pret (inl signal_status)
     else let^ result := virtual_execute env command input_root_digest in pret (inr result))
    (fun e =>
       let^ _ := writeErrorStatusFile INTERNAL (L "execute() threw: " ++ what env e) in
       pret (inl EXIT_FAILURE)).

(** [main] after the arguments, with the logger set up. *)
Definition main_work : PM St Z :=
  let^ self := pself in
  let^ worker_start_time := main_now in
  let^ input := readAction (d_inputPath self) in
  let^ _ := pset (set_action_digest (digest_of (SerializeAction env input))) in
  let^ _ := registerSignals in
  let^ _ := initializeCasClient in
  let^ command := fetchCommand (command_digest input) in
  let^ outcome := run_command command (input_root_digest input) in
  match outcome with
  | inl status => pret status
  | inr result =>
      let^ completed := main_now in
      let result :=
        on_metadata (set_worker_start worker_start_time)
          (on_metadata (set_worker_completed completed) result) in
      let^ self := pself in
      let^ _ := if negb (bool_decide (d_outputPath self = []))
                then writeActionResult result (d_outputPath self) else pret tt in
      pworld (query (main_getSignalStatus env))
  end.

Definition main (name : str) (args : list str) : PM St Z :=
  let^ parsed := parseArguments args in
  if negb parsed then let^ _ := print_usage name in pret 1
  else
    let^ self := pself in
    if d_validateParametersAndExit self then
      let^ _ := pprint cerr (line "Asked to only validate the CLI parameters (--validate-parameters) and the check suceeded: exiting 0. ") in
      pret 0
    else
      let^ _ := plog (initialize (Some name)) in
      let^ _ := plog (setLogLevel (d_logLevel self)) in
      main_work.
End main.
