(* ===== verification/RunnerMainSpec.v ===== *)
(** * What the main program of a runner promises

    Every end of the work leaves one record: the result of an action that was
    executed, or the status of the error, but for the signals and the two errors
    that the code does not report.  --verbose has no effect. *)

From S2P Require Import Prelude StdMap Arrays Blake3Compress Digest TimeUtils Grpc Merklize Client ClientBlobs Paths Cstring Undefined ConnectionOptions Posix FileUtils Temporary StagedDirectory StagedCapture SystemUtils Logging Runner RunnerExecute RunnerMain.
Open Scope Z_scope.

(** ** Records *)

(** What matters of a run: a file was opened for writing; the status of an error,
    or a result, was serialized; the subclass executed the command, and how that
    ended; a signal could not be registered, or the client not be initialized. *)
Inductive event :=
  | Opened (path : str)
  | WroteStatus (status : RpcStatus)
  | WroteResult (result : ActionResult)
  | Executed (end_of_it : ending ActionResult)
  | SigactionFailed (errno : Z)
  | ClientFailed (e : exn).

Section records.
Context {W : Type} (env : MainEnv W) `{DigestFunction}.

Definition keeping {A} (f : W -> A * W) : W * list event -> A * (W * list event) :=
  fun '(w, log) => let '(a, w) := f w in (a, (w, log)).
Definition keeping_world (f : W -> W) : W * list event -> W * list event :=
  fun '(w, log) => (f w, log).
(** A call whose outcome may be an event. *)
Definition noting {A} (events : A -> list event) (f : W -> A * W)
  : W * list event -> A * (W * list event) :=
  fun '(w, log) => let '(a, w) := f w in (a, (w, log ++ events a)).
Definition appending (x : event) (f : W -> bool * W) := noting (fun _ => [x]) f.

(** The same environment, where the events are kept. *)
Definition recording : MainEnv (W * list event) :=
  MkMainEnv _
    (fun arg => keeping (virtual_parseArg env arg))
    (keeping_world (virtual_printSpecialUsage env))
    (keeping_world (virtual_printSpecialCapabilities env))
    (fun command digest '((w, log), self) =>
       match virtual_execute env command digest (w, self) with
       | Some (r, (w, self)) => Some (r, ((w, log ++ [Executed r]), self))
       | None => None
       end)
    (fun fd text => keeping_world (sys_print env fd text))
    (fun path '(w, _) => main_stat env path w)
    (MkProtoCalls
       (fun path flags mode =>
          noting (fun _ => if O_WRONLY flags then [Opened path] else [])
            (proto_open (main_protos env) path flags mode))
       (fun fd => keeping (proto_close (main_protos env) fd)))
    (fun fd => keeping (ParseAction env fd))
    (fun result fd => appending (WroteResult result) (SerializeActionResult env result fd))
    (fun status fd => appending (WroteStatus status) (SerializeStatus env status fd))
    (SerializeAction env)
    (fun signal => noting (fun failed => match failed with Some errno => [SigactionFailed errno] | None => [] end)
                     (sys_sigaction env signal))
    (fun options => noting (fun r => match r with Throw e => [ClientFailed e] | Ok _ => [] end)
                      (client_init env options))
    (fun digest => keeping (client_fetchCommand env digest))
    (fun '(w, _) => main_getSignalStatus env w)
    (keeping (main_gettimeofday env))
    (what env).

(** Files can be opened and written. *)
Class FilesWork := {
  open_works : forall path flags mode w, exists fd w',
    proto_open (main_protos env) path flags mode w = (inr fd, w');
  status_works : forall status fd w, fst (SerializeStatus env status fd w) = true;
  result_works : forall result fd w, fst (SerializeActionResult env result fd w) = true;
}.
Context {files : FilesWork}.

Abbreviation St := ((W * list event) * Runner)%type.

(** From [s] a program defined there ends in a way that satisfies [Q]. *)
Definition ends {A} (m : PM St A) (s : St) (Q : ending A -> St -> Prop) : Prop :=
  match m s with Some (r, s) => Q r s | None => True end.

Lemma ends_bind {A B} (m : PM St A) (k : A -> PM St B) s (R : ending A -> St -> Prop) Q :
  ends m s R ->
  (forall a s, R (Returned a) s -> ends (k a) s Q) ->
  (forall e s, R (Raised e) s -> Q (Raised e) s) ->
  (forall code s, R (Exited code) s -> Q (Exited code) s) ->
  ends (let^ a := m in k a) s Q.
Proof.
  unfold ends, pbind. intros Hm Hk He Hc.
  destruct (m s) as [[[a|e|code] s']|]; [by apply Hk|by apply He|by apply Hc|done].
Qed.

Lemma ends_catch {A} (p : exn -> bool) (m : PM St A) (h : exn -> PM St A) s
    (Q : ending A -> St -> Prop) :
  ends m s (fun r s' => match r with
                        | Raised e => if p e then ends (h e) s' Q else Q (Raised e) s'
                        | r => Q r s'
                        end) ->
  ends (pcatch p m h) s Q.
Proof.
  unfold ends, pcatch. destruct (m s) as [[[a|e|code] s']|]; try done. by destruct (p e).
Qed.

Lemma ends_mono {A} (m : PM St A) s (P Q : ending A -> St -> Prop) :
  ends m s P -> (forall r s, P r s -> Q r s) -> ends m s Q.
Proof. unfold ends. destruct (m s) as [[r s']|]; auto. Qed.

Definition log_of (s : St) : list event := snd (fst s).
Definition path_of (s : St) : str := d_outputPath (snd s).
Definition signal_of (s : St) : Z := main_getSignalStatus env (fst (fst s)).

(** The log and the output path are as they were. *)
Definition unchanged (s s' : St) : Prop := log_of s' = log_of s /\ path_of s' = path_of s.

(** ** The parts of [main] *)

Lemma ends_noting {A} (f : W -> A * W) events s :
  ends (pworld (call (noting events f))) s (fun r s' => exists a, r = Returned a /\
    log_of s' = log_of s ++ events a /\ path_of s' = path_of s).
Proof.
  destruct s as [[w log] self]. unfold ends, pworld, call, noting. destruct (f w) as [a w'].
  by exists a.
Qed.

Lemma ends_keeping {A} (f : W -> A * W) s :
  ends (pworld (call (keeping f))) s (fun r s' => unchanged s s' /\ exists a, r = Returned a).
Proof.
  destruct s as [[w log] self]. unfold ends, pworld, call, keeping. destruct (f w) as [a w'].
  split; [done|]. by exists a.
Qed.

(** Over the world, anything that is kept out of the log. *)
Lemma ends_kept {A} (m : M W A) s :
  ends (pworld (keeping m)) s (fun r s' => unchanged s s' /\
    match r with
    | Returned a => exists w w', m w = (Ok a, w')
    | Raised e => exists w w', m w = (Throw e, w')
    | Exited _ => False
    end).
Proof.
  destruct s as [[w log] self]. unfold ends, pworld, keeping.
  destruct (m w) as [[a|e] w'] eqn:E; (split; [done|]); eauto.
Qed.

(** Reading a file writes nothing. *)
Lemma ends_read path s :
  ends (pworld (readProtobufFromFile (main_protos recording) (ParseAction recording) path)) s
    (fun r s' => unchanged s s' /\ match r with Exited _ => False | _ => True end).
Proof.
  destruct s as [[w log] self]. unfold ends, pworld, readProtobufFromFile.
  cbn [recording main_protos ParseAction proto_open proto_close].
  unfold mbind_M, call, noting, keeping, mthrow, mret.
  destruct (open_works (c_str path) O_RDONLY 0 w) as (fd & w1 & ->).
  destruct (ParseAction env fd w1) as [[a|] w2]; destruct (proto_close (main_protos env) fd w2);
    unfold unchanged, log_of; cbn; rewrite app_nil_r; by split.
Qed.

(** What is written of an event, and where. *)
Definition written (path : str) (x : event) : list event := [Opened (c_str path); x].

(** Writing a file appends what is written. *)
Lemma ends_write x (f : Z -> W -> bool * W) path s :
  (forall fd w, fst (f fd w) = true) ->
  ends (pworld (writeProtobufToFile (main_protos recording) (fun fd => appending x (f fd)) path)) s
    (fun r s' => r = Returned tt /\ log_of s' = log_of s ++ written path x /\
       path_of s' = path_of s).
Proof.
  intros Hf. destruct s as [[w log] self]. unfold ends, pworld, writeProtobufToFile.
  cbn [recording main_protos proto_open proto_close].
  unfold mbind_M, call, appending, noting, keeping, mthrow, mret.
  destruct (open_works (c_str path) (MkOpenFlags true true true false false false) 438 w)
    as (fd & w1 & ->).
  pose proof (Hf fd w1) as Hb. destruct (f fd w1) as [b w2]. cbn in Hb. subst b.
  destruct (proto_close (main_protos env) fd w2). unfold log_of. cbn. by rewrite <- app_assoc.
Qed.

(** The status of an error, next to the output path. *)
Definition status_written (path : str) (status : RpcStatus) : list event :=
  written (errorStatusCodeFilePath path) (WroteStatus status).

(** Where there is an output path, an error leaves its status. *)
Definition reported (status : RpcStatus) (s s' : St) : Prop :=
  path_of s' = path_of s /\
  (path_of s <> [] -> log_of s' = log_of s ++ status_written (path_of s) status).

Lemma ends_writeErrorStatusFile code message s :
  ends (writeErrorStatusFile recording code message) s (fun r s' =>
    r = Returned tt /\ reported (MkRpcStatus code message) s s').
Proof.
  unfold writeErrorStatusFile.
  apply ends_bind with (R := fun r s' => s' = s /\ r = Returned (snd s));
    [by destruct s as [[w log] self]| |by intros ? ? [_ ?]|by intros ? ? [_ ?]].
  intros self s' [-> [= ->]].
  destruct (bool_decide (d_outputPath (snd s) = [])) eqn:E; cbn [negb]; b2p.
  - split; [done|]. split; [done|]. intros Hp. by destruct Hp.
  - apply ends_catch. eapply ends_mono; [apply ends_write; apply status_works|].
    intros r s' (-> & Hl & Hp). split; [done|]. by split.
Qed.

(** The errors for which the code writes no status. *)
Definition unreported (s s' : St) : Prop :=
  path_of s' = path_of s /\
  ((exists errno, log_of s' = log_of s ++ [SigactionFailed errno]) \/
   (exists e, log_of s' = log_of s ++ [ClientFailed e])).

(** A stage before the command: it changes nothing but the runner's other members
    (throwing, it may have failed to initialize the client), or ends the program
    with code 1. *)
Definition stage_end {A} (s : St) (r : ending A) (s' : St) : Prop :=
  match r with
  | Returned _ => unchanged s s'
  | Raised e => log_of s' = log_of s \/ log_of s' = log_of s ++ [ClientFailed e]
  | Exited code => code = 1 /\ ((exists status, reported status s s') \/ unreported s s')
  end.

Lemma ends_self s :
  ends (pself (W := W * list event)) s (fun r s' => s' = s /\ r = Returned (snd s)).
Proof. by destruct s as [[w log] self]. Qed.

(** An error that is reported and ends the program. *)
Lemma ends_report {A} code message s0 s :
  unchanged s0 s ->
  ends (let^ _ := writeErrorStatusFile recording code message in pexit (A := A) 1) s (stage_end s0).
Proof.
  intros [Hl Hp]. eapply ends_bind; [apply ends_writeErrorStatusFile| | |].
  - intros [] s' [_ [Hp' Hr]]. split; [done|]. left. exists (MkRpcStatus code message).
    split; [congruence|]. intros Hne. rewrite <- Hl, <- Hp. apply Hr. congruence.
  - by intros e s' [? _].
  - by intros e s' [? _].
Qed.

Lemma ends_readAction path s : ends (readAction recording path) s (stage_end s).
Proof.
  apply ends_catch. eapply ends_mono; [apply ends_read|].
  intros [a|e|code] s' [Hu Hr]; [done| |done].
  destruct (is_runtime_error e); [by apply ends_report|]. left. by destruct Hu.
Qed.

Lemma ends_registerSignals s : ends (registerSignals recording) s (stage_end s).
Proof.
  unfold registerSignals. eapply ends_bind; [apply ends_noting| | |].
  2,3: by intros ? ? (? & ? & _).
  intros a s1 (a' & [= <-] & Hl1 & Hp1). destruct a as [errno|].
  { split; [done|]. right. split; [done|]. left. by exists errno. }
  rewrite app_nil_r in Hl1. eapply ends_bind; [apply ends_noting| | |].
  2,3: by intros ? ? (? & ? & _).
  intros a s2 (a' & [= <-] & Hl2 & Hp2). rewrite Hl1 in Hl2. destruct a as [errno|].
  - split; [done|]. right. split; [congruence|]. left. by exists errno.
  - rewrite app_nil_r in Hl2. split; congruence.
Qed.

Lemma ends_initializeCasClient s : ends (initializeCasClient recording) s (stage_end s).
Proof.
  unfold initializeCasClient. eapply ends_bind; [apply ends_self| |by intros ? ? [_ ?]|by intros ? ? [_ ?]].
  intros self s' [-> _]. apply ends_catch. destruct s as [[w log] self'].
  unfold ends, pworld. cbn [recording client_init]. unfold noting.
  destruct (client_init env (d_casRemote self) w) as [[a|e] w'].
  - unfold unchanged, log_of. cbn. by rewrite app_nil_r.
  - destruct (is_runtime_error e); [|by right].
    split; [done|]. right. split; [done|]. right. by exists e.
Qed.

Lemma ends_fetchCommand digest s : ends (fetchCommand recording digest) s (stage_end s).
Proof.
  unfold fetchCommand. apply ends_catch.
  eapply ends_mono; [apply (ends_kept (client_fetchCommand env digest))|].
  intros [a|e|code] s1 [Hu Hr]; [done| |done].
  destruct (is_runtime_error e); [|left; by destruct Hu].
  eapply ends_bind; [apply ends_self| |by intros ? ? [_ ?]|by intros ? ? [_ ?]].
  intros self s2 [-> _]. by apply ends_report.
Qed.

Lemma ends_now s :
  ends (main_now recording) s (fun r s' => unchanged s s' /\
    match r with Exited _ => False | _ => True end).
Proof.
  unfold main_now. eapply ends_bind; [apply ends_keeping| | |].
  - intros t s1 [Hu _]. unfold ends, pworld, mlift.
    destruct s1 as [[w log] self]. by destruct (now t).
  - by intros e s1 [? [? ?]].
  - by intros e s1 [? [? ?]].
Qed.

(** The status of what the execution threw. *)
Definition failure_status (e : exn) : RpcStatus :=
  MkRpcStatus INTERNAL (L "execute() threw: " ++ what env e).

Lemma ends_run_command command digest s :
  ends (run_command recording command digest) s (fun r s' =>
    match r with
    | Returned (inr result) => log_of s' = log_of s ++ [Executed (Returned result)]
    | Returned (inl status) =>
        s' = s /\ status = signal_of s /\ status <> 0 \/
        status = EXIT_FAILURE /\ exists e,
          (path_of s' <> [] -> log_of s' = log_of s ++ [Executed (Raised e)]
                                ++ status_written (path_of s') (failure_status e))
    | Raised _ => False
    | Exited code => log_of s' = log_of s ++ [Executed (Exited code)]
    end).
Proof.
  apply ends_catch. eapply ends_bind.
  - instantiate (1 := fun r s' => s' = s /\ r = Returned (signal_of s)).
    by destruct s as [[w log] self].
  - intros signal s1 [-> [= ->]].
    destruct (Z.eqb_spec (signal_of s) 0) as [Hs|Hs]; cbn [negb]; [|by left].
    eapply ends_bind.
    + instantiate (1 := fun r s' => log_of s' = log_of s ++ [Executed r]).
      destruct s as [[w log] self]. unfold ends. cbn [recording virtual_execute].
      by destruct (virtual_execute env command digest (w, self)) as [[r [w' self']]|].
    + by intros result s1 Hl.
    + intros e s1 Hl. cbn [any_exception].
      eapply ends_bind; [apply ends_writeErrorStatusFile| |by intros ? ? [? _]|by intros ? ? [? _]].
      intros [] s2 [_ [Hp Hr]]. right. split; [done|]. exists e. rewrite Hp. intros Hne.
      rewrite app_assoc, <- Hl. by apply Hr.
    + by intros code s1 ?.
  - by intros e s1 [_ ?].
  - by intros code s1 [_ ?].
Qed.

(** The result that is written of one that the execution returned. *)
Definition with_times (started completed : Timestamp) (result : ActionResult) : ActionResult :=
  on_metadata (set_worker_start started) (on_metadata (set_worker_completed completed) result).

(** What has happened in a run that goes from [s] to [s'], where there is an output
    path.  It returns the signal that is pending and the result is written, of the
    execution that returned it; or EXIT_FAILURE and the status is written, of the
    execution that threw; or a signal that had come before the command, and nothing
    has happened. *)
Definition one_record (s : St) (r : ending Z) (s' : St) : Prop :=
  path_of s' <> [] -> exists events, log_of s' = log_of s ++ events /\
  match r with
  | Returned code =>
      (exists result started completed, code = signal_of s' /\
         events = Executed (Returned result) ::
                  written (path_of s') (WroteResult (with_times started completed result))) \/
      (exists e, code = EXIT_FAILURE /\
         events = Executed (Raised e) :: status_written (path_of s') (failure_status e)) \/
      (events = [] /\ code = signal_of s' /\ code <> 0)
  | Exited code =>
      (exists status, code = 1 /\ events = status_written (path_of s') status) \/
      (exists errno, code = 1 /\ events = [SigactionFailed errno]) \/
      (exists e, code = 1 /\ events = [ClientFailed e]) \/
      events = [Executed (Exited code)]
  | Raised e =>
      events = [] \/ events = [ClientFailed e] \/ exists result, events = [Executed (Returned result)]
  end.

(** A stage, and the rest of the work. *)
Lemma ends_stage {A} (m : PM St A) (k : A -> PM St Z) s0 s :
  unchanged s0 s -> ends m s (stage_end s) ->
  (forall a s', unchanged s0 s' -> ends (k a) s' (one_record s0)) ->
  ends (let^ a := m in k a) s (one_record s0).
Proof.
  intros [Hl Hp] Hm Hk. eapply ends_bind; [exact Hm| | |].
  - intros a s' [Hl' Hp']. apply Hk. split; congruence.
  - intros e s' [Hl'|Hl'] _; rewrite Hl' , Hl.
    + exists []. rewrite app_nil_r. split; [done|by left].
    + exists [ClientFailed e]. split; [done|]. right. by left.
  - intros code s' [-> [[status [Hp' Hr]]|[Hp' [[errno He]|[e He]]]]] Hne.
    + eexists. split; [rewrite Hr by congruence; by rewrite Hl|]. left. exists status.
      by rewrite Hp'.
    + eexists. split; [rewrite He; by rewrite Hl|]. right. left. by exists errno.
    + eexists. split; [rewrite He; by rewrite Hl|]. right. right. left. by exists e.
Qed.

Lemma ends_pset f s :
  (forall r, d_outputPath (f r) = d_outputPath r) ->
  ends (pset f : PM St unit) s (stage_end s).
Proof. intros Hf. destruct s as [[w log] self]. split; [done|apply Hf]. Qed.

Lemma ends_now_stage s : ends (main_now recording) s (stage_end s).
Proof.
  eapply ends_mono; [apply ends_now|]. intros [a|e|code] s' [Hu Hr]; [done| |done].
  left. by destruct Hu.
Qed.

(** The end of the work, with a result. *)
Lemma ends_result started result s0 s :
  log_of s = log_of s0 ++ [Executed (Returned result)] ->
  ends (let^ completed := main_now recording in
        let result :=
          on_metadata (set_worker_start started)
            (on_metadata (set_worker_completed completed) result) in
        let^ self := pself in
        let^ _ := if negb (bool_decide (d_outputPath self = []))
                  then writeActionResult recording result (d_outputPath self) else pret tt in
        pworld (query (main_getSignalStatus recording))) s (one_record s0).
Proof.
  intros Hl. eapply ends_bind; [apply ends_now| | |].
  - intros completed s1 [[Hl1 Hp1] _]. cbn beta zeta.
    eapply ends_bind; [apply ends_self| |by intros ? ? [_ ?]|by intros ? ? [_ ?]].
    intros self s2 [-> [= ->]].
    destruct (bool_decide (d_outputPath (snd s1) = [])) eqn:E; cbn [negb]; b2p.
    + apply ends_bind with (R := fun r s' => s' = s1 /\ r = Returned tt); [done| |by intros ? ? [_ ?]|by intros ? ? [_ ?]].
      intros [] s2 [-> _]. destruct s1 as [[w log] self]. intros Hne. by destruct Hne.
    + eapply ends_bind.
      * apply ends_catch. eapply ends_mono; [apply ends_write; apply result_works|].
        intros r s2 (-> & Hl2 & Hp2).
        instantiate (1 := fun r s' => r = Returned tt /\ path_of s' = path_of s1 /\
          log_of s' = log_of s1 ++ written (path_of s1) (WroteResult (with_times started completed result))).
        by split.
      * intros [] s2 (_ & Hp2 & Hl2). destruct s2 as [[w log] self]. intros _.
        eexists. split; [rewrite Hl2, Hl1, Hl, <- app_assoc; reflexivity|]. left.
        exists result, started, completed. by rewrite Hp2.
      * by intros e s2 [? _].
      * by intros e s2 [? _].
  - intros e s1 [[Hl1 _] _] _. eexists. split; [by rewrite Hl1, Hl|]. right. right. by exists result.
  - by intros code s1 [_ ?].
Qed.

End records.

(** ** --verbose *)

Section verbose.
Context {W : Type} (env : MainEnv W) `{DigestFunction}.

(** Neither flag of glog that [setLogLevel] looks at is set. *)
Definition quiet (self : Runner) : Prop :=
  FLAGS_logtostderr (glog_flags (logger self)) = false /\
  FLAGS_alsologtostderr (glog_flags (logger self)) = false.

Lemma quiet_setLogLevel level self : quiet self ->
  setLogLevel level (logger self) = (Ok tt, logger self).
Proof. intros [H1 H2]. unfold setLogLevel, mbind_M, lg_get. by rewrite H1, H2. Qed.

Lemma set_logger_same self : set_logger (logger self) self = self.
Proof. by destruct self. Qed.

(** Arguments do not touch the flags. *)
Definition keeps_quiet {A} (m : PM (W * Runner) A) : Prop :=
  forall w self r w' self', quiet self -> m (w, self) = Some (r, (w', self')) -> quiet self'.

Lemma quiet_ret {A} (a : A) : keeps_quiet (pret a).
Proof. intros w self r w' self' Hq [= <- <- <-]. done. Qed.
Lemma quiet_exit {A} code : keeps_quiet (pexit (A := A) code).
Proof. intros w self r w' self' Hq [= <- <- <-]. done. Qed.
Lemma quiet_bind {A B} (m : PM (W * Runner) A) (k : A -> PM (W * Runner) B) :
  keeps_quiet m -> (forall a, keeps_quiet (k a)) -> keeps_quiet (let^ a := m in k a).
Proof.
  intros Hm Hk w self r w' self' Hq E. unfold pbind in E.
  destruct (m (w, self)) as [[[a|e|code] [w1 s1]]|] eqn:E1; [| | |done].
  - eapply Hk; [|exact E]. by eapply Hm.
  - injection E as <- <- <-. by eapply Hm.
  - injection E as <- <- <-. by eapply Hm.
Qed.
Lemma quiet_set f : (forall self, logger (f self) = logger self) -> keeps_quiet (pset f).
Proof. intros Hf w self r w' self' Hq [= <- <- <-]. unfold quiet. by rewrite Hf. Qed.
Lemma quiet_world {A} (m : M W A) : keeps_quiet (pworld m).
Proof.
  intros w self r w' self' Hq E. unfold pworld in E. by destruct (m w) as [[] ?]; injection E as <- <- <-.
Qed.
Lemma quiet_directory directory : keeps_quiet (plog (setOutputDirectory directory)).
Proof.
  intros w self r w' self' Hq E. unfold plog, setOutputDirectory, mbind_M, lg_get in E.
  by destruct (d_glogInitialized (logger self)); injection E as <- <- <-.
Qed.
Lemma quiet_level level : keeps_quiet (plog (setLogLevel level)).
Proof.
  intros w self r w' self' Hq E. unfold plog in E. rewrite quiet_setLogLevel in E by done.
  injection E as <- <- <-. by rewrite set_logger_same.
Qed.
Lemma quiet_do f : keeps_quiet (pdo f).
Proof. intros w self r w' self' Hq [= <- <- <-]. done. Qed.
Lemma quiet_print fd text : keeps_quiet (pprint env fd text).
Proof. intros w self r w' self' Hq [= <- <- <-]. done. Qed.
Lemma quiet_self {A} (k : Runner -> PM (W * Runner) A) :
  (forall self, keeps_quiet (k self)) -> keeps_quiet (let^ self := pself in k self).
Proof. intros Hk w self r w' self' Hq E. exact (Hk self w self r w' self' Hq E). Qed.

#[local] Hint Resolve quiet_ret quiet_exit quiet_world quiet_directory quiet_level quiet_do quiet_print : core.

Ltac keep_quiet :=
  repeat match goal with
  | |- keeps_quiet (pbind pself _) => apply quiet_self; intros ?
  | |- keeps_quiet (pbind _ _) => apply quiet_bind; [|intros ?]
  | |- keeps_quiet (pset _) => apply quiet_set; by intros []
  | |- keeps_quiet (if ?b then _ else _) => destruct b
  | |- keeps_quiet (match ?x with _ => _ end) => destruct x
  | |- keeps_quiet _ => solve [auto]
  end.

Lemma parse_assignment_quiet arg key value : keeps_quiet (parse_assignment env arg key value).
Proof. unfold parse_assignment. keep_quiet. Qed.

Lemma parse_flag_quiet arg name : keeps_quiet (parse_flag env arg name).
Proof. unfold parse_flag, print_usage. keep_quiet. Qed.

#[local] Hint Resolve parse_assignment_quiet parse_flag_quiet : core.

Lemma parse_argument_quiet arg : keeps_quiet (parse_argument env arg).
Proof.
  unfold parse_argument. keep_quiet.
Qed.

(** The subclass does not handle --verbose itself. *)
Hypothesis Hspecial : forall w, virtual_parseArg env (L "--verbose") w = (false, w).

Lemma parse_verbose w self : quiet self ->
  parse_argument env (L "--verbose") (w, self) = Some (Returned true, (w, self)).
Proof.
  intros Hq. unfold parse_argument, pbind, pworld, call, pself. rewrite Hspecial.
  transitivity ((let^ _ := plog (setLogLevel DEBUG) in pret true : PM (W * Runner) bool) (w, self));
    [reflexivity|].
  unfold pbind, plog. rewrite quiet_setLogLevel by done. by rewrite set_logger_same.
Qed.

Lemma parseArguments_verbose args1 args2 w self : quiet self ->
  parseArguments env (args1 ++ L "--verbose" :: args2) (w, self)
  = parseArguments env (args1 ++ args2) (w, self).
Proof.
  revert w self. induction args1 as [|arg args1 IH]; intros w self Hq.
  - cbn [app parseArguments]. unfold pbind at 1. by rewrite parse_verbose.
  - cbn [app parseArguments]. unfold pbind.
    destruct (parse_argument env arg (w, self)) as [[[[]|e|code] [w1 s1]]|] eqn:E; try done.
    apply IH. by eapply parse_argument_quiet.
Qed.

(** Wherever it stands, --verbose has no effect: the logger looks at its level only when
    a flag of glog says that logs go to the standard error, which is so after
    [initialize] and not before; and [main] then sets the level of --log-level. *)
Theorem verbose_has_no_effect (name : str) (args1 args2 : list str) (w : W) (self : Runner)
    (Hq : quiet self) :
  main env name (args1 ++ L "--verbose" :: args2) (w, self) = main env name (args1 ++ args2) (w, self).
Proof. unfold main, pbind at 1. by rewrite parseArguments_verbose. Qed.

(** With --log-directory, --log-level has no effect either: the level is set after
    [initialize] turned the flags off. *)
Theorem level_ignored_with_directory (name directory : str) (level : LogLevel) (l l' : Logger)
    (Hd : d_logOutputDirectory l = Some directory) (Hi : initialize (Some name) l = (Ok tt, l')) :
  setLogLevel level l' = (Ok tt, l').
Proof.
  assert (FLAGS_logtostderr (glog_flags l') = false /\ FLAGS_alsologtostderr (glog_flags l') = false)
    as [H1 H2].
  { destruct name as [|c name]; [done|]. unfold initialize, mbind_M, lg_get in Hi.
    destruct l as [dir [] flags calls]; [done|]. cbn in Hd. subst dir. by injection Hi as <-. }
  unfold setLogLevel, mbind_M, lg_get. by rewrite H1, H2.
Qed.
End verbose.

(** A runner that executes nothing, without files. *)
Definition toy_main : MainEnv unit :=
  MkMainEnv unit (fun _ w => (false, w)) id id (fun _ _ => praise LogicError)
    (fun _ _ w => w) (fun _ _ => inl ENOENT) (MkProtoCalls (fun _ _ _ w => (inr 3, w)) (fun _ w => (None, w)))
    (fun _ w => (Some (MkAction empty_digest empty_digest []), w))
    (fun _ _ w => (true, w)) (fun _ _ w => (true, w)) action_fields (fun _ w => (None, w))
    (fun _ => mret tt) (fun _ => mret (MkCommand [L "cc"] [] [] [] [] []))
    (fun _ => 0) (fun w => (inr (1000, 5), w)) (fun _ => L "what").

#[global] Instance toy_files : FilesWork toy_main.
Proof. split; [by intros; eexists _, _|done|done]. Defined.

Lemma verbose_has_no_effect_witness :
  main toy_main (L "run") [L "--remote=unix:cas"; L "--verbose"] (tt, Runner_new) (H := toy_digests)
  = main toy_main (L "run") [L "--remote=unix:cas"] (tt, Runner_new) (H := toy_digests).
Proof.
  apply (verbose_has_no_effect toy_main (H := toy_digests) ltac:(reflexivity) (L "run")
           [L "--remote=unix:cas"] [] tt Runner_new).
  by split.
Defined.

Lemma level_ignored_with_directory_witness :
  exists l, initialize (Some (L "run")) (MkLogger (Some (L "/logs")) false glog_defaults []) = (Ok tt, l) /\
    setLogLevel TRACE l = (Ok tt, l).
Proof.
  eexists. split; [reflexivity|].
  exact (level_ignored_with_directory (L "run") (L "/logs") TRACE
           (MkLogger (Some (L "/logs")) false glog_defaults []) _ eq_refl eq_refl).
Defined.

Definition toy_state : (unit * list event) * Runner :=
  ((tt, []), set_outputPath (L "result") Runner_new).


(** The subclass throws: EXIT_FAILURE, and its status is written. *)
Example failed_execution_is_recorded :
  option_map (fun '(r, s) => (r, log_of s)) (main_work (recording toy_main) (H := toy_digests) toy_state)
  = Some (Returned 1, [Executed (Raised LogicError); Opened (L "result.error-status");
     WroteStatus (MkRpcStatus INTERNAL (L "execute() threw: what"))]).
Proof. vm_compute. reflexivity. Qed.
