(* ===== verification/Metrics.v ===== *)
(** * Metrics: values, timers and collectors

    The library buildboxcommonmetrics: the values of metrics
    ([countingmetricvalue], [gaugemetricvalue], [durationmetricvalue],
    [totaldurationmetricvalue], [distributionmetricvalue]), the objects that
    measure them, and [metriccollector.h] with the factory that holds one
    collector per type of value.  A member function of a collector holds its mutex
    throughout, so that calls of several threads happen in some order.

    [None] is a signed overflow, which is undefined. *)

From S2P Require Import Prelude StdMap Arrays Grpc Undefined Merge Cstring.
Open Scope Z_scope.

(** ** Integers *)

Definition INT64_MIN : Z := - 2 ^ 63.
Definition INT64_MAX : Z := 2 ^ 63 - 1.

Definition in_int64 (n : Z) : bool := (INT64_MIN <=? n) && (n <=? INT64_MAX).

(** [a + b] of two [int64_t]. *)
Definition i64_add (a b : Z) : option Z := if in_int64 (a + b) then Some (a + b) else None.

(** [std::abs]. *)
Definition i64_abs (a : Z) : option Z := if in_int64 (Z.abs a) then Some (Z.abs a) else None.

(** [duration_cast] to a unit that is [ratio] times longer. *)
Definition duration_cast (ratio n : Z) : Z := Z.quot n ratio.

(** ** [CountingMetricValue] *)

Record CountingMetricValue := MkCountingMetricValue { cmv_value : Z }.

#[global] Instance CountingMetricValue_eq_dec : EqDecision CountingMetricValue.
Proof. solve_decision. Defined.

Definition cmv_setValue (value : Z) (self : CountingMetricValue) : CountingMetricValue :=
  MkCountingMetricValue value.

Definition cmv_toStatsD (myName : str) (self : CountingMetricValue) : str :=
  myName ++ L ":" ++ to_string (cmv_value self) ++ L "|c".

(** Both [operator+=], and both [operator+], which also change the left operand. *)
Definition cmv_add_count (self : CountingMetricValue) (value : Z) : option CountingMetricValue :=
  MkCountingMetricValue <$> i64_add (cmv_value self) value.

Definition cmv_add (self other : CountingMetricValue) : option CountingMetricValue :=
  cmv_add_count self (cmv_value other).

Definition cmv_increment (self : CountingMetricValue) : option CountingMetricValue :=
  cmv_add_count self 1.

Definition cmv_eqb (self other : CountingMetricValue) : bool :=
  cmv_value self =? cmv_value other.

(** ** [GaugeMetricValue] *)

Record GaugeMetricValue := MkGaugeMetricValue { gmv_value : Z; gmv_is_delta : bool }.

#[global] Instance GaugeMetricValue_eq_dec : EqDecision GaugeMetricValue.
Proof. solve_decision. Defined.

Definition gmv_toStatsD (name : str) (self : GaugeMetricValue) : option str :=
  if gmv_is_delta self then
    magnitude ← i64_abs (gmv_value self);
    Some (name ++ L ":" ++ (if 0 <=? gmv_value self then L "+" else L "-")
            ++ to_string magnitude ++ L "|g")
  else
    Some (name ++ L ":"
            ++ (if gmv_value self <? 0 then L "0|g" ++ [newline] ++ name ++ L ":" else [])
            ++ to_string (gmv_value self) ++ L "|g").

Definition gmv_add (self other : GaugeMetricValue) : option GaugeMetricValue :=
  if gmv_is_delta other then
    value ← i64_add (gmv_value self) (gmv_value other);
    Some (MkGaugeMetricValue value (gmv_is_delta self))
  else Some (MkGaugeMetricValue (gmv_value other) false).

Definition gmv_eqb (self other : GaugeMetricValue) : bool :=
  (gmv_value self =? gmv_value other) && Bool.eqb (gmv_is_delta self) (gmv_is_delta other).

(** ** [DurationMetricValue], [TotalDurationMetricValue], in microseconds *)

Record DurationMetricValue := MkDurationMetricValue { dmv_value : Z }.
Record TotalDurationMetricValue := MkTotalDurationMetricValue { tmv_value : Z }.

Definition dmv_setValue (value : Z) (self : DurationMetricValue) : DurationMetricValue :=
  MkDurationMetricValue value.

Definition dmv_toStatsD (myName : str) (self : DurationMetricValue) : str :=
  myName ++ L ":" ++ to_string (duration_cast 1000 (dmv_value self)) ++ L "|ms".

Definition dmv_eqb (self other : DurationMetricValue) : bool := dmv_value self =? dmv_value other.

Definition tmv_setValue (value : Z) (self : TotalDurationMetricValue) : TotalDurationMetricValue :=
  MkTotalDurationMetricValue value.

Definition tmv_toStatsD (myName : str) (self : TotalDurationMetricValue) : str :=
  myName ++ L ":" ++ to_string (duration_cast 1000 (tmv_value self)) ++ L "|ms".

Definition tmv_add (self other : TotalDurationMetricValue) : option TotalDurationMetricValue :=
  MkTotalDurationMetricValue <$> i64_add (tmv_value self) (tmv_value other).

Definition tmv_eqb (self other : TotalDurationMetricValue) : bool :=
  tmv_value self =? tmv_value other.

(** ** [DistributionMetricValue] *)

Record DistributionMetricValue := MkDistributionMetricValue { xmv_value : Z }.

Definition xmv_toStatsD (name : str) (self : DistributionMetricValue) : str :=
  name ++ L ":" ++ to_string (xmv_value self) ++ L "|d".

Definition xmv_eqb (self other : DistributionMetricValue) : bool :=
  xmv_value self =? xmv_value other.

(** ** Metrics: a name and a value *)

Record CountingMetric := MkCountingMetric { cm_name : str; cm_value : CountingMetricValue }.

Definition CountingMetric_new (name : str) : CountingMetric :=
  MkCountingMetric name (MkCountingMetricValue 0).

Definition cm_setValue (value : CountingMetricValue) (self : CountingMetric) : CountingMetric :=
  MkCountingMetric (cm_name self) value.

(** [operator+=] and [add]; [operator+] changes the metric as well. *)
Definition cm_add (self : CountingMetric) (value : Z) : option CountingMetric :=
  n ← i64_add (cmv_value (cm_value self)) value;
  Some (cm_setValue (MkCountingMetricValue n) self).

(** [operator++] and [start]; [stop] does nothing. *)
Definition cm_increment (self : CountingMetric) : option CountingMetric :=
  v ← cmv_increment (cm_value self); Some (cm_setValue v self).

Record GaugeMetric := MkGaugeMetric { gm_name : str; gm_value : GaugeMetricValue }.

Record DistributionMetric :=
  MkDistributionMetric { xm_name : str; xm_value : DistributionMetricValue }.

(** ** Timers

    Times of the steady clock and [d_start] are in nanoseconds; the default time
    point is 0. *)

Record DurationMetricTimer := MkDurationMetricTimer {
  dt_done : bool;
  dt_start : Z;
  dt_value : DurationMetricValue;
  dt_name : str;
}.

Definition DurationMetricTimer_new (name : str) : DurationMetricTimer :=
  MkDurationMetricTimer false 0 (MkDurationMetricValue 0) name.

Definition dt_start_at (now : Z) (self : DurationMetricTimer) : res DurationMetricTimer :=
  if dt_done self then Throw LogicError
  else Ok (MkDurationMetricTimer (dt_done self) now (dt_value self) (dt_name self)).

Definition dt_stop_at (now : Z) (self : DurationMetricTimer) : res DurationMetricTimer :=
  if dt_done self then Throw LogicError
  else
    Ok (MkDurationMetricTimer true (dt_start self)
          (dmv_setValue (duration_cast 1000 (now - dt_start self)) (dt_value self))
          (dt_name self)).

Record TotalDurationMetricTimer := MkTotalDurationMetricTimer {
  tt_done : bool;
  tt_start : Z;
  tt_value : TotalDurationMetricValue;
  tt_name : str;
}.

Definition TotalDurationMetricTimer_new (name : str) : TotalDurationMetricTimer :=
  MkTotalDurationMetricTimer false 0 (MkTotalDurationMetricValue 0) name.

Definition tt_start_at (now : Z) (self : TotalDurationMetricTimer)
  : res TotalDurationMetricTimer :=
  if tt_done self then Throw LogicError
  else Ok (MkTotalDurationMetricTimer (tt_done self) now (tt_value self) (tt_name self)).

Definition tt_stop_at (now : Z) (self : TotalDurationMetricTimer)
  : res TotalDurationMetricTimer :=
  if tt_done self then Throw LogicError
  else
    Ok (MkTotalDurationMetricTimer true (tt_start self)
          (tmv_setValue (duration_cast 1000 (now - tt_start self)) (tt_value self))
          (tt_name self)).

(** ** [MetricCollector]

    The specialization for values that can be aggregated keeps one entry per name,
    the other one every value in the order of the calls. *)

Section aggregating.
Context {V : Type} (plus_assign : V -> V -> option V).

Definition aggregating_store (name : str) (value : V) (d_metrics : gmap str V)
  : option (gmap str V) :=
  match d_metrics !! name with
  | Some entry => v ← plus_assign entry value; Some (<[name := v]> d_metrics)
  | None => Some (<[name := value]> d_metrics)
  end.

(** The snapshot, and what the collector holds afterwards. *)
Definition aggregating_getSnapshot (d_metrics : gmap str V) : gmap str V * gmap str V :=
  (d_metrics, ∅).
End aggregating.

Definition listing_store {V} (name : str) (value : V) (d_metrics : list (str * V))
  : list (str * V) := d_metrics ++ [(name, value)].

Definition listing_getSnapshot {V} (d_metrics : list (str * V))
  : list (str * V) * list (str * V) := (d_metrics, []).

(** ** [MetricCollectorFactory]

    The singleton with the static collector of every type of value. *)

Record MetricCollectorFactory := MkFactory {
  d_metricsEnabled : bool;
  counting_collector : gmap str CountingMetricValue;
  duration_collector : list (str * DurationMetricValue);
  total_collector : gmap str TotalDurationMetricValue;
  gauge_collector : gmap str GaugeMetricValue;
  distribution_collector : list (str * DistributionMetricValue);
}.

Definition MetricCollectorFactory_init : MetricCollectorFactory := MkFactory true ∅ [] ∅ ∅ [].

Definition setMetricsEnabled (enabled : bool) (f : MetricCollectorFactory)
  : MetricCollectorFactory :=
  MkFactory enabled (counting_collector f) (duration_collector f) (total_collector f)
    (gauge_collector f) (distribution_collector f).

Definition enableMetrics : MetricCollectorFactory -> MetricCollectorFactory :=
  setMetricsEnabled true.
Definition disableMetrics : MetricCollectorFactory -> MetricCollectorFactory :=
  setMetricsEnabled false.

(** What the templates ask of a type of value. *)
Class ValueType (V : Type) := {
  Collector : Type;
  collector_store : str -> V -> Collector -> option Collector;
  getSnapshot : Collector -> Collector * Collector;
  (** The entries of a snapshot in the order of a loop over it. *)
  snapshot_entries : MapIteration -> Collector -> list (str * V);
  toStatsD : str -> V -> option str;
  getCollector : MetricCollectorFactory -> Collector;
  setCollector : Collector -> MetricCollectorFactory -> MetricCollectorFactory;
}.

#[export] Instance Counting : ValueType CountingMetricValue := {|
  collector_store := aggregating_store cmv_add;
  getSnapshot := aggregating_getSnapshot;
  snapshot_entries _ m := um_iter m;
  toStatsD name v := Some (cmv_toStatsD name v);
  getCollector := counting_collector;
  setCollector c f := MkFactory (d_metricsEnabled f) c (duration_collector f)
    (total_collector f) (gauge_collector f) (distribution_collector f) |}.

#[export] Instance Duration : ValueType DurationMetricValue := {|
  collector_store name v c := Some (listing_store name v c);
  getSnapshot := listing_getSnapshot;
  snapshot_entries _ l := l;
  toStatsD name v := Some (dmv_toStatsD name v);
  getCollector := duration_collector;
  setCollector c f := MkFactory (d_metricsEnabled f) (counting_collector f) c
    (total_collector f) (gauge_collector f) (distribution_collector f) |}.

#[export] Instance TotalDuration : ValueType TotalDurationMetricValue := {|
  collector_store := aggregating_store tmv_add;
  getSnapshot := aggregating_getSnapshot;
  snapshot_entries _ m := um_iter m;
  toStatsD name v := Some (tmv_toStatsD name v);
  getCollector := total_collector;
  setCollector c f := MkFactory (d_metricsEnabled f) (counting_collector f)
    (duration_collector f) c (gauge_collector f) (distribution_collector f) |}.

#[export] Instance Gauge : ValueType GaugeMetricValue := {|
  collector_store := aggregating_store gmv_add;
  getSnapshot := aggregating_getSnapshot;
  snapshot_entries _ m := um_iter m;
  toStatsD := gmv_toStatsD;
  getCollector := gauge_collector;
  setCollector c f := MkFactory (d_metricsEnabled f) (counting_collector f)
    (duration_collector f) (total_collector f) c (distribution_collector f) |}.

#[export] Instance Distribution : ValueType DistributionMetricValue := {|
  collector_store name v c := Some (listing_store name v c);
  getSnapshot := listing_getSnapshot;
  snapshot_entries _ l := l;
  toStatsD name v := Some (xmv_toStatsD name v);
  getCollector := distribution_collector;
  setCollector c f := MkFactory (d_metricsEnabled f) (counting_collector f)
    (duration_collector f) (total_collector f) (gauge_collector f) c |}.

(** ** Recording

    The state is the factory and the rest of the world; [overrideCollector] is a
    pointer to a collector in that rest. *)

Section recording.
Context {W : Type}.

Definition collector_pointer (V : Type) `{ValueType V} : Type :=
  option ((W -> Collector) * (Collector -> W -> W)).

(** [MetricCollectorFactoryUtil::store]. *)
Definition factory_store `{ValueType V} (metric : str) (value : V)
    (overrideCollector : collector_pointer V) : UM (MetricCollectorFactory * W) unit :=
  fun '(f, w) =>
    if d_metricsEnabled f then
      match overrideCollector with
      | Some (get, set) =>
          c ← collector_store metric value (get w);
          Some (Ok tt, (f, set c w))
      | None =>
          c ← collector_store metric value (getCollector f);
          Some (Ok tt, (setCollector c f, w))
      end
    else Some (Ok tt, (f, w)).

(** [CountingMetricUtil]. *)
Definition recordCounterMetric (metric : CountingMetric) : UM (MetricCollectorFactory * W) unit :=
  factory_store (cm_name metric) (cm_value metric) None.

Definition recordCounterMetric_count (name : str) (value : Z)
  : UM (MetricCollectorFactory * W) unit :=
  recordCounterMetric (MkCountingMetric name (MkCountingMetricValue value)).

(** [GaugeMetricUtil]. *)
Definition recordGauge (metric : GaugeMetric) : UM (MetricCollectorFactory * W) unit :=
  factory_store (gm_name metric) (gm_value metric) None.

Definition setGauge (name : str) (value : Z) : UM (MetricCollectorFactory * W) unit :=
  recordGauge (MkGaugeMetric name (MkGaugeMetricValue value false)).

Definition adjustGauge (name : str) (delta : Z) : UM (MetricCollectorFactory * W) unit :=
  recordGauge (MkGaugeMetric name (MkGaugeMetricValue delta true)).

(** [DistributionMetricUtil]. *)
Definition recordDistributionMetric (metric : DistributionMetric)
  : UM (MetricCollectorFactory * W) unit :=
  factory_store (xm_name metric) (xm_value metric) None.

Definition recordDistributionMetric_value (name : str) (value : Z)
  : UM (MetricCollectorFactory * W) unit :=
  recordDistributionMetric (MkDistributionMetric name (MkDistributionMetricValue value)).

(** ** [ScopedMetric] and [MetricGuard] *)

(** What [ScopedMetric] asks of the type of a metric; [SteadyClock::now()] is an
    argument. *)
Class MetricType (T : Type) := {
  MetricValue : Type;
  #[global] MetricValueType :: ValueType MetricValue;
  metric_new : str -> T;
  metric_name : T -> str;
  metric_value : T -> MetricValue;
  metric_start : (W -> Z * W) -> T -> UM W T;
  metric_stop : (W -> Z * W) -> T -> UM W T;
}.

Definition at_now {T} (f : Z -> T -> res T) (steady_now : W -> Z * W) (metric : T) : UM W T :=
  fun w => let '(now, w) := steady_now w in Some (f now metric, w).

#[export] Instance CountingMetric_type : MetricType CountingMetric := {|
  metric_new := CountingMetric_new;
  metric_name := cm_name;
  metric_value := cm_value;
  metric_start _ metric := uvalue (cm_increment metric);
  metric_stop _ metric := uret metric |}.

#[export] Instance DurationMetricTimer_type : MetricType DurationMetricTimer := {|
  metric_new := DurationMetricTimer_new;
  metric_name := dt_name;
  metric_value := dt_value;
  metric_start := at_now dt_start_at;
  metric_stop := at_now dt_stop_at |}.

#[export] Instance TotalDurationMetricTimer_type : MetricType TotalDurationMetricTimer := {|
  metric_new := TotalDurationMetricTimer_new;
  metric_name := tt_name;
  metric_value := tt_value;
  metric_start := at_now tt_start_at;
  metric_stop := at_now tt_stop_at |}.

Context (steady_now : W -> Z * W).

(** A computation on the rest of the world. *)
Definition beside_factory {A} (m : UM W A) : UM (MetricCollectorFactory * W) A :=
  fun '(f, w) => match m w with
                 | Some (r, w) => Some (r, (f, w))
                 | None => None
                 end.

(** The constructor and the destructor of a [ScopedMetric] on [metric]. *)
Definition ScopedMetric_new `{MetricType T} (metric : T) : UM (MetricCollectorFactory * W) T :=
  let+ enabled := ufield (fun s => d_metricsEnabled s.1) in
  if enabled then beside_factory (metric_start steady_now metric) else uret metric.

Definition ScopedMetric_delete `{MetricType T} (metric : T)
    (collector : collector_pointer MetricValue) : UM (MetricCollectorFactory * W) T :=
  let+ enabled := ufield (fun s => d_metricsEnabled s.1) in
  if enabled then
    let+ metric := beside_factory (metric_stop steady_now metric) in
    let+ _ := factory_store (metric_name metric) (metric_value metric) collector in
    uret metric
  else uret metric.

(** A scope with a [MetricGuard]; what leaves the scope does so after the guard is
    destroyed. *)
Definition with_MetricGuard (T : Type) `{MetricType T} {A} (name : str)
    (collector : collector_pointer MetricValue) (body : UM (MetricCollectorFactory * W) A)
  : UM (MetricCollectorFactory * W) A :=
  let+ metric := ScopedMetric_new (metric_new name : T) in
  fun s =>
    match body s with
    | None => None
    | Some (r, s) =>
        match ScopedMetric_delete metric collector s with
        | Some (Ok _, s) => Some (r, s)
        | Some (Throw e, s) => Some (Throw e, s)
        | None => None
        end
    end.
End recording.
