(* ===== verification/MetricsSpec.v ===== *)
(** * Properties of metric values and collectors

    Aggregation loses nothing: what a server holds after it received every
    snapshot is what it would hold had each value been sent on its own.  A
    reference server that reads the text of gauges is defined here. *)

From S2P Require Import Prelude StdMap Arrays Grpc Undefined Merge Paths StringUtils PathsSpec Cstring Metrics.
Open Scope Z_scope.

(** ** Histories of a collector

    Each call holds the mutex of the collector throughout: whatever the threads
    do, the calls happen one after the other. *)

Inductive call (V : Type) := Store (name : str) (value : V) | Snapshot.
Arguments Store {V}. Arguments Snapshot {V}.

Section history.
Context {V : Type} (plus_assign : V -> V -> option V).

(** The snapshots taken and what the collector holds in the end. *)
Fixpoint history (calls : list (call V)) (d_metrics : gmap str V)
  : option (list (gmap str V) * gmap str V) :=
  match calls with
  | [] => Some ([], d_metrics)
  | Store name value :: calls =>
      d_metrics ← aggregating_store plus_assign name value d_metrics;
      history calls d_metrics
  | Snapshot :: calls =>
      let '(snapshot, d_metrics) := aggregating_getSnapshot d_metrics in
      '(snapshots, d_metrics) ← history calls d_metrics;
      Some (snapshot :: snapshots, d_metrics)
  end.

Definition stored (name : str) (calls : list (call V)) : list V :=
  calls ≫= fun c =>
    match c with
    | Store n v => if decide (n = name) then [v] else []
    | Snapshot => []
    end.

Definition entries_of (name : str) (snapshots : list (gmap str V)) : list V :=
  snapshots ≫= fun m => match m !! name with Some v => [v] | None => [] end.

(** What a value does to the state that a server keeps under its name. *)
Context {S : Type} (act : V -> S -> S).
Context (Hact : forall a b c, plus_assign a b = Some c -> forall s, act c s = act b (act a s)).

Definition acts (s : S) (values : list V) : S := foldl (fun s v => act v s) s values.

Lemma acts_app s k l : acts s (k ++ l) = acts (acts s k) l.
Proof. unfold acts. by rewrite foldl_app. Qed.

Lemma history_acts calls d_metrics snapshots rest :
  history calls d_metrics = Some (snapshots, rest) ->
  forall name s,
  acts s (entries_of name (snapshots ++ [rest])) =
  acts s (entries_of name [d_metrics] ++ stored name calls).
Proof.
  revert d_metrics snapshots. induction calls as [|[n v|] calls IH]; intros m snapshots E name s.
  - injection E as <- <-. by rewrite app_nil_r.
  - cbn [history] in E. destruct (aggregating_store plus_assign n v m) as [m'|] eqn:Em; [|done].
    rewrite (IH m' snapshots E). unfold stored. cbn [mbind list_bind]. fold (stored name calls).
    rewrite app_assoc, !acts_app. f_equal. unfold entries_of, aggregating_store in *. cbn [mbind list_bind].
    rewrite !app_nil_r. destruct (decide (n = name)) as [->|Hn].
    + destruct (m !! name) as [e|].
      * destruct (plus_assign e v) as [c|] eqn:Ec; [|done]. injection Em as <-.
        rewrite lookup_insert_eq. cbn. by apply Hact.
      * injection Em as <-. by rewrite lookup_insert_eq.
    + assert (m' !! name = m !! name) as ->.
      { destruct (m !! n) as [e|].
        - destruct (plus_assign e v); [|done]. injection Em as <-. by rewrite lookup_insert_ne.
        - injection Em as <-. by rewrite lookup_insert_ne. }
      done.
  - cbn [history aggregating_getSnapshot] in E. destruct (history calls ∅) as [[sn r]|] eqn:Eh; [|done].
    injection E as <- <-. pose proof (IH ∅ sn Eh name) as H.
    unfold entries_of in *. cbn [app mbind list_bind] in *. rewrite lookup_empty in H. cbn [app] in H.
    by rewrite !acts_app, H.
Qed.
End history.

(** ** What the values do to a server *)

Definition counting_act (v : CountingMetricValue) (n : Z) : Z := n + cmv_value v.
Definition gauge_act (v : GaugeMetricValue) (n : Z) : Z :=
  if gmv_is_delta v then n + gmv_value v else gmv_value v.
Definition total_act (v : TotalDurationMetricValue) (n : Z) : Z := n + tmv_value v.

Lemma i64_add_Some a b c : i64_add a b = Some c -> c = a + b.
Proof. unfold i64_add. destruct (in_int64 _); [|done]. by intros [= <-]. Qed.

Lemma counting_act_add a b c :
  cmv_add a b = Some c -> forall n, counting_act c n = counting_act b (counting_act a n).
Proof.
  unfold cmv_add, cmv_add_count, counting_act. destruct (i64_add _ _) as [n|] eqn:E; [|done].
  apply i64_add_Some in E as ->. intros [= <-] n. cbn. lia.
Qed.

Lemma total_act_add a b c :
  tmv_add a b = Some c -> forall n, total_act c n = total_act b (total_act a n).
Proof.
  unfold tmv_add, total_act. destruct (i64_add _ _) as [n|] eqn:E; [|done].
  apply i64_add_Some in E as ->. intros [= <-] n. cbn. lia.
Qed.

Lemma gauge_act_add a b c :
  gmv_add a b = Some c -> forall n, gauge_act c n = gauge_act b (gauge_act a n).
Proof.
  unfold gmv_add, gauge_act. destruct (gmv_is_delta b).
  - destruct (i64_add _ _) as [n|] eqn:E; [|done]. apply i64_add_Some in E as ->.
    intros [= <-] n. cbn. destruct (gmv_is_delta a); lia.
  - by intros [= <-] n.
Qed.

(** Whatever the order in which threads store values and snapshots are
    taken, nothing is lost and nothing counted twice: as long as no sum
    overflows, applying, in order, what the snapshots and then the collector
    hold under a name has the effect of applying every value stored under it.
    For counters and total durations the effect is the sum; for gauges it is
    the value that the last absolute entry and the deltas after it leave. *)
Theorem snapshots_lose_nothing (name : str) (n : Z) :
  (forall calls snapshots rest,
     history cmv_add calls ∅ = Some (snapshots, rest) ->
     acts counting_act n (entries_of name (snapshots ++ [rest])) =
     acts counting_act n (stored name calls)) /\
  (forall calls snapshots rest,
     history tmv_add calls ∅ = Some (snapshots, rest) ->
     acts total_act n (entries_of name (snapshots ++ [rest])) =
     acts total_act n (stored name calls)) /\
  (forall calls snapshots rest,
     history gmv_add calls ∅ = Some (snapshots, rest) ->
     acts gauge_act n (entries_of name (snapshots ++ [rest])) =
     acts gauge_act n (stored name calls)).
Proof.
  split; [|split]; intros calls snapshots rest E.
  - rewrite (history_acts _ _ counting_act_add _ _ _ _ E).
    unfold entries_of. cbn [mbind list_bind]. by rewrite lookup_empty.
  - rewrite (history_acts _ _ total_act_add _ _ _ _ E).
    unfold entries_of. cbn [mbind list_bind]. by rewrite lookup_empty.
  - rewrite (history_acts _ _ gauge_act_add _ _ _ _ E).
    unfold entries_of. cbn [mbind list_bind]. by rewrite lookup_empty.
Qed.

(** ** A reference server for the text of gauges

    A line is a name, a colon, a signed or an unsigned number and [|g]; a sign
    makes it a change of the gauge. *)

Definition colon : ascii := ":"%char.

Fixpoint lines (s : str) : list str :=
  match s with
  | [] => [[]]
  | c :: s =>
      if ascii_dec c newline then [] :: lines s
      else match lines s with l :: ls => (c :: l) :: ls | [] => [[c]] end
  end.

Definition read_number (s : str) : option Z :=
  match read_digits 0 s with
  | (_, O) => None
  | (n, k) => if decide (drop k s = L "|g") then Some n else None
  end.

Definition server_line (gauges : gmap str Z) (line : str) : option (gmap str Z) :=
  '(name, payload) ← split_at colon line;
  let old := default 0 (gauges !! name) in
  match payload with
  | [] => None
  | c :: digits =>
      if ascii_dec c plus then n ← read_number digits; Some (<[name := old + n]> gauges)
      else if ascii_dec c minus then n ← read_number digits; Some (<[name := old - n]> gauges)
      else n ← read_number payload; Some (<[name := n]> gauges)
  end.

Fixpoint server_lines (gauges : gmap str Z) (ls : list str) : option (gmap str Z) :=
  match ls with
  | [] => Some gauges
  | l :: ls => gauges ← server_line gauges l; server_lines gauges ls
  end.

Lemma lines_app a b : newline ∉ a -> lines (a ++ newline :: b) = a :: lines b.
Proof.
  induction a as [|c a IH]; intros Ha; cbn [app lines].
  - by destruct (ascii_dec newline newline).
  - apply not_elem_of_cons in Ha as [Hc Ha]. destruct (ascii_dec c newline); [congruence|].
    by rewrite IH.
Qed.

Lemma lines_one a : newline ∉ a -> lines a = [a].
Proof.
  induction a as [|c a IH]; intros Ha; cbn [lines]; [done|].
  apply not_elem_of_cons in Ha as [Hc Ha]. destruct (ascii_dec c newline); [congruence|].
  by rewrite IH.
Qed.

Lemma digits_no c n : ~ is_digit c -> 0 <= n -> c ∉ to_string n.
Proof.
  intros Hc Hn Hin. destruct (to_string_digits n Hn) as (Hd & _).
  rewrite List.Forall_forall in Hd. apply Hc, Hd. by apply list_elem_of_In.
Qed.

Lemma read_number_to_string n : 0 <= n -> read_number (to_string n ++ L "|g") = Some n.
Proof.
  intros Hn. destruct (to_string_digits n Hn) as (_ & Hne & Hr). unfold read_number.
  rewrite Hr by (intros c [= <-]; unfold is_digit; by vm_compute).
  destruct (to_string n) as [|d ds] eqn:E; [done|]. cbn [length].
  change (S (length ds)) with (length (d :: ds)). rewrite drop_app_length.
  by rewrite decide_True.
Qed.

Lemma to_string_neg n : n < 0 -> to_string n = minus :: to_string (- n).
Proof. intros Hn. destruct n as [|p|p]; [lia|lia|]. done. Qed.

Lemma server_line_sets gauges name payload :
  colon ∉ name ->
  server_line gauges (name ++ L ":" ++ payload) =
  match payload with
  | [] => None
  | c :: digits =>
      if ascii_dec c plus then
        n ← read_number digits; Some (<[name := default 0 (gauges !! name) + n]> gauges)
      else if ascii_dec c minus then
        n ← read_number digits; Some (<[name := default 0 (gauges !! name) - n]> gauges)
      else n ← read_number payload; Some (<[name := n]> gauges)
  end.
Proof.
  intros Hname. unfold server_line. change (L ":" ++ payload) with (colon :: payload).
  by rewrite split_at_app.
Qed.

Lemma server_line_number gauges name n :
  colon ∉ name -> 0 <= n ->
  server_line gauges (name ++ L ":" ++ to_string n ++ L "|g") = Some (<[name := n]> gauges) /\
  server_line gauges (name ++ L ":" ++ plus :: to_string n ++ L "|g")
    = Some (<[name := default 0 (gauges !! name) + n]> gauges) /\
  server_line gauges (name ++ L ":" ++ minus :: to_string n ++ L "|g")
    = Some (<[name := default 0 (gauges !! name) - n]> gauges).
Proof.
  intros Hname Hn. rewrite !server_line_sets by done. split; [|split].
  - pose proof (read_number_to_string n Hn) as Hr.
    destruct (to_string_digits n Hn) as (Hd & Hne & _).
    destruct (to_string n) as [|c ds]; [done|]. cbn [app] in *.
    apply Forall_cons_1 in Hd as [Hc _]. destruct (digit_facts c Hc) as (_ & Hm & Hp & _).
    destruct (ascii_dec c plus); [done|]. destruct (ascii_dec c minus); [done|]. by rewrite Hr.
  - destruct (ascii_dec plus plus); [|done]. by rewrite read_number_to_string.
  - destruct (ascii_dec minus plus); [done|]. destruct (ascii_dec minus minus); [|done].
    by rewrite read_number_to_string.
Qed.

Lemma gauge_text_no_newline name n t :
  newline ∉ name -> newline ∉ t -> 0 <= n ->
  newline ∉ name ++ L ":" ++ t ++ to_string n ++ L "|g".
Proof.
  intros Hname Ht Hn. rewrite !elem_of_app. intros [H|[H|[H|[H|H]]]]; try done; revert H.
  - by_evaluation.
  - apply digits_no; [|done]. unfold is_digit. by vm_compute.
  - by_evaluation.
Qed.

Lemma gauge_text_is_value' (name text : str) (v : GaugeMetricValue) (gauges : gmap str Z)
    (Hcolon : colon ∉ name) (Hnewline : newline ∉ name)
    (Htext : gmv_toStatsD name v = Some text) :
  server_lines gauges (lines text) =
  Some (<[name := gauge_act v (default 0 (gauges !! name))]> gauges).
Proof.
  destruct v as [n delta]. unfold gmv_toStatsD in Htext. cbn [gmv_is_delta gmv_value] in Htext.
  unfold gauge_act. cbn [gmv_is_delta gmv_value]. destruct delta.
  - unfold i64_abs in Htext. destruct (in_int64 _); [|done]. injection Htext as <-.
    assert (0 <= Z.abs n) as Ha by lia.
    destruct (server_line_number gauges name (Z.abs n) Hcolon Ha) as (_ & Hp & Hm).
    rewrite lines_one.
    2: { apply gauge_text_no_newline; [done| |done]. destruct (0 <=? n); by_evaluation. }
    cbn [server_lines]. destruct (Z.leb_spec 0 n).
    + change (server_line gauges _) with
        (server_line gauges (name ++ L ":" ++ plus :: to_string (Z.abs n) ++ L "|g")).
      rewrite Hp. cbn. do 2 f_equal. lia.
    + change (server_line gauges _) with
        (server_line gauges (name ++ L ":" ++ minus :: to_string (Z.abs n) ++ L "|g")).
      rewrite Hm. cbn. do 2 f_equal. lia.
  - injection Htext as <-. destruct (Z.ltb_spec n 0) as [Hn|Hn].
    + rewrite (to_string_neg n Hn). assert (0 <= - n) as Ha by lia.
      match goal with |- server_lines _ (lines ?t) = _ =>
        replace t with ((name ++ L ":" ++ to_string 0 ++ L "|g")
          ++ newline :: (name ++ L ":" ++ [minus] ++ to_string (- n) ++ L "|g"))
          by (by rewrite <- !app_assoc; cbn; rewrite <- app_assoc)
      end.
      rewrite lines_app by (apply (gauge_text_no_newline name 0 []); [done|by_evaluation|lia]).
      rewrite lines_one by (apply gauge_text_no_newline; [done|by_evaluation|lia]).
      destruct (server_line_number gauges name 0 Hcolon ltac:(done)) as (E & _).
      cbn [server_lines]. change (server_line gauges _) with
        (server_line gauges (name ++ L ":" ++ to_string 0 ++ L "|g")).
      rewrite E. cbn [mbind option_bind].
      destruct (server_line_number (<[name := 0]> gauges) name (- n) Hcolon Ha) as (_ & _ & Hm).
      change (server_line (<[name := 0]> gauges) _) with (server_line (<[name := 0]> gauges)
        (name ++ L ":" ++ minus :: to_string (- n) ++ L "|g")). rewrite Hm. cbn.
      rewrite lookup_insert_eq, insert_insert_eq. do 2 f_equal. cbn. lia.
    + cbn [app]. rewrite lines_one by (apply (gauge_text_no_newline name n []); [done|by_evaluation|lia]).
      destruct (server_line_number gauges name n Hcolon Hn) as (E & _).
      cbn [server_lines]. change (server_line gauges _) with
        (server_line gauges (name ++ L ":" ++ to_string n ++ L "|g")). by rewrite E.
Qed.

(** The text that is published for a gauge means what the value means: a
    server that reads its lines, [+] and [-] as changes and a bare number as the
    new value, ends with the gauge that the value, applied to the old one,
    gives; also for a negative value, which takes two lines. *)
Theorem gauge_text_is_value (name text : str) (v : GaugeMetricValue) (gauges : gmap str Z)
    (Hcolon : colon ∉ name) (Hnewline : newline ∉ name)
    (Htext : gmv_toStatsD name v = Some text) :
  server_lines gauges (lines text) =
  Some (<[name := gauge_act v (default 0 (gauges !! name))]> gauges).
Proof. by apply gauge_text_is_value'. Qed.

Lemma gauge_text_is_value_witness :
  server_lines {[ L "g" := 7 ]} (lines (L "g:0|g" ++ newline :: L "g:-5|g"))
  = Some {[ L "g" := -5 ]}.
Proof.
  refine (eq_trans (gauge_text_is_value (L "g") (L "g:0|g" ++ newline :: L "g:-5|g")
    (MkGaugeMetricValue (-5) false) {[ L "g" := 7 ]} _ _ _) _).
  - by_evaluation.
  - by_evaluation.
  - vm_compute. reflexivity.
  - vm_compute. reflexivity.
Defined.

(** ** Gauges from the calls to the server *)

Section gauges.
Context (I : MapIteration).

(** What a publisher sends for a snapshot, in the order of its loop. *)
Definition snapshot_texts (m : gmap str GaugeMetricValue) : option (list str) :=
  mapM (fun e => gmv_toStatsD e.1 e.2) (@snapshot_entries GaugeMetricValue Gauge I m).

Fixpoint server_receive (gauges : gmap str Z) (texts : list str) : option (gmap str Z) :=
  match texts with
  | [] => Some gauges
  | t :: texts => gauges ← server_lines gauges (lines t); server_receive gauges texts
  end.

Definition good_name (name : str) : Prop := (colon ∉ name) /\ (newline ∉ name).

Definition after_snapshot (m : gmap str GaugeMetricValue) (name : str) (n : Z) : Z :=
  match m !! name with Some v => gauge_act v n | None => n end.

Lemma server_receive_app gauges t1 t2 :
  server_receive gauges (t1 ++ t2) =
  (gauges ← server_receive gauges t1; server_receive gauges t2).
Proof.
  revert gauges. induction t1 as [|t t1 IH]; intros gauges; [done|]. cbn [app server_receive].
  destruct (server_lines gauges (lines t)); [apply IH|done].
Qed.

Lemma receive_entries l texts gauges :
  NoDup l.*1 -> Forall (fun e => good_name e.1) l ->
  mapM (fun e => gmv_toStatsD e.1 e.2) l = Some texts ->
  exists gauges', server_receive gauges texts = Some gauges' /\
    forall name, default 0 (gauges' !! name) =
      after_snapshot (list_to_map l) name (default 0 (gauges !! name)).
Proof.
  intros Hnd Hl. revert texts gauges. induction Hl as [|[n v] l [Hc Hn] Hl IH]; intros texts gauges E.
  - injection E as <-. exists gauges. split; [done|]. intros name. unfold after_snapshot.
    cbn. by rewrite lookup_empty.
  - cbn in E, Hnd. apply list.NoDup_cons in Hnd as [Hnin Hnd].
    destruct (gmv_toStatsD n v) as [t|] eqn:Et; [|done].
    destruct (mapM _ l) as [ts|] eqn:Em; [|done]. injection E as <-.
    cbn [server_receive]. rewrite (gauge_text_is_value' n t v gauges Hc Hn Et). cbn [mbind option_bind].
    destruct (IH Hnd ts (<[n := gauge_act v (default 0 (gauges !! n))]> gauges) eq_refl)
      as (g' & Hg & Hname).
    exists g'. split; [done|]. intros name. rewrite Hname. unfold after_snapshot. cbn [list_to_map foldr].
    destruct (decide (n = name)) as [<-|Hne].
    + rewrite (not_elem_of_list_to_map_1 l n Hnin), lookup_insert_eq. cbn. by rewrite lookup_insert_eq.
    + rewrite (lookup_insert_ne gauges) by done. cbn. by rewrite lookup_insert_ne.
Qed.

Lemma receive_snapshot m texts gauges :
  (forall name v, m !! name = Some v -> good_name name) ->
  snapshot_texts m = Some texts ->
  exists gauges', server_receive gauges texts = Some gauges' /\
    forall name, default 0 (gauges' !! name) = after_snapshot m name (default 0 (gauges !! name)).
Proof.
  intros Hm E. unfold snapshot_texts in E. cbn [snapshot_entries Gauge] in E.
  pose proof (um_iter_perm m) as Hp.
  assert (NoDup (um_iter m).*1) as Hnd by (rewrite Hp; apply NoDup_fst_map_to_list).
  destruct (receive_entries (um_iter m) texts gauges Hnd) as (g' & Hg & Hname); [|done|].
  - rewrite Hp. apply Forall_forall. intros [k v] Hin. cbn.
    apply (Hm k v). by apply elem_of_map_to_list, list_elem_of_In.
  - exists g'. split; [done|]. intros name. rewrite Hname. f_equal.
    rewrite (list_to_map_proper _ (map_to_list m) Hnd Hp). apply list_to_map_to_list.
Qed.

Lemma receive_snapshots snapshots texts gauges :
  Forall (fun m => forall name (v : GaugeMetricValue), m !! name = Some v -> good_name name) snapshots ->
  mapM snapshot_texts snapshots = Some texts ->
  exists gauges', server_receive gauges (concat texts) = Some gauges' /\
    forall name, default 0 (gauges' !! name) =
      acts gauge_act (default 0 (gauges !! name)) (entries_of name snapshots).
Proof.
  intros Hs. revert texts gauges. induction Hs as [|m snapshots Hm Hs IH]; intros texts gauges E.
  - injection E as <-. exists gauges. split; [reflexivity|]. intros name. reflexivity.
  - change (mapM snapshot_texts (m :: snapshots)) with
      (t ← snapshot_texts m; ts ← mapM snapshot_texts snapshots; Some (t :: ts)) in E.
    destruct (snapshot_texts m) as [t|] eqn:Et; [cbn [mbind option_bind] in E|done].
    destruct (mapM _ snapshots) as [ts|] eqn:Em; [|done]. injection E as <-.
    destruct (receive_snapshot m t gauges Hm Et) as (g1 & E1 & H1).
    destruct (IH ts g1 eq_refl) as (g2 & E2 & H2).
    exists g2. split; [cbn; rewrite server_receive_app, E1; exact E2|]. intros name.
    rewrite H2, H1. unfold entries_of. cbn [mbind list_bind]. rewrite acts_app. f_equal.
    unfold after_snapshot. by destruct (m !! name).
Qed.

(** The names in snapshots are names that were stored. *)
Lemma history_names (P : str -> Prop) (calls : list (call GaugeMetricValue)) (m : gmap str GaugeMetricValue) snapshots rest :
  Forall (fun c => match c with Store n _ => P n | Snapshot => True end) calls ->
  (forall name v, m !! name = Some v -> P name) ->
  history gmv_add calls m = Some (snapshots, rest) ->
  Forall (fun m => forall name v, m !! name = Some v -> P name) snapshots.
Proof.
  intros Hc. revert m snapshots. induction Hc as [|[n v|] calls Hn Hc IH]; intros m snapshots Hm E.
  - by injection E as <- _.
  - cbn [history] in E. destruct (aggregating_store gmv_add n v m) as [m'|] eqn:Em; [|done].
    apply (IH m'); [|done]. intros name x Hx. unfold aggregating_store in Em.
    assert (exists y, m' = <[n := y]> m) as [y ->].
    { destruct (m !! n) as [e|]; [destruct (gmv_add e v); [|done]|]; injection Em as <-; by eexists. }
    apply lookup_insert_Some in Hx as [[<- _]|[_ Hx]]; [done|by eapply Hm].
  - cbn [history aggregating_getSnapshot] in E. destruct (history gmv_add calls ∅) as [[sn r]|] eqn:Eh; [|done].
    injection E as <- <-. constructor; [done|]. apply (IH ∅); [|done].
    intros name x Hx. by rewrite lookup_empty in Hx.
Qed.
End gauges.

(** C32. From the calls to the server: however threads interleave their calls of
    [setGauge] and [adjustGauge] with the snapshots of the publisher, and in
    whatever order a snapshot is visited, a server that receives the published
    text of all snapshots, the last of which was taken after the last call, holds
    for every gauge the value that the calls, applied in order, give. *)
Theorem gauges_reach_server (I : MapIteration) (calls : list (call GaugeMetricValue))
    (snapshots : list (gmap str GaugeMetricValue)) (texts : list (list str))
    (Hnames : Forall (fun c => match c with Store n _ => good_name n | Snapshot => True end) calls)
    (Hrun : history gmv_add calls ∅ = Some (snapshots, ∅))
    (Htexts : mapM (snapshot_texts I) snapshots = Some texts) :
  exists gauges, server_receive ∅ (concat texts) = Some gauges /\
    forall name, default 0 (gauges !! name) = acts gauge_act 0 (stored name calls).
Proof.
  assert (Forall (fun m => forall name (v : GaugeMetricValue), m !! name = Some v -> good_name name)
    snapshots) as Hs.
  { apply (history_names good_name calls ∅ snapshots ∅ Hnames); [|done].
    intros name v Hv. by rewrite lookup_empty in Hv. }
  destruct (receive_snapshots I snapshots texts ∅ Hs Htexts) as (g & E & Hg).
  exists g. split; [done|]. intros name. rewrite Hg, lookup_empty. cbn [default].
  pose proof (history_acts gmv_add gauge_act gauge_act_add _ _ _ _ Hrun name 0) as H.
  unfold entries_of in *. rewrite bind_app in H. cbn [mbind list_bind] in H.
  by rewrite lookup_empty, !app_nil_r in H.
Qed.

(** One order of iteration, for the examples. *)
Definition map_order : MapIteration :=
  {| um_iter K E C V m := map_to_list m; um_iter_perm K E C V m := reflexivity _ |}.

Lemma gauges_reach_server_witness :
  let set name n := Store (L name) (MkGaugeMetricValue n false) in
  let adjust name n := Store (L name) (MkGaugeMetricValue n true) in
  exists gauges,
    server_receive ∅ [L "g:5|g"; L "h:0|g" ++ newline :: L "h:-2|g"; L "g:-3|g"] = Some gauges /\
    default 0 (gauges !! L "g") =
      acts gauge_act 0 (stored (L "g")
        [set "g" 4; adjust "g" 1; Snapshot; adjust "g" (-3); set "h" (-2); Snapshot]).
Proof.
  intros set adjust.
  set (calls := [set "g" 4; adjust "g" 1; Snapshot; adjust "g" (-3); set "h" (-2); Snapshot]).
  destruct (history gmv_add calls ∅) as [[snapshots rest]|] eqn:E; [|vm_compute in E; discriminate E].
  assert (rest = ∅) as -> by (vm_compute in E; injection E as _ <-; reflexivity).
  destruct (gauges_reach_server map_order calls snapshots
    [[L "g:5|g"]; [L "h:0|g" ++ newline :: L "h:-2|g"; L "g:-3|g"]]) as (gauges & Eg & Hg).
  - repeat constructor; by_evaluation.
  - exact E.
  - vm_compute in E. injection E as <-. vm_compute. reflexivity.
  - exists gauges. split; [exact Eg|]. apply Hg.
Defined.

(** ** Guards *)

Section guards.
Context {W : Type} (steady_now : W -> Z * W) {A : Type}.
Context (body : UM (MetricCollectorFactory * W) A) (name : str).
Context (f f1 : MetricCollectorFactory) (w w0 w1 w2 : W) (start stop : Z) (r : res A).
Context (Hstart : steady_now w = (start, w0)) (Hstop : steady_now w1 = (stop, w2)).

(** With metrics enabled throughout, a guard around a body that returns or throws
    records one entry, the time from the start to the end of the body in
    microseconds, and lets the result of the body through. *)
Theorem duration_guard_records
    (Hf : d_metricsEnabled f = true) (Hf1 : d_metricsEnabled f1 = true)
    (Hbody : body (f, w0) = Some (r, (f1, w1))) :
  with_MetricGuard steady_now DurationMetricTimer name None body (f, w) =
  Some (r, (setCollector (V := DurationMetricValue)
    (duration_collector f1 ++ [(name, MkDurationMetricValue (duration_cast 1000 (stop - start)))])
    f1, w2)).
Proof.
  unfold with_MetricGuard, ScopedMetric_new, ScopedMetric_delete, ubind, ufield, beside_factory.
  cbn [fst]. rewrite Hf. cbn [metric_start DurationMetricTimer_type]. unfold at_now. rewrite Hstart.
  cbn. rewrite Hbody. cbn. rewrite Hf1. unfold at_now. rewrite Hstop. cbn. by rewrite Hf1.
Qed.

(** Disabled metrics cost nothing: the guard is the body. *)
Lemma guard_disabled (Hf : d_metricsEnabled f = false) (Hf1 : d_metricsEnabled f1 = false)
    (Hbody : body (f, w) = Some (r, (f1, w1))) :
  with_MetricGuard steady_now DurationMetricTimer name None body (f, w) = body (f, w).
Proof.
  unfold with_MetricGuard, ScopedMetric_new, ScopedMetric_delete, ubind, ufield.
  cbn [fst]. rewrite Hf. unfold uret. rewrite Hbody. cbn [fst]. by rewrite Hf1.
Qed.

(** Metrics that are enabled while a guard is alive: the guard was not started, and
    what is recorded is the time since the epoch of the clock. *)
Lemma guard_enabled_late (Hf : d_metricsEnabled f = false) (Hf1 : d_metricsEnabled f1 = true)
    (Hbody : body (f, w) = Some (r, (f1, w1))) :
  with_MetricGuard steady_now DurationMetricTimer name None body (f, w) =
  Some (r, (setCollector (V := DurationMetricValue)
    (duration_collector f1 ++ [(name, MkDurationMetricValue (duration_cast 1000 stop))]) f1, w2)).
Proof.
  unfold with_MetricGuard, ScopedMetric_new, ScopedMetric_delete, ubind, ufield, beside_factory.
  cbn [fst]. rewrite Hf. unfold uret. rewrite Hbody. cbn. rewrite Hf1. unfold at_now. rewrite Hstop.
  cbn. rewrite Hf1. by rewrite Z.sub_0_r.
Qed.
End guards.

(** A timer is used once. *)
Lemma timer_once now later t t' :
  dt_stop_at now t = Ok t' ->
  dt_start_at later t' = Throw LogicError /\ dt_stop_at later t' = Throw LogicError.
Proof. unfold dt_stop_at, dt_start_at. destruct (dt_done t); [done|]. by intros [= <-]. Qed.

(** What is published of a duration are whole milliseconds. *)
Lemma duration_text name start stop :
  dmv_toStatsD name (MkDurationMetricValue (duration_cast 1000 (stop - start))) =
  name ++ L ":" ++ to_string (Z.quot (stop - start) 1000000) ++ L "|ms".
Proof.
  unfold dmv_toStatsD, duration_cast. cbn [dmv_value]. by rewrite Z.quot_quot by done.
Qed.

Lemma duration_guard_records_witness :
  let now (w : Z) := (w, w + 2500) in
  with_MetricGuard now DurationMetricTimer (L "t") None (fun s => Some (Ok tt, s))
    (MetricCollectorFactory_init, 1000) =
  Some (Ok tt, (setCollector (V := DurationMetricValue) [(L "t", MkDurationMetricValue 2)] MetricCollectorFactory_init, 6000)).
Proof.
  intros now.
  refine (eq_trans (duration_guard_records now (fun s => Some (Ok tt, s)) (L "t")
    MetricCollectorFactory_init MetricCollectorFactory_init 1000 3500 3500 6000 1000 3500 (Ok tt)
    _ _ _ _ _) _); reflexivity.
Defined.
