(* ===== verification/MetricsPublish.v ===== *)
(** * Metrics: configuration and publishing

    The library buildboxcommonmetrics, second part: [metricsconfigtype],
    [metricsconfigutil], [metricsconfigurator], [filewriter], [udpwriter],
    [statsdpublisher.h], [statsdpublishercreator.h] and [publisherguard.h]. *)

From S2P Require Import Prelude StdMap Arrays Blake3Compress Grpc Undefined Merge Paths Cstring Metrics.
Open Scope Z_scope.

(** ** [MetricsConfigType] *)

Definition DEFAULT_PUBLISH_INTERVAL : Z := 15.

Record MetricsConfigType := MkMetricsConfig {
  mc_file : str;
  mc_udpServer : str;
  mc_enable : bool;
  mc_publishInterval : Z;
}.

Definition MetricsConfigType_default : MetricsConfigType :=
  MkMetricsConfig [] [] false DEFAULT_PUBLISH_INTERVAL.

Definition setFile (val : str) (c : MetricsConfigType) : MetricsConfigType :=
  MkMetricsConfig val (mc_udpServer c) (mc_enable c) (mc_publishInterval c).
Definition setUdpServer (val : str) (c : MetricsConfigType) : MetricsConfigType :=
  MkMetricsConfig (mc_file c) val (mc_enable c) (mc_publishInterval c).
Definition setEnable (val : bool) (c : MetricsConfigType) : MetricsConfigType :=
  MkMetricsConfig (mc_file c) (mc_udpServer c) val (mc_publishInterval c).
(** The argument is a [size_t]. *)
Definition setInterval (val : Z) (c : MetricsConfigType) : MetricsConfigType :=
  MkMetricsConfig (mc_file c) (mc_udpServer c) (mc_enable c) (u64 val).

(** ** [MetricsConfigUtil] *)

Definition isMetricsOption (option : str) : bool := starts_with (L "metrics-") option.

(** [s.find(separator)]: what precedes and what follows the first occurrence. *)
Fixpoint find_separator (separator s : str) : option (str * str) :=
  if starts_with separator s then Some ([], drop (length separator) s)
  else
    match s with
    | [] => None
    | c :: s =>
        match find_separator separator s with
        | Some (before, after) => Some (c :: before, after)
        | None => None
        end
    end.

Definition metricsParser (argument_name value : str) (config : MetricsConfigType)
  : res MetricsConfigType :=
  if decide (argument_name = L "metrics-mode") then
    if decide (value = L "stderr" \/ value = L "stderr://") then Ok (setEnable true config)
    else
      match find_separator (L "://") value with
      | None => Throw RuntimeError
      | Some (type, result) =>
          if decide (result = []) then Throw RuntimeError
          else if decide (type = L "udp") then Ok (setUdpServer result (setEnable true config))
          else if decide (type = L "file") then Ok (setFile result (setEnable true config))
          else Throw RuntimeError
      end
  else if decide (argument_name = L "metrics-publish-interval") then
    let! (interval, _) := stoi value in Ok (setInterval interval config)
  else Throw RuntimeError.

Definition metrics_usage : str :=
  L "    --metrics-mode=MODE   Options for MODE are:" ++ [newline] ++
  L "           udp://localhost:50051" ++ [newline] ++
  L "           file:///tmp" ++ [newline] ++
  L "           stderr" ++ [newline] ++
  L "                          Only one metric output mode can be specified" ++ [newline] ++
  L "    --metrics-publish-interval=VALUE   Publish metric at the specified interval rate in seconds, defaults "
    ++ to_string DEFAULT_PUBLISH_INTERVAL ++ L " seconds" ++ [newline].

(** [std::stoul]: a minus sign negates within the 64 bits. *)
Definition stoul (s : str) : res Z :=
  match strtol (c_str s) with
  | None => Throw InvalidArgument
  | Some (v, _) => if 2 ^ 64 <=? Z.abs v then Throw OutOfRange else Ok (u64 v)
  end.

(** The last colon: what precedes it and what follows it. *)
Fixpoint split_last_colon (s : str) : option (str * str) :=
  match s with
  | [] => None
  | c :: s =>
      match split_last_colon s with
      | Some (before, after) => Some (c :: before, after)
      | None => if ascii_dec c ":"%char then Some ([], s) else None
      end
  end.

(** The server and the port; [null_output] tells whether an output parameter is a
    null pointer.  The condition [split_at + 2 < inputString.size()] asks for more
    than one character behind the colon. *)
Definition parseHostPortString (inputString : str) (null_output : bool) : res (str * Z) :=
  if null_output then Throw InvalidArgument
  else
    match split_last_colon inputString with
    | None => Ok (inputString, 8125)
    | Some (server, port) =>
        if (1 <? length port)%nat then
          let! tmp := stoul port in
          let tmp := u32 tmp in
          if 65535 <? tmp then Throw RangeError else Ok (server, tmp)
        else Ok (server, 8125)
    end.

(** ** [MetricsConfigurator] *)

Definition createMetricsConfig (file udp_server : str) (enable : bool) (interval : Z)
  : res MetricsConfigType :=
  if enable && negb (bool_decide (udp_server = [])) && negb (bool_decide (file = []))
  then Throw RuntimeError
  else Ok (MkMetricsConfig file udp_server enable interval).

(** ** [StatsDPublisher] *)

Inductive PublishMethod := StdErr | ToFile | UDP.

#[global] Instance PublishMethod_eq_dec : EqDecision PublishMethod.
Proof. solve_decision. Defined.

Record StatsDPublisher := MkStatsDPublisher {
  d_publishMethod : PublishMethod;
  d_publishPath : str;
  d_publishPort : Z;
}.

Definition StatsDPublisher_new (method : PublishMethod) (path : str) (port : Z)
  : res StatsDPublisher :=
  match method with
  | ToFile => if decide (path = []) then Throw RuntimeError else Ok (MkStatsDPublisher method path port)
  | UDP =>
      if bool_decide (path = []) || (port <=? 0) then Throw RuntimeError
      else Ok (MkStatsDPublisher method path port)
  | StdErr => Ok (MkStatsDPublisher method path port)
  end.

Definition fromConfig (metricsConfig : MetricsConfigType) : res StatsDPublisher :=
  if decide (mc_udpServer metricsConfig = []) then
    if decide (mc_file metricsConfig = []) then StatsDPublisher_new StdErr [] 0
    else StatsDPublisher_new ToFile (mc_file metricsConfig) 0
  else
    let! (publishPath, publishPort) := parseHostPortString (mc_udpServer metricsConfig) false in
    StatsDPublisher_new UDP publishPath publishPort.

(** A type of value, with what the templates ask of it. *)
Record AnyValueType := AnyType { any_type : Type; any_class : ValueType any_type }.

(** [publisherTypeOfAllValueTypes]. *)
Definition publisherTypeOfAllValueTypes : list AnyValueType :=
  [AnyType CountingMetricValue Counting; AnyType DurationMetricValue Duration;
   AnyType TotalDurationMetricValue TotalDuration; AnyType GaugeMetricValue Gauge].

Section publishing.
Context {W : Type} `{MapIteration}.

(** An address of a server is what [getaddrinfo] gives. *)
Record PublishCalls := MkPublishCalls {
  stderr_write : str -> W -> W;
  (** The local time with milliseconds, as the header shows it. *)
  local_time : W -> str * W;
  (** Opening for appending: is the stream good?  Then writing to the file. *)
  of_open : str -> W -> bool * W;
  of_append : str -> str -> W -> W;
  (** An error code, or an address. *)
  getaddrinfo : str -> str -> W -> (Z + str) * W;
  sys_socket : W -> Z * W;
  sys_sendto : Z -> str -> str -> W -> W;
  udp_close : Z -> W -> W;
}.
Context (sys : PublishCalls).

Abbreviation PM_ := (UM (MetricCollectorFactory * W)).

Definition outside (f : W -> W) : PM_ unit := fun '(s, w) => Some (Ok tt, (s, f w)).
Definition ask_outside {A} (f : W -> A * W) : PM_ A :=
  fun '(s, w) => let '(a, w) := f w in Some (Ok a, (s, w)).

Fixpoint for_each {A} (f : A -> PM_ unit) (l : list A) : PM_ unit :=
  match l with
  | [] => uret tt
  | a :: l => let+ _ := f a in for_each f l
  end.

(** ** [FileWriter] and [UDPWriter] *)

Definition FileWriter_new (filePath : str) : PM_ unit :=
  let+ good := ask_outside (of_open sys filePath) in
  if (good : bool) then uret tt else uthrow RuntimeError.

Definition FileWriter_write (filePath buffer : str) : PM_ unit :=
  outside (of_append sys filePath buffer).

Record UDPWriter := MkUDPWriter { d_sockfd : Z; d_server_address : str }.

Definition UDPWriter_new (server_port : Z) (server_name : str) : PM_ UDPWriter :=
  let+ found := ask_outside (getaddrinfo sys (c_str server_name) (to_string server_port)) in
  match found with
  | inl _ => uthrow RuntimeError
  | inr address =>
      let+ sockfd := ask_outside (sys_socket sys) in
      if sockfd <? 0 then uthrow RuntimeError else uret (MkUDPWriter sockfd address)
  end.

(** What [sendto] reports is ignored. *)
Definition UDPWriter_write (self : UDPWriter) (buffer : str) : PM_ unit :=
  outside (sys_sendto sys (d_sockfd self) buffer (d_server_address self)).

Definition UDPWriter_delete (self : UDPWriter) : PM_ unit :=
  if d_sockfd self =? 0 then uret tt else outside (udp_close sys (d_sockfd self)).

(** ** [publish] *)

Definition gatherStatsDFromValueTypeCollector (T : AnyValueType) : PM_ (list str) :=
  fun '(f, w) =>
    let '(snapshot, rest) := @getSnapshot _ (any_class T) (@getCollector _ (any_class T) f) in
    texts ← mapM (fun e => @toStatsD _ (any_class T) e.1 e.2)
              (@snapshot_entries _ (any_class T) _ snapshot);
    Some (Ok texts, (@setCollector _ (any_class T) rest f, w)).

Fixpoint gatherStatsDFromNextCollectors (types : list AnyValueType) : PM_ (list str) :=
  match types with
  | [] => uret []
  | T :: types =>
      let+ statsDMetrics := gatherStatsDFromValueTypeCollector T in
      let+ more := gatherStatsDFromNextCollectors types in
      uret (statsDMetrics ++ more)
  end.

Definition publish (types : list AnyValueType) (self : StatsDPublisher) : PM_ unit :=
  let+ statsDMetrics := gatherStatsDFromNextCollectors types in
  match d_publishMethod self with
  | StdErr =>
      let+ now := ask_outside (local_time sys) in
      let+ _ := outside (stderr_write sys (now ++ L " buildbox Metrics:" ++ [newline])) in
      for_each (fun metric => outside (stderr_write sys (metric ++ [newline]))) statsDMetrics
  | ToFile =>
      let+ _ := FileWriter_new (d_publishPath self) in
      for_each (fun metric => FileWriter_write (d_publishPath self) (metric ++ [newline]))
        statsDMetrics
  | UDP =>
      let+ udpWriter := UDPWriter_new (d_publishPort self) (d_publishPath self) in
      let+ _ := for_each (fun metric => UDPWriter_write udpWriter (metric ++ [newline]))
                  statsDMetrics in
      UDPWriter_delete udpWriter
  end.

(** [createMetricsPublisherWithConfig] and [createStatsdPublisher]. *)
Definition createMetricsPublisherWithConfig (config : MetricsConfigType) : PM_ StatsDPublisher :=
  let+ _ := uupdate (fun '(f, w) => (setMetricsEnabled (mc_enable config) f, w)) in
  fun s => Some (fromConfig config, s).

(** ** [PublisherGuard]

    The destructor publishes when the scope is left. *)
Definition with_PublisherGuard {A} (types : list AnyValueType) (enabled : bool)
    (publisher : StatsDPublisher) (body : PM_ A) : PM_ A :=
  fun s =>
    match body s with
    | None => None
    | Some (r, s) =>
        if negb enabled then Some (r, s)
        else
          match publish types publisher s with
          | Some (Ok _, s) => Some (r, s)
          | Some (Throw e, s) => Some (Throw e, s)
          | None => None
          end
    end.
End publishing.
