(* ===== verification/MetricsPublishSpec.v ===== *)
(** * Properties of the publisher of metrics and its configuration *)

From S2P Require Import Prelude StdMap Arrays Blake3Compress Grpc Undefined Merge Paths PathsSpec Cstring Metrics MetricsPublish.
Open Scope Z_scope.

(** ** Host and port *)

Lemma split_last_colon_none s : ":"%char ∉ s -> split_last_colon s = None.
Proof.
  induction s as [|c s IH]; intros Hs; cbn [split_last_colon]; [done|].
  apply not_elem_of_cons in Hs as [Hc Hs]. rewrite IH by done.
  destruct (ascii_dec c ":"); congruence.
Qed.

Lemma split_last_colon_app server port :
  ":"%char ∉ port -> split_last_colon (server ++ ":"%char :: port) = Some (server, port).
Proof.
  intros Hp. induction server as [|c s IH]; cbn [app split_last_colon].
  - by rewrite split_last_colon_none.
  - by rewrite IH.
Qed.

(** Numerals of one digit are those below ten. *)
Lemma to_string_length n : 0 <= n -> (1 <? length (to_string n))%nat = (10 <=? n).
Proof.
  intros Hn. destruct (to_string_digits n Hn) as (Hd & Hne & Hr). specialize (Hr [] ltac:(done)).
  rewrite app_nil_r in Hr. destruct (Z.leb_spec 10 n) as [Hb|Hb].
  - apply Nat.ltb_lt. destruct (to_string n) as [|c [|d l]]; [done| |cbn; lia].
    cbn in Hr. unfold digit_val in Hr. destruct (_ && _) eqn:E; [|done].
    injection Hr as Hr. b2p. lia.
  - assert (forall k, (k < 10)%nat -> (1 <? length (to_string (Z.of_nat k)))%nat = false) as E.
    { intros k Hk. do 10 (destruct k as [|k]; [done|]). lia. }
    rewrite <- (Z2Nat.id n) by done. apply E. lia.
Qed.

Lemma to_string_not_digit n c : 0 <= n -> ~ is_digit c -> c ∉ to_string n.
Proof.
  intros Hn Hc Hin. destruct (to_string_digits n Hn) as (Hd & _).
  rewrite List.Forall_forall in Hd. apply Hc, Hd. by apply list_elem_of_In.
Qed.

Lemma stoul_to_string n : 0 <= n < 2 ^ 64 -> stoul (to_string n) = Ok n.
Proof.
  intros Hn. unfold stoul. pose proof (strtol_to_string n []) as E. rewrite app_nil_r in E.
  rewrite E by (try done; try lia; by apply not_elem_of_nil).
  destruct (Z.leb_spec (2 ^ 64) (Z.abs n)); [lia|]. unfold u64. f_equal. apply Z.mod_small. lia.
Qed.

(** What follows the last colon is the port if it has two digits or more; a port of
    one digit is replaced by the default. *)
Lemma parse_host_port server port :
  0 <= port <= 65535 ->
  parseHostPortString (server ++ L ":" ++ to_string port) false =
  Ok (server, if 10 <=? port then port else 8125).
Proof.
  intros Hp. unfold parseHostPortString. change (L ":" ++ to_string port) with (":"%char :: to_string port).
  rewrite split_last_colon_app.
  2: { apply to_string_not_digit; [lia|]. unfold is_digit. by vm_compute. }
  rewrite to_string_length by lia. destruct (10 <=? port); [|done].
  rewrite stoul_to_string by lia. cbn [res_bind]. unfold u32. rewrite Z.mod_small by lia.
  destruct (Z.ltb_spec 65535 port); [lia|done].
Qed.

(** A number that does not fit into 32 bits is cut off before it is compared with
    the largest port. *)
Example port_wraps : parseHostPortString (L "localhost:4294967297") false = Ok (L "localhost", 1).
Proof. by vm_compute. Qed.

Example port_of_one_digit : parseHostPortString (L "localhost:1") false = Ok (L "localhost", 8125).
Proof. by vm_compute. Qed.

(** ** From the option to the publisher *)

Lemma find_separator_app (sep a b : str) (c : ascii) :
  list.head sep = Some c -> c ∉ a -> find_separator sep (a ++ sep ++ b) = Some (a, b).
Proof.
  intros Hc. destruct sep as [|c' sep]; [done|]. injection Hc as ->.
  induction a as [|d a IH]; intros Ha.
  - change ([] ++ (c :: sep) ++ b) with (c :: sep ++ b). cbn [find_separator].
    change (c :: sep ++ b) with ((c :: sep) ++ b). rewrite starts_with_prefix. by rewrite drop_app_length.
  - apply not_elem_of_cons in Ha as [Hd Ha]. cbn [app find_separator]. 
    assert (starts_with (c :: sep) (d :: a ++ c :: sep ++ b) = false) as ->.
    { cbn [starts_with]. by rewrite (bool_decide_false _ Hd). }
    change (c :: sep ++ b) with ((c :: sep) ++ b). by rewrite IH.
Qed.

(** The value of [--metrics-mode] determines the publisher: the standard error,
    a file, or a server with its port, provided the port has at least two digits;
    and metrics are enabled. *)
Theorem mode_selects_publisher (config : MetricsConfigType) (path server : str) (port : Z)
    (Hudp : mc_udpServer config = []) (Hfile : mc_file config = [])
    (Hpath : path <> []) (Hserver : server <> []) (Hport : 10 <= port <= 65535) :
  let parse value := metricsParser (L "metrics-mode") value config in
  (let! c := parse (L "stderr") in let! p := fromConfig c in Ok (p, mc_enable c)) =
    Ok (MkStatsDPublisher StdErr [] 0, true) /\
  (let! c := parse (L "file" ++ L "://" ++ path) in let! p := fromConfig c in Ok (p, mc_enable c)) =
    Ok (MkStatsDPublisher ToFile path 0, true) /\
  (let! c := parse (L "udp" ++ L "://" ++ server ++ L ":" ++ to_string port) in
   let! p := fromConfig c in Ok (p, mc_enable c)) =
    Ok (MkStatsDPublisher UDP server port, true).
Proof.
  intros parse. destruct config as [file udp enable interval]. cbn in Hudp, Hfile. subst file udp.
  split; [reflexivity|]. unfold parse, metricsParser.
  rewrite !(decide_True (P := L "metrics-mode" = L "metrics-mode")) by done. split.
  - rewrite decide_False by (intros [E|E]; discriminate E).
    rewrite (find_separator_app (L "://") (L "file") path ":"%char eq_refl) by by_evaluation.
    rewrite (decide_False (P := path = [])) by done. cbn [res_bind].
    rewrite (decide_False (P := L "file" = L "udp")) by done.
    rewrite (decide_True (P := L "file" = L "file")) by done. cbn [res_bind].
    unfold fromConfig, StatsDPublisher_new. cbn [mc_udpServer mc_file setFile setEnable mc_enable].
    rewrite (decide_True (P := @eq str [] [])) by done.
    by rewrite !(decide_False (P := path = [])) by done.
  - rewrite decide_False by (intros [E|E]; discriminate E).
    rewrite (find_separator_app (L "://") (L "udp") _ ":"%char eq_refl) by by_evaluation.
    rewrite (decide_False (P := server ++ _ = [])) by (by destruct server).
    rewrite (decide_True (P := L "udp" = L "udp")) by done. cbn [res_bind].
    unfold fromConfig. cbn [mc_udpServer setUdpServer setEnable mc_enable].
    rewrite (decide_False (P := server ++ _ = [])) by (by destruct server).
    rewrite parse_host_port by lia. cbn [res_bind].
    destruct (Z.leb_spec 10 port); [|lia]. unfold StatsDPublisher_new.
    rewrite (bool_decide_false _ Hserver). destruct (Z.leb_spec port 0); [lia|]. done.
Qed.

Lemma mode_selects_publisher_witness :
  (let! c := metricsParser (L "metrics-mode") (L "udp://localhost:8126") MetricsConfigType_default in
   let! p := fromConfig c in Ok (p, mc_enable c)) =
  Ok (MkStatsDPublisher UDP (L "localhost") 8126, true).
Proof.
  refine (proj2 (proj2 (mode_selects_publisher MetricsConfigType_default (L "/m") (L "localhost") 8126
    _ _ _ _ _))); done.
Defined.

(** Both modes can be given; the server wins.  And a negative interval becomes a
    huge one. *)
Example two_modes :
  (let! c := metricsParser (L "metrics-mode") (L "file:///m") MetricsConfigType_default in
   let! c := metricsParser (L "metrics-mode") (L "udp://localhost") c in fromConfig c) =
  Ok (MkStatsDPublisher UDP (L "localhost") 8125).
Proof. by vm_compute. Qed.

Example negative_interval :
  metricsParser (L "metrics-publish-interval") (L "-1") MetricsConfigType_default =
  Ok (MkMetricsConfig [] [] false (2 ^ 64 - 1)).
Proof. by vm_compute. Qed.

(** ** Publishing *)

Section publishing.
Context {W : Type} (I : MapIteration) (sys : PublishCalls (W := W)).

(** The text of everything collected, in the order of the value types. *)
Definition gathered (f : MetricCollectorFactory) : option (list str) :=
  gauges ← mapM (fun e => gmv_toStatsD e.1 e.2) (um_iter (gauge_collector f));
  Some (map (fun e => cmv_toStatsD e.1 e.2) (um_iter (counting_collector f)) ++
        map (fun e => dmv_toStatsD e.1 e.2) (duration_collector f) ++
        map (fun e => tmv_toStatsD e.1 e.2) (um_iter (total_collector f)) ++ gauges).

(** Nothing is left but distributions. *)
Definition emptied (f : MetricCollectorFactory) : MetricCollectorFactory :=
  MkFactory (d_metricsEnabled f) ∅ [] ∅ ∅ (distribution_collector f).

Lemma mapM_Some_map {A B} (f : A -> B) l : mapM (fun a => Some (f a)) l = Some (map f l).
Proof. induction l as [|a l IH]; [done|]. cbn. by rewrite IH. Qed.

Lemma gather_all f (w : W) texts :
  gathered f = Some texts ->
  gatherStatsDFromNextCollectors publisherTypeOfAllValueTypes (f, w) =
  Some (Ok texts, (emptied f, w)).
Proof.
  unfold gathered. destruct (mapM _ (um_iter (gauge_collector f))) as [gauges|] eqn:Eg; [|done].
  intros [= <-]. unfold publisherTypeOfAllValueTypes. cbn [gatherStatsDFromNextCollectors].
  unfold ubind, gatherStatsDFromValueTypeCollector.
  cbn [any_class any_type getSnapshot getCollector Counting Duration TotalDuration Gauge
       snapshot_entries toStatsD setCollector aggregating_getSnapshot listing_getSnapshot].
  rewrite !mapM_Some_map. cbn [mbind option_bind]. cbn [gauge_collector total_collector duration_collector
    counting_collector setCollector Counting Duration TotalDuration].
  rewrite !mapM_Some_map. cbn [mbind option_bind]. cbn [gauge_collector total_collector duration_collector
    counting_collector setCollector Counting Duration TotalDuration].
  rewrite mapM_Some_map. cbn. rewrite Eg. cbn. unfold uret. by rewrite app_nil_r.
Qed.

Lemma for_each_outside {A} (g : A -> W -> W) l f w :
  for_each (fun a => outside (g a)) l (f, w) =
  Some (Ok tt, (f, foldl (fun w a => g a w) w l)).
Proof. revert w. induction l as [|a l IH]; intros w; [done|]. cbn. by apply IH. Qed.

(** [publish] empties the four collectors it knows, and writes every text that was
    gathered, with a line feed, once and in order, to the standard error after a
    header, to the end of the file, or as one datagram each to the server; then the
    socket is closed.  When the file does not open, the host is not found or there
    is no socket, it throws, and what was gathered is lost. *)
Theorem publish_outcome (f : MetricCollectorFactory) (w : W) (texts : list str) (path : str)
    (port : Z) (Htexts : gathered f = Some texts) :
  let run method := publish sys publisherTypeOfAllValueTypes (MkStatsDPublisher method path port) (f, w) in
  let line t := t ++ [newline] in
  (forall now w1, local_time sys w = (now, w1) ->
     run StdErr = Some (Ok tt, (emptied f,
       foldl (fun w t => stderr_write sys (line t) w)
         (stderr_write sys (now ++ L " buildbox Metrics:" ++ [newline]) w1) texts))) /\
  (forall good w1, of_open sys path w = (good, w1) ->
     run ToFile =
       if (good : bool)
       then Some (Ok tt, (emptied f, foldl (fun w t => of_append sys path (line t) w) w1 texts))
       else Some (Throw RuntimeError, (emptied f, w1))) /\
  (forall found w1, getaddrinfo sys (c_str path) (to_string port) w = (found, w1) ->
     match found with
     | inl _ => run UDP = Some (Throw RuntimeError, (emptied f, w1))
     | inr address =>
         forall fd w2, sys_socket sys w1 = (fd, w2) ->
         run UDP =
           if fd <? 0 then Some (Throw RuntimeError, (emptied f, w2))
           else
             let w3 := foldl (fun w t => sys_sendto sys fd (line t) address w) w2 texts in
             Some (Ok tt, (emptied f, if fd =? 0 then w3 else udp_close sys fd w3))
     end).
Proof.
  intros run line.
  assert (forall method, run method = match method with
    | StdErr => let+ now := ask_outside (local_time sys) in
        let+ _ := outside (stderr_write sys (now ++ L " buildbox Metrics:" ++ [newline])) in
        for_each (fun metric => outside (stderr_write sys (metric ++ [newline]))) texts
    | ToFile => let+ _ := FileWriter_new sys path in
        for_each (fun metric => FileWriter_write sys path (metric ++ [newline])) texts
    | UDP => let+ udpWriter := UDPWriter_new sys port path in
        let+ _ := for_each (fun metric => UDPWriter_write sys udpWriter (metric ++ [newline])) texts in
        UDPWriter_delete sys udpWriter
    end (emptied f, w)) as Hrun.
  { intros method. unfold run, publish. unfold ubind at 1. rewrite (gather_all f w texts Htexts).
    by destruct method. }
  split; [|split].
  - intros now w1 E. rewrite Hrun. unfold ubind, ask_outside. rewrite E. cbn [outside].
    by rewrite for_each_outside.
  - intros good w1 E. rewrite Hrun. unfold FileWriter_new, ubind, ask_outside. cbv beta iota. rewrite E.
    destruct good; [|done]. unfold uret, FileWriter_write. by rewrite for_each_outside.
  - intros found w1 E. rewrite !Hrun. unfold UDPWriter_new, ubind, ask_outside. cbv beta iota. rewrite E.
    destruct found as [code|address]; [done|]. intros fd w2 Es. rewrite Es.
    destruct (fd <? 0); [done|]. unfold uret, UDPWriter_write, UDPWriter_delete.
    cbn [d_sockfd d_server_address]. rewrite for_each_outside. by destruct (fd =? 0).
Qed.
End publishing.

(** What is recorded as a distribution is never part of it. *)
Lemma distributions_not_published (I : MapIteration) (f : MetricCollectorFactory) name v f' :
  factory_store (W := unit) name v None (f, tt) = Some (Ok tt, (f', tt)) ->
  gathered I f' = gathered I f /\
  distribution_collector (emptied f') =
    distribution_collector f ++ (if d_metricsEnabled f then [(name, v)] else []).
Proof.
  unfold factory_store. destruct (d_metricsEnabled f); cbn.
  - by intros [= <-].
  - intros [= <-]. by rewrite app_nil_r.
Qed.

(** ** An example: a file *)

Definition toy_publish_calls : PublishCalls (W := str) := {|
  stderr_write t w := w ++ t;
  local_time w := (L "now", w);
  of_open path w := (bool_decide (path = L "/m"), w);
  of_append _ t w := w ++ t;
  getaddrinfo _ _ w := (inl 1, w);
  sys_socket w := (3, w);
  sys_sendto _ t _ w := w ++ t;
  udp_close _ w := w |}.

Definition toy_order : MapIteration :=
  {| um_iter K E C V m := map_to_list m; um_iter_perm K E C V m := reflexivity _ |}.

Definition toy_factory : MetricCollectorFactory :=
  MkFactory true {[ L "c" := MkCountingMetricValue 2 ]} [(L "d", MkDurationMetricValue 1500)] ∅
    {[ L "g" := MkGaugeMetricValue (-1) true ]} [].

Lemma publish_outcome_witness :
  publish (H := toy_order) toy_publish_calls publisherTypeOfAllValueTypes
    (MkStatsDPublisher ToFile (L "/m") 0) (toy_factory, L "old;") =
  Some (Ok tt, (emptied toy_factory,
    L "old;c:2|c" ++ [newline] ++ L "d:1|ms" ++ [newline] ++ L "g:-1|g" ++ [newline])).
Proof.
  refine (eq_trans (proj1 (proj2 (publish_outcome toy_order toy_publish_calls toy_factory (L "old;")
    [L "c:2|c"; L "d:1|ms"; L "g:-1|g"] (L "/m") 0 _)) true (L "old;") _) _);
    vm_compute; reflexivity.
Defined.
