(* ===== verification/MetricsDaemon.v ===== *)
(** * The daemon that publishes metrics

    [scopedperiodicpublisherdaemon.h]: a thread that publishes whenever an interval
    has passed, until the destructor stops it and publishes once more.  The threads
    are the publisher thread, the one that owns the daemon, and any others, which
    record values.  An interleaving is a list of labels; a thread that cannot move
    (a mutex is held, a thread to join is running) has no step.

    [publish] is the snapshot of what was collected and then the writing of it, as
    in [MetricsPublish]; what is collected is a list of values.  It may throw when
    it has written some of them or none (a file that cannot be opened, a host that
    is not found).  Nothing catches that: it leaves the function of the thread, or
    the destructor, which is [noexcept], and [std::terminate] ends the process. *)

From S2P Require Import Prelude.

Section daemon.
Context {V : Type}.

Inductive owner := ByPublisher | ByMain.

(** Where the publisher thread is in [run]. *)
Inductive publisher_pc :=
  | PNone                          (* not started: the daemon is disabled *)
  | PLock                          (* about to lock [d_shutDownMutex] *)
  | PTest                          (* [wait_for] evaluates its predicate *)
  | PWait                          (* waiting, the mutex released *)
  | PRelock (timed_out : bool)     (* woken up, about to lock again *)
  | PWoken (timed_out : bool)      (* evaluates the predicate again *)
  | PSnapshot                      (* [publish], holding the mutex *)
  | PWrite
  | PDone.

(** Where the owner is: using the daemon, or in its destructor. *)
Inductive main_pc :=
  | MUse
  | MLock
  | MSet
  | MNotify
  | MJoin
  | MSnapshot
  | MWrite
  | MDone.

Record Daemon := MkDaemon {
  dm_enabled : bool;
  dm_shutDown : bool;
  dm_mutex : option owner;
  dm_publisher : publisher_pc;
  dm_main : main_pc;
  (** What the collectors hold, what a [publish] took and has not written, what was
      written. *)
  dm_collected : list V;
  dm_pending : list V;
  dm_published : list V;
  (** Every value that was recorded, for the theorems. *)
  dm_recorded : list V;
  (** [std::terminate] was called. *)
  dm_terminated : bool;
}.

(** The constructor starts the thread when the daemon is enabled. *)
Definition Daemon_new (enabled : bool) : Daemon :=
  MkDaemon enabled false None (if enabled then PLock else PNone) MUse [] [] [] [] false.

Definition set_publisher (pc : publisher_pc) (mutex : option owner) (s : Daemon) : Daemon :=
  MkDaemon (dm_enabled s) (dm_shutDown s) mutex pc (dm_main s) (dm_collected s)
    (dm_pending s) (dm_published s) (dm_recorded s) (dm_terminated s).

Definition set_main (pc : main_pc) (mutex : option owner) (s : Daemon) : Daemon :=
  MkDaemon (dm_enabled s) (dm_shutDown s) mutex (dm_publisher s) pc (dm_collected s)
    (dm_pending s) (dm_published s) (dm_recorded s) (dm_terminated s).

Definition set_shutDown (s : Daemon) : Daemon :=
  MkDaemon (dm_enabled s) true (dm_mutex s) (dm_publisher s) (dm_main s) (dm_collected s)
    (dm_pending s) (dm_published s) (dm_recorded s) (dm_terminated s).

(** A value is stored into a collector. *)
Definition record_value (v : V) (s : Daemon) : Daemon :=
  MkDaemon (dm_enabled s) (dm_shutDown s) (dm_mutex s) (dm_publisher s) (dm_main s)
    (dm_collected s ++ [v]) (dm_pending s) (dm_published s) (dm_recorded s ++ [v]) (dm_terminated s).

(** The two halves of [publish]. *)
Definition take_snapshot (s : Daemon) : Daemon :=
  MkDaemon (dm_enabled s) (dm_shutDown s) (dm_mutex s) (dm_publisher s) (dm_main s)
    [] (dm_collected s) (dm_published s) (dm_recorded s) (dm_terminated s).
Definition write_snapshot (s : Daemon) : Daemon :=
  MkDaemon (dm_enabled s) (dm_shutDown s) (dm_mutex s) (dm_publisher s) (dm_main s)
    (dm_collected s) [] (dm_published s ++ dm_pending s) (dm_recorded s)
    (dm_terminated s).

(** [publish] throws after it has written [k] values: the process is at its end. *)
Definition throw_after (k : nat) (s : Daemon) : Daemon :=
  MkDaemon (dm_enabled s) (dm_shutDown s) (dm_mutex s) (dm_publisher s) (dm_main s)
    (dm_collected s) (drop k (dm_pending s)) (dm_published s ++ take k (dm_pending s))
    (dm_recorded s) true.

(** One step of [run].  [timed_out] is why a wait ends: the interval has passed, or
    not (a notification, or for no reason); [throws] is how a [publish] ends: it
    returns, or throws after so many values. *)
Definition publisher_step (timed_out : bool) (throws : option nat) (s : Daemon) : option Daemon :=
  match dm_publisher s with
  | PNone | PDone => None
  | PLock =>
      match dm_mutex s with
      | None => Some (set_publisher PTest (Some ByPublisher) s)
      | Some _ => None
      end
  | PTest =>
      if dm_shutDown s then Some (set_publisher PDone None s)
      else Some (set_publisher PWait None s)
  | PWait => Some (set_publisher (PRelock timed_out) (dm_mutex s) s)
  | PRelock timed_out =>
      match dm_mutex s with
      | None => Some (set_publisher (PWoken timed_out) (Some ByPublisher) s)
      | Some _ => None
      end
  | PWoken timed_out =>
      if dm_shutDown s then Some (set_publisher PDone None s)
      else if timed_out then Some (set_publisher PSnapshot (dm_mutex s) s)
      else Some (set_publisher PWait None s)
  | PSnapshot => Some (set_publisher PWrite (dm_mutex s) (take_snapshot s))
  | PWrite =>
      match throws with
      | None => Some (set_publisher PLock None (write_snapshot s))
      | Some k => Some (throw_after k s)
      end
  end.

(** One step of the destructor. *)
Definition main_step (throws : option nat) (s : Daemon) : option Daemon :=
  match dm_main s with
  | MUse =>
      if negb (dm_enabled s) then Some (set_main MDone (dm_mutex s) s)
      else Some (set_main MLock (dm_mutex s) s)
  | MLock =>
      match dm_mutex s with
      | None => Some (set_main MSet (Some ByMain) s)
      | Some _ => None
      end
  | MSet => Some (set_main MNotify None (set_shutDown s))
  | MNotify =>
      let s := set_main MJoin (dm_mutex s) s in
      Some (match dm_publisher s with
            | PWait => set_publisher (PRelock false) (dm_mutex s) s
            | _ => s
            end)
  | MJoin =>
      match dm_publisher s with
      | PDone => Some (set_main MSnapshot (dm_mutex s) s)
      | _ => None
      end
  | MSnapshot => Some (set_main MWrite (dm_mutex s) (take_snapshot s))
  | MWrite =>
      match throws with
      | None => Some (set_main MDone (dm_mutex s) (write_snapshot s))
      | Some k => Some (throw_after k s)
      end
  | MDone => None
  end.

(** ** Interleavings *)

Inductive label :=
  | Records (v : V)
  | Publisher (timed_out : bool) (throws : option nat)
  | Main (throws : option nat).

(** A process that was terminated does nothing more. *)
Definition daemon_step (l : label) (s : Daemon) : option Daemon :=
  if dm_terminated s then None
  else
    match l with
    | Records v => Some (record_value v s)
    | Publisher timed_out throws => publisher_step timed_out throws s
    | Main throws => main_step throws s
    end.

Fixpoint daemon_run (labels : list label) (s : Daemon) : option Daemon :=
  match labels with
  | [] => Some s
  | l :: labels => s ← daemon_step l s; daemon_run labels s
  end.
End daemon.
Arguments Daemon : clear implicits.
Arguments label : clear implicits.
