(* ===== verification/MetricsDaemonSpec.v ===== *)
(** * Properties of the daemon that publishes metrics

    Nothing recorded is published twice, or lost but by a publication that throws
    (which terminates the process); the two threads never publish at the same time;
    and in every fair run the destructor comes to its end.  [classic] is used for
    runs without an end. *)

From Stdlib Require Import Classical_Prop.
From S2P Require Import Prelude MetricsDaemon.

Section daemon.
Context {V : Type}.
Implicit Types (s : Daemon V) (labels : list (label V)).

(** The publisher holds the mutex. *)
Definition publisher_holds (pc : publisher_pc) : bool :=
  match pc with PTest | PWoken _ | PSnapshot | PWrite => true | _ => false end.

Definition main_holds (pc : main_pc) : bool := match pc with MSet => true | _ => false end.

(** How far the owner has come. *)
Definition stage (pc : main_pc) : nat :=
  match pc with
  | MUse => 0 | MLock => 1 | MSet => 2 | MNotify => 3 | MJoin => 4 | MSnapshot => 5
  | MWrite => 6 | MDone => 7
  end.

#[local] Instance publisher_pc_eq_dec : EqDecision publisher_pc.
Proof. solve_decision. Defined.
#[local] Instance main_pc_eq_dec : EqDecision main_pc.
Proof. solve_decision. Defined.

Record daemon_ok s : Prop := {
  ok_values : dm_recorded s = dm_published s ++ dm_pending s ++ dm_collected s;
  ok_mutex : dm_mutex s =
    if publisher_holds (dm_publisher s) then Some ByPublisher
    else if main_holds (dm_main s) then Some ByMain else None;
  ok_one_holder : publisher_holds (dm_publisher s) && main_holds (dm_main s) = false;
  ok_disabled : dm_enabled s = false ->
    dm_publisher s = PNone /\ (dm_main s = MUse \/ dm_main s = MDone);
  ok_enabled : dm_enabled s = true -> dm_publisher s <> PNone;
  ok_shutDown : dm_shutDown s = (3 <=? stage (dm_main s)) && dm_enabled s;
  ok_joining : dm_main s = MJoin -> dm_publisher s <> PWait;
  ok_joined : dm_enabled s = true -> 5 <= stage (dm_main s) -> dm_publisher s = PDone;
  ok_publisher_done : dm_publisher s = PDone -> dm_shutDown s = true;
  ok_after_shutDown : dm_shutDown s = true ->
    dm_publisher s <> PSnapshot /\ dm_publisher s <> PWrite;
  ok_pending : dm_pending s <> [] -> dm_publisher s = PWrite \/ dm_main s = MWrite;
  ok_terminated : dm_terminated s = true -> dm_publisher s = PWrite \/ dm_main s = MWrite;
}.

Lemma daemon_new_ok enabled : daemon_ok (Daemon_new enabled).
Proof. destruct enabled; by constructor; cbn; try (intros; by auto); lia. Qed.

(** A [publish] that throws: what it has not written is still what it took. *)
Lemma throw_after_ok k s :
  daemon_ok s -> dm_publisher s = PWrite \/ dm_main s = MWrite -> daemon_ok (throw_after k s).
Proof.
  intros [] Hw. constructor; try done. cbn. rewrite ok_values0.
  rewrite <- (take_drop k (dm_pending s)) at 1. by rewrite <- !app_assoc.
Qed.

Lemma record_value_ok v s : daemon_ok s -> daemon_ok (record_value v s).
Proof.
  intros []. constructor; try done. cbn. rewrite ok_values0. by rewrite <- !app_assoc.
Qed.

(** Open a state and its invariant. *)
Ltac open_daemon s Hs :=
  destruct s as [enabled shutdown mutex pub main collected pending published recorded terminated];
  destruct Hs as [Hv Hm H1 Hd He Hsd Hj Hjd Hpd Has Hp Ht]; cbn in *.

(** Each clause of the invariant after a step, by the position of the other thread. *)
Ltac daemon_clause :=
  intros; cbn in *; simplify_eq;
  try done; try lia; try (by auto);
  rewrite ?andb_true_r, ?andb_false_r in *;
  naive_solver (congruence || lia || done).

(** Nobody but the thread that writes has a snapshot. *)
Lemma pending_nil s :
  daemon_ok s -> dm_publisher s <> PWrite -> dm_main s <> MWrite -> dm_pending s = [].
Proof.
  intros Hs Hp Hm. destruct (dm_pending s) eqn:E; [done|].
  destruct (ok_pending s Hs) as [?|?]; [by rewrite E|done..].
Qed.

Lemma publisher_not_joined s pc :
  daemon_ok s -> dm_publisher s = pc -> pc <> PNone -> pc <> PDone -> stage (dm_main s) < 5.
Proof.
  intros Hs E H1 H2. destruct (dm_enabled s) eqn:Ee.
  - destruct (Nat.lt_ge_cases (stage (dm_main s)) 5) as [|H]; [done|].
    pose proof (ok_joined s Hs Ee H). congruence.
  - destruct (ok_disabled s Hs Ee). congruence.
Qed.

Lemma publisher_step_ok t f s s' :
  daemon_ok s -> dm_terminated s = false -> publisher_step t f s = Some s' -> daemon_ok s'.
Proof.
  intros Hs Hnt E. pose proof (pending_nil s Hs) as Hnil. pose proof (publisher_not_joined s) as Hjoin.
  specialize (Hjoin _ Hs eq_refl). unfold publisher_step in E.
  destruct (decide (dm_publisher s = PWrite /\ f <> None)) as [[Hw Hf]|Hnf].
  { rewrite Hw in E. destruct f as [k|]; [|done]. injection E as <-. apply throw_after_ok; auto. }
  open_daemon s Hs. subst terminated.
  destruct pub; cbn in *; try done;
    repeat (bb_case_in E; try done); try (by destruct Hnf); injection E as <-;
    (constructor; [|destruct main; daemon_clause..]); cbn; rewrite ?app_nil_r; try done.
  - assert (pending = []) as -> by (apply Hnil; [done|]; intros ->; specialize (Hjoin ltac:(done) ltac:(done)); cbn in *; lia).
    done.
  - by rewrite <- app_assoc.
Qed.

Lemma main_step_ok f s s' :
  daemon_ok s -> dm_terminated s = false -> main_step f s = Some s' -> daemon_ok s'.
Proof.
  intros Hs Hnt E. pose proof (pending_nil s Hs) as Hnil. unfold main_step in E.
  destruct (decide (dm_main s = MWrite /\ f <> None)) as [[Hw Hf]|Hnf].
  { rewrite Hw in E. destruct f as [k|]; [|done]. injection E as <-. apply throw_after_ok; auto. }
  open_daemon s Hs. subst terminated.
  destruct enabled, main; cbn in *; try done; try (by destruct Hd as [_ []]);
    repeat (bb_case_in E; try done); try (by destruct Hnf); injection E as <-;
    (constructor; [|destruct pub; daemon_clause..]); cbn; rewrite ?app_nil_r; try done.
  - assert (pending = []) as -> by (apply Hnil; [rewrite Hjd; [done..|lia]|done]). done.
  - by rewrite <- app_assoc.
Qed.

(** A step is one of a process that lives. *)
Lemma step_alive l s s' : daemon_step l s = Some s' -> dm_terminated s = false.
Proof. unfold daemon_step. by destruct (dm_terminated s). Qed.

Lemma daemon_step_ok l s s' : daemon_ok s -> daemon_step l s = Some s' -> daemon_ok s'.
Proof.
  intros Hs E. pose proof (step_alive _ _ _ E) as Ht. unfold daemon_step in E. rewrite Ht in E.
  destruct l.
  - injection E as <-. by apply record_value_ok.
  - by eapply publisher_step_ok.
  - by eapply main_step_ok.
Qed.

Lemma daemon_run_inv (P : Daemon V -> Prop) labels s s' :
  (forall l s s', P s -> daemon_step l s = Some s' -> P s') ->
  P s -> daemon_run labels s = Some s' -> P s'.
Proof.
  intros Hstep. revert s. induction labels as [|l labels IH]; intros s Hs E; cbn in E.
  - by injection E as <-.
  - destruct (daemon_step l s) as [s1|] eqn:E1; [|done]. cbn in E. eauto.
Qed.

Lemma daemon_run_ok labels s s' : daemon_ok s -> daemon_run labels s = Some s' -> daemon_ok s'.
Proof. apply daemon_run_inv. intros l s1 s2. apply daemon_step_ok. Qed.

Definition reachable (enabled : bool) s : Prop :=
  exists labels, daemon_run labels (Daemon_new enabled) = Some s.

Lemma reachable_ok enabled s : reachable enabled s -> daemon_ok s.
Proof. intros [labels E]. by eapply daemon_run_ok; [apply daemon_new_ok|]. Qed.

(** Whether the daemon is enabled does not change. *)
Lemma daemon_step_enabled l s s' : daemon_step l s = Some s' -> dm_enabled s' = dm_enabled s.
Proof.
  unfold daemon_step, publisher_step, main_step.
  destruct (dm_terminated s); [done|]. destruct l as [v|t f|f]; [by intros [= <-]|..]; intros E;
    repeat (bb_case_in E; try done); by injection E as <-.
Qed.

Lemma reachable_enabled enabled s : reachable enabled s -> dm_enabled s = enabled.
Proof.
  intros [labels E]. apply (daemon_run_inv (fun s => dm_enabled s = enabled) labels _ _) in E;
    [done| |by destruct enabled].
  intros l s1 s2 H E1. by rewrite (daemon_step_enabled l s1 s2 E1).
Qed.

(** The publisher moves neither the owner nor what was recorded. *)
Lemma publisher_keeps t f s s' :
  publisher_step t f s = Some s' -> dm_main s' = dm_main s /\ dm_recorded s' = dm_recorded s.
Proof. unfold publisher_step. intros E. repeat (bb_case_in E; try done); by injection E as <-. Qed.

(** What has been recorded before the destructor's snapshot will be among what is
    published in the end. *)
Definition will_publish (values : list V) s : Prop :=
  daemon_ok s /\ dm_enabled s = true /\
  match dm_main s with
  | MWrite => values `prefix_of` dm_published s ++ dm_pending s
  | MDone => values `prefix_of` dm_published s
  | _ => values `prefix_of` dm_recorded s
  end.

Lemma will_publish_step values l s s' :
  will_publish values s -> daemon_step l s = Some s' -> will_publish values s'.
Proof.
  intros (Hs & He & Hv) E. split; [by eapply daemon_step_ok|].
  split; [by rewrite (daemon_step_enabled _ _ _ E)|].
  pose proof (step_alive _ _ _ E) as Ht. unfold daemon_step in E. rewrite Ht in E.
  destruct l as [v|t f|f].
  - injection E as <-. cbn. destruct (dm_main s); try done; by apply prefix_app_r.
  - destruct (decide (5 <= stage (dm_main s))) as [H5|H5].
    + assert (dm_publisher s = PDone) as Hd by by apply (ok_joined s Hs He).
      unfold publisher_step in E. by rewrite Hd in E.
    + destruct (publisher_keeps _ _ _ _ E) as [-> ->].
      destruct (dm_main s); cbn in H5; try done; lia.
  - unfold main_step in E. destruct (dm_main s) eqn:Em; try done; try (by injection E as <-).
    + destruct (negb (dm_enabled s)) eqn:Hn; [by rewrite He in Hn|by injection E as <-].
    + destruct (dm_mutex s); [done|]. by injection E as <-.
    + injection E as <-. by destruct (dm_publisher s).
    + destruct (dm_publisher s); try done. by injection E as <-.
    + injection E as <-. cbn. rewrite (ok_values s Hs), (pending_nil s Hs) in Hv; [done| |congruence].
      rewrite (ok_joined s Hs He); [done|]. rewrite Em. cbn. lia.
    + destruct f as [k|]; injection E as <-; [|done]. cbn. rewrite Em.
      by rewrite <- app_assoc, take_drop.
Qed.

(** What is at risk when a publication throws. *)
Definition unpublished s : list V := dm_pending s ++ dm_collected s.


(** ** The destructor ends *)

(** How many steps the publisher thread has left after it was asked to stop. *)
Definition steps_left (pc : publisher_pc) : nat :=
  match pc with
  | PNone | PDone => 0
  | PTest | PWoken _ => 1
  | PLock | PRelock _ => 2
  | PWait => 3
  | PSnapshot | PWrite => 0
  end.

Definition weight s : nat :=
  if dm_terminated s then 0 else steps_left (dm_publisher s) + (7 - stage (dm_main s)).

Definition moves (l : label V) : bool := match l with Records _ => false | _ => true end.

(** What decides whether a thread can move. *)
Definition control s := (dm_publisher s, dm_main s, dm_mutex s, dm_shutDown s, dm_enabled s).

Lemma records_control l s s' :
  moves l = false -> daemon_step l s = Some s' -> control s' = control s.
Proof.
  destruct l; [|done..]. intros _. unfold daemon_step. destruct (dm_terminated s); [done|].
  by intros [= <-].
Qed.

Lemma daemon_run_app l1 l2 s s1 :
  daemon_run l1 s = Some s1 -> daemon_run (l1 ++ l2) s = daemon_run l2 s1.
Proof.
  revert s. induction l1 as [|l l1 IH]; intros s E; cbn in *; [by injection E as ->|].
  destruct (daemon_step l s); [by apply IH|done].
Qed.

Lemma shutDown_stage s : daemon_ok s -> dm_shutDown s = true -> 3 <= stage (dm_main s).
Proof.
  intros Hs Hd. pose proof (ok_shutDown s Hs) as Hsd. rewrite Hd in Hsd. symmetry in Hsd.
  apply andb_true_iff in Hsd as [Hstage _]. by apply Nat.leb_le in Hstage.
Qed.

Lemma shutDown_step l s s' :
  daemon_ok s -> dm_shutDown s = true -> daemon_step l s = Some s' ->
  dm_shutDown s' = true /\ (if moves l then weight s' < weight s else weight s' = weight s).
Proof.
  intros Hs Hd E. pose proof (step_alive _ _ _ E) as Ht. unfold daemon_step in E. rewrite Ht in E.
  pose proof (shutDown_stage s Hs Hd) as Hstage. unfold weight. rewrite Ht.
  destruct l as [v|t f|f].
  - injection E as <-. cbn. by rewrite Ht.
  - destruct (ok_after_shutDown s Hs Hd) as [H1 H2]. unfold publisher_step in E.
    destruct (dm_publisher s) eqn:Ep; try done; rewrite ?Hd in E;
      repeat (bb_case_in E; try done); injection E as <-; cbn;
      rewrite Ht; cbn; split; (done || lia).
  - unfold main_step in E. destruct (dm_main s) eqn:Em; cbn in Hstage; try lia; try done.
    + injection E as <-. destruct (dm_publisher s) eqn:Ep; cbn; rewrite ?Ht, ?Ep; cbn;
        (split; [done|lia]).
    + destruct (dm_publisher s) eqn:Ep; try done. injection E as <-.
      cbn; rewrite ?Ht, ?Ep; cbn; split; [done|lia].
    + injection E as <-. cbn; rewrite Ht; cbn; split; [done|lia].
    + destruct f; injection E as <-; cbn; rewrite ?Ht; split; (done || lia).
Qed.

Lemma weight_bound s : daemon_ok s -> dm_shutDown s = true -> weight s <= 7.
Proof.
  intros Hs Hd. pose proof (shutDown_stage s Hs Hd). unfold weight.
  destruct (dm_terminated s); [lia|]. destruct (dm_publisher s); cbn; lia.
Qed.

Lemma shutDown_run labels s s' :
  daemon_ok s -> dm_shutDown s = true -> daemon_run labels s = Some s' ->
  length (filter (fun l => moves l = true) labels) + weight s' <= weight s.
Proof.
  revert s. induction labels as [|l labels IH]; intros s Hs Hd E; cbn in E.
  - injection E as <-. cbn. lia.
  - destruct (daemon_step l s) as [s1|] eqn:E1; [|done]. cbn in E.
    destruct (shutDown_step l s s1 Hs Hd E1) as [Hd1 Hw].
    specialize (IH s1 (daemon_step_ok _ _ _ Hs E1) Hd1 E). rewrite filter_cons.
    destruct (moves l); [rewrite decide_True by done|rewrite decide_False by done]; cbn; lia.
Qed.

(** Can a thread move, in a process that lives? *)
Definition publisher_can s : bool :=
  match dm_publisher s with
  | PNone | PDone => false
  | PLock | PRelock _ => bool_decide (dm_mutex s = None)
  | _ => true
  end.
Definition main_can s : bool :=
  match dm_main s with
  | MLock => bool_decide (dm_mutex s = None)
  | MJoin => bool_decide (dm_publisher s = PDone)
  | MDone => false
  | _ => true
  end.

Lemma publisher_can_step t f s :
  dm_terminated s = false -> publisher_can s = true <-> is_Some (daemon_step (Publisher t f) s).
Proof.
  intros Ht. unfold daemon_step, publisher_can, publisher_step. rewrite Ht.
  destruct (dm_publisher s), (dm_mutex s), (dm_shutDown s), f; cbn;
    repeat case_match; split; try done; by intros [? ?].
Qed.

Lemma main_can_step f s :
  dm_terminated s = false -> main_can s = true <-> is_Some (daemon_step (Main f) s).
Proof.
  intros Ht. unfold daemon_step, main_can, main_step. rewrite Ht.
  destruct (dm_main s), (dm_mutex s), (dm_enabled s), f; cbn;
    destruct (dm_publisher s); cbn; split; try done; by intros [? ?].
Qed.

(** As long as the destructor is not done, one of the two threads can move. *)
Lemma daemon_progress s :
  daemon_ok s -> dm_enabled s = true -> 1 <= stage (dm_main s) < 7 ->
  publisher_can s = true \/ main_can s = true.
Proof.
  intros Hs He Hm. pose proof (ok_mutex s Hs) as Hmutex. pose proof (ok_enabled s Hs He) as Hn.
  unfold publisher_can, main_can. rewrite Hmutex.
  destruct (dm_main s) eqn:Em, (dm_publisher s); cbn in *; try lia; auto.
Qed.

(** ** Fair schedules *)

Definition of_publisher (l : label V) : bool := match l with Publisher _ _ => true | _ => false end.
Definition of_main (l : label V) : bool := match l with Main _ => true | _ => false end.

(** A run without an end, [st] its states: the publisher thread, once it can move,
    moves later or is stopped from moving; and the owner, if it can move again and
    again (the mutex is free again and again), moves. *)
Record fair_run s (schedule : nat -> label V) (st : nat -> Daemon V) : Prop := {
  run_start : st 0 = s;
  run_step : forall n, daemon_step (schedule n) (st n) = Some (st (S n));
  publisher_fair : forall n, publisher_can (st n) = true ->
    exists m, n <= m /\ (of_publisher (schedule m) = true \/ publisher_can (st m) = false);
  main_fair : forall n, (forall m, n <= m -> exists k, m <= k /\ main_can (st k) = true) ->
    exists k, n <= k /\ of_main (schedule k) = true;
}.

Section fair.
Context {s : Daemon V} {schedule : nat -> label V} {st : nat -> Daemon V}.
Context (Hs : reachable true s) (Hrun : fair_run s schedule st).

Lemma run_reachable n : reachable true (st n).
Proof.
  induction n as [|n [labels E]]; [by rewrite (run_start _ _ _ Hrun)|].
  exists (labels ++ [schedule n]). erewrite daemon_run_app by exact E. cbn.
  by rewrite (run_step _ _ _ Hrun).
Qed.

Lemma run_alive n : dm_terminated (st n) = false.
Proof. eapply step_alive, (run_step _ _ _ Hrun). Qed.

Lemma run_ok n : daemon_ok (st n).
Proof. eapply reachable_ok, run_reachable. Qed.

Lemma run_enabled n : dm_enabled (st n) = true.
Proof. apply reachable_enabled, run_reachable. Qed.

(** Nobody moves for a while, or somebody does, for the first time. *)
Lemma quiet_until n d :
  control (st (n + d)) = control (st n) \/
  exists j, n <= j /\ moves (schedule j) = true /\ control (st j) = control (st n).
Proof.
  induction d as [|d [IH|?]]; [left; by rewrite Nat.add_0_r| |by right].
  destruct (moves (schedule (n + d))) eqn:E; [right; exists (n + d); split; [lia|done]|].
  left. rewrite Nat.add_succ_r, <- IH. eapply records_control; [exact E|]. apply (run_step _ _ _ Hrun).
Qed.

Lemma control_can s1 s2 :
  control s1 = control s2 -> publisher_can s1 = publisher_can s2 /\ main_can s1 = main_can s2.
Proof. intros [= H1 H2 H3 H4 H5]. unfold publisher_can, main_can. by rewrite H1, H2, H3. Qed.

(** When a thread can move, one of the two will. *)
Lemma moves_later n :
  publisher_can (st n) = true \/ main_can (st n) = true ->
  exists j, n <= j /\ moves (schedule j) = true /\ control (st j) = control (st n).
Proof.
  intros [Hc|Hc].
  - destruct (publisher_fair _ _ _ Hrun n Hc) as (m & Hm & Ht).
    destruct (quiet_until n (m - n)) as [E|?]; [|done]. replace (n + (m - n)) with m in E by lia.
    exists m. split; [done|]. split; [|done]. destruct Ht as [Ht|Ht]; [by destruct (schedule m)|].
    destruct (control_can _ _ E). congruence.
  - apply NNPP. intros Hno. destruct (main_fair _ _ _ Hrun n) as (k & Hk & Ht).
    + intros m Hm. exists m. split; [done|].
      destruct (quiet_until n (m - n)) as [E|?]; [|done]. replace (n + (m - n)) with m in E by lia.
      destruct (control_can _ _ E). congruence.
    + apply Hno. exists k. destruct (quiet_until n (k - n)) as [E|?]; [|done].
      replace (n + (k - n)) with k in E by lia. split; [done|]. split; [by destruct (schedule k)|done].
Qed.

(** Once the thread was asked to stop, the end comes. *)
Lemma stops_after_shutDown n : dm_shutDown (st n) = true -> exists m, dm_main (st m) = MDone.
Proof.
  remember (weight (st n)) as w eqn:Hw. revert n Hw.
  induction w as [w IH] using lt_wf_ind. intros n Hw Hd.
  pose proof (shutDown_stage _ (run_ok n) Hd) as Hstage.
  destruct (decide (stage (dm_main (st n)) = 7)) as [H7|H7].
  { exists n. destruct (dm_main (st n)); by cbn in H7. }
  destruct (moves_later n) as (j & Hj & Hmove & E).
  { apply daemon_progress; [apply run_ok|apply run_enabled|]. destruct (dm_main (st n)); cbn in *; lia. }
  assert (weight (st j) = weight (st n)) as Ewj.
  { unfold weight. rewrite !run_alive. injection E as E1 E2 _ _ _. by rewrite E1, E2. }
  assert (dm_shutDown (st j) = true) as Hdj by (injection E as _ _ _ E4 _; congruence).
  destruct (shutDown_step _ _ _ (run_ok j) Hdj (run_step _ _ _ Hrun j)) as [Hd1 Hlt].
  rewrite Hmove in Hlt. by apply (IH (weight (st (S j))) ltac:(lia) (S j)).
Qed.

(** How many steps the publisher holds the mutex for. *)
Definition hold (pc : publisher_pc) : nat :=
  match pc with PTest | PWrite => 1 | PSnapshot => 2 | PWoken _ => 3 | _ => 0 end.

(** While the owner waits for the mutex, it becomes free. *)
Lemma mutex_free n :
  dm_main (st n) = MLock -> exists k, n <= k /\ dm_main (st k) = MLock /\ main_can (st k) = true.
Proof.
  remember (hold (dm_publisher (st n))) as h eqn:Hh. revert n Hh.
  induction h as [h IH] using lt_wf_ind. intros n Hh Hm.
  pose proof (ok_mutex _ (run_ok n)) as Hmutex. rewrite Hm in Hmutex. cbn in Hmutex.
  destruct (publisher_holds (dm_publisher (st n))) eqn:Hp.
  2: { exists n. split; [done|]. split; [done|]. unfold main_can. by rewrite Hm, Hmutex. }
  destruct (moves_later n) as (j & Hj & Hmove & E).
  { left. unfold publisher_can. by destruct (dm_publisher (st n)). }
  injection E as E1 E2 E3 _ _. rewrite Hm in E2. rewrite Hmutex in E3.
  pose proof (run_step _ _ _ Hrun j) as Estep. unfold daemon_step in Estep. rewrite run_alive in Estep.
  destruct (schedule j) as [v|t f|f]; [done| |by unfold main_step in Estep; rewrite E2, E3 in Estep].
  assert (hold (dm_publisher (st (S j))) < h /\ dm_main (st (S j)) = MLock) as [Hlt Hm'].
  { pose proof (run_alive (S j)) as Ha. unfold publisher_step in Estep. rewrite Hh. rewrite E1 in Estep.
    destruct (dm_publisher (st n)); try done; repeat (bb_case_in Estep; try done);
      injection Estep as Estep; rewrite <- Estep in *; cbn in *; try done; (split; [lia|done]). }
  destruct (IH _ Hlt (S j) eq_refl Hm') as (k & Hk & ?). exists k. split; [lia|done].
Qed.

(** The owner moves from where it is, if it can again and again as long as it is
    there. *)
Lemma main_moves n pc :
  dm_main (st n) = pc ->
  (forall m, n <= m -> dm_main (st m) = pc -> exists k, m <= k /\ main_can (st k) = true) ->
  exists k, n <= k /\ dm_main (st k) = pc /\ of_main (schedule k) = true.
Proof.
  intros Hpc Hc. apply NNPP. intros Hno.
  assert (forall d, dm_main (st (n + d)) = pc) as Hstay.
  { induction d as [|d IH]; [by rewrite Nat.add_0_r|]. rewrite Nat.add_succ_r, <- IH.
    pose proof (run_step _ _ _ Hrun (n + d)) as E. unfold daemon_step in E. rewrite run_alive in E.
    destruct (schedule (n + d)) as [v|t f|f] eqn:El; [by injection E as <-| |].
    - unfold publisher_step in E. repeat (bb_case_in E; try done); by injection E as <-.
    - exfalso. apply Hno. exists (n + d). split; [lia|]. by rewrite El. }
  destruct (main_fair _ _ _ Hrun n) as (k & Hk & Ht).
  - intros m Hm. apply (Hc m Hm). rewrite <- (Hstay (m - n)). f_equal. f_equal. lia.
  - apply Hno. exists k. split; [done|]. split; [|done]. rewrite <- (Hstay (k - n)). f_equal. f_equal. lia.
Qed.

Lemma asks_to_stop n :
  1 <= stage (dm_main (st n)) < 7 -> exists m, dm_shutDown (st m) = true.
Proof.
  intros Hm.
  assert (forall n, dm_main (st n) = MSet -> exists m, dm_shutDown (st m) = true) as Hset.
  { clear n Hm. intros n Hm. destruct (main_moves n MSet Hm) as (k & Hk & Hmk & Ht).
    { intros m Hnm Hm2. exists m. split; [done|]. unfold main_can. by rewrite Hm2. }
    exists (S k). pose proof (run_step _ _ _ Hrun k) as E. unfold daemon_step in E.
    rewrite run_alive in E. destruct (schedule k); try done.
    unfold main_step in E. rewrite Hmk in E. by injection E as <-. }
  destruct (decide (3 <= stage (dm_main (st n)))) as [H3|H3].
  { exists n. rewrite (ok_shutDown _ (run_ok n)), run_enabled, andb_true_r. by apply Nat.leb_le. }
  destruct (dm_main (st n)) eqn:Em; cbn in *; try lia; [|by apply (Hset n)].
  destruct (main_moves n MLock Em) as (k & Hk & Hmk & Ht).
  { intros m Hnm Hm2. destruct (mutex_free m Hm2) as (k & ? & _ & ?). by exists k. }
  apply (Hset (S k)). pose proof (run_step _ _ _ Hrun k) as E. unfold daemon_step in E.
  rewrite run_alive in E. destruct (schedule k); try done.
  unfold main_step in E. rewrite Hmk in E. repeat (bb_case_in E; try done). by injection E as <-.
Qed.
End fair.

(** C37. The destructor of an enabled daemon, in a process that was not terminated by a
    publication that threw.  Before its end, one of the two threads can always
    move, without help from others.  Once the thread has been asked to stop, the
    two take at most seven more steps together, however they and the threads that
    record values interleave.  (Before that, the publisher may wait and publish as
    often as it likes while the owner waits for the mutex: nothing bounds it.)  And
    in every run without an end that is fair (the publisher moves when it can, and
    the owner when it can again and again: a mutex that is freed again and again is
    obtained), the destructor comes to its end. *)
Theorem daemon_stops (s : Daemon V) (Hs : reachable true s) (Ht : dm_terminated s = false)
    (Hm : 1 <= stage (dm_main s) < 7) :
  (exists l s', moves l = true /\ daemon_step l s = Some s') /\
  (dm_shutDown s = true -> forall labels s', daemon_run labels s = Some s' ->
   length (filter (fun l => moves l = true) labels) <= 7) /\
  (forall schedule st, fair_run s schedule st -> exists n, dm_main (st n) = MDone).
Proof.
  pose proof (reachable_ok _ _ Hs) as Hok. pose proof (reachable_enabled _ _ Hs) as He.
  split; [|split].
  - destruct (daemon_progress s Hok He Hm) as [Hc|Hc].
    + apply (publisher_can_step true None) in Hc as [s' E]; [|done]. by exists (Publisher true None), s'.
    + apply (main_can_step None) in Hc as [s' E]; [|done]. by exists (Main None), s'.
  - intros Hd labels s' E. pose proof (shutDown_run labels s s' Hok Hd E).
    pose proof (weight_bound s Hok Hd). lia.
  - intros schedule st Hrun. destruct (asks_to_stop Hs Hrun 0) as [n Hn].
    { by rewrite (run_start _ _ _ Hrun). }
    by apply (stops_after_shutDown Hs Hrun n).
Qed.

(** Nothing bounds the steps before that: the publisher publishes again and again. *)
Lemma publisher_goes_on s n :
  daemon_ok s -> dm_terminated s = false -> dm_shutDown s = false -> dm_publisher s = PLock ->
  dm_mutex s = None -> exists labels s', length labels = 7 * n /\
    daemon_run labels s = Some s' /\ dm_main s' = dm_main s.
Proof.
  revert s. induction n as [|n IH]; intros s Hok Ht Hd Hp Hm; [by exists [], s|].
  set (round := [Publisher true None; Publisher true None; Publisher true None;
                 Publisher true None; Publisher true None; Publisher true None;
                 Publisher true None] : list (label V)).
  destruct (daemon_run round s) as [s1|] eqn:E.
  2: { destruct s. cbn in *. subst. by cbn in E. }
  pose proof (daemon_run_ok _ _ _ Hok E) as Hok1.
  assert (dm_terminated s1 = false /\ dm_shutDown s1 = false /\ dm_publisher s1 = PLock /\
          dm_mutex s1 = None /\ dm_main s1 = dm_main s) as (H1 & H2 & H3 & H4 & H5).
  { clear -E Ht Hd Hp Hm. destruct s; cbn in *; subst; cbn in E. by injection E as <-. }
  destruct (IH s1 Hok1 H1 H2 H3 H4) as (labels & s2 & Hl & E2 & Hmain).
  exists (round ++ labels), s2. split; [rewrite length_app, Hl; cbn; lia|].
  split; [by rewrite (daemon_run_app round labels s s1)|congruence].
Qed.
End daemon.

(** ** An example *)

(** A value is recorded and published after the interval; two more are recorded, one
    of them while the destructor waits for the thread. *)
Definition toy_labels : list (label nat) :=
  [Publisher false None; Publisher false None; Records 1; Publisher true None;
   Publisher false None; Publisher false None; Publisher false None; Publisher false None;
   Records 2; Main None; Main None; Main None; Publisher false None; Main None; Records 3;
   Publisher false None; Main None].


(** The last publication throws after one of two values: the other is lost. *)
Example last_publication_throws :
  option_map (fun s => (dm_published s, unpublished s, dm_terminated s))
    (daemon_run (toy_labels ++ [Main None; Main (Some 1)]) (Daemon_new true))
  = Some ([1; 2], [3], true).
Proof. reflexivity. Qed.

(** The owner waits for the mutex while the thread publishes; then the destructor goes
    on to its end, and others record zeros for ever. *)
Definition toy_start : list (label nat) :=
  [Publisher false None; Publisher false None; Records 1; Publisher true None;
   Publisher false None; Main None].
Definition toy_rest : list (label nat) :=
  [Publisher false None; Publisher false None; Publisher false None; Main None; Main None;
   Publisher false None; Publisher false None; Main None; Main None; Main None; Main None].
Definition toy_schedule (n : nat) : label nat := nth n toy_rest (Records 0).

Definition toy_waiting : Daemon nat :=
  MkDaemon true false (Some ByPublisher) (PWoken true) MLock [1] [] [] [1] false.
Definition toy_end (zeros : nat) : Daemon nat :=
  MkDaemon true true None PDone MDone (repeat 0 zeros) [] [1] (1 :: repeat 0 zeros) false.

(** The states of the run. *)
Definition toy_states (n : nat) : Daemon nat :=
  if n <? 11 then default toy_waiting (daemon_run (take n toy_rest) toy_waiting)
  else toy_end (n - 11).

Lemma toy_states_end n : 11 <= n -> toy_states n = toy_end (n - 11).
Proof. intros Hn. unfold toy_states. by rewrite (proj2 (Nat.ltb_ge n 11) Hn). Qed.

Lemma toy_end_step n : daemon_step (Records 0) (toy_end n) = Some (toy_end (S n)).
Proof. unfold toy_end, daemon_step, record_value. cbn. by rewrite <- repeat_cons. Qed.

Lemma toy_states_step n : daemon_step (toy_schedule n) (toy_states n) = Some (toy_states (S n)).
Proof.
  destruct (decide (n < 11)) as [Hn|Hn].
  - do 11 (destruct n as [|n]; [vm_compute; reflexivity|]). lia.
  - rewrite !toy_states_end by lia. replace (S n - 11) with (S (n - 11)) by lia.
    rewrite <- toy_end_step. f_equal. unfold toy_schedule. apply nth_overflow. cbn. lia.
Qed.

(** After eleven steps neither thread can move any more. *)
Lemma toy_fair_run : fair_run toy_waiting toy_schedule toy_states.
Proof.
  split; [reflexivity|exact toy_states_step|..].
  - intros n _. exists (11 + n). split; [lia|]. right. by rewrite toy_states_end by lia.
  - intros n H. destruct (H (11 + n) ltac:(lia)) as (k & Hk & Hc). exfalso.
    by rewrite toy_states_end in Hc by lia.
Qed.

Lemma daemon_stops_witness :
  (exists l s', moves l = true /\ daemon_step l toy_waiting = Some s') /\
  exists n, dm_main (toy_states n) = MDone.
Proof.
  pose proof (daemon_stops toy_waiting (ex_intro _ toy_start eq_refl) eq_refl
                ltac:(cbn; lia)) as (H1 & _ & H3).
  split; [exact H1|]. exact (H3 toy_schedule toy_states toy_fair_run).
Defined.
