(* ===== verification/MetricsTesting.v ===== *)
(** * Metrics: what tests ask of the collectors

    [buildboxcommonmetrics_testingutils.h]: predicates on what a collector holds.
    Each of them takes a snapshot, so that it empties the collector it looks at;
    the clearing functions do only that. *)

From S2P Require Import Prelude StdMap Arrays Digest TimeUtils Grpc Merklize MerklizeSpec Merge MergeSpec Undefined Cstring Metrics.
Open Scope Z_scope.

(** [operator==] of the type of a value; [operator!=] is its negation. *)
Class ValueEq (V : Type) := value_eqb : V -> V -> bool.

#[export] Instance Counting_eq : ValueEq CountingMetricValue := cmv_eqb.
#[export] Instance Duration_eq : ValueEq DurationMetricValue := dmv_eqb.
#[export] Instance TotalDuration_eq : ValueEq TotalDurationMetricValue := tmv_eqb.
#[export] Instance Gauge_eq : ValueEq GaugeMetricValue := gmv_eqb.
#[export] Instance Distribution_eq : ValueEq DistributionMetricValue := xmv_eqb.

(** [std::find_if] and [std::count_if] over a container. *)
Fixpoint find_if {A} (p : A -> bool) (l : list A) : option A :=
  match l with
  | [] => None
  | x :: l => if p x then Some x else find_if p l
  end.

Definition count_if {A} (p : A -> bool) (l : list A) : nat := length (List.filter p l).

Section predicates.
Context `{MapIteration} {V : Type} `{ValueType V} `{ValueEq V}.

(** The snapshot that every predicate works on, and what is left. *)
Definition collector_snapshot (f : MetricCollectorFactory) : list (str * V) * MetricCollectorFactory :=
  let (snapshot, rest) := getSnapshot (getCollector f) in
  (snapshot_entries _ snapshot, setCollector rest f).

Definition has_name (name : str) (e : str * V) : bool := bool_decide (e.1 = name).
Definition has_name_and_value (name : str) (value : V) (e : str * V) : bool :=
  bool_decide (e.1 = name) && value_eqb e.2 value.

(** The count is converted to [bool]. *)
Definition collectedByName (metric : str) (f : MetricCollectorFactory)
  : bool * MetricCollectorFactory :=
  let (metrics_container, f) := collector_snapshot f in
  (negb (Nat.eqb (count_if (has_name metric) metrics_container) 0), f).

Definition collectedByNameWithValue (name : str) (value : V) (f : MetricCollectorFactory)
  : bool * MetricCollectorFactory :=
  let (metrics_container, f) := collector_snapshot f in
  (match find_if (has_name_and_value name value) metrics_container with
   | Some entry => value_eqb entry.2 value
   | None => false
   end, f).

Fixpoint all_names (metrics_container : list (str * V)) (metrics : list str) : bool :=
  match metrics with
  | [] => true
  | metric :: metrics =>
      match find_if (has_name metric) metrics_container with
      | None => false
      | Some _ => all_names metrics_container metrics
      end
  end.

Definition allCollectedByName (metrics : list str) (f : MetricCollectorFactory)
  : bool * MetricCollectorFactory :=
  let (metrics_container, f) := collector_snapshot f in (all_names metrics_container metrics, f).

Fixpoint all_values (metrics_container name_values : list (str * V)) : bool :=
  match name_values with
  | [] => true
  | metric :: name_values =>
      match find_if (has_name_and_value metric.1 metric.2) metrics_container with
      | None => false
      | Some entry =>
          if negb (value_eqb entry.2 metric.2) then false
          else all_values metrics_container name_values
      end
  end.

Definition allCollectedByNameWithValues (name_values : list (str * V))
    (f : MetricCollectorFactory) : bool * MetricCollectorFactory :=
  let (metrics_container, f) := collector_snapshot f in
  (all_values metrics_container name_values, f).

(** The loops over the metrics that should be missing and over those expected. *)
Fixpoint none_named (metrics_container : list (str * V)) (names : list str) : bool :=
  match names with
  | [] => true
  | metric_name :: names =>
      if negb (Nat.eqb (count_if (has_name metric_name) metrics_container) 0) then false
      else none_named metrics_container names
  end.

Fixpoint all_found (metrics_container expected : list (str * V)) : bool :=
  match expected with
  | [] => true
  | metric :: expected =>
      match find_if (has_name_and_value metric.1 metric.2) metrics_container with
      | None => false
      | Some _ => all_found metrics_container expected
      end
  end.

Definition allCollectedByNameWithValuesAndAllMissingByName (expectedMetrics : list (str * V))
    (expectedMissingMetrics : list str) (f : MetricCollectorFactory)
  : bool * MetricCollectorFactory :=
  let (metrics_container, f) := collector_snapshot f in
  (if none_named metrics_container expectedMissingMetrics
   then all_found metrics_container expectedMetrics else false, f).

Definition clearMetricCollection (f : MetricCollectorFactory) : MetricCollectorFactory :=
  (collector_snapshot f).2.
End predicates.

(** [InternalTemplatedMethods::clearAllMetricValueTypes] at an index of the tuple of
    the published types, given what clears each of them. *)
Fixpoint clearAllMetricValueTypes (types : list (MetricCollectorFactory -> MetricCollectorFactory))
    (f : MetricCollectorFactory) : MetricCollectorFactory :=
  match types with
  | [] => f
  | clear :: types => clearAllMetricValueTypes types (clear f)
  end.

Definition PublishedValueTypesTuple `{MapIteration}
  : list (MetricCollectorFactory -> MetricCollectorFactory) :=
  [clearMetricCollection (V := CountingMetricValue);
   clearMetricCollection (V := DurationMetricValue);
   clearMetricCollection (V := TotalDurationMetricValue);
   clearMetricCollection (V := GaugeMetricValue)].

Definition clearAllMetricCollection `{MapIteration} (f : MetricCollectorFactory)
  : MetricCollectorFactory := clearAllMetricValueTypes PublishedValueTypesTuple f.

(** ** What they tell *)

Lemma find_if_spec {A} (p : A -> bool) l :
  match find_if p l with
  | Some x => x ∈ l /\ p x = true
  | None => forall x, x ∈ l -> p x = false
  end.
Proof.
  induction l as [|x l IH]; cbn [find_if]; [by intros x ?%elem_of_nil|].
  destruct (p x) eqn:E; [by split; [left|]|]. destruct (find_if p l) as [y|].
  - destruct IH. by split; [right|].
  - by intros y [->|Hy]%elem_of_cons; [|auto].
Qed.

Lemma find_if_some {A} (p : A -> bool) l :
  (exists x, find_if p l = Some x) <-> exists x, x ∈ l /\ p x = true.
Proof.
  pose proof (find_if_spec p l) as Hf. destruct (find_if p l) as [y|]; split.
  - intros _. by exists y.
  - intros _. by exists y.
  - by intros [x ?].
  - intros (x & Hx & Hp). rewrite (Hf x Hx) in Hp. done.
Qed.

Lemma count_if_zero {A} (p : A -> bool) l :
  negb (Nat.eqb (count_if p l) 0) = true <-> exists x, x ∈ l /\ p x = true.
Proof.
  unfold count_if. setoid_rewrite list_elem_of_In. rewrite negb_true_iff, Nat.eqb_neq. split.
  - destruct (List.filter p l) as [|x r] eqn:E; [done|]. intros _. exists x.
    apply List.filter_In. rewrite E. by left.
  - intros (x & Hx & Hp) E. apply length_zero_iff_nil in E.
    assert (In x (List.filter p l)) as Hin by (by apply List.filter_In). by rewrite E in Hin.
Qed.

Section results.
Context `{MapIteration} {V : Type} `{ValueType V} `{ValueEq V}.
Context (Heq : forall a b : V, value_eqb a b = true <-> a = b).
Context (f : MetricCollectorFactory).

(** What the collector holds. *)
Abbreviation held := (collector_snapshot (V := V) f).1.
Abbreviation emptied := (collector_snapshot (V := V) f).2.

Lemma has_name_and_value_spec name value (e : str * V) :
  has_name_and_value name value e = true <-> e = (name, value).
Proof.
  unfold has_name_and_value. rewrite andb_true_iff, bool_decide_eq_true, Heq.
  destruct e as [n v]. cbn. split; [by intros [-> ->]|by intros [= -> ->]].
Qed.

Lemma found_value name value :
  (exists e, find_if (has_name_and_value name value) held = Some e) <-> (name, value) ∈ held.
Proof.
  rewrite find_if_some. setoid_rewrite has_name_and_value_spec. naive_solver.
Qed.

Lemma found_name p : (exists e, e ∈ held /\ has_name p e = true) <-> p ∈ held.*1.
Proof.
  rewrite list_elem_of_fmap. unfold has_name. setoid_rewrite bool_decide_eq_true. naive_solver.
Qed.

Lemma collectedByName_spec metric :
  (collectedByName (V := V) metric f).1 = true <-> metric ∈ held.*1.
Proof.
  unfold collectedByName. rewrite (surjective_pairing (collector_snapshot f)). cbn [fst].
  by rewrite count_if_zero, found_name.
Qed.

Lemma all_names_spec metrics :
  all_names held metrics = true <-> forall m, m ∈ metrics -> m ∈ held.*1.
Proof.
  induction metrics as [|m metrics IH]; cbn [all_names].
  - split; [|done]. by intros _ m ?%elem_of_nil.
  - setoid_rewrite elem_of_cons.
    pose proof (find_if_some (has_name m) held) as Hf.
    destruct (find_if (has_name m) held) as [e|].
    + rewrite IH. split; [|naive_solver]. intros Ha k [->|Hk]; [|by apply Ha].
      apply found_name. apply Hf. by eexists.
    + split; [done|]. intros Ha. exfalso. assert (m ∈ held.*1) as Hm by (apply Ha; by left).
      apply found_name, Hf in Hm as [? ?]. done.
Qed.

Lemma all_values_found expected : all_values held expected = all_found held expected.
Proof.
  induction expected as [|m expected IH]; cbn [all_values all_found]; [done|].
  pose proof (find_if_spec (has_name_and_value m.1 m.2) held) as Hf.
  destruct (find_if _ _) as [e|]; [|done]. destruct Hf as [_ ->%has_name_and_value_spec].
  cbn [snd]. by rewrite (proj2 (Heq m.2 m.2) eq_refl), IH.
Qed.

Lemma all_found_spec expected :
  all_found held expected = true <-> forall m, m ∈ expected -> m ∈ held.
Proof.
  induction expected as [|[n v] expected IH]; cbn [all_found fst snd].
  - split; [|done]. by intros _ m ?%elem_of_nil.
  - setoid_rewrite elem_of_cons. pose proof (found_value n v) as Hf.
    destruct (find_if (has_name_and_value n v) held) as [e|].
    + rewrite IH. split; [|naive_solver]. intros Ha k [->|Hk]; [|by apply Ha].
      apply Hf. by eexists.
    + split; [done|]. intros Ha. exfalso. assert ((n, v) ∈ held) as Hm by (apply Ha; by left).
      apply Hf in Hm as [? ?]. done.
Qed.

Lemma none_named_spec names :
  none_named held names = true <-> forall m, m ∈ names -> m ∉ held.*1.
Proof.
  induction names as [|m names IH]; cbn [none_named].
  - split; [|done]. by intros _ m ?%elem_of_nil.
  - setoid_rewrite elem_of_cons.
    pose proof (count_if_zero (has_name m) held) as Hc. rewrite (found_name m) in Hc.
    destruct (negb _).
    + split; [done|]. intros Ha. exfalso. apply (Ha m); [by left|by apply Hc].
    + rewrite IH. split; [|naive_solver]. intros Ha k [->|Hk]; [|by apply Ha].
      intros Hm. by apply Hc in Hm.
Qed.

(** The predicates for tests tell exactly what the collector holds, by name or by
    name and value; and each of them empties the collector, so that whoever asks
    twice is told that nothing was collected. *)
Theorem collected_predicates (name : str) (value : V) (names : list str)
    (expected : list (str * V)) :
  ((collectedByName (V := V) name f).1 = true <-> name ∈ held.*1) /\
  ((collectedByNameWithValue name value f).1 = true <-> (name, value) ∈ held) /\
  ((allCollectedByName (V := V) names f).1 = true <-> forall m, m ∈ names -> m ∈ held.*1) /\
  ((allCollectedByNameWithValues expected f).1 = true <-> forall m, m ∈ expected -> m ∈ held) /\
  ((allCollectedByNameWithValuesAndAllMissingByName expected names f).1 = true <->
     (forall m, m ∈ names -> m ∉ held.*1) /\ (forall m, m ∈ expected -> m ∈ held)) /\
  (collectedByName (V := V) name f).2 = emptied /\
  (collectedByNameWithValue name value f).2 = emptied /\
  (allCollectedByName (V := V) names f).2 = emptied /\
  (allCollectedByNameWithValues expected f).2 = emptied /\
  (allCollectedByNameWithValuesAndAllMissingByName expected names f).2 = emptied.
Proof.
  unfold collectedByName, collectedByNameWithValue, allCollectedByName,
    allCollectedByNameWithValues, allCollectedByNameWithValuesAndAllMissingByName.
  rewrite (surjective_pairing (collector_snapshot f)). cbn [fst snd].
  rewrite count_if_zero, found_name, all_names_spec, all_values_found, all_found_spec.
  split; [done|]. split; [|do 2 (split; [done|]); split; [|done]].
  - rewrite <- found_value. pose proof (find_if_spec (has_name_and_value name value) held) as Hf.
    destruct (find_if _ _) as [e|]; [|by split; [|intros [? ?]]].
    destruct Hf as [_ ->%has_name_and_value_spec]. cbn [snd].
    rewrite (proj2 (Heq value value) eq_refl). split; [by eexists|done].
  - rewrite <- none_named_spec. destruct (none_named _ _); [|by split; [|intros []]].
    rewrite all_found_spec. naive_solver.
Qed.
End results.

(** ** Recording, then asking *)

(** What the collectors promise to whoever asks. *)
Class CollectorLaws (V : Type) `{MapIteration} `{ValueType V} : Prop := {
  stored_name name (value : V) c c' :
    collector_store name value c = Some c' ->
    name ∈ (snapshot_entries _ (getSnapshot c').1).*1;
  snapshot_empties (c : Collector (V := V)) :
    snapshot_entries _ (getSnapshot (getSnapshot c).2).1 = [];
  get_set_collector (c : Collector (V := V)) f : getCollector (setCollector c f) = c;
}.

Section laws.
Context `{MapIteration}.

Lemma iter_names {V} (m : gmap str V) name v : m !! name = Some v -> name ∈ (um_iter m).*1.
Proof.
  intros Hm. rewrite um_iter_perm. apply (list_elem_of_fmap_2 fst _ (name, v)).
  by apply elem_of_map_to_list.
Qed.

Lemma iter_empty {V} : um_iter (∅ : gmap str V) = [].
Proof. apply Permutation_nil. symmetry. rewrite um_iter_perm. by rewrite map_to_list_empty. Qed.

Lemma aggregating_stored {V} (plus_assign : V -> V -> option V) name value c c' :
  aggregating_store plus_assign name value c = Some c' -> name ∈ (um_iter c').*1.
Proof.
  unfold aggregating_store. destruct (c !! name) as [entry|].
  - destruct (plus_assign entry value) as [v|]; [|done]. intros [= <-].
    apply (iter_names _ _ v). by rewrite lookup_insert_eq.
  - intros [= <-]. apply (iter_names _ _ value). by rewrite lookup_insert_eq.
Qed.

Lemma listing_stored {V} name (value : V) c c' :
  Some (listing_store name value c) = Some c' -> name ∈ c'.*1.
Proof. intros [= <-]. unfold listing_store. rewrite fmap_app, elem_of_app. right. by left. Qed.

#[export] Instance Counting_laws : CollectorLaws CountingMetricValue.
Proof. split; [apply aggregating_stored|intros; apply iter_empty|done]. Qed.
#[export] Instance Duration_laws : CollectorLaws DurationMetricValue.
Proof. split; [apply listing_stored|done|done]. Qed.
#[export] Instance TotalDuration_laws : CollectorLaws TotalDurationMetricValue.
Proof. split; [apply aggregating_stored|intros; apply iter_empty|done]. Qed.
#[export] Instance Gauge_laws : CollectorLaws GaugeMetricValue.
Proof. split; [apply aggregating_stored|intros; apply iter_empty|done]. Qed.
#[export] Instance Distribution_laws : CollectorLaws DistributionMetricValue.
Proof. split; [apply listing_stored|done|done]. Qed.
End laws.

(** What is recorded is found by its name, once: the second question is answered
    from an empty collector. *)
Theorem recorded_is_collected_once `{MapIteration} {V W : Type} `{ValueType V} `{ValueEq V}
    `{!CollectorLaws V} (metric : str) (value : V) (f f' : MetricCollectorFactory) (w w' : W)
    (Henabled : d_metricsEnabled f = true)
    (Hstore : factory_store metric value None (f, w) = Some (Ok tt, (f', w'))) :
  let (first, f1) := collectedByName (V := V) metric f' in
  first = true /\ (collectedByName (V := V) metric f1).1 = false.
Proof.
  unfold factory_store in Hstore. rewrite Henabled in Hstore.
  destruct (collector_store metric value (getCollector f)) as [c|] eqn:E; [|done].
  injection Hstore as <- _. unfold collectedByName, collector_snapshot. rewrite get_set_collector.
  pose proof (stored_name metric value _ c E) as Hin. pose proof (snapshot_empties c) as He.
  destruct (getSnapshot c) as [snapshot rest]. cbn [fst snd] in *. rewrite get_set_collector.
  destruct (getSnapshot rest) as [snapshot' rest']. cbn [fst] in *. rewrite He. split; [|done].
  apply count_if_zero. unfold has_name. apply list_elem_of_fmap in Hin as ([n v] & -> & Hin).
  exists (n, v). split; [done|]. by apply bool_decide_eq_true.
Qed.

(** [clearAllMetricCollection] clears what publishers publish, which leaves out the
    distributions: these stay. *)
Theorem clear_all_but_distributions `{MapIteration} (f : MetricCollectorFactory) :
  clearAllMetricCollection f =
  MkFactory (d_metricsEnabled f) ∅ [] ∅ ∅ (distribution_collector f).
Proof. reflexivity. Qed.

Lemma recorded_is_collected_once_witness :
  let f := match recordCounterMetric_count (L "calls") 3 (MetricCollectorFactory_init, tt) with
           | Some (_, (f, _)) => f | None => MetricCollectorFactory_init end in
  let (first, f1) := collectedByName (V := CountingMetricValue) (L "calls") f in
  first = true /\ (collectedByName (V := CountingMetricValue) (L "calls") f1).1 = false.
Proof.
  intros f. apply (recorded_is_collected_once (L "calls") (MkCountingMetricValue 3)
    MetricCollectorFactory_init f tt tt); reflexivity.
Defined.
