(* ===== verification/FileMonitor.v ===== *)
(** * Following a file that is being written

    [buildboxcommon_streamingstandardoutputfilemonitor.cpp] and
    [buildboxcommon_streamingstandardoutputstatfilemonitor.cpp]: a thread reads what
    is appended to a file and hands it to a callback, until it is asked to stop.
    The threads are the monitoring thread, the one that owns the monitor, and the
    writers of the file.  An interleaving is a list of labels, each thread moves from
    one access of shared state or system call to the next, and a thread that cannot
    move has no step. *)

From S2P Require Import Prelude Arrays Blake3Compress Grpc.
Open Scope Z_scope.

(** ** What the two monitors share *)

(** [FileChunk]: a pointer and a size; the callback sees the bytes. *)
Definition FileChunk := str.

(** [openFile]: what [open(path, O_RDONLY)] answers, an [errno] or a descriptor. *)
Definition openFile (answer : Z + Z) : res Z :=
  match answer with
  | inl errno => Throw (SystemError errno)
  | inr fd => Ok fd
  end.

(** [readBufferSizeBytes], for the answer of [sysconf(_SC_PAGESIZE)]. *)
Definition readBufferSizeBytes (pageSizeBytes : Z) : Z :=
  if pageSizeBytes =? -1 then 4096 else u64 pageSizeBytes.

(** How a callback ends: it returns, it calls [stop()] of the monitor that called it
    and then returns, or it throws. *)
Inductive callback_end := CbReturns | CbStops | CbThrows.

(** What a system call answers: an [errno], or how many bytes it is willing to give. *)
Inductive answer := Fails (errno : Z) | Gives (n : Z).

(** [read] gives at least one byte where there are some and room for one. *)
Definition read_data (n room : Z) (unread : str) : str :=
  ztake (Z.min (Z.max 1 n) room) unread.

(** ** The monitor that polls the size of the file *)

(** Where the monitoring thread is in [waitForInitialFileWrite] and [monitorFile]. *)
Inductive thread_pc :=
  | TTest                       (* [while (!d_stopRequested)] *)
  | TStat                       (* [fstat] *)
  | TRead                       (* [read] *)
  | TLast (bytesRead : Z)       (* [last_write = ... && d_stopRequested] *)
  | TDeliver (last_write : bool)   (* the callback *)
  | TEnd                        (* [bytesRead == 0 && d_stopRequested] *)
  | TDone
  | TTerminated                 (* an exception left the thread: the process ended *)
  | TUndefined.                 (* undefined behaviour *)

(** Where the owner is: in the constructor, using the monitor, in [stop], or after
    the destructor. *)
Inductive stop_pc :=
  | MInit
  | MUse
  | MStore
  | MJoin
  | MStopped
  | MClosed.

Section monitor.
Context {C : Type} (dataReadyCallback : FileChunk -> C -> callback_end * C).

Definition s_min_write_batch_size_bytes : Z := 100.

Record Monitor := MkMonitor {
  (** The file, how far the descriptor has read, and whether it is open. *)
  fm_file : str;
  fm_position : Z;
  fm_open : bool;
  d_stopRequested : bool;
  (** Whether the constructor has set the three members after the thread. *)
  fm_initialised : bool;
  d_read_buffer_size : Z;
  d_read_buffer : str;
  d_read_buffer_offset : Z;
  fm_thread : thread_pc;
  fm_main : stop_pc;
  (** What the callback acts on, and the chunks it was given. *)
  fm_callback : C;
  fm_delivered : list FileChunk;
}.

(** The constructor up to the start of the thread, for a file that was opened. *)
Definition Monitor_new (buffer_size : Z) (file : str) (c : C) : Monitor :=
  MkMonitor file 0 true false false buffer_size [] 0 TTest MInit c [].

Definition set_thread (pc : thread_pc) (s : Monitor) : Monitor :=
  MkMonitor (fm_file s) (fm_position s) (fm_open s) (d_stopRequested s) (fm_initialised s)
    (d_read_buffer_size s) (d_read_buffer s) (d_read_buffer_offset s) pc (fm_main s)
    (fm_callback s) (fm_delivered s).

Definition set_main (pc : stop_pc) (s : Monitor) : Monitor :=
  MkMonitor (fm_file s) (fm_position s) (fm_open s) (d_stopRequested s) (fm_initialised s)
    (d_read_buffer_size s) (d_read_buffer s) (d_read_buffer_offset s) (fm_thread s) pc
    (fm_callback s) (fm_delivered s).

Definition set_stop (s : Monitor) : Monitor :=
  MkMonitor (fm_file s) (fm_position s) (fm_open s) true (fm_initialised s)
    (d_read_buffer_size s) (d_read_buffer s) (d_read_buffer_offset s) (fm_thread s) (fm_main s)
    (fm_callback s) (fm_delivered s).

Definition set_offset (offset : Z) (s : Monitor) : Monitor :=
  MkMonitor (fm_file s) (fm_position s) (fm_open s) (d_stopRequested s) (fm_initialised s)
    (d_read_buffer_size s) (d_read_buffer s) offset (fm_thread s) (fm_main s)
    (fm_callback s) (fm_delivered s).

(** Bytes were read into the buffer, which is [buffer] now. *)
Definition add_bytes (bytesRead : Z) (buffer : str) (s : Monitor) : Monitor :=
  MkMonitor (fm_file s) (fm_position s + bytesRead) (fm_open s) (d_stopRequested s)
    (fm_initialised s) (d_read_buffer_size s) buffer
    (u64 (d_read_buffer_offset s + bytesRead)) (fm_thread s) (fm_main s)
    (fm_callback s) (fm_delivered s).

Definition deliver (chunk : FileChunk) (c : C) (s : Monitor) : Monitor :=
  MkMonitor (fm_file s) (fm_position s) (fm_open s) (d_stopRequested s) (fm_initialised s)
    (d_read_buffer_size s) (d_read_buffer s) (d_read_buffer_offset s) (fm_thread s) (fm_main s)
    c (fm_delivered s ++ [chunk]).

(** The last three members; the buffer is made of zeros. *)
Definition init_members (s : Monitor) : Monitor :=
  MkMonitor (fm_file s) (fm_position s) (fm_open s) (d_stopRequested s) true
    (d_read_buffer_size s) (replicate (Z.to_nat (d_read_buffer_size s)) "000"%char) 0
    (fm_thread s) (fm_main s) (fm_callback s) (fm_delivered s).

Definition close_file (s : Monitor) : Monitor :=
  MkMonitor (fm_file s) (fm_position s) false (d_stopRequested s) (fm_initialised s)
    (d_read_buffer_size s) (d_read_buffer s) (d_read_buffer_offset s) (fm_thread s) (fm_main s)
    (fm_callback s) (fm_delivered s).

Definition append_data (data : str) (s : Monitor) : Monitor :=
  MkMonitor (fm_file s ++ data) (fm_position s) (fm_open s) (d_stopRequested s)
    (fm_initialised s) (d_read_buffer_size s) (d_read_buffer s) (d_read_buffer_offset s)
    (fm_thread s) (fm_main s) (fm_callback s) (fm_delivered s).

(** One round of [waitForInitialFileWrite]; when it is false [monitorFile] returns. *)
Definition wait_test (s : Monitor) : Monitor :=
  set_thread (if d_stopRequested s then TDone else TStat) s.

Definition wait_stat (a : answer) (s : Monitor) : Monitor :=
  match a with
  | Fails _ => set_thread TDone s
  | Gives _ => set_thread (if 0 <? zlen (fm_file s) then TRead else TTest) s
  end.

(** [read] behind what the buffer holds. *)
Definition read_chunk (a : answer) (s : Monitor) : Monitor :=
  if negb (fm_initialised s && fm_open s) then set_thread TUndefined s
  else
    let bufferFreeBytes := u64 (d_read_buffer_size s - d_read_buffer_offset s - 1) in
    match a with
    | Fails _ => set_thread TTerminated s
    | Gives n =>
        let data := read_data n bufferFreeBytes (zdrop (fm_position s) (fm_file s)) in
        match write_at (d_read_buffer_offset s) data (d_read_buffer s) with
        | None => set_thread TUndefined s
        | Some buffer => set_thread (TLast (zlen data)) (add_bytes (zlen data) buffer s)
        end
    end.

Definition decide_write (bytesRead : Z) (s : Monitor) : Monitor :=
  let batch_larger_than_min := s_min_write_batch_size_bytes <? d_read_buffer_offset s in
  let last_write := (0 <? d_read_buffer_offset s) && d_stopRequested s in
  if batch_larger_than_min || last_write then set_thread (TDeliver last_write) s
  else if bytesRead =? 0 then set_thread TEnd s
  else set_thread TRead s.

(** The callback.  When it calls [stop()] first, the thread asks to join itself,
    which throws. *)
Definition invoke_callback (last_write : bool) (s : Monitor) : Monitor :=
  match read_at 0 (d_read_buffer_offset s) (d_read_buffer s) with
  | None => set_thread TUndefined s
  | Some chunk =>
      let '(ending, c) := dataReadyCallback chunk (fm_callback s) in
      let s := deliver chunk c s in
      let returned := set_thread (if last_write then TDone else TRead) (set_offset 0 s) in
      match ending with
      | CbReturns => returned
      | CbStops => if d_stopRequested s then returned else set_thread TTerminated (set_stop s)
      | CbThrows => set_thread TTerminated s
      end
  end.

Definition decide_end (s : Monitor) : Monitor :=
  set_thread (if d_stopRequested s then TDone else TRead) s.

(** One step of the thread. *)
Definition monitorFile (a : answer) (s : Monitor) : option Monitor :=
  match fm_thread s with
  | TTest => Some (wait_test s)
  | TStat => Some (wait_stat a s)
  | TRead => Some (read_chunk a s)
  | TLast bytesRead => Some (decide_write bytesRead s)
  | TDeliver last_write => Some (invoke_callback last_write s)
  | TEnd => Some (decide_end s)
  | TDone | TTerminated | TUndefined => None
  end.

(** One step of the owner: the rest of the constructor, [stop], the destructor. *)
Definition stop (s : Monitor) : option Monitor :=
  match fm_main s with
  | MInit => Some (set_main MUse (init_members s))
  | MUse => Some (set_main (if d_stopRequested s then MStopped else MStore) s)
  | MStore => Some (set_main MJoin (set_stop s))
  | MJoin => match fm_thread s with TDone => Some (set_main MStopped s) | _ => None end
  | MStopped => Some (set_main MClosed (close_file s))
  | MClosed => None
  end.

(** ** Interleavings *)

Inductive label := Appends (data : str) | Thread (a : answer) | Main.

(** The process is gone, or anything can happen. *)
Definition halted (s : Monitor) : bool :=
  match fm_thread s with TTerminated | TUndefined => true | _ => false end.

Definition monitor_step (l : label) (s : Monitor) : option Monitor :=
  if halted s then None
  else
    match l with
    | Appends data => Some (append_data data s)
    | Thread a => monitorFile a s
    | Main => stop s
    end.

Fixpoint monitor_run (labels : list label) (s : Monitor) : option Monitor :=
  match labels with
  | [] => Some s
  | l :: labels => s ← monitor_step l s; monitor_run labels s
  end.
End monitor.
Arguments Monitor : clear implicits.
