(* ===== verification/FileMonitorSpec.v ===== *)
(** * Properties of the monitor that polls a file

    What the callback is given is always the beginning of the file, in order and in
    pieces of bounded size; after [stop] the thread ends within a few steps; what is
    still delivered after [stop], and what is not. *)

From S2P Require Import Prelude Arrays Blake3Compress Grpc FileMonitor.
Open Scope Z_scope.

Section monitor.
Context {C : Type} (callback : FileChunk -> C -> callback_end * C).
Implicit Types (s : Monitor C) (labels : list label).

Abbreviation step := (monitor_step callback).
Abbreviation run := (monitor_run callback).

(** The callback applied to the chunks in turn. *)
Definition feed (chunks : list FileChunk) (c : C) : C :=
  fold_left (fun c chunk => snd (callback chunk c)) chunks c.

Definition reachable (buffer_size : Z) (file : str) (c : C) s : Prop :=
  exists labels, run labels (Monitor_new buffer_size file c) = Some s.

#[local] Instance stop_pc_eq_dec : EqDecision stop_pc.
Proof. solve_decision. Defined.

(** Chunks of more than the minimum, and possibly a last one of any size. *)
Definition batched (ended : Prop) (chunks : list FileChunk) : Prop :=
  Forall (fun chunk => s_min_write_batch_size_bytes < zlen chunk) chunks \/
  ended /\ exists batches rest, chunks = batches ++ [rest] /\
    Forall (fun chunk => s_min_write_batch_size_bytes < zlen chunk) batches.

(** What holds where the thread is. *)
Definition thread_ok s : Prop :=
  match fm_thread s with
  | TTest | TStat =>
      fm_position s = 0 /\ d_read_buffer_offset s = 0 /\ fm_delivered s = []
  | TRead => d_read_buffer_offset s <= 100 /\ 0 < zlen (fm_file s)
  | TLast bytesRead =>
      fm_initialised s = true /\ 0 < zlen (fm_file s) /\ 0 <= bytesRead <= d_read_buffer_offset s
  | TDeliver last_write =>
      fm_initialised s = true /\ 0 < d_read_buffer_offset s /\ 0 < zlen (fm_file s) /\
      if last_write then d_stopRequested s = true else 100 < d_read_buffer_offset s
  | TEnd => fm_initialised s = true /\ d_read_buffer_offset s <= 100 /\ 0 < zlen (fm_file s)
  | TDone =>
      d_read_buffer_offset s <= 100 /\ (d_stopRequested s = false -> d_read_buffer_offset s = 0)
  | TTerminated => True
  | TUndefined => fm_initialised s = false /\ 0 < zlen (fm_file s)
  end.

Record monitor_ok (size : Z) (c0 : C) s : Prop := {
  ok_size : d_read_buffer_size s = size /\ 102 <= size < 2 ^ 64;
  ok_position : 0 <= fm_position s <= zlen (fm_file s);
  ok_offset : 0 <= d_read_buffer_offset s < size;
  ok_thread : thread_ok s;
  ok_initialised : fm_initialised s = negb (bool_decide (fm_main s = MInit));
  ok_buffer : fm_initialised s = true -> zlen (d_read_buffer s) = size;
  ok_uninitialised : fm_initialised s = false ->
    d_read_buffer s = [] /\ d_read_buffer_offset s = 0 /\ fm_delivered s = [] /\ fm_position s = 0;
  ok_open : fm_open s = negb (bool_decide (fm_main s = MClosed));
  ok_joined : fm_main s = MStopped \/ fm_main s = MClosed -> fm_thread s = TDone;
  ok_stop : halted s = false ->
    d_stopRequested s = bool_decide (fm_main s = MJoin \/ fm_main s = MStopped \/ fm_main s = MClosed);
  ok_prefix : concat (fm_delivered s) `prefix_of` ztake (fm_position s) (fm_file s);
  ok_contents : halted s = false ->
    concat (fm_delivered s) ++ ztake (d_read_buffer_offset s) (d_read_buffer s) =
    ztake (fm_position s) (fm_file s);
  ok_chunks : Forall (fun chunk => 0 < zlen chunk < size) (fm_delivered s);
  ok_batches : batched (d_stopRequested s = true /\ (fm_thread s = TDone \/ fm_thread s = TTerminated))
    (fm_delivered s);
  ok_callback : fm_callback s = feed (fm_delivered s) c0;
}.

Lemma monitor_new_ok size file c0 : 102 <= size < 2 ^ 64 ->
  monitor_ok size c0 (Monitor_new size file c0).
Proof.
  intros Hs. pose proof (zlen_nonneg file). constructor; cbn; try done; try lia; try by left.
  by intros [|].
Qed.

(** Open a state and its invariant. *)
Ltac open_monitor s H :=
  destruct s as [file pos op stp ini size_ buf off thr mn cb del]; destruct H; unfold thread_ok in *;
  cbn in *.

(** A state whose thread is at [pc], before the thread's step: it was not joined and
    has not delivered its last chunk. *)
Ltac open_running s H Ht :=
  open_monitor s H; match type of Ht with ?pc = _ => subst pc end;
  match goal with J : ?P -> _ = TDone |- _ =>
    assert (~ P) by (intros Hj; by specialize (J Hj)) end;
  match goal with B : batched _ ?del |- _ =>
    assert (Forall (fun chunk => s_min_write_batch_size_bytes < zlen chunk) del)
      by (destruct B as [B|[[_ [B|B]] _]]; [exact B|discriminate B|discriminate B]) end.

(** The clauses that a step leaves as they were, or that its position decides. *)
Ltac monitor_clauses :=
  constructor; unfold thread_ok; cbn in *; try assumption; try tauto; try lia;
  try (left; assumption); try (split; [tauto || lia|first [lia|intros; congruence|assumption]]).

Lemma append_ok size c0 data s : halted s = false ->
  monitor_ok size c0 s -> monitor_ok size c0 (append_data data s).
Proof.
  intros Hh H. open_monitor s H. pose proof (zlen_nonneg data).
  assert (forall n : Z, n <= zlen file -> ztake n (file ++ data) = ztake n file) as Ht.
  { intros n Hn. unfold ztake, zlen in *. rewrite take_app_le; [done|lia]. }
  monitor_clauses; rewrite ?Ht by lia; rewrite ?zlen_app; try assumption; try lia.
  destruct thr; intuition lia.
Qed.

(** What is written behind the beginning of a buffer. *)
Lemma write_at_behind off (data buffer : str) : 0 <= off -> off + zlen data <= zlen buffer ->
  exists buffer', write_at off data buffer = Some buffer' /\ zlen buffer' = zlen buffer /\
    ztake (off + zlen data) buffer' = ztake off buffer ++ data.
Proof.
  intros Ho Hd. pose proof (zlen_nonneg data).
  destruct (split_at off buffer ltac:(lia)) as (a & rest & -> & Ha).
  rewrite zlen_app in Hd.
  destruct (split_at (zlen data) rest ltac:(lia)) as (b & c & -> & Hb).
  exists (a ++ data ++ c). rewrite <- Ha, write_at_app by lia. split; [done|].
  rewrite !zlen_app. split; [lia|].
  rewrite (ztake_app_eq (zlen a) a) by done. rewrite app_assoc. apply ztake_app_eq. rewrite zlen_app. lia.
Qed.

(** The bytes a read gives. *)
Lemma read_data_spec n room pos (file : str) : 0 <= room -> 0 <= pos <= zlen file ->
  let data := read_data n room (zdrop pos file) in
  zlen data <= room /\ pos + zlen data <= zlen file /\
  ztake (pos + zlen data) file = ztake pos file ++ data /\
  (zlen data = 0 -> room = 0 \/ pos = zlen file).
Proof.
  intros Hr Hp. unfold read_data. cbn zeta. set (k := Z.min (Z.max 1 n) room).
  destruct (split_at pos file Hp) as (a & rest & -> & Ha).
  rewrite zdrop_app_eq by done. rewrite zlen_app in *.
  rewrite (zlen_ztake k rest) by lia. pose proof (zlen_nonneg rest).
  split; [lia|]. split; [lia|]. split; [|lia].
  rewrite (ztake_app_eq pos a) by done. rewrite ztake_app_ge by lia. f_equal.
  destruct (decide (k <= zlen rest)).
  - f_equal. lia.
  - rewrite !ztake_ge; [done|lia|lia].
Qed.

Lemma read_chunk_ok size c0 a s : fm_thread s = TRead -> monitor_ok size c0 s ->
  monitor_ok size c0 (read_chunk a s).
Proof.
  intros Ht H. unfold read_chunk. destruct (fm_initialised s && fm_open s) eqn:Ei; cbn [negb].
  2: { open_running s H Ht. apply andb_false_iff in Ei. monitor_clauses.
    split; [|lia]. destruct Ei as [E|E]; [done|]. destruct mn; naive_solver. }
  apply andb_true_iff in Ei as [Ei Eo]. destruct a as [errno|n].
  { open_running s H Ht. monitor_clauses. }
  open_running s H Ht. destruct ok_size0 as [-> Hs]. destruct ok_thread0 as [Ho Hf].
  assert (u64 (size - off - 1) = size - off - 1) as -> by (apply Z.mod_small; lia).
  set (data := read_data n _ _).
  destruct (read_data_spec n (size - off - 1) pos file ltac:(lia) ok_position0) as (H1 & H2 & H3 & H4).
  fold data in H1, H2, H3, H4. pose proof (zlen_nonneg data).
  specialize (ok_buffer0 Ei).
  destruct (write_at_behind off data buf ltac:(lia) ltac:(lia)) as (buf' & -> & Hl & Ht).
  assert (u64 (off + zlen data) = off + zlen data) as E by (apply Z.mod_small; lia).
  monitor_clauses; unfold add_bytes, set_thread; cbn; rewrite ?E; try lia.
  - intros. congruence.
  - rewrite H3. by apply prefix_app_r.
  - intros _. rewrite Ht, H3, app_assoc. f_equal. by apply ok_contents0.
Qed.

Lemma decide_write_ok size c0 n s : fm_thread s = TLast n -> monitor_ok size c0 s ->
  monitor_ok size c0 (decide_write n s).
Proof.
  intros Ht H. unfold decide_write, s_min_write_batch_size_bytes.
  destruct (100 <? d_read_buffer_offset s) eqn:Eb; cbn [orb].
  - open_running s H Ht. apply Z.ltb_lt in Eb. monitor_clauses.
    repeat (split; [tauto || lia|]). destruct (_ && _) eqn:El; [|lia].
    by apply andb_true_iff in El as [_ ->].
  - apply Z.ltb_ge in Eb. destruct (_ && _) eqn:El.
    + open_running s H Ht. apply andb_true_iff in El as [El ->]. apply Z.ltb_lt in El.
      monitor_clauses.
    + destruct (n =? 0); open_running s H Ht; monitor_clauses.
Qed.

Lemma invoke_callback_ok size c0 last s : fm_thread s = TDeliver last -> monitor_ok size c0 s ->
  monitor_ok size c0 (invoke_callback callback last s).
Proof.
  intros Ht H. unfold invoke_callback.
  open_running s H Ht. destruct ok_thread0 as (Ei & Ho & Hf & Hl). specialize (ok_buffer0 Ei).
  destruct (split_at off buf ltac:(lia)) as (chunk & rest & -> & Hc).
  assert (read_at 0 off (chunk ++ rest) = Some chunk) as -> by (by apply (read_at_app 0 off [])).
  rewrite (ztake_app_eq off chunk) in ok_contents0 by done. specialize (ok_contents0 eq_refl).
  assert (concat (del ++ [chunk]) = ztake pos file) as Hd
    by (by rewrite concat_app; cbn; rewrite app_nil_r).
  assert (Forall (fun chunk => 0 < zlen chunk < size) (del ++ [chunk])) as Hfa
    by (apply Forall_app; split; [done|apply Forall_singleton; lia]).
  assert (forall P : Prop, (off <= 100 -> P) -> batched P (del ++ [chunk])) as Hba.
  { intros P HP. destruct (decide (off <= 100)).
    - right. split; [by apply HP|]. by exists del, chunk.
    - left. apply Forall_app. split; [done|]. apply Forall_singleton.
      unfold s_min_write_batch_size_bytes. lia. }
  destruct (callback chunk cb) as [ending c'] eqn:Ec.
  assert (c' = feed (del ++ [chunk]) c0) as Hk.
  { unfold feed. rewrite fold_left_app. cbn. rewrite ok_callback0 in Ec. unfold feed in Ec.
    by rewrite Ec. }
  unfold FileChunk in *.
  destruct ending; [|destruct stp|]; destruct last; monitor_clauses; unfold FileChunk in *;
    try (intros; congruence);
    try (intros; rewrite Hd, ?ztake_0, ?app_nil_r; reflexivity);
    try (apply Hba; auto with lia).
Qed.

Lemma decide_end_ok size c0 s : fm_thread s = TEnd -> monitor_ok size c0 s ->
  monitor_ok size c0 (decide_end s).
Proof.
  intros Ht H. unfold decide_end. destruct (d_stopRequested s) eqn:E; open_running s H Ht;
    monitor_clauses.
Qed.

Lemma wait_ok size c0 a s : fm_thread s = TTest \/ fm_thread s = TStat -> monitor_ok size c0 s ->
  monitor_ok size c0 (wait_test s) /\ monitor_ok size c0 (wait_stat a s).
Proof.
  intros Ht H. split.
  - unfold wait_test. destruct (d_stopRequested s) eqn:E; destruct Ht as [Ht|Ht];
      open_running s H Ht; monitor_clauses.
  - unfold wait_stat. destruct a as [errno|n]; [|destruct (Z.ltb_spec 0 (zlen (fm_file s)))];
      destruct Ht as [Ht|Ht]; open_running s H Ht; monitor_clauses.
Qed.
Lemma stop_ok size c0 s s' : monitor_ok size c0 s -> halted s = false -> stop s = Some s' ->
  monitor_ok size c0 s'.
Proof.
  intros H Hh E. open_monitor s H. specialize (ok_stop0 Hh). specialize (ok_contents0 Hh). unfold halted in Hh. cbn in Hh, E.
  unfold stop in E. cbn in E.
  destruct mn; cbv [bool_decide decide_rel decide] in ok_stop0; cbn in *.
  - injection E as <-. destruct (ok_uninitialised0 ok_initialised0) as (-> & -> & -> & ->).
    monitor_clauses; try by intros [|].
    + destruct thr as [ | | |?|[]| | | | ]; first [discriminate Hh|tauto|lia].
    + intros _. unfold zlen. rewrite length_replicate. lia.
  - subst stp. injection E as <-. monitor_clauses; by intros [|].
  - injection E as <-. subst. monitor_clauses; try by intros [|].
    + destruct thr as [ | | |?|[]| | | | ]; naive_solver.
    + destruct ok_batches0 as [|[[]]]; [by left|done].
  - destruct thr; try done. injection E as <-. subst. monitor_clauses.
  - injection E as <-. subst. monitor_clauses.
  - discriminate E.
Qed.

Lemma monitor_step_ok size c0 l s s' : monitor_ok size c0 s -> step l s = Some s' ->
  monitor_ok size c0 s'.
Proof.
  intros H E. unfold monitor_step in E. destruct (halted s) eqn:Hh; [done|].
  destruct l as [data|a|]; [|unfold monitorFile in E; destruct (fm_thread s) eqn:Ht; try done|].
  all: try injection E as <-.
  - by apply append_ok.
  - by apply (wait_ok size c0 a s); [left|].
  - by apply (wait_ok size c0 a s); [right|].
  - by apply read_chunk_ok.
  - by apply decide_write_ok.
  - by apply invoke_callback_ok.
  - by apply decide_end_ok.
  - by eapply stop_ok.
Qed.

Lemma monitor_run_ok size c0 labels s s' : monitor_ok size c0 s -> run labels s = Some s' ->
  monitor_ok size c0 s'.
Proof.
  revert s. induction labels as [|l labels IH]; intros s H E; cbn in E; [by simplify_eq|].
  destruct (step l s) as [s1|] eqn:E1; [|done]. eapply IH; [|done]. by eapply monitor_step_ok.
Qed.

Lemma monitor_reachable_ok size file c0 s : 102 <= size < 2 ^ 64 -> reachable size file c0 s ->
  monitor_ok size c0 s.
Proof. intros Hs [labels E]. eapply monitor_run_ok; [by apply monitor_new_ok|exact E]. Qed.

(** C30. However the threads interleave, whatever the system calls answer and however the
    callback ends: the chunks the callback was given are, one after the other, the
    beginning of what was read of the file, and what was read beyond them is what the
    buffer holds; each chunk has more than a hundred bytes, but for a last one that may
    be shorter once [stop] was called, and less than the buffer, which is never
    overrun; and nothing is read from a closed descriptor or into members that are not
    yet there, unless the file had data before the constructor was through. *)
Theorem delivers_in_order (size : Z) (file : str) (c0 : C) (s : Monitor C)
    (Hsize : 102 <= size < 2 ^ 64) (Hs : reachable size file c0 s) :
  concat (fm_delivered s) `prefix_of` ztake (fm_position s) (fm_file s) /\
  (halted s = false ->
   concat (fm_delivered s) ++ ztake (d_read_buffer_offset s) (d_read_buffer s) =
   ztake (fm_position s) (fm_file s)) /\
  Forall (fun chunk => 0 < zlen chunk < size) (fm_delivered s) /\
  batched (d_stopRequested s = true) (fm_delivered s) /\
  fm_callback s = feed (fm_delivered s) c0 /\
  (fm_thread s = TUndefined -> fm_main s = MInit /\ fm_file s <> []).
Proof.
  destruct (monitor_reachable_ok size file c0 s Hsize Hs). repeat (split; [done|]).
  split; [|split; [done|]].
  - destruct ok_batches0 as [|[[] ]]; [by left|by right].
  - intros Ht. unfold thread_ok in ok_thread0. rewrite Ht in ok_thread0.
    destruct ok_thread0 as [Hi Hf]. rewrite ok_initialised0 in Hi.
    split; [by apply negb_false_iff, bool_decide_eq_true in Hi|].
    intros E. rewrite E in Hf. done.
Qed.

(** ** After [stop] *)

(** How many steps the thread has left once it is asked to stop. *)
Definition steps_left (pc : thread_pc) : nat :=
  match pc with
  | TStat | TDeliver false => 4
  | TRead => 3
  | TLast _ => 2
  | TTest | TDeliver true | TEnd => 1
  | TDone | TTerminated | TUndefined => 0
  end.

Definition is_thread (l : label) : bool := match l with Thread _ => true | _ => false end.

Definition never_throws : Prop := forall chunk c, fst (callback chunk c) <> CbThrows.

Lemma thread_step_left size c0 a s s' : monitor_ok size c0 s -> d_stopRequested s = true ->
  monitorFile callback a s = Some s' ->
  d_stopRequested s' = true /\ (steps_left (fm_thread s') < steps_left (fm_thread s))%nat.
Proof.
  intros H Hst E. unfold monitorFile in E.
  destruct (fm_thread s) eqn:Ht; try done; injection E as <-.
  - unfold wait_test. rewrite Hst. cbn. split; [done|lia].
  - unfold wait_stat. repeat case_match; cbn; (split; [done|lia]).
  - unfold read_chunk. repeat case_match; cbn; (split; [done|lia]).
  - pose proof (ok_thread _ _ _ H) as Ho. unfold thread_ok in Ho. rewrite Ht in Ho.
    unfold decide_write. rewrite Hst, andb_true_r.
    destruct (Z.ltb_spec 0 (d_read_buffer_offset s)); [rewrite orb_true_r; cbn; split; [done|lia]|].
    unfold s_min_write_batch_size_bytes. destruct (Z.ltb_spec 100 (d_read_buffer_offset s)); [lia|].
    destruct (Z.eqb_spec bytesRead 0); [cbn; split; [done|lia]|lia].
  - unfold invoke_callback. destruct (read_at _ _ _) as [chunk|]; [|by destruct last_write; cbn; auto with lia].
    destruct (callback chunk (fm_callback s)) as [[] c]; cbn; rewrite ?Hst; destruct last_write; cbn;
      auto with lia.
  - unfold decide_end. rewrite Hst. cbn. split; [done|lia].
Qed.

Lemma run_left size c0 labels s s' : monitor_ok size c0 s -> d_stopRequested s = true ->
  run labels s = Some s' ->
  d_stopRequested s' = true /\
  (length (filter (fun l => is_thread l = true) labels) + steps_left (fm_thread s') <=
   steps_left (fm_thread s))%nat.
Proof.
  revert s. induction labels as [|l labels IH]; intros s H Hst E; cbn in E.
  { injection E as <-. cbn. auto with lia. }
  destruct (step l s) as [s1|] eqn:E1; [|done].
  pose proof (monitor_step_ok _ _ _ _ _ H E1) as H1.
  unfold monitor_step in E1. destruct (halted s); [done|].
  assert (d_stopRequested s1 = true /\ (steps_left (fm_thread s1) +
    (if is_thread l then 1 else 0) <= steps_left (fm_thread s))%nat) as [Hs1 Hl].
  { destruct l as [data|a|].
    - injection E1 as <-. cbn. auto with lia.
    - destruct (thread_step_left _ _ _ _ _ H Hst E1). cbn. auto with lia.
    - unfold stop in E1. destruct s; cbn in *. repeat case_match; simplify_eq; cbn; auto with lia. }
  destruct (IH s1 H1 Hs1 E) as [? ?]. split; [done|].
  rewrite filter_cons. destruct (decide _) as [Hl1|Hl1]; cbn [length].
  - rewrite Hl1 in Hl. lia.
  - destruct (is_thread l); [done|]. lia.
Qed.

(** A step that no failure disturbs. *)
Lemma thread_goes_on size c0 n s s' : monitor_ok size c0 s -> d_stopRequested s = true ->
  fm_main s = MJoin -> never_throws -> monitorFile callback (Gives n) s = Some s' ->
  fm_main s' = MJoin /\ halted s' = false.
Proof.
  intros H Hst Hm Hc E. pose proof (monitor_step_ok size c0 (Thread (Gives n)) s s' H) as H'.
  unfold monitor_step in H'. unfold monitorFile in E, H'.
  assert (halted s = false) as Hh by (unfold halted; by destruct (fm_thread s)).
  rewrite Hh in H'. specialize (H' E).
  assert (fm_initialised s = true) as Hi by (rewrite (ok_initialised _ _ _ H), Hm; done).
  assert (fm_open s = true) as Ho by (rewrite (ok_open _ _ _ H), Hm; done).
  assert (fm_main s' = MJoin) as Hm'.
  { destruct (fm_thread s); try done; injection E as <-;
      unfold read_chunk, decide_write, invoke_callback; repeat case_match; done. }
  split; [done|].
  assert (fm_thread s' <> TUndefined) as Hu.
  { intros Hu. pose proof (ok_thread _ _ _ H') as Ht. unfold thread_ok in Ht. rewrite Hu in Ht.
    destruct Ht as [Ht _]. by rewrite (ok_initialised _ _ _ H'), Hm' in Ht. }
  assert (fm_thread s' <> TTerminated) as Hx; [|by unfold halted; destruct (fm_thread s')].
  destruct (fm_thread s); try done; injection E as <-.
  - unfold wait_test. by case_match.
  - unfold wait_stat. by case_match.
  - unfold read_chunk. rewrite Hi, Ho. cbn. by case_match.
  - unfold decide_write. by repeat case_match.
  - unfold invoke_callback. destruct (read_at _ _ _) as [chunk|]; [|done].
    specialize (Hc chunk (fm_callback s)). destruct (callback chunk (fm_callback s)) as [[] c]; try done;
      cbn; rewrite ?Hst; by destruct last_write.
  - unfold decide_end. by case_match.
Qed.

(** With answers that are no failure the thread goes on to its end. *)
Lemma thread_finishes n size c0 s : (steps_left (fm_thread s) <= n)%nat ->
  monitor_ok size c0 s -> d_stopRequested s = true -> fm_main s = MJoin -> halted s = false ->
  never_throws ->
  exists labels s', (length labels <= n)%nat /\ run labels s = Some s' /\ fm_main s' = MJoin /\
    fm_thread s' = TDone.
Proof.
  revert s. induction n as [|n IH]; intros s Hn H Hst Hm Hh Hc.
  { exists [], s. split; [cbn; lia|]. repeat (split; [done|]).
    unfold halted in Hh. destruct (fm_thread s) as [| | | |[]| | | |] eqn:E; cbn in Hn; first [lia|done]. }
  destruct (monitorFile callback (Gives 1) s) as [s1|] eqn:E1.
  2: { exists [], s. split; [cbn; lia|]. repeat (split; [done|]).
    unfold monitorFile in E1. unfold halted in Hh. by destruct (fm_thread s). }
  assert (step (Thread (Gives 1)) s = Some s1) as Es by (unfold monitor_step; by rewrite Hh).
  pose proof (monitor_step_ok _ _ _ _ _ H Es) as H1.
  destruct (thread_step_left _ _ _ _ _ H Hst E1) as [Hs1 Hl].
  destruct (thread_goes_on _ _ _ _ _ H Hst Hm Hc E1) as [Hm1 Hh1].
  destruct (IH s1 ltac:(lia) H1 Hs1 Hm1 Hh1 Hc) as (labels & s' & Hn' & E & ?).
  exists (Thread (Gives 1) :: labels), s'. split; [cbn; lia|]. split; [|done]. cbn. by rewrite Es.
Qed.

Lemma monitor_run_app labels1 labels2 s s1 : run labels1 s = Some s1 ->
  run (labels1 ++ labels2) s = run labels2 s1.
Proof.
  revert s. induction labels1 as [|l labels1 IH]; intros s E; cbn in *; [by simplify_eq|].
  destruct (step l s) as [s2|]; [|done]. by apply IH.
Qed.

Lemma steps_left_bound pc : (steps_left pc <= 4)%nat.
Proof. destruct pc as [| | | |[]| | | |]; cbn; lia. Qed.

(** C31. Once [stop] has set the flag the thread takes at most four more steps, whatever
    the writers do; it waits for nobody; and when the callback does not throw and no
    call fails, [stop] returns after at most four of them. *)
Theorem stop_returns (size : Z) (file : str) (c0 : C) (s : Monitor C)
    (Hsize : 102 <= size < 2 ^ 64) (Hs : reachable size file c0 s)
    (Hstop : d_stopRequested s = true) :
  (forall labels s', run labels s = Some s' ->
   (length (filter (fun l => is_thread l = true) labels) <= 4)%nat /\
   (halted s' = true \/ fm_thread s' = TDone \/
    forall a, exists s'', step (Thread a) s' = Some s'')) /\
  (never_throws -> fm_main s = MJoin -> halted s = false ->
   exists labels s', (length labels <= 5)%nat /\ run labels s = Some s' /\ fm_main s' = MStopped).
Proof.
  pose proof (monitor_reachable_ok size file c0 s Hsize Hs) as H. split.
  - intros labels s' E. destruct (run_left _ _ _ _ _ H Hstop E) as [_ Hl].
    pose proof (steps_left_bound (fm_thread s)). split; [lia|].
    unfold monitor_step, halted, monitorFile. destruct (fm_thread s'); eauto.
  - intros Hc Hm Hh.
    destruct (thread_finishes 4 size c0 s (steps_left_bound _) H Hstop Hm Hh Hc)
      as (labels & s1 & Hn & E & Hm1 & Ht1).
    exists (labels ++ [Main]). eexists. split; [rewrite length_app; cbn; lia|].
    rewrite (monitor_run_app _ _ _ _ E). cbn. unfold monitor_step, halted, stop.
    rewrite Ht1, Hm1. by split.
Qed.

(** ** What is still delivered *)

(** Asked to stop, with the whole file read, and not about to return with bytes in the
    buffer. *)
Definition settled s : Prop :=
  d_stopRequested s = true /\ fm_position s = zlen (fm_file s) /\
  (fm_thread s = TEnd \/ fm_thread s = TDone -> d_read_buffer_offset s = 0).

Definition is_append (l : label) : bool := match l with Appends _ => true | _ => false end.

Ltac settle := repeat split; try done; cbn; try (by intros [|]).

Lemma settled_thread size c0 a s s' : monitor_ok size c0 s -> settled s ->
  monitorFile callback a s = Some s' -> settled s' /\ fm_file s' = fm_file s.
Proof.
  intros H (Hst & Hp & Ho) E. pose proof (ok_thread _ _ _ H) as Ht. unfold thread_ok in Ht.
  unfold monitorFile in E. destruct (fm_thread s) eqn:Hpc; try done; injection E as <-.
  - unfold wait_test. rewrite Hst. repeat split; try done. cbn. tauto.
  - unfold wait_stat. repeat case_match; settle; tauto.
  - unfold read_chunk. destruct (negb _); [by settle|].
    destruct a as [errno|n]; [by settle|].
    replace (read_data n _ _) with (@nil ascii).
    2: { rewrite Hp, zdrop_ge by apply Z.le_refl. unfold read_data, ztake. by rewrite take_nil. }
    destruct (write_at _ _ _); [|by settle].
    settle. by rewrite Z.add_0_r.
  - unfold decide_write. destruct (Z.ltb_spec 0 (d_read_buffer_offset s)) as [Hb|Hb].
    + rewrite Hst, orb_true_r. by settle.
    + pose proof (ok_offset _ _ _ H). rewrite andb_false_l, orb_false_r.
      repeat case_match; settle; intros; lia.
  - unfold invoke_callback. destruct (read_at _ _ _) as [chunk|]; [|by settle].
    destruct (callback chunk (fm_callback s)) as [[] c]; cbn; rewrite ?Hst;
      destruct last_write; by settle.
  - unfold decide_end. rewrite Hst. repeat split; try done. cbn. intros. apply Ho. by left.
Qed.

Lemma settled_run size c0 labels s s' : monitor_ok size c0 s -> settled s ->
  Forall (fun l => is_append l = false) labels -> run labels s = Some s' ->
  settled s' /\ fm_file s' = fm_file s.
Proof.
  intros H Hs Hl. revert s H Hs. induction Hl as [|l labels Ha Hl IH]; intros s H Hs E; cbn in E.
  { by injection E as <-. }
  destruct (step l s) as [s1|] eqn:E1; [|done].
  pose proof (monitor_step_ok _ _ _ _ _ H E1) as H1.
  assert (settled s1 /\ fm_file s1 = fm_file s) as [Hs1 <-].
  { unfold monitor_step in E1. destruct (halted s); [done|]. destruct l as [data|a|]; [done| |].
    - by eapply settled_thread.
    - destruct Hs as (? & ? & ?). unfold settled, stop in *. destruct s; cbn in *.
      repeat case_match; simplify_eq; cbn; auto. }
  by apply IH.
Qed.

Lemma settled_at_stop size c0 s : monitor_ok size c0 s -> halted s = false ->
  fm_main s = MStore -> fm_position s = zlen (fm_file s) ->
  (fm_thread s = TEnd -> d_read_buffer_offset s = 0) -> settled (set_main MJoin (set_stop s)).
Proof.
  intros H Hh Hm Hp He. split; [done|]. split; [done|]. cbn. intros [Ht|Ht]; [by apply He|].
  pose proof (ok_thread _ _ _ H) as Ho. unfold thread_ok in Ho. rewrite Ht in Ho.
  apply Ho. by rewrite (ok_stop _ _ _ H Hh), Hm.
Qed.

(** When the writers are through and everything they wrote has been read by the time
    [stop] is called, the callback is given the whole file before the thread ends;
    unless the thread is between its two tests of [d_stopRequested]. *)
Theorem everything_read_is_delivered (size : Z) (file : str) (c0 : C) (labels : list label)
    (s s' : Monitor C)
    (Hsize : 102 <= size < 2 ^ 64) (Hs : reachable size file c0 s)
    (Hstop : fm_main s = MStore) (Hread : fm_position s = zlen (fm_file s))
    (Hend : fm_thread s = TEnd -> d_read_buffer_offset s = 0)
    (Hlabels : Forall (fun l => is_append l = false) labels)
    (Hrun : run (Main :: labels) s = Some s') (Hdone : fm_thread s' = TDone) :
  concat (fm_delivered s') = fm_file s.
Proof.
  pose proof (monitor_reachable_ok size file c0 s Hsize Hs) as H. cbn in Hrun.
  destruct (step Main s) as [s1|] eqn:E1; [|done].
  pose proof (monitor_step_ok _ _ _ _ _ H E1) as H1.
  unfold monitor_step, stop in E1. destruct (halted s) eqn:Hh; [done|].
  rewrite Hstop in E1. injection E1 as <-.
  pose proof (settled_at_stop _ _ _ H Hh Hstop Hread Hend) as Hs1.
  destruct (settled_run _ _ _ _ _ H1 Hs1 Hlabels Hrun) as [(_ & Hp & Ho) Hf].
  pose proof (monitor_run_ok _ _ _ _ _ H1 Hrun) as H'.
  assert (halted s' = false) as Hh' by (unfold halted; by rewrite Hdone).
  pose proof (ok_contents _ _ _ H' Hh') as Hc.
  rewrite (Ho (or_intror Hdone)), Hp, Hf, ztake_0, app_nil_r in Hc. rewrite Hc. by apply ztake_ge.
Qed.
End monitor.

(** ** Examples *)

(** A callback that only takes the chunk, and one that calls [stop]. *)
Definition takes (chunk : FileChunk) (c : unit) : callback_end * unit := (CbReturns, tt).
Definition calls_stop (chunk : FileChunk) (c : unit) : callback_end * unit := (CbStops, tt).

Definition letters (n : nat) : str := replicate n "x"%char.
Definition read_all : label := Thread (Gives 4096).

(** What was delivered at the end of a run, and where the thread is. *)
Definition outcome (callback : FileChunk -> unit -> callback_end * unit) (labels : list label)
    (file : str) : option (list Z * thread_pc) :=
  s ← monitor_run callback labels (Monitor_new 4096 file ());
  Some (map zlen (fm_delivered s), fm_thread s).

(** The file had all its data before [stop], which comes before the first test. *)
Example stopped_too_early :
  outcome takes [Main; Main; Main; read_all; Main; Main] (letters 5) = Some ([], TDone).
Proof. vm_compute. reflexivity. Qed.

(** More than a buffer was left to read. *)
Example stopped_with_more_than_a_buffer :
  outcome takes [Main; read_all; read_all; Main; Main; read_all; read_all; read_all; Main]
    (letters 5000) = Some ([4095], TDone).
Proof. vm_compute. reflexivity. Qed.

(** All was read; [stop] comes between the two tests. *)
Example stopped_between_tests :
  outcome takes [Main; read_all; read_all; read_all; read_all; read_all; read_all; Main; Main;
                 read_all; Main] (letters 5) = Some ([], TDone).
Proof. vm_compute. reflexivity. Qed.

(** A callback that stops the monitor ends the process. *)
Example callback_stops :
  outcome calls_stop [Main; read_all; read_all; read_all; read_all; read_all] (letters 200) =
  Some ([200], TTerminated).
Proof. vm_compute. reflexivity. Qed.

(** The thread overtakes the constructor. *)
Example thread_overtakes_constructor :
  outcome takes [read_all; read_all; read_all] (letters 5) = Some ([], TUndefined).
Proof. vm_compute. reflexivity. Qed.

(** Nothing at first, then 150 bytes, then 7 more. *)
Definition toy_labels : list label :=
  [Main; read_all; read_all; read_all; Appends (letters 150); read_all; read_all; read_all; read_all;
   Appends (letters 7); read_all; read_all; read_all; read_all; read_all; Main].

(** The rest of [stop]. *)
Definition toy_end : list label := [read_all; read_all; read_all; Main].

(** A run on an empty file whose last state passes a test. *)
Lemma toy_run (labels : list label) (test : Monitor unit -> bool) :
  from_option test false (monitor_run takes labels (Monitor_new 128 [] ())) = true ->
  exists s, monitor_run takes labels (Monitor_new 128 [] ()) = Some s /\ test s = true.
Proof. destruct (monitor_run _ _ _) as [s|]; [|done]. by exists s. Qed.

#[local] Instance label_pc_dec : EqDecision thread_pc.
Proof. solve_decision. Defined.
#[local] Instance label_main_dec : EqDecision stop_pc.
Proof. solve_decision. Defined.

Lemma delivers_in_order_witness :
  exists s, reachable takes 128 [] () s /\ map zlen (fm_delivered s) = [127] /\
    concat (fm_delivered s) ++ ztake (d_read_buffer_offset s) (d_read_buffer s) =
    ztake (fm_position s) (fm_file s).
Proof.
  destruct (toy_run toy_labels
    (fun s => negb (halted s) && bool_decide (map zlen (fm_delivered s) = [127])))
    as (s & E & [Hh%negb_true_iff Hd%bool_decide_eq_true]%andb_true_iff); [by vm_compute|].
  assert (reachable takes 128 [] () s) as Hs by (exists toy_labels; exact E).
  exists s. split; [exact Hs|]. split; [exact Hd|].
  destruct (delivers_in_order takes 128 [] () s ltac:(lia) Hs) as (_ & Hc & _). by apply Hc.
Defined.

Lemma stop_returns_witness :
  exists s labels s', reachable takes 128 [] () s /\ d_stopRequested s = true /\
    (length labels <= 5)%nat /\ monitor_run takes labels s = Some s' /\ fm_main s' = MStopped.
Proof.
  destruct (toy_run (toy_labels ++ [Main])
    (fun s => negb (halted s) && d_stopRequested s && bool_decide (fm_main s = MJoin)))
    as (s & E & [[Hh%negb_true_iff Hst]%andb_true_iff Hm%bool_decide_eq_true]%andb_true_iff);
    [by vm_compute|].
  assert (reachable takes 128 [] () s) as Hs by (exists (toy_labels ++ [Main]); exact E).
  destruct (stop_returns takes 128 [] () s ltac:(lia) Hs Hst) as [_ Hf].
  destruct (Hf ltac:(done) Hm Hh) as (labels & s' & ? & ? & ?).
  exists s, labels, s'. repeat (split; [assumption|]). assumption.
Defined.

Lemma everything_read_is_delivered_witness :
  exists s s', reachable takes 128 [] () s /\ monitor_run takes (Main :: toy_end) s = Some s' /\
    concat (fm_delivered s') = fm_file s /\ zlen (fm_file s) = 157.
Proof.
  destruct (toy_run toy_labels (fun s => bool_decide (fm_main s = MStore) &&
    bool_decide (fm_position s = zlen (fm_file s)) && bool_decide (fm_thread s = TRead) &&
    bool_decide (zlen (fm_file s) = 157) &&
    from_option (fun s' => bool_decide (fm_thread s' = TDone)) false (monitor_run takes (Main :: toy_end) s)))
    as (s & E & [[[[Hm%bool_decide_eq_true Hp%bool_decide_eq_true]%andb_true_iff
      Ht%bool_decide_eq_true]%andb_true_iff Hl%bool_decide_eq_true]%andb_true_iff He]%andb_true_iff);
    [by vm_compute|].
  destruct (monitor_run takes (Main :: toy_end) s) as [s'|] eqn:E'; [|done].
  apply bool_decide_eq_true in He as Hd.
  assert (reachable takes 128 [] () s) as Hs by (exists toy_labels; exact E).
  exists s, s'. split; [exact Hs|]. split; [exact E'|]. split; [|exact Hl].
  apply (everything_read_is_delivered takes 128 [] () toy_end s s' ltac:(lia) Hs Hm Hp);
    [by rewrite Ht|by repeat constructor|exact E'|exact Hd].
Defined.
