(* ===== verification/InotifyMonitor.v ===== *)
(** * Following a file with inotify

    [buildboxcommon_streamingstandardoutputinotifyfilemonitor.cpp]: the monitor that is
    told of changes by the kernel.  The threads, labels and chunks are those of
    [FileMonitor]; what [poll] and [read] of the inotify descriptor answer comes with
    the label. *)

From S2P Require Import Prelude Arrays Blake3Compress Grpc FileMonitor FileMonitorSpec.
Open Scope Z_scope.

(** ** Events *)

Definition IN_MODIFY : Z := 2.
Definition IN_CLOSE_WRITE : Z := 8.

(** [sizeof(struct inotify_event)]: [wd], [mask], [cookie] and [len], then the name. *)
Definition inotifyStructEventSize : Z := 16.
Definition INOTIFY_EVENT_MAX_SIZE : Z := inotifyStructEventSize + 255 + 1.
Definition INOTIFY_MAX_NUMBER_OF_EVENTS : Z := 2.
Definition INOTIFY_BUFFER_SIZE : Z := INOTIFY_MAX_NUMBER_OF_EVENTS * INOTIFY_EVENT_MAX_SIZE.

(** A field of 32 bits in the bytes that were read; beyond them the buffer was not
    initialised. *)
Definition event_field (off : Z) (bytes : list Z) : option Z :=
  match read_at off 4 bytes with
  | Some [a; b; c; d] =>
      Some (a + Z.shiftl b 8 + Z.shiftl c 16 + Z.shiftl d 24)
  | _ => None
  end.

Definition event_mask (start : Z) (bytes : list Z) : option Z := event_field (start + 4) bytes.
Definition event_len (start : Z) (bytes : list Z) : option Z := event_field (start + 12) bytes.

(** [readInotifyEvents] for what [read] answered: false, or the masks of the first two
    events; nothing when it looks at bytes that were not read. *)
Definition readInotifyEvents (answer : Z + list Z) : option (option Z) :=
  match answer with
  | inl _ => Some None
  | inr bytes =>
      mask1 ← event_mask 0 bytes;
      len ← event_len 0 bytes;
      let event1End := inotifyStructEventSize + len in
      if event1End <? zlen bytes then
        mask2 ← event_mask event1End bytes;
        Some (Some (Z.lor mask1 mask2))
      else Some (Some mask1)
  end.

(** ** The monitor *)

Inductive end_reason := PollFailed | Stopped | EventsFailed | ReadFailed | FileClosed.

(** Where the thread is in [waitForInotify], [readInotifyEvents], [readFileAndStream]
    and [monitorFile]. *)
Inductive inotify_pc :=
  | IPoll (i : Z)                   (* [poll], after [i] tries *)
  | ICycles                         (* timed out *)
  | IEvents                         (* [read] of the events *)
  | IRead (mask : Z)                (* [read] of the file *)
  | IDeliver (mask bytesRead : Z)   (* the callback *)
  | IDone (reason : end_reason)
  | ITerminated
  | IUndefined.

(** Where the owner is: the members after the thread, [inotify_init],
    [inotify_add_watch], then as in [FileMonitor]. *)
Inductive owner_pc := OMembers | OInit | OWatch | OUse | OStore | OJoin | OStopped | OClosed.

(** What the calls of the thread answer. *)
Inductive inotify_answer :=
  | Polls (ready : Z) (pollin : bool)
  | Events (answer : Z + list Z)
  | Reads (a : answer).

Section monitor.
Context {C : Type} (dataReadyCallback : FileChunk -> C -> callback_end * C).

Record InotifyMonitor := MkInotifyMonitor {
  im_file : str;
  im_position : Z;
  im_stopRequested : bool;
  im_buffer_size : Z;
  im_buffer : str;
  im_timeoutCyclesAfterStop : Z;
  im_thread : inotify_pc;
  im_owner : owner_pc;
  im_callback : C;
  im_delivered : list FileChunk;
}.

Definition InotifyMonitor_new (buffer_size : Z) (file : str) (c : C) : InotifyMonitor :=
  MkInotifyMonitor file 0 false buffer_size [] 3 (IPoll 0) OMembers c [].

Definition im_set_thread (pc : inotify_pc) (s : InotifyMonitor) : InotifyMonitor :=
  MkInotifyMonitor (im_file s) (im_position s) (im_stopRequested s) (im_buffer_size s)
    (im_buffer s) (im_timeoutCyclesAfterStop s) pc (im_owner s) (im_callback s) (im_delivered s).
Definition im_set_owner (pc : owner_pc) (s : InotifyMonitor) : InotifyMonitor :=
  MkInotifyMonitor (im_file s) (im_position s) (im_stopRequested s) (im_buffer_size s)
    (im_buffer s) (im_timeoutCyclesAfterStop s) (im_thread s) pc (im_callback s) (im_delivered s).
Definition im_set_stop (s : InotifyMonitor) : InotifyMonitor :=
  MkInotifyMonitor (im_file s) (im_position s) true (im_buffer_size s)
    (im_buffer s) (im_timeoutCyclesAfterStop s) (im_thread s) (im_owner s) (im_callback s)
    (im_delivered s).
Definition im_set_cycles (cycles : Z) (s : InotifyMonitor) : InotifyMonitor :=
  MkInotifyMonitor (im_file s) (im_position s) (im_stopRequested s) (im_buffer_size s)
    (im_buffer s) cycles (im_thread s) (im_owner s) (im_callback s) (im_delivered s).
Definition im_read (bytesRead : Z) (buffer : str) (s : InotifyMonitor) : InotifyMonitor :=
  MkInotifyMonitor (im_file s) (im_position s + bytesRead) (im_stopRequested s) (im_buffer_size s)
    buffer (im_timeoutCyclesAfterStop s) (im_thread s) (im_owner s) (im_callback s)
    (im_delivered s).
Definition im_deliver (chunk : FileChunk) (c : C) (s : InotifyMonitor) : InotifyMonitor :=
  MkInotifyMonitor (im_file s) (im_position s) (im_stopRequested s) (im_buffer_size s)
    (im_buffer s) (im_timeoutCyclesAfterStop s) (im_thread s) (im_owner s) c
    (im_delivered s ++ [chunk]).
Definition im_append (data : str) (s : InotifyMonitor) : InotifyMonitor :=
  MkInotifyMonitor (im_file s ++ data) (im_position s) (im_stopRequested s) (im_buffer_size s)
    (im_buffer s) (im_timeoutCyclesAfterStop s) (im_thread s) (im_owner s) (im_callback s)
    (im_delivered s).
Definition im_init_members (s : InotifyMonitor) : InotifyMonitor :=
  MkInotifyMonitor (im_file s) (im_position s) (im_stopRequested s) (im_buffer_size s)
    (replicate (Z.to_nat (im_buffer_size s)) "000"%char) (im_timeoutCyclesAfterStop s)
    (im_thread s) (im_owner s) (im_callback s) (im_delivered s).

(** [d_inotifyInstanceFd] has been set. *)
Definition has_inotify (s : InotifyMonitor) : bool :=
  match im_owner s with OMembers | OInit => false | _ => true end.

(** One round of [waitForInotify], and what [monitorFile] makes of the result. *)
Definition maxRetries : Z := 3.

Definition waitForInotify (i ready : Z) (pollin : bool) (s : InotifyMonitor) : InotifyMonitor :=
  if negb (has_inotify s) then im_set_thread IUndefined s
  else if ready <? 0 then im_set_thread (IDone PollFailed) s
  else if ready =? 0 then im_set_thread ICycles s
  else if pollin then im_set_thread IEvents s
  else if i + 1 <? maxRetries then im_set_thread (IPoll (i + 1)) s
  else im_set_thread (IDone PollFailed) s.

Definition timed_out (s : InotifyMonitor) : InotifyMonitor :=
  if im_timeoutCyclesAfterStop s =? 0 then im_set_thread (IDone Stopped) s
  else
    im_set_thread (IPoll 0)
      (if im_stopRequested s then im_set_cycles (im_timeoutCyclesAfterStop s - 1) s else s).

Definition read_events (answer : Z + list Z) (s : InotifyMonitor) : InotifyMonitor :=
  match readInotifyEvents answer with
  | None => im_set_thread IUndefined s
  | Some None => im_set_thread (IDone EventsFailed) s
  | Some (Some mask) => im_set_thread (IRead mask) s
  end.

(** [readFileAndStream], one [read] and one call of the callback at a time. *)
Definition closes (mask : Z) : bool := negb (Z.land mask IN_CLOSE_WRITE =? 0).

Definition readFileAndStream (mask : Z) (a : answer) (s : InotifyMonitor) : InotifyMonitor :=
  match a with
  | Fails _ => im_set_thread (IDone ReadFailed) s
  | Gives n =>
      let data := read_data n (im_buffer_size s) (zdrop (im_position s) (im_file s)) in
      match write_at 0 data (im_buffer s) with
      | None => im_set_thread IUndefined s
      | Some buffer =>
          im_set_thread
            (if 0 <? zlen data then IDeliver mask (zlen data)
             else if closes mask then IDone FileClosed
             else IPoll 0)
            (im_read (zlen data) buffer s)
      end
  end.

Definition im_invoke_callback (mask bytesRead : Z) (s : InotifyMonitor) : InotifyMonitor :=
  match read_at 0 bytesRead (im_buffer s) with
  | None => im_set_thread IUndefined s
  | Some chunk =>
      let '(ending, c) := dataReadyCallback chunk (im_callback s) in
      let s := im_deliver chunk c s in
      match ending with
      | CbReturns => im_set_thread (IRead mask) s
      | CbStops =>
          if im_stopRequested s then im_set_thread (IRead mask) s
          else im_set_thread ITerminated (im_set_stop s)
      | CbThrows => im_set_thread ITerminated s
      end
  end.

(** One step of the thread; the callback and the test after a timeout take no answer. *)
Definition inotify_monitorFile (a : inotify_answer) (s : InotifyMonitor) : option InotifyMonitor :=
  match im_thread s, a with
  | IPoll i, Polls ready pollin => Some (waitForInotify i ready pollin s)
  | ICycles, _ => Some (timed_out s)
  | IEvents, Events answer => Some (read_events answer s)
  | IRead mask, Reads a => Some (readFileAndStream mask a s)
  | IDeliver mask bytesRead, _ => Some (im_invoke_callback mask bytesRead s)
  | _, _ => None
  end.

(** One step of the owner.  [fails] is whether a call of the constructor fails: the
    exception leaves the constructor while the thread can be joined, which ends the
    process. *)
Definition inotify_stop (fails : bool) (s : InotifyMonitor) : option InotifyMonitor :=
  match im_owner s with
  | OMembers => Some (im_set_owner OInit (im_init_members s))
  | OInit => Some (if fails then im_set_thread ITerminated s else im_set_owner OWatch s)
  | OWatch => Some (if fails then im_set_thread ITerminated s else im_set_owner OUse s)
  | OUse => Some (im_set_owner (if im_stopRequested s then OStopped else OStore) s)
  | OStore => Some (im_set_owner OJoin (im_set_stop s))
  | OJoin => match im_thread s with IDone _ => Some (im_set_owner OStopped s) | _ => None end
  | OStopped => Some (im_set_owner OClosed s)
  | OClosed => None
  end.

(** ** Interleavings *)

Inductive inotify_label :=
  | IAppends (data : str)
  | IThread (a : inotify_answer)
  | IOwner (fails : bool).

Definition inotify_halted (s : InotifyMonitor) : bool :=
  match im_thread s with ITerminated | IUndefined => true | _ => false end.

Definition inotify_step (l : inotify_label) (s : InotifyMonitor) : option InotifyMonitor :=
  if inotify_halted s then None
  else
    match l with
    | IAppends data => Some (im_append data s)
    | IThread a => inotify_monitorFile a s
    | IOwner fails => inotify_stop fails s
    end.

Fixpoint inotify_run (labels : list inotify_label) (s : InotifyMonitor) : option InotifyMonitor :=
  match labels with
  | [] => Some s
  | l :: labels => s ← inotify_step l s; inotify_run labels s
  end.
End monitor.
Arguments InotifyMonitor : clear implicits.

(** * Properties of the monitor that uses inotify

    Looking at two events is enough; the callback gets the beginning of the file, and
    all of it once the close of the file was seen; after [stop] at most four waits
    time out. *)

(** ** Events *)

(** An event as the kernel writes it: the name is padded to its length. *)
Record event := MkEvent { ev_wd : Z; ev_mask : Z; ev_cookie : Z; ev_name : list Z }.

Definition event_bytes (e : event) : list Z :=
  store32 (ev_wd e) ++ store32 (ev_mask e) ++ store32 (ev_cookie e) ++
  store32 (zlen (ev_name e)) ++ ev_name e.

Definition event_ok (e : event) : Prop :=
  0 <= ev_mask e < 2 ^ 32 /\ zlen (ev_name e) < 2 ^ 32.

Lemma event_field_store32 off w (a b : list Z) : 0 <= w < 2 ^ 32 -> off = zlen a ->
  event_field off (a ++ store32 w ++ b) = Some w.
Proof.
  intros Hw ->. unfold event_field. rewrite read_at_app by done. unfold store32, u8.
  cbn [app]. f_equal. rewrite !Z.shiftr_div_pow2, !Z.shiftl_mul_pow2 by lia.
  Z.to_euclidean_division_equations. lia.
Qed.
Lemma event_fields e (a b : list Z) : event_ok e ->
  event_mask (zlen a) (a ++ event_bytes e ++ b) = Some (ev_mask e) /\
  event_len (zlen a) (a ++ event_bytes e ++ b) = Some (zlen (ev_name e)).
Proof.
  intros [Hm Hn]. unfold event_mask, event_len, event_bytes. split.
  - rewrite <- !app_assoc. rewrite (app_assoc a). apply event_field_store32; [done|].
    rewrite zlen_app. done.
  - rewrite <- !app_assoc. rewrite (app_assoc a), (app_assoc (a ++ _)), (app_assoc ((a ++ _) ++ _)).
    apply event_field_store32; [pose proof (zlen_nonneg (ev_name e)); lia|].
    rewrite !zlen_app. change (zlen (store32 ?w)) with 4. cbn. lia.
Qed.

(** The kernel merges an event with the one before it when they are the same. *)
Fixpoint coalesced (events : list event) : Prop :=
  match events with
  | e1 :: (e2 :: _) as rest => ev_mask e1 <> ev_mask e2 /\ coalesced rest
  | _ => True
  end.

Definition watched (e : event) : Prop :=
  event_ok e /\ (ev_mask e = IN_MODIFY \/ ev_mask e = IN_CLOSE_WRITE).

Lemma zlen_event_bytes e : zlen (event_bytes e) = 16 + zlen (ev_name e).
Proof. unfold event_bytes. rewrite !zlen_app. change (zlen (store32 _)) with 4. lia. Qed.

Lemma read_one_event e : event_ok e ->
  readInotifyEvents (inr (event_bytes e)) = Some (Some (ev_mask e)).
Proof.
  intros He. destruct (event_fields e [] [] He) as [Hm Hl]. rewrite app_nil_r in *. cbn [app] in *.
  unfold readInotifyEvents. change 0 with (zlen (@nil Z)). rewrite Hm, Hl. cbn [mbind option_bind].
  rewrite zlen_event_bytes. unfold inotifyStructEventSize. by rewrite Z.ltb_irrefl.
Qed.

Lemma read_two_events e1 e2 (rest : list Z) : event_ok e1 -> event_ok e2 ->
  readInotifyEvents (inr (event_bytes e1 ++ event_bytes e2 ++ rest)) =
  Some (Some (Z.lor (ev_mask e1) (ev_mask e2))).
Proof.
  intros H1 H2. destruct (event_fields e1 [] (event_bytes e2 ++ rest) H1) as [Hm Hl].
  destruct (event_fields e2 (event_bytes e1) rest H2) as [Hm2 _]. cbn [app] in *.
  unfold readInotifyEvents. change 0 with (zlen (@nil Z)). rewrite Hm, Hl. cbn [mbind option_bind].
  unfold inotifyStructEventSize. rewrite <- zlen_event_bytes. rewrite !zlen_app, zlen_event_bytes.
  rewrite zlen_event_bytes in Hm2. pose proof (zlen_nonneg (ev_name e2)). pose proof (zlen_nonneg rest).
  destruct (Z.ltb_spec (16 + zlen (ev_name e1)) (16 + zlen (ev_name e1) + (zlen (event_bytes e2) + zlen rest)));
    [|rewrite zlen_event_bytes in *; lia].
  by rewrite Hm2.
Qed.

(** The kernel gives whole events.  Of those the monitor asks for, and as the kernel
    merges equal neighbours, the first two tell whether the file was closed. *)
Theorem two_events_are_enough (events : list event)
    (Hw : Forall watched events) (Hc : coalesced events) (Hne : events <> []) :
  exists mask, readInotifyEvents (inr (events ≫= event_bytes)) = Some (Some mask) /\
    closes mask = existsb (fun e => ev_mask e =? IN_CLOSE_WRITE) events.
Proof.
  destruct events as [|e1 [|e2 rest]]; [done| |].
  - destruct (Forall_inv Hw) as [Ho Hm]. cbn [mbind list_bind]. rewrite app_nil_r.
    exists (ev_mask e1). split; [by apply read_one_event|]. cbn. by destruct Hm as [-> | ->].
  - destruct (Forall_inv Hw) as [Ho1 Hm1], (Forall_inv (Forall_inv_tail Hw)) as [Ho2 Hm2].
    cbn [mbind list_bind]. exists (Z.lor (ev_mask e1) (ev_mask e2)).
    split; [by apply read_two_events|]. destruct Hc as [Hd _]. cbn [existsb].
    by destruct Hm1 as [E1|E1], Hm2 as [E2|E2]; rewrite E1, E2 in *.
Qed.

(** ** The monitor *)

Section monitor.
Context {C : Type} (callback : FileChunk -> C -> callback_end * C).
Implicit Types (s : InotifyMonitor C) (labels : list inotify_label).

Abbreviation istep := (inotify_step callback).
Abbreviation irun := (inotify_run callback).

Definition inotify_reachable (buffer_size : Z) (file : str) (c : C) s : Prop :=
  exists labels, irun labels (InotifyMonitor_new buffer_size file c) = Some s.

(** What was read and not yet delivered. *)
Definition undelivered s : str :=
  match im_thread s with IDeliver _ n => ztake n (im_buffer s) | _ => [] end.

Definition owner_stopped s : bool :=
  match im_owner s with OJoin | OStopped | OClosed => true | _ => false end.

Definition ithread_ok (size : Z) s : Prop :=
  match im_thread s with
  | IPoll _ | ITerminated | IUndefined => True
  | ICycles | IEvents | IRead _ => has_inotify s = true
  | IDeliver _ n => has_inotify s = true /\ 0 < n <= size
  | IDone _ => True
  end.

Record inotify_ok (size : Z) (c0 : C) s : Prop := {
  io_size : im_buffer_size s = size /\ 0 < size < 2 ^ 64;
  io_position : 0 <= im_position s <= zlen (im_file s);
  io_thread : ithread_ok size s;
  io_buffer : has_inotify s = true -> zlen (im_buffer s) = size;
  io_init : im_owner s <> OMembers -> zlen (im_buffer s) = size;
  io_cycles : 0 <= im_timeoutCyclesAfterStop s <= 3;
  io_stop : inotify_halted s = false -> im_stopRequested s = owner_stopped s;
  io_joined : im_owner s = OStopped \/ im_owner s = OClosed -> exists r, im_thread s = IDone r;
  io_contents : inotify_halted s = false ->
    concat (im_delivered s) ++ undelivered s = ztake (im_position s) (im_file s);
  io_prefix : concat (im_delivered s) `prefix_of` ztake (im_position s) (im_file s);
  io_chunks : Forall (fun chunk => 0 < zlen chunk <= size) (im_delivered s);
  io_callback : im_callback s = feed callback (im_delivered s) c0;
}.

Lemma inotify_new_ok size file c0 : 0 < size < 2 ^ 64 ->
  inotify_ok size c0 (InotifyMonitor_new size file c0).
Proof. intros Hs. pose proof (zlen_nonneg file). constructor; cbn; try done. by intros [|]. Qed.

Ltac open_inotify s H :=
  destruct s as [file pos stp size_ buf cyc thr own cb del]; destruct H;
  unfold ithread_ok, undelivered, owner_stopped, has_inotify in *; cbn in *.

(** The clauses that a step leaves as they were, or that its position decides. *)
Ltac inotify_clauses :=
  constructor; unfold ithread_ok, undelivered, owner_stopped, has_inotify; cbn in *;
  try assumption; try lia; try tauto.

(** Where the thread is not done the owner has not joined it. *)
Lemma not_joined size c0 s : inotify_ok size c0 s -> (forall r, im_thread s <> IDone r) ->
  ~ (im_owner s = OStopped \/ im_owner s = OClosed).
Proof. intros H Ht Ho. destruct (io_joined _ _ _ H Ho) as [r Hr]. by apply (Ht r). Qed.

(** A change of where the thread is that delivers nothing and forgets nothing. *)
Lemma set_thread_ok size c0 pc s : inotify_ok size c0 s -> inotify_halted s = false ->
  (forall r, im_thread s <> IDone r) -> undelivered s = [] ->
  match pc with IDeliver _ _ => False | ICycles | IEvents | IRead _ => has_inotify s = true | _ => True end ->
  inotify_ok size c0 (im_set_thread pc s).
Proof.
  intros H Hh Ht Hu Hpc. pose proof (not_joined _ _ _ H Ht).
  pose proof (io_contents _ _ _ H Hh) as Hc. rewrite Hu in Hc.
  pose proof (io_stop _ _ _ H Hh) as Hst. clear Hh Hu.
  open_inotify s H. inotify_clauses; destruct pc; done || tauto.
Qed.

Lemma im_append_ok size c0 data s : inotify_halted s = false -> inotify_ok size c0 s ->
  inotify_ok size c0 (im_append data s).
Proof.
  intros Hh H. pose proof (zlen_nonneg data).
  pose proof (io_contents _ _ _ H Hh) as Hc. pose proof (io_stop _ _ _ H Hh) as Hst. clear Hh.
  open_inotify s H.
  assert (ztake pos (file ++ data) = ztake pos file) as Ht by (apply ztake_app_le; lia).
  inotify_clauses; rewrite ?Ht, ?zlen_app; try done; lia.
Qed.

Lemma wait_step_ok size c0 i ready pollin s : im_thread s = IPoll i -> inotify_ok size c0 s ->
  inotify_ok size c0 (waitForInotify i ready pollin s).
Proof.
  intros Ht H. unfold waitForInotify. destruct (has_inotify s) eqn:Hi; cbn [negb];
    repeat case_match; apply set_thread_ok; try done; unfold inotify_halted, undelivered; by rewrite Ht.
Qed.

Lemma timed_out_ok size c0 s : im_thread s = ICycles -> inotify_ok size c0 s ->
  inotify_ok size c0 (timed_out s).
Proof.
  intros Ht H. unfold timed_out.
  assert (inotify_halted s = false) as Hh by (unfold inotify_halted; by rewrite Ht).
  assert (undelivered s = []) as Hu by (unfold undelivered; by rewrite Ht).
  destruct (Z.eqb_spec (im_timeoutCyclesAfterStop s) 0).
  { apply set_thread_ok; try done. by rewrite Ht. }
  apply set_thread_ok; destruct (im_stopRequested s); try done; try (by cbn; rewrite Ht).
  pose proof (io_cycles _ _ _ H). open_inotify s H. inotify_clauses.
Qed.

Lemma read_events_ok size c0 a s : im_thread s = IEvents -> inotify_ok size c0 s ->
  inotify_ok size c0 (read_events a s).
Proof.
  intros Ht H. pose proof (io_thread _ _ _ H) as Hi. unfold ithread_ok in Hi. rewrite Ht in Hi.
  unfold read_events. repeat case_match; apply set_thread_ok; try done;
    unfold inotify_halted, undelivered; by rewrite Ht.
Qed.

Lemma readFileAndStream_ok size c0 mask a s : im_thread s = IRead mask -> inotify_ok size c0 s ->
  inotify_ok size c0 (readFileAndStream mask a s).
Proof.
  intros Ht H. pose proof (io_thread _ _ _ H) as Hi. unfold ithread_ok in Hi. rewrite Ht in Hi.
  unfold readFileAndStream. destruct a as [errno|n].
  { apply set_thread_ok; try done; unfold inotify_halted, undelivered; by rewrite Ht. }
  pose proof (not_joined _ _ _ H ltac:(by rewrite Ht)) as Hnj.
  pose proof (io_buffer _ _ _ H Hi) as Hb.
  open_inotify s H. subst thr. destruct io_size0 as [-> Hs]. cbn in *.
  set (data := read_data n size _).
  destruct (read_data_spec n size pos file ltac:(lia) io_position0) as (H1 & H2 & H3 & H4).
  fold data in H1, H2, H3, H4. pose proof (zlen_nonneg data).
  destruct (write_at_behind 0 data buf ltac:(lia) ltac:(lia)) as (buf' & -> & Hl & Ht).
  rewrite ztake_0 in Ht. cbn [app] in Ht. rewrite Z.add_0_l in Ht.
  rewrite app_nil_r in io_contents0. specialize (io_contents0 eq_refl). specialize (io_stop0 eq_refl).
  destruct (Z.ltb_spec 0 (zlen data)) as [Hd|Hd].
  - inotify_clauses; rewrite ?Hl; try done.
    + intros _. by rewrite Ht, H3, io_contents0.
    + rewrite H3. by apply prefix_app_r.
  - assert (data = []) as -> by (apply zlen_zero; lia). rewrite app_nil_r in H3.
    change (zlen (@nil ascii)) with 0 in *. rewrite Z.add_0_r in *.
    destruct (closes mask); inotify_clauses; rewrite ?Hl, ?app_nil_r, ?Z.add_0_r; done || lia.
Qed.

Lemma im_invoke_callback_ok size c0 mask n s : im_thread s = IDeliver mask n -> inotify_ok size c0 s ->
  inotify_ok size c0 (im_invoke_callback callback mask n s).
Proof.
  intros Ht H. pose proof (not_joined _ _ _ H ltac:(by rewrite Ht)) as Hnj.
  open_inotify s H. subst thr. cbn in *. destruct io_thread0 as [Hi Hn]. specialize (io_buffer0 Hi).
  specialize (io_contents0 eq_refl). specialize (io_stop0 eq_refl). destruct io_size0 as [-> Hs].
  unfold im_invoke_callback. cbn [im_buffer im_callback im_stopRequested].
  destruct (split_at n buf ltac:(lia)) as (chunk & rest & -> & Hc).
  assert (read_at 0 n (chunk ++ rest) = Some chunk) as -> by (by apply (read_at_app 0 n [])).
  rewrite (ztake_app_eq n chunk) in io_contents0 by done.
  unfold FileChunk in *.
  assert (concat (del ++ [chunk]) = ztake pos file) as Hd
    by (by rewrite concat_app; cbn; rewrite app_nil_r).
  assert (Forall (fun chunk => 0 < zlen chunk <= size) (del ++ [chunk])) as Hfa
    by (apply Forall_app; split; [done|apply Forall_singleton; lia]).
  destruct (callback chunk cb) as [ending c'] eqn:Ec.
  assert (c' = feed callback (del ++ [chunk]) c0) as Hk.
  { unfold feed. rewrite fold_left_app. cbn. rewrite io_callback0 in Ec. unfold feed, FileChunk in *.
    by rewrite Ec. }
  destruct ending; [|destruct stp|]; inotify_clauses; unfold FileChunk in *; rewrite ?Hd, ?app_nil_r; done.
Qed.

Lemma inotify_stop_ok size c0 fails s s' : inotify_ok size c0 s -> inotify_halted s = false ->
  inotify_stop fails s = Some s' -> inotify_ok size c0 s'.
Proof.
  intros H Hh E. pose proof (io_contents _ _ _ H Hh) as Hc. pose proof (io_stop _ _ _ H Hh) as Hst.
  clear Hh. open_inotify s H. unfold inotify_stop in E.
  cbn in E. destruct own; try discriminate E.
  - injection E as <-. assert (zlen (replicate (Z.to_nat size_) "000"%char) = size) as Hz
      by (unfold zlen; rewrite length_replicate; lia).
    destruct thr; try discriminate io_thread0; try (destruct io_thread0; discriminate);
      inotify_clauses; by intros [|].
  - destruct fails; injection E as <-; inotify_clauses; try (by intros [|]).
    + destruct thr; first [exact I|discriminate io_thread0|destruct io_thread0; discriminate].
    + intros _. by apply io_init0.
    + intros _. by apply io_init0.
  - destruct fails; injection E as <-; inotify_clauses; by intros [|].
  - destruct stp; [discriminate Hst|]. injection E as <-. inotify_clauses; by intros [|].
  - injection E as <-. inotify_clauses; by intros [|].
  - destruct thr; try discriminate E. injection E as <-. inotify_clauses; naive_solver.
  - injection E as <-. inotify_clauses; naive_solver.
Qed.

Lemma inotify_step_ok size c0 l s s' : inotify_ok size c0 s -> istep l s = Some s' ->
  inotify_ok size c0 s'.
Proof.
  intros H E. unfold inotify_step in E. destruct (inotify_halted s) eqn:Hh; [done|].
  destruct l as [data|a|fails]; [injection E as <-; by apply im_append_ok| |by eapply inotify_stop_ok].
  unfold inotify_monitorFile in E.
  destruct (im_thread s) eqn:Ht; try done; destruct a as [ready pollin|ea|a]; try done;
    injection E as <-;
    first [by eapply wait_step_ok|by apply timed_out_ok|by apply read_events_ok
          |by apply readFileAndStream_ok|by apply im_invoke_callback_ok].
Qed.

Lemma inotify_run_ok size c0 labels s s' : inotify_ok size c0 s -> irun labels s = Some s' ->
  inotify_ok size c0 s'.
Proof.
  revert s. induction labels as [|l labels IH]; intros s H E; cbn in E; [by simplify_eq|].
  destruct (istep l s) as [s1|] eqn:E1; [|done]. eapply IH; [|done]. by eapply inotify_step_ok.
Qed.

Lemma inotify_reachable_ok size file c0 s : 0 < size < 2 ^ 64 -> inotify_reachable size file c0 s ->
  inotify_ok size c0 s.
Proof. intros Hs [labels E]. eapply inotify_run_ok; [by apply inotify_new_ok|exact E]. Qed.

(** The chunks are the beginning of the file, in order, each no longer than the buffer;
    what was read of the file was delivered or is about to be; nothing is lost between
    the two. *)
Theorem inotify_delivers_in_order (size : Z) (file : str) (c0 : C) (s : InotifyMonitor C)
    (Hsize : 0 < size < 2 ^ 64) (Hs : inotify_reachable size file c0 s) :
  concat (im_delivered s) `prefix_of` ztake (im_position s) (im_file s) /\
  (inotify_halted s = false ->
   concat (im_delivered s) ++ undelivered s = ztake (im_position s) (im_file s)) /\
  Forall (fun chunk => 0 < zlen chunk <= size) (im_delivered s) /\
  im_callback s = feed callback (im_delivered s) c0.
Proof. by destruct (inotify_reachable_ok size file c0 s Hsize Hs). Qed.

(** ** The close of the file *)

Definition is_iappend (l : inotify_label) : bool :=
  match l with IAppends _ => true | _ => false end.

Definition caught_up s : Prop := im_thread s = IDone FileClosed -> im_position s = zlen (im_file s).

Lemma caught_up_step size c0 l s s' : inotify_ok size c0 s -> caught_up s ->
  is_iappend l = false -> istep l s = Some s' -> caught_up s'.
Proof.
  intros H Hc Hl E. unfold inotify_step in E. destruct (inotify_halted s); [done|].
  destruct l as [data|a|fails]; [done| |].
  2: { unfold inotify_stop in E. unfold caught_up in *. repeat case_match; simplify_eq; cbn in *;
    intros Ht; first [discriminate Ht|apply Hc; congruence]. }
  unfold inotify_monitorFile in E.
  destruct (im_thread s) eqn:Ht; try done; destruct a as [ready pollin|ea|a]; try done; injection E as <-;
    unfold caught_up, waitForInotify, timed_out, read_events, im_invoke_callback;
    try (repeat case_match; simplify_eq; cbn; intros; discriminate).
  unfold readFileAndStream. destruct a as [errno|n]; [done|]. destruct (write_at _ _ _); [|done]. cbn.
  destruct (io_size _ _ _ H) as [-> Hs].
  destruct (read_data_spec n size (im_position s) (im_file s) ltac:(lia) (io_position _ _ _ H))
    as (_ & _ & _ & He).
  destruct (Z.ltb_spec 0 (zlen (read_data n size (zdrop (im_position s) (im_file s))))); [done|].
  intros _. pose proof (zlen_nonneg (read_data n size (zdrop (im_position s) (im_file s)))).
  destruct He; lia.
Qed.

(** C38. When the thread has seen the close of the file, and no more is written from some
    point before that, the callback was given the whole file. *)
Theorem close_delivers_all (size : Z) (file : str) (c0 : C) (labels : list inotify_label)
    (s s' : InotifyMonitor C) (Hsize : 0 < size < 2 ^ 64)
    (Hs : inotify_reachable size file c0 s) (Hrunning : im_thread s <> IDone FileClosed)
    (Hlabels : Forall (fun l => is_iappend l = false) labels)
    (Hrun : irun labels s = Some s') (Hdone : im_thread s' = IDone FileClosed) :
  concat (im_delivered s') = im_file s'.
Proof.
  pose proof (inotify_reachable_ok size file c0 s Hsize Hs) as H.
  assert (caught_up s) as Hc by (intros Ht; by destruct (Hrunning Ht)). clear Hrunning Hs.
  revert s H Hc Hrun. induction Hlabels as [|l labels Hl _ IH]; intros s H Hc E; cbn in E.
  - injection E as ->. assert (inotify_halted s' = false) as Hh by (unfold inotify_halted; by rewrite Hdone).
    pose proof (io_contents _ _ _ H Hh) as Hd. unfold undelivered in Hd.
    rewrite Hdone, app_nil_r, (Hc Hdone), ztake_ge in Hd by apply Z.le_refl. exact Hd.
  - destruct (istep l s) as [s1|] eqn:E1; [|done].
    apply (IH s1); [by eapply inotify_step_ok|by eapply caught_up_step|exact E].
Qed.

(** ** After [stop] *)

(** How often a wait may still time out. *)
Definition waits_left s : Z :=
  match im_thread s with
  | IDone _ | ITerminated | IUndefined => 0
  | ICycles => im_timeoutCyclesAfterStop s
  | _ => im_timeoutCyclesAfterStop s + 1
  end.

Definition is_timeout (l : inotify_label) : bool :=
  match l with IThread (Polls ready _) => ready =? 0 | _ => false end.

Lemma waits_left_step size c0 l s s' : inotify_ok size c0 s -> im_stopRequested s = true ->
  istep l s = Some s' -> im_stopRequested s' = true /\
  waits_left s' + (if is_timeout l then match im_thread s with IPoll _ => 1 | _ => 0 end else 0)
  <= waits_left s.
Proof.
  intros H Hst E. pose proof (io_cycles _ _ _ H).
  unfold inotify_step in E. destruct (inotify_halted s); [done|].
  destruct l as [data|a|fails].
  - injection E as <-. cbn. split; [done|unfold waits_left; cbn; lia].
  - cbn. unfold inotify_monitorFile in E. unfold waits_left.
    destruct (im_thread s) eqn:Ht; try done; destruct a as [ready pollin|ea|a]; try done;
      injection E as <-;
      unfold waitForInotify, timed_out, read_events, readFileAndStream, im_invoke_callback;
      rewrite ?Hst; repeat case_match; b2p; simplify_eq; cbn in *; (split; [done|lia]).
  - assert (im_stopRequested s' = true /\ im_timeoutCyclesAfterStop s' = im_timeoutCyclesAfterStop s /\
      (im_thread s' = im_thread s \/ im_thread s' = ITerminated)) as (Hst' & Hcy & Hth).
    { unfold inotify_stop in E. destruct s; cbn in *. repeat case_match; simplify_eq; cbn; auto. }
    split; [done|]. unfold waits_left, is_timeout. rewrite Hcy.
    destruct Hth as [-> | ->]; [lia|]. destruct (im_thread s); lia.
Qed.

(** The waits that time out in a run. *)
Fixpoint timeouts labels s : Z :=
  match labels with
  | [] => 0
  | l :: labels =>
      (if is_timeout l then match im_thread s with IPoll _ => 1 | _ => 0 end else 0) +
      match istep l s with Some s' => timeouts labels s' | None => 0 end
  end.

Lemma timeouts_bound size c0 labels s s' : inotify_ok size c0 s -> im_stopRequested s = true ->
  irun labels s = Some s' -> timeouts labels s + waits_left s' <= waits_left s.
Proof.
  revert s. induction labels as [|l labels IH]; intros s H Hst E; cbn in E.
  { injection E as <-. cbn. lia. }
  cbn. destruct (istep l s) as [s1|] eqn:E1; [|done].
  destruct (waits_left_step _ _ _ _ _ H Hst E1) as [Hs1 Hl].
  specialize (IH s1 ltac:(by eapply inotify_step_ok) Hs1 E). lia.
Qed.

Lemma irun_app labels1 labels2 s s1 : irun labels1 s = Some s1 ->
  irun (labels1 ++ labels2) s = irun labels2 s1.
Proof.
  revert s. induction labels1 as [|l labels1 IH]; intros s E; cbn in *; [by simplify_eq|].
  destruct (istep l s) as [s2|]; [|done]. by apply IH.
Qed.

(** A label with which the thread moves, on calls that do not fail; the polls time
    out, the events are a change of the file. *)
Definition quiet (pc : inotify_pc) : inotify_label :=
  match pc with
  | IEvents => IThread (Events (inr (event_bytes (MkEvent 1 IN_MODIFY 0 []))))
  | IRead _ => IThread (Reads (Gives 4096))
  | _ => IThread (Polls 0 false)
  end.

(** What is left to do for the thread: reading and waiting. *)
Definition work_left s : nat :=
  let unread := Z.to_nat (zlen (im_file s) - im_position s) in
  let waits := Z.to_nat (im_timeoutCyclesAfterStop s) in
  match im_thread s with
  | IDone _ | ITerminated | IUndefined => 0
  | ICycles => 2 * waits + 1
  | IPoll _ => 2 * waits + 2
  | IRead _ => 2 * unread + 2 * waits + 3
  | IEvents => 2 * unread + 2 * waits + 4
  | IDeliver _ _ => 2 * unread + 2 * waits + 4
  end.

Lemma quiet_step size c0 s : inotify_ok size c0 s -> im_stopRequested s = true ->
  im_owner s = OJoin -> inotify_halted s = false -> (forall r, im_thread s <> IDone r) ->
  never_throws callback ->
  exists s', istep (quiet (im_thread s)) s = Some s' /\ inotify_halted s' = false /\
    im_owner s' = OJoin /\ im_stopRequested s' = true /\ (work_left s' < work_left s)%nat.
Proof.
  intros H Hst Ho Hh Hd Hc. unfold inotify_step. rewrite Hh.
  assert (has_inotify s = true) as Hi by (unfold has_inotify; by rewrite Ho).
  pose proof (io_cycles _ _ _ H). pose proof (io_position _ _ _ H).
  pose proof (io_buffer _ _ _ H Hi) as Hb. destruct (io_size _ _ _ H) as [Hsz Hs].
  pose proof (io_thread _ _ _ H) as Hok. unfold ithread_ok in Hok. unfold work_left.
  unfold inotify_halted in *.
  destruct (im_thread s) as [i| | |m|m n|r| |] eqn:Ht; cbn [quiet]; unfold inotify_monitorFile;
    rewrite Ht; try done.
  - eexists. split; [done|]. unfold waitForInotify. rewrite Hi. cbn. repeat split; try done. lia.
  - eexists. split; [done|]. unfold timed_out. rewrite Hst.
    destruct (Z.eqb_spec (im_timeoutCyclesAfterStop s) 0); cbn; repeat split; try done; lia.
  - eexists. split; [done|]. unfold read_events. rewrite read_one_event by (repeat split; by vm_compute).
    cbn. repeat split; try done. lia.
  - eexists. split; [done|]. unfold readFileAndStream.
    destruct (read_data_spec 4096 (im_buffer_size s) (im_position s) (im_file s) ltac:(lia) ltac:(lia))
      as (Hr1 & Hr2 & _ & _).
    set (data := read_data _ _ _) in *. pose proof (zlen_nonneg data).
    destruct (write_at_behind 0 data (im_buffer s) ltac:(lia) ltac:(lia)) as (buf' & -> & _).
    destruct (Z.ltb_spec 0 (zlen data)); [|destruct (closes _)]; cbn; repeat split; try done; lia.
  - eexists. split; [done|]. unfold im_invoke_callback. destruct Hok as [_ Hn].
    destruct (split_at n (im_buffer s) ltac:(lia)) as (chunk & rest & Eb & Hl). rewrite Eb.
    assert (read_at 0 n (chunk ++ rest) = Some chunk) as -> by (by apply (read_at_app 0 _ [])).
    specialize (Hc chunk (im_callback s)).
    destruct (callback chunk (im_callback s)) as [[] c]; try done; cbn; rewrite ?Hst; cbn;
      repeat split; try done; lia.
  - by destruct (Hd r).
Qed.

Lemma quiet_end n size c0 s : (work_left s <= n)%nat -> inotify_ok size c0 s ->
  im_stopRequested s = true -> im_owner s = OJoin -> inotify_halted s = false ->
  never_throws callback ->
  exists labels s', (length labels <= n)%nat /\ irun labels s = Some s' /\ im_owner s' = OJoin /\
    exists r, im_thread s' = IDone r.
Proof.
  revert s. induction n as [|n IH]; intros s Hn H Hst Ho Hh Hc;
    destruct (im_thread s) as [| | | | |r| |] eqn:Ht;
    try (exists [], s; cbn; repeat split; eauto with lia; fail);
    try (unfold inotify_halted in Hh; rewrite Ht in Hh; discriminate Hh);
    try (exfalso; unfold work_left in Hn; rewrite Ht in Hn; lia);
    (destruct (quiet_step size c0 s H Hst Ho Hh ltac:(by rewrite Ht) Hc) as (s1 & E1 & Hh1 & Ho1 & Hst1 & Hw);
     destruct (IH s1 ltac:(lia) ltac:(by eapply inotify_step_ok) Hst1 Ho1 Hh1 Hc) as (labels & s' & Hl & E & ? & ?);
     exists (quiet (im_thread s) :: labels), s'; split; [cbn; lia|]; split; [cbn; by rewrite E1|done]).
Qed.

(** After [stop] has set its flag at most four waits time out, however the threads
    interleave; and if the calls do not fail and the callback does not throw, then
    within a number of steps that the unread bytes bound the thread is at its end and
    [stop] returns. *)
Theorem inotify_stop_returns (size : Z) (file : str) (c0 : C) (s : InotifyMonitor C)
    (Hsize : 0 < size < 2 ^ 64) (Hs : inotify_reachable size file c0 s)
    (Hstop : im_stopRequested s = true) :
  (forall labels s', irun labels s = Some s' -> timeouts labels s <= 4) /\
  (never_throws callback -> im_owner s = OJoin -> inotify_halted s = false ->
   exists labels s', (length labels <= 2 * Z.to_nat (zlen (im_file s) - im_position s) + 11)%nat /\
     irun labels s = Some s' /\ im_owner s' = OStopped).
Proof.
  pose proof (inotify_reachable_ok size file c0 s Hsize Hs) as H.
  pose proof (io_cycles _ _ _ H) as Hcy. split.
  - intros labels s' E. pose proof (timeouts_bound _ _ _ _ _ H Hstop E).
    pose proof (io_cycles _ _ _ (inotify_run_ok _ _ _ _ _ H E)).
    unfold waits_left in *. destruct (im_thread s), (im_thread s'); lia.
  - intros Hc Ho Hh. destruct (quiet_end (work_left s) size c0 s ltac:(lia) H Hstop Ho Hh Hc)
      as (labels & s1 & Hn & E & Ho1 & r & Ht).
    exists (labels ++ [IOwner false]). eexists. split.
    { rewrite length_app. cbn. unfold work_left in Hn. destruct (im_thread s); lia. }
    rewrite (irun_app _ _ _ _ E). cbn. unfold inotify_step, inotify_halted, inotify_stop.
    rewrite Ht, Ho1. by split.
Qed.
End monitor.

(** ** Examples *)

Definition modified : event := MkEvent 1 IN_MODIFY 0 [].
Definition closed_event : event := MkEvent 1 IN_CLOSE_WRITE 0 [].

Definition polled : inotify_label := IThread (Polls 1 true).
Definition timeout : inotify_label := IThread (Polls 0 false).
Definition told (events : list event) : inotify_label :=
  IThread (Events (inr (events ≫= event_bytes))).
Definition reads : inotify_label := IThread (Reads (Gives 4096)).
Definition owner : inotify_label := IOwner false.

(** The members and the watch. *)
Definition constructed : list inotify_label := [owner; owner; owner].

Definition inotify_outcome (labels : list inotify_label) (file : str)
  : option (list Z * inotify_pc * bool) :=
  s ← inotify_run takes labels (InotifyMonitor_new 128 file ());
  Some (map zlen (im_delivered s), im_thread s, im_stopRequested s).

(** The thread polls before the constructor has a descriptor to poll. *)
Example polls_before_inotify_init :
  inotify_outcome [owner; polled] [] = Some ([], IUndefined, false).
Proof. vm_compute. reflexivity. Qed.

(** When the constructor throws the thread can still be joined. *)
Example failing_constructor_terminates :
  inotify_outcome [owner; IOwner true] [] = Some ([], ITerminated, false).
Proof. vm_compute. reflexivity. Qed.

(** Too few bytes for an event are reported and then looked at. *)
Example short_event_is_read :
  inotify_outcome (constructed ++ [polled; IThread (Events (inr [0; 0; 0; 0]))]) [] =
  Some ([], IUndefined, false).
Proof. vm_compute. reflexivity. Qed.

(** A failing [poll] ends the monitoring, though nobody asked to stop. *)
Example failing_poll_ends_monitoring :
  inotify_outcome (constructed ++ [IAppends (letters 5); IThread (Polls (-1) false)]) [] =
  Some ([], IDone PollFailed, false).
Proof. vm_compute. reflexivity. Qed.

(** What was there before the watch is not reported, and not delivered. *)
Example early_data_is_not_seen :
  inotify_outcome (constructed ++ [owner; owner; timeout; timeout; timeout; timeout; timeout; timeout;
                                   timeout; timeout; owner]) (letters 5) =
  Some ([], IDone Stopped, true).
Proof. vm_compute. reflexivity. Qed.

Lemma two_events_are_enough_witness :
  exists mask, readInotifyEvents (inr ([modified; closed_event; modified] ≫= event_bytes)) = Some (Some mask) /\
    closes mask = true.
Proof.
  apply (two_events_are_enough [modified; closed_event; modified]).
  - repeat (constructor; [split; [repeat split; by vm_compute|by (left + right)]|]). constructor.
  - repeat split; by vm_compute.
  - done.
Defined.

(** Two writes and the close. *)
Definition toy_inotify : list inotify_label :=
  constructed ++ [IAppends (letters 200); polled; told [modified]; reads; timeout; reads; timeout;
                  IAppends (letters 7)].
Definition toy_close : list inotify_label :=
  [reads; timeout; reads; polled; told [closed_event]; reads].

Lemma toy_inotify_run (labels : list inotify_label) (test : InotifyMonitor unit -> bool) :
  from_option test false (inotify_run takes labels (InotifyMonitor_new 128 [] ())) = true ->
  exists s, inotify_run takes labels (InotifyMonitor_new 128 [] ()) = Some s /\ test s = true.
Proof. destruct (inotify_run _ _ _) as [s|]; [|done]. by exists s. Qed.

#[local] Instance inotify_pc_dec : EqDecision inotify_pc.
Proof. assert (EqDecision end_reason) by solve_decision. solve_decision. Defined.
#[local] Instance owner_pc_dec : EqDecision owner_pc.
Proof. solve_decision. Defined.

Lemma inotify_delivers_in_order_witness :
  exists s, inotify_reachable takes 128 [] () s /\ map zlen (im_delivered s) = [128; 72] /\
    concat (im_delivered s) `prefix_of` ztake (im_position s) (im_file s).
Proof.
  destruct (toy_inotify_run toy_inotify (fun s => bool_decide (map zlen (im_delivered s) = [128; 72])))
    as (s & E & Hd%bool_decide_eq_true); [by vm_compute|].
  assert (inotify_reachable takes 128 [] () s) as Hs by (exists toy_inotify; exact E).
  exists s. split; [exact Hs|]. split; [exact Hd|].
  destruct (inotify_delivers_in_order takes 128 [] () s ltac:(lia) Hs) as (Hp & _). exact Hp.
Defined.

Lemma close_delivers_all_witness :
  exists s s', inotify_reachable takes 128 [] () s /\ inotify_run takes toy_close s = Some s' /\
    concat (im_delivered s') = im_file s' /\ zlen (im_file s') = 207.
Proof.
  destruct (toy_inotify_run toy_inotify (fun s => bool_decide (im_thread s = IRead IN_MODIFY) &&
    from_option (fun s' => bool_decide (im_thread s' = IDone FileClosed) &&
      bool_decide (zlen (im_file s') = 207)) false (inotify_run takes toy_close s)))
    as (s & E & [Ht%bool_decide_eq_true He]%andb_true_iff); [by vm_compute|].
  destruct (inotify_run takes toy_close s) as [s'|] eqn:E'; [|discriminate He].
  apply andb_true_iff in He as [Hd%bool_decide_eq_true Hl%bool_decide_eq_true].
  assert (inotify_reachable takes 128 [] () s) as Hs by (exists toy_inotify; exact E).
  exists s, s'. split; [exact Hs|]. split; [exact E'|]. split; [|exact Hl].
  apply (close_delivers_all takes 128 [] () toy_close s s' ltac:(lia) Hs);
    [rewrite Ht; discriminate| |exact E'|exact Hd].
  unfold toy_close. repeat (constructor; [reflexivity|]). constructor.
Defined.

Lemma inotify_stop_returns_witness :
  exists s labels s', inotify_reachable takes 128 [] () s /\ im_stopRequested s = true /\
    inotify_run takes labels s = Some s' /\ im_owner s' = OStopped.
Proof.
  destruct (toy_inotify_run (toy_inotify ++ [owner; owner]) (fun s => im_stopRequested s &&
    negb (inotify_halted s) && bool_decide (im_owner s = OJoin)))
    as (s & E & [[Hst Hh%negb_true_iff]%andb_true_iff Ho%bool_decide_eq_true]%andb_true_iff);
    [by vm_compute|].
  assert (inotify_reachable takes 128 [] () s) as Hs by (exists (toy_inotify ++ [owner; owner]); exact E).
  destruct (inotify_stop_returns takes 128 [] () s ltac:(lia) Hs Hst) as [_ Hf].
  destruct (Hf ltac:(done) Ho Hh) as (labels & s' & _ & ? & ?).
  exists s, labels, s'. repeat (split; [assumption|]). assumption.
Defined.
