(* ===== verification/OutputStreamer.v ===== *)
(** * Streaming the output of a command

    [buildboxcommon_standardoutputstreamer.cpp]: a file monitor whose callback writes
    each chunk to a log stream, and [stop], which ends the monitoring and commits the
    stream.  The owner runs the constructor and then [stop].  Which monitor it is, is
    chosen when the library is built: the one of [InotifyMonitor] where there is
    [sys/inotify.h] (FILEMONITOR_USE_INOTIFY: on Linux), else that of [FileMonitor].
    The streamer is over an interface that both implement; the threads are theirs. *)

From S2P Require Import Prelude Arrays Blake3Compress Grpc Client LogStream LogStreamSpec FileMonitor FileMonitorSpec InotifyMonitor.
Open Scope Z_scope.

(** ** The monitor of the build *)

(** What the streamer uses of [d_fileMonitor], and what the theorems look at; a label
    is a step of the owner or of another thread. *)
Class FileMonitorImpl (Mon : Type -> Type) (L : Type) := {
  mon_new {C} : Z -> str -> C -> Mon C;
  mon_step {C} : (FileChunk -> C -> callback_end * C) -> L -> Mon C -> option (Mon C);
  owner_label : L -> bool;
  mon_halted {C} : Mon C -> bool;
  (** The constructor has come to its end; [stop] has. *)
  mon_constructed {C} : Mon C -> bool;
  mon_stopped {C} : Mon C -> bool;
  mon_file {C} : Mon C -> str;
  mon_delivered {C} : Mon C -> list FileChunk;
  mon_callback {C} : Mon C -> C;
  mon_set_callback {C} : C -> Mon C -> Mon C;
}.

(** [StreamingStandardOutputFileMonitor]. *)
#[global] Instance polling_monitor : FileMonitorImpl Monitor label := {
  mon_new C := Monitor_new;
  mon_step C := monitor_step;
  owner_label l := match l with Main => true | _ => false end;
  mon_halted C := halted;
  mon_constructed C m := match fm_main m with MInit => false | _ => true end;
  mon_stopped C m := match fm_main m with MStopped => true | _ => false end;
  mon_file C := fm_file;
  mon_delivered C := fm_delivered;
  mon_callback C := fm_callback;
  mon_set_callback C c m :=
    MkMonitor (fm_file m) (fm_position m) (fm_open m) (d_stopRequested m) (fm_initialised m)
      (d_read_buffer_size m) (d_read_buffer m) (d_read_buffer_offset m) (fm_thread m) (fm_main m)
      c (fm_delivered m);
}.

(** [StreamingStandardOutputInotifyFileMonitor]. *)
#[global] Instance inotify_monitor : FileMonitorImpl InotifyMonitor inotify_label := {
  mon_new C := InotifyMonitor_new;
  mon_step C := inotify_step;
  owner_label l := match l with IOwner _ => true | _ => false end;
  mon_halted C := inotify_halted;
  mon_constructed C m := match im_owner m with OMembers | OInit | OWatch => false | _ => true end;
  mon_stopped C m := match im_owner m with OStopped => true | _ => false end;
  mon_file C := im_file;
  mon_delivered C := im_delivered;
  mon_callback C := im_callback;
  mon_set_callback C c m :=
    MkInotifyMonitor (im_file m) (im_position m) (im_stopRequested m) (im_buffer_size m)
      (im_buffer m) (im_timeoutCyclesAfterStop m) (im_thread m) (im_owner m) c (im_delivered m);
}.

(** ** The streamer *)

Section streamer.
Context {W : Type} (env : LogEnv W) {Mon : Type -> Type} {L : Type} `{!FileMonitorImpl Mon L}.

(** What the callback acts on: the writer of the log, the world, and whether the
    callback has set [d_stopRequested] of the streamer.  That member is written by both
    threads: it is set when either has set it. *)
Abbreviation Streamed := (LogStreamWriter * W * bool)%type.

Definition streamLogChunk (chunk : FileChunk) (c : Streamed) : callback_end * Streamed :=
  let '(s, stopRequested) := c in
  match write env chunk s with
  | (Throw _, s) => (CbThrows, (s, stopRequested))
  | (Ok true, s) => (CbReturns, (s, stopRequested))
  | (Ok false, s) => (CbStops, (s, true))
  end.

(** Where the owner is. *)
Inductive streamer_pc :=
  | SConstruct                    (* in the constructor of [d_fileMonitor], and after it *)
  | SUse
  | SFlag                         (* [d_stopRequested = true] *)
  | SMonitor                      (* [d_fileMonitor.stop()] *)
  | SCommit                       (* [d_logstreamWriter.commit()] *)
  | SReturned (result : res bool).

Record StandardOutputStreamer := MkStreamer {
  d_fileMonitor : Mon Streamed;
  (** [d_stopRequested] as the owner has set it. *)
  so_stopRequested : bool;
  so_pc : streamer_pc;
}.

(** The constructor up to the start of the thread, for a file that was opened and a
    writer that was made. *)
Definition StandardOutputStreamer_new (buffer_size : Z) (file : str) (writer : LogStreamWriter)
    (w : W) : StandardOutputStreamer :=
  MkStreamer (mon_new buffer_size file (writer, w, false)) false SConstruct.

Definition set_pc (pc : streamer_pc) (s : StandardOutputStreamer) : StandardOutputStreamer :=
  MkStreamer (d_fileMonitor s) (so_stopRequested s) pc.
Definition set_flag (flag : bool) (s : StandardOutputStreamer) : StandardOutputStreamer :=
  MkStreamer (d_fileMonitor s) flag (so_pc s).
Definition set_monitor (m : Mon Streamed) (s : StandardOutputStreamer) : StandardOutputStreamer :=
  MkStreamer m (so_stopRequested s) (so_pc s).

Definition stop_requested (s : StandardOutputStreamer) : bool :=
  so_stopRequested s || snd (mon_callback (d_fileMonitor s)).

Definition monitor_moves (l : L) (s : StandardOutputStreamer) : option StandardOutputStreamer :=
  m ← mon_step streamLogChunk l (d_fileMonitor s); Some (set_monitor m s).

(** [return d_logstreamWriter.commit()]. *)
Definition commit_log (s : StandardOutputStreamer) : StandardOutputStreamer :=
  let '(c, stopRequested) := mon_callback (d_fileMonitor s) in
  let '(result, c) := commit env c in
  set_pc (SReturned result)
    (set_monitor (mon_set_callback (c, stopRequested) (d_fileMonitor s)) s).

(** One step of the owner: the rest of the constructor, then [stop]. *)
Definition owner_step (l : L) (s : StandardOutputStreamer) : option StandardOutputStreamer :=
  match so_pc s with
  | SConstruct =>
      if negb (mon_constructed (d_fileMonitor s)) then monitor_moves l s
      else Some (set_pc SUse (set_flag false s))
  | SUse =>
      if stop_requested s then Some (set_pc (SReturned (Ok false)) s)
      else Some (set_pc SFlag s)
  | SFlag => Some (set_pc SMonitor (set_flag true s))
  | SMonitor =>
      if mon_stopped (d_fileMonitor s) then Some (set_pc SCommit s)
      else monitor_moves l s
  | SCommit => Some (commit_log s)
  | SReturned _ => None
  end.

Definition streamer_step (l : L) (s : StandardOutputStreamer) : option StandardOutputStreamer :=
  if mon_halted (d_fileMonitor s) then None
  else if owner_label l then owner_step l s else monitor_moves l s.

Fixpoint streamer_run (labels : list L) (s : StandardOutputStreamer)
  : option StandardOutputStreamer :=
  match labels with
  | [] => Some s
  | l :: labels => s ← streamer_step l s; streamer_run labels s
  end.
End streamer.
Arguments StandardOutputStreamer : clear implicits.

(** * Properties of the streamer of a command's output

    What the server took are chunks of the file in order; when [stop] returns true the
    server has confirmed their number; and when nothing went wrong it is the file. *)

(** ** What a monitor promises *)

Section reached.
Context {Mon : Type -> Type} {L : Type} `{!FileMonitorImpl Mon L} {C : Type}.
Context (callback : FileChunk -> C -> callback_end * C) (size : Z) (file : str) (c0 : C).

(** The states of a monitor. *)
Inductive mon_reached : Mon C -> Prop :=
  | mon_reached_new : mon_reached (mon_new size file c0)
  | mon_reached_step l m m' :
      mon_reached m -> mon_step callback l m = Some m' -> mon_reached m'.
End reached.

(** The callback was given the chunks that were delivered, the beginning of the file;
    once [stop] has returned the other threads add to the file and do nothing else,
    whatever the callback acts on. *)
Class FileMonitorLaws (Mon : Type -> Type) (L : Type) `{!FileMonitorImpl Mon L} := {
  size_ok : Z -> Prop;
  law_callback {C} callback size file (c0 : C) m :
    size_ok size -> mon_reached callback size file c0 m ->
    mon_callback m = feed callback (mon_delivered m) c0;
  law_prefix {C} callback size file (c0 : C) m :
    size_ok size -> mon_reached callback size file c0 m ->
    concat (mon_delivered m) `prefix_of` mon_file m;
  law_stopped {C} callback size file (c0 : C) m l c m1 :
    size_ok size -> mon_reached callback size file c0 m -> mon_stopped m = true ->
    owner_label l = false -> mon_step callback l (mon_set_callback c m) = Some m1 ->
    exists m2, mon_step callback l m = Some m2 /\ m1 = mon_set_callback c m2 /\
      mon_stopped m2 = true /\ mon_callback m2 = mon_callback m;
  set_callback_file {C} (c : C) m : mon_file (mon_set_callback c m) = mon_file m;
  set_callback_delivered {C} (c : C) m : mon_delivered (mon_set_callback c m) = mon_delivered m;
  set_callback_get {C} (c : C) m : mon_callback (mon_set_callback c m) = c;
  set_callback_same {C} (m : Mon C) : mon_set_callback (mon_callback m) m = m;
}.

Lemma polling_reachable {C} callback size file (c0 : C) m :
  mon_reached callback size file c0 m <-> reachable callback size file c0 m.
Proof.
  split.
  - induction 1 as [|l m m' _ [labels E] E']; [by exists []|].
    exists (labels ++ [l]). rewrite (monitor_run_app _ _ _ _ _ E). cbn.
    cbn in E'. by rewrite E'.
  - intros [labels E].
    enough (forall m0, mon_reached callback size file c0 m0 ->
      monitor_run callback labels m0 = Some m -> mon_reached callback size file c0 m) as H
      by (apply (H (Monitor_new size file c0)); [constructor|done]).
    clear E. induction labels as [|l labels IH]; intros m0 H0 E; cbn in E; [by injection E as <-|].
    destruct (monitor_step callback l m0) as [m1|] eqn:E1; [|done].
    apply (IH m1); [by apply (mon_reached_step _ _ _ _ l m0)|done].
Qed.

#[global] Instance polling_laws : FileMonitorLaws Monitor label.
Proof.
  refine (Build_FileMonitorLaws _ _ _ (fun size => 102 <= size < 2 ^ 64) _ _ _ _ _ _ _); try done.
  - intros C callback size file c0 m Hs Hm%polling_reachable.
    by destruct (monitor_reachable_ok callback size file c0 m Hs Hm).
  - intros C callback size file c0 m Hs Hm%polling_reachable.
    etransitivity; [apply (ok_prefix _ _ _ _ (monitor_reachable_ok callback size file c0 m Hs Hm))|].
    apply prefix_take.
  - intros C callback size file c0 m l c m1 Hs Hm%polling_reachable Hst Hl E.
    pose proof (monitor_reachable_ok callback size file c0 m Hs Hm) as Hok. cbn in *.
    destruct (fm_main m) eqn:Em; try done.
    pose proof (ok_joined _ _ _ _ Hok (or_introl Em)) as Ht.
    unfold monitor_step, halted, monitorFile in *. cbn in E. rewrite Ht in *.
    destruct l as [data|a|]; [|done|done].
    injection E as <-. exists (append_data data m).
    split; [done|]. unfold append_data. cbn. by rewrite Em, Ht.
  - by intros C [].
Defined.

Lemma inotify_reached {C} callback size file (c0 : C) m :
  0 < size < 2 ^ 64 -> mon_reached callback size file c0 m -> inotify_ok callback size c0 m.
Proof.
  intros Hs. induction 1 as [|l m m' _ IH E]; [by apply inotify_new_ok|].
  by eapply inotify_step_ok.
Qed.

#[global] Instance inotify_laws : FileMonitorLaws InotifyMonitor inotify_label.
Proof.
  refine (Build_FileMonitorLaws _ _ _ (fun size => 0 < size < 2 ^ 64) _ _ _ _ _ _ _); try done.
  - intros C callback size file c0 m Hs Hm. by destruct (inotify_reached _ _ _ _ _ Hs Hm).
  - intros C callback size file c0 m Hs Hm.
    etransitivity; [apply (io_prefix _ _ _ _ (inotify_reached _ _ _ _ _ Hs Hm))|]. apply prefix_take.
  - intros C callback size file c0 m l c m1 Hs Hm Hst Hl E.
    pose proof (inotify_reached _ _ _ _ _ Hs Hm) as Hok. cbn in *.
    destruct (im_owner m) eqn:Em; try done.
    destruct (io_joined _ _ _ _ Hok (or_introl Em)) as [reason Ht].
    unfold inotify_step, inotify_halted, inotify_monitorFile in *. cbn in E. rewrite Ht in *.
    destruct l as [data|a|]; [|done|done].
    injection E as <-. exists (im_append data m).
    split; [done|]. unfold im_append. cbn. by rewrite Em, Ht.
  - by intros C [].
Defined.

(** ** What the server has *)

Section streamer.
Context {W : Type} (env : LogEnv W) (name : str).
Abbreviation World := (W * list log_entry)%type.
Abbreviation Streamed := (LogStreamWriter * World * bool)%type.
Implicit Types (c : Streamed).

Abbreviation callback := (streamLogChunk (logged env)).

(** The writer and its log after some chunks: the server took some of them, in order,
    and all of them unless a write failed. *)
Definition streamed_ok (chunks : list FileChunk) c : Prop :=
  writer_ok name (fst c) /\ d_writeCommitted (fst (fst c)) = false /\
  exists taken, taken `sublist_of` chunks /\ accepted (log_of (fst c)) = concat taken /\
    (snd c = false -> taken = chunks).

Lemma sublist_zlen (l k : list str) : l `sublist_of` k -> zlen (concat l) <= zlen (concat k).
Proof.
  induction 1; cbn; rewrite ?zlen_app; [lia|lia|].
  pose proof (zlen_nonneg x). lia.
Qed.

Lemma streamLogChunk_ok chunks chunk c : streamed_ok chunks c ->
  zlen (concat chunks) + zlen chunk < 2 ^ 63 ->
  streamed_ok (chunks ++ [chunk]) (snd (callback chunk c)) /\ fst (callback chunk c) <> CbThrows.
Proof.
  destruct c as [s flag]. intros (Hw & Hc & taken & Ht & Ha & Hf) Hl. cbn [fst snd] in *.
  pose proof (sublist_zlen _ _ Ht). pose proof (write_spec env name s chunk Hw) as Hs.
  rewrite Hc in Hs. destruct Hs as (b & s' & E & Hw' & Ha' & Hc' & _); [rewrite Ha; lia|].
  unfold streamLogChunk. rewrite E. destruct b; cbn; split; try done; (split; [done|]);
    (split; [done|]).
  - exists (taken ++ [chunk]). split; [by apply sublist_app|].
    split; [etransitivity; [exact Ha'|]; rewrite Ha, concat_app; cbn; by rewrite app_nil_r|].
    intros H0. by rewrite (Hf H0).
  - exists taken. split; [by apply sublist_inserts_r|]. split; [etransitivity; [exact Ha'|]; by rewrite Ha, app_nil_r|done].
Qed.

Lemma feed_ok chunks c : streamed_ok [] c -> zlen (concat chunks) < 2 ^ 63 ->
  streamed_ok chunks (feed callback chunks c).
Proof.
  intros Hc. induction chunks as [|chunk chunks IH] using rev_ind; intros Hl; [done|].
  rewrite concat_app, zlen_app in Hl. cbn in Hl. rewrite app_nil_r in Hl.
  pose proof (zlen_nonneg chunk).
  unfold feed. rewrite fold_left_app. cbn. apply streamLogChunk_ok; [apply IH; lia|lia].
Qed.

(** ** Runs of the streamer *)

Section runs.
Context {Mon : Type -> Type} {L : Type} `{!FileMonitorImpl Mon L} {laws : FileMonitorLaws Mon L}.
Context (size : Z) (file : str) (limit delay : Z) (w : W).
Hypothesis Hsize : size_ok size.
Implicit Types (s : StandardOutputStreamer World Mon).

Definition start_of : Streamed := (LogStreamWriter_new name limit delay, (w, []), false).

Abbreviation new := (StandardOutputStreamer_new size file (LogStreamWriter_new name limit delay) (w, [])).
Abbreviation srun := (streamer_run (logged env)).
Abbreviation sstep := (streamer_step (logged env)).
Abbreviation reached := (mon_reached callback size file start_of).

Definition streamer_reachable s : Prop := exists labels, srun labels new = Some s.

Lemma start_ok : streamed_ok [] start_of.
Proof.
  split; [|split; [done|by exists []]]. split; cbn; [done|constructor|done|].
  unfold u32. apply Z.mod_pos_bound. lia.
Qed.

(** A commit that came to its end, and the monitor before it. *)
Definition committed_from (m : Mon Streamed) (result : res bool) (m' : Mon Streamed) : Prop :=
  (mon_stopped m = true) /\ exists after, commit (logged env) (fst (mon_callback m)) = (result, after) /\
    m' = mon_set_callback (after, snd (mon_callback m)) m.

Definition streamer_ok s : Prop :=
  match so_pc s with
  | SReturned result =>
      (reached (d_fileMonitor s) /\ result = Ok false) \/
      exists m, reached m /\ committed_from m result (d_fileMonitor s)
  | SCommit => reached (d_fileMonitor s) /\ mon_stopped (d_fileMonitor s) = true
  | _ => reached (d_fileMonitor s)
  end.

Lemma monitor_moves_inv l s s' : monitor_moves (logged env) l s = Some s' ->
  exists m, mon_step callback l (d_fileMonitor s) = Some m /\ s' = set_monitor m s.
Proof.
  unfold monitor_moves. destruct (mon_step _ _ _) as [m|]; [|done]. intros [= <-]. by exists m.
Qed.

(** The thread and the writers. *)
Lemma others_ok l s s' : owner_label l = false -> streamer_ok s ->
  monitor_moves (logged env) l s = Some s' -> streamer_ok s'.
Proof.
  intros Hl H E. apply monitor_moves_inv in E as (m & E & ->). unfold streamer_ok in *.
  cbn. destruct (so_pc s) as [| | | | |r]; try by eapply mon_reached_step.
  - destruct H as [H Hm]. split; [by eapply mon_reached_step|].
    rewrite <- (set_callback_same (d_fileMonitor s)) in E.
    destruct (law_stopped _ _ _ _ _ _ _ _ Hsize H Hm Hl E) as (m2 & _ & -> & Hm2 & Hc).
    by rewrite <- Hc, set_callback_same.
  - destruct H as [[H ->]|(m0 & H & Ht & c & Hc & Hm)].
    { left. split; [by eapply mon_reached_step|done]. }
    right. rewrite Hm in E.
    destruct (law_stopped _ _ _ _ _ _ _ _ Hsize H Ht Hl E) as (m2 & E2 & -> & Hm2 & Hc2).
    exists m2. split; [by eapply mon_reached_step|]. split; [done|]. exists c. by rewrite Hc2.
Qed.

Lemma owner_ok l s s' : streamer_ok s -> owner_step (logged env) l s = Some s' -> streamer_ok s'.
Proof.
  intros H E. unfold owner_step in E. unfold streamer_ok in H.
  destruct (so_pc s) as [| | | | |r] eqn:Ep; try done.
  - destruct (negb (mon_constructed (d_fileMonitor s))); [|by injection E as <-].
    apply monitor_moves_inv in E as (m & E & ->). unfold streamer_ok. cbn. rewrite Ep.
    by eapply mon_reached_step.
  - destruct (stop_requested s); injection E as <-; [by left|done].
  - by injection E as <-.
  - destruct (mon_stopped (d_fileMonitor s)) eqn:Em; [by injection E as <-|].
    apply monitor_moves_inv in E as (m & E & ->). unfold streamer_ok. cbn. rewrite Ep.
    by eapply mon_reached_step.
  - injection E as <-. destruct H as [H Hm]. unfold commit_log.
    destruct (mon_callback (d_fileMonitor s)) as [c flag] eqn:Ec.
    destruct (commit (logged env) c) as [r c'] eqn:Eco.
    right. exists (d_fileMonitor s). split; [done|]. split; [done|]. exists c'. by rewrite Ec.
Qed.

Lemma streamer_run_app labels1 labels2 s s1 : srun labels1 s = Some s1 ->
  srun (labels1 ++ labels2) s = srun labels2 s1.
Proof.
  revert s. induction labels1 as [|l labels1 IH]; intros s E; cbn in *; [by simplify_eq|].
  destruct (sstep l s) as [s2|]; [|done]. by apply IH.
Qed.

Lemma streamer_step_ok l s s' : streamer_ok s -> sstep l s = Some s' -> streamer_ok s'.
Proof.
  intros H E. unfold streamer_step in E. destruct (mon_halted _); [done|].
  destruct (owner_label l) eqn:Hl; [by eapply owner_ok|by eapply others_ok].
Qed.

Lemma streamer_run_ok labels s s' : streamer_ok s -> srun labels s = Some s' -> streamer_ok s'.
Proof.
  revert s. induction labels as [|l labels IH]; intros s H E; cbn in E; [by simplify_eq|].
  destruct (sstep l s) as [s1|] eqn:E1; [|done]. eapply IH; [|done]. by eapply streamer_step_ok.
Qed.

Lemma streamer_reachable_ok s : streamer_reachable s -> streamer_ok s.
Proof. intros [labels E]. eapply streamer_run_ok; [|exact E]. constructor. Qed.

(** What is known when [stop] has returned true: the monitor before the commit, and the
    writer and its log after it. *)
Lemma returned_true s : streamer_reachable s -> so_pc s = SReturned (Ok true) ->
  zlen (mon_file (d_fileMonitor s)) < 2 ^ 63 ->
  (exists m, reached m /\ (mon_stopped m = true) /\
     d_fileMonitor s = mon_set_callback (mon_callback (d_fileMonitor s)) m) /\
  let '(self, (_, log), failed) := mon_callback (d_fileMonitor s) in
  log_ok name log /\ d_writeResponse self = zlen (accepted log) /\
  exists taken, taken `sublist_of` mon_delivered (d_fileMonitor s) /\ accepted log = concat taken /\
    (failed = false -> taken = mon_delivered (d_fileMonitor s)).
Proof.
  intros Hs Hr Hl. pose proof (streamer_reachable_ok s Hs) as H. unfold streamer_ok in H.
  rewrite Hr in H. destruct H as [[_ [=]]|(m & Hm & Ht & c & Hc & E)].
  pose proof (law_prefix _ _ _ _ _ Hsize Hm) as Hpre. rewrite E in *.
  rewrite set_callback_file in Hl. rewrite set_callback_delivered, set_callback_get.
  split; [by exists m|].
  assert (streamed_ok (mon_delivered m) (mon_callback m)) as Hst.
  { rewrite (law_callback _ _ _ _ _ Hsize Hm). apply feed_ok; [apply start_ok|].
    apply prefix_length in Hpre. unfold zlen in *. lia. }
  destruct Hst as (Hw & Hcm & taken & Hsub & Ha & Hf).
  pose proof (commit_spec env name _ Hw) as Hcs. rewrite Hcm, Hc in Hcs.
  destruct Hcs as (b & s' & [= <- <-] & Hw' & Ha' & _ & Hresp).
  destruct c as [self [w' log]]. cbn [fst snd] in *.
  split; [exact (wo_log _ _ Hw')|]. split; [by apply Hresp|].
  exists taken. split; [done|]. unfold log_of in *. cbn [snd] in *.
  split; [by rewrite Ha', Ha|]. intros Hfl. by rewrite (Hf Hfl).
Qed.

(** C26. With either monitor: when [stop] has returned true, every request was for the
    stream and placed at the end of what the server had taken; the server took chunks
    the monitor delivered, in their order, and confirmed their number of bytes; and
    unless a write failed, it took the beginning of the file, up to where the monitor
    has delivered. *)
Theorem stop_true_is_confirmed s
    (Hs : streamer_reachable s) (Hr : so_pc s = SReturned (Ok true))
    (Hl : zlen (mon_file (d_fileMonitor s)) < 2 ^ 63) :
  let '(self, (_, log), failed) := mon_callback (d_fileMonitor s) in
  log_ok name log /\ d_writeResponse self = zlen (accepted log) /\
  exists taken, taken `sublist_of` mon_delivered (d_fileMonitor s) /\ accepted log = concat taken /\
    (failed = false ->
     accepted log = concat (mon_delivered (d_fileMonitor s)) /\
     accepted log `prefix_of` mon_file (d_fileMonitor s)).
Proof.
  destruct (returned_true s Hs Hr Hl) as [(m & Hm & Ht & E) H].
  pose proof (law_prefix _ _ _ _ _ Hsize Hm) as Hpre.
  assert (concat (mon_delivered (d_fileMonitor s)) `prefix_of` mon_file (d_fileMonitor s)) as Hp
    by (by rewrite E, set_callback_file, set_callback_delivered).
  destruct (mon_callback (d_fileMonitor s)) as [[self [w' log]] failed].
  destruct H as (H1 & H2 & taken & H3 & H4 & H5).
  split; [done|]. split; [done|]. exists taken. split; [done|]. split; [done|].
  intros Hf. rewrite H4, (H5 Hf). by split.
Qed.

(** A step changes the monitor as its own step does, or not, or what the callback acts
    on once [stop] has returned; [c] is that. *)
Lemma streamer_step_cases l s s' : streamer_ok s -> sstep l s = Some s' ->
  exists m c, reached m /\ d_fileMonitor s = mon_set_callback c m /\
  ((exists m' c', mon_step callback l m = Some m' /\ d_fileMonitor s' = mon_set_callback c' m') \/
   exists c', d_fileMonitor s' = mon_set_callback c' m).
Proof.
  intros H E.
  assert (reached (d_fileMonitor s) -> d_fileMonitor s' = d_fileMonitor s \/
    (exists c', d_fileMonitor s' = mon_set_callback c' (d_fileMonitor s)) \/
    monitor_moves (logged env) l s = Some s' ->
    exists m c, reached m /\ d_fileMonitor s = mon_set_callback c m /\
      ((exists m' c', mon_step callback l m = Some m' /\ d_fileMonitor s' = mon_set_callback c' m') \/
       exists c', d_fileMonitor s' = mon_set_callback c' m)) as Hsame.
  { intros Hm Hcase. exists (d_fileMonitor s), (mon_callback (d_fileMonitor s)).
    rewrite set_callback_same. do 2 (split; [done|]).
    destruct Hcase as [->|[[c' ->]|Em]].
    - right. eexists. by rewrite set_callback_same.
    - right. by exists c'.
    - left. apply monitor_moves_inv in Em as (m & Em & ->).
      exists m, (mon_callback m). by rewrite set_callback_same. }
  unfold streamer_step in E. destruct (mon_halted _); [done|]. unfold streamer_ok in H.
  destruct (owner_label l) eqn:Hl.
  - unfold owner_step in E. destruct (so_pc s) as [| | | | |r]; try done.
    + destruct (negb _); [auto|injection E as <-; auto].
    + destruct (stop_requested s); injection E as <-; auto.
    + injection E as <-. auto.
    + destruct (mon_stopped _); [injection E as <-; auto|auto].
    + injection E as <-. apply Hsame; [apply H|]. right. left. unfold commit_log.
      destruct (mon_callback (d_fileMonitor s)) as [c flag].
      destruct (commit (logged env) c) as [r c']. by eexists.
  - destruct (so_pc s) as [| | | | |r]; try (by auto); [by apply Hsame; [apply H|auto]|].
    destruct H as [[H _]|(m0 & H & Ht & c & _ & Em)]; [by auto|].
    apply monitor_moves_inv in E as (m & E & ->). rewrite Em in E.
    destruct (law_stopped _ _ _ _ _ _ _ _ Hsize H Ht Hl E) as (m2 & E2 & -> & _ & _).
    exists m0, (c, snd (mon_callback m0)). do 2 (split; [done|]). left. by eexists _, _.
Qed.

(** What steps of the monitor keep, and what does not depend on what the callback acts
    on, is kept by the streamer. *)
Lemma streamer_run_keeps (ok : L -> Prop) (P : Mon Streamed -> Prop) labels s s' :
  (forall l m m', ok l -> reached m -> P m -> mon_step callback l m = Some m' -> P m') ->
  (forall c m, P (mon_set_callback c m) <-> P m) ->
  Forall ok labels -> streamer_ok s -> P (d_fileMonitor s) -> srun labels s = Some s' ->
  P (d_fileMonitor s').
Proof.
  intros Hstep Hset Hl. revert s. induction Hl as [|l labels Ha Hl IH]; intros s H Hs E; cbn in E.
  { by injection E as <-. }
  destruct (sstep l s) as [s1|] eqn:E1; [|done].
  apply (IH s1); [by eapply streamer_step_ok| |done].
  destruct (streamer_step_cases l s s1 H E1) as (m & c & Hm & Es & Hcase).
  rewrite Es in Hs. apply Hset in Hs.
  destruct Hcase as [(m' & c' & Em & ->)|[c' ->]]; apply Hset; [by eapply Hstep|done].
Qed.
End runs.

(** ** The whole file *)

Section polling.
Context (size : Z) (file : str) (limit delay : Z) (w : W).
Hypothesis Hsize : 102 <= size < 2 ^ 64.
Implicit Types (s : StandardOutputStreamer World Monitor).

Abbreviation polling_start := (start_of limit delay w).

(** No bytes are left once [stop] was called on a monitor that had read them all. *)
Lemma settled_reached m m' labels :
  mon_reached callback size file polling_start m -> settled m ->
  Forall (fun l => is_append l = false) labels -> monitor_run callback labels m = Some m' ->
  settled m' /\ fm_file m' = fm_file m.
Proof.
  intros Hm%polling_reachable. apply (settled_run callback size polling_start).
  by apply (monitor_reachable_ok callback size file).
Qed.

(** Once [stop] is called with all bytes read, the monitor stays settled and the file is
    the one that was read. *)
Lemma settled_after_stop s s' labels :
  streamer_reachable size file limit delay w s -> so_pc s = SMonitor ->
  fm_main (d_fileMonitor s) = MStore ->
  fm_position (d_fileMonitor s) = zlen (fm_file (d_fileMonitor s)) ->
  (fm_thread (d_fileMonitor s) = TEnd -> d_read_buffer_offset (d_fileMonitor s) = 0) ->
  Forall (fun l => is_append l = false) labels ->
  streamer_run (logged env) (Main :: labels) s = Some s' ->
  settled (d_fileMonitor s') /\ fm_file (d_fileMonitor s') = fm_file (d_fileMonitor s).
Proof.
  intros Hs Hpc Hstop Hread Hend Hlabels Hrun.
  pose proof (Hsize : size_ok (Mon := Monitor) (L := label) size) as Hsz.
  pose proof (streamer_reachable_ok _ _ _ _ _ Hsz s Hs) as H.
  cbn [streamer_run] in Hrun.
  destruct (streamer_step (logged env) Main s) as [s1|] eqn:E1; [|done].
  pose proof (streamer_step_ok _ _ _ _ _ Hsz _ _ _ H E1) as H1.
  unfold streamer_ok in H. rewrite Hpc in H.
  assert (mon_stopped (d_fileMonitor s) = false) as Hns by (cbn; by rewrite Hstop).
  unfold streamer_step in E1. destruct (mon_halted _) eqn:Hh; [done|].
  change (owner_label Main) with true in E1. unfold owner_step in E1. rewrite Hpc, Hns in E1.
  apply monitor_moves_inv in E1 as (m1 & E1 & ->). cbn in E1, Hh.
  unfold monitor_step, stop in E1. rewrite Hh, Hstop in E1. injection E1 as <-.
  set (m1 := set_main MJoin (set_stop (d_fileMonitor s))) in *.
  assert (settled m1) as Hs1.
  { apply (settled_at_stop callback size polling_start);
      [by apply (monitor_reachable_ok callback size file), polling_reachable|done..]. }
  apply (streamer_run_keeps size file limit delay w Hsz (fun l => is_append l = false)
           (fun m => settled m /\ fm_file m = fm_file m1) labels (set_monitor m1 s) s'); try done.
  intros l m m' Ha Hm [Hsm <-] E. apply (settled_reached m m' [l]); try done.
  - by apply Forall_singleton.
  - cbn in *. by rewrite E.
Qed.

(** When [stop] of a settled monitor has returned true, the server has the file. *)
Lemma settled_streamed s :
  streamer_reachable size file limit delay w s -> so_pc s = SReturned (Ok true) ->
  settled (d_fileMonitor s) -> snd (fm_callback (d_fileMonitor s)) = false ->
  zlen (fm_file (d_fileMonitor s)) < 2 ^ 63 ->
  let '(self, (_, log), _) := fm_callback (d_fileMonitor s) in
  accepted log = fm_file (d_fileMonitor s) /\
  d_writeResponse self = zlen (fm_file (d_fileMonitor s)).
Proof.
  intros Hs Hr (_ & Hp & Ho) Hfailed Hl.
  pose proof (Hsize : size_ok (Mon := Monitor) (L := label) size) as Hsz.
  destruct (returned_true size file limit delay w Hsz s Hs Hr Hl)
    as [(m & Hm%polling_reachable & Ht & E) Hlog].
  pose proof (monitor_reachable_ok callback size file polling_start m Hsize Hm) as Hok.
  cbn in Ht, Hlog. destruct (fm_main m) eqn:Em; try done. clear Ht.
  pose proof (ok_joined _ _ _ _ Hok (or_introl Em)) as Ht.
  pose proof (ok_contents _ _ _ _ Hok) as Hc. unfold halted in Hc.
  rewrite Ht in Hc. specialize (Hc eq_refl).
  destruct (fm_callback (d_fileMonitor s)) as [[self [w' log]] failed] eqn:Ec.
  destruct Hlog as (_ & Hresp & taken & _ & Ha & Htk). rewrite (Htk Hfailed) in Ha.
  rewrite E in Hp, Ho, Ha |- *. cbn in Hp, Ho, Ha |- *.
  rewrite (Ho (or_intror Ht)), ztake_0, app_nil_r, Hp, (ztake_ge _ (fm_file m)) in Hc
    by apply Z.le_refl.
  assert (accepted log = fm_file m) as Ea by congruence.
  split; [done|]. by rewrite Hresp, Ea.
Qed.

(** C25. In a build without inotify (the monitor polls the file), when the command has
    written all its output and the monitor has read it by the time [stop] is called,
    no write fails, and [stop] returns true, then the server has the output of the
    command, all of it and nothing else, and has confirmed its size; provided that
    [stop] does not come while the thread, having found no flag and nothing more to
    read, is about to look at the flag for the second time with bytes in its buffer
    (it would end and not deliver them). *)
Theorem whole_output_streamed s s' (labels : list label)
    (Hs : streamer_reachable size file limit delay w s) (Hpc : so_pc s = SMonitor)
    (Hstop : fm_main (d_fileMonitor s) = MStore)
    (Hread : fm_position (d_fileMonitor s) = zlen (fm_file (d_fileMonitor s)))
    (Hend : fm_thread (d_fileMonitor s) = TEnd -> d_read_buffer_offset (d_fileMonitor s) = 0)
    (Hlabels : Forall (fun l => is_append l = false) labels)
    (Hrun : streamer_run (logged env) (Main :: labels) s = Some s') (Hr : so_pc s' = SReturned (Ok true))
    (Hfailed : snd (fm_callback (d_fileMonitor s')) = false)
    (Hl : zlen (fm_file (d_fileMonitor s)) < 2 ^ 63) :
  let '(self, (_, log), _) := fm_callback (d_fileMonitor s') in
  accepted log = fm_file (d_fileMonitor s) /\
  d_writeResponse self = zlen (fm_file (d_fileMonitor s)).
Proof.
  assert (streamer_reachable size file limit delay w s') as Hs'.
  { destruct Hs as [l0 E0]. exists (l0 ++ Main :: labels). by rewrite (streamer_run_app _ _ _ _ E0). }
  destruct (settled_after_stop s s' labels) as [H1 H2]; [done..|].
  rewrite <- H2 in *. by apply settled_streamed.
Qed.
End polling.

Section inotify.
Context (size : Z) (file : str) (limit delay : Z) (w : W).
Hypothesis Hsize : 0 < size < 2 ^ 64.
Implicit Types (s : StandardOutputStreamer World InotifyMonitor).

(** In a build with inotify, when the command has written all its output and closed the
    file, the thread ended because it had seen the close, no write fails and [stop]
    returns true, then the server has the output, all of it and nothing else, and has
    confirmed its size. *)
Theorem whole_output_streamed_inotify s s' (labels : list inotify_label)
    (Hs : streamer_reachable size file limit delay w s)
    (Hrunning : im_thread (d_fileMonitor s) <> IDone FileClosed)
    (Hlabels : Forall (fun l => is_iappend l = false) labels)
    (Hrun : streamer_run (logged env) labels s = Some s') (Hr : so_pc s' = SReturned (Ok true))
    (Hdone : im_thread (d_fileMonitor s') = IDone FileClosed)
    (Hfailed : snd (im_callback (d_fileMonitor s')) = false)
    (Hl : zlen (im_file (d_fileMonitor s')) < 2 ^ 63) :
  let '(self, (_, log), _) := im_callback (d_fileMonitor s') in
  accepted log = im_file (d_fileMonitor s') /\
  d_writeResponse self = zlen (im_file (d_fileMonitor s')).
Proof.
  pose proof (Hsize : size_ok (Mon := InotifyMonitor) (L := inotify_label) size) as Hsz.
  pose proof (streamer_reachable_ok _ _ _ _ _ Hsz s Hs) as H.
  assert (caught_up (d_fileMonitor s')) as Hcaught.
  { apply (streamer_run_keeps size file limit delay w Hsz (fun l => is_iappend l = false)
             caught_up labels s s'); [|done|done|done|by intros Ht; destruct (Hrunning Ht)|done].
    intros l m m' Ha Hm Hc E.
    pose proof (inotify_reached _ _ _ _ _ Hsize Hm) as Hok. by eapply caught_up_step. }
  assert (streamer_reachable size file limit delay w s') as Hs'.
  { destruct Hs as [l0 E0]. exists (l0 ++ labels). by rewrite (streamer_run_app _ _ _ _ E0). }
  destruct (returned_true size file limit delay w Hsz s' Hs' Hr Hl) as [(m & Hm & _ & E) Hlog].
  pose proof (inotify_reached _ _ _ _ _ Hsize Hm) as Hok. cbn in Hlog.
  specialize (Hcaught Hdone).
  destruct (im_callback (d_fileMonitor s')) as [[self [w' log]] failed] eqn:Ec.
  destruct Hlog as (_ & Hresp & taken & _ & Ha & Htk). rewrite (Htk Hfailed) in Ha.
  rewrite E in Hdone, Ha, Hcaught |- *. cbn in Hdone, Ha, Hcaught |- *.
  assert (inotify_halted m = false) as Hh by (unfold inotify_halted; by rewrite Hdone).
  pose proof (io_contents _ _ _ _ Hok Hh) as Hc. unfold undelivered in Hc.
  rewrite Hdone, app_nil_r, Hcaught, ztake_ge in Hc by apply Z.le_refl.
  assert (accepted log = im_file m) as Ea by congruence.
  split; [done|]. by rewrite Hresp, Ea.
Qed.
End inotify.
End streamer.

(** ** Examples *)

(** A server that refuses the first [k] requests, and counts the bytes. *)
Definition refusing_env : LogEnv (nat * Z) :=
  MkLogEnv _
    (fun _ _ w => (status_of OK, w))
    (fun w => w)
    (fun r '(k, n) => match k with
                      | O => (true, (O, n + zlen (wr_data r)))
                      | S k => (false, (k, n))
                      end)
    (fun w => w)
    (fun '(k, n) => (status_of OK, n, (k, n)))
    (fun _ parent w => (status_of OK, parent, w))
    (fun _ => None).

(** The constructor; the thread reads five bytes; [stop]. *)
Definition toy_begin : list label :=
  [Main; Main; read_all; read_all; read_all; read_all; read_all; Main; Main; Main].
Definition toy_stop : list label := [read_all; read_all; Main; Main; Main].

(** The state after a run, if it passes a test. *)
Definition toy_streamer (refused : nat) (labels : list label)
  : option (StandardOutputStreamer (nat * Z * list (WriteRequest * bool)) Monitor) :=
  streamer_run (logged refusing_env) labels
    (StandardOutputStreamer_new 128 (letters 5) (LogStreamWriter_new (L "s") 0 0) ((refused, 0), [])).

(** The last write fails after [stop] was called: [stop] returns true, and the server
    has nothing. *)
Example failed_write_is_committed :
  (s ← toy_streamer 1 (toy_begin ++ Main :: toy_stop);
   let '(_, (_, log), failed) := fm_callback (d_fileMonitor s) in
   Some (so_pc s, zlen (fm_file (d_fileMonitor s)), accepted log, failed)) =
  Some (SReturned (Ok true), 5, [], true).
Proof. vm_compute. reflexivity. Qed.

(** A write that fails before [stop] ends the process. *)
Example failed_write_terminates :
  (s ← streamer_run (logged refusing_env)
         [Main; Main; read_all; read_all; read_all; read_all; read_all]
         (StandardOutputStreamer_new 128 (letters 120) (LogStreamWriter_new (L "s") 0 0) ((1%nat, 0), []));
   Some (fm_thread (d_fileMonitor s))) = Some TTerminated.
Proof. vm_compute. reflexivity. Qed.

#[local] Instance streamer_pc_dec : EqDecision streamer_pc.
Proof. solve_decision. Defined.
#[local] Instance toy_thread_dec : EqDecision thread_pc.
Proof. solve_decision. Defined.
#[local] Instance toy_main_dec : EqDecision stop_pc.
Proof. solve_decision. Defined.

Lemma toy_reachable labels s : toy_streamer 0 labels = Some s ->
  streamer_reachable refusing_env (L "s") 128 (letters 5) 0 0 (0%nat, 0) s.
Proof. unfold toy_streamer. intros E. exists labels. exact E. Qed.

Lemma toy_streamer_run labels (test : StandardOutputStreamer _ Monitor -> bool) :
  from_option test false (toy_streamer 0 labels) = true ->
  exists s, toy_streamer 0 labels = Some s /\ test s = true.
Proof. destruct (toy_streamer 0 labels) as [s|]; [|done]. by exists s. Qed.

Lemma stop_true_is_confirmed_witness :
  exists s, toy_streamer 0 (toy_begin ++ Main :: toy_stop) = Some s /\
    let '(self, (_, log), _) := fm_callback (d_fileMonitor s) in
    accepted log `prefix_of` fm_file (d_fileMonitor s) /\ d_writeResponse self = 5.
Proof.
  destruct (toy_streamer_run (toy_begin ++ Main :: toy_stop) (fun s =>
    bool_decide (so_pc s = SReturned (Ok true)) && bool_decide (zlen (fm_file (d_fileMonitor s)) = 5) &&
    negb (snd (fm_callback (d_fileMonitor s))) &&
    bool_decide (d_writeResponse (fst (fst (fm_callback (d_fileMonitor s)))) = 5)))
    as (s & E & [[[Hr%bool_decide_eq_true Hl%bool_decide_eq_true]%andb_true_iff
      Hf%negb_true_iff]%andb_true_iff Hw%bool_decide_eq_true]%andb_true_iff); [by vm_compute|].
  exists s. split; [exact E|].
  assert (size_ok (Mon := Monitor) (L := label) 128) as Hsz by (cbn; lia).
  pose proof (stop_true_is_confirmed refusing_env (L "s") 128 (letters 5) 0 0 (0%nat, 0) Hsz s
    (toy_reachable _ _ E) Hr ltac:(cbn; rewrite Hl; lia)) as H.
  change (mon_callback (d_fileMonitor s)) with (fm_callback (d_fileMonitor s)) in H.
  destruct (fm_callback (d_fileMonitor s)) as [[self [w log]] failed]. cbn [fst snd] in *.
  destruct H as (_ & _ & taken & _ & _ & Hp). split; [apply Hp, Hf|exact Hw].
Defined.

Lemma whole_output_streamed_witness :
  exists s s', toy_streamer 0 toy_begin = Some s /\
    streamer_run (logged refusing_env) (Main :: toy_stop) s = Some s' /\
    let '(_, (_, log), _) := fm_callback (d_fileMonitor s') in
    accepted log = fm_file (d_fileMonitor s) /\ zlen (fm_file (d_fileMonitor s)) = 5.
Proof.
  destruct (toy_streamer_run toy_begin (fun s =>
    bool_decide (so_pc s = SMonitor) && bool_decide (fm_main (d_fileMonitor s) = MStore) &&
    bool_decide (fm_position (d_fileMonitor s) = zlen (fm_file (d_fileMonitor s))) &&
    bool_decide (fm_thread (d_fileMonitor s) = TLast 0) &&
    bool_decide (zlen (fm_file (d_fileMonitor s)) = 5) &&
    from_option (fun s' => bool_decide (so_pc s' = SReturned (Ok true)) &&
      negb (snd (fm_callback (d_fileMonitor s')))) false
      (streamer_run (logged refusing_env) (Main :: toy_stop) s)))
    as (s & E & [[[[[Hp%bool_decide_eq_true Hm%bool_decide_eq_true]%andb_true_iff
      Hr%bool_decide_eq_true]%andb_true_iff Ht%bool_decide_eq_true]%andb_true_iff
      Hl%bool_decide_eq_true]%andb_true_iff He]%andb_true_iff); [by vm_compute|].
  destruct (streamer_run (logged refusing_env) (Main :: toy_stop) s) as [s'|] eqn:E'; [|discriminate He].
  apply andb_true_iff in He as [Hd%bool_decide_eq_true Hf%negb_true_iff].
  exists s, s'. split; [exact E|]. split; [exact E'|].
  assert (fm_thread (d_fileMonitor s) = TEnd -> d_read_buffer_offset (d_fileMonitor s) = 0) as He
    by (rewrite Ht; discriminate).
  assert (zlen (fm_file (d_fileMonitor s)) < 2 ^ 63) as Hb by (rewrite Hl; lia).
  assert (Forall (fun l => is_append l = false) toy_stop) as Ha by (unfold toy_stop; repeat (constructor; [reflexivity|]); constructor).
  pose proof (whole_output_streamed refusing_env (L "s") 128 (letters 5) 0 0 (0%nat, 0) ltac:(lia)
    s s' toy_stop (toy_reachable _ _ E) Hp Hm Hr He Ha E' Hd Hf Hb) as H.
  destruct (fm_callback (d_fileMonitor s')) as [[self [w log]] failed].
  split; [apply H|exact Hl].
Defined.

(** The same with inotify: the command writes and closes its output, and then [stop]. *)
Definition toy_inotify_streamer (labels : list inotify_label)
  : option (StandardOutputStreamer (nat * Z * list (WriteRequest * bool)) InotifyMonitor) :=
  streamer_run (logged refusing_env) labels
    (StandardOutputStreamer_new 128 [] (LogStreamWriter_new (L "s") 0 0) ((0%nat, 0), [])).

Definition toy_inotify_begin : list inotify_label :=
  constructed ++ [owner; IAppends (letters 200); polled; told [modified]].
Definition toy_inotify_end : list inotify_label :=
  [reads; timeout; reads; timeout; reads; owner; owner; owner; owner;
   polled; told [closed_event]; reads; owner; owner; owner].

Lemma whole_output_streamed_inotify_witness :
  exists s s', toy_inotify_streamer toy_inotify_begin = Some s /\
    streamer_run (logged refusing_env) toy_inotify_end s = Some s' /\
    let '(_, (_, log), _) := im_callback (d_fileMonitor s') in
    accepted log = im_file (d_fileMonitor s') /\ zlen (im_file (d_fileMonitor s')) = 200.
Proof.
  destruct (toy_inotify_streamer toy_inotify_begin) as [s|] eqn:E; [|vm_compute in E; discriminate E].
  destruct (streamer_run (logged refusing_env) toy_inotify_end s) as [s'|] eqn:E'.
  2: { vm_compute in E. injection E as <-. vm_compute in E'. discriminate E'. }
  assert ((im_thread (d_fileMonitor s) <> IDone FileClosed /\ so_pc s' = SReturned (Ok true) /\
    im_thread (d_fileMonitor s') = IDone FileClosed /\
    snd (im_callback (d_fileMonitor s')) = false /\ zlen (im_file (d_fileMonitor s')) = 200))
    as (Ht & Hr & Hd & Hf & Hl).
  { vm_compute in E. injection E as <-. vm_compute in E'. injection E' as <-.
    repeat (split; [first [reflexivity|discriminate]|]). reflexivity. }
  exists s, s'. split; [reflexivity|]. split; [exact E'|].
  assert (Forall (fun l => is_iappend l = false) toy_inotify_end) as Ha
    by (unfold toy_inotify_end; repeat (constructor; [reflexivity|]); constructor).
  pose proof (whole_output_streamed_inotify refusing_env (L "s") 128 [] 0 0 (0%nat, 0) ltac:(lia)
    s s' toy_inotify_end (ex_intro _ toy_inotify_begin E) Ht Ha E' Hr Hd Hf
    ltac:(rewrite Hl; lia)) as H.
  destruct (im_callback (d_fileMonitor s')) as [[self [w log]] failed].
  split; [apply H|exact Hl].
Defined.
